(* ===== verification/_CoqProject ===== *)
-Q . S2P
Prelude.v
GoStd.v
PbftTypes.v
PbftCore.v
PbftToy.v
PbftInv.v
PbftSelect.v
PbftSym.v
PbftPreserve.v
PbftTheorems.v
PbftViewChange.v
PbftFindings.v
PbftNetwork.v
GoBytes.v
LedgerUtil.v
KVStore.v
StateDelta.v
StateSpec.v
HashableState.v
State.v
StateScan.v
StateRefine.v
Blockchain.v
BlockchainSpec.v
Ledger.v
LedgerRefine.v
BucketKeys.v
BucketNode.v
BucketHash.v
BucketSpec.v
BucketState.v
BucketStore.v
BucketDelta.v
BucketProcess.v
BucketCommit.v
BucketScan.v
BucketTree.v
BucketToy.v
BucketBinding.v
BucketTheorems.v
LedgerToy.v
LedgerBoot.v
LedgerTheorems.v
LedgerFindings.v
AsyncIndexer.v
AsyncSpec.v
AsyncTheorems.v
ExecTransaction.v
ConsensusHelper.v
Executor.v
Replicas.v
ReplicaLedgers.v
ReplicaTheorems.v
CheckpointPath.v
StateTransfer.v
PeerSync.v
TransferSpec.v
TransferLedger.v
TransferLive.v
TransferTheorems.v
Plugin.v
ObcBatch.v
ObcClassic.v
ObcSieve.v
PluginToy.v
BatchTheorems.v
PluginReplicas.v
SieveTheorems.v
Noops.v
NoopsTheorems.v
Fsm.v
ChaincodeHandler.v
ShimHandler.v
Conversation.v
ConversationSteps.v
ConversationTheorems.v
HandlerSafety.v
ShimTables.v
TableTheorems.v
PagedQueries.v
