(* ===== verification/Prelude.v ===== *)
(** * A verification of the validating peer of Hyperledger Fabric

    The sources are those of a blockchain peer written in Go (src/).  Validating peers
    agree on an order of transactions, execute them with chaincode and keep the results in
    a ledger.  This library models the consensus plugins, the execution of transactions,
    the two ends of the stream between a peer and a chaincode, the ledger with its state
    and its chain of blocks, and the transfer of state between peers, and proves what makes
    each of them correct, alone and together.

    ** The program's parts and how they interact

    A request reaches a consensus plugin (consensus/obcpbft or consensus/noops).  The PBFT
    plugins hand it to the PBFT engine, which exchanges messages with the engines of the
    other replicas and calls the plugin back with what is ordered.  The plugin gives the
    ordered transactions to an executor, whose thread runs them through the consensus
    helper: a batch of transactions is opened in the ledger, each transaction is executed
    by its chaincode, which reads and writes the state over a stream, and the batch is
    committed as a block that carries a hash of the state.  The state is kept in a bucket
    tree on a database, with indexes of the blocks beside it.  A replica that has fallen
    behind fetches blocks, deltas and snapshots from the others and checks them against a
    block hash that consensus vouches for.

    ** How Go is represented

    This file, [Prelude], has the vocabulary.  A method is a computation in the monad
    [M S] over the state [S] of its component: it returns a value and a new state ([Done]),
    panics ([Panic]), or does not return ([Diverge]), which stands for a loop or a blocked
    operation that does not end, and for fuel that is exhausted.  Fields are updated with
    [s <| field := v |>].  The rules for [wlp] (if it returns), [wp] (it does not panic
    and, if it returns), [twp] (it returns) and [guar] (a relation of the states before and
    after) run a method symbolically.  [uint64] arithmetic wraps explicitly ([u64]).  The
    order in which Go ranges over a map is a parameter ([mapOrder]), so that theorems hold
    for all orders.  [GoStd] and [GoBytes] have the parts of Go's library the code computes
    with: base64, sorting, byte comparison, big-endian integers, varints.

    What is not in the sources, or only calls out of them, is a parameter: RocksDB, the
    protobuf wire format, hash functions, clocks, signatures, the network, the containers.
    Where a theorem relies on one, what it relies on is a class of laws with an instance or
    a hypothesis that a witness discharges on a concrete value (files [...Toy] and the
    modules of witnesses).

    ** The PBFT engine (consensus/obcpbft/pbft-core.go, viewchange.go, sign.go)

    [PbftTypes] has the messages and the record [pbftCore], [PbftCore] one definition for
    each method.  The lock is represented by one call running after the other; the engine
    releases it while it executes a request, and what other threads do then is a schedule
    in the state.  [PbftInv] and [PbftPreserve] state an invariant of one replica against
    an account of what the others sent and show that every handler keeps it; [PbftSym] has
    the symbolic rules, [PbftSelect] the pure part of the view change.  [PbftNetwork] is an
    asynchronous network with at most f Byzantine replicas, in which messages are lost,
    duplicated and reordered: correct replicas never commit different requests under one
    number in one view ([agreement_in_view]), never contradict themselves
    ([no_equivocation]), only commit what a quorum prepared ([commit_justified]) and stay
    well-formed ([replica_well_formed]).  [PbftTheorems] and [PbftViewChange] have the
    behaviour of single operations: execution without gaps, the two timer counters, window
    arithmetic, the selection of checkpoints and requests for a new view.  [PbftFindings]
    runs the engine where it departs from its comments.

    ** The plugins (consensus/obcpbft/obc-*.go, consensus/noops)

    [Plugin], [ObcBatch], [ObcClassic], [ObcSieve] and [Noops] model the plugins on top of
    the engine.  [BatchTheorems]: each request the primary takes reaches the engine once and
    in order.  [SieveTheorems]: a verify set that leads to a commit carries the result of a
    correct replica, the primary's sets are accepted, and every speculative execution has
    its result.  [NoopsTheorems]: transactions are executed once, in order.

    ** Execution (consensus/obcpbft/obc-executor.go, consensus/helper/helper.go,
       core/chaincode/exectransaction.go)

    [ExecTransaction], [ConsensusHelper] and [Executor] are stated against the class
    [LedgerCalls] of what they call of the ledger.  [Replicas] relates two of them,
    [ReplicaLedgers] shows that two ledgers with the same contents are such a pair, and
    [ReplicaTheorems] that replicas which execute the same requests end with the same state
    and blocks.  [PluginReplicas] composes this with the engine's calls of the batch plugin.
    [CheckpointPath] follows a checkpoint back to the engine.

    ** Chaincode (core/chaincode/handler.go, core/chaincode/shim)

    [Fsm] is the state machine library both ends use (vendor/github.com/looplab/fsm).
    [ChaincodeHandler] is the peer's end of the stream: the machine of handler.go, the
    goroutines that serve requests as tasks with a step each for taking the entry of the
    uuid and for serving, and what they send on the channel nextState.  [ShimHandler] is
    the chaincode's end; a chaincode is a tree of requests that depend on the replies
    before.  [Conversation] puts the two together: [eventually] says that something is
    reached whatever thread is scheduled.  [ConversationSteps] and [ConversationTheorems]
    show that a transaction or query of a chaincode that reads and writes keys is answered
    under every schedule, with the response and the ledger of its calls made on the ledger
    directly, and that both ends are idle again afterwards; [direct] spells out what happens
    when the ledger fails.  [HandlerSafety] drops every assumption on the chaincode: what
    it writes belongs to a transaction the peer started and goes under its own name, unless
    it sends an INIT message of its own.  [PagedQueries] follows a range query: the
    pages the peer sends add up to the keys that [GetState] finds in the ledger.
    [ShimTables] and [TableTheorems] have the tables of shim/chaincode.go: rows under one
    key column are kept apart, and how other keys are confused.

    ** The ledger (core/ledger, core/db, protos/block.go)

    [KVStore] has the database as a class with laws and core/db/db.go on it.  [LedgerUtil]
    has the encodings.  [StateDelta] models the changes of a batch.  [HashableState] is the
    interface between state.go and the data structure that holds the state; [State],
    [StateScan] and [StateRefine] model state.go against it and refine an abstract
    transactional store.  [Blockchain] and [BlockchainSpec] have the chain and its indexes,
    [Ledger] and [LedgerRefine] ledger.go and its refinement of an abstract ledger, a store
    and a list of blocks.  The bucket tree (core/ledger/statemgmt/buckettree) implements
    the interface: [BucketKeys], [BucketNode] and [BucketState] are its definitions,
    [BucketSpec] the hash of a state from scratch, [BucketHash], [BucketStore],
    [BucketDelta], [BucketProcess], [BucketCommit], [BucketScan] and [BucketTree] its
    proofs, and [BucketTheorems] what it promises: the incremental hash is the one from
    scratch, commits keep the stored tree right, scans are exact, and ([BucketBinding]) the
    hash determines the state.  [LedgerBoot] opens a ledger, [LedgerTheorems] has the
    results for ledger and tree together: refinement, recovery after a stop at any point,
    transfer of deltas, verification of the chain.  [LedgerFindings] has error paths.
    [AsyncIndexer], [AsyncSpec] and [AsyncTheorems] model the asynchronous indexer as
    threads: its answers are fresh, and every query is answered.

    ** State transfer (consensus/statetransfer, core/peer/handler.go)

    [StateTransfer] models the two threads, [PeerSync] the serving side.  [TransferSpec]
    states what they rely on of the ledger and [TransferLedger] that it holds.
    [TransferTheorems]: a transfer that succeeds has the block consensus vouched for and a
    state with the hash in it, whatever the peers send; [TransferLive]: one honest peer is
    enough to get the blocks; and what unreadable deltas and broken chains do.

    ** Bounds and fuel

    Recursion that is not structural in the source takes fuel.  Messages that a replica
    sends to itself nest in [recvMsgSync]; the safety theorems hold for every fuel.
    [executeOutstanding] and [assignLoop] come with theorems that they return:
    [executeOutstanding_quiesces] gives the number of rounds, and [assignSequenceNumbers]
    passes the size of the log window, within which its loop ends.  [levelLoop] of the
    bucket tree ends for groupings of at least two ([newConfig_levels]) and provably not
    for one.  Scans, retries and block ranges take the number of buckets, peers or blocks.
    [formatDigits] writes 64-bit numbers in at most twenty digits.  [deleteRows], the loop
    of a chaincode over its own range query, is cut off by its fuel; [readAll], the same
    loop, comes with the fuel that is enough ([chaincode_reads_range]).  Theorems on replicas
    ask that view and sequence numbers do not reach 2^64, which is explicit in their
    statements.

    ** Not modelled

    Servers, commands and configuration (main.go, core/rest, core/devops.go, core/config);
    gRPC connections and discovery (core/peer/peer.go and most of core/peer/handler.go);
    containers and the launching of chaincode (core/container, core/chaincode/platforms,
    most of chaincode_support.go); cryptography and membership services (core/crypto,
    membersrvc), which rest on cryptographic and SQL libraries; events; generated code; the
    trie and raw implementations of the state, for which the ledger's theorems are stated
    through the same interface; snapshots, which are iterators of the database.  They do
    input and output through libraries that are not part of the sources, or call them, and
    have little state of their own.  Of the modelled files the manifest of the components
    says what is left out, in particular GetRows of the stub, whose goroutine reads from an
    iterator that is closed, timeouts, which are choices of the environment, and logging.
    In the conversation of peer and chaincode, range queries and calls of other chaincodes
    are modelled and not covered by the refinement, which is for chaincodes that read and
    write keys; [PagedQueries] has the requests of a range query served one after the other,
    without a cipher for the state. *)
From stdpp Require Import base gmap sets list strings.
From Stdlib Require Import ZArith Lia.

(** * Machine integers *)

Declare Scope fabric_scope.
Delimit Scope fabric_scope with fabric.
Open Scope fabric_scope.
#[global] Open Scope Z_scope.

Definition two64 : Z := 18446744073709551616.

(** Go's [uint64] arithmetic: results are reduced modulo 2^64. *)
Definition u64 (z : Z) : Z := z mod two64.

(** Go's [int64] arithmetic ([time.Duration]): two's complement. *)
Definition i64 (z : Z) : Z := (z + 9223372036854775808) mod two64 - 9223372036854775808.

Definition is_u64 (z : Z) : Prop := 0 <= z < two64.

Lemma u64_small z : is_u64 z -> u64 z = z.
Proof. intros. unfold u64. apply Z.mod_small. done. Qed.

Lemma u64_range z : is_u64 (u64 z).
Proof. unfold is_u64, u64, two64. apply Z.mod_pos_bound. lia. Qed.

(** * Record update *)

(** [s <| p := v |>] is [s] with the field read by the projection [p] set to
    [v].  A record type supports it once its eta expansion is an [Eta]
    instance: the setter of [p] is that expansion with [p s] replaced. *)
Class Eta (R : Type) := eta : R -> R.

Class Setter {R T : Type} (p : R -> T) := setter : (T -> T) -> R -> R.

Ltac build_setter :=
  lazymatch goal with
  | |- @Setter ?R ?T ?p =>
      let f := fresh "f" in
      let r := fresh "r" in
      let e := constr:(_ : Eta R) in
      refine (fun f r => _);
      let e := eval hnf in (e r) in
      let e := eval pattern (p r) in e in
      lazymatch e with ?g _ => 
        let t := eval cbv beta in (g (f (p r))) in exact t end
  end.
#[export] Hint Extern 1 (Setter _) => build_setter : typeclass_instances.

Notation "s <| p := v |>" := (setter (p := p) (fun _ => v) s)
  (at level 1, left associativity, p at next level,
   format "s  <| p  :=  v |>") : fabric_scope.

(** * State, panics and divergence *)

(** The result of running Go code on a state: it returns, it panics (nil
    dereference, index out of range, integer division by zero, explicit
    [panic]), or the fuel of the model ran out before it returned. *)
Inductive outcome (S A : Type) : Type :=
| Done (a : A) (s : S)
| Panic
| Diverge.
Arguments Done {S A} a s.
Arguments Panic {S A}.
Arguments Diverge {S A}.

Definition M (S A : Type) : Type := S -> outcome S A.

#[export] Instance M_ret S : MRet (M S) := fun A a s => Done a s.
#[export] Instance M_bind S : MBind (M S) := fun A B k m s =>
  match m s with
  | Done a s' => k a s'
  | Panic => Panic
  | Diverge => Diverge
  end.

Definition get {S} : M S S := fun s => Done s s.
Definition gets {S A} (f : S -> A) : M S A := fun s => Done (f s) s.
Definition modify {S} (f : S -> S) : M S unit := fun s => Done tt (f s).
Definition panic {S A} : M S A := fun _ => Panic.
Definition diverge {S A} : M S A := fun _ => Diverge.
Definition when {S} (b : bool) (m : M S unit) : M S unit :=
  if b then m else mret tt.

Fixpoint forM_ {S A} (l : list A) (f : A -> M S unit) : M S unit :=
  match l with
  | [] => mret tt
  | x :: l' => f x ;; forM_ l' f
  end.

(** ** Rules *)

(** Partial correctness: if [m] returns [a] in [s'], then [Q a s'].  [nopanic]
    in addition excludes a panic, [returns] asks for a result. *)
Definition wlp {S A} (m : M S A) (Q : A -> S -> Prop) (s : S) : Prop :=
  match m s with
  | Done a s' => Q a s'
  | Panic => True
  | Diverge => True
  end.

Definition wp {S A} (m : M S A) (Q : A -> S -> Prop) (s : S) : Prop :=
  match m s with
  | Done a s' => Q a s'
  | Panic => False
  | Diverge => True
  end.

(** Total correctness. *)
Definition twp {S A} (m : M S A) (Q : A -> S -> Prop) (s : S) : Prop :=
  match m s with
  | Done a s' => Q a s'
  | Panic => False
  | Diverge => False
  end.

Section rules.
Context {S : Type}.

Lemma wlp_ret {A} (a : A) Q (s : S) : Q a s -> wlp (mret a) Q s.
Proof. done. Qed.
Lemma wlp_bind {A B} (m : M S A) (k : A -> M S B) Q s :
  wlp m (fun a s' => wlp (k a) Q s') s -> wlp (m ≫= k) Q s.
Proof. cbv [wlp mbind M_bind]. by destruct (m s). Qed.
Lemma wlp_get (Q : S -> S -> Prop) s : Q s s -> wlp get Q s.
Proof. done. Qed.
Lemma wlp_gets {A} (f : S -> A) Q s : Q (f s) s -> wlp (gets f) Q s.
Proof. done. Qed.
Lemma wlp_modify f (Q : unit -> S -> Prop) s : Q tt (f s) -> wlp (modify f) Q s.
Proof. done. Qed.
Lemma wlp_panic {A} (Q : A -> S -> Prop) s : wlp panic Q s.
Proof. done. Qed.
Lemma wlp_diverge {A} (Q : A -> S -> Prop) s : wlp diverge Q s.
Proof. done. Qed.
Lemma wlp_mono {A} (m : M S A) (Q Q' : A -> S -> Prop) s :
  wlp m Q s -> (forall a s', Q a s' -> Q' a s') -> wlp m Q' s.
Proof. unfold wlp. destruct (m s) as [a s'| |]; naive_solver. Qed.
Lemma wlp_when b (m : M S unit) Q s :
  (b = true -> wlp m Q s) -> (b = false -> Q tt s) -> wlp (when b m) Q s.
Proof. destruct b; cbn; auto. Qed.
Lemma wlp_done {A} (m : M S A) Q s a s' :
  wlp m Q s -> m s = Done a s' -> Q a s'.
Proof. unfold wlp. intros Hw E. by rewrite E in Hw. Qed.

(** The invariant rule of a [range] loop. *)
Lemma wlp_forM {A} (l : list A) (f : A -> M S unit) (I : S -> Prop) s :
  I s ->
  (forall x s', x ∈ l -> I s' -> wlp (f x) (fun _ => I) s') ->
  wlp (forM_ l f) (fun _ => I) s.
Proof.
  revert s. induction l as [|x l IH]; intros s HI Hf; [done|].
  cbn [forM_]. apply wlp_bind. eapply wlp_mono; [apply Hf; [set_solver|done]|].
  cbn. intros _ s' HI'. apply IH; [done|]. intros; apply Hf; set_solver.
Qed.

Lemma wp_bind {A B} (m : M S A) (k : A -> M S B) Q s :
  wp m (fun a s' => wp (k a) Q s') s -> wp (m ≫= k) Q s.
Proof. cbv [wp mbind M_bind]. by destruct (m s). Qed.
Lemma wp_mono {A} (m : M S A) (Q Q' : A -> S -> Prop) s :
  wp m Q s -> (forall a s', Q a s' -> Q' a s') -> wp m Q' s.
Proof. unfold wp. destruct (m s) as [a s'| |]; naive_solver. Qed.
Lemma wp_when b (m : M S unit) Q s :
  (b = true -> wp m Q s) -> (b = false -> Q tt s) -> wp (when b m) Q s.
Proof. destruct b; cbn; auto. Qed.
Lemma wp_forM {A} (l : list A) (f : A -> M S unit) (I : S -> Prop) s :
  I s ->
  (forall x s', x ∈ l -> I s' -> wp (f x) (fun _ => I) s') ->
  wp (forM_ l f) (fun _ => I) s.
Proof.
  revert s. induction l as [|x l IH]; intros s HI Hf; [done|].
  cbn [forM_]. apply wp_bind. eapply wp_mono; [apply Hf; [set_solver|done]|].
  cbn. intros _ s' HI'. apply IH; [done|]. intros; apply Hf; set_solver.
Qed.

Lemma twp_bind {A B} (m : M S A) (k : A -> M S B) Q s :
  twp m (fun a s' => twp (k a) Q s') s -> twp (m ≫= k) Q s.
Proof. cbv [twp mbind M_bind]. by destruct (m s). Qed.
Lemma twp_mono {A} (m : M S A) (Q Q' : A -> S -> Prop) s :
  twp m Q s -> (forall a s', Q a s' -> Q' a s') -> twp m Q' s.
Proof. unfold twp. destruct (m s) as [a s'| |]; naive_solver. Qed.
Lemma twp_when b (m : M S unit) Q s :
  (b = true -> twp m Q s) -> (b = false -> Q tt s) -> twp (when b m) Q s.
Proof. destruct b; cbn; auto. Qed.
Lemma twp_forM {A} (l : list A) (f : A -> M S unit) (I : S -> Prop) s :
  I s ->
  (forall x s', x ∈ l -> I s' -> twp (f x) (fun _ => I) s') ->
  twp (forM_ l f) (fun _ => I) s.
Proof.
  revert s. induction l as [|x l IH]; intros s HI Hf; [done|].
  cbn [forM_]. apply twp_bind. eapply twp_mono; [apply Hf; [set_solver|done]|].
  cbn. intros _ s' HI'. apply IH; [done|]. intros; apply Hf; set_solver.
Qed.
Lemma twp_run {A} (m : M S A) Q s :
  twp m Q s <-> exists a s', m s = Done a s' /\ Q a s'.
Proof.
  unfold twp. destruct (m s) as [a s'| |]; split.
  - eauto.
  - by intros (? & ? & [= <- <-] & ?).
  - done.
  - by intros (? & ? & ? & ?).
  - done.
  - by intros (? & ? & ? & ?).
Qed.
Lemma twp_ret {A} (a : A) Q (s : S) : Q a s -> twp (mret a) Q s.
Proof. done. Qed.
Lemma twp_get (Q : S -> S -> Prop) s : Q s s -> twp get Q s.
Proof. done. Qed.
Lemma twp_gets {A} (f : S -> A) Q s : Q (f s) s -> twp (gets f) Q s.
Proof. done. Qed.
Lemma twp_modify f (Q : unit -> S -> Prop) s : Q tt (f s) -> twp (modify f) Q s.
Proof. done. Qed.
End rules.

(** [guar R m]: every returning run of [m] relates its states by [R]. *)
Definition guar {S A} (R : S -> S -> Prop) (m : M S A) : Prop :=
  forall s a s', m s = Done a s' -> R s s'.

Section guarantees.
Context {S : Type} (R : S -> S -> Prop) `{!PreOrder R}.

Lemma guar_ret {A} (a : A) : guar R (mret a).
Proof. intros s x s' [= <- <-]. reflexivity. Qed.
Lemma guar_get : guar R get.
Proof. intros s x s' [= <- <-]. reflexivity. Qed.
Lemma guar_gets {A} (f : S -> A) : guar R (gets f).
Proof. intros s x s' [= <- <-]. reflexivity. Qed.
Lemma guar_panic {A} : guar R (panic (A := A)).
Proof. by intros s x s'. Qed.
Lemma guar_diverge {A} : guar R (diverge (A := A)).
Proof. by intros s x s'. Qed.
Lemma guar_modify f : (forall s, R s (f s)) -> guar R (modify f).
Proof. intros H s x s' [= <- <-]. apply H. Qed.
Lemma guar_bind {A B} (m : M S A) (k : A -> M S B) :
  guar R m -> (forall a, guar R (k a)) -> guar R (m ≫= k).
Proof.
  intros Hm Hk s b s'. cbv [mbind M_bind].
  destruct (m s) eqn:E; try discriminate. intros Hb.
  etransitivity; [by eapply Hm|by eapply Hk].
Qed.
Lemma guar_when b (m : M S unit) : guar R m -> guar R (when b m).
Proof. destruct b; [done|intros _; apply guar_ret]. Qed.
Lemma guar_forM {A} (l : list A) (f : A -> M S unit) :
  (forall x, guar R (f x)) -> guar R (forM_ l f).
Proof.
  intros Hf. induction l; [apply guar_ret|]. apply guar_bind; [done|]. by intros [].
Qed.
Lemma guar_wlp {A} (m : M S A) Q s :
  guar R m -> wlp m Q s -> wlp m (fun a s' => Q a s' /\ R s s') s.
Proof. unfold guar, wlp. destruct (m s) eqn:E; eauto. Qed.
End guarantees.

(** Symbolic execution of a guarantee: the obligations left are the
    assignments and the calls. *)
Ltac guar_step :=
  lazymatch goal with
  | |- guar _ (mbind _ _) => apply guar_bind; [apply _| |intros ?]
  | |- guar _ (mret _) => apply guar_ret; apply _
  | |- guar _ get => apply guar_get; apply _
  | |- guar _ (gets _) => apply guar_gets; apply _
  | |- guar _ panic => apply guar_panic
  | |- guar _ diverge => apply guar_diverge
  | |- guar _ (modify _) => apply guar_modify; intros ?
  | |- guar _ (when _ _) => apply guar_when; [apply _|]
  | |- guar _ (forM_ _ _) => apply guar_forM; [apply _|intros ?]
  | |- guar _ (if ?b then _ else _) => destruct b
  | |- guar _ (match ?x with _ => _ end) => destruct x
  end; cbv beta.

(** One step of symbolic execution; a branch is split with its equation. *)
Ltac wlp_step :=
  lazymatch goal with
  | |- wlp (mbind _ _) _ _ => apply wlp_bind
  | |- wlp (mret _) _ _ => apply wlp_ret
  | |- wlp get _ _ => apply wlp_get
  | |- wlp (gets _) _ _ => apply wlp_gets
  | |- wlp (modify _) _ _ => apply wlp_modify
  | |- wlp panic _ _ => apply wlp_panic
  | |- wlp diverge _ _ => apply wlp_diverge
  | |- wlp (when _ _) _ _ => apply wlp_when; intros ?
  | |- wlp (if ?b then _ else _) _ _ => destruct b eqn:?
  | |- wlp (match ?x with _ => _ end) _ _ => destruct x eqn:?
  end; cbv beta.

(** The same for total correctness; [panic] and [diverge] are dead ends. *)
Ltac twp_step :=
  lazymatch goal with
  | |- twp (mbind _ _) _ _ => apply twp_bind
  | |- twp (mret _) _ _ => apply twp_ret
  | |- twp get _ _ => apply twp_get
  | |- twp (gets _) _ _ => apply twp_gets
  | |- twp (modify _) _ _ => apply twp_modify
  | |- twp (when _ _) _ _ => apply twp_when; intros ?
  | |- twp (if ?b then _ else _) _ _ => destruct b eqn:?
  | |- twp (match ?x with _ => _ end) _ _ => destruct x eqn:?
  end; cbv beta.

Create HintDb fabric.
#[export] Hint Resolve u64_range : fabric.

(** * Booleans and lists *)

Lemma negb_if {A} (b : bool) (x y : A) : (if negb b then x else y) = if b then y else x.
Proof. by destruct b. Qed.

(** The number of elements of [l] satisfying a boolean test, as Go code counts
    them with [quorum++] in a [range] loop. *)
Definition countb {A} (f : A -> bool) (l : list A) : Z :=
  Z.of_nat (length (List.filter f l)).

Lemma countb_nonneg {A} (f : A -> bool) l : 0 <= countb f l.
Proof. unfold countb. lia. Qed.

Lemma countb_cons {A} (f : A -> bool) x l :
  countb f (x :: l) = (if f x then 1 else 0) + countb f l.
Proof. unfold countb. cbn. destruct (f x); cbn [length]; lia. Qed.

Lemma countb_app {A} (f : A -> bool) l k :
  countb f (l ++ k) = countb f l + countb f k.
Proof. unfold countb. rewrite List.filter_app, length_app. lia. Qed.

Lemma countb_le_length {A} (f : A -> bool) l : countb f l <= Z.of_nat (length l).
Proof. unfold countb. pose proof (List.filter_length_le f l). lia. Qed.

Lemma countb_perm {A} (f : A -> bool) l k : l ≡ₚ k -> countb f l = countb f k.
Proof.
  induction 1; rewrite ?countb_cons; lia.
Qed.

Lemma countb_mono {A} (f g : A -> bool) l :
  (forall x, x ∈ l -> f x = true -> g x = true) -> countb f l <= countb g l.
Proof.
  induction l as [|x l IH]; intros H; [done|]. rewrite !countb_cons.
  specialize (IH ltac:(set_solver)). pose proof (H x ltac:(set_solver)).
  destruct (f x), (g x); try lia.
Qed.

Lemma countb_strict {A} (f g : A -> bool) l y :
  (forall x, x ∈ l -> f x = true -> g x = true) -> y ∈ l -> f y = false -> g y = true ->
  countb f l < countb g l.
Proof.
  intros Hfg Hy Hf Hg. apply list_elem_of_split in Hy as (l1 & l2 & ->).
  rewrite !countb_app, !countb_cons, Hf, Hg.
  pose proof (countb_mono f g l1 ltac:(intros; apply Hfg; [apply elem_of_app; auto|done])).
  pose proof (countb_mono f g l2
    ltac:(intros; apply Hfg; [apply elem_of_app; right; by right|done])).
  lia.
Qed.

Lemma NoDup_fmap_filter {A B} (g : A -> B) (f : A -> bool) l :
  NoDup (g <$> l) -> NoDup (g <$> List.filter f l).
Proof.
  induction l as [|x l IH]; cbn; [done|]. rewrite NoDup_cons. intros [Hx Hl].
  destruct (f x); [|auto]. cbn. apply NoDup_cons. split; [|auto].
  intros (y & E & [Hy _]%list_elem_of_In%filter_In)%list_elem_of_fmap.
  apply Hx. rewrite E. apply list_elem_of_fmap. exists y. by rewrite list_elem_of_In.
Qed.

(** * Map iteration *)

(** Go leaves the iteration order of a [range] over a map unspecified and
    randomises it.  [mapOrder] is an arbitrary choice of an order for the
    [t]-th range statement a replica runs. *)
Record mapOrder := {
  ord : forall (t : nat) {K : Type} `{Countable K} {A : Type}, gmap K A -> list (K * A);
  ord_perm : forall t K `{Countable K} A (m : gmap K A), ord t m ≡ₚ map_to_list m
}.

Lemma NoDup_fst_fresh {K A} (seen rest : list (K * A)) k x :
  NoDup (seen ++ (k, x) :: rest).*1 -> k ∉ seen.*1.
Proof.
  rewrite fmap_app. cbn. intros (_ & Hd & _)%NoDup_app Hin. eapply Hd; [exact Hin|by left].
Qed.

Lemma elem_of_ord (o : mapOrder) t `{Countable K} {A} (m : gmap K A) k x :
  (k, x) ∈ ord o t m <-> m !! k = Some x.
Proof. rewrite ord_perm. apply elem_of_map_to_list. Qed.

Lemma ord_NoDup (o : mapOrder) t `{Countable K} {A} (m : gmap K A) : NoDup (ord o t m).*1.
Proof. rewrite ord_perm. apply NoDup_fst_map_to_list. Qed.

(** The order in which the finite map library lists its entries. *)
Definition canonicalOrder : mapOrder := {|
  ord := fun _ K _ _ A m => map_to_list m;
  ord_perm := fun _ K _ _ A m => Permutation_refl _
|}.
