(* ===== verification/GoStd.v ===== *)
(** The parts of Go's standard library the modelled code computes with:
    [encoding/base64]'s [StdEncoding] and [sort.Sort] on [uint64] slices.
    Bytes are [Byte.byte]; a Go string is a [string] of bytes. *)
From stdpp Require Import base list strings sorting.
From Stdlib Require Import ZArith Lia Ascii.
From Stdlib.Strings Require Import Byte.
From S2P Require Import Prelude.

Abbreviation bytes := (list Byte.byte).

#[export] Instance byte_eq_dec : EqDecision Byte.byte := Byte.byte_eq_dec.

(** * Bytes as integers *)

Definition Z_of_byte (b : Byte.byte) : Z := Z.of_N (Byte.to_N b).
Definition byte_of_Z (z : Z) : Byte.byte :=
  default Byte.x00 (Byte.of_N (Z.to_N (z mod 256))).

Lemma Z_of_byte_range b : 0 <= Z_of_byte b < 256.
Proof. unfold Z_of_byte. pose proof (Byte.to_N_bounded b). lia. Qed.

Lemma byte_of_Z_of_byte b : byte_of_Z (Z_of_byte b) = b.
Proof.
  unfold byte_of_Z. rewrite Z.mod_small by apply Z_of_byte_range.
  unfold Z_of_byte. rewrite N2Z.id, Byte.of_to_N. done.
Qed.

Lemma Z_of_byte_of_Z z : Z_of_byte (byte_of_Z z) = z mod 256.
Proof.
  unfold byte_of_Z, Z_of_byte.
  pose proof (Z.mod_pos_bound z 256 ltac:(lia)).
  destruct (Byte.of_N (Z.to_N (z mod 256))) as [b|] eqn:E.
  - apply Byte.to_of_N in E. cbn. rewrite E. lia.
  - apply Byte.of_N_None_iff in E. lia.
Qed.

#[export] Instance Z_of_byte_inj : Inj (=) (=) Z_of_byte.
Proof. intros a b E. by rewrite <- (byte_of_Z_of_byte a), E, byte_of_Z_of_byte. Qed.

(** * base64.StdEncoding *)

Module Base64.

(** The character of a six-bit value. *)
Definition encodeChar (i : Z) : ascii :=
  ascii_of_N (Z.to_N
    (if i <? 26 then 65 + i
     else if i <? 52 then 97 + (i - 26)
     else if i <? 62 then 48 + (i - 52)
     else if i =? 62 then 43 else 47)).

(** [decodeMap]: the six-bit value of a character of the alphabet. *)
Definition decodeChar (c : ascii) : option Z :=
  let n := Z.of_N (N_of_ascii c) in
  if (65 <=? n) && (n <=? 90) then Some (n - 65)
  else if (97 <=? n) && (n <=? 122) then Some (n - 97 + 26)
  else if (48 <=? n) && (n <=? 57) then Some (n - 48 + 52)
  else if n =? 43 then Some 62
  else if n =? 47 then Some 63
  else None.

Definition padChar : ascii := "="%char.

Fixpoint encode (bs : bytes) : list ascii :=
  match bs with
  | [] => []
  | [a] =>
      let a := Z_of_byte a in
      [encodeChar (a / 4); encodeChar (a mod 4 * 16); padChar; padChar]
  | [a; b] =>
      let a := Z_of_byte a in let b := Z_of_byte b in
      [encodeChar (a / 4); encodeChar (a mod 4 * 16 + b / 16);
       encodeChar (b mod 16 * 4); padChar]
  | a :: b :: c :: bs' =>
      let a := Z_of_byte a in let b := Z_of_byte b in let c := Z_of_byte c in
      encodeChar (a / 4) :: encodeChar (a mod 4 * 16 + b / 16)
        :: encodeChar (b mod 16 * 4 + c / 64) :: encodeChar (c mod 64)
        :: encode bs'
  end.

Definition EncodeToString (bs : bytes) : string :=
  String.string_of_list_ascii (encode bs).

Definition isPad (c : ascii) : bool := Ascii.eqb c padChar.

(** One quantum of four characters after the other; padding ends the input. *)
Fixpoint decode (cs : list ascii) : option bytes :=
  match cs with
  | [] => Some []
  | w :: x :: y :: z :: cs' =>
      w' ← decodeChar w;
      x' ← decodeChar x;
      let b0 := byte_of_Z (w' * 4 + x' / 16) in
      if isPad y then
        if isPad z then match cs' with [] => Some [b0] | _ => None end else None
      else
        y' ← decodeChar y;
        let b1 := byte_of_Z (x' mod 16 * 16 + y' / 4) in
        if isPad z then match cs' with [] => Some [b0; b1] | _ => None end
        else
          z' ← decodeChar z;
          let b2 := byte_of_Z (y' mod 4 * 64 + z') in
          bs ← decode cs';
          Some (b0 :: b1 :: b2 :: bs)
  | _ => None
  end.

Definition isNewline (c : ascii) : bool :=
  let n := N_of_ascii c in ((n =? 10) || (n =? 13))%N.

(** [DecodeString] drops the newlines, then decodes. *)
Definition DecodeString (s : string) : option bytes :=
  decode (List.filter (fun c => negb (isNewline c)) (String.list_ascii_of_string s)).

(** ** Round trip *)

Definition sixBits : list Z := Z.of_nat <$> seq 0 64.

Lemma in_sixBits i : 0 <= i < 64 -> In i sixBits.
Proof.
  intros. apply list_elem_of_In, list_elem_of_fmap. exists (Z.to_nat i).
  rewrite elem_of_seq. lia.
Qed.

Lemma char_table i : 0 <= i < 64 ->
  decodeChar (encodeChar i) = Some i /\ isPad (encodeChar i) = false
  /\ isNewline (encodeChar i) = false.
Proof.
  intros Hi%in_sixBits.
  assert (forallb (fun i => bool_decide (decodeChar (encodeChar i) = Some i)
    && negb (isPad (encodeChar i)) && negb (isNewline (encodeChar i))) sixBits = true)
    as Hall by (vm_compute; reflexivity).
  rewrite forallb_forall in Hall. specialize (Hall _ Hi).
  apply andb_true_iff in Hall as [[H1 H2]%andb_true_iff H3].
  apply bool_decide_eq_true in H1. by destruct (isPad _), (isNewline _).
Qed.

Ltac byte_bounds :=
  repeat match goal with
  | |- context [Z_of_byte ?a] =>
      lazymatch goal with
      | H : 0 <= Z_of_byte a < 256 |- _ => fail
      | _ => pose proof (Z_of_byte_range a)
      end
  end.

Ltac bits := byte_bounds; Z.div_mod_to_equations; lia.

Lemma byte_of_Z_eq b z : z = Z_of_byte b -> byte_of_Z z = b.
Proof. intros ->. apply byte_of_Z_of_byte. Qed.

(** Induction along the quanta of three bytes. *)
Lemma bytes_ind3 (P : bytes -> Prop) :
  P [] -> (forall a, P [a]) -> (forall a b, P [a; b]) ->
  (forall a b c bs, P bs -> P (a :: b :: c :: bs)) -> forall bs, P bs.
Proof.
  intros H0 H1 H2 H3. fix IH 1.
  intros [|a [|b [|c bs]]]; [exact H0|apply H1|apply H2|apply H3, IH].
Qed.

Lemma encode_no_newline bs :
  List.filter (fun c => negb (isNewline c)) (encode bs) = encode bs.
Proof.
  induction bs as [|a|a b|a b c bs IH] using bytes_ind3; cbn -[encodeChar];
    repeat match goal with
    | |- context [isNewline (encodeChar ?i)] =>
        destruct (char_table i) as (_ & _ & ->); [bits|]; cbn -[encodeChar]
    end; try change (isNewline padChar) with false; cbn -[encodeChar]; congruence.
Qed.

Lemma decode_encode bs : decode (encode bs) = Some bs.
Proof.
  induction bs as [|a|a b|a b c bs IH] using bytes_ind3;
    cbn -[encodeChar decodeChar byte_of_Z]; [done|..];
    repeat (match goal with
    | |- context [decodeChar (encodeChar ?i)] =>
        destruct (char_table i) as (-> & _ & _); [bits|]
    | |- context [isPad (encodeChar ?i)] =>
        destruct (char_table i) as (_ & -> & _); [bits|]
    | |- context [isPad padChar] => change (isPad padChar) with true
    end; cbn -[encodeChar decodeChar byte_of_Z isPad]);
    rewrite ?IH; cbn -[byte_of_Z]; repeat f_equal; apply byte_of_Z_eq; bits.
Qed.

Lemma decode_EncodeToString bs : DecodeString (EncodeToString bs) = Some bs.
Proof.
  unfold DecodeString, EncodeToString.
  rewrite String.list_ascii_of_string_of_list_ascii, encode_no_newline.
  apply decode_encode.
Qed.

#[export] Instance EncodeToString_inj : Inj (=) (=) EncodeToString.
Proof.
  intros a b E. apply (f_equal DecodeString) in E.
  rewrite !decode_EncodeToString in E. congruence.
Qed.

End Base64.

(** * sort.Sort on a slice of uint64 *)

Definition sortUint64 (l : list Z) : list Z := merge_sort Z.le l.

Lemma sortUint64_perm l : sortUint64 l ≡ₚ l.
Proof. apply merge_sort_Permutation. Qed.

Lemma sortUint64_sorted l : StronglySorted Z.le (sortUint64 l).
Proof.
  apply Sorted_StronglySorted; [intros x y z; lia|].
  apply Sorted_merge_sort. intros x y. lia.
Qed.

Lemma sortUint64_length l : length (sortUint64 l) = length l.
Proof. by rewrite sortUint64_perm. Qed.
