(* ===== verification/PbftTypes.v ===== *)
(** Data of the PBFT engine: the protocol messages of
    [consensus/obcpbft/messages.proto], the state of a replica ([pbftCore] of
    [pbft-core.go]) and the interface to its surroundings ([innerStack], the
    protobuf library, the hash function). *)
From stdpp Require Import base gmap sets list strings.
From Stdlib Require Import ZArith Lia.
From S2P Require Import Prelude GoStd.

(** * Messages *)

Record Request := mkRequest {
  req_Timestamp : option (Z * Z);
  req_Payload : bytes;
  req_ReplicaId : Z
}.

Record PrePrepare := mkPrePrepare {
  pp_View : Z;
  pp_SequenceNumber : Z;
  pp_RequestDigest : string;
  pp_Request : option Request;
  pp_ReplicaId : Z
}.

Record Prepare := mkPrepare {
  p_View : Z;
  p_SequenceNumber : Z;
  p_RequestDigest : string;
  p_ReplicaId : Z
}.

Record Commit := mkCommit {
  c_View : Z;
  c_SequenceNumber : Z;
  c_RequestDigest : string;
  c_ReplicaId : Z
}.

Record Checkpoint := mkCheckpoint {
  ck_SequenceNumber : Z;
  ck_ReplicaId : Z;
  ck_Id : string
}.

Record ViewChange_C := mkViewChange_C {
  vcC_SequenceNumber : Z;
  vcC_Id : string
}.

Record ViewChange_PQ := mkViewChange_PQ {
  pq_SequenceNumber : Z;
  pq_Digest : string;
  pq_View : Z
}.

Record ViewChange := mkViewChange {
  vc_View : Z;
  vc_H : Z;
  vc_Cset : list ViewChange_C;
  vc_Pset : list ViewChange_PQ;
  vc_Qset : list ViewChange_PQ;
  vc_ReplicaId : Z;
  vc_Signature : bytes
}.

Record NewView := mkNewView {
  nv_View : Z;
  nv_Vset : list ViewChange;
  nv_Xset : gmap Z string;
  nv_ReplicaId : Z
}.

Record FetchRequest := mkFetchRequest {
  fr_RequestDigest : string;
  fr_ReplicaId : Z
}.

(** The [oneof] payload; [Message_None] is a message without a payload. *)
Inductive Message :=
| Message_Request (r : Request)
| Message_PrePrepare (p : PrePrepare)
| Message_Prepare (p : Prepare)
| Message_Commit (c : Commit)
| Message_Checkpoint (c : Checkpoint)
| Message_ViewChange (vc : ViewChange)
| Message_NewView (nv : NewView)
| Message_FetchRequest (fr : FetchRequest)
| Message_ReturnRequest (r : Request)
| Message_None.

#[export] Instance Request_eq_dec : EqDecision Request.
Proof. solve_decision. Defined.
#[export] Instance PrePrepare_eq_dec : EqDecision PrePrepare.
Proof. solve_decision. Defined.
#[export] Instance Prepare_eq_dec : EqDecision Prepare.
Proof. solve_decision. Defined.
#[export] Instance Commit_eq_dec : EqDecision Commit.
Proof. solve_decision. Defined.
#[export] Instance Checkpoint_eq_dec : EqDecision Checkpoint.
Proof. solve_decision. Defined.
#[export] Instance ViewChange_C_eq_dec : EqDecision ViewChange_C.
Proof. solve_decision. Defined.
#[export] Instance ViewChange_PQ_eq_dec : EqDecision ViewChange_PQ.
Proof. solve_decision. Defined.
#[export] Instance ViewChange_eq_dec : EqDecision ViewChange.
Proof. solve_decision. Defined.
#[export] Instance NewView_eq_dec : EqDecision NewView.
Proof. solve_decision. Defined.
#[export] Instance FetchRequest_eq_dec : EqDecision FetchRequest.
Proof. solve_decision. Defined.
#[export] Instance Message_eq_dec : EqDecision Message.
Proof. solve_decision. Defined.

(** Go uses [Checkpoint] and [ViewChange_C] values as map keys. *)
#[export] Instance Checkpoint_countable : Countable Checkpoint.
Proof.
  refine (inj_countable'
    (fun c => (ck_SequenceNumber c, ck_ReplicaId c, ck_Id c))
    (fun '(n, r, i) => mkCheckpoint n r i) _). by intros [].
Defined.
#[export] Instance ViewChange_C_countable : Countable ViewChange_C.
Proof.
  refine (inj_countable' (fun c => (vcC_SequenceNumber c, vcC_Id c))
    (fun '(n, i) => mkViewChange_C n i) _). by intros [].
Defined.

(** * Errors *)

Inductive goError :=
| ErrSenderMismatch
| ErrInvalidMessage
| ErrValidate
| ErrMarshal
| ErrUnmarshal
| ErrUnicast
| ErrSerialize
| ErrSign
| ErrVerify.

(** * Calls into the consumer *)

Record ExecutionInfo := mkExecutionInfo {
  ei_Checkpoint : bool;
  ei_Validate : bool;
  ei_Null : bool
}.

(** The calls of a replica into its [innerStack] that act on the outside. *)
Inductive consumerCall :=
| call_broadcast (m : Message)
| call_unicast (m : Message) (receiverID : Z)
| call_execute (seqNo : Z) (txRaw : option bytes) (execInfo : ExecutionInfo)
| call_skipTo (seqNo : Z) (snapshotID : bytes) (peers : list Z) (execInfo : ExecutionInfo)
| call_validState (seqNo : Z) (id : bytes) (peers : list Z) (execInfo : ExecutionInfo)
| call_viewChange (curView : Z).

#[export] Instance ExecutionInfo_eq_dec : EqDecision ExecutionInfo.
Proof. solve_decision. Defined.
#[export] Instance consumerCall_eq_dec : EqDecision consumerCall.
Proof. solve_decision. Defined.

(** Something another goroutine does while the replica's lock is released
    around [consumer.execute]. *)
Inductive lockEvent :=
| lock_message (m : Message) (senderID : Z)
| lock_checkpoint (seqNo : Z) (id : bytes)
| lock_expire
| lock_timer.

(** * State of a replica *)

(** Keys of the logs: [msgID] is (view, sequence number), [qidx] is (digest,
    sequence number), [vcidx] is (view, replica). *)
Abbreviation msgID := (Z * Z)%type.
Abbreviation qidx := (string * Z)%type.
Abbreviation vcidx := (Z * Z)%type.

Record msgCert := mkMsgCert {
  prePrepare : option PrePrepare;
  sentPrepare : bool;
  prepare : list Prepare;
  sentCommit : bool;
  commit : list Commit
}.

#[export] Instance msgCert_eta : Eta msgCert := fun c =>
  mkMsgCert (prePrepare c) (sentPrepare c) (prepare c) (sentCommit c) (commit c).

Definition emptyCert : msgCert := mkMsgCert None false [] false [].

(** [pbftCore].  The [time.Timer] is represented by [timerRunning], whether it
    is armed.  The last three fields are not in the source: the consumer calls
    made so far (latest first), the number of map iterations run so far, and
    what other goroutines will do each time the lock is released. *)
Record pbftCore := mkPbftCore {
  closed : bool;
  activeView : bool;
  byzantine : bool;
  f_ : Z;
  N_ : Z;
  h_ : Z;
  id_ : Z;
  K_ : Z;
  logMultiplier : Z;
  L_ : Z;
  lastExec : Z;
  replicaCount : Z;
  seqNo : Z;
  view : Z;
  chkpts : gmap Z string;
  pset : gmap Z ViewChange_PQ;
  qset : gmap qidx ViewChange_PQ;
  skipInProgress : bool;
  hChkpts : gmap Z Z;
  timerRunning : bool;
  timerActive : bool;
  requestTimeout : Z;
  newViewTimeout : Z;
  lastNewViewTimeout : Z;
  outstandingReqs : gmap string Request;
  timerExpiredCount : Z;
  timerResetCount : Z;
  missingReqs : gmap string bool;
  reqStore : gmap string Request;
  certStore : gmap msgID msgCert;
  checkpointStore : gmap Checkpoint bool;
  viewChangeStore : gmap vcidx ViewChange;
  newViewStore : gmap Z NewView;
  out : list consumerCall;
  ticks : nat;
  schedule : list (list lockEvent)
}.

#[export] Instance pbftCore_eta : Eta pbftCore := fun s =>
  mkPbftCore (closed s) (activeView s) (byzantine s) (f_ s) (N_ s) (h_ s) (id_ s)
    (K_ s) (logMultiplier s) (L_ s) (lastExec s) (replicaCount s) (seqNo s)
    (view s) (chkpts s) (pset s) (qset s) (skipInProgress s) (hChkpts s)
    (timerRunning s) (timerActive s) (requestTimeout s) (newViewTimeout s)
    (lastNewViewTimeout s) (outstandingReqs s) (timerExpiredCount s)
    (timerResetCount s) (missingReqs s) (reqStore s) (certStore s)
    (checkpointStore s) (viewChangeStore s) (newViewStore s) (out s) (ticks s)
    (schedule s).

(** * Surroundings of a replica *)

(** Code outside the replica: the application half of [innerStack], the
    protobuf encoder (a nil request marshals to no bytes), the hash function,
    the random choices of the Byzantine test mode ([Some i] when a broadcast is
    to skip replica [i]) and the map iteration orders. *)
Record surroundings := mkSurroundings {
  consumer_validate : bytes -> bool;
  consumer_sign : bytes -> option bytes;
  consumer_verify : Z -> bytes -> bytes -> bool;
  consumer_unicast : Message -> Z -> bool;
  marshal_Request : option Request -> bytes;
  marshal_ViewChange : ViewChange -> option bytes;
  marshal_Message : Message -> bool;
  unmarshal_Message : bytes -> option Message;
  ComputeCryptoHash : bytes -> bytes;
  random_skip : nat -> option Z;
  order : mapOrder
}.

(** * Construction *)

(** What [newPbftCore] reads from the configuration; a duration that does not
    parse is [None]. *)
Record pbftConfig := mkPbftConfig {
  general_N : Z;
  general_f : Z;
  general_K : Z;
  general_logmultiplier : Z;
  general_byzantine : bool;
  general_timeout_request : option Z;
  general_timeout_viewchange : option Z
}.

(** [newPbftCore]; [None] is a panic. *)
Definition newPbftCore (rid : Z) (config : pbftConfig) (startupID : bytes)
    (sched : list (list lockEvent)) : option pbftCore :=
  if i64 (general_f config * 3 + 1) >? general_N config then None
  else
    rt ← general_timeout_request config;
    vt ← general_timeout_viewchange config;
    let k := u64 (general_K config) in
    let lm := u64 (general_logmultiplier config) in
    Some {|
      closed := false;
      activeView := true;
      byzantine := general_byzantine config;
      f_ := general_f config;
      N_ := general_N config;
      h_ := 0;
      id_ := rid;
      K_ := k;
      logMultiplier := lm;
      L_ := u64 (lm * k);
      lastExec := 0;
      replicaCount := general_N config;
      seqNo := 0;
      view := 0;
      chkpts := {[ 0 := Base64.EncodeToString startupID ]};
      pset := ∅;
      qset := ∅;
      skipInProgress := false;
      hChkpts := ∅;
      timerRunning := false;
      timerActive := false;
      requestTimeout := rt;
      newViewTimeout := vt;
      lastNewViewTimeout := vt;
      outstandingReqs := ∅;
      timerExpiredCount := 0;
      timerResetCount := 1;
      missingReqs := ∅;
      reqStore := ∅;
      certStore := ∅;
      checkpointStore := ∅;
      viewChangeStore := ∅;
      newViewStore := ∅;
      out := [];
      ticks := 0;
      schedule := sched
    |}.
