(* ===== verification/PbftCore.v ===== *)
(** The PBFT engine: [consensus/obcpbft/pbft-core.go], [viewchange.go] and
    [sign.go].  One definition per method; a method that dispatches a message
    to the local replica ([innerBroadcast] with [toSelf]) takes [self], the
    next level of [recvMsgSync], so that [recvMsgSync] ties the knot by
    recursion on its fuel. *)
From stdpp Require Import base gmap sets list strings.
From Stdlib Require Import ZArith Lia.
From S2P Require Import Prelude GoStd PbftTypes.

Abbreviation Mp := (M pbftCore).
Abbreviation result := (option goError).

(** * sign.go *)

(** The [signable] interface. *)
Class signable (T : Type) := {
  getSignature : T -> bytes;
  setSignature : bytes -> T -> T;
  getID : T -> Z;
  setID : Z -> T -> T;
  serialize : surroundings -> T -> option bytes
}.

#[export] Instance ViewChange_eta : Eta ViewChange := fun vc =>
  mkViewChange (vc_View vc) (vc_H vc) (vc_Cset vc) (vc_Pset vc) (vc_Qset vc)
    (vc_ReplicaId vc) (vc_Signature vc).

#[export] Instance ViewChange_signable : signable ViewChange := {|
  getSignature := vc_Signature;
  setSignature sig vc := vc <| vc_Signature := sig |>;
  getID := vc_ReplicaId;
  setID i vc := vc <| vc_ReplicaId := i |>;
  serialize env vc := marshal_ViewChange env vc
|}.

(** [sign] updates the message in place: the result is the message afterwards
    and the returned error. *)
Definition sign (env : surroundings) {T} `{signable T} (x : T) : T * result :=
  let x := setSignature [] x in
  match serialize env x with
  | None => (x, Some ErrSerialize)
  | Some raw =>
      match consumer_sign env raw with
      | None => (x, Some ErrSign)
      | Some signedRaw => (setSignature signedRaw x, None)
      end
  end.

Definition verify (env : surroundings) {T} `{signable T} (x : T) : result :=
  let origSig := getSignature x in
  match serialize env (setSignature [] x) with
  | None => Some ErrSerialize
  | Some raw =>
      if consumer_verify env (getID x) origSig raw then None else Some ErrVerify
  end.

(** * Helpers of pbft-core.go *)

(** Given a certain view n, what is the expected primary? *)
Definition primary (s : pbftCore) (n : Z) : Z := n mod replicaCount s.

(** Is the sequence number between watermarks?  The subtraction wraps. *)
Definition inW (s : pbftCore) (n : Z) : bool :=
  (u64 (n - h_ s) >? 0) && (u64 (n - h_ s) <=? L_ s).

Definition inWV (s : pbftCore) (v n : Z) : bool := (view s =? v) && inW s n.

Definition intersectionQuorum (s : pbftCore) : Z := Z.quot (N_ s + f_ s + 2) 2.
Definition allCorrectReplicasQuorum (s : pbftCore) : Z := N_ s - f_ s.

Definition prePreparedMatches (digest : string) (v n : Z) (p : PrePrepare) : bool :=
  (pp_View p =? v) && (pp_SequenceNumber p =? n)
  && bool_decide (pp_RequestDigest p = digest).

Definition prePrepared (s : pbftCore) (digest : string) (v n : Z) : bool :=
  if negb (bool_decide (digest = "")) && bool_decide (reqStore s !! digest = None)
  then false
  else
    if match qset s !! (digest, n) with Some q => pq_View q =? v | None => false end
    then true
    else
      match certStore s !! (v, n) with
      | Some cert =>
          match prePrepare cert with
          | Some p => prePreparedMatches digest v n p
          | None => false
          end
      | None => false
      end.

Definition prepareMatches (digest : string) (v n : Z) (p : Prepare) : bool :=
  (p_View p =? v) && (p_SequenceNumber p =? n)
  && bool_decide (p_RequestDigest p = digest).

Definition prepared (s : pbftCore) (digest : string) (v n : Z) : bool :=
  if negb (prePrepared s digest v n) then false
  else
    if match pset s !! n with
       | Some p => (pq_View p =? v) && bool_decide (pq_Digest p = digest)
       | None => false
       end
    then true
    else
      match certStore s !! (v, n) with
      | None => false
      | Some cert =>
          countb (prepareMatches digest v n) (prepare cert)
            >=? intersectionQuorum s - 1
      end.

Definition commitMatches (v n : Z) (c : Commit) : bool :=
  (c_View c =? v) && (c_SequenceNumber c =? n).

Definition committed (s : pbftCore) (digest : string) (v n : Z) : bool :=
  if negb (prepared s digest v n) then false
  else
    match certStore s !! (v, n) with
    | None => false
    | Some cert => countb (commitMatches v n) (commit cert) >=? intersectionQuorum s
    end.

(** [hashReq]; the marshalling error is dropped. *)
Definition hashReq (env : surroundings) (req : option Request) : string :=
  Base64.EncodeToString (ComputeCryptoHash env (marshal_Request env req)).

(** * Primitive steps *)

Definition emit (c : consumerCall) : Mp unit :=
  modify (fun s => s <| out := c :: out s |>).

(** The next value of the counter that indexes random choices. *)
Definition tick : Mp nat :=
  t ← gets ticks; modify (fun s => s <| ticks := Datatypes.S (ticks s) |>) ;; mret t.

(** The entries of a map in the order of one [range] statement. *)
Definition range (env : surroundings) `{Countable K} {A}
    (get_map : pbftCore -> gmap K A) : Mp (list (K * A)) :=
  t ← tick; m ← gets get_map; mret (ord (order env) t m).

(** Given a digest/view/seq, is there an entry in the certLog?  If so, return
    it.  If not, create it.  The pointer it returns is the key [(v, n)]. *)
Definition getCert (v n : Z) : Mp msgCert :=
  s ← get;
  match certStore s !! (v, n) with
  | Some cert => mret cert
  | None =>
      modify (fun s => s <| certStore := <[(v, n) := emptyCert]> (certStore s) |>) ;;
      mret emptyCert
  end.

(** An assignment through the pointer [getCert] returned. *)
Definition updCert (v n : Z) (g : msgCert -> msgCert) : Mp unit :=
  modify (fun s => s <| certStore := alter g (v, n) (certStore s) |>).

Definition startTimer (timeout : Z) : Mp unit :=
  s ← get;
  modify (fun s => s <| timerRunning := true |>) ;;
  when (negb (timerRunning s) && timerActive s)
    (modify (fun s => s <| timerResetCount := u64 (timerResetCount s + 1) |>)) ;;
  modify (fun s => s <| timerActive := true |>).

Definition stopTimer : Mp unit :=
  s ← get;
  modify (fun s => s <| timerRunning := false |>) ;;
  when (negb (timerRunning s) && timerActive s)
    (modify (fun s => s <| timerResetCount := u64 (timerResetCount s + 1) |>)) ;;
  modify (fun s => s <| timerActive := false |>).

(** [close] tears down what [newPbftCore] opened; a second call is harmless. *)
Definition close : Mp unit :=
  modify (fun s => s <| closed := true |>) ;;
  modify (fun s => s <| timerRunning := false |>).

(** * Message handlers *)

Section handlers.
Context (env : surroundings) (self : Message -> Z -> Mp result).

(** Marshals a message and hands it to the stack.  If [toSelf] is true, the
    message is also dispatched to the local instance. *)
Definition innerBroadcast (msg : Message) (toSelf : bool) : Mp result :=
  if negb (marshal_Message env msg) then mret (Some ErrMarshal)
  else
    t ← tick;
    s ← get;
    (match (if byzantine s then random_skip env t else None) with
     | Some ignoreidx =>
         forM_ (Z.of_nat <$> seq 0 (Z.to_nat (N_ s))) (fun i =>
           when (negb (i =? ignoreidx) && negb (i =? id_ s))
             (emit (call_unicast msg i)))
     | None => emit (call_broadcast msg)
     end) ;;
    (if toSelf then self msg (id_ s) ;; mret None else mret None).

Definition maybeSendCommit (digest : string) (v n : Z) : Mp result :=
  cert ← getCert v n;
  s ← get;
  if prepared s digest v n && negb (sentCommit cert) then
    match prePrepare cert with
    | None => panic
    | Some _ =>
        updCert v n (fun c => c <| sentCommit := true |>) ;;
        innerBroadcast (Message_Commit (mkCommit v n digest (id_ s))) true
    end
  else mret None.

(** Is there another pre-prepare for the same digest, but different seqNo? *)
Definition haveOther (s : pbftCore) (digest : string) (n : Z) : bool :=
  existsb (fun '(_, cert) =>
    match prePrepare cert with
    | Some p => (pp_View p =? view s) && negb (pp_SequenceNumber p =? n)
                && bool_decide (pp_RequestDigest p = digest)
    | None => false
    end) (map_to_list (certStore s)).

Definition recvRequest (req : Request) : Mp result :=
  let digest := hashReq env (Some req) in
  if negb (consumer_validate env (req_Payload req)) then mret (Some ErrValidate)
  else
    modify (fun s => s <| reqStore := <[digest := req]> (reqStore s) |>) ;;
    modify (fun s => s <| outstandingReqs := <[digest := req]> (outstandingReqs s) |>) ;;
    s ← get;
    when (negb (timerActive s) && activeView s) (startTimer (requestTimeout s)) ;;
    s ← get;
    if (primary s (view s) =? id_ s) && activeView s then
      let n := u64 (seqNo s + 1) in
      if inWV s (view s) n && negb (haveOther s digest n) then
        modify (fun s => s <| seqNo := n |>) ;;
        let preprep := mkPrePrepare (view s) n digest (Some req) (id_ s) in
        getCert (view s) n ;;
        updCert (view s) n (fun c => c <| prePrepare := Some preprep |>) ;;
        innerBroadcast (Message_PrePrepare preprep) false ;;
        maybeSendCommit digest (view s) n
      else mret None
    else mret None.

(** Has some certificate a pre-prepare for the digest? *)
Definition prePreparedSomewhere (s : pbftCore) (d : string) : bool :=
  existsb (fun '(_, cert) =>
    match prePrepare cert with
    | Some p => bool_decide (pp_RequestDigest p = d)
    | None => false
    end) (map_to_list (certStore s)).

(** An entry deleted before the iteration reaches it is not visited. *)
Definition resubmitRequests : Mp unit :=
  s ← get;
  if negb (primary s (view s) =? id_ s) then mret tt
  else
    reqs ← range env outstandingReqs;
    forM_ reqs (fun '(d, _) =>
      s ← get;
      match outstandingReqs s !! d with
      | None => mret tt
      | Some req =>
          if prePreparedSomewhere s d then mret tt
          else recvRequest req ;; mret tt
      end).

(** The certificate keeps the first digest it saw. *)
Definition storePrePrepare (preprep : PrePrepare) : Mp unit :=
  let v := pp_View preprep in
  let n := pp_SequenceNumber preprep in
  cert ← getCert v n;
  match prePrepare cert with
  | Some p =>
      if negb (bool_decide (pp_RequestDigest p = pp_RequestDigest preprep)) then mret tt
      else updCert v n (fun c => c <| prePrepare := Some preprep |>)
  | None => updCert v n (fun c => c <| prePrepare := Some preprep |>)
  end.

(** Store the request if, for whatever reason, we haven't received it from an
    earlier broadcast; [Some err] means to return [err]. *)
Definition storeRequest (preprep : PrePrepare) : Mp (option result) :=
  s ← get;
  match reqStore s !! pp_RequestDigest preprep with
  | Some _ => mret None
  | None =>
      let digest := hashReq env (pp_Request preprep) in
      if negb (bool_decide (digest = pp_RequestDigest preprep)) then mret (Some None)
      else
        match pp_Request preprep with
        | None => panic
        | Some req =>
            if negb (consumer_validate env (req_Payload req))
            then mret (Some (Some ErrValidate))
            else
              modify (fun s => s <| reqStore := <[digest := req]> (reqStore s) |>) ;;
              modify (fun s =>
                s <| outstandingReqs := <[digest := req]> (outstandingReqs s) |>) ;;
              mret None
        end
  end.

Definition sendPrepare (preprep : PrePrepare) : Mp result :=
  let v := pp_View preprep in
  let n := pp_SequenceNumber preprep in
  let d := pp_RequestDigest preprep in
  s ← get;
  when (negb (timerActive s)) (startTimer (requestTimeout s)) ;;
  s ← get;
  cert ← getCert v n;
  if negb (primary s (view s) =? id_ s) && prePrepared s d v n && negb (sentPrepare cert)
  then
    updCert v n (fun c => c <| sentPrepare := true |>) ;;
    innerBroadcast (Message_Prepare (mkPrepare v n d (id_ s))) true
  else mret None.

Definition recvPrePrepare (preprep : PrePrepare) : Mp result :=
  s ← get;
  if negb (activeView s) then mret None
  else if negb (primary s (view s) =? pp_ReplicaId preprep) then mret None
  else if negb (inWV s (pp_View preprep) (pp_SequenceNumber preprep)) then mret None
  else
    storePrePrepare preprep ;;
    stored ← storeRequest preprep;
    match stored with
    | Some err => mret err
    | None => sendPrepare preprep
    end.

Definition recvPrepare (prep : Prepare) : Mp result :=
  let v := p_View prep in
  let n := p_SequenceNumber prep in
  s ← get;
  if primary s v =? p_ReplicaId prep then mret None
  else if negb (inWV s v n) then mret None
  else
    cert ← getCert v n;
    if existsb (fun prevPrep => p_ReplicaId prevPrep =? p_ReplicaId prep) (prepare cert)
    then mret None
    else
      updCert v n (fun c => c <| prepare := prepare c ++ [prep] |>) ;;
      maybeSendCommit (p_RequestDigest prep) v n.

(** [Checkpoint], the callback of the executor. *)
Definition takeCheckpoint (sn : Z) (cid : bytes) : Mp unit :=
  s ← get;
  if K_ s =? 0 then panic
  else if negb (sn mod K_ s =? 0) then mret tt
  else
    let idAsString := Base64.EncodeToString cid in
    modify (fun s => s <| chkpts := <[lastExec s := idAsString]> (chkpts s) |>) ;;
    innerBroadcast
      (Message_Checkpoint (mkCheckpoint (lastExec s) (id_ s) idAsString)) true ;;
    mret tt.

(** ** View change: leaving a view *)

Definition correctViewChange (s : pbftCore) (vc : ViewChange) : bool :=
  forallb (fun p => (pq_View p <? vc_View vc) && (pq_SequenceNumber p >? vc_H vc)
                    && (pq_SequenceNumber p <=? u64 (vc_H vc + L_ s)))
    (vc_Pset vc ++ vc_Qset vc)
  && forallb (fun c => (vcC_SequenceNumber c >=? vc_H vc)
                       && (vcC_SequenceNumber c <=? u64 (vc_H vc + L_ s)))
       (vc_Cset vc).

(** P set: requests that have prepared here. *)
Definition addPset (entry : msgID * msgCert) : Mp unit :=
  let '((v, n), cert) := entry in
  match prePrepare cert with
  | None => mret tt
  | Some pp =>
      let digest := pp_RequestDigest pp in
      s ← get;
      if negb (prepared s digest v n) then mret tt
      else if match pset s !! n with Some p => pq_View p >? v | None => false end
      then mret tt
      else modify (fun s => s <| pset := <[n := mkViewChange_PQ n digest v]> (pset s) |>)
  end.

(** Q set: requests that have pre-prepared here. *)
Definition addQset (entry : msgID * msgCert) : Mp unit :=
  let '((v, n), cert) := entry in
  match prePrepare cert with
  | None => mret tt
  | Some pp =>
      let digest := pp_RequestDigest pp in
      s ← get;
      if negb (prePrepared s digest v n) then mret tt
      else if match qset s !! (digest, n) with Some q => pq_View q >? v | None => false end
      then mret tt
      else modify (fun s =>
        s <| qset := <[(digest, n) := mkViewChange_PQ n digest v]> (qset s) |>)
  end.

Definition sendViewChange : Mp result :=
  stopTimer ;;
  modify (fun s => s <| newViewStore := delete (view s) (newViewStore s) |>) ;;
  modify (fun s => s <| view := u64 (view s + 1) |>) ;;
  modify (fun s => s <| activeView := false |>) ;;
  certs ← range env certStore;
  forM_ certs addPset ;;
  certs ← range env certStore;
  forM_ certs addQset ;;
  (* clear old messages *)
  modify (fun s =>
    s <| certStore := filter (fun '((v, _, _) : msgID * msgCert) => ~ v < view s) (certStore s) |>) ;;
  modify (fun s => s <| viewChangeStore :=
    filter (fun '((v, _, _) : vcidx * ViewChange) => ~ v < view s) (viewChangeStore s) |>) ;;
  cs ← range env chkpts;
  ps ← range env pset;
  qs ← range env qset;
  s ← get;
  let vc := mkViewChange (view s) (h_ s)
    ((fun '(n, i) => mkViewChange_C n i) <$> cs) (snd <$> ps) (snd <$> qs) (id_ s) [] in
  let vc := fst (sign env vc) in
  innerBroadcast (Message_ViewChange vc) true.

(** [timerHander] in two steps: the tick of the expired timer is received and
    counted, then, with the lock held, the view is changed unless the timer has
    been reset meanwhile. *)
Definition timerExpired : Mp unit :=
  modify (fun s => s <| timerRunning := false |>) ;;
  modify (fun s => s <| timerExpiredCount := u64 (timerExpiredCount s + 1) |>).

Definition timerHander : Mp unit :=
  s ← get;
  if timerResetCount s >? timerExpiredCount s then mret tt
  else sendViewChange ;; mret tt.

(** ** Execution *)

(** One action of another goroutine: it handles a message or a checkpoint of the
    executor, the timer goroutine receives and counts a tick (which needs no
    lock), or it gets the lock it waited for since.  Other actions may come
    between the last two, which is the race [timerResetCount] guards against. *)
Definition runLockEvent (e : lockEvent) : Mp unit :=
  match e with
  | lock_message m sender => self m sender ;; mret tt
  | lock_checkpoint sn cid => takeCheckpoint sn cid
  | lock_expire => s ← get; when (timerRunning s) timerExpired
  | lock_timer => timerHander
  end.

(** [instance.unlock(); instance.consumer.execute(...); instance.lock()]: the
    consumer is called, and whatever other goroutines do with the lock happens
    before it is taken again. *)
Definition executeUnlocked (sn : Z) (tx : option bytes) (info : ExecutionInfo) : Mp unit :=
  emit (call_execute sn tx info) ;;
  s ← get;
  match schedule s with
  | [] => mret tt
  | es :: rest =>
      modify (fun s => s <| schedule := rest |>) ;;
      forM_ es runLockEvent
  end.

Definition executeOne (idx : msgID) : Mp bool :=
  let '(v, n) := idx in
  s ← get;
  match certStore s !! idx with
  | None => mret false
  | Some cert =>
      if negb (n =? u64 (lastExec s + 1)) then mret false
      else
        match prePrepare cert with
        | None => mret false
        | Some pp =>
            if skipInProgress s then mret false
            else
              let digest := pp_RequestDigest pp in
              let req := reqStore s !! digest in
              if negb (committed s digest v n) then mret false
              else
                modify (fun s => s <| lastExec := n |>) ;;
                stopTimer ;;
                modify (fun s => s <| lastNewViewTimeout := newViewTimeout s |>) ;;
                (if K_ s =? 0 then panic
                 else if bool_decide (digest = "") then
                   when (n mod K_ s =? 0)
                     (executeUnlocked n None (mkExecutionInfo true false true))
                 else
                   modify (fun s =>
                     s <| outstandingReqs := delete digest (outstandingReqs s) |>) ;;
                   match req with
                   | None => panic
                   | Some r =>
                       executeUnlocked n (Some (req_Payload r))
                         (mkExecutionInfo (n mod K_ s =? 0) false false)
                   end) ;;
                s ← get;
                when (negb (bool_decide (outstandingReqs s = ∅)))
                  (startTimer (requestTimeout s)) ;;
                mret true
        end
  end.

(** The body of the [range] over the certificates: stop at the first that
    executes. *)
Fixpoint executeFirst (idxs : list msgID) : Mp bool :=
  match idxs with
  | [] => mret false
  | idx :: rest => b ← executeOne idx; if (b : bool) then mret true else executeFirst rest
  end.

Fixpoint executeOutstanding (fuel : nat) : Mp unit :=
  match fuel with
  | O => diverge
  | S fuel' =>
      certs ← range env certStore;
      b ← executeFirst (fst <$> certs);
      if (b : bool) then executeOutstanding fuel' else mret tt
  end.

Definition recvCommit (fuel : nat) (c : Commit) : Mp result :=
  let v := c_View c in
  let n := c_SequenceNumber c in
  s ← get;
  if negb (inWV s v n) then mret None
  else
    cert ← getCert v n;
    if existsb (fun prevCommit => c_ReplicaId prevCommit =? c_ReplicaId c) (commit cert)
    then mret None
    else
      updCert v n (fun cert => cert <| commit := commit cert ++ [c] |>) ;;
      executeOutstanding fuel ;;
      mret None.

(** ** Checkpoints and watermarks *)

(** Forget the requests of the certificates up to [hh]. *)
Definition cleanReqStore (s : pbftCore) (hh : Z) : gmap string Request :=
  foldr (fun '((_, n), cert) acc =>
    if n <=? hh then
      match prePrepare cert with
      | Some p => delete (pp_RequestDigest p) acc
      | None => acc
      end
    else acc) (reqStore s) (map_to_list (certStore s)).

Definition moveWatermarks (hh : Z) : Mp unit :=
  modify (fun s => s <| reqStore := cleanReqStore s hh |>) ;;
  modify (fun s =>
    s <| certStore := filter (fun '((_, n, _) : msgID * msgCert) => ~ n <= hh) (certStore s) |>) ;;
  modify (fun s => s <| checkpointStore :=
    filter (fun '((c, _) : Checkpoint * bool) => ~ ck_SequenceNumber c <= hh)
      (checkpointStore s) |>) ;;
  modify (fun s => s <| pset := filter (fun '((n, _) : Z * ViewChange_PQ) => ~ n <= hh) (pset s) |>) ;;
  modify (fun s => s <| qset := filter (fun '((_, n, _) : qidx * ViewChange_PQ) => ~ n <= hh) (qset s) |>) ;;
  modify (fun s => s <| chkpts := filter (fun '((n, _) : Z * string) => ~ n < hh) (chkpts s) |>) ;;
  modify (fun s => s <| h_ := hh |>) ;;
  resubmitRequests.

Definition weakCheckpointSetOutOfRange (chkpt : Checkpoint) : Mp bool :=
  s ← get;
  let H := u64 (h_ s + L_ s) in
  if ck_SequenceNumber chkpt <? H then
    modify (fun s => s <| hChkpts := delete (ck_ReplicaId chkpt) (hChkpts s) |>) ;;
    mret false
  else
    modify (fun s =>
      s <| hChkpts := <[ck_ReplicaId chkpt := ck_SequenceNumber chkpt]> (hChkpts s) |>) ;;
    s ← get;
    if Z.of_nat (size (hChkpts s)) >=? f_ s + 1 then
      let chkptSeqNumArray := sortUint64 (snd <$> map_to_list (hChkpts s)) in
      modify (fun s => s <| hChkpts := filter (fun '((_, n) : Z * Z) => ~ n < H) (hChkpts s) |>) ;;
      let i := Z.of_nat (length chkptSeqNumArray) - (f_ s + 1) in
      match (if i <? 0 then None else chkptSeqNumArray !! Z.to_nat i) with
      | None => panic
      | Some m =>
          if m >? H then
            modify (fun s => s <| reqStore := ∅ |>) ;;
            moveWatermarks m ;;
            modify (fun s => s <| skipInProgress := true |>) ;;
            mret true
          else mret false
      end
    else mret false.

(** Does a stored checkpoint agree with [chkpt] on sequence number and id? *)
Definition sameCheckpoint (chkpt testChkpt : Checkpoint) : bool :=
  (ck_SequenceNumber testChkpt =? ck_SequenceNumber chkpt)
  && bool_decide (ck_Id testChkpt = ck_Id chkpt).

Definition witnessCheckpointWeakCert (chkpt : Checkpoint) : Mp unit :=
  store ← range env checkpointStore;
  s ← get;
  let members := ck_ReplicaId <$> List.filter (sameCheckpoint chkpt) (fst <$> store) in
  (* the slice has f+1 elements: a further one is out of range *)
  if Z.of_nat (length members) >? f_ s + 1 then panic
  else
    let checkpointMembers :=
      members ++ replicate (Z.to_nat (f_ s + 1) - length members) 0 in
    match Base64.DecodeString (ck_Id chkpt) with
    | None => mret tt
    | Some snapshotID =>
        if skipInProgress s then
          modify (fun s => s <| skipInProgress := false |>) ;;
          moveWatermarks (ck_SequenceNumber chkpt) ;;
          modify (fun s => s <| lastExec := ck_SequenceNumber chkpt |>) ;;
          emit (call_skipTo (ck_SequenceNumber chkpt) snapshotID checkpointMembers
                  (mkExecutionInfo true false false))
        else
          emit (call_validState (ck_SequenceNumber chkpt) snapshotID checkpointMembers
                  (mkExecutionInfo true false false))
    end.

(** ** View change: entering a view *)

Definition getViewChanges : Mp (list ViewChange) :=
  vcs ← range env viewChangeStore; mret (snd <$> vcs).

(** The view-change messages that claim each checkpoint. *)
Definition gatherCheckpoints (vset : list ViewChange) : gmap ViewChange_C (list ViewChange) :=
  foldl (fun acc vc =>
    foldl (fun acc c => <[c := default [] (acc !! c) ++ [vc]]> acc) acc (vc_Cset vc))
    ∅ vset.

(** The loop over the gathered checkpoints; the accumulator holds the three
    named results. *)
Definition selectStep (s : pbftCore) (acc : ViewChange_C * bool * list Z)
    (entry : ViewChange_C * list ViewChange) : ViewChange_C * bool * list Z :=
  let '(checkpoint, ok, replicas) := acc in
  let '(idx, vcList) := entry in
  if Z.of_nat (length vcList) <=? f_ s then acc
  else if countb (fun vc => vc_H vc <=? vcC_SequenceNumber idx) vcList
            <? intersectionQuorum s
  then acc
  else
    let replicas := vc_ReplicaId <$> vcList in
    if vcC_SequenceNumber checkpoint <=? vcC_SequenceNumber idx
    then (idx, true, replicas)
    else (checkpoint, ok, replicas).

Definition selectInitialCheckpoint (vset : list ViewChange)
    : Mp (ViewChange_C * bool * list Z) :=
  checkpoints ← range env (fun _ => gatherCheckpoints vset);
  s ← get;
  mret (foldl (selectStep s) (mkViewChange_C 0 "", false, []) checkpoints).

(** A1: the number of messages in [vset] none of whose P entries for [n]
    contradicts [em]. *)
Definition countA1 (vset : list ViewChange) (n : Z) (em : ViewChange_PQ) : Z :=
  countb (fun mp =>
    negb (vc_H mp >=? n)
    && forallb (fun emp =>
         negb ((n =? pq_SequenceNumber emp)
               && negb ((pq_View emp <? pq_View em)
                        || ((pq_View emp =? pq_View em)
                            && bool_decide (pq_Digest emp = pq_Digest em)))))
         (vc_Pset mp)) vset.

(** A2: the number of Q entries of [vset] for [n] that support [em]. *)
Definition countA2 (vset : list ViewChange) (n : Z) (em : ViewChange_PQ) : Z :=
  countb (fun emp =>
    (n =? pq_SequenceNumber emp) && (pq_View emp >=? pq_View em)
    && bool_decide (pq_Digest emp = pq_Digest em)) (concat (vc_Qset <$> vset)).

Definition selectable (s : pbftCore) (vset : list ViewChange) (n : Z)
    (em : ViewChange_PQ) : bool :=
  negb (countA1 vset n em <? intersectionQuorum s)
  && negb (countA2 vset n em <? f_ s + 1).

(** The number of messages whose P set has no entry for [n]. *)
Definition countNull (vset : list ViewChange) (n : Z) : Z :=
  countb (fun m => forallb (fun em => negb (pq_SequenceNumber em =? n)) (vc_Pset m)) vset.

(** What the body of [nLoop] decides for one sequence number: the digest of a
    selected request, the null request, or failure. *)
Inductive assignment := assignDigest (d : string) | assignNull | assignFail.

Definition assignOne (s : pbftCore) (vset : list ViewChange) (n : Z) : assignment :=
  match List.find (selectable s vset n) (concat (vc_Pset <$> vset)) with
  | Some em => assignDigest (pq_Digest em)
  | None =>
      if countNull vset n >=? intersectionQuorum s then assignNull else assignFail
  end.

(** [nLoop]; [None] is fuel running out, [Some None] the nil result. *)
Fixpoint assignLoop (s : pbftCore) (vset : list ViewChange) (fuel : nat)
    (hi n maxN : Z) (msgList : gmap Z string) : option (option (Z * gmap Z string)) :=
  if n <=? hi then
    match fuel with
    | O => None
    | S fuel' =>
        match assignOne s vset n with
        | assignDigest d => assignLoop s vset fuel' hi (u64 (n + 1)) n (<[n := d]> msgList)
        | assignNull => assignLoop s vset fuel' hi (u64 (n + 1)) maxN (<[n := ""]> msgList)
        | assignFail => Some None
        end
    end
  else Some (Some (maxN, msgList)).

Definition assignSequenceNumbers (s : pbftCore) (vset : list ViewChange) (hh : Z)
    : option (option (gmap Z string)) :=
  r ← assignLoop s vset (Z.to_nat (L_ s)) (u64 (hh + L_ s)) (u64 (hh + 1)) (u64 (hh + 1)) ∅;
  match r with
  | None => Some None
  | Some (maxN, msgList) =>
      (* prune top null requests *)
      Some (Some (filter (fun '((n, msg) : Z * string) => ~ (n > maxN /\ msg = "")) msgList))
  end.

Definition fetchRequests : Mp result :=
  ds ← range env missingReqs;
  forM_ ds (fun '(digest, _) =>
    s ← get;
    innerBroadcast (Message_FetchRequest (mkFetchRequest digest (id_ s))) false ;;
    mret tt) ;;
  mret None.

Definition processNewView2 (nv : NewView) : Mp result :=
  modify (fun s => s <| activeView := true |>) ;;
  modify (fun s => s <| newViewStore := delete (u64 (view s - 1)) (newViewStore s) |>) ;;
  xs ← range env (fun _ => nv_Xset nv);
  forM_ xs (fun '(n, d) =>
    s ← get;
    getCert (view s) n ;;
    updCert (view s) n (fun c =>
      c <| prePrepare := Some (mkPrePrepare (view s) n d None (id_ s)) |>) ;;
    when (n >? seqNo s) (modify (fun s => s <| seqNo := n |>))) ;;
  s ← get;
  (if negb (primary s (view s) =? id_ s) then
     xs ← range env (fun _ => nv_Xset nv);
     forM_ xs (fun '(n, d) =>
       s ← get;
       let prep := mkPrepare (view s) n d (id_ s) in
       getCert (view s) n ;;
       updCert (view s) n (fun c => c <| prepare := prepare c ++ [prep] |>) ;;
       updCert (view s) n (fun c => c <| sentPrepare := true |>) ;;
       innerBroadcast (Message_Prepare prep) true ;;
       mret tt)
   else resubmitRequests) ;;
  s ← get;
  emit (call_viewChange (view s)) ;;
  mret None.

(** The requests of the X set that are above the low watermark, not null and
    not stored. *)
Definition missingAssigned (s : pbftCore) (xset : gmap Z string) : list string :=
  snd <$> List.filter (fun '(n, d) =>
    negb (n <=? h_ s) && negb (bool_decide (d = ""))
    && bool_decide (reqStore s !! d = None)) (map_to_list xset).

Definition processNewView : Mp result :=
  s ← get;
  match newViewStore s !! view s with
  | None => mret None
  | Some nv =>
      if activeView s then mret None
      else
        r ← selectInitialCheckpoint (nv_Vset nv);
        let '(cp, ok, replicas) := (r : ViewChange_C * bool * list Z) in
        if negb ok then sendViewChange
        else
          s ← get;
          match assignSequenceNumbers s (nv_Vset nv) (vcC_SequenceNumber cp) with
          | None => diverge
          | Some None => sendViewChange
          | Some (Some msgList) =>
              if negb (bool_decide (msgList = ∅) && bool_decide (nv_Xset nv = ∅))
                 && negb (bool_decide (msgList = nv_Xset nv))
              then sendViewChange
              else
                moved ←
                  (if h_ s <? vcC_SequenceNumber cp then
                     moveWatermarks (vcC_SequenceNumber cp) ;;
                     match Base64.DecodeString (vcC_Id cp) with
                     | None => mret false
                     | Some snapshotID =>
                         emit (call_skipTo (vcC_SequenceNumber cp) snapshotID replicas
                                 (mkExecutionInfo true false false)) ;;
                         modify (fun s => s <| lastExec := vcC_SequenceNumber cp |>) ;;
                         mret true
                     end
                   else mret true);
                if negb moved then mret None
                else
                  s ← get;
                  let missing := missingAssigned s (nv_Xset nv) in
                  let newRequestMissing :=
                    existsb (fun d => bool_decide (missingReqs s !! d = None)) missing in
                  modify (fun s => s <| missingReqs :=
                    foldr (fun d acc => <[d := true]> acc) (missingReqs s) missing |>) ;;
                  s ← get;
                  if bool_decide (missingReqs s = ∅) then processNewView2 nv
                  else if newRequestMissing then fetchRequests ;; mret None
                  else mret None
          end
  end.

Definition sendNewView : Mp result :=
  s ← get;
  match newViewStore s !! view s with
  | Some _ => mret None
  | None =>
      vset ← getViewChanges;
      r ← selectInitialCheckpoint vset;
      let '(cp, ok, _) := (r : ViewChange_C * bool * list Z) in
      if negb ok then mret None
      else
        s ← get;
        match assignSequenceNumbers s vset (vcC_SequenceNumber cp) with
        | None => diverge
        | Some None => mret None
        | Some (Some msgList) =>
            let nv := mkNewView (view s) vset msgList (id_ s) in
            err ← innerBroadcast (Message_NewView nv) false;
            match err with
            | Some e => mret (Some e)
            | None =>
                modify (fun s => s <| newViewStore := <[view s := nv]> (newViewStore s) |>) ;;
                processNewView
            end
        end
  end.

(** The views above ours in the view-change log, with their senders. *)
Definition higherViews (s : pbftCore) : list vcidx :=
  List.filter (fun '(v, _) => negb (v <=? view s)) (fst <$> map_to_list (viewChangeStore s)).

Definition minView (idxs : list vcidx) : Z :=
  foldl (fun m '(v, _) => if (m =? 0) || (v <? m) then v else m) 0 idxs.

Definition recvViewChange (vc : ViewChange) : Mp result :=
  match verify env vc with
  | Some _ => mret None
  | None =>
      s ← get;
      if negb ((vc_View vc >=? view s) && correctViewChange s vc
               && bool_decide (viewChangeStore s !! (vc_View vc, vc_ReplicaId vc) = None))
      then mret None
      else
        modify (fun s => s <| viewChangeStore :=
          <[(vc_View vc, vc_ReplicaId vc) := vc]> (viewChangeStore s) |>) ;;
        s ← get;
        let replicas : gset Z := list_to_set (snd <$> higherViews s) in
        if Z.of_nat (size replicas) >=? f_ s + 1 then
          (* subtract one, because sendViewChange() increments *)
          modify (fun s => s <| view := u64 (minView (higherViews s) - 1) |>) ;;
          sendViewChange
        else
          let quorum := countb (fun '((v, _), _) => v =? view s)
                          (map_to_list (viewChangeStore s)) in
          if (vc_View vc =? view s) && (quorum =? allCorrectReplicasQuorum s) then
            startTimer (lastNewViewTimeout s) ;;
            modify (fun s => s <| lastNewViewTimeout := i64 (2 * lastNewViewTimeout s) |>) ;;
            s ← get;
            if primary s (view s) =? id_ s then sendNewView else processNewView
          else processNewView
  end.

Definition recvNewView (nv : NewView) : Mp result :=
  s ← get;
  if negb ((nv_View nv >? 0) && (nv_View nv >=? view s)
           && (primary s (nv_View nv) =? nv_ReplicaId nv)
           && bool_decide (newViewStore s !! nv_View nv = None))
  then mret None
  else if negb (forallb (fun vc => bool_decide (verify env vc = None)) (nv_Vset nv))
  then mret None
  else
    modify (fun s => s <| newViewStore := <[nv_View nv := nv]> (newViewStore s) |>) ;;
    processNewView.

Definition recvCheckpoint (chkpt : Checkpoint) : Mp result :=
  out_of_range ← weakCheckpointSetOutOfRange chkpt;
  if (out_of_range : bool) then mret None
  else
    s ← get;
    if negb (inW s (ck_SequenceNumber chkpt)) then mret None
    else
      modify (fun s => s <| checkpointStore := <[chkpt := true]> (checkpointStore s) |>) ;;
      s ← get;
      let matching := countb (sameCheckpoint chkpt) (fst <$> map_to_list (checkpointStore s)) in
      when (matching =? f_ s + 1) (witnessCheckpointWeakCert chkpt) ;;
      s ← get;
      if matching <? intersectionQuorum s then mret None
      else if bool_decide (chkpts s !! ck_SequenceNumber chkpt = None) then mret None
      else
        moveWatermarks (ck_SequenceNumber chkpt) ;;
        processNewView.

Definition recvFetchRequest (fr : FetchRequest) : Mp result :=
  s ← get;
  match reqStore s !! fr_RequestDigest fr with
  | None => mret None
  | Some req =>
      let msg := Message_ReturnRequest req in
      if negb (marshal_Message env msg) then mret (Some ErrMarshal)
      else
        emit (call_unicast msg (fr_ReplicaId fr)) ;;
        mret (if consumer_unicast env msg (fr_ReplicaId fr) then None else Some ErrUnicast)
  end.

Definition recvReturnRequest (req : Request) : Mp result :=
  let digest := hashReq env (Some req) in
  s ← get;
  match missingReqs s !! digest with
  | None => mret None
  | Some _ =>
      modify (fun s => s <| reqStore := <[digest := req]> (reqStore s) |>) ;;
      modify (fun s => s <| missingReqs := delete digest (missingReqs s) |>) ;;
      processNewView
  end.

(** [recvMsgSync]: the sender named in the message must be the sender of the
    stream, except for a returned request. *)
Definition dispatch (fuel : nat) (msg : Message) (senderID : Z) : Mp result :=
  let guarded (replicaId : Z) (k : Mp result) : Mp result :=
    if negb (senderID =? replicaId) then mret (Some ErrSenderMismatch) else k in
  match msg with
  | Message_Request req => guarded (req_ReplicaId req) (recvRequest req)
  | Message_PrePrepare pp => guarded (pp_ReplicaId pp) (recvPrePrepare pp)
  | Message_Prepare p => guarded (p_ReplicaId p) (recvPrepare p)
  | Message_Commit c => guarded (c_ReplicaId c) (recvCommit fuel c)
  | Message_Checkpoint c => guarded (ck_ReplicaId c) (recvCheckpoint c)
  | Message_ViewChange vc => guarded (vc_ReplicaId vc) (recvViewChange vc)
  | Message_NewView nv => guarded (nv_ReplicaId nv) (recvNewView nv)
  | Message_FetchRequest fr => guarded (fr_ReplicaId fr) (recvFetchRequest fr)
  | Message_ReturnRequest req => recvReturnRequest req
  | Message_None => mret (Some ErrInvalidMessage)
  end.

End handlers.

Fixpoint recvMsgSync (env : surroundings) (fuel : nat) (msg : Message) (senderID : Z)
    : Mp result :=
  match fuel with
  | O => diverge
  | S fuel' => dispatch env (recvMsgSync env fuel') fuel' msg senderID
  end.

(** ** Entry points *)

(** Handle new consensus requests. *)
Definition request (env : surroundings) (fuel : nat) (payload : bytes) (senderID : Z)
    : Mp result :=
  recvMsgSync env fuel (Message_Request (mkRequest None payload senderID)) senderID ;;
  mret None.

(** Handle internal consensus messages. *)
Definition receive (env : surroundings) (fuel : nat) (payload : bytes) (senderID : Z)
    : Mp result :=
  match unmarshal_Message env payload with
  | None => mret (Some ErrUnmarshal)
  | Some msg => recvMsgSync env fuel msg senderID ;; mret None
  end.
