(* ===== verification/PbftToy.v ===== *)
(** A small concrete setting in which the PBFT model runs: surroundings whose
    hash and encoding are trivial, and a configuration of four replicas. *)
From stdpp Require Import base gmap sets list strings.
From Stdlib Require Import ZArith.
From S2P Require Import Prelude GoStd PbftTypes PbftCore.

Definition toyEnv : surroundings := {|
  consumer_validate := fun _ => true;
  consumer_sign := fun raw => Some raw;
  consumer_verify := fun _ _ _ => true;
  consumer_unicast := fun _ _ => true;
  marshal_Request := fun r => from_option req_Payload [] r;
  marshal_ViewChange := fun _ => Some [];
  marshal_Message := fun _ => true;
  unmarshal_Message := fun _ => None;
  ComputeCryptoHash := fun b => b;
  random_skip := fun _ => None;
  order := canonicalOrder
|}.

(** [N = 4], [f = 1], a checkpoint every ten sequence numbers, a log of twenty. *)
Definition toyConfig : pbftConfig := mkPbftConfig 4 1 10 2 false (Some 2000) (Some 2000).

Definition toyNode (i : Z) : pbftCore :=
  match newPbftCore i toyConfig [] [] with
  | Some s => s
  | None => mkPbftCore true false false 0 0 0 0 0 0 0 0 0 0 0 ∅ ∅ ∅ false ∅ false false 0 0 0
      ∅ 0 0 ∅ ∅ ∅ ∅ ∅ ∅ [] 0 []
  end.

Definition toyRequest : Request := mkRequest None [Byte.x01] 0.
Definition toyDigest : string := hashReq toyEnv (Some toyRequest).

(** The state after a run, the first state when the run does not finish. *)
Definition after {B} (m : Mp B) (s : pbftCore) : pbftCore :=
  match m s with Done _ s' => s' | _ => s end.

Definition finishes {B} (m : Mp B) (s : pbftCore) : bool :=
  match m s with Done _ _ => true | _ => false end.
