(* ===== verification/PbftInv.v ===== *)
(** The invariant of one replica.  It is stated against an arbitrary account
    [A] of what the other replicas have sent ([A j m]: replica [j] may have sent
    [m]); the network model instantiates [A] later.  Everything a replica keeps
    in its logs is either its own, and then in its output, or accounted for by
    [A]; and its own output never contradicts itself. *)
From stdpp Require Import base gmap sets list strings.
From Stdlib Require Import ZArith Lia.
From S2P Require Import Prelude GoStd PbftTypes PbftCore.

(** * Bounds *)

(** External numbers are at most [2^62]; a replica's own numbers grow by at most
    [L + 1] with each call it makes into its consumer. *)
Definition G (s : pbftCore) : Z := 2 ^ 62 + (L_ s + 1) * Z.of_nat (length (out s)).

(** The run is short enough for no counter to wrap. *)
Definition small (s : pbftCore) : Prop := 0 <= L_ s /\ G s + 2 * L_ s + 4 < two64.

Definition upTo (b x : Z) : Prop := 0 <= x <= b.

Definition boundedCset (b : Z) (vc : ViewChange) : Prop :=
  Forall (fun c => upTo b (vcC_SequenceNumber c)) (vc_Cset vc).

(** The numbers of a message that end up in a replica's counters. *)
Definition boundedMsg (b : Z) (m : Message) : Prop :=
  match m with
  | Message_PrePrepare p => is_u64 (pp_SequenceNumber p)
  | Message_Prepare p => is_u64 (p_SequenceNumber p)
  | Message_Commit c => is_u64 (c_SequenceNumber c)
  | Message_Checkpoint c => upTo b (ck_SequenceNumber c)
  | Message_ViewChange vc => upTo b (vc_View vc) /\ boundedCset b vc
  | Message_NewView nv => Forall (boundedCset b) (nv_Vset nv)
  | _ => True
  end.

Lemma boundedMsg_mono b b' m : b <= b' -> boundedMsg b m -> boundedMsg b' m.
Proof.
  unfold boundedMsg, boundedCset, upTo. intros Hb. destruct m; try done; try lia.
  - intros [? HF]; split; [lia|]. eapply Forall_impl; [exact HF|]. cbn. lia.
  - intros HF. eapply Forall_impl; [exact HF|]. intros vc Hvc.
    eapply Forall_impl; [exact Hvc|]. cbn. lia.
Qed.

(** The quorum is the least number above [(N + f) / 2]. *)
Lemma intersectionQuorum_bounds s : 0 <= N_ s + f_ s ->
  N_ s + f_ s + 1 <= 2 * intersectionQuorum s <= N_ s + f_ s + 2.
Proof.
  intros H. unfold intersectionQuorum. rewrite Z.quot_div_nonneg by lia.
  pose proof (Z.div_mod (N_ s + f_ s + 2) 2 ltac:(lia)).
  pose proof (Z.mod_pos_bound (N_ s + f_ s + 2) 2 ltac:(lia)). lia.
Qed.

(** * Provenance *)

Section account.
Context (A : Z -> Message -> Prop).

Definition sentBy (s : pbftCore) (j : Z) (m : Message) : Prop :=
  if decide (j = id_ s) then call_broadcast m ∈ out s else A j m.

(** The primary of view [v] gave sequence number [n] to digest [d]: by a
    pre-prepare, or in the X set of its new-view. *)
Definition assigned (s : pbftCore) (v n : Z) (d : string) : Prop :=
  (exists pp, pp_View pp = v /\ pp_SequenceNumber pp = n /\ pp_RequestDigest pp = d
     /\ sentBy s (primary s v) (Message_PrePrepare pp))
  \/ (exists nv, nv_View nv = v /\ 0 < v /\ nv_Xset nv !! n = Some d
     /\ sentBy s (primary s v) (Message_NewView nv)).

(** A prepared certificate as a set of senders. *)
Definition justified (s : pbftCore) (v n : Z) (d : string) : Prop :=
  assigned s v n d
  /\ exists rs : list Z, NoDup rs
     /\ intersectionQuorum s - 1 <= Z.of_nat (length rs)
     /\ Forall (fun r => 0 <= r < N_ s /\ r <> primary s v /\
          exists p, p_View p = v /\ p_SequenceNumber p = n /\ p_RequestDigest p = d
            /\ p_ReplicaId p = r /\ sentBy s r (Message_Prepare p)) rs.

Definition prepareOK (s : pbftCore) (v n : Z) (p : Prepare) : Prop :=
  p_View p = v /\ p_SequenceNumber p = n /\ p_ReplicaId p <> primary s v
  /\ 0 <= p_ReplicaId p < N_ s /\ sentBy s (p_ReplicaId p) (Message_Prepare p).

Definition commitOK (s : pbftCore) (v n : Z) (c : Commit) : Prop :=
  c_View c = v /\ c_SequenceNumber c = n
  /\ 0 <= c_ReplicaId c < N_ s /\ sentBy s (c_ReplicaId c) (Message_Commit c).

Definition prePrepareOK (s : pbftCore) (v n : Z) (pp : PrePrepare) : Prop :=
  pp_View pp = v /\ pp_SequenceNumber pp = n /\ assigned s v n (pp_RequestDigest pp).

Definition certOK (s : pbftCore) (v n : Z) (c : msgCert) : Prop :=
  v <= view s /\ 0 <= n <= h_ s + L_ s
  /\ Forall (prepareOK s v n) (prepare c) /\ NoDup (p_ReplicaId <$> prepare c)
  /\ Forall (commitOK s v n) (commit c) /\ NoDup (c_ReplicaId <$> commit c)
  /\ (forall pp, prePrepare c = Some pp -> prePrepareOK s v n pp).

Definition lockEventOK (s : pbftCore) (e : lockEvent) : Prop :=
  match e with
  | lock_message m j =>
      j <> id_ s /\ 0 <= j < N_ s /\ A j m /\ boundedMsg (2 ^ 62) m
  | _ => True
  end.

(** * The invariant *)

Definition own (s : pbftCore) (m : Message) : Prop := call_broadcast m ∈ out s.

(** The certificate that records a prepare the replica has sent. *)
Definition prepareRecorded (s : pbftCore) (v n : Z) (d : string) : Prop :=
  exists c pp, certStore s !! (v, n) = Some c /\ sentPrepare c = true
    /\ prePrepare c = Some pp /\ pp_RequestDigest pp = d.

Record inv (s : pbftCore) : Prop := {
  inv_cfg : 0 <= L_ s /\ 0 <= f_ s /\ 3 * f_ s + 1 <= N_ s /\ replicaCount s = N_ s
            /\ 0 <= id_ s < N_ s /\ byzantine s = false /\ 2 <= N_ s;
  inv_h : upTo (G s) (h_ s);
  inv_view : upTo (G s) (view s);
  inv_seqNo : upTo (G s + L_ s) (seqNo s);
  inv_lastExec : 0 <= lastExec s <= h_ s + L_ s;
  inv_chkpts : forall n i, chkpts s !! n = Some i -> upTo (G s) n;
  inv_checkpointStore : forall c b, checkpointStore s !! c = Some b ->
    upTo (G s) (ck_SequenceNumber c);
  inv_hChkpts : forall j n, hChkpts s !! j = Some n -> upTo (G s) n;
  inv_viewChangeStore : forall v j vc, viewChangeStore s !! (v, j) = Some vc ->
    upTo (G s) v /\ boundedCset (G s) vc;
  inv_newViewStore : forall v nv, newViewStore s !! v = Some nv ->
    nv_View nv = v /\ sentBy s (primary s v) (Message_NewView nv)
    /\ Forall (boundedCset (G s)) (nv_Vset nv);
  inv_certStore : forall v n c, certStore s !! (v, n) = Some c -> certOK s v n c;
  inv_pset : forall n p, pset s !! n = Some p -> pq_View p < view s;
  inv_qset : forall k q, qset s !! k = Some q -> pq_View q < view s;
  inv_inactive : activeView s = false -> 0 < view s;
  inv_active : activeView s = true -> 0 < view s -> is_Some (newViewStore s !! view s);
  inv_prep_view : forall p, own s (Message_Prepare p) ->
    p_ReplicaId p = id_ s /\ primary s (p_View p) <> id_ s /\ p_View p <= view s;
  inv_prep_current : forall p, own s (Message_Prepare p) -> p_View p = view s ->
    activeView s = true /\ (p_SequenceNumber p <= h_ s
      \/ prepareRecorded s (p_View p) (p_SequenceNumber p) (p_RequestDigest p));
  inv_prep_unique : forall p p', own s (Message_Prepare p) -> own s (Message_Prepare p') ->
    p_View p = p_View p' -> p_SequenceNumber p = p_SequenceNumber p' ->
    p_RequestDigest p = p_RequestDigest p';
  inv_pp_view : forall pp, own s (Message_PrePrepare pp) ->
    pp_View pp <= view s
    /\ (pp_View pp = view s -> activeView s = true /\ pp_SequenceNumber pp <= seqNo s);
  inv_pp_unique : forall pp pp', own s (Message_PrePrepare pp) ->
    own s (Message_PrePrepare pp') -> pp_View pp = pp_View pp' ->
    pp_SequenceNumber pp = pp_SequenceNumber pp' ->
    pp_RequestDigest pp = pp_RequestDigest pp';
  inv_nv_view : forall nv, own s (Message_NewView nv) -> 0 < nv_View nv ->
    nv_View nv <= view s
    /\ (nv_View nv = view s -> newViewStore s !! view s = Some nv
        /\ (activeView s = true ->
            forall n d, nv_Xset nv !! n = Some d -> n <= seqNo s));
  inv_nv_unique : forall nv nv', own s (Message_NewView nv) -> own s (Message_NewView nv') ->
    0 < nv_View nv -> nv_View nv = nv_View nv' -> nv = nv';
  inv_nv_pp : forall nv pp d, own s (Message_NewView nv) -> own s (Message_PrePrepare pp) ->
    0 < nv_View nv -> nv_View nv = pp_View pp ->
    nv_Xset nv !! pp_SequenceNumber pp = Some d -> pp_RequestDigest pp = d;
  inv_commit : forall c, own s (Message_Commit c) ->
    justified s (c_View c) (c_SequenceNumber c) (c_RequestDigest c);
  inv_schedule : Forall (Forall (lockEventOK s)) (schedule s)
}.

(** [s'] is a good state to have reached from [s]. *)
Definition good (s s' : pbftCore) : Prop :=
  inv s' /\ h_ s <= h_ s' /\ view s <= view s'.

(** * Steps *)

Definition cfg (s : pbftCore) := (N_ s, f_ s, L_ s, id_ s, replicaCount s, byzantine s, K_ s).

Lemma cfg_fields s s' : cfg s = cfg s' ->
  N_ s = N_ s' /\ f_ s = f_ s' /\ L_ s = L_ s' /\ id_ s = id_ s'
  /\ replicaCount s = replicaCount s' /\ byzantine s = byzantine s' /\ K_ s = K_ s'.
Proof. unfold cfg. intros [=]. auto 10. Qed.

(** What every piece of code guarantees: the configuration stays, the output
    only grows. *)
Definition R0 (s s' : pbftCore) : Prop := cfg s = cfg s' /\ suffix (out s) (out s').

#[global] Instance R0_preorder : PreOrder R0.
Proof.
  split; [done|]. intros x y z [? ?] [? ?]. split; [congruence|by etransitivity].
Qed.

Lemma G_mono s s' : 0 <= L_ s -> L_ s = L_ s' -> suffix (out s) (out s') -> G s <= G s'.
Proof.
  intros HL E [k Hk]. unfold G. rewrite <- E, Hk, length_app. nia.
Qed.

Lemma small_suffix s s' : L_ s = L_ s' -> suffix (out s) (out s') -> small s' -> small s.
Proof.
  intros E Hs [HL HG]. rewrite <- E in HL. pose proof (G_mono s s' HL E Hs).
  split; [done|]. lia.
Qed.

Lemma small_R0 s s' : R0 s s' -> small s' -> small s.
Proof. intros [C O]. apply small_suffix; [|done]. by apply cfg_fields in C as (_ & _ & ? & _). Qed.

#[global] Instance small_dec s : Decision (small s).
Proof. unfold small. apply _. Defined.

(** Partial correctness for runs that end before any counter wraps. *)
Definition wlps {B} (m : Mp B) (Q : B -> pbftCore -> Prop) (s : pbftCore) : Prop :=
  wlp m (fun a s' => small s' -> Q a s') s.

Lemma wlps_mono {B} (m : Mp B) (Q Q' : B -> pbftCore -> Prop) s :
  wlps m Q s -> (forall a s', Q a s' -> Q' a s') -> wlps m Q' s.
Proof. intros H HQ. eapply wlp_mono; [exact H|]. cbn. auto. Qed.

Lemma wlps_bind {B C} (m : Mp B) (k : B -> Mp C) Q s :
  (forall a, guar R0 (k a)) ->
  wlps m (fun a s' => wlps (k a) Q s') s -> wlps (m ≫= k) Q s.
Proof.
  intros Hk Hm. apply wlp_bind. eapply wlp_mono; [exact Hm|]. cbn. intros a s1 H1.
  destruct (decide (small s1)) as [Hs|Hs]; [by apply H1|].
  unfold wlps, wlp. destruct (k a s1) as [b s2| |] eqn:E; [|done..].
  intros Hs2. destruct Hs. eapply small_R0; [|done]. by eapply Hk.
Qed.

Lemma sentBy_mono s s' j m :
  id_ s = id_ s' -> suffix (out s) (out s') -> sentBy s j m -> sentBy s' j m.
Proof.
  intros E [k Hk]. unfold sentBy. rewrite <- E, Hk.
  case_decide; [|done]. intros. apply elem_of_app. by right.
Qed.

Lemma inv_frame s s' :
  cfg s = cfg s' -> h_ s = h_ s' -> view s = view s' -> seqNo s = seqNo s' ->
  lastExec s = lastExec s' -> chkpts s = chkpts s' ->
  checkpointStore s = checkpointStore s' -> hChkpts s = hChkpts s' ->
  viewChangeStore s = viewChangeStore s' -> newViewStore s = newViewStore s' ->
  certStore s = certStore s' -> pset s = pset s' -> qset s = qset s' ->
  activeView s = activeView s' -> out s = out s' -> schedule s = schedule s' ->
  inv s -> inv s'.
Proof.
  destruct s, s'; cbn. intros. cbv [cfg] in *; cbn in *. simplify_eq.
  destruct H15; constructor; assumption.
Qed.

(** ** Provenance is kept *)

Lemma assigned_mono s s' v n d :
  cfg s = cfg s' -> suffix (out s) (out s') -> assigned s v n d -> assigned s' v n d.
Proof.
  intros C O. destruct (cfg_fields s s' C) as (_ & _ & _ & Ei & Er & _).
  unfold assigned, primary. rewrite <- Er.
  intros [(pp & ? & ? & ? & H)|(nv & ? & ? & ? & H)]; [left; exists pp|right; exists nv];
    eauto 10 using sentBy_mono.
Qed.

Lemma justified_mono s s' v n d :
  cfg s = cfg s' -> suffix (out s) (out s') -> justified s v n d -> justified s' v n d.
Proof.
  intros C O [Ha (rs & Hnd & Hl & HF)]. split; [by eapply assigned_mono|].
  destruct (cfg_fields s s' C) as (EN & Ef & _ & Ei & Er & _).
  exists rs. split_and!; [done| |].
  - unfold intersectionQuorum in *. congruence.
  - eapply Forall_impl; [exact HF|]. cbn. unfold primary.
    rewrite <- EN, <- Er. intros r (? & ? & p & ? & ? & ? & ? & ?). split_and!; [lia|lia|done|].
    exists p. eauto 10 using sentBy_mono.
Qed.

Lemma certOK_mono s s' v n c :
  cfg s = cfg s' -> suffix (out s) (out s') -> view s <= view s' -> h_ s <= h_ s' ->
  certOK s v n c -> certOK s' v n c.
Proof.
  intros C O Hv Hh (? & ? & HP & ? & HC & ? & Hpp).
  destruct (cfg_fields s s' C) as (EN & _ & EL & Ei & Er & _).
  split_and!; [lia|lia|lia| |done| |done|].
  - eapply Forall_impl; [exact HP|]. unfold prepareOK, primary. rewrite EN, Er.
    intros p (? & ? & ? & ? & ?). eauto 10 using sentBy_mono.
  - eapply Forall_impl; [exact HC|]. unfold commitOK. rewrite EN.
    intros p (? & ? & ? & ?). eauto 10 using sentBy_mono.
  - intros pp Hp. destruct (Hpp pp Hp) as (? & ? & ?).
    unfold prePrepareOK. eauto using assigned_mono.
Qed.

Lemma boundedCset_mono b b' vc : b <= b' -> boundedCset b vc -> boundedCset b' vc.
Proof. intros Hb HF. eapply Forall_impl; [exact HF|]. cbn. unfold upTo. lia. Qed.

(** ** Calls into the consumer *)

Definition emitted (c : consumerCall) (s : pbftCore) : pbftCore := s <| out := c :: out s |>.

(** Calls the invariant says nothing about. *)
Definition quiet (c : consumerCall) : Prop :=
  match c with
  | call_broadcast (Message_Prepare _) | call_broadcast (Message_PrePrepare _)
  | call_broadcast (Message_NewView _) | call_broadcast (Message_Commit _) => False
  | _ => True
  end.

Lemma G_emitted c s : G (emitted c s) = G s + (L_ s + 1).
Proof. unfold G, emitted. cbn -[Z.pow Z.add Z.mul]. lia. Qed.

Lemma own_emitted c s m : own (emitted c s) m <-> c = call_broadcast m \/ own s m.
Proof. unfold own, emitted. cbn. rewrite elem_of_cons.
  split; (intros [?|?]; [left; congruence|by right]).
Qed.

Lemma suffix_emitted c s : suffix (out s) (out (emitted c s)).
Proof. by exists [c]. Qed.

(** What an emission does to the part of the invariant that is not about the
    replica's own messages. *)
Lemma sentBy_emitted c s j m : sentBy s j m -> sentBy (emitted c s) j m.
Proof. apply sentBy_mono; [done|apply suffix_emitted]. Qed.

Lemma certOK_emitted c s v n x : certOK s v n x -> certOK (emitted c s) v n x.
Proof. apply certOK_mono; try done. apply suffix_emitted. Qed.

Lemma justified_emitted c s v n d : justified s v n d -> justified (emitted c s) v n d.
Proof. apply justified_mono; [done|apply suffix_emitted]. Qed.

Lemma upTo_mono b b' x : b <= b' -> upTo b x -> upTo b' x.
Proof. unfold upTo. lia. Qed.

(** The fields of [inv] that hold after any emission, provided the replica's own
    messages still satisfy theirs. *)
Lemma inv_emit s c :
  inv s ->
  (forall p, c = call_broadcast (Message_Prepare p) ->
     p_ReplicaId p = id_ s /\ primary s (view s) <> id_ s /\ p_View p = view s
     /\ activeView s = true
     /\ (p_SequenceNumber p <= h_ s
         \/ prepareRecorded s (p_View p) (p_SequenceNumber p) (p_RequestDigest p))
     /\ forall p', own s (Message_Prepare p') -> p_View p' = p_View p ->
          p_SequenceNumber p' = p_SequenceNumber p -> p_RequestDigest p' = p_RequestDigest p) ->
  (forall pp, c = call_broadcast (Message_PrePrepare pp) ->
     pp_View pp = view s /\ activeView s = true /\ pp_SequenceNumber pp <= seqNo s
     /\ (forall pp', own s (Message_PrePrepare pp') -> pp_View pp' = pp_View pp ->
          pp_SequenceNumber pp' < pp_SequenceNumber pp)
     /\ (forall nv d, own s (Message_NewView nv) -> 0 < nv_View nv ->
          nv_View nv = pp_View pp -> nv_Xset nv !! pp_SequenceNumber pp <> Some d)) ->
  (forall nv, c = call_broadcast (Message_NewView nv) -> nv_View nv = 0) ->
  (forall x, c = call_broadcast (Message_Commit x) ->
     justified s (c_View x) (c_SequenceNumber x) (c_RequestDigest x)) ->
  inv (emitted c s).
Proof.
  intros [] HP HPP HNV HC.
  pose proof (G_emitted c s) as EG.
  assert (G s <= G (emitted c s)) as LG by (rewrite EG; lia).
  constructor; try assumption.
  - by eapply upTo_mono.
  - by eapply upTo_mono.
  - unfold upTo in *. rewrite EG. cbn. lia.
  - intros n i Hi. eapply upTo_mono; eauto.
  - intros x b Hx. eapply upTo_mono; eauto.
  - intros x b Hx. eapply upTo_mono; eauto.
  - intros v j vc Hvc. destruct (inv_viewChangeStore0 v j vc Hvc).
    split; [by eapply upTo_mono|by eapply boundedCset_mono].
  - intros v nv Hnv. destruct (inv_newViewStore0 v nv Hnv) as (? & ? & HF).
    split_and!; [done|by apply sentBy_emitted|].
    eapply Forall_impl; [exact HF|]. intros. by eapply boundedCset_mono.
  - intros v n x Hx. apply certOK_emitted. by apply inv_certStore0.
  - intros p [->|Hp]%own_emitted; [|by apply inv_prep_view0].
    destruct (HP p eq_refl) as (? & Hpr & Hv & _). rewrite Hv. cbn. split_and!; [done|done|lia].
  - intros p [->|Hp]%own_emitted; [|by apply inv_prep_current0].
    destruct (HP p eq_refl) as (? & ? & ? & ? & ? & _). by intros _.
  - intros p p' [->|Hp]%own_emitted [E|Hp']%own_emitted Ev En; simplify_eq; [done|..].
    + destruct (HP p eq_refl) as (_ & _ & _ & _ & _ & Hu). symmetry. by apply Hu.
    + destruct (HP p' eq_refl) as (_ & _ & _ & _ & _ & Hu). by apply Hu.
    + by apply inv_prep_unique0.
  - intros pp [->|Hp]%own_emitted; [|by apply inv_pp_view0].
    destruct (HPP pp eq_refl) as (? & ? & ? & _). cbn. split; [lia|done].
  - intros p p' [->|Hp]%own_emitted [E|Hp']%own_emitted Ev En; simplify_eq; [done|..].
    + destruct (HPP p eq_refl) as (_ & _ & _ & Hu & _). specialize (Hu p' Hp'). lia.
    + destruct (HPP p' eq_refl) as (_ & _ & _ & Hu & _). specialize (Hu p Hp). lia.
    + by apply inv_pp_unique0.
  - intros nv [->|Hp]%own_emitted; [|by apply inv_nv_view0].
    intros Hpos. specialize (HNV nv eq_refl). lia.
  - intros nv nv' [->|Hp]%own_emitted [E|Hp']%own_emitted Hpos Ev; simplify_eq; [done|..].
    + specialize (HNV nv eq_refl). lia.
    + specialize (HNV nv' eq_refl). lia.
    + by apply inv_nv_unique0.
  - intros nv pp d [->|Hp]%own_emitted [E|Hp']%own_emitted Hpos Ev Hd; simplify_eq.
    + specialize (HNV nv eq_refl). lia.
    + destruct (HPP pp eq_refl) as (_ & _ & _ & _ & Hu). by destruct (Hu nv d Hp Hpos Ev).
    + by eapply inv_nv_pp0.
  - intros x [->|Hx]%own_emitted; apply justified_emitted; auto.
Qed.

Lemma inv_emit_quiet s c : quiet c -> inv s -> inv (emitted c s).
Proof.
  intros Hq HI. apply inv_emit; [done|..]; intros ? ->; done.
Qed.

(** ** Assignments *)

Lemma inv_lastExec_set s n :
  0 <= n <= h_ s + L_ s -> inv s -> inv (s <| lastExec := n |>).
Proof. intros Hn []; constructor; assumption. Qed.

Lemma inv_seqNo_set s n :
  seqNo s <= n <= G s + L_ s -> inv s -> inv (s <| seqNo := n |>).
Proof.
  intros Hn []; constructor; try assumption.
  - unfold upTo in *. cbn. change (G (s <| seqNo := n |>)) with (G s). lia.
  - intros pp Hpp. destruct (inv_pp_view0 pp Hpp) as [? Hc]. split; [done|].
    intros E. destruct (Hc E). cbn. split; [done|lia].
  - intros nv Hnv Hpos. destruct (inv_nv_view0 nv Hnv Hpos) as [? Hc]. split; [done|].
    intros E. destruct (Hc E) as [? Hx]. split; [done|]. cbn. intros Ha m d Hd.
    specialize (Hx Ha m d Hd). lia.
Qed.

Lemma inv_hChkpts_set s m :
  (forall j n, m !! j = Some n -> upTo (G s) n) -> inv s -> inv (s <| hChkpts := m |>).
Proof. intros Hm []; constructor; assumption. Qed.

Lemma inv_checkpointStore_set s m :
  (forall c b, m !! c = Some b -> upTo (G s) (ck_SequenceNumber c)) ->
  inv s -> inv (s <| checkpointStore := m |>).
Proof. intros Hm []; constructor; assumption. Qed.

Lemma inv_chkpts_set s m :
  (forall n i, m !! n = Some i -> upTo (G s) n) -> inv s -> inv (s <| chkpts := m |>).
Proof. intros Hm []; constructor; assumption. Qed.

Lemma inv_schedule_set s l :
  Forall (Forall (lockEventOK s)) l -> inv s -> inv (s <| schedule := l |>).
Proof. intros Hm []; constructor; assumption. Qed.

Lemma inv_viewChangeStore_set s v j vc :
  upTo (G s) v -> boundedCset (G s) vc -> inv s ->
  inv (s <| viewChangeStore := <[(v, j) := vc]> (viewChangeStore s) |>).
Proof.
  intros Hv Hc []; constructor; try assumption.
  cbn. intros v' j' vc' [[[= <- <-] <-]|[_ H]]%lookup_insert_Some; [done|].
  by apply inv_viewChangeStore0 in H.
Qed.

(** A certificate of the current view is replaced. *)
Lemma inv_setCert s n c :
  certOK s (view s) n c ->
  (forall p, own s (Message_Prepare p) -> p_View p = view s -> p_SequenceNumber p = n ->
     n <= h_ s \/ (sentPrepare c = true /\
       exists pp, prePrepare c = Some pp /\ pp_RequestDigest pp = p_RequestDigest p)) ->
  inv s -> inv (s <| certStore := <[(view s, n) := c]> (certStore s) |>).
Proof.
  intros Hc Hp []; constructor; try assumption.
  - cbn. intros v' n' c' [[[= <- <-] <-]|[_ H]]%lookup_insert_Some; [done|].
    by apply inv_certStore0 in H.
  - intros p Hown Hv. cbn in Hv. destruct (inv_prep_current0 p Hown Hv) as [Ha Hr].
    split; [done|]. destruct Hr as [|(c' & pp & E & Hs & Hpp & Hd)]; [by left|].
    unfold prepareRecorded. cbn. rewrite Hv in *.
    destruct (decide (p_SequenceNumber p = n)) as [En|En].
    + destruct (Hp p Hown Hv En) as [Hle|(? & pp' & ? & ?)]; [left; lia|right].
      exists c, pp'. rewrite En, lookup_insert_eq. eauto.
    + right. exists c', pp. rewrite lookup_insert_ne by congruence. eauto.
Qed.

(** ** Raising the low watermark *)

Definition watermarked (hh : Z) (s : pbftCore) : pbftCore :=
  let s := s <| reqStore := cleanReqStore s hh |> in
  let s := s <| certStore := filter (fun '((_, n, _) : msgID * msgCert) => ~ n <= hh) (certStore s) |> in
  let s := s <| checkpointStore :=
    filter (fun '((c, _) : Checkpoint * bool) => ~ ck_SequenceNumber c <= hh)
      (checkpointStore s) |> in
  let s := s <| pset := filter (fun '((n, _) : Z * ViewChange_PQ) => ~ n <= hh) (pset s) |> in
  let s := s <| qset := filter (fun '((_, n, _) : qidx * ViewChange_PQ) => ~ n <= hh) (qset s) |> in
  let s := s <| chkpts := filter (fun '((n, _) : Z * string) => ~ n < hh) (chkpts s) |> in
  s <| h_ := hh |>.

Lemma inv_watermarked s hh : h_ s <= hh <= G s -> inv s -> inv (watermarked hh s).
Proof.
  intros Hh []; constructor; try assumption; cbn.
  - unfold upTo in *. change (G (watermarked hh s)) with (G s). lia.
  - lia.
  - intros n i [H _]%map_lookup_filter_Some. by apply inv_chkpts0 in H.
  - intros c b [H _]%map_lookup_filter_Some. by apply inv_checkpointStore0 in H.
  - intros v n c [H _]%map_lookup_filter_Some. apply inv_certStore0 in H.
    eapply certOK_mono; [..|exact H]; cbn; done || lia.
  - intros n p [H _]%map_lookup_filter_Some. by apply inv_pset0 in H.
  - intros k q [H _]%map_lookup_filter_Some. by apply inv_qset0 in H.
  - intros p Hown Hv. destruct (inv_prep_current0 p Hown Hv) as [Ha Hr]. split; [done|].
    destruct (decide (p_SequenceNumber p <= hh)) as [|Hgt]; [by left|].
    destruct Hr as [|(c & pp & E & ?)]; [lia|right].
    exists c, pp. cbn. rewrite map_lookup_filter_Some. auto.
Qed.

(** ** New views *)

Lemma inv_newViewStore_set s nv :
  newViewStore s !! nv_View nv = None ->
  sentBy s (primary s (nv_View nv)) (Message_NewView nv) ->
  Forall (boundedCset (G s)) (nv_Vset nv) ->
  inv s -> inv (s <| newViewStore := <[nv_View nv := nv]> (newViewStore s) |>).
Proof.
  intros Hn Hs Hb []; constructor; try assumption; cbn.
  - intros v nv' [[<- <-]|[_ H]]%lookup_insert_Some; [done|].
    by apply inv_newViewStore0 in H.
  - intros Ha Hpos. apply lookup_insert_is_Some'. auto.
  - intros nv' Hown Hpos. destruct (inv_nv_view0 nv' Hown Hpos) as [? Hc].
    split; [done|]. intros E. destruct (Hc E) as [Hl Hx].
    split; [|done]. rewrite lookup_insert_ne; [done|]. intros E'. congruence.
Qed.

(** The new primary has broadcast [nv] and keeps it. *)
Lemma inv_newView_sent s nv :
  nv_View nv = view s -> primary s (view s) = id_ s -> newViewStore s !! view s = None ->
  Forall (boundedCset (G s)) (nv_Vset nv) -> inv s ->
  inv (emitted (call_broadcast (Message_NewView nv)) s
         <| newViewStore := <[view s := nv]> (newViewStore s) |>).
Proof.
  intros Hv Hpr Hn Hb HI.
  destruct (decide (view s = 0)) as [Hz|Hz].
  - rewrite <- Hv. apply (inv_newViewStore_set (emitted _ s) nv); cbn; rewrite ?Hv; try done.
    + unfold sentBy, primary in *. cbn. rewrite Hpr, decide_True by done. by left.
    + eapply Forall_impl; [exact Hb|]. intros. eapply boundedCset_mono; [|done].
      rewrite G_emitted. destruct HI. lia.
    + apply inv_emit; [done|..]; intros ? [=]. congruence.
  - assert (activeView s = false) as Hina.
    { destruct (activeView s) eqn:Ea; [|done].
      pose proof (inv_view s HI) as [? _].
      destruct (inv_active s HI Ea) as [? ?]; [lia|congruence]. }
    assert (forall nv', own s (Message_NewView nv') -> 0 < nv_View nv' -> nv_View nv' <> view s)
      as Hfresh.
    { intros nv' Hown Hpos E. destruct (inv_nv_view s HI nv' Hown Hpos) as [_ Hc].
      destruct (Hc E). congruence. }
    pose proof (inv_emit_quiet s (call_viewChange 0) I HI) as HI'.
    pose proof (G_emitted (call_viewChange 0) s) as EG.
    pose proof (inv_cfg s HI) as (HL & _).
    destruct HI'; constructor; try assumption; cbn -[G].
    + intros v nv' [[<- <-]|[_ H]]%lookup_insert_Some.
      * split_and!; [done| |].
        -- unfold sentBy, primary in *. cbn. rewrite Hpr, decide_True by done. by left.
        -- eapply Forall_impl; [exact Hb|]. intros. eapply boundedCset_mono; [|done].
           change (G s <= G (emitted (call_viewChange 0) s)). lia.
      * destruct (inv_newViewStore0 v nv' H) as (? & Hs & ?). split_and!; [done| |done].
        revert Hs. unfold sentBy, primary. cbn. case_decide; [|done].
        intros [?|?]%elem_of_cons; [done|by right].
    + intros v n c H. apply (certOK_emitted (call_broadcast (Message_NewView nv)) s).
      by apply (inv_certStore s HI).
    + congruence.
    + intros p [E|Hp]%elem_of_cons; [done|]. apply inv_prep_view0. by right.
    + intros p [E|Hp]%elem_of_cons; [done|]. apply inv_prep_current0. by right.
    + intros p p' [E|Hp]%elem_of_cons [E'|Hp']%elem_of_cons; [done..|].
      apply inv_prep_unique0; by right.
    + intros p [E|Hp]%elem_of_cons; [done|]. apply inv_pp_view0. by right.
    + intros p p' [E|Hp]%elem_of_cons [E'|Hp']%elem_of_cons; [done..|].
      apply inv_pp_unique0; by right.
    + intros nv' [E|Hp]%elem_of_cons Hpos.
      * simplify_eq. rewrite Hv. split; [lia|]. intros _.
        rewrite lookup_insert_eq. split; [done|]. congruence.
      * destruct (inv_nv_view s HI nv' Hp Hpos) as [? _]. split; [done|].
        intros E. by destruct (Hfresh nv' Hp Hpos).
    + intros nv1 nv2 [E1|H1]%elem_of_cons [E2|H2]%elem_of_cons Hpos E; simplify_eq; [done|..].
      * destruct (Hfresh nv2 H2); congruence.
      * destruct (Hfresh nv1 H1); congruence.
      * apply inv_nv_unique0; [by right|by right|done|done].
    + intros nv' pp d [E1|H1]%elem_of_cons [E2|H2]%elem_of_cons Hpos E Hd; simplify_eq.
      * destruct (inv_pp_view s HI pp H2) as [_ Hc]. destruct Hc; congruence.
      * eapply inv_nv_pp0; [by right|by right|done|done|done].
    + intros c [E|Hc]%elem_of_cons; [done|].
      apply (justified_emitted (call_broadcast (Message_NewView nv)) s).
      by apply (inv_commit s HI).
Qed.

Lemma inv_newViewStore_delete s v :
  v <> view s -> inv s -> inv (s <| newViewStore := delete v (newViewStore s) |>).
Proof.
  intros Hv []; constructor; try assumption; cbn.
  - intros v' nv [_ H]%lookup_delete_Some. by apply inv_newViewStore0.
  - intros. rewrite lookup_delete_ne by done. auto.
  - intros nv Hown Hpos. destruct (inv_nv_view0 nv Hown Hpos) as [? Hc]. split; [done|].
    by rewrite lookup_delete_ne.
Qed.

(** A view becomes active once its sequence numbers are accounted for. *)
Lemma inv_activate s nv :
  newViewStore s !! view s = Some nv ->
  (forall n d, nv_Xset nv !! n = Some d -> n <= seqNo s) ->
  inv (s <| activeView := false |>) -> inv (s <| activeView := true |>).
Proof.
  intros Hnv Hx []; constructor; try assumption; cbn in *.
  - done.
  - eauto.
  - intros p Hown Hv. by destruct (inv_prep_current0 p Hown Hv).
  - intros pp Hown. destruct (inv_pp_view0 pp Hown) as [? Hc]. split; [done|].
    intros E. by destruct (Hc E).
  - intros nv' Hown Hpos. destruct (inv_nv_view0 nv' Hown Hpos) as [? Hc]. split; [done|].
    intros E. destruct (Hc E) as [Hl _]. split; [done|]. intros _.
    assert (nv' = nv) as -> by congruence. exact Hx.
Qed.

(** The replica leaves for view [w + 1] and broadcasts its view-change. *)
Lemma inv_leaveView s s' w m :
  view s <= w <= G s -> quiet (call_broadcast m) ->
  cfg s = cfg s' -> h_ s = h_ s' -> view s' = w + 1 -> seqNo s = seqNo s' ->
  lastExec s = lastExec s' -> chkpts s = chkpts s' ->
  checkpointStore s = checkpointStore s' -> hChkpts s = hChkpts s' ->
  (forall k vc, viewChangeStore s' !! k = Some vc -> viewChangeStore s !! k = Some vc) ->
  newViewStore s' = delete w (newViewStore s) ->
  (forall k c, certStore s' !! k = Some c -> certStore s !! k = Some c) ->
  (forall n p, pset s' !! n = Some p -> pq_View p < view s') ->
  (forall k q, qset s' !! k = Some q -> pq_View q < view s') ->
  activeView s' = false -> out s' = call_broadcast m :: out s -> schedule s = schedule s' ->
  inv s -> inv s'.
Proof.
  intros Hw Hq C Eh Ev Es Ee Ec Eck Ehc Hvc Hnv Hcs Hps Hqs Ha Ho Esch HI.
  pose proof (inv_emit_quiet s _ Hq HI) as HI'. clear HI.
  set (s1 := emitted (call_broadcast m) s) in *.
  assert (G s1 = G s + (L_ s + 1)) as EG by apply G_emitted.
  destruct (cfg_fields s' s (eq_sym C)) as (EN & Ef & EL & Ei & Er & Eb & _).
  assert (out s' = out s1) as Eo by done.
  assert (G s' = G s1) as EG' by (unfold G; by rewrite Eo, EL).
  assert (forall x, own s' x <-> own s1 x) as Eown by (unfold own; by rewrite Eo).
  assert (suffix (out s1) (out s')) as Hsuf by (by rewrite Eo).
  assert (cfg s1 = cfg s') as C1 by done.
  assert (view s1 < view s') as Hlt by (cbn; lia).
  destruct HI'.
  constructor; rewrite ?EG', ?EL, ?EN, ?Ef, ?Er, ?Ei, ?Eb, <- ?Eh, <- ?Es, <- ?Ee, <- ?Ec,
    <- ?Eck, <- ?Ehc, <- ?Esch; try assumption.
  - unfold upTo in *. cbn in *. lia.
  - intros v j vc H%Hvc. by apply inv_viewChangeStore0 in H.
  - rewrite Hnv. intros v nv [_ H]%lookup_delete_Some.
    destruct (inv_newViewStore0 v nv H) as (? & ? & ?).
    split_and!; [done| |done]. unfold primary. rewrite Er.
    eapply sentBy_mono; [|exact Hsuf|done]. by rewrite Ei.
  - intros v n c H%Hcs. apply inv_certStore0 in H.
    eapply certOK_mono; [..|exact H]; [done|done|lia|by rewrite <- Eh].
  - unfold upTo in *. cbn in *. lia.
  - congruence.
  - intros p Hp%Eown. destruct (inv_prep_view0 p Hp) as (? & Hpr & ?).
    unfold primary in *. rewrite Er. split_and!; [done|done|lia].
  - intros p Hp%Eown E. destruct (inv_prep_view0 p Hp) as (_ & _ & ?). lia.
  - intros p p' ?%Eown ?%Eown. by apply inv_prep_unique0.
  - intros p Hp%Eown. destruct (inv_pp_view0 p Hp). lia.
  - intros p p' ?%Eown ?%Eown. by apply inv_pp_unique0.
  - intros nv Hp%Eown Hpos. destruct (inv_nv_view0 nv Hp Hpos). lia.
  - intros nv nv' ?%Eown ?%Eown. by apply inv_nv_unique0.
  - intros nv pp d ?%Eown ?%Eown. by apply inv_nv_pp0.
  - intros c Hc%Eown. apply inv_commit0 in Hc. by eapply justified_mono.
  - eapply Forall_impl; [exact inv_schedule0|]. intros es Hes.
    eapply Forall_impl; [exact Hes|]. intros []; cbn; rewrite ?EN, ?Ei; done.
Qed.

End account.
