(* ===== verification/PbftSelect.v ===== *)
(** The pure part of the view change: which checkpoint and which requests a new
    view starts from ([selectInitialCheckpoint] and [assignSequenceNumbers] of
    viewchange.go). *)
From stdpp Require Import base gmap sets list strings.
From Stdlib Require Import ZArith Lia.
From S2P Require Import Prelude GoStd PbftTypes PbftCore.

(** * The initial checkpoint *)

(** How often a view-change message claims a checkpoint. *)
Definition claims (c : ViewChange_C) (vc : ViewChange) : nat :=
  count_occ (fun x y => decide (x = y)) (vc_Cset vc) c.

Lemma gatherOne_lookup vc cs (acc : gmap ViewChange_C (list ViewChange)) c :
  foldl (fun acc c => <[c := default [] (acc !! c) ++ [vc]]> acc) acc cs !! c
  = match count_occ (fun x y => decide (x = y)) cs c with
    | O => acc !! c
    | S k => Some (default [] (acc !! c) ++ replicate (S k) vc)
    end.
Proof.
  revert acc. induction cs as [|c' cs IH]; intros acc; [done|].
  cbn [foldl count_occ]. rewrite IH. destruct (decide (c' = c)) as [->|Hc].
  - rewrite lookup_insert_eq. destruct (count_occ _ cs c) as [|k]; [done|].
    cbn. by rewrite <- app_assoc.
  - by rewrite lookup_insert_ne.
Qed.

Lemma gather_lookup_gen vset (acc : gmap ViewChange_C (list ViewChange)) c :
  default [] (foldl (fun acc vc =>
      foldl (fun acc c => <[c := default [] (acc !! c) ++ [vc]]> acc) acc (vc_Cset vc))
    acc vset !! c)
  = default [] (acc !! c) ++ (vc ← vset; replicate (claims c vc) vc).
Proof.
  revert acc. induction vset as [|vc vset IH]; intros acc; cbn [foldl].
  - by rewrite app_nil_r.
  - rewrite IH, gatherOne_lookup. unfold claims at 2. cbn.
    fold (claims c vc). unfold claims. destruct (count_occ _ _ _) as [|k]; [done|].
    cbn. by rewrite <- app_assoc.
Qed.

(** The messages gathered for a checkpoint are those that claim it, each as
    often as it does. *)
Lemma gather_lookup vset c :
  default [] (gatherCheckpoints vset !! c) = (vc ← vset; replicate (claims c vc) vc).
Proof. apply gather_lookup_gen. Qed.

Lemma gather_claimed vset c vcs vc :
  gatherCheckpoints vset !! c = Some vcs -> vc ∈ vcs -> vc ∈ vset /\ c ∈ vc_Cset vc.
Proof.
  intros E Hin. pose proof (gather_lookup vset c) as H. rewrite E in H. cbn in H. subst vcs.
  apply list_elem_of_bind in Hin as (vc' & Hr & Hv). apply elem_of_replicate in Hr as [-> Hn].
  split; [done|]. apply list_elem_of_In. eapply count_occ_In.
  unfold claims in Hn. destruct (count_occ _ _ _) eqn:E'; [done|]. rewrite E'. lia.
Qed.

(** A checkpoint that the loop of [selectInitialCheckpoint] may select: claimed
    more than [f] times, and a quorum of the claims comes from replicas whose
    low watermark is not above it. *)
Definition eligible (s : pbftCore) (entry : ViewChange_C * list ViewChange) : bool :=
  negb (Z.of_nat (length (snd entry)) <=? f_ s)
  && negb (countb (fun vc => vc_H vc <=? vcC_SequenceNumber (fst entry)) (snd entry)
             <? intersectionQuorum s).

Lemma selectStep_eligible s cp ok rs e :
  selectStep s (cp, ok, rs) e =
  if eligible s e then
    if vcC_SequenceNumber cp <=? vcC_SequenceNumber (fst e)
    then (fst e, true, vc_ReplicaId <$> snd e)
    else (cp, ok, vc_ReplicaId <$> snd e)
  else (cp, ok, rs).
Proof.
  destruct e as [idx vcs]. unfold selectStep, eligible. cbn [fst snd].
  destruct (_ <=? f_ s); [done|]. by destruct (_ <? intersectionQuorum s).
Qed.

(** What the loop returns: the eligible checkpoint with the highest sequence
    number; nothing when there is none. *)
Definition selected (s : pbftCore) (entries : list (ViewChange_C * list ViewChange))
    (cp : ViewChange_C) (ok : bool) : Prop :=
  if ok then
    (exists vcs, (cp, vcs) ∈ entries /\ eligible s (cp, vcs) = true) /\
    (forall e, e ∈ entries -> eligible s e = true ->
       vcC_SequenceNumber (fst e) <= vcC_SequenceNumber cp)
  else vcC_SequenceNumber cp = 0 /\ forall e, e ∈ entries -> eligible s e = false.

Lemma selectStep_selected s l e cp ok rs :
  0 <= vcC_SequenceNumber (fst e) -> selected s l cp ok ->
  let '(cp', ok', _) := selectStep s (cp, ok, rs) e in selected s (l ++ [e]) cp' ok'.
Proof.
  intros He Hsel. rewrite selectStep_eligible.
  destruct (eligible s e) eqn:Ee.
  - destruct (Z.leb_spec (vcC_SequenceNumber cp) (vcC_SequenceNumber (fst e))) as [Hle|Hlt].
    + split.
      * exists (snd e). rewrite elem_of_app, <- surjective_pairing, list_elem_of_singleton. auto.
      * intros e' [Hin|Hin%list_elem_of_singleton]%elem_of_app Hel; [|by subst].
        destruct ok; destruct Hsel as [_ Hall]; [specialize (Hall e' Hin Hel); lia|].
        by rewrite Hall in Hel.
    + destruct ok; destruct Hsel as [Hc Hall]; [|lia]. split.
      * destruct Hc as (vcs & Hin & ?). exists vcs. rewrite elem_of_app. auto.
      * intros e' [Hin|Hin%list_elem_of_singleton]%elem_of_app Hel; [auto|subst; lia].
  - destruct ok; destruct Hsel as [Hc Hall]; split.
    + destruct Hc as (vcs & Hin & ?). exists vcs. rewrite elem_of_app. auto.
    + intros e' [Hin|Hin%list_elem_of_singleton]%elem_of_app Hel; [auto|congruence].
    + done.
    + intros e' [Hin|Hin%list_elem_of_singleton]%elem_of_app; [auto|by subst].
Qed.

Lemma foldl_selectStep_selected s l2 l1 cp ok rs :
  Forall (fun e => 0 <= vcC_SequenceNumber (fst e)) l2 -> selected s l1 cp ok ->
  let '(cp', ok', _) := foldl (selectStep s) (cp, ok, rs) l2 in selected s (l1 ++ l2) cp' ok'.
Proof.
  revert l1 cp ok rs. induction l2 as [|e l2 IH]; intros l1 cp ok rs Hl Hsel; cbn [foldl].
  - by rewrite app_nil_r.
  - apply Forall_cons in Hl as [He Hl].
    pose proof (selectStep_selected s l1 e cp ok rs He Hsel) as Hstep.
    destruct (selectStep s (cp, ok, rs) e) as [[cp' ok'] rs'].
    specialize (IH (l1 ++ [e]) cp' ok' rs' Hl Hstep). by rewrite <- app_assoc in IH.
Qed.

(** The checkpoints a list of view-change messages claims have non-negative
    sequence numbers, as uint64 values do. *)
Definition nonnegClaims (vset : list ViewChange) : Prop :=
  forall vc c, vc ∈ vset -> c ∈ vc_Cset vc -> 0 <= vcC_SequenceNumber c.

Lemma gather_nonempty vset c vcs :
  gatherCheckpoints vset !! c = Some vcs -> vcs <> [].
Proof.
  assert (forall vset (acc : gmap ViewChange_C (list ViewChange)),
    (forall c vcs, acc !! c = Some vcs -> vcs <> []) ->
    forall c vcs, foldl (fun acc vc =>
      foldl (fun acc c => <[c := default [] (acc !! c) ++ [vc]]> acc) acc (vc_Cset vc))
      acc vset !! c = Some vcs -> vcs <> []) as H.
  { clear. induction vset as [|vc vset IH]; intros acc Hacc c vcs; [apply Hacc|].
    cbn [foldl]. apply IH. clear c vcs. intros c vcs. rewrite gatherOne_lookup.
    destruct (count_occ _ _ _); [apply Hacc|]. intros [= <-] [_ ?]%app_eq_nil. done. }
  apply H. done.
Qed.

Lemma selectInitialCheckpoint_run env s vset :
  nonnegClaims vset ->
  exists cp ok rs, selectInitialCheckpoint env vset s = Done (cp, ok, rs) (s <| ticks := S (ticks s) |>)
    /\ selected s (map_to_list (gatherCheckpoints vset)) cp ok.
Proof.
  intros Hpos. unfold selectInitialCheckpoint.
  set (l := ord (order env) (ticks s) (gatherCheckpoints vset)).
  set (s1 := s <| ticks := S (ticks s) |>).
  pose proof (foldl_selectStep_selected s1 l [] (mkViewChange_C 0 "") false []) as H.
  destruct (foldl (selectStep s1) (mkViewChange_C 0 "", false, []) l) as [[cp ok] rs] eqn:E.
  exists cp, ok, rs. split.
  { cbv [mbind M_bind range tick modify get gets mret M_ret]. fold s1. fold l. by rewrite E. }
  assert (forall e, e ∈ l <-> e ∈ map_to_list (gatherCheckpoints vset)) as Hl.
  { intros e. unfold l. by rewrite (ord_perm (order env)). }
  assert (selected s l cp ok) as Hsel.
  { apply H; [|split; [done|]; intros ? []%not_elem_of_nil].
    apply Forall_forall. intros [c vcs] Hin%Hl%elem_of_map_to_list. cbn.
    pose proof (gather_nonempty _ _ _ Hin). destruct vcs as [|vc vcs]; [done|].
    destruct (gather_claimed _ _ _ vc Hin) as [? ?]; [by left|]. by eapply Hpos. }
  clear -Hsel Hl. unfold selected in *. destruct ok.
  - destruct Hsel as [(vcs & ? & ?) ?]. split; [exists vcs; by rewrite <- Hl|].
    intros e. rewrite <- Hl. auto.
  - destruct Hsel as [? ?]. split; [done|]. intros e. rewrite <- Hl. auto.
Qed.

(** * The sequence numbers of the new view *)

Definition digestOf (a : assignment) : option string :=
  match a with
  | assignDigest d => Some d
  | assignNull => Some ""
  | assignFail => None
  end.

Definition isDigest (a : assignment) : bool :=
  match a with assignDigest _ => true | _ => false end.

(** The loop from [n] on, when [hi + 1] does not wrap: it decides every number up
    to [hi], or stops because one of them cannot be decided. *)
Definition loopDone (s : pbftCore) (vset : list ViewChange) (hi n maxN : Z)
    (m : gmap Z string) (r : option (Z * gmap Z string)) : Prop :=
  match r with
  | None => exists k, n <= k <= hi /\ assignOne s vset k = assignFail
  | Some (maxN', m') =>
      (forall k, n <= k <= hi -> is_Some (digestOf (assignOne s vset k)))
      /\ (forall k, m' !! k = if decide (n <= k <= hi) then digestOf (assignOne s vset k) else m !! k)
      /\ (maxN' = maxN \/ n <= maxN' <= hi) /\ maxN <= maxN'
      /\ (forall k, n <= k <= hi -> isDigest (assignOne s vset k) = true -> k <= maxN')
  end.

Lemma loopDone_step s vset hi n maxN maxN1 m d r :
  n <= hi -> maxN <= n -> digestOf (assignOne s vset n) = Some d ->
  maxN1 = (if isDigest (assignOne s vset n) then n else maxN) ->
  loopDone s vset hi (n + 1) maxN1 (<[n := d]> m) r -> loopDone s vset hi n maxN m r.
Proof.
  intros Hn Hmax Hd EmaxN. destruct r as [[maxN' m']|]; cbn.
  - intros (Hall & Hlk & Hmx & Hle & Hdig). split_and!.
    + intros k Hk. destruct (decide (k = n)) as [->|]; [by rewrite Hd|]. apply Hall. lia.
    + intros k. rewrite Hlk. destruct (decide (k = n)) as [->|Hkn].
      * rewrite decide_False by lia. by rewrite decide_True, lookup_insert_eq by lia.
      * rewrite lookup_insert_ne by done. do 2 case_decide; done || lia.
    + destruct (isDigest _); subst maxN1; [|destruct Hmx; [by left|right; lia]].
      right. destruct Hmx; lia.
    + destruct (isDigest _); lia.
    + intros k Hk Hdg. destruct (decide (k = n)) as [->|]; [rewrite Hdg in EmaxN; lia|].
      apply Hdig; [lia|done].
  - intros (k & Hk & ?). exists k. split; [lia|done].
Qed.

Lemma assignLoop_spec s vset fuel hi n maxN m :
  0 <= n -> hi + 1 < two64 -> maxN <= n -> (Z.to_nat (hi - n + 1) <= fuel)%nat ->
  exists r, assignLoop s vset fuel hi n maxN m = Some r /\ loopDone s vset hi n maxN m r.
Proof.
  revert n maxN m. induction fuel as [|fuel IH]; intros n maxN m Hn Hhi Hmax Hf;
    cbn [assignLoop]; destruct (Z.leb_spec n hi) as [Hle|Hgt].
  - lia.
  - exists (Some (maxN, m)). split; [done|]. split_and!; try lia.
    intros k. by rewrite decide_False by lia.
  - rewrite u64_small by (unfold is_u64; lia).
    destruct (assignOne s vset n) as [d| |] eqn:E.
    + destruct (IH (n + 1) n (<[n := d]> m)) as (r & -> & Hr); try lia.
      exists r. split; [done|]. eapply loopDone_step; [..|exact Hr]; try done; by rewrite E.
    + destruct (IH (n + 1) maxN (<[n := ""]> m)) as (r & -> & Hr); try lia.
      exists r. split; [done|]. eapply loopDone_step; [..|exact Hr]; try done; by rewrite E.
    + exists None. split; [done|]. exists n. split; [lia|done].
  - exists (Some (maxN, m)). split; [done|]. split_and!; try lia.
    intros k. by rewrite decide_False by lia.
Qed.

(** What [assignSequenceNumbers] returns from checkpoint [hh] when the window
    does not wrap. *)
Lemma assignSequenceNumbers_cases s vset hh :
  0 <= hh -> 0 <= L_ s -> hh + L_ s + 1 < two64 ->
  match assignSequenceNumbers s vset hh with
  | None => False
  | Some None => exists k, hh < k <= hh + L_ s /\ assignOne s vset k = assignFail
  | Some (Some m) => exists top, hh <= top <= hh + L_ s
      /\ (0 < L_ s -> hh < top)
      /\ (forall n, is_Some (m !! n) <-> hh < n <= top)
      /\ (forall n d, m !! n = Some d -> digestOf (assignOne s vset n) = Some d)
      /\ (forall n d, hh < n <= hh + L_ s -> assignOne s vset n = assignDigest d ->
            m !! n = Some d)
  end.
Proof.
  intros Hh HL Hw. unfold assignSequenceNumbers.
  rewrite !u64_small by (unfold is_u64; lia).
  destruct (assignLoop_spec s vset (Z.to_nat (L_ s)) (hh + L_ s) (hh + 1) (hh + 1) ∅)
    as (r & -> & Hr); try lia.
  cbn [mbind option_bind]. destruct r as [[maxN m]|]; cbn in Hr.
  2:{ destruct Hr as (k & ? & ?). exists k. split; [lia|done]. }
  destruct Hr as (Hall & Hlk & Hmx & Hle & Hdig).
  assert (forall n, ~ (hh + 1 <= n <= hh + L_ s) -> m !! n = None) as Hout.
  { intros n ?. by rewrite Hlk, decide_False. }
  assert (forall n d, hh < n <= hh + L_ s -> assignOne s vset n = assignDigest d ->
    filter (fun '((n, msg) : Z * string) => ~ (n > maxN /\ msg = "")) m !! n = Some d) as Hsel.
  { intros n d Hn E. apply map_lookup_filter_Some. rewrite Hlk, decide_True, E by lia.
    split; [done|]. specialize (Hdig n ltac:(lia)). rewrite E in Hdig.
    specialize (Hdig eq_refl). lia. }
  exists (Z.min maxN (hh + L_ s)). split_and!; try lia; try done.
  - intros n. split.
    + intros [d [E Hk]%map_lookup_filter_Some]. rewrite Hlk in E. case_decide as Hn; [|done].
      destruct (assignOne s vset n) as [d'| |] eqn:Ea; [|cbn in E; simplify_eq|done].
      * specialize (Hdig n Hn). rewrite Ea in Hdig. specialize (Hdig eq_refl). lia.
      * destruct (decide (n <= maxN)); [lia|]. destruct Hk. split; [lia|done].
    + intros Hn. destruct (Hall n ltac:(lia)) as [d Hd]. exists d.
      apply map_lookup_filter_Some. rewrite Hlk, decide_True by lia. split; [done|lia].
  - intros n d [E _]%map_lookup_filter_Some. rewrite Hlk in E. by case_decide.
Qed.
