(* ===== verification/PbftSym.v ===== *)
(** Reasoning about the handlers of the PBFT engine: they only add to the output,
    and rules that run a handler symbolically from a state. *)
From stdpp Require Import base gmap sets list strings.
From Stdlib Require Import ZArith Lia.
From S2P Require Import Prelude GoStd PbftTypes PbftCore PbftInv.

(** * The output grows, the configuration stays *)

Create HintDb r0.

Ltac r0_modify :=
  solve [ split; [reflexivity | first [reflexivity | apply suffix_cons_r; reflexivity]] ].

Ltac r0 :=
  repeat first [ guar_step | r0_modify | solve [eauto with r0] ].

Section R0.
Context (env : surroundings) (self : Message -> Z -> Mp result).
Context (self_R0 : forall m j, guar R0 (self m j)).
#[local] Hint Resolve self_R0 : r0.

Lemma emit_R0 c : guar R0 (emit c).
Proof. unfold emit. r0. Qed.
#[local] Hint Resolve emit_R0 : r0.
Lemma tick_R0 : guar R0 tick.
Proof. unfold tick. r0. Qed.
#[local] Hint Resolve tick_R0 : r0.
Lemma range_R0 `{Countable K} {B} (g : pbftCore -> gmap K B) : guar R0 (range env g).
Proof. unfold range. r0. Qed.
#[local] Hint Resolve range_R0 : r0.
Lemma getCert_R0 v n : guar R0 (getCert v n).
Proof. unfold getCert. r0. Qed.
Lemma updCert_R0 v n g : guar R0 (updCert v n g).
Proof. unfold updCert. r0. Qed.
Lemma startTimer_R0 t : guar R0 (startTimer t).
Proof. unfold startTimer. r0. Qed.
Lemma stopTimer_R0 : guar R0 stopTimer.
Proof. unfold stopTimer. r0. Qed.
#[local] Hint Resolve getCert_R0 updCert_R0 startTimer_R0 stopTimer_R0 : r0.

Lemma innerBroadcast_R0 m b : guar R0 (innerBroadcast env self m b).
Proof. unfold innerBroadcast. r0. Qed.
#[local] Hint Resolve innerBroadcast_R0 : r0.
Lemma maybeSendCommit_R0 d v n : guar R0 (maybeSendCommit env self d v n).
Proof. unfold maybeSendCommit. r0. Qed.
#[local] Hint Resolve maybeSendCommit_R0 : r0.
Lemma recvRequest_R0 r : guar R0 (recvRequest env self r).
Proof. unfold recvRequest. r0. Qed.
#[local] Hint Resolve recvRequest_R0 : r0.
Lemma resubmitRequests_R0 : guar R0 (resubmitRequests env self).
Proof. unfold resubmitRequests. r0. Qed.
#[local] Hint Resolve resubmitRequests_R0 : r0.
Lemma storePrePrepare_R0 p : guar R0 (storePrePrepare p).
Proof. unfold storePrePrepare. r0. Qed.
Lemma storeRequest_R0 p : guar R0 (storeRequest env p).
Proof. unfold storeRequest. r0. Qed.
Lemma sendPrepare_R0 p : guar R0 (sendPrepare env self p).
Proof. unfold sendPrepare. r0. Qed.
Lemma recvPrePrepare_R0 p : guar R0 (recvPrePrepare env self p).
Proof. unfold recvPrePrepare, storePrePrepare, storeRequest, sendPrepare. r0. Qed.
Lemma recvPrepare_R0 p : guar R0 (recvPrepare env self p).
Proof. unfold recvPrepare. r0. Qed.
Lemma takeCheckpoint_R0 n i : guar R0 (takeCheckpoint env self n i).
Proof. unfold takeCheckpoint. r0. Qed.
#[local] Hint Resolve recvPrePrepare_R0 recvPrepare_R0 takeCheckpoint_R0 : r0.
Lemma addPset_R0 e : guar R0 (addPset e).
Proof. destruct e as [[v n] c]. unfold addPset. r0. Qed.
Lemma addQset_R0 e : guar R0 (addQset e).
Proof. destruct e as [[v n] c]. unfold addQset. r0. Qed.
#[local] Hint Resolve addPset_R0 addQset_R0 : r0.
Lemma sendViewChange_R0 : guar R0 (sendViewChange env self).
Proof. unfold sendViewChange. r0. Qed.
#[local] Hint Resolve sendViewChange_R0 : r0.
Lemma timerHander_R0 : guar R0 (timerHander env self).
Proof. unfold timerHander. r0. Qed.
#[local] Hint Resolve timerHander_R0 : r0.
Lemma runLockEvent_R0 e : guar R0 (runLockEvent env self e).
Proof. unfold runLockEvent, timerExpired. r0. Qed.
#[local] Hint Resolve runLockEvent_R0 : r0.
Lemma executeUnlocked_R0 n tx i : guar R0 (executeUnlocked env self n tx i).
Proof. unfold executeUnlocked. r0. Qed.
#[local] Hint Resolve executeUnlocked_R0 : r0.
Lemma executeOne_R0 idx : guar R0 (executeOne env self idx).
Proof. unfold executeOne. r0. Qed.
#[local] Hint Resolve executeOne_R0 : r0.
Lemma executeFirst_R0 idxs : guar R0 (executeFirst env self idxs).
Proof. induction idxs; cbn [executeFirst]; r0. Qed.
#[local] Hint Resolve executeFirst_R0 : r0.
Lemma executeOutstanding_R0 fuel : guar R0 (executeOutstanding env self fuel).
Proof. induction fuel; cbn [executeOutstanding]; r0. Qed.
#[local] Hint Resolve executeOutstanding_R0 : r0.
Lemma recvCommit_R0 fuel c : guar R0 (recvCommit env self fuel c).
Proof. unfold recvCommit. r0. Qed.
Lemma moveWatermarks_R0 hh : guar R0 (moveWatermarks env self hh).
Proof. unfold moveWatermarks. r0. Qed.
#[local] Hint Resolve recvCommit_R0 moveWatermarks_R0 : r0.
Lemma weakCheckpointSetOutOfRange_R0 c : guar R0 (weakCheckpointSetOutOfRange env self c).
Proof. unfold weakCheckpointSetOutOfRange. r0. Qed.
Lemma witnessCheckpointWeakCert_R0 c : guar R0 (witnessCheckpointWeakCert env self c).
Proof. unfold witnessCheckpointWeakCert. r0. Qed.
#[local] Hint Resolve weakCheckpointSetOutOfRange_R0 witnessCheckpointWeakCert_R0 : r0.
Lemma getViewChanges_R0 : guar R0 (getViewChanges env).
Proof. unfold getViewChanges. r0. Qed.
Lemma selectInitialCheckpoint_R0 vset : guar R0 (selectInitialCheckpoint env vset).
Proof. unfold selectInitialCheckpoint. r0. Qed.
Lemma fetchRequests_R0 : guar R0 (fetchRequests env self).
Proof. unfold fetchRequests. r0. Qed.
Lemma processNewView2_R0 nv : guar R0 (processNewView2 env self nv).
Proof. unfold processNewView2. r0. Qed.
#[local] Hint Resolve getViewChanges_R0 selectInitialCheckpoint_R0 fetchRequests_R0
  processNewView2_R0 : r0.
Lemma processNewView_R0 : guar R0 (processNewView env self).
Proof. unfold processNewView. r0. Qed.
#[local] Hint Resolve processNewView_R0 : r0.
Lemma sendNewView_R0 : guar R0 (sendNewView env self).
Proof. unfold sendNewView. r0. Qed.
#[local] Hint Resolve sendNewView_R0 : r0.
Lemma recvViewChange_R0 vc : guar R0 (recvViewChange env self vc).
Proof. unfold recvViewChange. r0. Qed.
Lemma recvNewView_R0 nv : guar R0 (recvNewView env self nv).
Proof. unfold recvNewView. r0. Qed.
Lemma recvCheckpoint_R0 c : guar R0 (recvCheckpoint env self c).
Proof. unfold recvCheckpoint. r0. Qed.
Lemma recvFetchRequest_R0 fr : guar R0 (recvFetchRequest env fr).
Proof. unfold recvFetchRequest. r0. Qed.
Lemma recvReturnRequest_R0 r : guar R0 (recvReturnRequest env self r).
Proof. unfold recvReturnRequest. r0. Qed.
#[local] Hint Resolve recvViewChange_R0 recvNewView_R0 recvCheckpoint_R0 recvFetchRequest_R0
  recvReturnRequest_R0 : r0.
Lemma dispatch_R0 fuel m j : guar R0 (dispatch env self fuel m j).
Proof. unfold dispatch. r0. Qed.
End R0.

Lemma recvMsgSync_R0 env fuel m j : guar R0 (recvMsgSync env fuel m j).
Proof.
  revert m j. induction fuel as [|fuel IH]; intros m j; cbn [recvMsgSync].
  - apply guar_diverge.
  - by apply dispatch_R0.
Qed.

#[export] Hint Resolve emit_R0 tick_R0 range_R0 getCert_R0 updCert_R0 startTimer_R0
  stopTimer_R0 innerBroadcast_R0 maybeSendCommit_R0 recvRequest_R0 resubmitRequests_R0
  storePrePrepare_R0 storeRequest_R0 sendPrepare_R0
  recvPrePrepare_R0 recvPrepare_R0 takeCheckpoint_R0 addPset_R0 addQset_R0
  sendViewChange_R0 timerHander_R0 runLockEvent_R0 executeUnlocked_R0 executeOne_R0
  executeFirst_R0 executeOutstanding_R0 recvCommit_R0 moveWatermarks_R0
  weakCheckpointSetOutOfRange_R0 witnessCheckpointWeakCert_R0 getViewChanges_R0
  selectInitialCheckpoint_R0 fetchRequests_R0 processNewView2_R0 processNewView_R0
  sendNewView_R0 recvViewChange_R0 recvNewView_R0 recvCheckpoint_R0 recvFetchRequest_R0
  recvReturnRequest_R0 dispatch_R0 recvMsgSync_R0 : r0.

(** * Symbolic execution *)

Lemma wlps_ret {B} (a : B) (Q : B -> pbftCore -> Prop) s : Q a s -> wlps (mret a) Q s.
Proof. by intros ? ?. Qed.

Lemma wlps_modify g (Q : unit -> pbftCore -> Prop) s : Q tt (g s) -> wlps (modify g) Q s.
Proof. by intros ? ?. Qed.

Lemma wlps_assoc {B C D} (m : Mp B) (k : B -> Mp C) (l : C -> Mp D) Q s :
  wlps (m ≫= fun a => k a ≫= l) Q s -> wlps ((m ≫= k) ≫= l) Q s.
Proof. cbv [wlps wlp mbind M_bind]. by destruct (m s). Qed.

Lemma wlps_forM {B} (l : list B) (g : B -> Mp unit) (I : pbftCore -> Prop) s :
  (forall x, guar R0 (g x)) -> I s ->
  (forall x s', x ∈ l -> I s' -> wlps (g x) (fun _ => I) s') ->
  wlps (forM_ l g) (fun _ => I) s.
Proof.
  intros HR. revert s. induction l as [|x l IH]; intros s HI Hf; [by intros ?|].
  cbn [forM_]. apply wlps_bind; [intros; apply guar_forM; [apply _|done]|].
  eapply wlps_mono; [apply Hf; [by left|done]|].
  cbn. intros _ s' HI'. apply IH; [done|]. intros; apply Hf; [by right|done].
Qed.

Section steps.
Context {B C : Type} (Q : C -> pbftCore -> Prop) (s : pbftCore).
Lemma wlps_get_bind k : wlps (k s) Q s -> wlps (get ≫= k) Q s.
Proof. done. Qed.
Lemma wlps_gets_bind (k : B -> Mp C) g : wlps (k (g s)) Q s -> wlps (gets g ≫= k) Q s.
Proof. done. Qed.
Lemma wlps_modify_bind (k : unit -> Mp C) g : wlps (k tt) Q (g s) -> wlps (modify g ≫= k) Q s.
Proof. done. Qed.
Lemma wlps_emit_bind (k : unit -> Mp C) c :
  wlps (k tt) Q (emitted c s) -> wlps (emit c ≫= k) Q s.
Proof. done. Qed.
Lemma wlps_ret_bind (k : B -> Mp C) a : wlps (k a) Q s -> wlps (mret a ≫= k) Q s.
Proof. done. Qed.
End steps.

Ltac ws :=
  lazymatch goal with
  | |- wlps (mbind _ get) _ _ => apply wlps_get_bind
  | |- wlps (mbind _ (gets _)) _ _ => apply wlps_gets_bind
  | |- wlps (mbind _ (modify _)) _ _ => apply wlps_modify_bind
  | |- wlps (mbind _ (emit _)) _ _ => apply wlps_emit_bind
  | |- wlps (mbind _ (mret _)) _ _ => apply wlps_ret_bind
  | |- wlps (mbind _ panic) _ _ => exact I
  | |- wlps (mbind _ (mbind _ _)) _ _ => apply wlps_assoc
  | |- wlps (mbind _ (if ?b then _ else _)) _ _ => destruct b eqn:?
  | |- wlps (mbind _ (when ?b _)) _ _ => destruct b eqn:?; cbn [when]
  | |- wlps (mbind _ (match ?x with _ => _ end)) _ _ => destruct x eqn:?
  | |- wlps (mret _) _ _ => apply wlps_ret
  | |- wlps (modify _) _ _ => apply wlps_modify
  | |- wlps panic _ _ => exact I
  | |- wlps diverge _ _ => exact I
  | |- wlps (when ?b _) _ _ => destruct b eqn:?; cbn [when]
  | |- wlps (if ?b then _ else _) _ _ => destruct b eqn:?
  | |- wlps (match ?x with _ => _ end) _ _ => destruct x eqn:?
  end; cbv beta.

(** ** Certificates *)

Definition certAt (s : pbftCore) (v n : Z) : msgCert := default emptyCert (certStore s !! (v, n)).

Definition setCert (v n : Z) (c : msgCert) (s : pbftCore) : pbftCore :=
  s <| certStore := <[(v, n) := c]> (certStore s) |>.

Lemma setCert_id s v n c : certStore s !! (v, n) = Some c -> setCert v n c s = s.
Proof.
  intros H. unfold setCert. rewrite insert_id by done. by destruct s.
Qed.

Lemma setCert_setCert v n c c' s : setCert v n c' (setCert v n c s) = setCert v n c' s.
Proof. unfold setCert. cbn. by rewrite insert_insert_eq. Qed.

Lemma wlps_getCert {B} v n (k : msgCert -> Mp B) Q s :
  wlps (k (certAt s v n)) Q (setCert v n (certAt s v n) s) -> wlps (getCert v n ≫= k) Q s.
Proof.
  unfold certAt, getCert. destruct (certStore s !! (v, n)) as [c|] eqn:E; cbn [default].
  - rewrite setCert_id by done. intros. ws. ws. by rewrite E.
  - intros. ws. ws. by rewrite E.
Qed.

Lemma alter_insert_same `{Countable K} {B} (g : B -> B) k c (m : gmap K B) :
  alter g k (<[k := c]> m) = <[k := g c]> m.
Proof.
  apply map_eq. intros i. destruct (decide (i = k)) as [->|Hi].
  - by rewrite lookup_alter_eq, !lookup_insert_eq.
  - by rewrite lookup_alter_ne, !lookup_insert_ne by done.
Qed.

Lemma updCert_setCert v n g c s :
  updCert v n g (setCert v n c s) = Done tt (setCert v n (g c) s).
Proof.
  unfold updCert, modify, setCert. cbn [certStore setter]. by rewrite alter_insert_same.
Qed.

Lemma wlps_updCert {B} v n g c (k : unit -> Mp B) Q s :
  wlps (k tt) Q (setCert v n (g c) s) -> wlps (updCert v n g ≫= k) Q (setCert v n c s).
Proof.
  intros H. cbv [wlps wlp mbind M_bind]. by rewrite updCert_setCert.
Qed.

Lemma wlps_updCert_some {B} v n g c (k : unit -> Mp B) Q s :
  certStore s !! (v, n) = Some c ->
  wlps (k tt) Q (setCert v n (g c) s) -> wlps (updCert v n g ≫= k) Q s.
Proof.
  intros E H. rewrite <- (setCert_id s v n c E). by apply wlps_updCert.
Qed.

Lemma range_run env `{Countable K} {B} (g : pbftCore -> gmap K B) s :
  range env g s = Done (ord (order env) (ticks s) (g (s <| ticks := S (ticks s) |>)))
    (s <| ticks := S (ticks s) |>).
Proof. done. Qed.

Lemma wlps_range {B C} env `{Countable K} (g : pbftCore -> gmap K B)
    (k : list (K * B) -> Mp C) Q s :
  wlps (k (ord (order env) (ticks s) (g (s <| ticks := S (ticks s) |>)))) Q
    (s <| ticks := S (ticks s) |>) ->
  wlps (range env g ≫= k) Q s.
Proof. done. Qed.

(** ** Frames *)

Ltac inv_frame_tac HI := eapply inv_frame; [..|exact HI]; reflexivity.

Lemma inv_ticks A s t : inv A s -> inv A (s <| ticks := t |>).
Proof. intros HI. inv_frame_tac HI. Qed.

(** States that differ only in what the invariant does not mention. *)
Definition sim (s s' : pbftCore) : Prop :=
  cfg s = cfg s' /\ h_ s = h_ s' /\ view s = view s' /\ seqNo s = seqNo s' /\
  lastExec s = lastExec s' /\ chkpts s = chkpts s' /\
  checkpointStore s = checkpointStore s' /\ hChkpts s = hChkpts s' /\
  viewChangeStore s = viewChangeStore s' /\ newViewStore s = newViewStore s' /\
  certStore s = certStore s' /\ pset s = pset s' /\ qset s = qset s' /\
  activeView s = activeView s' /\ out s = out s' /\ schedule s = schedule s'.

#[export] Instance sim_preorder : PreOrder sim.
Proof.
  split.
  - intros s. unfold sim. auto 20.
  - unfold sim. intros x y z H1 H2. destruct_and!. split_and!; congruence.
Qed.

Lemma sim_inv A s s' : sim s s' -> inv A s -> inv A s'.
Proof. unfold sim. intros; destruct_and!. by eapply inv_frame. Qed.

Lemma sim_good A s s' : sim s s' -> inv A s -> good A s s'.
Proof.
  intros Hs HI. split; [by eapply sim_inv|]. unfold sim in Hs. destruct_and!. lia.
Qed.

Lemma startTimer_sim t : guar sim (startTimer t).
Proof. unfold startTimer. repeat guar_step; unfold sim; auto 20. Qed.

Lemma stopTimer_sim : guar sim stopTimer.
Proof. unfold stopTimer. repeat guar_step; unfold sim; auto 20. Qed.

(** A call that only changes what the invariant does not mention. *)
Lemma wlps_sim {B C} (m : Mp B) (k : B -> Mp C) Q s :
  guar sim m ->
  (forall a s', sim s s' -> wlps (k a) Q s') -> wlps (m ≫= k) Q s.
Proof.
  intros Hm Hk. apply wlp_bind. unfold wlp. destruct (m s) as [a s'| |] eqn:E; [|done..].
  apply Hk. by eapply Hm.
Qed.

Lemma storeRequest_sim env p : guar sim (storeRequest env p).
Proof. unfold storeRequest. repeat guar_step; unfold sim; auto 20. Qed.
