(* ===== verification/PbftPreserve.v ===== *)
(** Every handler of the PBFT engine keeps the invariant of [PbftInv]. *)
From stdpp Require Import base gmap sets list strings.
From Stdlib Require Import ZArith Lia.
From S2P Require Import Prelude GoStd PbftTypes PbftCore PbftSelect PbftInv PbftSym.

(** * Facts of a good state *)

Section facts.
Context (A : Z -> Message -> Prop).

Lemma inW_range s n : small s -> inv A s -> is_u64 n -> inW s n = true ->
  0 <= h_ s < n /\ n <= h_ s + L_ s.
Proof.
  intros [HL HG] HI Hn. unfold inW, u64. pose proof (inv_h A s HI) as Hh.
  unfold upTo, is_u64 in *. intros [H1 H2]%andb_true_iff.
  assert (0 < (n - h_ s) mod two64) by lia.
  assert ((n - h_ s) mod two64 <= L_ s) by lia. clear H1 H2.
  destruct (decide (n < h_ s)).
  - rewrite <- (Z_mod_plus_full _ 1), Z.mod_small in * by lia. unfold two64 in *. lia.
  - rewrite Z.mod_small in * by lia. lia.
Qed.

Lemma inWV_range s v n : small s -> inv A s -> is_u64 n -> inWV s v n = true ->
  v = view s /\ 0 <= h_ s < n /\ n <= h_ s + L_ s.
Proof.
  intros Hs HI Hn [Hv Hw]%andb_true_iff. apply Z.eqb_eq in Hv.
  split; [done|]. by apply inW_range.
Qed.

(** Pre-prepared in the current view means pre-prepared by its certificate. *)
Lemma prePrepared_current s d n : inv A s -> prePrepared s d (view s) n = true ->
  exists c pp, certStore s !! (view s, n) = Some c /\ prePrepare c = Some pp
    /\ pp_RequestDigest pp = d.
Proof.
  intros HI. unfold prePrepared.
  destruct (_ && _); [done|].
  destruct (qset s !! (d, n)) as [q|] eqn:Eq.
  - apply (inv_qset A s HI) in Eq. destruct (Z.eqb_spec (pq_View q) (view s)); [lia|].
    destruct (certStore s !! _) as [c|]; [|done].
    destruct (prePrepare c) as [pp|] eqn:Ep; [|done].
    intros [_ ?%bool_decide_eq_true]%andb_true_iff. eauto.
  - destruct (certStore s !! _) as [c|]; [|done].
    destruct (prePrepare c) as [pp|] eqn:Ep; [|done].
    intros [_ ?%bool_decide_eq_true]%andb_true_iff. eauto.
Qed.

(** Prepared in the current view means a quorum of distinct senders. *)
Lemma prepared_current s d n : inv A s -> prepared s d (view s) n = true ->
  justified A s (view s) n d
  /\ exists c pp, certStore s !! (view s, n) = Some c /\ prePrepare c = Some pp.
Proof.
  intros HI. unfold prepared.
  destruct (prePrepared s d (view s) n) eqn:Epp; [|done]. cbn [negb].
  destruct (prePrepared_current s d n HI Epp) as (c & pp & Ec & Ep & Ed).
  destruct (inv_certStore A s HI _ _ _ Ec) as (_ & _ & HP & Hnd & _ & _ & Hpp).
  assert (match pset s !! n with
    | Some p => (pq_View p =? view s) && bool_decide (pq_Digest p = d)
    | None => false end = false) as ->.
  { destruct (pset s !! n) as [p|] eqn:E; [|done].
    apply (inv_pset A s HI) in E. destruct (Z.eqb_spec (pq_View p) (view s)); [lia|done]. }
  rewrite Ec. intros Hq. split; [|eauto]. split.
  - destruct (Hpp pp Ep) as (_ & _ & ?). congruence.
  - exists (p_ReplicaId <$> List.filter (prepareMatches d (view s) n) (prepare c)).
    split_and!.
    + by apply NoDup_fmap_filter.
    + rewrite length_fmap. unfold countb in Hq. lia.
    + apply Forall_fmap, Forall_forall. intros p [Hin Hm]%list_elem_of_In%filter_In.
      apply list_elem_of_In in Hin. rewrite Forall_forall in HP.
      destruct (HP p Hin) as (? & ? & ? & ? & ?).
      apply andb_true_iff in Hm as [_ Hd%bool_decide_eq_true].
      cbn. eauto 10.
Qed.

(** The certificate of a pending slot, whether or not it exists yet. *)
Lemma certAt_OK s n : inv A s -> 0 <= n <= h_ s + L_ s -> certOK A s (view s) n (certAt s (view s) n).
Proof.
  intros HI Hn. unfold certAt.
  destruct (certStore s !! (view s, n)) as [c|] eqn:E; cbn [default].
  - by apply (inv_certStore A s HI).
  - split_and!; [lia|lia|lia|constructor|constructor|constructor|constructor|done].
Qed.

(** A prepare sent in the current view, above the low watermark, is recorded. *)
Lemma own_prepare_recorded s p : inv A s -> own s (Message_Prepare p) -> p_View p = view s ->
  h_ s < p_SequenceNumber p ->
  let c := certAt s (view s) (p_SequenceNumber p) in
  sentPrepare c = true /\ exists pp, prePrepare c = Some pp
    /\ pp_RequestDigest pp = p_RequestDigest p.
Proof.
  intros HI Hown Hv Hn. destruct (inv_prep_current A s HI p Hown Hv) as [_ [?|Hr]]; [lia|].
  destruct Hr as (c & pp & Ec & ? & ? & ?). rewrite Hv in Ec. unfold certAt. rewrite Ec. eauto.
Qed.

(** Changing a certificate of the current view without touching what records a
    sent prepare. *)
Lemma inv_setCert_keep s n c :
  certOK A s (view s) n c ->
  sentPrepare c = sentPrepare (certAt s (view s) n) ->
  prePrepare c = prePrepare (certAt s (view s) n) ->
  inv A s -> inv A (setCert (view s) n c s).
Proof.
  intros Hc Es Ep HI. apply inv_setCert; [done| |done].
  intros p Hown Hv Hn. subst n. destruct (decide (p_SequenceNumber p <= h_ s)); [by left|right].
  rewrite Es, Ep. apply own_prepare_recorded; auto. lia.
Qed.

Lemma inv_getCert s n : inv A s -> 0 <= n <= h_ s + L_ s ->
  inv A (setCert (view s) n (certAt s (view s) n) s).
Proof. intros HI Hn. apply inv_setCert_keep; auto. by apply certAt_OK. Qed.

Lemma good_refl s : inv A s -> good A s s.
Proof. intros. split_and!; [done|lia|lia]. Qed.

Lemma good_trans s1 s2 s3 : good A s1 s2 -> good A s2 s3 -> good A s1 s3.
Proof. intros (? & ? & ?) (? & ? & ?). split_and!; [done|lia|lia]. Qed.

(** Continue from a state that is good to have reached. *)
Lemma wlps_good {B} (m : Mp B) s s1 :
  good A s s1 -> wlps m (fun _ s' => good A s1 s') s1 -> wlps m (fun _ s' => good A s s') s1.
Proof. intros Hg Hm. eapply wlps_mono; [exact Hm|]. cbn. eauto using good_trans. Qed.

Lemma wlps_small {B} (m : Mp B) Q s : guar R0 m -> (small s -> wlps m Q s) -> wlps m Q s.
Proof.
  intros HR H. destruct (decide (small s)); [by apply H|].
  unfold wlps, wlp. destruct (m s) as [a s'| |] eqn:E; [|done..].
  intros Hs'. apply HR in E. by apply small_R0 in E.
Qed.

End facts.

(** * Handlers *)

Section handlers.
Context (env : surroundings) (A : Z -> Message -> Prop).
Context (marshal_ok : forall m, marshal_Message env m = true).

Definition authentic (s : pbftCore) (j : Z) (m : Message) : Prop :=
  match m with
  | Message_PrePrepare _ | Message_Prepare _ | Message_Commit _ | Message_NewView _ =>
      sentBy A s j m
  | _ => True
  end.

Definition msgOK (s : pbftCore) (j : Z) (m : Message) : Prop :=
  authentic s j m /\ 0 <= j < N_ s /\ boundedMsg (G s) m.

(** What a handler may assume of the local dispatch of a message. *)
Context (self : Message -> Z -> Mp result).
Context (self_R0 : forall m j, guar R0 (self m j)).
Context (self_ok : forall m j s, small s -> inv A s -> msgOK s j m ->
  wlps (self m j) (fun _ => good A s) s).
Context (self_dup : forall p s (a : result) s', p_ReplicaId p = id_ s ->
  p_ReplicaId p ∈ p_ReplicaId <$> prepare (certAt s (p_View p) (p_SequenceNumber p)) ->
  self (Message_Prepare p) (id_ s) s = Done a s' -> s' = s).
#[local] Hint Resolve self_R0 : r0.

Lemma wlps_bcast m (toSelf : bool) (Q : result -> pbftCore -> Prop) s :
  byzantine s = false ->
  (let s1 := emitted (call_broadcast m) (s <| ticks := S (ticks s) |>) in
   if toSelf then wlps (self m (id_ s)) (fun _ => Q None) s1 else Q None s1) ->
  wlps (innerBroadcast env self m toSelf) Q s.
Proof.
  intros Hb H. unfold innerBroadcast. rewrite marshal_ok. cbn [negb].
  unfold tick. do 6 ws.
  match goal with |- context [if byzantine ?x then _ else _] =>
    replace (byzantine x) with false by (symmetry; exact Hb) end. ws.
  destruct toSelf; [|by apply wlps_ret].
  apply wlps_bind; [intros; r0|]. eapply wlps_mono; [exact H|]. cbn.
  intros _ s' HQ. by apply wlps_ret.
Qed.

Lemma inv_byz s : inv A s -> byzantine s = false.
Proof. intros HI. by destruct (inv_cfg A s HI) as (_ & _ & _ & _ & _ & ? & _). Qed.

(** The tail of every broadcast that also goes to the replica itself. *)
Lemma bcast_self m s0 s :
  byzantine s = false ->
  (let s1 := emitted (call_broadcast m) (s <| ticks := S (ticks s) |>) in
   good A s0 s1 /\ msgOK s1 (id_ s) m) ->
  wlps (innerBroadcast env self m true) (fun _ => good A s0) s.
Proof.
  intros Hb [Hg Hm]. apply wlps_bcast; [done|].
  apply wlps_good; [done|]. apply wlps_small; [r0|]. intros Hs.
  apply self_ok; [done|by destruct Hg|done].
Qed.

Lemma own_sentBy s m : own s m -> sentBy A s (id_ s) m.
Proof. intros. unfold sentBy. by rewrite decide_True. Qed.

Lemma is_u64_window s n : small s -> inv A s -> 0 <= n <= h_ s + L_ s -> is_u64 n.
Proof.
  intros [HL HG] HI Hn. pose proof (inv_h A s HI). unfold upTo, is_u64 in *. lia.
Qed.

Lemma maybeSendCommit_ok d n s :
  small s -> inv A s -> 0 <= n <= h_ s + L_ s ->
  wlps (maybeSendCommit env self d (view s) n) (fun _ => good A s) s.
Proof.
  intros Hs HI Hn. unfold maybeSendCommit. apply wlps_getCert.
  set (c := certAt s (view s) n).
  pose proof (inv_getCert A s n HI Hn) as HI1. fold c in HI1.
  set (s1 := setCert (view s) n c s) in *. ws. ws; [|apply wlps_ret; split_and!; [done|cbn; lia..]].
  apply andb_true_iff in Heqb as [Hp _].
  change (view s) with (view s1) in Hp.
  destruct (prepared_current A s1 d n HI1 Hp) as [Hj _].
  ws; [|done]. apply wlps_updCert.
  assert (inv A (setCert (view s) n (c <| sentCommit := true |>) s)) as HI2.
  { apply inv_setCert_keep; [|done|done|done]. apply (certAt_OK A s n HI Hn). }
  set (s2 := setCert _ _ _ s) in *.
  apply bcast_self; [by apply inv_byz|]. cbn zeta.
  split.
  - split_and!; [|cbn; lia..]. apply inv_emit; [by apply inv_ticks|..]; intros ? [=].
    subst. cbn. eapply justified_mono; [..|exact Hj]; [done|reflexivity].
  - split_and!; [|apply (inv_cfg A s HI)..|].
    + cbn. unfold sentBy. cbn. rewrite decide_True by done. by left.
    + cbn. by apply (is_u64_window s).
Qed.

Lemma recvPrepare_ok p s :
  small s -> inv A s -> msgOK s (p_ReplicaId p) (Message_Prepare p) ->
  wlps (recvPrepare env self p) (fun _ => good A s) s.
Proof.
  intros Hs HI (Hau & Hr & Hb). unfold recvPrepare. ws.
  ws; [apply wlps_ret; by apply good_refl|].
  ws; [apply wlps_ret; by apply good_refl|].
  apply negb_false_iff in Heqb0. cbn in Hau, Hb.
  destruct (inWV_range A s _ _ Hs HI Hb Heqb0) as [Ev Hn]. rewrite Ev.
  apply wlps_getCert. set (c := certAt s (view s) (p_SequenceNumber p)).
  ws; [apply wlps_ret; split_and!; [apply inv_getCert; [done|lia]|cbn; lia..]|].
  apply wlps_updCert. destruct (certAt_OK A s (p_SequenceNumber p) HI ltac:(lia))
    as (Hc1 & Hc2 & Hc3 & Hc4 & Hc5 & Hc6 & Hc7). fold c in Hc3, Hc4, Hc5, Hc6, Hc7.
  set (c' := c <| prepare := prepare c ++ [p] |>).
  assert (inv A (setCert (view s) (p_SequenceNumber p) c' s)) as HI1.
  { apply inv_setCert_keep; [|done|done|done].
    split_and!; try done; try lia; cbn.
    - apply Forall_app. split; [done|]. constructor; [|constructor].
      apply Z.eqb_neq in Heqb. rewrite Ev in Heqb. split_and!; [done|done|congruence|lia|lia|done].
    - rewrite fmap_app. apply NoDup_app. split_and!; [done| |apply NoDup_singleton].
      cbn. intros r (q & -> & Hq)%list_elem_of_fmap Hin%list_elem_of_singleton.
      apply not_true_iff_false in Heqb1. apply Heqb1, existsb_exists. exists q.
      rewrite <- list_elem_of_In. split; [done|lia]. }
  apply wlps_good; [split_and!; [done|cbn; lia..]|].
  apply wlps_small; [r0|]. intros Hs1. apply (maybeSendCommit_ok _ _ (setCert _ _ _ s)); [done|done|cbn; lia].
Qed.

(** Storing a pre-prepare of the current primary. *)
Lemma inv_storePrePrepare pp s :
  inv A s -> h_ s < pp_SequenceNumber pp <= h_ s + L_ s -> pp_View pp = view s ->
  sentBy A s (primary s (view s)) (Message_PrePrepare pp) ->
  let n := pp_SequenceNumber pp in
  let c := certAt s (view s) n in
  (forall p, prePrepare c = Some p -> pp_RequestDigest p = pp_RequestDigest pp) ->
  inv A (setCert (view s) n (c <| prePrepare := Some pp |>) s).
Proof.
  intros HI Hn Ev Hau n c Hsame. pose proof (inv_h A s HI) as [? _].
  destruct (certAt_OK A s n HI ltac:(lia)) as (? & ? & H1 & H2 & H3 & H4 & _).
  fold c in H1, H2, H3, H4.
  apply inv_setCert; [| |done].
  - split_and!; try done; try lia. intros p [= <-]. split_and!; [done|done|].
    left. exists pp. by split_and!.
  - intros p Hown Hv Hpn. right.
    destruct (own_prepare_recorded A s p HI Hown Hv ltac:(lia)) as (Hsp & p' & Hp' & Hd).
    rewrite Hpn in Hsp, Hp'. split; [done|]. exists pp. split; [done|].
    rewrite <- Hd. symmetry. by apply Hsame.
Qed.

(** Broadcasting the first prepare for a slot, recorded in its certificate. *)
Lemma inv_sendPrepare_fresh s n c pp :
  inv A s -> certOK A s (view s) n c -> prePrepare c = Some pp -> sentPrepare c = true ->
  activeView s = true -> primary s (view s) <> id_ s ->
  (forall q, own s (Message_Prepare q) -> p_View q = view s -> p_SequenceNumber q <> n) ->
  let p := mkPrepare (view s) n (pp_RequestDigest pp) (id_ s) in
  inv A (emitted (call_broadcast (Message_Prepare p))
    ((setCert (view s) n c s) <| ticks := S (ticks s) |>)).
Proof.
  intros HI Hc Hpp Hsp Ha Hpr Hfresh p. apply inv_emit.
  { apply inv_ticks, inv_setCert; [done|intros q Hown Hv Hq; by destruct (Hfresh q)|done]. }
  all: intros q [=]; subst q. cbn. split_and!; try done.
  - right. exists c, pp. cbn. by rewrite lookup_insert_eq.
  - intros q Hown Hv Hq. by destruct (Hfresh q).
Qed.

Lemma inv_sendPrepare s n c pp :
  inv A s -> h_ s < n <= h_ s + L_ s -> certStore s !! (view s, n) = Some c ->
  prePrepare c = Some pp -> sentPrepare c = false -> activeView s = true ->
  primary s (view s) <> id_ s ->
  let p := mkPrepare (view s) n (pp_RequestDigest pp) (id_ s) in
  inv A (emitted (call_broadcast (Message_Prepare p))
    ((setCert (view s) n (c <| sentPrepare := true |>) s) <| ticks := S (ticks s) |>)).
Proof.
  intros HI Hn Ec Hpp Hsp Ha Hpr p.
  apply (inv_sendPrepare_fresh s n (c <| sentPrepare := true |>) pp); try done.
  { apply (inv_certStore A s HI _ _ _ Ec). }
  intros q Hown Hv Hq. destruct (own_prepare_recorded A s q HI Hown Hv ltac:(lia)) as (Hsp' & _).
  unfold certAt in Hsp'. rewrite Hq, Ec in Hsp'. cbn in Hsp'. congruence.
Qed.

Lemma sendPrepare_ok pp s :
  inv A s -> h_ s < pp_SequenceNumber pp <= h_ s + L_ s -> is_u64 (pp_SequenceNumber pp) ->
  pp_View pp = view s -> activeView s = true ->
  is_Some (certStore s !! (view s, pp_SequenceNumber pp)) ->
  wlps (sendPrepare env self pp) (fun _ => good A s) s.
Proof.
  intros HI Hn Hb Ev Ha [c Ec]. unfold sendPrepare. rewrite Ev. ws.
  apply (wlps_sim (when _ _)); [apply guar_when; [apply _|apply startTimer_sim]|].
  intros _ s2 Hs2. pose proof (sim_inv A _ _ Hs2 HI) as HI2.
  pose proof (sim_good A _ _ Hs2 HI) as Hg2.
  assert (view s = view s2 /\ h_ s = h_ s2 /\ L_ s = L_ s2 /\ activeView s = activeView s2
    /\ certStore s = certStore s2) as (E1 & E2 & E3 & E4 & E5).
  { unfold sim, cfg in Hs2. destruct_and!. by simplify_eq. }
  rewrite E1, E2, E3, E4, E5 in *. clear E1 E2 E3 E4 E5 Hs2.
  apply wlps_good; [done|]. ws. apply wlps_getCert. unfold certAt. rewrite Ec. cbn [default].
  ws; [|rewrite setCert_id by done; apply wlps_ret; by apply good_refl].
  apply andb_true_iff in Heqb as [[Hnp Hpp]%andb_true_iff Hsp].
  apply negb_true_iff in Hnp, Hsp. apply Z.eqb_neq in Hnp.
  destruct (prePrepared_current A s2 _ _ HI2 Hpp) as (c' & p' & Ec' & Ep' & <-).
  rewrite Ec in Ec'. injection Ec' as <-.
  apply wlps_updCert, bcast_self; [by apply (inv_byz s2)|]. cbn zeta. split.
  - split_and!; [|cbn; lia..].
    by apply (inv_sendPrepare s2 (pp_SequenceNumber pp) c p').
  - split_and!; [|apply (inv_cfg A s2 HI2)..|done].
    cbn. unfold sentBy. cbn. rewrite decide_True by done. by left.
Qed.

Lemma recvPrePrepare_ok pp s :
  small s -> inv A s -> msgOK s (pp_ReplicaId pp) (Message_PrePrepare pp) ->
  wlps (recvPrePrepare env self pp) (fun _ => good A s) s.
Proof.
  intros Hs HI (Hau & Hr & Hb). unfold recvPrePrepare. cbn in Hau, Hb. ws.
  do 3 (ws; [apply wlps_ret; by apply good_refl|]).
  apply negb_false_iff in Heqb, Heqb0, Heqb1. apply Z.eqb_eq in Heqb0.
  destruct (inWV_range A s _ _ Hs HI Hb Heqb1) as (Ev & Hn1 & Hn2).
  assert (forall c1, inv A (setCert (view s) (pp_SequenceNumber pp) c1 s) ->
    wlps (stored ← storeRequest env pp;
          match stored with Some err => mret err | None => sendPrepare env self pp end)
      (fun _ => good A s) (setCert (view s) (pp_SequenceNumber pp) c1 s)) as Hrest.
  { intros c1 HI1. apply wlps_sim; [apply storeRequest_sim|]. intros st s2 Hs2.
    pose proof (sim_inv A _ _ Hs2 HI1) as HI2.
    assert (good A s s2) as Hg.
    { split; [done|]. unfold sim in Hs2. cbn in Hs2. destruct_and!. lia. }
    destruct st as [err|]; [by apply wlps_ret|]. apply wlps_good; [done|].
    unfold sim, cfg in Hs2. cbn in Hs2. destruct_and!. simplify_eq.
    apply sendPrepare_ok; [done|lia|done|congruence|congruence|].
    replace (view s2) with (view s). replace (certStore s2) with
      (<[(view s, pp_SequenceNumber pp) := c1]> (certStore s)).
    rewrite lookup_insert_eq. eauto. }
  unfold storePrePrepare. rewrite Ev. ws. apply wlps_getCert. ws.
  - ws; [ws; apply Hrest, inv_getCert; [done|lia]|].
    apply wlps_updCert, Hrest, inv_storePrePrepare; try done; [lia|by rewrite Heqb0|].
    intros p' Hp'. apply negb_false_iff, bool_decide_eq_true in Heqb2. congruence.
  - apply wlps_updCert, Hrest, inv_storePrePrepare; try done; [lia|by rewrite Heqb0|].
    intros p' Hp'. congruence.
Qed.

(** The primary assigns the next sequence number. *)
Lemma inv_sendPrePrepare s n d req :
  inv A s -> seqNo s < n -> h_ s < n <= h_ s + L_ s -> activeView s = true ->
  primary s (view s) = id_ s ->
  let pp := mkPrePrepare (view s) n d req (id_ s) in
  let s1 := emitted (call_broadcast (Message_PrePrepare pp))
              (s <| seqNo := n |> <| ticks := S (ticks s) |>) in
  inv A (setCert (view s) n ((certAt s (view s) n) <| prePrepare := Some pp |>) s1).
Proof.
  intros HI Hseq Hn Ha Hpr pp s1.
  pose proof (inv_h A s HI) as [? Hh]. pose proof (inv_seqNo A s HI) as [? _].
  assert (inv A s1) as HI1.
  { apply inv_emit.
    { apply inv_ticks, inv_seqNo_set; [lia|done]. }
    all: intros q [=]; subst q. cbn. split_and!; [done|done|lia| |].
    - intros q Hown Hv. destruct (inv_pp_view A s HI q Hown) as [_ Hc]. specialize (Hc Hv). lia.
    - intros nv d' Hown Hpos Hv Hd. destruct (inv_nv_view A s HI nv Hown Hpos) as [_ Hc].
      destruct (Hc Hv) as [_ Hx]. specialize (Hx Ha n d' Hd). lia. }
  destruct (certAt_OK A s1 n HI1 ltac:(cbn; lia)) as (? & ? & ? & ? & ? & ? & _).
  apply (inv_setCert A s1 n); [| |done].
  - split_and!; try done; try (cbn; lia). intros p [= <-]. split_and!; [done|done|].
    left. exists pp. split_and!; [done..|]. cbn. unfold sentBy, primary in *. cbn.
    rewrite decide_True by done. by left.
  - intros p Hown Hv Hpn. destruct (inv_prep_view A s1 HI1 p Hown) as (_ & Hnp & _).
    rewrite Hv in Hnp. done.
Qed.

Lemma recvRequest_ok req s :
  small s -> inv A s -> wlps (recvRequest env self req) (fun _ => good A s) s.
Proof.
  intros Hs HI. unfold recvRequest. ws; [apply wlps_ret; by apply good_refl|].
  set (d := hashReq env (Some req)). do 3 ws.
  match goal with |- wlps _ _ ?x => set (s1 := x) end.
  assert (sim s s1) as Hs1 by (unfold sim; auto 20).
  apply (wlps_sim (when _ _)); [apply guar_when; [apply _|apply startTimer_sim]|].
  intros _ s2 Hs2'. assert (sim s s2) as Hs2 by (transitivity s1; assumption).
  pose proof (sim_inv A _ _ Hs2 HI) as HI2.
  apply wlps_good; [by apply sim_good|]. clear s1 Hs1 Hs2'. ws.
  assert (small s2) as Hsm.
  { unfold sim, cfg in Hs2. destruct_and!. simplify_eq. unfold small, G in *. congruence. }
  ws; [|apply wlps_ret; by apply good_refl].
  apply andb_true_iff in Heqb0 as [Hpr Ha]. apply Z.eqb_eq in Hpr.
  ws; [|apply wlps_ret; by apply good_refl].
  apply andb_true_iff in Heqb0 as [Hwv _].
  destruct (inWV_range A s2 _ _ Hsm HI2 (u64_range _) Hwv) as (_ & Hn1 & Hn2).
  assert (u64 (seqNo s2 + 1) = seqNo s2 + 1) as En.
  { apply u64_small. pose proof (inv_seqNo A s2 HI2). destruct Hsm.
    unfold upTo, is_u64 in *. lia. }
  set (n := u64 (seqNo s2 + 1)) in *. ws. apply wlps_getCert. apply wlps_updCert.
  set (pp := mkPrePrepare (view s2) n d (Some req) (id_ s2)).
  pose proof (inv_sendPrePrepare s2 n d (Some req) HI2 ltac:(lia) ltac:(lia) Ha Hpr) as HI3.
  cbn zeta in HI3. fold pp in HI3.
  apply wlps_bind; [intros; r0|]. apply wlps_bcast; [by apply (inv_byz s2)|]. cbn zeta iota.
  match goal with |- wlps _ _ ?x => set (s3 := x) end.
  change (inv A s3) in HI3.
  apply wlps_good; [split_and!; [done|cbn; lia..]|].
  apply wlps_small; [r0|]. intros Hs3. change (view s2) with (view s3).
  apply maybeSendCommit_ok; [done|done|cbn; lia].
Qed.

Lemma resubmitRequests_ok s :
  small s -> inv A s -> wlps (resubmitRequests env self) (fun _ => good A s) s.
Proof.
  intros Hs HI. unfold resubmitRequests. ws. ws; [apply wlps_ret; by apply good_refl|].
  apply wlps_range. apply (wlps_forM _ _ (good A s)).
  - intros [d ?]. r0.
  - split_and!; [by apply inv_ticks|cbn; lia..].
  - intros [d ?] s1 _ Hg. ws. ws; [|by apply wlps_ret]. ws; [by apply wlps_ret|].
    apply wlps_bind; [intros; r0|].
    apply (wlps_mono _ (fun _ => good A s)); [|intros; by apply wlps_ret].
    apply wlps_good; [done|]. apply wlps_small; [r0|]. intros Hs1.
    apply recvRequest_ok; [done|by destruct Hg].
Qed.

(** During a view change, requests are only kept. *)
Lemma recvRequest_inactive req s :
  activeView s = false -> wlp (recvRequest env self req) (fun _ => sim s) s.
Proof.
  intros Ha. unfold recvRequest. wlp_step; [by wlp_step|].
  do 6 wlp_step.
  match goal with |- context [negb (timerActive ?x) && activeView ?x] =>
    replace (negb (timerActive x) && activeView x) with false
      by (symmetry; apply andb_false_iff; right; exact Ha) end.
  cbn [when]. do 4 wlp_step.
  match goal with |- context [(?y =? ?z) && activeView ?x] =>
    replace ((y =? z) && activeView x) with false
      by (symmetry; apply andb_false_iff; right; exact Ha) end.
  wlp_step. unfold sim. auto 20.
Qed.

Lemma resubmitRequests_inactive s :
  activeView s = false -> wlp (resubmitRequests env self) (fun _ => sim s) s.
Proof.
  intros Ha. unfold resubmitRequests. do 2 wlp_step. wlp_step; [by wlp_step|].
  apply wlp_bind. unfold wlp at 1. rewrite range_run.
  apply (wlp_forM _ _ (sim s)); [unfold sim; auto 20|].
  intros [d ?] s1 _ Hs1. cbv beta iota. do 2 wlp_step. wlp_step; [|by wlp_step]. wlp_step; [by wlp_step|].
  apply wlp_bind. eapply wlp_mono.
  - apply recvRequest_inactive. destruct Hs1 as (_ & _ & _ & _ & _ & _ & _ & _ & _ & _ & _ & _ & _ & <- & _).
    exact Ha.
  - cbv beta. intros _ s2 Hs2. wlp_step. by transitivity s1.
Qed.

Lemma takeCheckpoint_ok sn cid s :
  small s -> inv A s -> wlps (takeCheckpoint env self sn cid) (fun _ => good A s) s.
Proof.
  intros Hs HI. unfold takeCheckpoint. ws. ws; [done|].
  ws; [apply wlps_ret; by apply good_refl|]. ws.
  apply wlps_bind; [intros; r0|].
  apply (wlps_mono _ (fun _ => good A s)); [|intros; by apply wlps_ret].
  set (i := Base64.EncodeToString cid).
  apply bcast_self; [by apply (inv_byz s)|]. cbn zeta.
  set (m := Message_Checkpoint _).
  pose proof (inv_emit_quiet A (s <| ticks := S (ticks s) |>) (call_broadcast m) I
    (inv_ticks A s _ HI)) as HI1.
  set (s1 := emitted _ _) in HI1.
  assert (G s1 = G s + (L_ s + 1)) as EG by (unfold s1; rewrite G_emitted; done).
  pose proof (inv_h A s HI) as [_ ?]. pose proof (inv_lastExec A s HI).
  assert (upTo (G s1) (lastExec s)) as Hle by (unfold upTo; rewrite EG; lia).
  split.
  - split_and!; [|cbn; lia..].
    change (inv A (s1 <| chkpts := <[lastExec s := i]> (chkpts s) |>)).
    apply inv_chkpts_set; [|done].
    intros n x [[<- _]|[_ Hx]]%lookup_insert_Some; [done|by eapply (inv_chkpts A s1)].
  - split_and!; [done|apply (inv_cfg A s HI)..|]. exact Hle.
Qed.

(** ** Leaving a view *)

(** Equal but for the P and Q sets. *)
Definition simPQ (s s' : pbftCore) : Prop :=
  cfg s = cfg s' /\ h_ s = h_ s' /\ view s = view s' /\ seqNo s = seqNo s' /\
  lastExec s = lastExec s' /\ chkpts s = chkpts s' /\
  checkpointStore s = checkpointStore s' /\ hChkpts s = hChkpts s' /\
  viewChangeStore s = viewChangeStore s' /\ newViewStore s = newViewStore s' /\
  certStore s = certStore s' /\
  activeView s = activeView s' /\ out s = out s' /\ schedule s = schedule s'.

Definition pqBelow (s : pbftCore) : Prop :=
  (forall n p, pset s !! n = Some p -> pq_View p < view s) /\
  (forall k q, qset s !! k = Some q -> pq_View q < view s).

Lemma addPset_ok s0 s e :
  simPQ s0 s /\ pqBelow s -> fst (fst e) < view s ->
  wlps (addPset e) (fun _ s' => simPQ s0 s' /\ pqBelow s') s.
Proof.
  destruct e as [[v n] c]. cbn. intros [Hs [Hp Hq]] Hv.
  repeat (ws; [..|]); try (by apply wlps_ret); try done.
  split; [exact Hs|]. split; [|done].
  intros n' p'. cbn. intros [[<- <-]|[_ H]]%lookup_insert_Some; [done|]. by apply Hp in H.
Qed.

Lemma addQset_ok s0 s e :
  simPQ s0 s /\ pqBelow s -> fst (fst e) < view s ->
  wlps (addQset e) (fun _ s' => simPQ s0 s' /\ pqBelow s') s.
Proof.
  destruct e as [[v n] c]. cbn. intros [Hs [Hp Hq]] Hv.
  repeat (ws; [..|]); try (by apply wlps_ret); try done.
  split; [exact Hs|]. split; [done|].
  intros k q. cbn. intros [[<- <-]|[_ H]]%lookup_insert_Some; [done|]. by apply Hq in H.
Qed.

Lemma sign_ViewChange (vc : ViewChange) :
  vc_View (fst (sign env vc)) = vc_View vc /\ vc_Cset (fst (sign env vc)) = vc_Cset vc.
Proof.
  unfold sign. cbn -[marshal_ViewChange]. destruct (marshal_ViewChange _ _) as [raw|]; [|done].
  by destruct (consumer_sign env raw).
Qed.

(** One of the two loops that fill the P and Q sets. *)
Lemma fill_ok (add : msgID * msgCert -> Mp unit) s0 s t :
  (forall e, guar R0 (add e)) ->
  (forall s e, simPQ s0 s /\ pqBelow s -> fst (fst e) < view s ->
     wlps (add e) (fun _ s' => simPQ s0 s' /\ pqBelow s') s) ->
  simPQ s0 s -> pqBelow s -> (forall v n c, certStore s0 !! (v, n) = Some c -> v < view s0) ->
  wlps (forM_ (ord (order env) t (certStore s)) add)
    (fun _ s' => simPQ s0 s' /\ pqBelow s') s.
Proof.
  intros HR Hadd Hs Hb Hc.
  apply (wlps_forM _ _ (fun s' => simPQ s0 s' /\ pqBelow s')); [done|done|].
  intros [[v n] c] s1 Hin [Hs1 Hb1]. apply Hadd; [done|]. cbn.
  apply elem_of_ord in Hin. unfold simPQ in *. destruct_and!.
  replace (view s1) with (view s0) by congruence. eapply (Hc v n c). congruence.
Qed.

(** The replica may leave from a later view [w] than its own. *)
Lemma sendViewChange_ok s w :
  small s -> inv A s -> view s <= w <= G s ->
  wlps (sendViewChange env self) (fun _ => good A s) (s <| view := w |>).
Proof.
  intros Hs HI Hw. unfold sendViewChange.
  apply wlps_sim; [apply stopTimer_sim|]. intros _ s1 Hs1. do 3 ws.
  match goal with |- wlps _ _ ?x => set (s2 := x) end.
  assert (u64 (w + 1) = w + 1) as Ew.
  { apply u64_small. pose proof (inv_view A s HI). destruct Hs. unfold upTo, is_u64 in *. lia. }
  assert (simPQ s2 s2 /\ pqBelow s2 /\ view s2 = w + 1 /\ activeView s2 = false
    /\ cfg s = cfg s2 /\ h_ s = h_ s2 /\ seqNo s = seqNo s2 /\ lastExec s = lastExec s2
    /\ chkpts s = chkpts s2 /\ checkpointStore s = checkpointStore s2
    /\ hChkpts s = hChkpts s2 /\ viewChangeStore s = viewChangeStore s2
    /\ newViewStore s2 = delete w (newViewStore s) /\ certStore s = certStore s2
    /\ out s = out s2 /\ schedule s = schedule s2) as Hs2.
  { unfold sim, cfg in Hs1. cbn in Hs1. destruct_and!. simplify_eq.
    split_and!; try done; try (unfold cfg; cbn; congruence). split.
    - intros n p Hp. cbn in Hp |- *. replace (pset s1) with (pset s) in Hp.
      apply (inv_pset A s HI) in Hp. rewrite Ew. lia.
    - intros n p Hp. cbn in Hp |- *. replace (qset s1) with (qset s) in Hp.
      apply (inv_qset A s HI) in Hp. rewrite Ew. lia. }
  clearbody s2. clear Hs1 s1. destruct Hs2 as (HPQ & Hbel & Hs2).
  assert (forall v n c, certStore s2 !! (v, n) = Some c -> v < view s2) as Hcv.
  { intros v n c Hc. destruct_and!. replace (certStore s2) with (certStore s) in Hc.
    apply (inv_certStore A s HI) in Hc as (? & _). lia. }

  (* the P and Q sets *)
  apply wlps_range, wlps_bind; [intros; r0|]. eapply wlps_mono.
  { apply (fill_ok addPset s2 (s2 <| ticks := S (ticks s2) |>)); try done; [r0|].
    intros; by apply addPset_ok. }
  cbv beta. intros _ s3 [HPQ3 Hb3].
  apply wlps_range, wlps_bind; [intros; r0|]. eapply wlps_mono.
  { apply (fill_ok addQset s2 (s3 <| ticks := S (ticks s3) |>)); try done; [r0|].
    intros; by apply addQset_ok. }
  cbv beta. intros _ s4 [HPQ4 Hb4]. clear dependent s3.
  do 2 ws. do 3 apply wlps_range. ws.
  match goal with |- wlps _ _ ?x => set (s5 := x) end.
  match goal with |- context [sign env ?x] => set (vc := x) end.
  unfold simPQ in HPQ4. destruct_and!.
  assert (cfg s = cfg s5) as Ecfg by (unfold cfg in *; cbn; congruence).
  apply bcast_self.
  { transitivity (byzantine s); [by apply cfg_fields in Ecfg as (_ & _ & _ & _ & _ & <- & _)|].
    by apply inv_byz. }
  cbn zeta. set (m := Message_ViewChange _).
  match goal with |- context [emitted ?c ?x] => set (s6 := emitted c x) end.
  assert (inv A s6) as HI6.
  { apply (inv_leaveView A s s6 w m); try done; try (cbn; congruence).
    - intros k x. cbn. intros [Hx _]%map_lookup_filter_Some. congruence.
    - intros k x. cbn. intros [Hx _]%map_lookup_filter_Some. congruence.
    - intros n p Hp. by apply Hb4 in Hp.
    - intros n p Hp. by apply Hb4 in Hp. }
  split; [split_and!; [done|cbn; lia..]|].
  apply cfg_fields in Ecfg as (EN & _ & _ & Ei & _).
  pose proof (inv_cfg A s HI) as (_ & _ & _ & _ & Hid & _).
  split_and!; [done|lia|cbn in *; lia|].
  destruct (sign_ViewChange vc) as [Evc Ecs]. cbn. rewrite Evc. split.
  - replace (vc_View vc) with (view s6) by (cbn; done). by apply (inv_view A s6).
  - unfold boundedCset. rewrite Ecs. cbn. apply Forall_fmap, Forall_forall.
    intros [n i] Hin%elem_of_ord. cbn. by eapply (inv_chkpts A s6 HI6).
Qed.
Lemma sendViewChange_here s :
  small s -> inv A s -> wlps (sendViewChange env self) (fun _ => good A s) s.
Proof.
  intros Hs HI. destruct (inv_view A s HI) as [_ Hv].
  pose proof (sendViewChange_ok s (view s) Hs HI (conj (Z.le_refl _) Hv)) as H.
  replace (s <| view := view s |>) with s in H by (by destruct s). exact H.
Qed.

(** Drop the result of a call. *)
Lemma wlps_ignore {B C} (m : Mp B) (x : C) s s1 :
  wlps m (fun _ => good A s) s1 -> wlps (m ;; mret x) (fun _ => good A s) s1.
Proof.
  intros H. apply wlps_bind; [intros; r0|]. eapply wlps_mono; [exact H|].
  intros. by apply wlps_ret.
Qed.

Lemma timerHander_ok s :
  small s -> inv A s -> wlps (timerHander env self) (fun _ => good A s) s.
Proof.
  intros Hs HI. unfold timerHander. ws. ws; [apply wlps_ret; by apply good_refl|].
  by apply wlps_ignore, sendViewChange_here.
Qed.

Lemma G_ge s : 0 <= L_ s -> 2 ^ 62 <= G s.
Proof.
  intros. unfold G.
  pose proof (Z.mul_nonneg_nonneg (L_ s + 1) (Z.of_nat (length (out s))) ltac:(lia) ltac:(lia)).
  lia.
Qed.

Lemma runLockEvent_ok e s :
  small s -> inv A s -> lockEventOK A s e ->
  wlps (runLockEvent env self e) (fun _ => good A s) s.
Proof.
  intros Hs HI He. destruct e as [m j|sn cid| |]; cbn [runLockEvent].
  - destruct He as (Hj & Hr & HA & Hb). apply wlps_ignore, self_ok; [done|done|].
    split_and!; [|lia|lia|].
    + destruct m; cbn; try done; unfold sentBy; by rewrite decide_False.
    + eapply boundedMsg_mono; [|exact Hb]. apply G_ge. apply (inv_cfg A s HI).
  - by apply takeCheckpoint_ok.
  - ws. ws; [|apply wlps_ret; by apply good_refl]. unfold timerExpired. ws. apply wlps_modify.
    apply sim_good; [|done]. unfold sim; auto 20.
  - by apply timerHander_ok.
Qed.

Lemma executeUnlocked_ok sn tx info s :
  small s -> inv A s -> wlps (executeUnlocked env self sn tx info) (fun _ => good A s) s.
Proof.
  intros Hs HI. unfold executeUnlocked. ws. ws.
  set (s1 := emitted _ s).
  assert (inv A s1) as HI1 by (by apply inv_emit_quiet).
  ws; [apply wlps_ret; split_and!; [done|cbn; lia..]|]. ws.
  match goal with |- wlps _ _ ?x => set (s2 := x) end.
  pose proof (inv_schedule A s1 HI1) as Hsch. rewrite Heql in Hsch.
  apply Forall_cons in Hsch as [Hes Hrest].
  assert (inv A s2) as HI2 by (by apply inv_schedule_set).
  assert (forall s', id_ s' = id_ s1 -> N_ s' = N_ s1 -> Forall (lockEventOK A s') l) as Hev.
  { intros s' E1 E2. eapply Forall_impl; [exact Hes|]. intros []; cbn; rewrite ?E1, ?E2; done. }
  apply (wlps_mono _ (fun _ s' => good A s s' /\ id_ s' = id_ s1 /\ N_ s' = N_ s1)); [|by intros _ ? [? _]].
  apply wlps_forM; [r0|split_and!; [done|cbn; lia..|done|done]|].
  intros e s3 He (Hg & E1 & E2). apply wlps_small; [r0|]. intros Hs3.
  destruct Hg as (HI3 & Hh & Hv). specialize (Hev s3 E1 E2). rewrite Forall_forall in Hev.
  eapply wlp_mono; [apply (guar_wlp R0); [r0|apply runLockEvent_ok; auto]|].
  cbn. intros _ s4 [Hg4 [C4 _]] Hs4. specialize (Hg4 Hs4).
  apply cfg_fields in C4 as (EN & _ & _ & Ei & _).
  split; [by eapply good_trans|]. by rewrite <- EN, <- Ei.
Qed.

Lemma executeOne_ok idx s :
  small s -> inv A s -> wlps (executeOne env self idx) (fun _ => good A s) s.
Proof.
  intros Hs HI. destruct idx as [v n]. unfold executeOne. ws.
  ws; [|apply wlps_ret; by apply good_refl].
  ws; [apply wlps_ret; by apply good_refl|].
  ws; [|apply wlps_ret; by apply good_refl].
  do 2 (ws; [apply wlps_ret; by apply good_refl|]).
  destruct (inv_certStore A s HI _ _ _ Heqo) as (_ & Hn & _). ws.
  assert (inv A (s <| lastExec := n |>)) as HI1 by (by apply inv_lastExec_set).
  apply wlps_sim; [apply stopTimer_sim|]. intros _ s2 Hs2. ws.
  match goal with |- wlps _ _ ?x => set (s3 := x) end.
  assert (sim (s <| lastExec := n |>) s3) as Hs3 by (unfold sim in *; exact Hs2).
  pose proof (sim_good A _ _ Hs3 HI1) as Hg3.
  assert (good A s s3) as Hg by exact Hg3. clearbody s3. clear Hs2 s2 Hs3 Hg3 HI1.
  apply wlps_bind; [intros; r0|].
  assert (forall s4, good A s s4 ->
    wlps (s5 ← get; when (negb (bool_decide (outstandingReqs s5 = ∅)))
      (startTimer (requestTimeout s5)) ;; mret true) (fun _ => good A s) s4) as Htail.
  { intros s4 Hg4. ws. apply wlps_sim; [apply guar_when; [apply _|apply startTimer_sim]|].
    intros _ s5 Hs5. apply wlps_ret. eapply good_trans; [exact Hg4|].
    apply sim_good; [done|by destruct Hg4]. }
  apply (wlps_mono _ (fun _ => good A s)); [|intros; by apply Htail].
  ws; [done|]. ws.
  - ws; [|by apply wlps_ret]. apply wlps_good; [done|]. apply wlps_small; [r0|]. intros.
    apply executeUnlocked_ok; [done|by destruct Hg].
  - ws. match goal with |- wlps _ _ ?x => set (s4 := x) end.
    assert (sim s3 s4) as Hs4 by (unfold sim; auto 20).
    assert (good A s s4) as Hg4.
    { eapply good_trans; [exact Hg|]. apply sim_good; [done|by destruct Hg]. }
    ws; [|done]. apply wlps_good; [done|]. apply wlps_small; [r0|]. intros.
    apply executeUnlocked_ok; [done|by destruct Hg4].
Qed.

(** Run a call that keeps states good, then go on from its result. *)
Lemma wlps_step {B C} (m : Mp B) (k : B -> Mp C) s0 s :
  good A s0 s -> guar R0 m -> (forall b, guar R0 (k b)) ->
  (small s -> wlps m (fun _ => good A s) s) ->
  (forall b s', small s' -> good A s0 s' -> wlps (k b) (fun _ => good A s0) s') ->
  wlps (m ≫= k) (fun _ => good A s0) s.
Proof.
  intros Hg Hm Hk H1 H2. apply wlps_bind; [done|]. apply wlps_small; [done|]. intros Hs.
  eapply wlps_mono; [by apply H1|]. cbv beta. intros b s' Hg'. apply wlps_small; [done|].
  intros. apply H2; [done|by eapply good_trans].
Qed.

Lemma executeFirst_ok idxs s :
  small s -> inv A s -> wlps (executeFirst env self idxs) (fun _ => good A s) s.
Proof.
  revert s. induction idxs as [|idx idxs IH]; intros s Hs HI; cbn [executeFirst].
  - apply wlps_ret. by apply good_refl.
  - apply wlps_step; [by apply good_refl|r0|intros; cbv beta; r0|intros; by apply executeOne_ok|].
    intros b s' Hs' Hg. cbv beta. ws; [by apply wlps_ret|]. apply wlps_good; [done|].
    apply IH; [done|by destruct Hg].
Qed.

Lemma executeOutstanding_ok fuel s :
  small s -> inv A s -> wlps (executeOutstanding env self fuel) (fun _ => good A s) s.
Proof.
  revert s. induction fuel as [|fuel IH]; intros s Hs HI; cbn [executeOutstanding]; [done|].
  apply wlps_range.
  apply wlps_step; [split_and!; [by apply inv_ticks|cbn; lia..]|r0|intros; cbv beta; r0| |].
  - intros. apply executeFirst_ok; [done|by apply inv_ticks].
  - intros b s' Hs' Hg. cbv beta. ws; [|by apply wlps_ret]. apply wlps_good; [done|].
    apply IH; [done|by destruct Hg].
Qed.

Lemma recvCommit_ok fuel c s :
  small s -> inv A s -> msgOK s (c_ReplicaId c) (Message_Commit c) ->
  wlps (recvCommit env self fuel c) (fun _ => good A s) s.
Proof.
  intros Hs HI (Hau & Hr & Hb). unfold recvCommit. cbn in Hau, Hb. ws.
  ws; [apply wlps_ret; by apply good_refl|]. apply negb_false_iff in Heqb.
  destruct (inWV_range A s _ _ Hs HI Hb Heqb) as (Ev & Hn1 & Hn2). rewrite Ev.
  apply wlps_getCert. set (ct := certAt s (view s) (c_SequenceNumber c)).
  ws; [apply wlps_ret; split_and!; [apply inv_getCert; [done|lia]|cbn; lia..]|].
  destruct (certAt_OK A s (c_SequenceNumber c) HI ltac:(lia))
    as (Hc1 & Hc2 & Hc3 & Hc4 & Hc5 & Hc6 & Hc7). fold ct in Hc3, Hc4, Hc5, Hc6, Hc7.
  apply wlps_updCert. set (ct' := ct <| commit := commit ct ++ [c] |>).
  assert (inv A (setCert (view s) (c_SequenceNumber c) ct' s)) as HI1.
  { apply inv_setCert_keep; [|done|done|done].
    split_and!; try done; try lia; cbn.
    - apply Forall_app. split; [done|]. constructor; [|constructor].
      split_and!; [done|done|lia|lia|done].
    - rewrite fmap_app. apply NoDup_app. split_and!; [done| |apply NoDup_singleton].
      cbn. intros r (q & -> & Hq)%list_elem_of_fmap Hin%list_elem_of_singleton.
      apply not_true_iff_false in Heqb0. apply Heqb0, existsb_exists. exists q.
      rewrite <- list_elem_of_In. split; [done|lia]. }
  apply wlps_ignore. apply wlps_good; [split_and!; [done|cbn; lia..]|].
  apply wlps_small; [r0|]. intros. by apply executeOutstanding_ok.
Qed.

Lemma moveWatermarks_ok hh s :
  small s -> inv A s -> h_ s <= hh <= G s ->
  wlps (moveWatermarks env self hh) (fun _ s' => good A (watermarked hh s) s') s.
Proof.
  intros Hs HI Hh. unfold moveWatermarks. do 7 ws.
  pose proof (inv_watermarked A s hh Hh HI) as HI1.
  match goal with |- wlps _ _ ?x => change x with (watermarked hh s) end.
  apply wlps_small; [r0|]. intros. by apply resubmitRequests_ok.
Qed.

Lemma moveWatermarks_good hh s :
  small s -> inv A s -> h_ s <= hh <= G s ->
  wlps (moveWatermarks env self hh) (fun _ s' => good A s s' /\ hh <= h_ s') s.
Proof.
  intros Hs HI Hh. eapply wlps_mono; [by apply moveWatermarks_ok|].
  cbv beta. intros _ s' (? & H1 & H2). cbn in H1, H2.
  split; [split; [done|split; lia]|lia].
Qed.

Lemma moveWatermarks_inactive hh s :
  activeView s = false ->
  wlp (moveWatermarks env self hh) (fun _ => sim (watermarked hh s)) s.
Proof.
  intros Ha. unfold moveWatermarks. do 14 wlp_step. by apply resubmitRequests_inactive.
Qed.

(** ** Checkpoints *)

Lemma weakCheckpointSetOutOfRange_ok ck s :
  small s -> inv A s -> upTo (G s) (ck_SequenceNumber ck) ->
  wlps (weakCheckpointSetOutOfRange env self ck) (fun _ => good A s) s.
Proof.
  intros Hs HI Hck. unfold weakCheckpointSetOutOfRange. ws. ws.
  { ws. apply wlps_ret. split_and!; [|cbn; lia..]. apply inv_hChkpts_set; [|done].
    intros j n [_ Hn]%lookup_delete_Some. by eapply (inv_hChkpts A s). }
  ws. match goal with |- wlps _ _ ?x => set (s1 := x) end.
  assert (inv A s1) as HI1.
  { apply inv_hChkpts_set; [|done].
    intros j n [[_ <-]|[_ Hn]]%lookup_insert_Some; [done|]. by eapply (inv_hChkpts A s). }
  assert (good A s s1) as Hg by (split_and!; [done|cbn; lia..]).
  ws. ws; [|by apply wlps_ret]. ws.
  match goal with |- wlps _ _ ?x => set (s2 := x) end.
  assert (inv A s2) as HI2.
  { apply inv_hChkpts_set; [|done].
    intros j n [Hn _]%map_lookup_filter_Some. by eapply (inv_hChkpts A s1). }
  ws; [|done]. ws; [|apply wlps_ret; split_and!; [done|cbn; lia..]].
  assert (h_ s <= z <= G s).
  { destruct (_ <? 0) in Heqo; [done|]. apply list_elem_of_lookup_2 in Heqo.
    rewrite sortUint64_perm in Heqo.
    apply list_elem_of_fmap in Heqo as ([j n] & -> & Hin%elem_of_map_to_list).
    apply (inv_hChkpts A s1 HI1) in Hin as [? ?]. split; [|done].
    destruct Hs. pose proof (inv_h A s HI).
    rewrite u64_small in Heqb1; unfold upTo, is_u64 in *; lia. }
  ws. match goal with |- wlps _ _ ?x => set (s3 := x) end.
  assert (sim s2 s3) as Hs3 by (unfold sim; auto 20).
  apply wlps_step; [split_and!; [by apply (sim_inv A s2)|cbn; lia..]|r0|intros; cbv beta; r0| |].
  - intros. apply wlps_mono with (Q := fun _ s' => good A s3 s' /\ z <= h_ s');
      [|by intros ? ? [? _]].
    apply moveWatermarks_good; [done|by apply (sim_inv A s2)|exact H].
  - intros _ s4 _ Hg4. cbv beta. ws. apply wlps_ret. eapply good_trans; [exact Hg4|].
    apply sim_good; [unfold sim; auto 20|by destruct Hg4].
Qed.

Lemma emit_quiet_ok c s0 s :
  quiet c -> good A s0 s -> wlps (emit c) (fun _ => good A s0) s.
Proof.
  intros Hq (HI & ? & ?) ?. split_and!; [by apply inv_emit_quiet|done|done].
Qed.

Lemma witnessCheckpointWeakCert_ok ck s :
  small s -> inv A s -> h_ s <= ck_SequenceNumber ck <= G s ->
  wlps (witnessCheckpointWeakCert env self ck) (fun _ => good A s) s.
Proof.
  intros Hs HI Hck. unfold witnessCheckpointWeakCert. apply wlps_range. ws. ws; [done|].
  match goal with |- wlps _ _ ?x => set (s1 := x) end.
  assert (inv A s1) as HI1 by (by apply inv_ticks).
  assert (good A s s1) as Hg by (split_and!; [done|cbn; lia..]).
  ws; [|by apply wlps_ret]. ws; [|by apply emit_quiet_ok]. ws.
  match goal with |- wlps _ _ ?x => set (s2 := x) end.
  assert (sim s1 s2) as Hs2 by (unfold sim; auto 20).
  pose proof (sim_inv A _ _ Hs2 HI1) as HI2.
  apply wlps_bind; [intros; r0|]. apply wlps_small; [r0|]. intros Hsm.
  eapply wlps_mono; [apply (moveWatermarks_good _ s2); [done|done|exact Hck]|].
  cbv beta. intros _ s3 [(HI3 & Hh & Hv) Hle]. ws. cbn in Hh, Hv.
  apply emit_quiet_ok; [done|]. pose proof (inv_h A s HI) as [? _].
  pose proof (inv_cfg A s3 HI3) as (? & _).
  split_and!; [apply inv_lastExec_set; [lia|done]|cbn; lia..].
Qed.

(** ** Entering a view *)

Lemma nonneg_bounded b vset : Forall (boundedCset b) vset -> nonnegClaims vset.
Proof.
  rewrite Forall_forall. intros H vc c Hv Hc. specialize (H vc Hv). unfold boundedCset in H.
  rewrite Forall_forall in H. by destruct (H c Hc).
Qed.

(** Selecting a checkpoint costs a map traversal and returns a claimed one. *)
Lemma wlps_select {B} vset (k : _ -> Mp B) Q s b :
  Forall (boundedCset b) vset ->
  (forall cp ok rs, (ok = true -> upTo b (vcC_SequenceNumber cp)) ->
     wlps (k (cp, ok, rs)) Q (s <| ticks := S (ticks s) |>)) ->
  wlps (selectInitialCheckpoint env vset ≫= k) Q s.
Proof.
  intros Hb Hk.
  destruct (selectInitialCheckpoint_run env s vset (nonneg_bounded b vset Hb))
    as (cp & ok & rs & E & Hsel).
  cbv [wlps wlp mbind M_bind]. rewrite E. apply Hk. intros ->.
  destruct Hsel as [(vcs & Hin%elem_of_map_to_list & _) _].
  pose proof (gather_nonempty _ _ _ Hin). destruct vcs as [|vc vcs]; [done|].
  destruct (gather_claimed _ _ _ vc Hin) as [Hv Hc]; [by left|].
  rewrite Forall_forall in Hb. specialize (Hb vc Hv). unfold boundedCset in Hb.
  rewrite Forall_forall in Hb. by apply Hb.
Qed.

Lemma fetchRequests_ok s :
  small s -> inv A s -> wlps (fetchRequests env self) (fun _ => good A s) s.
Proof.
  intros Hs HI. unfold fetchRequests. apply wlps_range. apply wlps_ignore.
  apply (wlps_forM _ _ (good A s)).
  - intros []. r0.
  - split_and!; [by apply inv_ticks|cbn; lia..].
  - intros [d ?] s1 _ (HI1 & ? & ?). ws. apply wlps_ignore.
    apply wlps_bcast; [by apply inv_byz|]. cbn.
    split_and!; [|cbn; lia..]. by apply inv_emit_quiet, inv_ticks.
Qed.

(** A loop whose invariant mentions the elements already seen. *)
Lemma wlps_forM_seen {B} (l : list B) (g : B -> Mp unit) (I : list B -> pbftCore -> Prop) s :
  (forall x, guar R0 (g x)) -> I [] s ->
  (forall seen x rest s', l = seen ++ x :: rest -> I seen s' ->
     wlps (g x) (fun _ => I (seen ++ [x])) s') ->
  wlps (forM_ l g) (fun _ => I l) s.
Proof.
  intros HR H0 Hstep.
  assert (forall rest seen s, l = seen ++ rest -> I seen s -> wlps (forM_ rest g) (fun _ => I l) s)
    as H; [|by apply (H l [])].
  induction rest as [|x rest IH]; intros seen s1 El Hs; cbn [forM_].
  - rewrite app_nil_r in El. subst. by apply wlps_ret.
  - apply wlps_bind; [intros; apply guar_forM; [apply _|done]|].
    eapply wlps_mono; [by eapply Hstep|]. cbv beta. intros [] s2 Hs2.
    apply (IH (seen ++ [x])); [by rewrite <- app_assoc|done].
Qed.

(** The slots of the X set [xs] carry its digests. *)
Definition prefilled (s : pbftCore) (xs : list (Z * string)) : Prop :=
  forall n d, (n, d) ∈ xs -> n <= seqNo s /\ exists pp,
    prePrepare (certAt s (view s) n) = Some pp /\ pp_RequestDigest pp = d.

Lemma certAt_setCert_eq s v n c : certAt (setCert v n c s) v n = c.
Proof. unfold certAt. cbn. by rewrite lookup_insert_eq. Qed.

Lemma certAt_setCert_ne s v n n' c : n <> n' -> certAt (setCert v n c s) v n' = certAt s v n'.
Proof. intros. unfold certAt. cbn. by rewrite lookup_insert_ne by congruence. Qed.

(** While the view is inactive, the X set is written into the certificates. *)
Definition filling (s0 : pbftCore) (nv : NewView) (seen : list (Z * string)) (s : pbftCore) : Prop :=
  inv A (s <| activeView := false |>) /\ activeView s = true
  /\ cfg s0 = cfg s /\ view s0 = view s /\ h_ s0 = h_ s
  /\ newViewStore s !! view s = Some nv /\ prefilled s seen.

Lemma inactive_no_prepare s p :
  inv A s -> activeView s = false -> own s (Message_Prepare p) -> p_View p <> view s.
Proof.
  intros HI Ha Hown Hv. destruct (inv_prep_current A s HI p Hown Hv). congruence.
Qed.

Lemma inv_fillCert s nv n d :
  inv A s -> activeView s = false -> newViewStore s !! view s = Some nv ->
  nv_Xset nv !! n = Some d -> 0 <= n <= h_ s + L_ s ->
  inv A (setCert (view s) n ((certAt s (view s) n)
    <| prePrepare := Some (mkPrePrepare (view s) n d None (id_ s)) |>) s).
Proof.
  intros HI Ha Hnv Hd Hn.
  destruct (certAt_OK A s n HI Hn) as (? & ? & ? & ? & ? & ? & _).
  apply inv_setCert; [| |done].
  - split_and!; try done; try lia. intros p [= <-]. split_and!; [done|done|]. right.
    destruct (inv_newViewStore A s HI _ _ Hnv) as (? & ? & _).
    exists nv. split_and!; [done|by apply (inv_inactive A s HI)|done|done].
  - intros p Hown Hv. by destruct (inactive_no_prepare s p).
Qed.

Lemma filling_step s0 nv seen n d s :
  (forall n d, nv_Xset nv !! n = Some d -> 0 <= n <= h_ s0 + L_ s0) ->
  nv_Xset nv !! n = Some d -> n ∉ seen.*1 -> filling s0 nv seen s ->
  wlps (s ← get;
    getCert (view s) n ;;
    updCert (view s) n (fun c =>
      c <| prePrepare := Some (mkPrePrepare (view s) n d None (id_ s)) |>) ;;
    when (n >? seqNo s) (modify (fun s => s <| seqNo := n |>)))
    (fun _ => filling s0 nv (seen ++ [(n, d)])) s.
Proof.
  intros Hx Hd Hnew (HI & Ha & C & Ev & Eh & Hnv & Hpre).
  assert (L_ s0 = L_ s) as EL by (by apply cfg_fields in C as (_ & _ & ? & _)).
  specialize (Hx n d Hd). rewrite Eh, EL in Hx.
  ws. apply wlps_getCert, wlps_updCert.
  set (c := certAt s (view s) n). set (pp := mkPrePrepare _ _ _ _ _).
  set (s1 := setCert (view s) n (c <| prePrepare := Some pp |>) s).
  assert (inv A (s1 <| activeView := false |>)) as HI1.
  { pose proof (inv_fillCert (s <| activeView := false |>) nv n d HI eq_refl Hnv Hd Hx) as H.
    exact H. }
  assert (forall q, seqNo s <= q -> n <= q -> prefilled (s1 <| seqNo := q |>) (seen ++ [(n, d)]))
    as Hpre1.
  { intros q Hq1 Hq2 n' d' [Hin|Hin%list_elem_of_singleton]%elem_of_app.
    - destruct (Hpre n' d' Hin) as (? & pp' & ? & ?). split; [cbn; lia|]. exists pp'.
      assert (certAt s1 (view s) n' = certAt s (view s) n') as E.
      { apply certAt_setCert_ne. intros <-. destruct Hnew.
        apply list_elem_of_fmap. by exists (n, d'). }
      rewrite <- E in *. by split.
    - simplify_eq. split; [done|]. exists pp.
      pose proof (certAt_setCert_eq s (view s) n (c <| prePrepare := Some pp |>)) as E.
      fold s1 in E. split; [|done]. transitivity (prePrepare (certAt s1 (view s) n)); [done|].
      by rewrite E. }
  ws.
  - ws. split_and!; try done; [|apply Hpre1; lia].
    assert (inv A (s1 <| activeView := false |> <| seqNo := n |>)) as H; [|exact H].
    apply inv_seqNo_set; [|done]. destruct (inv_h A _ HI1) as [_ Hh]. cbn in Hh |- *.
    change (G (s1 <| activeView := false |>)) with (G s) in *. lia.
  - apply wlps_ret. split_and!; try done. specialize (Hpre1 (seqNo s) ltac:(lia) ltac:(lia)).
    exact Hpre1.
Qed.

(** A backup prepares the slots of the X set. *)
Definition preparing (s0 : pbftCore) (xs seen : list (Z * string)) (s : pbftCore) : Prop :=
  good A s0 s /\ activeView s = true /\ cfg s0 = cfg s /\ view s0 = view s /\ h_ s0 = h_ s
  /\ prefilled s xs
  /\ (forall p, own s (Message_Prepare p) -> p_View p = view s -> p_SequenceNumber p ∈ seen.*1).

(** Like [inv_sendPrepare_fresh], with the prepare in the certificate as well. *)
Lemma inv_appendPrepare s n pp :
  inv A s -> 0 <= n <= h_ s + L_ s ->
  let c := certAt s (view s) n in
  prePrepare c = Some pp -> activeView s = true -> primary s (view s) <> id_ s ->
  (forall q, own s (Message_Prepare q) -> p_View q = view s -> p_SequenceNumber q <> n) ->
  let p := mkPrepare (view s) n (pp_RequestDigest pp) (id_ s) in
  inv A (emitted (call_broadcast (Message_Prepare p))
    ((setCert (view s) n (c <| prepare := prepare c ++ [p] |> <| sentPrepare := true |>) s)
       <| ticks := S (ticks s) |>)).
Proof.
  intros HI Hn c Epp Ha Hpr Hfresh p.
  destruct (certAt_OK A s n HI Hn) as (? & ? & Hc3 & Hc4 & Hc5 & Hc6 & Hc7).
  fold c in Hc3, Hc4, Hc5, Hc6, Hc7.
  set (c1 := c <| sentPrepare := true |>).
  set (c2 := c <| prepare := prepare c ++ [p] |> <| sentPrepare := true |>).
  pose proof (inv_sendPrepare_fresh s n c1 pp HI
    ltac:(split_and!; try done; lia) Epp eq_refl Ha Hpr Hfresh) as HI1.
  cbn zeta in HI1. fold p in HI1. set (s1 := emitted _ _) in HI1.
  rewrite <- (setCert_setCert (view s) n c1 c2 s).
  assert (inv A (setCert (view s1) n c2 s1)) as H'; [|exact H'].
  assert (certAt s1 (view s1) n = c1) as E1 by (apply certAt_setCert_eq).
  destruct (certAt_OK A s1 n HI1 Hn) as (? & ? & Hd3 & Hd4 & Hd5 & Hd6 & Hd7).
  rewrite E1 in Hd3, Hd4, Hd5, Hd6, Hd7.
  apply inv_setCert_keep; [|by rewrite E1|by rewrite E1|done].
  split_and!; try done; try lia.
  - change (Forall (prepareOK A s1 (view s1) n) (prepare c ++ [p])). apply Forall_app. split; [done|]. constructor; [|constructor].
    split_and!; try done; [apply (inv_cfg A s HI)..|]. unfold sentBy. cbn.
    rewrite decide_True by done. by left.
  - change (NoDup (p_ReplicaId <$> prepare c ++ [p])). rewrite fmap_app. apply NoDup_app.
    split_and!; [done| |apply NoDup_singleton].
    cbn. intros r (q & -> & Hq)%list_elem_of_fmap Hin%list_elem_of_singleton.
    rewrite Forall_forall in Hc3. destruct (Hc3 q Hq) as (? & ? & _ & _ & Hsent).
    unfold sentBy in Hsent. rewrite decide_True in Hsent by done. by destruct (Hfresh q).
Qed.

Lemma preparing_step s0 xs seen n d s :
  primary s0 (view s0) <> id_ s0 -> 0 <= n <= h_ s0 + L_ s0 ->
  (n, d) ∈ xs -> n ∉ seen.*1 -> preparing s0 xs seen s ->
  wlps (s ← get;
    let prep := mkPrepare (view s) n d (id_ s) in
    getCert (view s) n ;;
    updCert (view s) n (fun c => c <| prepare := prepare c ++ [prep] |>) ;;
    updCert (view s) n (fun c => c <| sentPrepare := true |>) ;;
    innerBroadcast env self (Message_Prepare prep) true ;;
    mret tt) (fun _ => preparing s0 xs (seen ++ [(n, d)])) s.
Proof.
  intros Hpr Hn Hin Hnew ((HI & Hh & Hvw) & Ha & C & Ev & Eh & Hpre & Hown).
  destruct (cfg_fields _ _ C) as (EN & _ & EL & Ei & Er & _ & _).
  unfold primary in Hpr. rewrite Er, Ev, Ei in Hpr. rewrite Eh, EL in Hn.
  ws. apply wlps_getCert, wlps_updCert, wlps_updCert.
  set (c := certAt s (view s) n). set (prep := mkPrepare _ _ _ _).
  destruct (Hpre n d Hin) as (Hseq & pp & Epp & Ed). fold c in Epp.
  assert (forall q, own s (Message_Prepare q) -> p_View q = view s -> p_SequenceNumber q <> n)
    as Hfresh.
  { intros q Hq Hv <-. destruct Hnew. by apply Hown. }
  pose proof (inv_appendPrepare s n pp HI Hn Epp Ha Hpr Hfresh) as HI1.
  cbn zeta in HI1. rewrite Ed in HI1. fold prep c in HI1.
  apply wlps_bind; [intros; r0|]. apply wlps_bcast; [by apply (inv_byz s)|]. cbn zeta iota.
  match goal with |- wlps _ _ ?x => set (s1 := x) end. change (inv A s1) in HI1.
  unfold wlps at 1, wlp. destruct (self _ _ s1) as [a s2| |] eqn:E; [|done..].
  assert (certAt s1 (view s) n =
    c <| prepare := prepare c ++ [prep] |> <| sentPrepare := true |>) as Ec
    by (apply certAt_setCert_eq).
  apply (self_dup prep s1) in E as ->; [|done|].
  2:{ cbn [p_View p_SequenceNumber prep]. rewrite Ec. cbn. rewrite fmap_app. apply elem_of_app.
      right. by left. }
  intros _. apply wlps_ret. split_and!; try done; try (cbn; lia).
  - intros n' d' Hin'. destruct (Hpre n' d' Hin') as (? & pp' & ? & ?). split; [done|].
    exists pp'. split; [|done]. change (prePrepare (certAt s1 (view s) n') = Some pp').
    destruct (decide (n = n')) as [<-|Hne].
    + by rewrite Ec.
    + transitivity (prePrepare (certAt s (view s) n')); [|done]. f_equal.
      by apply certAt_setCert_ne.
  - intros q [Eq|Hq]%own_emitted Hv; rewrite fmap_app; apply elem_of_app.
    + right. injection Eq as <-. by left.
    + left. by apply Hown.
Qed.

Lemma filling_start nv s t :
  inv A s -> activeView s = false -> newViewStore s !! view s = Some nv ->
  filling s nv [] ((s <| activeView := true |>
    <| newViewStore := delete (u64 (view s - 1)) (newViewStore s) |>) <| ticks := t |>).
Proof.
  intros HI Ha Hnv. pose proof (inv_inactive A s HI Ha).
  assert (u64 (view s - 1) <> view s) as Hne.
  { unfold u64. intros E. pose proof (Z.mod_pos_bound (view s - 1) two64 eq_refl).
    rewrite Z.mod_small in E by lia. lia. }
  split_and!; try done.
  - assert (inv A ((s <| newViewStore := delete (u64 (view s - 1)) (newViewStore s) |>)
      <| ticks := t |>)) as H' by (by apply inv_ticks, inv_newViewStore_delete).
    eapply inv_frame; [..|exact H']; done.
  - cbn. by rewrite lookup_delete_ne.
  - intros ? ? []%not_elem_of_nil.
Qed.

Lemma filling_end s0 nv xs s :
  (forall n d, nv_Xset nv !! n = Some d -> (n, d) ∈ xs) -> filling s0 nv xs s ->
  good A s0 s /\ activeView s = true /\ prefilled s xs
  /\ forall p, own s (Message_Prepare p) -> p_View p <> view s.
Proof.
  intros Hxs (HI & Ha & C & Ev & Eh & Hnv & Hpre).
  assert (inv A (s <| activeView := true |>)) as HI1.
  { apply (inv_activate A s nv); [done| |done]. intros n d Hd. by apply (Hpre n d), Hxs. }
  replace (s <| activeView := true |>) with s in HI1 by (destruct s; cbn in Ha; by subst).
  split; [split; [done|lia]|]. split_and!; [done|done|].
  intros p Hown. by apply (inactive_no_prepare _ p HI).
Qed.

Lemma prepareAll_ok nv s0 s t :
  (forall n d, nv_Xset nv !! n = Some d -> 0 <= n <= h_ s0 + L_ s0) ->
  primary s0 (view s0) <> id_ s0 ->
  preparing s0 (ord (order env) t (nv_Xset nv)) [] s ->
  wlps (forM_ (ord (order env) t (nv_Xset nv)) (fun '(n, d) =>
       s ← get;
       let prep := mkPrepare (view s) n d (id_ s) in
       getCert (view s) n ;;
       updCert (view s) n (fun c => c <| prepare := prepare c ++ [prep] |>) ;;
       updCert (view s) n (fun c => c <| sentPrepare := true |>) ;;
       innerBroadcast env self (Message_Prepare prep) true ;;
       mret tt)) (fun _ => good A s0) s.
Proof.
  intros Hx Hpr Hp. set (xs := ord _ _ _) in *.
  apply (wlps_mono _ (fun _ => preparing s0 xs xs)); [|by intros _ s' (Hg & _)].
  apply (wlps_forM_seen xs _ (preparing s0 xs)); [intros []; cbv zeta; r0|done|].
  intros seen [n d] rest s' El Hs'.
  assert ((n, d) ∈ xs) as Hin by (rewrite El; apply elem_of_app; right; by left).
  apply preparing_step; try done.
  - eapply Hx. by apply elem_of_ord in Hin.
  - eapply NoDup_fst_fresh. rewrite <- El. apply ord_NoDup.
Qed.

Lemma prefilled_perm s xs xs' :
  (forall e, e ∈ xs' -> e ∈ xs) -> prefilled s xs -> prefilled s xs'.
Proof. intros He H n d Hin. by apply H, He. Qed.

Lemma processNewView2_ok nv s :
  small s -> inv A s -> activeView s = false -> newViewStore s !! view s = Some nv ->
  (forall n d, nv_Xset nv !! n = Some d -> 0 <= n <= h_ s + L_ s) ->
  wlps (processNewView2 env self nv) (fun _ => good A s) s.
Proof.
  intros Hs HI Ha Hnv Hx. unfold processNewView2. ws. ws. apply wlps_range.
  apply wlps_bind; [intros; r0|].
  set (xs := ord _ _ _).
  apply (wlps_mono _ (fun _ => filling s nv xs)).
  { apply (wlps_forM_seen xs _ (filling s nv)); [intros []; r0|exact (filling_start nv s _ HI Ha Hnv)|].
    intros seen [n d] rest s' El Hs'. apply filling_step; try done.
    - assert ((n, d) ∈ xs) as Hin by (rewrite El; apply elem_of_app; right; by left).
      by apply elem_of_ord in Hin.
    - eapply NoDup_fst_fresh. rewrite <- El. apply ord_NoDup. }
  intros _ s2 Hf. destruct (filling_end s nv xs s2) as (Hg & Ha2 & Hpre & Hno); [|done|].
  { intros n d Hd. by apply elem_of_ord. }
  destruct Hf as (_ & _ & C & Ev & Eh & _ & _).
  ws. apply wlps_step; [done| | | |].
  - r0.
  - intros; cbv beta; r0.
  - intros Hs2. ws; [|apply resubmitRequests_ok; [done|by destruct Hg]].
    apply wlps_range. apply negb_true_iff, Z.eqb_neq in Heqb.
    destruct (cfg_fields _ _ C) as (_ & _ & EL & Ei & Er & _ & _).
    apply prepareAll_ok; [by rewrite <- Eh, <- EL|done|].
    split_and!; try done.
    + split; [by apply inv_ticks; destruct Hg|cbn; lia].
    + eapply prefilled_perm; [|exact Hpre]. unfold xs. intros [n d]. by rewrite !elem_of_ord.
    + intros p Hown Hv. by destruct (Hno p).
  - intros _ s3 _ Hg3. cbv beta. ws. ws. apply wlps_ret.
    destruct Hg3 as (? & ? & ?). split_and!; [by apply inv_emit_quiet|done|done].
Qed.

(** [processNewView] once the selection has been checked. *)
Lemma enterView_ok nv s0 s :
  good A s0 s -> activeView s = false -> newViewStore s !! view s = Some nv ->
  (forall n d, nv_Xset nv !! n = Some d -> 0 <= n <= h_ s + L_ s) ->
  wlps (s ← get;
    let missing := missingAssigned s (nv_Xset nv) in
    let newRequestMissing := existsb (fun d => bool_decide (missingReqs s !! d = None)) missing in
    modify (fun s => s <| missingReqs :=
      foldr (fun d acc => <[d := true]> acc) (missingReqs s) missing |>) ;;
    s ← get;
    if bool_decide (missingReqs s = ∅) then processNewView2 env self nv
    else if newRequestMissing then fetchRequests env self ;; mret None
    else mret None) (fun _ => good A s0) s.
Proof.
  intros Hg Ha Hnv Hx. ws. cbv zeta. ws. ws.
  match goal with |- wlps _ _ ?x => set (s1 := x) end.
  assert (sim s s1) as Hs1 by (unfold sim; auto 20).
  assert (good A s0 s1) as Hg1.
  { eapply good_trans; [exact Hg|]. apply sim_good; [done|by destruct Hg]. }
  ws; [|ws; [|by apply wlps_ret]].
  - apply wlps_good; [done|]. apply wlps_small; [r0|]. intros.
    apply processNewView2_ok; try done. by destruct Hg1.
  - apply wlps_ignore, wlps_good; [done|]. apply wlps_small; [r0|]. intros.
    apply fetchRequests_ok; [done|]. by destruct Hg1.
Qed.

Lemma wlps_call {B C} (m : Mp B) (k : B -> Mp C) Q s :
  wlp m (fun a s' => wlps (k a) Q s') s -> wlps (m ≫= k) Q s.
Proof. intros H. by apply wlp_bind. Qed.

Lemma sameXset (msgList xset : gmap Z string) :
  negb (bool_decide (msgList = ∅) && bool_decide (xset = ∅))
    && negb (bool_decide (msgList = xset)) = false -> msgList = xset.
Proof.
  repeat case_bool_decide; cbn; congruence.
Qed.

Lemma processNewView_ok s :
  small s -> inv A s -> wlps (processNewView env self) (fun _ => good A s) s.
Proof.
  intros Hs HI. unfold processNewView. ws. ws; [|apply wlps_ret; by apply good_refl].
  ws; [apply wlps_ret; by apply good_refl|]. rename n into nv, Heqo into Hnv, Heqb into Ha.
  destruct (inv_newViewStore A s HI _ _ Hnv) as (_ & _ & Hb).
  apply (wlps_select _ _ _ _ (G s)); [done|]. intros cp ok rs Hcp. cbv beta iota.
  set (s1 := s <| ticks := S (ticks s) |>).
  assert (inv A s1) as HI1 by (by apply inv_ticks).
  assert (good A s s1) as Hg1 by (split; [done|cbn; lia]).
  assert (wlps (sendViewChange env self) (fun _ => good A s) s1) as Hleave
    by (by apply wlps_good, sendViewChange_here).
  destruct ok; [|exact Hleave]. cbn [negb]. specialize (Hcp eq_refl). ws.
  destruct Hs as [HL HG]. unfold upTo in Hcp.
  pose proof (assignSequenceNumbers_cases s1 (nv_Vset nv) (vcC_SequenceNumber cp)
    ltac:(lia) HL ltac:(cbn; lia)) as Has.
  ws; [|done]. ws; [|exact Hleave]. ws; [exact Hleave|].
  apply sameXset in Heqb. subst g. destruct Has as (top & Htop & _ & Hdom & _).
  change (L_ s1) with (L_ s) in *.
  assert (forall n d, nv_Xset nv !! n = Some d -> 0 <= n <= vcC_SequenceNumber cp + L_ s) as Hx.
  { intros n d Hd. destruct (proj1 (Hdom n)); [by rewrite Hd|lia]. }
  ws; change (h_ s1) with (h_ s) in *.
  - apply wlps_assoc, wlps_call. eapply wlp_mono; [by apply moveWatermarks_inactive|].
    cbv beta. intros _ s2 Hs2.
    assert (inv A s2) as HI2.
    { eapply sim_inv; [exact Hs2|]. apply inv_watermarked; [|done].
      change (G s1) with (G s). change (h_ s1) with (h_ s). lia. }
    unfold sim, cfg in Hs2. cbn in Hs2. destruct_and!. simplify_eq.
    assert (good A s s2) as Hg2 by (split; [done|lia]).
    ws; [|ws; by apply wlps_ret]. ws. ws. ws. ws.
    apply enterView_ok; try done; cbn; try congruence.
    + split; [|cbn; lia]. apply inv_lastExec_set; [cbn; lia|]. by apply inv_emit_quiet.
    + intros n d Hd. specialize (Hx n d Hd). lia.
  - ws. cbn [negb]. apply enterView_ok; try done. intros n d Hd. specialize (Hx n d Hd). cbn. lia.
Qed.

Lemma sendNewView_ok s :
  small s -> inv A s -> primary s (view s) = id_ s ->
  wlps (sendNewView env self) (fun _ => good A s) s.
Proof.
  intros Hs HI Hpr. unfold sendNewView. ws. ws; [apply wlps_ret; by apply good_refl|].
  unfold getViewChanges. apply wlps_assoc, wlps_range. ws.
  match goal with |- wlps _ _ ?x => set (s1 := x) end.
  match goal with |- context [selectInitialCheckpoint env ?x] => set (vset := x) end.
  assert (Forall (boundedCset (G s)) vset) as Hb.
  { apply Forall_forall. intros vc ([[v j] vc'] & -> & Hin%elem_of_ord)%list_elem_of_fmap.
    by apply (inv_viewChangeStore A s HI) in Hin as [_ ?]. }
  apply (wlps_select _ _ _ _ (G s)); [done|]. intros cp ok rs Hcp. cbv beta iota.
  set (s2 := s1 <| ticks := S (ticks s1) |>).
  assert (sim s s2) as Hs2 by (unfold sim; auto 20).
  pose proof (sim_inv A _ _ Hs2 HI) as HI2.
  assert (good A s s2) as Hg2 by (by apply sim_good).
  ws; [by apply wlps_ret|]. ws. ws; [|done]. ws; [|by apply wlps_ret].
  apply wlps_bind; [intros []; r0|]. apply wlps_bcast; [by apply (inv_byz s)|]. cbn zeta iota.
  set (nv := mkNewView _ _ _ _). ws.
  match goal with |- wlps _ _ ?x => set (s3 := x) end.
  assert (inv A s3) as HI3.
  { by apply (inv_newView_sent A (s2 <| ticks := S (ticks s2) |>) nv); [..|apply inv_ticks]. }
  apply wlps_good; [split; [done|cbn; lia]|]. apply wlps_small; [r0|]. intros.
  by apply processNewView_ok.
Qed.

Lemma minView_higher s :
  (forall v j vc, viewChangeStore s !! (v, j) = Some vc -> upTo (G s) v) ->
  0 <= view s -> higherViews s <> [] ->
  view s < minView (higherViews s) <= G s.
Proof.
  intros Hb Hv Hne.
  assert (forall l m, Forall (fun '((v, _) : vcidx) => view s < v <= G s) l ->
    m = 0 \/ view s < m <= G s -> l <> [] \/ m <> 0 ->
    view s < foldl (fun m '((v, _) : vcidx) => if (m =? 0) || (v <? m) then v else m) m l <= G s)
    as H.
  { induction l as [|[v j] l IH]; intros m Hl Hm Hor; cbn [foldl].
    - destruct Hor; [done|]. destruct Hm; [done|lia].
    - apply Forall_cons in Hl as [Hvj Hl]. apply IH; [done|..].
      + destruct (Z.eqb_spec m 0); cbn; [by right|]. destruct (v <? m); [by right|].
        destruct Hm; [done|by right].
      + right. destruct (Z.eqb_spec m 0); cbn; [lia|]. destruct (v <? m); lia. }
  apply H; [|by left|by left]. apply Forall_forall. intros [v j] [Hin Hgt]%list_elem_of_In%filter_In.
  apply list_elem_of_In, list_elem_of_fmap in Hin as ([[v' j'] vc] & [= <- <-] & Hin%elem_of_map_to_list).
  apply Hb in Hin as [? ?]. lia.
Qed.

Lemma recvViewChange_ok vc s :
  small s -> inv A s -> msgOK s (vc_ReplicaId vc) (Message_ViewChange vc) ->
  wlps (recvViewChange env self vc) (fun _ => good A s) s.
Proof.
  intros Hs HI (_ & Hr & [Hb1 Hb2]). unfold recvViewChange.
  ws; [apply wlps_ret; by apply good_refl|]. ws. ws; [apply wlps_ret; by apply good_refl|].
  ws. match goal with |- wlps _ _ ?x => set (s1 := x) end.
  assert (inv A s1) as HI1 by (by apply inv_viewChangeStore_set).
  assert (good A s s1) as Hg1 by (split; [done|cbn; lia]).
  ws. apply wlps_good; [done|]. apply wlps_small; [r0|]. intros Hs1. ws.
  - ws. pose proof (inv_view A s1 HI1) as [Hv _].
    destruct (minView_higher s1) as [Hm1 Hm2]; [|done| |].
    { intros v j x Hx. by apply (inv_viewChangeStore A s1 HI1) in Hx as [? _]. }
    { intros E. rewrite E in Heqb0. cbn in Heqb0. pose proof (inv_cfg A s HI) as (_ & ? & _).
      rewrite size_empty in Heqb0. apply Z.geb_le in Heqb0. cbn in Heqb0. lia. }
    destruct Hs1. rewrite u64_small by (unfold is_u64; lia).
    apply sendViewChange_ok; [by split|done|lia].
  - ws; [|by apply processNewView_ok].
    apply wlps_sim; [apply startTimer_sim|]. intros _ s2 Hs2. ws.
    match goal with |- wlps _ _ ?x => set (s3 := x) end.
    assert (sim s1 s3) as Hs3.
    { transitivity s2; [done|]. unfold sim. auto 20. }
    pose proof (sim_inv A _ _ Hs3 HI1) as HI3. clearbody s3. ws.
    apply wlps_good; [by apply sim_good|]. apply wlps_small; [r0|]. intros.
    ws; [|by apply processNewView_ok]. apply sendNewView_ok; [done|done|lia].
Qed.

Lemma recvNewView_ok nv s :
  small s -> inv A s -> msgOK s (nv_ReplicaId nv) (Message_NewView nv) ->
  wlps (recvNewView env self nv) (fun _ => good A s) s.
Proof.
  intros Hs HI (Hau & Hr & Hb). unfold recvNewView. ws.
  do 2 (ws; [apply wlps_ret; by apply good_refl|]).
  apply negb_false_iff, andb_true_iff in Heqb as [[_ Hpr]%andb_true_iff Hnew].
  apply bool_decide_eq_true in Hnew. apply Z.eqb_eq in Hpr. ws.
  match goal with |- wlps _ _ ?x => set (s1 := x) end.
  assert (inv A s1) as HI1 by (apply inv_newViewStore_set; [done|by rewrite Hpr|done|done]).
  apply wlps_good; [split; [done|cbn; lia]|]. apply wlps_small; [r0|]. intros.
  by apply processNewView_ok.
Qed.

(** Like [wlps_step], remembering that the configuration stays. *)
Lemma wlps_step_R0 {B C} (m : Mp B) (k : B -> Mp C) s0 s :
  good A s0 s -> guar R0 m -> (forall b, guar R0 (k b)) ->
  (small s -> wlps m (fun _ => good A s) s) ->
  (forall b s', small s' -> good A s0 s' -> R0 s s' -> wlps (k b) (fun _ => good A s0) s') ->
  wlps (m ≫= k) (fun _ => good A s0) s.
Proof.
  intros Hg Hm Hk H1 H2. apply wlps_bind; [done|]. apply wlps_small; [done|]. intros Hs.
  eapply wlp_mono; [apply (guar_wlp R0); [done|by apply H1]|]. cbn.
  intros b s' [Hg' HR] Hs'. apply H2; [done|eapply good_trans; [done|by apply Hg']|done].
Qed.

Lemma weakBelowQuorum s : inv A s -> f_ s + 1 < intersectionQuorum s.
Proof.
  intros HI. pose proof (inv_cfg A s HI) as (_ & ? & ? & _ & _ & _ & ?).
  pose proof (intersectionQuorum_bounds s ltac:(lia)). lia.
Qed.

Lemma R0_bounds s s' : small s' -> R0 s s' ->
  G s <= G s' /\ f_ s = f_ s' /\ intersectionQuorum s = intersectionQuorum s'.
Proof.
  intros [HL _] [C O]. apply cfg_fields in C as (EN & Ef & EL & _).
  split_and!; [apply G_mono; [lia|done|done]|done|]. unfold intersectionQuorum. congruence.
Qed.

Lemma recvCheckpoint_ok ck s :
  small s -> inv A s -> msgOK s (ck_ReplicaId ck) (Message_Checkpoint ck) ->
  wlps (recvCheckpoint env self ck) (fun _ => good A s) s.
Proof.
  intros Hs HI (_ & Hr & Hb). cbn in Hb. unfold recvCheckpoint.
  apply wlps_step_R0; [by apply good_refl|r0|intros; cbv beta; r0| |].
  { intros. by apply weakCheckpointSetOutOfRange_ok. }
  intros b s1 Hs1 Hg1 HR1. cbv beta. destruct (R0_bounds _ _ Hs1 HR1) as (HG1 & _ & _).
  pose proof (proj1 Hg1) as HI1. unfold upTo in Hb.
  destruct b; [by apply wlps_ret|]. ws. ws; [by apply wlps_ret|]. apply negb_false_iff in Heqb.
  apply (inW_range A) in Heqb as [Hh1 Hh2]; [|done|done|destruct Hs1; unfold is_u64; lia].
  ws. match goal with |- wlps _ _ ?x => set (s2 := x) end.
  assert (inv A s2) as HI2.
  { apply inv_checkpointStore_set; [|done].
    intros c x [[<- _]|[_ Hx]]%lookup_insert_Some; [unfold upTo; lia|].
    by eapply (inv_checkpointStore A s1). }
  assert (good A s s2) as Hg2.
  { eapply good_trans; [exact Hg1|]. split; [done|cbn; lia]. }
  ws. cbv zeta. set (matching := countb _ _). pose proof (weakBelowQuorum s2 HI2) as Hq. ws.
  - apply wlps_step_R0; [done|r0|intros; cbv beta; r0| |].
    { intros. apply witnessCheckpointWeakCert_ok; [done|done|].
      change (G s2) with (G s1). change (h_ s2) with (h_ s1). lia. }
    intros _ s3 Hs3 Hg3 HR3. cbv beta. destruct (R0_bounds _ _ Hs3 HR3) as (_ & Ef & Eq).
    ws. ws; [by apply wlps_ret|]. rewrite <- Eq in Heqb0. lia.
  - ws. ws. ws; [by apply wlps_ret|]. ws; [by apply wlps_ret|].
    apply wlps_step; [done|r0|intros; cbv beta; r0| |].
    + intros Hsm. apply wlps_mono with (Q := fun _ s' => good A s2 s' /\ ck_SequenceNumber ck <= h_ s');
        [|by intros ? ? [? _]].
      apply moveWatermarks_good; [done|done|].
      change (G s2) with (G s1). change (h_ s2) with (h_ s1). lia.
    + intros _ s3 Hs3 Hg3. cbv beta. apply wlps_good; [done|].
      apply processNewView_ok; [done|by destruct Hg3].
Qed.

Lemma recvFetchRequest_ok fr s :
  small s -> inv A s -> wlps (recvFetchRequest env fr) (fun _ => good A s) s.
Proof.
  intros Hs HI. unfold recvFetchRequest. ws. ws; [|apply wlps_ret; by apply good_refl].
  ws; [apply wlps_ret; by apply good_refl|]. ws. apply wlps_ret.
  split; [by apply inv_emit_quiet|cbn; lia].
Qed.

Lemma recvReturnRequest_ok req s :
  small s -> inv A s -> wlps (recvReturnRequest env self req) (fun _ => good A s) s.
Proof.
  intros Hs HI. unfold recvReturnRequest. ws. ws; [|apply wlps_ret; by apply good_refl].
  ws. ws. match goal with |- wlps _ _ ?x => set (s1 := x) end.
  assert (sim s s1) as Hs1 by (unfold sim; auto 20).
  apply wlps_good; [by apply sim_good|]. apply wlps_small; [r0|]. intros.
  apply processNewView_ok; [done|by apply (sim_inv A s)].
Qed.

(** Every message a replica dispatches keeps the invariant. *)
Lemma dispatch_ok fuel m j s :
  small s -> inv A s -> msgOK s j m -> wlps (dispatch env self fuel m j) (fun _ => good A s) s.
Proof.
  intros Hs HI Hm. destruct m; cbn [dispatch];
    try (ws; [apply wlps_ret; by apply good_refl|];
         apply negb_false_iff, Z.eqb_eq in Heqb; subst j).
  - by apply recvRequest_ok.
  - by apply recvPrePrepare_ok.
  - by apply recvPrepare_ok.
  - by apply recvCommit_ok.
  - by apply recvCheckpoint_ok.
  - by apply recvViewChange_ok.
  - by apply recvNewView_ok.
  - by apply recvFetchRequest_ok.
  - by apply recvReturnRequest_ok.
  - apply wlps_ret. by apply good_refl.
Qed.

End handlers.

(** * The message loop *)

Section loop.
Context (env : surroundings) (A : Z -> Message -> Prop).
Context (marshal_ok : forall m, marshal_Message env m = true).

(** A prepare that is already in its certificate is dropped. *)
Lemma recvPrepare_dup self p s (a : result) s' :
  p_ReplicaId p ∈ p_ReplicaId <$> prepare (certAt s (p_View p) (p_SequenceNumber p)) ->
  recvPrepare env self p s = Done a s' -> s' = s.
Proof.
  intros Hin. unfold recvPrepare, certAt, getCert in *.
  cbv [mbind M_bind get mret M_ret gets modify].
  destruct (_ =? _); [by intros [= _ <-]|]. destruct (negb _); [by intros [= _ <-]|].
  destruct (certStore s !! _) as [c|] eqn:Ec; cbn in Hin; [|by apply elem_of_nil in Hin].
  destruct (existsb _ (prepare c)) eqn:Ee; [by intros [= _ <-]|].
  apply not_true_iff_false in Ee. destruct Ee. apply existsb_exists.
  apply list_elem_of_fmap in Hin as (q & E & Hq). exists q. rewrite <- list_elem_of_In.
  split; [done|lia].
Qed.

Lemma recvMsgSync_dup fuel p s (a : result) s' :
  p_ReplicaId p = id_ s ->
  p_ReplicaId p ∈ p_ReplicaId <$> prepare (certAt s (p_View p) (p_SequenceNumber p)) ->
  recvMsgSync env fuel (Message_Prepare p) (id_ s) s = Done a s' -> s' = s.
Proof.
  intros Hid Hin. destruct fuel as [|fuel]; [done|]. cbn [recvMsgSync dispatch].
  rewrite Hid, Z.eqb_refl. cbn [negb]. by apply recvPrepare_dup.
Qed.

(** The message loop keeps the invariant, with whatever fuel. *)
Lemma recvMsgSync_ok fuel m j s :
  small s -> inv A s -> msgOK A s j m ->
  wlps (recvMsgSync env fuel m j) (fun _ => good A s) s.
Proof.
  revert m j s. induction fuel as [|fuel IH]; intros m j s Hs HI Hm; cbn [recvMsgSync]; [done|].
  apply dispatch_ok; try done.
  - intros. apply recvMsgSync_R0.
  - intros. by eapply recvMsgSync_dup.
Qed.

(** So does every event of the replica: a message, a checkpoint of the executor
    or the timer. *)
Lemma runLockEvent_inv fuel e s :
  small s -> inv A s -> lockEventOK A s e ->
  wlps (runLockEvent env (recvMsgSync env fuel) e) (fun _ => good A s) s.
Proof.
  intros. apply runLockEvent_ok; try done.
  - intros. apply recvMsgSync_R0.
  - intros. by apply recvMsgSync_ok.
Qed.

Lemma request_inv fuel payload s :
  small s -> inv A s ->
  wlps (request env fuel payload (id_ s)) (fun _ => good A s) s.
Proof.
  intros Hs HI. unfold request. apply wlps_ignore, recvMsgSync_ok; [done|done|].
  split_and!; [done|apply (inv_cfg A s HI)..|done].
Qed.

End loop.
