(* ===== verification/PbftTheorems.v ===== *)
(** Theorems about single operations of the PBFT engine: quorums and windows,
    the selection of a new view's start, execution, checkpoints, signatures and
    the timer, and the places where the code departs from its comments. *)
From stdpp Require Import base gmap sets list strings.
From Stdlib Require Import ZArith Lia.
From S2P Require Import Prelude GoStd PbftTypes PbftCore PbftToy PbftInv PbftSelect PbftSym PbftPreserve.

(** * The view timer *)

(** The two counters agree but for an expiry that has not been reset since:
    [timerResetCount] is one ahead unless the timer is active and not running. *)
Definition timerSync (s : pbftCore) : Prop :=
  0 <= timerExpiredCount s /\ timerExpiredCount s + 2 < two64 /\
  timerResetCount s = timerExpiredCount s
    + (if negb (timerRunning s) && timerActive s then 0 else 1).

(** What happens to the timer: it is armed, disarmed, or it fires. *)
Inductive timerOp := timer_start (t : Z) | timer_stop | timer_fire.

Definition runTimerOp (o : timerOp) : Mp unit :=
  match o with
  | timer_start t => startTimer t
  | timer_stop => stopTimer
  | timer_fire => s ← get; when (timerRunning s) timerExpired
  end.

Fixpoint runTimerOps (os : list timerOp) : Mp unit :=
  match os with
  | [] => mret tt
  | o :: rest => runTimerOp o ;; runTimerOps rest
  end.

(** A running timer is active. *)
Definition timerShape (s : pbftCore) : Prop := timerRunning s = true -> timerActive s = true.

Lemma runTimerOp_sync o s :
  timerSync s -> timerShape s -> timerExpiredCount s + 3 < two64 ->
  exists s', runTimerOp o s = Done tt s' /\ timerSync s' /\ timerShape s'
    /\ timerExpiredCount s' <= timerExpiredCount s + 1.
Proof.
  intros (H0 & H1 & H2) Hsh Hlt. unfold timerSync, timerShape in *.
  assert (u64 (timerExpiredCount s + 1) = timerExpiredCount s + 1) as E
    by (apply u64_small; unfold is_u64; lia).
  destruct o; cbn [runTimerOp];
    cbv [startTimer stopTimer timerExpired mbind M_bind get modify mret M_ret when];
    destruct (timerRunning s) eqn:Er, (timerActive s) eqn:Ea; cbn in *;
    try (specialize (Hsh eq_refl); congruence);
    eexists; (split; [reflexivity|]); cbn; rewrite ?H2, ?Z.add_0_r, ?E, ?Er, ?Ea; cbn;
    split_and!; try done; try lia.
Qed.

(** The timer as its users think of it: whether it is armed, and whether it has
    fired without being started or stopped since. *)
Definition timerSpec (st : bool * bool) (o : timerOp) : bool * bool :=
  match o with
  | timer_start _ => (true, false)
  | timer_stop => (false, false)
  | timer_fire => if fst st then (false, true) else st
  end.

Definition timerView (s : pbftCore) : bool * bool :=
  (timerRunning s, negb (timerRunning s) && timerActive s).

Lemma runTimerOp_spec o s s' :
  timerShape s -> runTimerOp o s = Done tt s' -> timerView s' = timerSpec (timerView s) o.
Proof.
  unfold timerShape, timerView. intros Hsh. destruct o; cbn [runTimerOp];
    cbv [startTimer stopTimer timerExpired mbind M_bind get modify mret M_ret when];
    destruct (timerRunning s) eqn:Er, (timerActive s) eqn:Ea;
    try (specialize (Hsh eq_refl); congruence);
    intros [= <-]; cbn; by rewrite ?Er, ?Ea.
Qed.

Lemma runTimerOps_spec os s :
  timerSync s -> timerShape s -> timerExpiredCount s + Z.of_nat (length os) + 2 < two64 ->
  exists s', runTimerOps os s = Done tt s' /\ timerSync s'
    /\ timerView s' = foldl timerSpec (timerView s) os.
Proof.
  revert s. induction os as [|o os IH]; intros s Hs Hsh Hlen; cbn [runTimerOps foldl length] in *.
  - eauto.
  - destruct (runTimerOp_sync o s) as (s1 & E1 & Hs1 & Hsh1 & Hc1); [done|done|lia|].
    destruct (IH s1) as (s2 & E2 & Hs2 & Ev); [done|done|lia|].
    exists s2. cbv [mbind M_bind]. rewrite E1. split_and!; [done|done|].
    rewrite Ev. f_equal. by apply runTimerOp_spec.
Qed.



(** * Windows *)

(**  The window test with its wrapping subtraction: when the high watermark does not
    wrap, [inW] accepts exactly the sequence numbers above the low watermark and
    up to the high one. *)
Theorem inW_spec s n :
  is_u64 n -> is_u64 (h_ s) -> 0 <= L_ s -> h_ s + L_ s < two64 ->
  inW s n = true <-> h_ s < n <= h_ s + L_ s.
Proof.
  unfold is_u64, inW, u64. intros Hn Hh HL Hw. rewrite andb_true_iff, Z.gtb_lt, Z.leb_le.
  destruct (decide (n < h_ s)).
  - rewrite <- (Z_mod_plus_full _ 1), Z.mod_small by lia. lia.
  - rewrite Z.mod_small by lia. lia.
Qed.

Lemma inW_spec_witness : inW (toyNode 0) 20 = true <-> h_ (toyNode 0) < 20 <= h_ (toyNode 0) + L_ (toyNode 0).
Proof.
  exact (inW_spec (toyNode 0) 20 ltac:(vm_compute; split; congruence)
    ltac:(vm_compute; split; congruence) ltac:(vm_compute; congruence) eq_refl).
Defined.

(** * Execution *)

(** The digest that [executeOne] would execute for a certificate, if any. *)
Definition executable (s : pbftCore) (idx : msgID) : option string :=
  let '(v, n) := idx in
  cert ← certStore s !! idx;
  pp ← prePrepare cert;
  if (n =? u64 (lastExec s + 1)) && negb (skipInProgress s)
     && committed s (pp_RequestDigest pp) v n
  then Some (pp_RequestDigest pp) else None.

(** The call it makes for number [n]: the null request is only executed on a
    checkpoint boundary. *)
Definition execCalls (s : pbftCore) (n : Z) (d : string) : list consumerCall :=
  if bool_decide (d = "") then
    if n mod K_ s =? 0 then [call_execute n None (mkExecutionInfo true false true)] else []
  else [call_execute n (req_Payload <$> reqStore s !! d)
          (mkExecutionInfo (n mod K_ s =? 0) false false)].

(** What execution leaves alone. *)
Definition execFrame (s s' : pbftCore) : Prop :=
  certStore s' = certStore s /\ reqStore s' = reqStore s /\ pset s' = pset s
  /\ qset s' = qset s /\ view s' = view s /\ cfg s' = cfg s
  /\ skipInProgress s' = skipInProgress s /\ schedule s' = schedule s /\ h_ s' = h_ s.

Lemma committed_stored s d v n :
  committed s d v n = true -> d <> "" -> is_Some (reqStore s !! d).
Proof.
  unfold committed, prepared, prePrepared. intros H Hd.
  destruct (reqStore s !! d); [eauto|].
  rewrite bool_decide_eq_false_2, bool_decide_eq_true_2 in H by done. done.
Qed.

Lemma committed_frame s s' d v n :
  execFrame s s' -> committed s' d v n = committed s d v n.
Proof.
  intros (E1 & E2 & E3 & E4 & E5 & C & _). apply cfg_fields in C as (EN & Ef & _).
  unfold committed, prepared, prePrepared, intersectionQuorum.
  by rewrite E1, E2, E3, E4, EN, Ef.
Qed.

Lemma executable_frame s s' idx :
  execFrame s s' -> lastExec s' = lastExec s -> executable s' idx = executable s idx.
Proof.
  intros HF El. destruct idx as [v n]. unfold executable. rewrite El.
  pose proof HF as (E1 & _ & _ & _ & _ & _ & E7 & _). rewrite E1, E7.
  destruct (certStore s !! (v, n)) as [c|]; [|done]. cbn.
  destruct (prePrepare c) as [pp|]; [|done]. cbn. by rewrite (committed_frame s s').
Qed.

(** What one execution does. *)
Definition executed (s : pbftCore) (n : Z) (d : string) (s' : pbftCore) : Prop :=
  execFrame s s' /\ lastExec s' = n /\ out s' = execCalls s n d ++ out s.

(** Nothing but the timers, the outstanding requests and the iteration counter
    changes. *)
Definition execQuiet (s s' : pbftCore) : Prop :=
  execFrame s s' /\ lastExec s' = lastExec s /\ out s' = out s.

#[local] Instance execQuiet_preorder : PreOrder execQuiet.
Proof.
  split.
  - intros s. unfold execQuiet, execFrame. auto 20.
  - unfold execQuiet, execFrame. intros x y z H1 H2. destruct_and!. split_and!; congruence.
Qed.

Lemma executed_quiet s n d s1 s2 : executed s n d s1 -> execQuiet s1 s2 -> executed s n d s2.
Proof.
  unfold executed, execQuiet, execFrame. intros; destruct_and!. split_and!; congruence.
Qed.

Lemma startTimer_run t s : exists s', startTimer t s = Done tt s' /\ execQuiet s s'.
Proof.
  unfold startTimer. cbv [mbind M_bind get modify when mret M_ret].
  destruct (_ && _); (eexists; split; [reflexivity|]); unfold execQuiet, execFrame; auto 20.
Qed.

Lemma stopTimer_run s : exists s', stopTimer s = Done tt s' /\ execQuiet s s'.
Proof.
  unfold stopTimer. cbv [mbind M_bind get modify when mret M_ret].
  destruct (_ && _); (eexists; split; [reflexivity|]); unfold execQuiet, execFrame; auto 20.
Qed.

Lemma executeUnlocked_run env self n tx info s :
  schedule s = [] ->
  executeUnlocked env self n tx info s = Done tt (emitted (call_execute n tx info) s).
Proof. intros H. cbv [executeUnlocked emit mbind M_bind get modify emitted]. cbn. by rewrite H. Qed.

(** The end of [executeOne]: the timer runs on while requests are outstanding. *)
Lemma executeOne_tail s0 n d s :
  executed s0 n d s ->
  twp (s ← get;
    when (negb (bool_decide (outstandingReqs s = ∅))) (startTimer (requestTimeout s)) ;;
    mret true) (fun b s' => b = true /\ executed s0 n d s') s.
Proof.
  intros He. do 2 twp_step. twp_step. destruct (negb _); cbn [when].
  - destruct (startTimer_run (requestTimeout s) s) as (s1 & E & Hq).
    unfold twp at 1. rewrite E. twp_step. split; [done|]. by eapply executed_quiet.
  - twp_step. by twp_step.
Qed.

(** One execution with the lock kept by nobody else: it happens exactly for an
    executable certificate, and then makes its one call. *)
Lemma executeOne_cases env self v n s :
  K_ s <> 0 -> schedule s = [] ->
  twp (executeOne env self (v, n)) (fun b s' =>
    match executable s (v, n) with
    | None => b = false /\ s' = s
    | Some d => b = true /\ executed s n d s'
    end) s.
Proof.
  intros HK Hsch. unfold executable, executeOne. twp_step. twp_step.
  destruct (certStore s !! (v, n)) as [c|]; [|done]. cbn [mbind option_bind].
  destruct (prePrepare c) as [pp|] eqn:Ep; [|by destruct (negb _)]. cbn [mbind option_bind].
  destruct (n =? u64 (lastExec s + 1)); [|done].
  destruct (skipInProgress s) eqn:Esk; [done|].
  destruct (committed s (pp_RequestDigest pp) v n) eqn:Ec; [|done]. cbn [negb andb].
  twp_step. twp_step. twp_step.
  destruct (stopTimer_run (s <| lastExec := n |>)) as (s1 & E1 & Hq1).
  unfold twp at 1. rewrite E1. twp_step. twp_step. clear E1.
  set (s2 := s1 <| lastNewViewTimeout := newViewTimeout s1 |>).
  assert (execFrame s s2 /\ lastExec s2 = n /\ out s2 = out s) as (HF & El & Eo).
  { unfold execQuiet, execFrame, cfg in *. cbn in *. destruct_and!. split_and!; congruence. }
  assert (schedule s2 = []) as Hs2 by (unfold execFrame in HF; destruct_and!; congruence).
  clearbody s2. clear Hq1 s1.
  twp_step. destruct (Z.eqb_spec (K_ s) 0) as [|_]; [done|].
  case_bool_decide as Hd.
  - destruct (n mod K_ s =? 0) eqn:Em; cbn [when].
    + unfold twp at 1. rewrite executeUnlocked_run by done. apply executeOne_tail.
      split_and!; [exact HF|done|]. unfold execCalls. rewrite bool_decide_eq_true_2, Em by done.
      cbn. by rewrite Eo.
    + twp_step. apply executeOne_tail. split_and!; [exact HF|done|].
      unfold execCalls. by rewrite bool_decide_eq_true_2, Em by done.
  - destruct (committed_stored _ _ _ _ Ec Hd) as [r Er]. rewrite Er. twp_step. twp_step.
    unfold twp at 1. rewrite executeUnlocked_run by done. apply executeOne_tail.
    split_and!; [exact HF|done|]. unfold execCalls. rewrite bool_decide_eq_false_2, Er by done.
    cbn. by rewrite Eo.
Qed.

Lemma executeFirst_cases env self idxs s :
  K_ s <> 0 -> schedule s = [] ->
  twp (executeFirst env self idxs) (fun b s' =>
    if b then exists v n d, (v, n) ∈ idxs /\ executable s (v, n) = Some d /\ executed s n d s'
    else s' = s /\ forall idx, idx ∈ idxs -> executable s idx = None) s.
Proof.
  intros HK Hs. induction idxs as [|[v n] idxs IH]; cbn [executeFirst].
  - split; [done|]. by intros ? ?%not_elem_of_nil.
  - twp_step. eapply twp_mono; [by apply executeOne_cases|]. cbv beta. intros b s' H.
    destruct (executable s (v, n)) as [d|] eqn:E.
    + destruct H as [-> He]. twp_step. exists v, n, d. split_and!; [by left|done|done].
    + destruct H as [-> ->]. eapply twp_mono; [exact IH|]. cbv beta. intros b s' H. destruct b.
      * destruct H as (v' & n' & d & ? & ? & ?). exists v', n', d. split_and!; [by right|done|done].
      * destruct H as [-> H]. split; [done|]. intros idx [->|?]%elem_of_cons; auto.
Qed.

(** How many certificates may still be executed. *)
Definition pending (s : pbftCore) : Z :=
  countb (fun '((_, n, _) : msgID * msgCert) => lastExec s <? n) (map_to_list (certStore s)).

(** The calls for the consecutive numbers after [m], latest first. *)
Fixpoint executedCalls (s : pbftCore) (m : Z) (ds : list string) : list consumerCall :=
  match ds with
  | [] => []
  | d :: ds' => executedCalls s (m + 1) ds' ++ execCalls s (m + 1) d
  end.

Lemma executedCalls_frame s s' m ds :
  execFrame s s' -> executedCalls s' m ds = executedCalls s m ds.
Proof.
  intros (_ & E2 & _ & _ & _ & C & _). apply cfg_fields in C as (_ & _ & _ & _ & _ & _ & EK).
  revert m. induction ds as [|d ds IH]; intros m; cbn; [done|].
  rewrite IH. unfold execCalls. by rewrite E2, EK.
Qed.

Lemma executable_inv s v n d : executable s (v, n) = Some d ->
  is_Some (certStore s !! (v, n)) /\ n = u64 (lastExec s + 1).
Proof.
  unfold executable. destruct (certStore s !! (v, n)) as [c|]; [|done]. cbn.
  destruct (prePrepare c); [|done]. cbn.
  destruct (Z.eqb_spec n (u64 (lastExec s + 1))); [eauto|done].
Qed.

Lemma executed_pending s n d s' c v :
  certStore s !! (v, n) = Some c -> lastExec s < n -> executed s n d s' ->
  pending s' < pending s.
Proof.
  intros Hc Hn ((Ec & _) & El & _). unfold pending. rewrite Ec, El.
  apply (countb_strict _ _ _ (v, n, c)).
  - intros [[v' n'] c'] _. lia.
  - by apply elem_of_map_to_list.
  - lia.
  - lia.
Qed.

Lemma execFrame_trans s1 s2 s3 : execFrame s1 s2 -> execFrame s2 s3 -> execFrame s1 s3.
Proof. unfold execFrame. intros; destruct_and!. split_and!; congruence. Qed.

(** The numbers of the certificates leave room for one more. *)
Definition certsBounded (s : pbftCore) : Prop :=
  0 <= lastExec s /\ lastExec s + 1 < two64 /\
  forall v n c, certStore s !! (v, n) = Some c -> n + 1 < two64.


(** Replica 1 of the toy network, with a request that is ready to execute. *)
Definition toyOrdered : pbftCore :=
  after (recvMsgSync toyEnv 9 (Message_PrePrepare (mkPrePrepare 0 1 toyDigest (Some toyRequest) 0)) 0 ;;
         recvMsgSync toyEnv 9 (Message_Prepare (mkPrepare 0 1 toyDigest 2)) 2 ;;
         recvMsgSync toyEnv 9 (Message_Commit (mkCommit 0 1 toyDigest 2)) 2) (toyNode 1).
Definition toyReady : pbftCore :=
  setCert 0 1 ((certAt toyOrdered 0 1)
    <| commit := commit (certAt toyOrdered 0 1) ++ [mkCommit 0 1 toyDigest 0] |>) toyOrdered.

Lemma toyReady_certs :
  map_to_list (certStore toyReady) = [((0, 1), certAt toyReady 0 1)].
Proof. vm_compute. reflexivity. Qed.

Lemma toyReady_bounded : certsBounded toyReady.
Proof.
  split_and!; [vm_compute; congruence|vm_compute; reflexivity|].
  intros v n c Hc%elem_of_map_to_list. rewrite toyReady_certs in Hc.
  apply list_elem_of_singleton in Hc. simplify_eq. done.
Qed.

