(* ===== verification/PbftViewChange.v ===== *)
(** Theorems about the view change: what a replica reports when it leaves a
    view, how the start of the next view is selected from such reports, and
    signatures of view-change messages. *)
From stdpp Require Import base gmap sets list strings.
From Stdlib Require Import ZArith Lia.
From S2P Require Import Prelude GoStd PbftTypes PbftCore PbftToy PbftInv PbftSelect PbftSym PbftPreserve.

(** * Selecting the initial checkpoint *)

(** The messages that claim a checkpoint, each as often as it does. *)
Definition claimants (vset : list ViewChange) (c : ViewChange_C) : list ViewChange :=
  vc ← vset; replicate (claims c vc) vc.

(** More than [f] claims, a quorum of them from replicas that still keep it. *)
Definition supported (s : pbftCore) (vset : list ViewChange) (c : ViewChange_C) : bool :=
  (f_ s <? Z.of_nat (length (claimants vset c)))
  && (intersectionQuorum s
        <=? countb (fun vc => vc_H vc <=? vcC_SequenceNumber c) (claimants vset c)).

Lemma gather_claimants vset c vcs :
  gatherCheckpoints vset !! c = Some vcs -> vcs = claimants vset c.
Proof. intros E. pose proof (gather_lookup vset c) as H. by rewrite E in H. Qed.

Lemma eligible_supported s vset c vcs :
  gatherCheckpoints vset !! c = Some vcs -> eligible s (c, vcs) = supported s vset c.
Proof.
  intros E. rewrite (gather_claimants _ _ _ E). unfold eligible, supported. cbn [fst snd].
  f_equal; [destruct (Z.leb_spec (Z.of_nat (length (claimants vset c))) (f_ s))
    |destruct (Z.ltb_spec (countb (fun vc => vc_H vc <=? vcC_SequenceNumber c) (claimants vset c))
       (intersectionQuorum s))]; cbn; lia.
Qed.

Lemma supported_gathered s vset c : 0 <= f_ s -> supported s vset c = true ->
  gatherCheckpoints vset !! c = Some (claimants vset c).
Proof.
  intros Hf [H _]%andb_true_iff. destruct (gatherCheckpoints vset !! c) as [vcs|] eqn:E.
  - by rewrite (gather_claimants _ _ _ E).
  - assert (claimants vset c = []) as EG.
    { transitivity (default [] (gatherCheckpoints vset !! c)); [|by rewrite E].
      symmetry. apply gather_lookup. }
    rewrite EG in H. apply Z.ltb_lt in H. cbn in H. lia.
Qed.

(** C27.  Whatever order the map is visited in, [selectInitialCheckpoint] finds a supported
    checkpoint if the view-change messages hold one, and then one with the highest
    sequence number. *)
Theorem selectInitialCheckpoint_spec env s vset :
  0 <= f_ s -> nonnegClaims vset ->
  exists cp ok rs,
    selectInitialCheckpoint env vset s = Done (cp, ok, rs) (s <| ticks := S (ticks s) |>)
    /\ (ok = true <-> exists c, supported s vset c = true)
    /\ (ok = true -> supported s vset cp = true /\
          forall c, supported s vset c = true ->
            vcC_SequenceNumber c <= vcC_SequenceNumber cp).
Proof.
  intros Hf Hpos. destruct (selectInitialCheckpoint_run env s vset Hpos) as (cp & ok & rs & E & Hsel).
  exists cp, ok, rs. split; [done|]. unfold selected in Hsel. destruct ok.
  - destruct Hsel as [(vcs & Hin%elem_of_map_to_list & Hel) Hmax].
    rewrite (eligible_supported _ _ _ _ Hin) in Hel. split; [split; eauto|]. intros _. split; [done|].
    intros c Hc. pose proof (supported_gathered s vset c Hf Hc) as Hg.
    apply (Hmax (c, claimants vset c)); [by apply elem_of_map_to_list|].
    by rewrite (eligible_supported _ _ _ _ Hg).
  - split; [|done]. split; [done|]. intros [c Hc]. destruct Hsel as [_ Hno].
    pose proof (supported_gathered s vset c Hf Hc) as Hg.
    rewrite <- (eligible_supported _ _ _ _ Hg) in Hc.
    rewrite Hno in Hc; [done|]. by apply elem_of_map_to_list.
Qed.

(** Three view-change messages of the toy network: all keep the checkpoint 0,
    two have a later one. *)
Definition toyVset : list ViewChange := [
  mkViewChange 1 0 [mkViewChange_C 0 "XA=="] [mkViewChange_PQ 1 "d" 0] [mkViewChange_PQ 1 "d" 0] 0 [];
  mkViewChange 1 0 [mkViewChange_C 0 "XA=="; mkViewChange_C 10 "XB=="]
    [mkViewChange_PQ 1 "d" 0] [mkViewChange_PQ 1 "d" 0] 1 [];
  mkViewChange 1 0 [mkViewChange_C 0 "XA=="; mkViewChange_C 10 "XB=="] [] [mkViewChange_PQ 1 "d" 0] 2 []
].

Lemma toyVset_nonneg : nonnegClaims toyVset.
Proof.
  apply (nonneg_bounded 10). repeat constructor; cbn; lia.
Qed.

Lemma selectInitialCheckpoint_spec_witness :
  exists cp ok rs,
    selectInitialCheckpoint toyEnv toyVset (toyNode 1)
      = Done (cp, ok, rs) ((toyNode 1) <| ticks := 1%nat |>)
    /\ (ok = true <-> exists c, supported (toyNode 1) toyVset c = true).
Proof.
  destruct (selectInitialCheckpoint_spec toyEnv (toyNode 1) toyVset
    ltac:(vm_compute; congruence) toyVset_nonneg) as (cp & ok & rs & E & Hok & _).
  exists cp, ok, rs. exact (conj E Hok).
Defined.

(** * Assigning sequence numbers *)



(** * Leaving a view *)

(** The P and Q sets are indexed by what their entries say. *)
Definition pqKeyed (s : pbftCore) : Prop :=
  (forall n p, pset s !! n = Some p -> pq_SequenceNumber p = n) /\
  (forall d n q, qset s !! (d, n) = Some q -> pq_SequenceNumber q = n /\ pq_Digest q = d).

(** [n] is reported in [ps] by a view not before [v]. *)
Definition reportedP (s : pbftCore) (n v : Z) : Prop :=
  exists p, pset s !! n = Some p /\ v <= pq_View p.

Definition reportedQ (s : pbftCore) (d : string) (n v : Z) : Prop :=
  exists q, qset s !! (d, n) = Some q /\ v <= pq_View q.

Lemma prepared_pset s d v n : prepared s d v n = true ->
  prepared (s <| pset := ∅ |>) d v n = true \/ reportedP s n v.
Proof.
  unfold prepared. change (prePrepared (s <| pset := ∅ |>) d v n) with (prePrepared s d v n).
  destruct (prePrepared s d v n); [|done]. cbn.
  destruct (pset s !! n) as [p|] eqn:E; [|by left].
  destruct (Z.eqb_spec (pq_View p) v); [|by left]. intros _. right. exists p. split; [done|lia].
Qed.

Lemma prepared_more s m d v n :
  prepared (s <| pset := ∅ |>) d v n = true -> prepared (s <| pset := m |>) d v n = true.
Proof.
  unfold prepared. change (prePrepared (s <| pset := ∅ |>) d v n) with (prePrepared s d v n).
  change (prePrepared (s <| pset := m |>) d v n) with (prePrepared s d v n).
  destruct (prePrepared s d v n); [|done]. cbn. intros H.
  destruct (m !! n) as [p|]; [|done]. by destruct (_ && _).
Qed.

Lemma prePrepared_qset s d v n : prePrepared s d v n = true ->
  prePrepared (s <| qset := ∅ |>) d v n = true \/ reportedQ s d n v.
Proof.
  unfold prePrepared. cbn. destruct (_ && _); [done|].
  destruct (qset s !! (d, n)) as [q|] eqn:E; [|by left].
  destruct (Z.eqb_spec (pq_View q) v); [|by left]. intros _. right. exists q. split; [done|lia].
Qed.

Lemma prePrepared_more s m d v n :
  prePrepared (s <| qset := ∅ |>) d v n = true -> prePrepared (s <| qset := m |>) d v n = true.
Proof.
  unfold prePrepared. cbn. destruct (_ && _); [done|].
  destruct (m !! (d, n)) as [q|]; [|done]. by destruct (_ =? _).
Qed.

(** What a loop that fills the P set guarantees for the certificates [l]. *)
Definition filledP (s0 s : pbftCore) (l : list (msgID * msgCert)) (s' : pbftCore) : Prop :=
  s' = s0 <| pset := pset s' |> /\ pqKeyed s'
  /\ (forall n v, reportedP s n v -> reportedP s' n v)
  /\ (forall v n c pp, (v, n, c) ∈ l -> prePrepare c = Some pp ->
        prepared (s0 <| pset := ∅ |>) (pp_RequestDigest pp) v n = true -> reportedP s' n v).

Lemma addPset_fills s0 s e :
  s = s0 <| pset := pset s |> -> pqKeyed s -> twp (addPset e) (fun _ => filledP s0 s [e]) s.
Proof.
  intros Es Hk. destruct e as [[v n] c]. cbn [addPset].
  destruct (prePrepare c) as [pp|] eqn:Ep.
  2:{ twp_step. split_and!; try done. intros ? ? ? pp [= -> -> ->]%list_elem_of_singleton. congruence. }
  do 2 twp_step. destruct (prepared s (pp_RequestDigest pp) v n) eqn:Epr; cbn [negb].
  - destruct (match pset s !! n with Some p => pq_View p >? v | None => false end) eqn:Eold.
    + twp_step. split_and!; try done. intros ? ? ? pp' [= -> -> ->]%list_elem_of_singleton _ _.
      destruct (pset s !! n) as [p|] eqn:E; [|done]. exists p. split; [done|lia].
    + twp_step. split_and!.
      * rewrite Es. done.
      * destruct Hk as [Hk1 Hk2]. split; [|exact Hk2]. cbn.
        intros n' p' [[<- <-]|[_ H]]%lookup_insert_Some; [done|by apply Hk1].
      * intros n' v' (p & Hp & Hv). unfold reportedP. cbn.
        destruct (decide (n = n')) as [<-|Hne].
        -- rewrite lookup_insert_eq. eexists; split; [done|]. cbn. rewrite Hp in Eold. lia.
        -- rewrite lookup_insert_ne by done. eauto.
      * intros v' n' c' pp' [= -> -> ->]%list_elem_of_singleton _ _.
        unfold reportedP. cbn. rewrite lookup_insert_eq. eexists; split; [done|]. cbn. lia.
  - twp_step. split_and!; try done. intros ? ? ? pp' [= -> -> ->]%list_elem_of_singleton Epp H.
    rewrite Ep in Epp. injection Epp as <-.
    apply (prepared_more s0 (pset s)) in H. rewrite <- Es in H. congruence.
Qed.

Lemma addPset_loop s0 l s :
  s = s0 <| pset := pset s |> -> pqKeyed s -> twp (forM_ l addPset) (fun _ => filledP s0 s l) s.
Proof.
  revert s. induction l as [|e l IH]; intros s Es Hk; cbn [forM_].
  - twp_step. split_and!; try done. by intros ? ? ? ? ?%not_elem_of_nil.
  - twp_step. eapply twp_mono; [by apply addPset_fills|]. cbv beta.
    intros _ s1 (Es1 & Hk1 & Hm1 & Hr1). eapply twp_mono; [by apply IH|]. cbv beta.
    intros _ s2 (Es2 & Hk2 & Hm2 & Hr2). split_and!; [done|done|auto|].
    intros v n c pp [Hin|Hin]%elem_of_cons Hpp Hpr; [|by eapply Hr2].
    apply Hm2. eapply Hr1; [by apply list_elem_of_singleton|done|done].
Qed.

Definition filledQ (s0 s : pbftCore) (l : list (msgID * msgCert)) (s' : pbftCore) : Prop :=
  s' = s0 <| qset := qset s' |> /\ pqKeyed s'
  /\ (forall d n v, reportedQ s d n v -> reportedQ s' d n v)
  /\ (forall v n c pp, (v, n, c) ∈ l -> prePrepare c = Some pp ->
        prePrepared (s0 <| qset := ∅ |>) (pp_RequestDigest pp) v n = true ->
        reportedQ s' (pp_RequestDigest pp) n v).

Lemma addQset_fills s0 s e :
  s = s0 <| qset := qset s |> -> pqKeyed s -> twp (addQset e) (fun _ => filledQ s0 s [e]) s.
Proof.
  intros Es Hk. destruct e as [[v n] c]. cbn [addQset].
  destruct (prePrepare c) as [pp|] eqn:Ep.
  2:{ twp_step. split_and!; try done. intros ? ? ? pp [= -> -> ->]%list_elem_of_singleton. congruence. }
  do 2 twp_step. set (d := pp_RequestDigest pp).
  destruct (prePrepared s d v n) eqn:Epr; cbn [negb].
  - destruct (match qset s !! (d, n) with Some q => pq_View q >? v | None => false end) eqn:Eold.
    + twp_step. split_and!; try done. intros ? ? ? pp' [= -> -> ->]%list_elem_of_singleton Epp _.
      rewrite Ep in Epp. injection Epp as <-. fold d.
      destruct (qset s !! (d, n)) as [q|] eqn:E; [|done]. exists q. split; [done|lia].
    + twp_step. split_and!.
      * rewrite Es. done.
      * destruct Hk as [Hk1 Hk2]. split; [exact Hk1|]. cbn.
        intros d' n' q' [[[= <- <-] <-]|[_ H]]%lookup_insert_Some; [done|by apply Hk2].
      * intros d' n' v' (q & Hq & Hv). unfold reportedQ. cbn.
        destruct (decide ((d, n) = (d', n'))) as [[= <- <-]|Hne].
        -- rewrite lookup_insert_eq. eexists; split; [done|]. cbn. rewrite Hq in Eold. lia.
        -- rewrite lookup_insert_ne by done. eauto.
      * intros v' n' c' pp' [= -> -> ->]%list_elem_of_singleton Epp _.
        rewrite Ep in Epp. injection Epp as <-. fold d.
        unfold reportedQ. cbn. rewrite lookup_insert_eq. eexists; split; [done|]. cbn. lia.
  - twp_step. split_and!; try done. intros ? ? ? pp' [= -> -> ->]%list_elem_of_singleton Epp H.
    rewrite Ep in Epp. injection Epp as <-. fold d in H.
    apply (prePrepared_more s0 (qset s)) in H. rewrite <- Es in H. congruence.
Qed.

Lemma addQset_loop s0 l s :
  s = s0 <| qset := qset s |> -> pqKeyed s -> twp (forM_ l addQset) (fun _ => filledQ s0 s l) s.
Proof.
  revert s. induction l as [|e l IH]; intros s Es Hk; cbn [forM_].
  - twp_step. split_and!; try done. by intros ? ? ? ? ?%not_elem_of_nil.
  - twp_step. eapply twp_mono; [by apply addQset_fills|]. cbv beta.
    intros _ s1 (Es1 & Hk1 & Hm1 & Hr1). eapply twp_mono; [by apply IH|]. cbv beta.
    intros _ s2 (Es2 & Hk2 & Hm2 & Hr2). split_and!; [done|done|auto|].
    intros v n c pp [Hin|Hin]%elem_of_cons Hpp Hpr; [|by eapply Hr2].
    apply Hm2. eapply Hr1; [by apply list_elem_of_singleton|done|done].
Qed.

(** Both loops, from a state [s1] of the replica. *)
Lemma fillPQ env s1 {B} (k : Mp B) (Q : B -> pbftCore -> Prop) :
  pqKeyed s1 ->
  (forall s2, s2 = s1 <| pset := pset s2 |> <| qset := qset s2 |> <| ticks := ticks s2 |> ->
     pqKeyed s2 ->
     (forall v n c pp, certStore s1 !! (v, n) = Some c -> prePrepare c = Some pp ->
        prepared s1 (pp_RequestDigest pp) v n = true -> reportedP s2 n v) ->
     (forall v n c pp, certStore s1 !! (v, n) = Some c -> prePrepare c = Some pp ->
        prePrepared s1 (pp_RequestDigest pp) v n = true ->
        reportedQ s2 (pp_RequestDigest pp) n v) -> twp k Q s2) ->
  twp (certs ← range env certStore; forM_ certs addPset ;;
       certs ← range env certStore; forM_ certs addQset ;; k) Q s1.
Proof.
  intros Hk Hrest. twp_step. unfold twp at 1. rewrite range_run. cbv beta.
  set (sA := s1 <| ticks := S (ticks s1) |>). twp_step.
  eapply twp_mono; [apply (addPset_loop sA); [by destruct s1|done]|].
  cbv beta. intros _ s2 (Es2 & Hk2 & Hm2 & Hr2). twp_step. unfold twp at 1. rewrite range_run.
  set (sB := s2 <| ticks := S (ticks s2) |>). twp_step.
  eapply twp_mono; [apply (addQset_loop sB); [by destruct s2|done]|].
  cbv beta. intros _ s3 (Es3 & Hk3 & Hm3 & Hr3).
  assert (pset s3 = pset s2) as E3 by (by rewrite Es3).
  apply Hrest.
  - rewrite Es3. unfold sB. rewrite Es2. done.
  - done.
  - intros v n c pp Hc Hpp Hpr. unfold reportedP. rewrite E3.
    destruct (prepared_pset _ _ _ _ Hpr) as [H|H]; [|by apply Hm2].
    eapply Hr2; [by apply elem_of_ord|done|exact H].
  - intros v n c pp Hc Hpp Hpr.
    assert (qset s2 = qset s1) as Eq by (by rewrite Es2).
    assert (certStore s2 = certStore s1) as Ec by (by rewrite Es2).
    destruct (prePrepared_qset _ _ _ _ Hpr) as [H|H].
    + eapply Hr3; [apply elem_of_ord; cbn; by rewrite Ec|done|].
      unfold sB. rewrite Es2. exact H.
    + apply Hm3. unfold reportedQ in *. cbn. by rewrite Eq.
Qed.

(** What the view-change message of a replica in state [s] says. *)
Definition reports (s : pbftCore) (vc : ViewChange) : Prop :=
  vc_View vc = u64 (view s + 1) /\ vc_H vc = h_ s /\ vc_ReplicaId vc = id_ s
  /\ (forall c, c ∈ vc_Cset vc <-> chkpts s !! vcC_SequenceNumber c = Some (vcC_Id c))
  /\ (forall v n c pp, certStore s !! (v, n) = Some c -> prePrepare c = Some pp ->
        prepared s (pp_RequestDigest pp) v n = true ->
        exists p, p ∈ vc_Pset vc /\ pq_SequenceNumber p = n /\ v <= pq_View p)
  /\ (forall v n c pp, certStore s !! (v, n) = Some c -> prePrepare c = Some pp ->
        prePrepared s (pp_RequestDigest pp) v n = true ->
        exists q, q ∈ vc_Qset vc /\ pq_SequenceNumber q = n
          /\ pq_Digest q = pp_RequestDigest pp /\ v <= pq_View q).

Lemma reports_sign env s vc : reports s vc -> reports s (fst (sign env vc)).
Proof.
  unfold sign. cbn -[marshal_ViewChange]. destruct (marshal_ViewChange _ _) as [raw|]; [|done].
  by destruct (consumer_sign env raw).
Qed.

(** [sendViewChange] up to the broadcast. *)
Definition composeViewChange (env : surroundings) : Mp ViewChange :=
  stopTimer ;;
  modify (fun s => s <| newViewStore := delete (view s) (newViewStore s) |>) ;;
  modify (fun s => s <| view := u64 (view s + 1) |>) ;;
  modify (fun s => s <| activeView := false |>) ;;
  certs ← range env certStore; forM_ certs addPset ;;
  certs ← range env certStore; forM_ certs addQset ;;
  (modify (fun s =>
    s <| certStore := filter (fun '((v, _, _) : msgID * msgCert) => ~ v < view s) (certStore s) |>) ;;
  modify (fun s => s <| viewChangeStore :=
    filter (fun '((v, _, _) : vcidx * ViewChange) => ~ v < view s) (viewChangeStore s) |>) ;;
  cs ← range env chkpts; ps ← range env pset; qs ← range env qset;
  s ← get;
  mret (fst (sign env (mkViewChange (view s) (h_ s)
    ((fun '(n, i) => mkViewChange_C n i) <$> cs) (snd <$> ps) (snd <$> qs) (id_ s) [])))).

Lemma sendViewChange_split env self s :
  sendViewChange env self s =
  (vc ← composeViewChange env; innerBroadcast env self (Message_ViewChange vc) true) s.
Proof.
  unfold sendViewChange, composeViewChange. cbv [mbind M_bind].
  destruct (stopTimer s) as [[] s1| |]; [|done..].
  cbv [modify]. rewrite range_run. destruct (forM_ _ addPset _) as [[] s2| |]; [|done..].
  rewrite range_run. destruct (forM_ _ addQset _) as [[] s3| |]; [|done..]. done.
Qed.

Lemma stopTimer_eq s :
  exists r, stopTimer s =
    Done tt (s <| timerRunning := false |> <| timerResetCount := r |> <| timerActive := false |>).
Proof.
  unfold stopTimer. cbv [mbind M_bind get modify when mret M_ret].
  destruct (_ && _); [eauto|]. exists (timerResetCount s). by destruct s.
Qed.

Lemma elem_of_checkpoints (o : mapOrder) t (m : gmap Z string) c :
  c ∈ ((fun '(n, i) => mkViewChange_C n i) <$> ord o t m)
  <-> m !! vcC_SequenceNumber c = Some (vcC_Id c).
Proof.
  rewrite list_elem_of_fmap. destruct c as [n i]. cbn. split.
  - intros ([n' i'] & [= -> ->] & H). by apply elem_of_ord in H.
  - intros H. exists (n, i). split; [done|]. by apply elem_of_ord.
Qed.

Lemma elem_of_entries `{Countable K} {B} (o : mapOrder) t (m : gmap K B) k x :
  m !! k = Some x -> x ∈ (snd <$> ord o t m).
Proof. intros H'. apply list_elem_of_fmap. exists (k, x). split; [done|]. by apply elem_of_ord. Qed.

Lemma composeViewChange_reports env s :
  pqKeyed s ->
  twp (composeViewChange env) (fun vc s1 => reports s vc /\ out s1 = out s
    /\ cfg s = cfg s1 /\ view s1 = u64 (view s + 1) /\ activeView s1 = false
    /\ (forall v n, is_Some (certStore s1 !! (v, n)) -> view s1 <= v)
    /\ (forall v j, is_Some (viewChangeStore s1 !! (v, j)) -> view s1 <= v)) s.
Proof.
  intros Hk. unfold composeViewChange. destruct (stopTimer_eq s) as [r E0].
  twp_step. unfold twp at 1. rewrite E0. do 6 twp_step. apply fillPQ; [exact Hk|].
  intros s2 Es2 Hk2 HP HQ. do 4 twp_step.
  do 3 (twp_step; unfold twp at 1; rewrite range_run). do 3 twp_step.
  assert (cfg s2 = cfg s /\ h_ s2 = h_ s /\ chkpts s2 = chkpts s /\ view s2 = u64 (view s + 1)
    /\ activeView s2 = false /\ out s2 = out s) as (Ec & Eh & Ek & Ev & Ea & Eo)
    by (rewrite Es2; auto 10).
  destruct Hk2 as [HkP HkQ]. split_and!; try (cbn; congruence).
  - apply reports_sign. split_and!; try (cbn; congruence).
    + apply cfg_fields in Ec as (_ & _ & _ & ? & _). cbn. congruence.
    + intros c. cbn [vc_Cset]. rewrite elem_of_checkpoints. cbn. by rewrite Ek.
    + intros v n c pp Hc Hpp Hpr. destruct (HP v n c pp Hc Hpp Hpr) as (p & Hp & Hv).
      exists p. split_and!; [|by apply HkP|done]. by eapply elem_of_entries.
    + intros v n c pp Hc Hpp Hpr. destruct (HQ v n c pp Hc Hpp Hpr) as (q & Hq & Hv).
      destruct (HkQ _ _ _ Hq). exists q. split_and!; [|done|done|done]. by eapply elem_of_entries.
  - symmetry. exact Ec.
  - intros v n. cbn. intros [c [_ Hv]%map_lookup_filter_Some]. lia.
  - intros v j. cbn. intros [c [_ Hv]%map_lookup_filter_Some]. lia.
Qed.

(** C29.  Leaving a view.  [sendViewChange] moves to the next view, makes it inactive and
    forgets certificates and view-change messages of earlier views; before it
    dispatches its view-change message to itself, it has broadcast it, and the message reports every checkpoint it
    keeps, and every sequence number that had prepared or pre-prepared, in a view at
    least as late. *)
Theorem sendViewChange_reports env self s :
  (forall m, marshal_Message env m = true) -> byzantine s = false -> pqKeyed s ->
  exists vc s1,
    sendViewChange env self s = (self (Message_ViewChange vc) (id_ s) ;; mret None) s1
    /\ reports s vc /\ out s1 = call_broadcast (Message_ViewChange vc) :: out s
    /\ view s1 = u64 (view s + 1) /\ activeView s1 = false
    /\ (forall v n, is_Some (certStore s1 !! (v, n)) -> view s1 <= v)
    /\ (forall v j, is_Some (viewChangeStore s1 !! (v, j)) -> view s1 <= v).
Proof.
  intros Hm Hb Hk.
  destruct (proj1 (twp_run _ _ _) (composeViewChange_reports env s Hk))
    as (vc & s1 & E & Hr & Eo & C & Ev & Ea & Hcs & Hvs).
  apply cfg_fields in C as (_ & _ & _ & Ei & _ & Eb & _).
  exists vc, (emitted (call_broadcast (Message_ViewChange vc)) (s1 <| ticks := S (ticks s1) |>)).
  split_and!; try done; [|cbn; by rewrite Eo].
  rewrite sendViewChange_split. cbv [mbind M_bind]. rewrite E. unfold innerBroadcast. rewrite Hm.
  cbv [negb tick gets modify get mret M_ret mbind M_bind emit]. cbn. by rewrite <- Eb, Hb, <- Ei.
Qed.

Lemma toyReady_keyed : pqKeyed (toyNode 1).
Proof. split; intros ?; by vm_compute. Qed.

Lemma sendViewChange_reports_witness :
  exists vc s1, sendViewChange toyEnv (recvMsgSync toyEnv 9) (toyNode 1)
      = (recvMsgSync toyEnv 9 (Message_ViewChange vc) (id_ (toyNode 1)) ;; mret None) s1
    /\ reports (toyNode 1) vc.
Proof.
  destruct (sendViewChange_reports toyEnv (recvMsgSync toyEnv 9) (toyNode 1)
    (fun _ => eq_refl) eq_refl toyReady_keyed) as (vc & s1 & E & Hr & _).
  exists vc, s1. exact (conj E Hr).
Defined.

(** * Signatures *)

(**  What [sign] has signed, [verify] accepts, and signing changes nothing but the
    signature, provided the stack verifies the signatures it makes. *)
Theorem sign_verify env (vc : ViewChange) vc' :
  (forall raw sig, consumer_sign env raw = Some sig ->
     consumer_verify env (vc_ReplicaId vc) sig raw = true) ->
  sign env vc = (vc', None) ->
  verify env vc' = None /\ vc' = vc <| vc_Signature := vc_Signature vc' |>.
Proof.
  intros Hs. unfold sign, verify. cbn -[marshal_ViewChange].
  destruct (marshal_ViewChange env (vc <| vc_Signature := [] |>)) as [raw|] eqn:Em; [|done].
  destruct (consumer_sign env raw) as [sig|] eqn:Esig; [|done].
  intros [= <-]. split; [|by destruct vc].
  change (vc <| vc_Signature := [] |> <| vc_Signature := sig |> <| vc_Signature := [] |>)
    with (vc <| vc_Signature := [] |>).
  rewrite Em. cbn. by rewrite (Hs raw sig Esig).
Qed.

Lemma sign_verify_witness :
  verify toyEnv (fst (sign toyEnv (mkViewChange 1 0 [] [] [] 2 [Byte.x07]))) = None.
Proof.
  exact (proj1 (sign_verify toyEnv (mkViewChange 1 0 [] [] [] 2 [Byte.x07]) _
    (fun _ _ _ => eq_refl) eq_refl)).
Defined.

(** * Checkpoints *)

(** The checkpoint of the engine, and the state it is delivered in. *)
Definition ownCheckpoint (s : pbftCore) (cid : bytes) : Checkpoint :=
  mkCheckpoint (lastExec s) (id_ s) (Base64.EncodeToString cid).

Definition checkpointed (s : pbftCore) (cid : bytes) : pbftCore :=
  emitted (call_broadcast (Message_Checkpoint (ownCheckpoint s cid)))
    (s <| chkpts := <[lastExec s := Base64.EncodeToString cid]> (chkpts s) |> <| ticks := S (ticks s) |>).

Lemma takeCheckpoint_broadcasts env self sn cid s :
  (forall m, marshal_Message env m = true) -> byzantine s = false -> K_ s <> 0 -> sn mod K_ s = 0 ->
  takeCheckpoint env self sn cid s =
    (self (Message_Checkpoint (ownCheckpoint s cid)) (id_ s) ;; mret tt) (checkpointed s cid).
Proof.
  intros Hm Hb HK Hsn. unfold takeCheckpoint. cbv [mbind M_bind get]. apply Z.eqb_neq in HK. rewrite HK, Hsn.
  cbn [Z.eqb negb]. unfold innerBroadcast. rewrite Hm.
  cbv [negb modify tick gets get mret M_ret mbind M_bind emit]. cbn. rewrite Hb. cbn.
  unfold checkpointed, ownCheckpoint, emitted. by destruct (self _ _ _).
Qed.

(**  A checkpoint of the executor reaches the peers intact.  On a checkpoint boundary
    [Checkpoint] stores and broadcasts the state identifier in an encoding
    that decodes to the bytes it was given, under the last executed sequence number. *)
Theorem takeCheckpoint_roundtrip env self sn cid s :
  (forall m, marshal_Message env m = true) -> byzantine s = false -> K_ s <> 0 -> sn mod K_ s = 0 ->
  exists ck s1,
    takeCheckpoint env self sn cid s = (self (Message_Checkpoint ck) (id_ s) ;; mret tt) s1
    /\ out s1 = call_broadcast (Message_Checkpoint ck) :: out s
    /\ ck_SequenceNumber ck = lastExec s /\ ck_ReplicaId ck = id_ s
    /\ chkpts s1 !! lastExec s = Some (ck_Id ck)
    /\ Base64.DecodeString (ck_Id ck) = Some cid.
Proof.
  intros Hm Hb HK Hsn. exists (ownCheckpoint s cid), (checkpointed s cid). split_and!; try done.
  - by apply takeCheckpoint_broadcasts.
  - cbn. apply lookup_insert_eq.
  - apply Base64.decode_EncodeToString.
Qed.

Lemma takeCheckpoint_roundtrip_witness :
  exists ck s1,
    takeCheckpoint toyEnv (recvMsgSync toyEnv 9) 10 [Byte.x2a] (toyNode 2)
      = (recvMsgSync toyEnv 9 (Message_Checkpoint ck) (id_ (toyNode 2)) ;; mret tt) s1
    /\ Base64.DecodeString (ck_Id ck) = Some [Byte.x2a].
Proof.
  destruct (takeCheckpoint_roundtrip toyEnv (recvMsgSync toyEnv 9) 10 [Byte.x2a] (toyNode 2)
    (fun _ => eq_refl) eq_refl ltac:(vm_compute; congruence) eq_refl)
    as (ck & s1 & E & _ & _ & _ & _ & Hd).
  exists ck, s1. exact (conj E Hd).
Defined.
