(* ===== verification/PbftFindings.v ===== *)
(** Places where the PBFT engine departs from what its comments, or the protocol
    they quote, say.  Each theorem runs the model on a concrete state. *)
From stdpp Require Import base gmap sets list strings.
From Stdlib Require Import ZArith Lia.
From S2P Require Import Prelude GoStd PbftTypes PbftCore PbftToy PbftInv PbftSelect PbftSym PbftPreserve.
From S2P Require Import PbftViewChange.

(** A pre-prepare without a request, whose digest is the hash of the empty
    encoding, makes a backup dereference nil. *)
Theorem recvPrePrepare_nil_request :
  recvMsgSync toyEnv 9
    (Message_PrePrepare (mkPrePrepare 0 1 (hashReq toyEnv None) None 0)) 0 (toyNode 1) = Panic.
Proof. vm_compute. reflexivity. Qed.

(** Surroundings that visit maps backwards. *)
Definition backwardOrder : mapOrder := {|
  ord := fun _ K _ _ A m => reverse (map_to_list m);
  ord_perm := fun _ K _ _ A m => reverse_Permutation _
|}.
Definition backwardEnv : surroundings := {|
  consumer_validate := consumer_validate toyEnv; consumer_sign := consumer_sign toyEnv;
  consumer_verify := consumer_verify toyEnv; consumer_unicast := consumer_unicast toyEnv;
  marshal_Request := marshal_Request toyEnv; marshal_ViewChange := marshal_ViewChange toyEnv;
  marshal_Message := marshal_Message toyEnv; unmarshal_Message := unmarshal_Message toyEnv;
  ComputeCryptoHash := ComputeCryptoHash toyEnv; random_skip := random_skip toyEnv;
  order := backwardOrder
|}.

(** View-change messages that support two checkpoints, with different claimants. *)
Definition twoCheckpoints : list ViewChange := [
  mkViewChange 1 0 [mkViewChange_C 10 "a"; mkViewChange_C 20 "b"] [] [] 0 [];
  mkViewChange 1 0 [mkViewChange_C 10 "a"; mkViewChange_C 20 "b"] [] [] 1 [];
  mkViewChange 1 0 [mkViewChange_C 10 "a"] [] [] 2 [];
  mkViewChange 1 0 [mkViewChange_C 20 "b"] [] [] 3 []
].

(** The replicas returned with the selected checkpoint are those of the last
    supported one visited: here replica 2, which does not claim checkpoint 20, is
    returned for it, and replica 3, which does, is not. *)
Theorem selectInitialCheckpoint_replicas :
  exists s', selectInitialCheckpoint backwardEnv twoCheckpoints (toyNode 1)
    = Done (mkViewChange_C 20 "b", true, [0; 1; 2]) s'.
Proof. eexists. vm_compute. reflexivity. Qed.

(** A P entry for number 2 selects its digest for number 1: the sequence number
    of the entry is not compared with the number being assigned. *)
Theorem assignOne_other_number :
  let vc r := mkViewChange 1 0 [] [mkViewChange_PQ 2 "d" 0]
                [mkViewChange_PQ 1 "d" 0; mkViewChange_PQ 2 "d" 0] r [] in
  assignOne (toyNode 1) [vc 0; vc 1; vc 2] 1 = assignDigest "d".
Proof. vm_compute. reflexivity. Qed.

(** Replica 2 waits for the new view 1 and knows only its own view-change. *)
Definition waiting : pbftCore := after (sendViewChange toyEnv (recvMsgSync toyEnv 9)) (toyNode 2).

(** A new-view message whose V set is one message of its sender, three times. *)
Definition oneVoter : NewView :=
  let vc := mkViewChange 1 0 [mkViewChange_C 0 ""] [] [] 1 [] in
  mkNewView 1 [vc; vc; vc] {[ 1 := "" ]} 1.

(** The copies count as a quorum, so that a new primary enters its view on its own
    view-change message alone. *)
Theorem newView_counts_copies :
  view waiting = 1 /\ activeView waiting = false
  /\ activeView (after (recvMsgSync toyEnv 9 (Message_NewView oneVoter) 1) waiting) = true.
Proof. vm_compute. auto. Qed.

(** A replica whose executions are ahead of the selected checkpoint but whose
    low watermark is not. *)
Definition ahead : pbftCore := waiting <| lastExec := 15 |>.
Definition nvAtTen : NewView :=
  let vc r := mkViewChange 1 0 [mkViewChange_C 10 ""] [] [] r [] in
  mkNewView 1 [vc 0; vc 1; vc 3] {[ 11 := "" ]} 1.

(** Entering the view moves [lastExec] back, so that numbers 11 to 15 would be
    executed again. *)
Theorem newView_rewinds :
  lastExec ahead = 15
  /\ lastExec (after (recvMsgSync toyEnv 9 (Message_NewView nvAtTen) 1) ahead) = 10.
Proof. vm_compute. auto. Qed.

(** A replica that has prepared through a new view does not commit, even when its
    own prepare completes the certificate: that prepare is in the certificate before it is
    dispatched, and is then dropped as a duplicate.  Here the prepare of replica 3
    has arrived before the new view; with its own, replica 2 has a prepared
    certificate, and has not sent a commit. *)
Definition early : pbftCore :=
  after (recvMsgSync toyEnv 9 (Message_Prepare (mkPrepare 1 11 "" 3)) 3) waiting.
Definition entered : pbftCore :=
  after (recvMsgSync toyEnv 9 (Message_NewView nvAtTen) 1) early.

Theorem newView_prepared_no_commit :
  activeView entered = true /\ prepared entered "" 1 11 = true
  /\ sentCommit (certAt entered 1 11) = false.
Proof. vm_compute. auto. Qed.
