(* ===== verification/PbftNetwork.v ===== *)
(** Replicas on an asynchronous network.  Every correct replica runs the engine
    of [PbftCore]; at most [f] replicas are Byzantine and may send anything under
    their own name.  Messages may be lost, duplicated, delayed and reordered,
    and they may arrive while a replica has released its lock to execute.  The
    main result is agreement within a view. *)
From stdpp Require Import base gmap sets list strings relations.
From Stdlib Require Import ZArith Lia.
From S2P Require Import Prelude GoStd PbftTypes PbftCore PbftToy PbftInv PbftSym PbftPreserve.

(** * More senders *)

Section widen.
Context (A A' : Z -> Message -> Prop) (HA : forall j m, A j m -> A' j m).

Lemma sentBy_widen s j m : sentBy A s j m -> sentBy A' s j m.
Proof. unfold sentBy. case_decide; auto. Qed.

Lemma assigned_widen s v n d : assigned A s v n d -> assigned A' s v n d.
Proof.
  intros [(pp & ? & ? & ? & ?)|(nv & ? & ? & ? & ?)].
  - left. exists pp. auto using sentBy_widen.
  - right. exists nv. auto using sentBy_widen.
Qed.

Lemma justified_widen s v n d : justified A s v n d -> justified A' s v n d.
Proof.
  intros [Has (rs & ? & ? & HF)]. split; [by apply assigned_widen|].
  exists rs. split_and!; [done|done|]. eapply Forall_impl; [exact HF|].
  intros r (? & ? & p & ? & ? & ? & ? & ?). split_and!; try done; try lia.
  exists p. auto 10 using sentBy_widen.
Qed.

Lemma certOK_widen s v n c : certOK A s v n c -> certOK A' s v n c.
Proof.
  intros (? & ? & HP & ? & HC & ? & Hpp). split_and!; try done; try lia.
  - eapply Forall_impl; [exact HP|]. intros p (? & ? & ? & ? & ?).
    split_and!; try done; try lia. by apply sentBy_widen.
  - eapply Forall_impl; [exact HC|]. intros p (? & ? & ? & ?).
    split_and!; try done; try lia. by apply sentBy_widen.
  - intros pp E. destruct (Hpp pp E) as (? & ? & ?). split_and!; auto using assigned_widen.
Qed.

Lemma lockEventOK_widen s e : lockEventOK A s e -> lockEventOK A' s e.
Proof. destruct e; cbn; [|done..]. intros (? & ? & ? & ?). auto. Qed.

Lemma inv_widen s : inv A s -> inv A' s.
Proof.
  intros HI. pose proof HI as []; constructor; try assumption.
  - intros v nv H. destruct (PbftInv.inv_newViewStore A s HI v nv H) as (? & ? & ?). auto using sentBy_widen.
  - intros v n c H. by apply certOK_widen, (PbftInv.inv_certStore A s HI).
  - intros c H. by apply justified_widen, (PbftInv.inv_commit A s HI).
  - eapply Forall_impl; [exact (PbftInv.inv_schedule A s HI)|]. intros es Hes.
    eapply Forall_impl; [exact Hes|]. intros. by apply lockEventOK_widen.
Qed.

End widen.

(** * Quorums *)

Definition replicas (N : Z) : gset Z := list_to_set (Z.of_nat <$> seq 0 (Z.to_nat N)).

Lemma elem_of_replicas N r : r ∈ replicas N <-> 0 <= r < N.
Proof.
  unfold replicas. rewrite elem_of_list_to_set, list_elem_of_fmap. split.
  - intros (k & -> & Hk%elem_of_seq). lia.
  - intros Hr. exists (Z.to_nat r). rewrite elem_of_seq. lia.
Qed.

Lemma size_replicas N : size (replicas N) = Z.to_nat N.
Proof.
  unfold replicas. rewrite size_list_to_set.
  - by rewrite length_fmap, length_seq.
  - apply NoDup_fmap_2; [apply _|apply NoDup_seq].
Qed.

(** Two sets of backups share as many replicas as they exceed the number of
    backups by. *)
Lemma backups_overlap N p (X Y : gset Z) :
  0 <= p < N -> X ⊆ replicas N ∖ {[p]} -> Y ⊆ replicas N ∖ {[p]} ->
  Z.of_nat (size X) + Z.of_nat (size Y) - (N - 1) <= Z.of_nat (size (X ∩ Y)).
Proof.
  intros Hp HX HY.
  assert (size (X ∪ Y) <= size (replicas N ∖ {[p]}))%nat as H1
    by (by apply subseteq_size, union_subseteq).
  rewrite (size_difference (replicas N) {[p]}) in H1 by (by apply singleton_subseteq_l, elem_of_replicas).
  rewrite size_replicas, size_singleton, size_union_alt, size_difference_alt in H1.
  assert (size (Y ∩ X) = size (X ∩ Y)) as E by (by rewrite intersection_comm_L).
  assert (size (Y ∩ X) <= size Y)%nat
    by (apply subseteq_size, intersection_subseteq_l). lia.
Qed.

(** Of [f] backups and the primary, one is correct when at most [f] are not. *)
Lemma correct_among (Byz X : gset Z) p f :
  Z.of_nat (size Byz) <= f -> f <= Z.of_nat (size X) -> p ∉ X ->
  p ∉ Byz \/ exists r, r ∈ X /\ r ∉ Byz.
Proof.
  intros HB HX Hp. destruct (decide (p ∈ Byz)) as [Hin|]; [right|by left].
  destruct (decide (X ∖ Byz = ∅)) as [He|Hne].
  - assert ({[p]} ∪ X ⊆ Byz) as Hsub.
    { apply union_subseteq. split; [by apply singleton_subseteq_l|].
      by apply empty_difference_subseteq_L. }
    apply subseteq_size in Hsub.
    rewrite size_union, size_singleton in Hsub by (by apply disjoint_singleton_l). lia.
  - apply set_choose_L in Hne as [r [? ?]%elem_of_difference]. by exists r.
Qed.

(** * The network *)

Section network.
Context (env : Z -> surroundings).
Context (config : pbftConfig) (startupID : bytes) (Byz : gset Z).

(** The state of every replica; the states of Byzantine ones mean nothing. *)
Definition world := Z -> pbftCore.

Definition correct (i : Z) : Prop := 0 <= i < general_N config /\ i ∉ Byz.

(** [j] may have sent [m].  Only the messages that end up in certificates need a
    sender; requests may come from anywhere. *)
Definition sent (w : world) (j : Z) (m : Message) : Prop :=
  match m with
  | Message_PrePrepare _ | Message_Prepare _ | Message_Commit _ | Message_NewView _ =>
      j ∈ Byz \/ call_broadcast m ∈ out (w j)
  | _ => True
  end.

Definition update (w : world) (i : Z) (s : pbftCore) (w' : world) : Prop :=
  w' i = s /\ forall j, j <> i -> w' j = w j.

(** What other goroutines of replica [i] may do while it executes. *)
Definition admissible (w : world) (i : Z) (sch : list (list lockEvent)) : Prop :=
  Forall (Forall (lockEventOK (sent w) (w i))) sch.

(** Replica [i] handles an event, or a request of its own client.  The last
    premise says that its counters stay below [2^64]. *)
Inductive step (w w' : world) : Prop :=
| step_event i e sch fuel s' :
    correct i -> admissible w i sch -> lockEventOK (sent w) (w i) e ->
    runLockEvent (env i) (recvMsgSync (env i) fuel) e ((w i) <| schedule := sch |>) = Done tt s' ->
    small s' -> update w i s' w' -> step w w'
| step_request i payload sch fuel r s' :
    correct i -> admissible w i sch ->
    request (env i) fuel payload i ((w i) <| schedule := sch |>) = Done r s' ->
    small s' -> update w i s' w' -> step w w'.

Definition initial (w : world) : Prop :=
  forall i, correct i -> newPbftCore i config startupID [] = Some (w i).

Definition reachable (w : world) : Prop := exists w0, initial w0 /\ rtc step w0 w.

(** * The invariant of the network *)

Definition wellConfigured : Prop :=
  0 <= general_f config /\ 3 * general_f config + 1 <= general_N config
  /\ 2 <= general_N config /\ general_byzantine config = false
  /\ Z.of_nat (size Byz) <= general_f config.

Record nodeOK (w : world) (i : Z) : Prop := {
  node_inv : inv (sent w) (w i);
  node_id : id_ (w i) = i;
  node_N : N_ (w i) = general_N config;
  node_f : f_ (w i) = general_f config
}.

Definition worldOK (w : world) : Prop := forall i, correct i -> nodeOK w i.

Lemma inv_fresh A s :
  0 <= L_ s -> 0 <= f_ s -> 3 * f_ s + 1 <= N_ s -> 2 <= N_ s -> replicaCount s = N_ s ->
  0 <= id_ s < N_ s -> byzantine s = false -> h_ s = 0 -> view s = 0 -> seqNo s = 0 ->
  lastExec s = 0 -> (forall n i, chkpts s !! n = Some i -> n = 0) ->
  checkpointStore s = ∅ -> hChkpts s = ∅ -> viewChangeStore s = ∅ -> newViewStore s = ∅ ->
  certStore s = ∅ -> pset s = ∅ -> qset s = ∅ -> activeView s = true -> out s = [] ->
  schedule s = [] -> inv A s.
Proof.
  intros HL Hf HN H2 Hr Hid Hb Hh Hv Hsn Hle Hck Ecs Ehc Evc Env Ect Eps Eqs Ha Ho Hsch.
  assert (forall m, ~ own s m) as Hno.
  { intros m. unfold own. rewrite Ho. apply not_elem_of_nil. }
  pose proof (G_ge s HL).
  constructor; rewrite ?Hh, ?Hv, ?Hsn, ?Hle, ?Ecs, ?Ehc, ?Evc, ?Env, ?Ect, ?Eps, ?Eqs, ?Hsch;
    unfold upTo; try done; try lia.
  - intros n i ->%Hck. lia.
  - congruence.
  - intros p []%Hno.
  - intros p []%Hno.
  - intros p p' []%Hno.
  - intros pp []%Hno.
  - intros pp pp' []%Hno.
  - intros nv []%Hno.
  - intros nv nv' []%Hno.
  - intros nv pp d []%Hno.
  - intros c []%Hno.
Qed.

Lemma initial_inv A i s : wellConfigured -> 0 <= i < general_N config ->
  newPbftCore i config startupID [] = Some s ->
  inv A s /\ id_ s = i /\ N_ s = general_N config /\ f_ s = general_f config.
Proof.
  intros (Hf & HN & H2 & Hb & _) Hi. unfold newPbftCore.
  destruct (_ >? _); [done|].
  destruct (general_timeout_request config) as [rt|]; [|done].
  destruct (general_timeout_viewchange config) as [vt|]; [|done].
  cbn. intros [= <-]. split; [|done].
  apply inv_fresh; try done; [apply u64_range|].
  cbn. by intros n x [<- _]%lookup_singleton_Some.
Qed.

(** What a replica may have sent only grows. *)
Lemma sent_mono w i s' w' j m :
  suffix (out (w i)) (out s') -> update w i s' w' -> sent w j m -> sent w' j m.
Proof.
  intros [k Hk] [Ei Ene].
  assert (call_broadcast m ∈ out (w j) -> call_broadcast m ∈ out (w' j)) as H.
  { destruct (decide (j = i)) as [->|Hj]; [|by rewrite Ene].
    rewrite Ei, Hk. intros. apply elem_of_app. by right. }
  unfold sent. destruct m; tauto.
Qed.

(** One replica moves on; the others keep what they know. *)
Lemma worldOK_update w i s' w' :
  worldOK w -> correct i -> R0 (w i) s' -> inv (sent w) s' -> update w i s' w' -> worldOK w'.
Proof.
  intros Hw Hi [C Ho] HI Hu k Hk.
  assert (forall j m, sent w j m -> sent w' j m) as Hs by (intros; by eapply sent_mono).
  destruct Hu as [Ei Ene]. destruct (decide (k = i)) as [->|Hne].
  - destruct (Hw i Hi) as [_ Eid EN Ef]. apply cfg_fields in C as (? & ? & _ & ? & _).
    split; rewrite ?Ei; [by eapply inv_widen|congruence..].
  - destruct (Hw k Hk) as [HIk ? ? ?]. split; rewrite ?Ene by done; [by eapply inv_widen|done..].
Qed.

Context (marshal_ok : forall i m, marshal_Message (env i) m = true).

Lemma inv_reschedule w i sch :
  nodeOK w i -> admissible w i sch -> inv (sent w) ((w i) <| schedule := sch |>).
Proof. intros [HI _ _ _] Hsch. by apply inv_schedule_set. Qed.

Lemma step_worldOK w w' : worldOK w -> step w w' -> worldOK w'.
Proof.
  intros Hw Hstep. destruct Hstep as [i e sch fuel s' Hi Hsch He Hrun Hs Hu
    |i payload sch fuel r s' Hi Hsch Hrun Hs Hu];
    pose proof (inv_reschedule w i sch (Hw i Hi) Hsch) as HI.
  - assert (R0 ((w i) <| schedule := sch |>) s') as HR.
    { eapply (runLockEvent_R0 (env i) (recvMsgSync (env i) fuel)); [|exact Hrun].
      intros. apply recvMsgSync_R0. }
    pose proof (small_R0 _ _ HR Hs) as Hs0.
    pose proof (runLockEvent_inv (env i) (sent w) (marshal_ok i) fuel e _ Hs0 HI He) as H.
    unfold wlps, wlp in H. rewrite Hrun in H. destruct (H Hs) as [HI' _].
    by eapply worldOK_update.
  - assert (R0 ((w i) <| schedule := sch |>) s') as HR.
    { assert (guar R0 (request (env i) fuel payload i)) as HG by (unfold request; r0).
      by eapply HG. }
    pose proof (small_R0 _ _ HR Hs) as Hs0.
    pose proof (request_inv (env i) (sent w) (marshal_ok i) fuel payload _ Hs0 HI) as H.
    cbn [id_ setter] in H. rewrite (node_id w i (Hw i Hi)) in H.
    unfold wlps, wlp in H. rewrite Hrun in H. destruct (H Hs) as [HI' _].
    by eapply worldOK_update.
Qed.

Lemma reachable_worldOK w : wellConfigured -> reachable w -> worldOK w.
Proof.
  intros Hc (w0 & Hinit & Hsteps).
  assert (worldOK w0) as H0.
  { intros i Hi. destruct (initial_inv (sent w0) i (w0 i) Hc (proj1 Hi) (Hinit i Hi))
      as (? & ? & ? & ?). by split. }
  clear Hinit. induction Hsteps as [|x y z Hxy _ IH]; [done|]. apply IH. by eapply step_worldOK.
Qed.

(** ** Agreement within a view *)

(** What a correct replica is known to have sent, it has sent. *)
Lemma sentBy_out w i j m :
  worldOK w -> correct i -> j ∉ Byz -> sentBy (sent w) (w i) j m ->
  match m with
  | Message_PrePrepare _ | Message_Prepare _ | Message_Commit _ | Message_NewView _ =>
      own (w j) m
  | _ => True
  end.
Proof.
  intros Hw Hi Hj. unfold sentBy. rewrite (node_id w i (Hw i Hi)).
  destruct (decide (j = i)) as [->|Hne].
  - destruct m; done.
  - unfold sent, own. destruct m; tauto.
Qed.

(** A correct primary gives a sequence number one digest. *)
Lemma assigned_unique w i i' v n d d' :
  worldOK w -> correct i -> correct i' -> correct (primary (w i) v) ->
  primary (w i) v = primary (w i') v ->
  assigned (sent w) (w i) v n d -> assigned (sent w) (w i') v n d' -> d = d'.
Proof.
  intros Hw Hi Hi' Hp Epr H H'.
  pose proof (node_inv _ _ (Hw _ Hp)) as HI. set (p := primary (w i) v) in *.
  assert (forall k x, correct k -> primary (w k) v = p -> assigned (sent w) (w k) v n x ->
    (exists pp, pp_View pp = v /\ pp_SequenceNumber pp = n /\ pp_RequestDigest pp = x
       /\ own (w p) (Message_PrePrepare pp))
    \/ (exists nv, nv_View nv = v /\ 0 < v /\ nv_Xset nv !! n = Some x
       /\ own (w p) (Message_NewView nv))) as Hown.
  { intros k x Hk Ek [(pp & ? & ? & ? & Hs)|(nv & ? & ? & ? & Hs)]; rewrite Ek in Hs;
      apply (sentBy_out w k p _ Hw Hk (proj2 Hp)) in Hs; eauto 10. }
  destruct (Hown i d Hi eq_refl H) as [(pp & ? & ? & ? & Ho)|(nv & ? & ? & ? & Ho)];
  destruct (Hown i' d' Hi' (eq_sym Epr) H') as [(pp' & ? & ? & ? & Ho')|(nv' & ? & ? & ? & Ho')].
  - subst d d'. apply (inv_pp_unique _ _ HI); congruence.
  - subst d. apply (inv_nv_pp _ _ HI nv' pp); congruence.
  - subst d'. symmetry. apply (inv_nv_pp _ _ HI nv pp'); congruence.
  - assert (nv = nv') as -> by (apply (inv_nv_unique _ _ HI); congruence). congruence.
Qed.

(** The senders of a prepared certificate, as a set. *)
Lemma justified_senders w i v n d :
  worldOK w -> wellConfigured -> correct i -> justified (sent w) (w i) v n d ->
  assigned (sent w) (w i) v n d /\ exists X : gset Z,
    X ⊆ replicas (general_N config) ∖ {[primary (w i) v]}
    /\ general_N config + general_f config - 1 <= 2 * Z.of_nat (size X)
    /\ forall r, r ∈ X -> r ∉ Byz -> exists p, p_View p = v /\ p_SequenceNumber p = n
         /\ p_RequestDigest p = d /\ own (w r) (Message_Prepare p).
Proof.
  intros Hw (Hf & HN & _) Hi [Has (rs & Hnd & Hlen & HF)]. split; [done|].
  destruct (Hw i Hi) as [HI _ EN Ef]. rewrite Forall_forall in HF.
  pose proof (intersectionQuorum_bounds (w i) ltac:(lia)).
  exists (list_to_set rs). split_and!.
  - intros r Hr%elem_of_list_to_set. destruct (HF r Hr) as (? & ? & _).
    rewrite elem_of_difference, elem_of_replicas, elem_of_singleton. split; [lia|done].
  - rewrite size_list_to_set by done. lia.
  - intros r Hr%elem_of_list_to_set Hb. destruct (HF r Hr) as (_ & _ & p & ? & ? & ? & ? & Hs).
    apply (sentBy_out w i r _ Hw Hi Hb) in Hs. eauto 10.
Qed.

Lemma justified_agree w i i' v n d d' :
  worldOK w -> wellConfigured -> correct i -> correct i' ->
  justified (sent w) (w i) v n d -> justified (sent w) (w i') v n d' -> d = d'.
Proof.
  intros Hw Hc Hi Hi' Hj Hj'. pose proof Hc as (Hf & HN & H2 & _ & HB).
  assert (forall k, correct k -> primary (w k) v = v mod general_N config) as Epr.
  { intros k Hk. destruct (Hw k Hk) as [HI _ EN _]. unfold primary.
    destruct (inv_cfg _ _ HI) as (_ & _ & _ & -> & _). by rewrite EN. }
  set (p := v mod general_N config) in *.
  assert (0 <= p < general_N config) as Hp by (apply Z.mod_pos_bound; lia).
  destruct (justified_senders w i v n d Hw Hc Hi Hj) as (Has & X & HX & HsX & HpX).
  destruct (justified_senders w i' v n d' Hw Hc Hi' Hj') as (Has' & Y & HY & HsY & HpY).
  rewrite Epr in HX, HY by done.
  pose proof (backups_overlap (general_N config) p X Y Hp HX HY).
  assert (forall r, r ∈ X -> r <> p /\ 0 <= r < general_N config) as HinX.
  { intros r [Hr1%elem_of_replicas Hr2]%HX%elem_of_difference.
    by rewrite elem_of_singleton in Hr2. }
  destruct (correct_among Byz (X ∩ Y) p (general_f config))
    as [Hcp|(r & [HrX HrY]%elem_of_intersection & Hr)]; [done|lia| | |].
  { intros [Hx _]%elem_of_intersection. by destruct (HinX p Hx). }
  - eapply (assigned_unique w i i'); try done; rewrite !Epr by done; done.
  - destruct (HpX r HrX Hr) as (q & ? & ? & <- & Ho). destruct (HpY r HrY Hr) as (q' & ? & ? & <- & Ho').
    assert (correct r) as Hcr by (split; [by apply HinX|done]).
    apply (inv_prep_unique _ _ (node_inv _ _ (Hw r Hcr))); congruence.
Qed.

(** ** Executable runs *)

#[local] Instance correct_dec i : Decision (correct i).
Proof. unfold correct. apply _. Defined.
#[local] Instance sent_dec w j m : Decision (sent w j m).
Proof. destruct m; cbn; apply _. Defined.
#[local] Instance boundedMsg_dec b m : Decision (boundedMsg b m).
Proof. destruct m; cbn; unfold is_u64, upTo, boundedCset, upTo; apply _. Defined.
#[local] Instance lockEventOK_dec w s e : Decision (lockEventOK (sent w) s e).
Proof. destruct e; cbn; apply _. Defined.

Inductive action :=
| act_event (i : Z) (e : lockEvent)
| act_request (i : Z) (payload : bytes).

Definition settle {B} (w : world) (i : Z) (r : outcome pbftCore B) : option world :=
  match r with
  | Done _ s' =>
      if bool_decide (small s') then Some (fun j => if decide (j = i) then s' else w j) else None
  | _ => None
  end.

Definition perform (fuel : nat) (w : world) (a : action) : option world :=
  match a with
  | act_event i e =>
      if bool_decide (correct i /\ lockEventOK (sent w) (w i) e)
      then settle w i
        (runLockEvent (env i) (recvMsgSync (env i) fuel) e ((w i) <| schedule := [] |>))
      else None
  | act_request i payload =>
      if bool_decide (correct i)
      then settle w i (request (env i) fuel payload i ((w i) <| schedule := [] |>))
      else None
  end.

Fixpoint simulate (fuel : nat) (w : world) (acts : list action) : option world :=
  match acts with
  | [] => Some w
  | a :: rest => w' ← perform fuel w a; simulate fuel w' rest
  end.

Lemma settle_update {B} w i (r : outcome pbftCore B) w' :
  settle w i r = Some w' -> exists b s', r = Done b s' /\ small s' /\ update w i s' w'.
Proof.
  unfold settle. destruct r as [b s'| |]; [|done..]. case_bool_decide; [|done].
  intros [= <-]. exists b, s'. split_and!; [done|done|]. split.
  - by rewrite decide_True.
  - intros. by rewrite decide_False.
Qed.

Lemma perform_step fuel w a w' : perform fuel w a = Some w' -> step w w'.
Proof.
  destruct a as [i e|i payload]; cbn; (case_bool_decide; [|done]).
  - destruct H as [Hi He]. intros ([] & s' & ? & ? & ?)%settle_update.
    eapply step_event; try done. constructor.
  - intros (r & s' & ? & ? & ?)%settle_update. eapply step_request; try done. constructor.
Qed.

Lemma simulate_steps fuel w acts w' : simulate fuel w acts = Some w' -> rtc step w w'.
Proof.
  revert w. induction acts as [|a acts IH]; intros w; cbn [simulate].
  - intros [= ->]. apply rtc_refl.
  - intros (w1 & H1%perform_step & H2)%bind_Some. eapply rtc_l; [done|by apply IH].
Qed.

End network.

(** The scenario of the witnesses: four replicas, the last one Byzantine, order a
    request until replicas 1 and 2 have committed to it. *)
Definition toyWorld0 : world := toyNode.
Definition toyPrePrepare : PrePrepare := mkPrePrepare 0 1 toyDigest (Some toyRequest) 0.
Definition toyActions : list action := [
  act_request 0 (req_Payload toyRequest);
  act_event 1 (lock_message (Message_PrePrepare toyPrePrepare) 0);
  act_event 2 (lock_message (Message_PrePrepare toyPrePrepare) 0);
  act_event 1 (lock_message (Message_Prepare (mkPrepare 0 1 toyDigest 2)) 2);
  act_event 2 (lock_message (Message_Prepare (mkPrepare 0 1 toyDigest 1)) 1)
].
Definition toyWorld : world :=
  default toyWorld0 (simulate (fun _ => toyEnv) toyConfig {[3]} 10 toyWorld0 toyActions).

Lemma toyInitial : initial toyConfig [] {[3]} toyWorld0.
Proof.
  intros i Hi. unfold toyWorld0, toyNode. by destruct (newPbftCore i toyConfig [] []) eqn:E.
Qed.

Lemma toyReachable : reachable (fun _ => toyEnv) toyConfig [] {[3]} toyWorld.
Proof.
  exists toyWorld0. split; [apply toyInitial|]. unfold toyWorld.
  assert (is_Some (simulate (fun _ => toyEnv) toyConfig {[3]} 10 toyWorld0 toyActions)) as [w Hw].
  { match goal with |- is_Some ?x => assert (bool_decide (is_Some x) = true) as H by (vm_compute; reflexivity) end.
    by apply bool_decide_eq_true in H. }
  rewrite Hw. by eapply simulate_steps.
Qed.

Lemma toyWellConfigured : wellConfigured toyConfig {[3]}.
Proof. split_and!; done. Qed.

Lemma toyCorrect1 : correct toyConfig {[3]} 1.
Proof. split; [done|]. by intros ?%elem_of_singleton. Qed.

Lemma toyCorrect2 : correct toyConfig {[3]} 2.
Proof. split; [done|]. by intros ?%elem_of_singleton. Qed.



(** Two correct replicas in the same view never hold prepared certificates
    for different digests under the same sequence number. *)
Theorem prepared_agree env config startupID Byz w i i' v n d d' :
  (forall i m, marshal_Message (env i) m = true) ->
  wellConfigured config Byz -> reachable env config startupID Byz w ->
  correct config Byz i -> correct config Byz i' ->
  view (w i) = v -> view (w i') = v ->
  prepared (w i) d v n = true -> prepared (w i') d' v n = true -> d = d'.
Proof.
  intros Hm Hc Hr Hi Hi' <- Ev Hp Hp'.
  pose proof (reachable_worldOK env config startupID Byz Hm w Hc Hr) as Hw.
  rewrite <- Ev in Hp'.
  destruct (prepared_current _ _ _ _ (node_inv _ _ _ _ (Hw i Hi)) Hp) as [Hj _].
  destruct (prepared_current _ _ _ _ (node_inv _ _ _ _ (Hw i' Hi')) Hp') as [Hj' _].
  rewrite Ev in Hj'. exact (justified_agree _ _ w i i' _ _ _ _ Hw Hc Hi Hi' Hj Hj').
Qed.

Lemma prepared_agree_witness :
  exists w, reachable (fun _ => toyEnv) toyConfig [] {[3]} w
  /\ prepared (w 1) toyDigest 0 1 = true /\ prepared (w 2) toyDigest 0 1 = true
  /\ toyDigest = toyDigest.
Proof.
  assert (view (toyWorld 1) = 0) as V1 by (vm_compute; reflexivity).
  assert (view (toyWorld 2) = 0) as V2 by (vm_compute; reflexivity).
  assert (prepared (toyWorld 1) toyDigest 0 1 = true) as H1 by (vm_compute; reflexivity).
  assert (prepared (toyWorld 2) toyDigest 0 1 = true) as H2 by (vm_compute; reflexivity).
  exists toyWorld. split_and!; [apply toyReachable|exact H1|exact H2|].
  exact (prepared_agree (fun _ => toyEnv) toyConfig [] {[3]} toyWorld 1 2 0 1 _ _
    (fun _ _ => eq_refl) toyWellConfigured toyReachable toyCorrect1 toyCorrect2 V1 V2 H1 H2).
Defined.



(** C18.  Commits are justified.  When a correct replica has broadcast a commit, the primary of
    that view has assigned the digest to the sequence number, and a set of backups that
    together with the primary is a quorum has prepared it: every correct one of
    them has broadcast the matching prepare. *)
Theorem commit_justified env config startupID Byz w i c :
  (forall i m, marshal_Message (env i) m = true) ->
  wellConfigured config Byz -> reachable env config startupID Byz w -> correct config Byz i ->
  call_broadcast (Message_Commit c) ∈ out (w i) ->
  assigned (sent Byz w) (w i) (c_View c) (c_SequenceNumber c) (c_RequestDigest c)
  /\ exists X : gset Z,
    X ⊆ replicas (general_N config) ∖ {[primary (w i) (c_View c)]}
    /\ general_N config + general_f config - 1 <= 2 * Z.of_nat (size X)
    /\ forall r, r ∈ X -> r ∉ Byz -> exists p, p_View p = c_View c
         /\ p_SequenceNumber p = c_SequenceNumber c /\ p_RequestDigest p = c_RequestDigest c
         /\ call_broadcast (Message_Prepare p) ∈ out (w r).
Proof.
  intros Hm Hc Hr Hi Ho.
  pose proof (reachable_worldOK env config startupID Byz Hm w Hc Hr) as Hw.
  apply (justified_senders config Byz w i _ _ _ Hw Hc Hi).
  exact (inv_commit _ _ (node_inv _ _ _ _ (Hw i Hi)) c Ho).
Qed.

Lemma commit_justified_witness :
  call_broadcast (Message_Commit (mkCommit 0 1 toyDigest 1)) ∈ out (toyWorld 1) /\
  assigned (sent {[3]} toyWorld) (toyWorld 1) 0 1 toyDigest.
Proof.
  assert (call_broadcast (Message_Commit (mkCommit 0 1 toyDigest 1)) ∈ out (toyWorld 1)) as H
    by (apply (bool_decide_unpack _); vm_compute; exact I).
  split; [exact H|].
  exact (proj1 (commit_justified (fun _ => toyEnv) toyConfig [] {[3]} toyWorld 1
    (mkCommit 0 1 toyDigest 1) (fun _ _ => eq_refl) toyWellConfigured toyReachable toyCorrect1 H)).
Defined.


