(* ===== verification/GoBytes.v ===== *)
(** Byte strings as Go's [bytes] and [encoding/binary] packages treat them:
    [bytes.Compare], big-endian integers, and the functions of the protobuf
    library for varints and length-prefixed data
    (vendor/github.com/golang/protobuf/proto/encode.go and decode.go).  In the
    ledger a Go string is represented by its bytes, a [[]byte] that may be nil by
    an [option bytes]. *)
From stdpp Require Import base gmap countable list sorting.
From Stdlib Require Import ZArith Lia.
From Stdlib.Strings Require Import Byte.
From S2P Require Import Prelude GoStd.

#[export] Instance byte_countable : Countable Byte.byte.
Proof.
  refine (inj_countable' Z_of_byte byte_of_Z _). apply byte_of_Z_of_byte.
Defined.

(** * bytes.Compare *)

Fixpoint bytesCompare (a b : bytes) : comparison :=
  match a, b with
  | [], [] => Eq
  | [], _ :: _ => Lt
  | _ :: _, [] => Gt
  | x :: a', y :: b' =>
      match Z_of_byte x ?= Z_of_byte y with
      | Eq => bytesCompare a' b'
      | c => c
      end
  end.

Definition bytesLt (a b : bytes) : Prop := bytesCompare a b = Lt.
Definition bytesLe (a b : bytes) : Prop := bytesCompare a b <> Gt.

#[export] Instance bytesLt_dec : RelDecision bytesLt.
Proof. intros a b. unfold bytesLt. apply _. Defined.
#[export] Instance bytesLe_dec : RelDecision bytesLe.
Proof. intros a b. unfold bytesLe. apply _. Defined.

Lemma bytesCompare_refl a : bytesCompare a a = Eq.
Proof. induction a as [|x a IH]; [done|]. cbn. by rewrite Z.compare_refl. Qed.

Lemma bytesCompare_eq a b : bytesCompare a b = Eq <-> a = b.
Proof.
  split; [|intros ->; apply bytesCompare_refl].
  revert b. induction a as [|x a IH]; intros [|y b]; try done. cbn.
  destruct (Z.compare_spec (Z_of_byte x) (Z_of_byte y)) as [E| |]; [|done..].
  intros H%IH. apply (inj Z_of_byte) in E. congruence.
Qed.

Lemma bytesCompare_opp a b : bytesCompare b a = CompOpp (bytesCompare a b).
Proof.
  revert b. induction a as [|x a IH]; intros [|y b]; try done. cbn.
  rewrite (Z.compare_antisym (Z_of_byte x)).
  destruct (Z_of_byte x ?= Z_of_byte y); cbn; auto.
Qed.

Lemma bytesLt_trans a b c : bytesLt a b -> bytesLt b c -> bytesLt a c.
Proof.
  unfold bytesLt. revert b c. induction a as [|x a IH]; intros [|y b] [|z c]; try done. cbn.
  destruct (Z.compare_spec (Z_of_byte x) (Z_of_byte y)) as [E1|E1|E1];
  destruct (Z.compare_spec (Z_of_byte y) (Z_of_byte z)) as [E2|E2|E2]; try done; intros H1 H2.
  - rewrite E1, E2, Z.compare_refl. by eapply IH.
  - rewrite E1, (proj2 (Z.compare_lt_iff _ _) E2). done.
  - rewrite <- E2, (proj2 (Z.compare_lt_iff _ _) E1). done.
  - by rewrite (proj2 (Z.compare_lt_iff (Z_of_byte x) (Z_of_byte z))) by lia.
Qed.

Lemma bytesLt_irrefl a : ~ bytesLt a a.
Proof. unfold bytesLt. by rewrite bytesCompare_refl. Qed.

#[export] Instance bytesLt_strict : StrictOrder bytesLt.
Proof. split; [intros a; apply bytesLt_irrefl|intros a b c; apply bytesLt_trans]. Qed.

Lemma bytesLe_lt a b : bytesLe a b <-> bytesLt a b \/ a = b.
Proof.
  unfold bytesLe, bytesLt. rewrite <- bytesCompare_eq. destruct (bytesCompare a b); intuition congruence.
Qed.

Lemma bytes_trichotomy a b : bytesLt a b \/ a = b \/ bytesLt b a.
Proof.
  unfold bytesLt. rewrite (bytesCompare_opp a b), <- bytesCompare_eq.
  destruct (bytesCompare a b); cbn; auto.
Qed.

Lemma bytesLe_not_lt a b : bytesLe a b <-> ~ bytesLt b a.
Proof.
  unfold bytesLe, bytesLt. rewrite (bytesCompare_opp a b). destruct (bytesCompare a b); cbn; intuition congruence.
Qed.

#[export] Instance bytesLe_order : PreOrder bytesLe.
Proof.
  split.
  - intros a. apply bytesLe_lt. by right.
  - intros a b c. rewrite !bytesLe_lt. intros [H1| ->] [H2| ->]; auto.
    left. by eapply bytesLt_trans.
Qed.

#[export] Instance bytesLe_total : Total bytesLe.
Proof.
  intros a b. destruct (bytes_trichotomy a b) as [H|[-> |H]].
  - left. apply bytesLe_lt. auto.
  - left. reflexivity.
  - right. apply bytesLe_lt. auto.
Qed.

#[export] Instance bytesLe_antisym : AntiSymm (=) bytesLe.
Proof.
  intros a b [H1|?]%bytesLe_lt [H2|?]%bytesLe_lt; [|done..].
  exfalso. apply (bytesLt_irrefl a). by eapply bytesLt_trans.
Qed.

Lemma bytesCompare_app_l p a b : bytesCompare (p ++ a) (p ++ b) = bytesCompare a b.
Proof. induction p as [|x p IH]; [done|]. cbn. by rewrite Z.compare_refl. Qed.

(** Strings of one length compare before what follows them. *)
Lemma bytesCompare_app a b x y : length a = length b ->
  bytesCompare (a ++ x) (b ++ y) =
    match bytesCompare a b with Eq => bytesCompare x y | c => c end.
Proof.
  revert b. induction a as [|u a IH]; intros [|v b]; try done. cbn. intros [= E].
  destruct (_ ?= _); auto.
Qed.

Lemma bytesLe_app a x : bytesLe a (a ++ x).
Proof.
  apply bytesLe_not_lt. unfold bytesLt. induction a as [|u a IH]; cbn; [by destruct x|].
  by rewrite Z.compare_refl.
Qed.

(** * Big-endian integers *)

(** The low [k] bytes of [n], most significant first. *)
Fixpoint beBytes (k : nat) (n : Z) : bytes :=
  match k with
  | O => []
  | S k' => byte_of_Z (Z.shiftr n (8 * Z.of_nat k')) :: beBytes k' n
  end.

Definition fromBE (b : bytes) : Z := foldl (fun acc x => acc * 256 + Z_of_byte x) 0 b.

(** [binary.BigEndian.PutUint64] and [Uint64]. *)
Definition PutUint64 (n : Z) : bytes := beBytes 8 n.
Definition Uint64 (b : bytes) : Z := fromBE b.

Lemma beBytes_length k n : length (beBytes k n) = k.
Proof. induction k; cbn; congruence. Qed.

Lemma fromBE_acc b acc :
  foldl (fun acc x => acc * 256 + Z_of_byte x) acc b = acc * 256 ^ Z.of_nat (length b) + fromBE b.
Proof.
  unfold fromBE. revert acc. induction b as [|x b IH]; intros acc; cbn [foldl length].
  - cbn. lia.
  - rewrite (IH (acc * 256 + Z_of_byte x)), (IH (0 * 256 + Z_of_byte x)).
    rewrite Nat2Z.inj_succ, Z.pow_succ_r by lia. lia.
Qed.

Lemma fromBE_cons x b : fromBE (x :: b) = Z_of_byte x * 256 ^ Z.of_nat (length b) + fromBE b.
Proof. unfold fromBE at 1. cbn [foldl]. rewrite fromBE_acc. lia. Qed.

Lemma fromBE_range b : 0 <= fromBE b < 256 ^ Z.of_nat (length b).
Proof.
  induction b as [|x b IH]; [cbn; lia|]. rewrite fromBE_cons. cbn [length].
  rewrite Nat2Z.inj_succ, Z.pow_succ_r by lia. pose proof (Z_of_byte_range x). nia.
Qed.

Lemma fromBE_beBytes k n : fromBE (beBytes k n) = n mod 256 ^ Z.of_nat k.
Proof.
  induction k as [|k IH]; [by rewrite Z.mod_1_r|]. cbn [beBytes].
  rewrite fromBE_cons, beBytes_length, IH, Z_of_byte_of_Z.
  rewrite Z.shiftr_div_pow2 by lia. replace (2 ^ (8 * Z.of_nat k)) with (256 ^ Z.of_nat k)
    by (rewrite Z.pow_mul_r by lia; done).
  rewrite Nat2Z.inj_succ, Z.pow_succ_r by lia.
  rewrite (Z.mul_comm 256), Z.rem_mul_r by lia. lia.
Qed.

Lemma Uint64_PutUint64 n : is_u64 n -> Uint64 (PutUint64 n) = n.
Proof.
  intros H. unfold Uint64, PutUint64. rewrite fromBE_beBytes. apply Z.mod_small. exact H.
Qed.

(** Strings of one length compare as the numbers they spell. *)
Lemma bytesCompare_fromBE a b : length a = length b ->
  bytesCompare a b = (fromBE a ?= fromBE b).
Proof.
  revert b. induction a as [|x a IH]; intros [|y b]; try done. intros [= E]. cbn [bytesCompare].
  rewrite IH, !fromBE_cons, <- E by done.
  pose proof (fromBE_range a). pose proof (fromBE_range b) as Hb. rewrite <- E in Hb.
  set (P := 256 ^ Z.of_nat (length a)) in *.
  destruct (Z.compare_spec (Z_of_byte x) (Z_of_byte y)) as [Exy|Hlt|Hlt].
  - rewrite Exy. symmetry. apply Zcompare_plus_compat.
  - symmetry. apply Z.compare_lt_iff. nia.
  - symmetry. apply Z.compare_gt_iff. nia.
Qed.

(** * Varints *)

Fixpoint encodeVarintLoop (fuel : nat) (x : Z) : bytes :=
  if x >? 127 then
    match fuel with
    | O => []
    | S fuel' => byte_of_Z (Z.lor 128 (Z.land x 127)) :: encodeVarintLoop fuel' (Z.shiftr x 7)
    end
  else [byte_of_Z x].

(** [EncodeVarint]; ten bytes hold every uint64. *)
Definition EncodeVarint (x : Z) : bytes := encodeVarintLoop 9 x.

(** The loop of [DecodeVarint], [k] rounds before [shift] reaches 64. *)
Fixpoint decodeVarintLoop (k : nat) (shift x : Z) (n : nat) (buf : bytes) : option (Z * nat) :=
  match k, buf with
  | O, _ => None
  | S _, [] => None
  | S k', b :: rest =>
      let x := Z.lor x (u64 (Z.shiftl (Z.land (Z_of_byte b) 127) shift)) in
      if Z.land (Z_of_byte b) 128 =? 0 then Some (x, S n)
      else decodeVarintLoop k' (shift + 7) x (S n) rest
  end.

(** [DecodeVarint]: the number and the bytes read, zeros when it cannot be read. *)
Definition DecodeVarint (buf : bytes) : Z * nat :=
  default (0, O) (decodeVarintLoop 10 0 0 0 buf).

Lemma land_127 x : Z.land x 127 = x mod 128.
Proof. change 127 with (Z.ones 7). by rewrite Z.land_ones by lia. Qed.

Lemma lor_shiftl a y s : 0 <= s -> 0 <= a < 2 ^ s -> Z.lor a (Z.shiftl y s) = a + y * 2 ^ s.
Proof.
  intros Hs Ha. assert (Z.land a (Z.shiftl y s) = 0) as E.
  { apply Z.bits_inj'. intros m Hm. rewrite Z.land_spec, Z.bits_0.
    destruct (Z.ltb_spec m s) as [Hlt|Hge].
    - rewrite Z.shiftl_spec_low by lia. apply andb_false_r.
    - replace a with (a mod 2 ^ s) by (apply Z.mod_small; lia).
      by rewrite Z.mod_pow2_bits_high by lia. }
  rewrite <- Z.lxor_lor, <- Z.add_nocarry_lxor by done. by rewrite Z.shiftl_mul_pow2.
Qed.

Lemma land_128 b : (Z.land (Z_of_byte b) 128 =? 0) = (Z_of_byte b <? 128).
Proof. by destruct b. Qed.

Lemma varint_roundtrip_loop f k x shift acc n rest :
  0 <= x -> 0 <= shift -> 0 <= acc < 2 ^ shift -> x * 2 ^ shift + acc < two64 ->
  x < 128 ^ Z.of_nat (S f) -> (f < k)%nat ->
  decodeVarintLoop k shift acc n (encodeVarintLoop f x ++ rest)
  = Some (acc + x * 2 ^ shift, (n + length (encodeVarintLoop f x))%nat).
Proof.
  revert f x shift acc n. induction k as [|k IH]; intros f x shift acc n Hx Hs Hacc Hb Hf Hk; [lia|].
  assert (0 < 2 ^ shift) as Hpow by (apply Z.pow_pos_nonneg; lia).
  destruct (Z.gtb_spec x 127) as [Hbig|Hsm].
  - destruct f as [|f]; [cbn in Hf; lia|]. cbn [encodeVarintLoop].
    replace (x >? 127) with true by lia. cbn [app decodeVarintLoop length].
    assert (Z_of_byte (byte_of_Z (Z.lor 128 (Z.land x 127))) = 128 + x mod 128) as Eb.
    { rewrite Z_of_byte_of_Z, land_127, Z.lor_comm.
      pose proof (Z.mod_pos_bound x 128 ltac:(lia)).
      pose proof (lor_shiftl (x mod 128) 1 7 ltac:(lia) ltac:(lia)) as E.
      change (Z.shiftl 1 7) with 128 in E. rewrite E. rewrite Z.mod_small; lia. }
    pose proof (Z.mod_pos_bound x 128 ltac:(lia)) as Hm.
    rewrite land_128, Eb. replace (128 + x mod 128 <? 128) with false by lia.
    rewrite land_127. replace ((128 + x mod 128) mod 128) with (x mod 128)
      by (replace (128 + x mod 128) with (x mod 128 + 1 * 128) by lia;
          by rewrite Z_mod_plus_full, Z.mod_mod by lia).
    pose proof (Z.div_mod x 128 ltac:(lia)) as Hdm.
    rewrite u64_small.
    2:{ rewrite Z.shiftl_mul_pow2 by lia. unfold is_u64. nia. }
    rewrite lor_shiftl by lia. rewrite Z.shiftr_div_pow2 by lia. change (2 ^ 7) with 128.
    rewrite IH; try lia.
    + rewrite Z.pow_add_r by lia. change (2 ^ 7) with 128. f_equal. f_equal; [nia|lia].
    + rewrite Z.pow_add_r by lia. change (2 ^ 7) with 128. nia.
    + rewrite Z.pow_add_r by lia. change (2 ^ 7) with 128. nia.
    + apply Z.div_lt_upper_bound; [lia|]. rewrite Nat2Z.inj_succ, Z.pow_succ_r in Hf by lia. done.
  - assert (encodeVarintLoop f x = [byte_of_Z x]) as ->
      by (destruct f; cbn [encodeVarintLoop]; replace (x >? 127) with false by lia; done).
    cbn [app decodeVarintLoop length]. rewrite land_128, Z_of_byte_of_Z, (Z.mod_small x 256) by lia.
    replace (x <? 128) with true by lia.
    rewrite land_127, Z.mod_small by lia. rewrite u64_small.
    2:{ rewrite Z.shiftl_mul_pow2 by lia. unfold is_u64. lia. }
    rewrite lor_shiftl by lia. f_equal. f_equal. lia.
Qed.

Lemma DecodeVarint_EncodeVarint x rest : is_u64 x ->
  DecodeVarint (EncodeVarint x ++ rest) = (x, length (EncodeVarint x)).
Proof.
  intros [Hx0 Hx]. unfold DecodeVarint, EncodeVarint.
  pose proof (varint_roundtrip_loop 9 10 x 0 0 0 rest Hx0 ltac:(lia) ltac:(lia)
    ltac:(change (2 ^ 0) with 1; lia) ltac:(unfold two64 in Hx; lia) ltac:(lia)) as E.
  rewrite E. change (2 ^ 0) with 1. by rewrite Z.mul_1_r.
Qed.

(** The encoding of a small number is that number. *)
Lemma EncodeVarint_small x : 0 <= x <= 127 -> EncodeVarint x = [byte_of_Z x].
Proof. intros H. unfold EncodeVarint. cbn. by replace (x >? 127) with false by lia. Qed.

(** ** proto.Buffer *)

(** Reading from a [Buffer] whose unread bytes are [buf]; [None] is an error. *)
Definition bufDecodeVarint (buf : bytes) : option (Z * bytes) :=
  '(x, n) ← decodeVarintLoop 10 0 0 0 buf; Some (x, drop n buf).

Definition bufDecodeRawBytes (buf : bytes) : option (bytes * bytes) :=
  '(n, rest) ← bufDecodeVarint buf;
  let nb := i64 n in
  if nb <? 0 then None
  else if nb >? Z.of_nat (length rest) then None
  else Some (take (Z.to_nat nb) rest, drop (Z.to_nat nb) rest).

(** What [EncodeRawBytes] and [EncodeStringBytes] append; nil has length zero. *)
Definition encodeRawBytes (b : bytes) : bytes := EncodeVarint (Z.of_nat (length b)) ++ b.

Lemma bufDecodeVarint_encode x rest : is_u64 x ->
  bufDecodeVarint (EncodeVarint x ++ rest) = Some (x, rest).
Proof.
  intros [Hx0 Hx]. unfold bufDecodeVarint, EncodeVarint.
  pose proof (varint_roundtrip_loop 9 10 x 0 0 0 rest Hx0 ltac:(lia) ltac:(lia)
    ltac:(change (2 ^ 0) with 1; lia) ltac:(unfold two64 in Hx; lia) ltac:(lia)) as E.
  rewrite E. change (2 ^ 0) with 1. cbn [mbind option_bind].
  rewrite Z.mul_1_r, Nat.add_0_l, drop_app_length. done.
Qed.

(** Lengths of Go slices fit in an int64. *)
Definition fitsInt (b : bytes) : Prop := Z.of_nat (length b) < 9223372036854775808.

Lemma bufDecodeRawBytes_encode b rest : fitsInt b ->
  bufDecodeRawBytes (encodeRawBytes b ++ rest) = Some (b, rest).
Proof.
  unfold fitsInt, bufDecodeRawBytes, encodeRawBytes. intros Hb.
  rewrite <- app_assoc, bufDecodeVarint_encode by (unfold is_u64, two64; lia).
  cbn [mbind option_bind].
  assert (i64 (Z.of_nat (length b)) = Z.of_nat (length b)) as ->.
  { unfold i64. rewrite Z.mod_small by (unfold two64; lia). lia. }
  rewrite length_app. replace (Z.of_nat (length b) <? 0) with false by lia.
  destruct (Z.gtb_spec (Z.of_nat (length b)) (Z.of_nat (length b + length rest))); [lia|].
  rewrite Nat2Z.id, take_app_length, drop_app_length. done.
Qed.
