(* ===== verification/LedgerUtil.v ===== *)
(** core/ledger/util/util.go and core/ledger/statemgmt/commons.go: the encoding
    of bucket numbers that keeps their order in the database, and composite keys. *)
From stdpp Require Import base gmap list.
From Stdlib Require Import ZArith Lia.
From Stdlib.Strings Require Import Byte.
From S2P Require Import Prelude GoStd GoBytes.

(** [IsNil]: nil or of length zero. *)
Definition IsNil (b : option bytes) : bool :=
  match b with None => true | Some [] => true | Some (_ :: _) => false end.
Definition NotNil (b : option bytes) : bool := negb (IsNil b).

(** * Order-preserving varints *)

(** The loop that finds the first byte that is not zero: its index and the
    number of bytes from there on. *)
Fixpoint firstNonZero (i : nat) (bs : bytes) : nat * nat :=
  match bs with
  | [] => (O, O)
  | b :: rest =>
      if negb (bool_decide (b = Byte.x00)) then (i, (8 - i)%nat) else firstNonZero (S i) rest
  end.

(** [EncodeOrderPreservingVarUint64]; [None] is the panic on a size that needs
    more than one byte. *)
Definition EncodeOrderPreservingVarUint64 (number : Z) : option bytes :=
  let bs := PutUint64 number in
  let '(startingIndex, size) := firstNonZero 0 bs in
  let sizeBytes := EncodeVarint (Z.of_nat size) in
  if (1 <? length sizeBytes)%nat then None
  else
    sizeByte ← head sizeBytes;
    Some (sizeByte :: take size (drop startingIndex bs)).

(** [DecodeOrderPreservingVarUint64]: the number and the bytes consumed; [None]
    is a slice index out of range. *)
Definition DecodeOrderPreservingVarUint64 (bs : bytes) : option (Z * nat) :=
  let '(s, _) := DecodeVarint bs in
  let size := i64 s in
  if (size <? 0) || (size >? 8) || (size + 1 >? Z.of_nat (length bs)) then None
  else
    let size := Z.to_nat size in
    let decodedBytes := replicate (8 - size) Byte.x00 ++ take size (drop 1 bs) in
    Some (Uint64 decodedBytes, S size).

(** The significant bytes of a number. *)
Fixpoint stripZeros (bs : bytes) : bytes :=
  match bs with
  | [] => []
  | b :: rest => if bool_decide (b = Byte.x00) then stripZeros rest else b :: rest
  end.

Lemma stripZeros_split bs : bs = replicate (length bs - length (stripZeros bs)) Byte.x00 ++ stripZeros bs.
Proof.
  induction bs as [|b bs IH]; [done|]. cbn [stripZeros]. case_bool_decide as E.
  - subst b. assert (length (stripZeros bs) <= length bs)%nat.
    { rewrite IH at 2. rewrite length_app, length_replicate. lia. }
    cbn [length]. replace (S (length bs) - length (stripZeros bs))%nat
      with (S (length bs - length (stripZeros bs))) by lia. cbn. by f_equal.
  - by rewrite Nat.sub_diag.
Qed.

Lemma stripZeros_length bs : (length (stripZeros bs) <= length bs)%nat.
Proof. rewrite (stripZeros_split bs) at 2. rewrite length_app, length_replicate. lia. Qed.

Lemma fromBE_zeros k bs : fromBE (replicate k Byte.x00 ++ bs) = fromBE bs.
Proof. induction k as [|k IH]; [done|]. cbn [replicate app]. rewrite fromBE_cons, IH. cbn. lia. Qed.

Lemma fromBE_stripZeros bs : fromBE (stripZeros bs) = fromBE bs.
Proof. rewrite (stripZeros_split bs) at 2. by rewrite fromBE_zeros. Qed.

Lemma firstNonZero_start i bs :
  let '(start, size) := firstNonZero i bs in (i <= start)%nat \/ size = O.
Proof.
  revert i. induction bs as [|b bs IH]; intros i; cbn; [by right|].
  destruct (negb _); [by left|]. specialize (IH (S i)).
  destruct (firstNonZero (S i) bs). destruct IH; [left; lia|by right].
Qed.

Lemma firstNonZero_strip i bs : (i + length bs = 8)%nat ->
  let '(start, size) := firstNonZero i bs in
  size = length (stripZeros bs)
  /\ take size (drop (start - i) bs) = stripZeros bs.
Proof.
  revert i. induction bs as [|b bs IH]; intros i Hlen; cbn [firstNonZero stripZeros]; [done|].
  cbn [length] in Hlen. case_bool_decide; cbn [negb].
  - specialize (IH (S i) ltac:(lia)). pose proof (firstNonZero_start (S i) bs) as Hst.
    destruct (firstNonZero (S i) bs) as [start size]. destruct IH as [-> IH].
    split; [done|]. destruct Hst as [Hst|Hz].
    + replace (start - i)%nat with (S (start - S i)) by lia. done.
    + rewrite Hz. by destruct (stripZeros bs).
  - rewrite Nat.sub_diag. cbn [drop length]. split; [lia|].
    rewrite take_ge; [done|]. cbn [length]. lia.
Qed.

(** The encoding, described by what it is: the significant bytes after their
    number. *)
Definition significant (n : Z) : bytes := stripZeros (PutUint64 n).
Definition opv (n : Z) : bytes := byte_of_Z (Z.of_nat (length (significant n))) :: significant n.

Lemma significant_length n : (length (significant n) <= 8)%nat.
Proof. unfold significant. rewrite stripZeros_length. unfold PutUint64. by rewrite beBytes_length. Qed.

Lemma Encode_opv n : EncodeOrderPreservingVarUint64 n = Some (opv n).
Proof.
  unfold EncodeOrderPreservingVarUint64.
  pose proof (firstNonZero_strip 0 (PutUint64 n) ltac:(unfold PutUint64; by rewrite beBytes_length)) as H.
  destruct (firstNonZero 0 (PutUint64 n)) as [start size]. destruct H as [-> H].
  rewrite Nat.sub_0_r in H. rewrite H. fold (significant n).
  pose proof (significant_length n). rewrite EncodeVarint_small by lia. done.
Qed.

Lemma fromBE_significant n : is_u64 n -> fromBE (significant n) = n.
Proof. intros. unfold significant. rewrite fromBE_stripZeros. by apply Uint64_PutUint64. Qed.

Lemma opv_size n : Z_of_byte (byte_of_Z (Z.of_nat (length (significant n)))) = Z.of_nat (length (significant n)).
Proof. pose proof (significant_length n). rewrite Z_of_byte_of_Z. apply Z.mod_small. lia. Qed.

Lemma Decode_opv n rest : is_u64 n ->
  DecodeOrderPreservingVarUint64 (opv n ++ rest) = Some (n, length (opv n)).
Proof.
  intros Hn. unfold DecodeOrderPreservingVarUint64, opv. cbn [app].
  pose proof (significant_length n) as Hl.
  assert (DecodeVarint (byte_of_Z (Z.of_nat (length (significant n))) :: significant n ++ rest)
    = (Z.of_nat (length (significant n)), 1%nat)) as ->.
  { pose proof (DecodeVarint_EncodeVarint (Z.of_nat (length (significant n))) (significant n ++ rest)
      ltac:(unfold is_u64, two64; lia)) as E.
    by rewrite EncodeVarint_small in E by lia. }
  assert (i64 (Z.of_nat (length (significant n))) = Z.of_nat (length (significant n))) as ->.
  { unfold i64. rewrite Z.mod_small by (unfold two64; lia). lia. }
  cbn [length drop]. rewrite length_app.
  destruct (Z.ltb_spec (Z.of_nat (length (significant n))) 0); [lia|].
  destruct (Z.gtb_spec (Z.of_nat (length (significant n))) 8); [lia|].
  destruct (Z.gtb_spec (Z.of_nat (length (significant n)) + 1)
    (Z.of_nat (S (length (significant n) + length rest)))); [lia|]. cbn [orb].
  rewrite Nat2Z.id, skipn_O, take_app_length. unfold Uint64. rewrite fromBE_zeros.
  by rewrite fromBE_significant.
Qed.

(** A number with fewer significant bytes is smaller. *)
Lemma significant_lower n : is_u64 n -> significant n <> [] ->
  256 ^ (Z.of_nat (length (significant n)) - 1) <= n.
Proof.
  intros Hn Hne. rewrite <- (fromBE_significant n Hn) at 2.
  assert (forall bs b rest, stripZeros bs = b :: rest -> b <> Byte.x00) as Hhd.
  { clear. induction bs as [|b bs IH]; intros b' rest; cbn; [done|].
    case_bool_decide; [apply IH|]. congruence. }
  destruct (significant n) as [|b rest] eqn:E; [done|]. apply Hhd in E.
  rewrite fromBE_cons. cbn [length].
  replace (Z.of_nat (S (length rest)) - 1) with (Z.of_nat (length rest)) by lia.
  assert (1 <= Z_of_byte b) as Hb.
  { destruct (decide (Z_of_byte b = 0)) as [E0|]; [|pose proof (Z_of_byte_range b); lia].
    destruct E. by rewrite <- (byte_of_Z_of_byte b), E0. }
  pose proof (fromBE_range rest). nia.
Qed.

Lemma significant_upper n : is_u64 n -> n < 256 ^ Z.of_nat (length (significant n)).
Proof. intros Hn. rewrite <- (fromBE_significant n Hn) at 1. apply fromBE_range. Qed.

Lemma significant_length_lt a b : is_u64 a -> is_u64 b ->
  (length (significant a) < length (significant b))%nat -> a < b.
Proof.
  intros Ha Hb Hlt. pose proof (significant_upper a Ha).
  pose proof (significant_lower b Hb ltac:(destruct (significant b); [cbn in Hlt; lia|done])).
  assert (256 ^ Z.of_nat (length (significant a)) <= 256 ^ (Z.of_nat (length (significant b)) - 1))
    by (apply Z.pow_le_mono_r; lia). lia.
Qed.

Lemma opv_compare a b x y : is_u64 a -> is_u64 b ->
  bytesCompare (opv a ++ x) (opv b ++ y) =
    match a ?= b with Eq => bytesCompare x y | c => c end.
Proof.
  intros Ha Hb. unfold opv. cbn [app bytesCompare]. rewrite !opv_size.
  destruct (Z.compare_spec (Z.of_nat (length (significant a))) (Z.of_nat (length (significant b)))) as [E|H|H].
  - rewrite bytesCompare_app, bytesCompare_fromBE by lia. by rewrite !fromBE_significant.
  - pose proof (significant_length_lt a b Ha Hb ltac:(lia)).
    by rewrite (proj2 (Z.compare_lt_iff a b)) by lia.
  - pose proof (significant_length_lt b a Hb Ha ltac:(lia)).
    by rewrite (proj2 (Z.compare_gt_iff a b)) by lia.
Qed.

(** C34. The order-preserving encoding.  It never panics, decoding gives back the number and
    the bytes used whatever follows, and encodings, followed by anything, compare
    as the numbers do and then as what follows. *)
Theorem orderPreservingVarint a b x y :
  is_u64 a -> is_u64 b ->
  exists ea eb, EncodeOrderPreservingVarUint64 a = Some ea
    /\ EncodeOrderPreservingVarUint64 b = Some eb
    /\ DecodeOrderPreservingVarUint64 (ea ++ x) = Some (a, length ea)
    /\ bytesCompare (ea ++ x) (eb ++ y) =
         match a ?= b with Eq => bytesCompare x y | c => c end.
Proof.
  intros Ha Hb. exists (opv a), (opv b). rewrite !Encode_opv.
  split_and!; [done|done|by apply Decode_opv|by apply opv_compare].
Qed.

Lemma orderPreservingVarint_witness :
  exists ea eb, EncodeOrderPreservingVarUint64 255 = Some ea
    /\ EncodeOrderPreservingVarUint64 256 = Some eb
    /\ bytesCompare (ea ++ [Byte.xff]) (eb ++ []) = Lt.
Proof.
  destruct (orderPreservingVarint 255 256 [Byte.xff] [] ltac:(vm_compute; split; congruence)
    ltac:(vm_compute; split; congruence)) as (ea & eb & E1 & E2 & _ & E3).
  exists ea, eb. exact (conj E1 (conj E2 E3)).
Defined.

(** * Composite keys *)

Definition stateKeyDelimiter : Byte.byte := Byte.x00.

Definition ConstructCompositeKey (chaincodeID key : bytes) : bytes :=
  chaincodeID ++ stateKeyDelimiter :: key.

(** [bytes.SplitN] with the delimiter and two parts; [None] is the panic on the
    missing second part. *)
Fixpoint DecodeCompositeKey (compositeKey : bytes) : option (bytes * bytes) :=
  match compositeKey with
  | [] => None
  | b :: rest =>
      if bool_decide (b = stateKeyDelimiter) then Some ([], rest)
      else '(c, k) ← DecodeCompositeKey rest; Some (b :: c, k)
  end.

(** Composite keys decode, provided the chaincode id has no zero byte; the key may. *)
Lemma DecodeCompositeKey_Construct c k :
  stateKeyDelimiter ∉ c -> DecodeCompositeKey (ConstructCompositeKey c k) = Some (c, k).
Proof.
  unfold ConstructCompositeKey. induction c as [|b c IH]; cbn; [done|].
  rewrite not_elem_of_cons. intros [Hb Hc]. rewrite bool_decide_eq_false_2 by congruence.
  by rewrite IH.
Qed.

Lemma ConstructCompositeKey_inj c k c' k' :
  stateKeyDelimiter ∉ c -> stateKeyDelimiter ∉ c' ->
  ConstructCompositeKey c k = ConstructCompositeKey c' k' -> c = c' /\ k = k'.
Proof.
  intros Hc Hc' E. pose proof (DecodeCompositeKey_Construct c k Hc) as H.
  rewrite E, DecodeCompositeKey_Construct in H by done. by simplify_eq.
Qed.

Lemma DecodeCompositeKey_Some ck c k : DecodeCompositeKey ck = Some (c, k) ->
  ck = ConstructCompositeKey c k.
Proof.
  revert c k. induction ck as [|b ck IH]; intros c k; cbn; [done|]. case_bool_decide as E.
  - intros [= <- <-]. by rewrite E.
  - destruct (DecodeCompositeKey ck) as [[c' k']|]; [|done]. cbn. intros [= <- <-].
    by rewrite (IH c' k').
Qed.
