(* ===== verification/KVStore.v ===== *)
(** The database under the ledger.  RocksDB itself is an interface: the class
    [RocksDB] has the calls the ledger makes, [RocksDBLaws] what its
    documentation says of them; core/db/db.go, the layer the ledger uses, is
    modelled on top. *)
From stdpp Require Import base gmap list sorting.
From Stdlib Require Import ZArith Lia.
From Stdlib.Strings Require Import Byte.
From S2P Require Import Prelude GoStd GoBytes LedgerUtil.

(** * Go's error returns *)

Inductive result (A : Type) : Type :=
| Ok (a : A)
| Err.
Arguments Ok {A} a.
Arguments Err {A}.

(** [x, err := m; if err != nil { return err }]. *)
Definition try {S A B} (m : M S (result A)) (k : A -> M S (result B)) : M S (result B) :=
  r ← m; match r with Ok a => k a | Err => mret Err end.

Notation "x ←? m ; k" := (try m (fun x => k))
  (at level 20, m at level 100, k at level 200, right associativity) : fabric_scope.

(** A pure computation that may panic. *)
Definition lift {S A} (x : option A) : M S A :=
  match x with Some a => mret a | None => panic end.

(** * Column families and write batches *)

Inductive columnFamily := BlockchainCF | StateCF | StateDeltaCF | IndexesCF.

#[export] Instance columnFamily_eq_dec : EqDecision columnFamily.
Proof. solve_decision. Defined.
#[export] Instance columnFamily_countable : Countable columnFamily.
Proof.
  apply (inj_countable'
    (fun cf => match cf with BlockchainCF => 0%nat | StateCF => 1%nat
                        | StateDeltaCF => 2%nat | IndexesCF => 3%nat end)
    (fun n => match n with O => BlockchainCF | 1%nat => StateCF
                        | 2%nat => StateDeltaCF | _ => IndexesCF end)).
  by intros [].
Defined.

Inductive batchOp :=
| PutCF (cf : columnFamily) (key value : bytes)
| DeleteCF (cf : columnFamily) (key : bytes).

(** What a batch does to one column family. *)
Definition applyOp (cf : columnFamily) (m : gmap bytes bytes) (op : batchOp) : gmap bytes bytes :=
  match op with
  | PutCF cf' k v => if bool_decide (cf' = cf) then <[k := v]> m else m
  | DeleteCF cf' k => if bool_decide (cf' = cf) then delete k m else m
  end.

Definition applyBatch (cf : columnFamily) (m : gmap bytes bytes) (batch : list batchOp)
    : gmap bytes bytes := foldl (applyOp cf) m batch.

Lemma applyBatch_app cf m a b : applyBatch cf m (a ++ b) = applyBatch cf (applyBatch cf m a) b.
Proof. apply foldl_app. Qed.

(** * The interface *)

(** [ScanCF db cf k]: the entries an iterator over [cf] goes through from
    [Seek(k)] until it is no longer valid. *)
Class RocksDB (DB : Type) := {
  GetCF : DB -> columnFamily -> bytes -> result (option bytes);
  ScanCF : DB -> columnFamily -> bytes -> list (bytes * bytes);
  Write : DB -> list batchOp -> result DB;
  EmptyCF : DB -> columnFamily -> result DB
}.

(** The order of RocksDB's default comparator. *)
Definition entryLt (x y : bytes * bytes) : Prop := bytesLt x.1 y.1.

(** The documented behaviour: a column family is a map, a batch is applied in
    order and atomically, an iterator goes through the keys in increasing
    bytewise order.  [healthy] excludes failing reads and writes. *)
Class RocksDBLaws (DB : Type) `{RocksDB DB} := {
  contents : DB -> columnFamily -> gmap bytes bytes;
  healthy : DB -> Prop;
  GetCF_contents : forall db cf k, healthy db -> GetCF db cf k = Ok (contents db cf !! k);
  ScanCF_sorted : forall db cf k, StronglySorted entryLt (ScanCF db cf k);
  ScanCF_contents : forall db cf k k' v, healthy db ->
    (k', v) ∈ ScanCF db cf k <-> contents db cf !! k' = Some v /\ bytesLe k k';
  Write_contents : forall db batch, healthy db ->
    exists db', Write db batch = Ok db' /\ healthy db' /\
      forall cf, contents db' cf = applyBatch cf (contents db cf) batch;
  EmptyCF_contents : forall db cf, healthy db ->
    exists db', EmptyCF db cf = Ok db' /\ healthy db' /\
      forall cf', contents db' cf' = if bool_decide (cf' = cf) then ∅ else contents db cf'
}.

(** * core/db/db.go *)

Section openchainDB.
Context {DB : Type} `{RocksDB DB}.

(** [OpenchainDB.get]: [append([]byte(nil), slice.Data()...)] is nil for a
    missing key and for an empty value alike. *)
Definition OpenchainDB_get (db : DB) (cf : columnFamily) (key : bytes) : result (option bytes) :=
  match GetCF db cf key with
  | Err => Err
  | Ok (Some (b :: bs)) => Ok (Some (b :: bs))
  | Ok (Some []) | Ok None => Ok None
  end.

Definition GetFromBlockchainCF (db : DB) (key : bytes) := OpenchainDB_get db BlockchainCF key.
Definition GetFromStateCF (db : DB) (key : bytes) := OpenchainDB_get db StateCF key.
Definition GetFromStateDeltaCF (db : DB) (key : bytes) := OpenchainDB_get db StateDeltaCF key.
Definition GetFromIndexesCF (db : DB) (key : bytes) := OpenchainDB_get db IndexesCF key.

(** [DeleteState] drops and recreates the two state column families. *)
Definition DB_DeleteState (db : DB) : result DB :=
  match EmptyCF db StateCF with
  | Err => Err
  | Ok db' => EmptyCF db' StateDeltaCF
  end.
End openchainDB.

(** * The sorted entries of a map *)

#[export] Instance entryLe_dec : RelDecision (fun x y : bytes * bytes => bytesLe x.1 y.1).
Proof. intros x y. apply _. Defined.

Definition entriesFrom (m : gmap bytes bytes) (k : bytes) : list (bytes * bytes) :=
  merge_sort (fun x y => bytesLe x.1 y.1) (filter (fun x => bytesLe k x.1) (map_to_list m)).

Lemma StronglySorted_lt_NoDup l : StronglySorted entryLt l -> NoDup l.*1.
Proof.
  induction 1 as [|x l Hl IH Hx]; cbn; constructor; [|done].
  intros ([k v] & E & Hin)%list_elem_of_fmap. rewrite Forall_forall in Hx.
  specialize (Hx _ Hin). unfold entryLt in Hx. cbn in *. rewrite E in Hx.
  by apply (bytesLt_irrefl k).
Qed.

(** Strictly sorted lists with the same entries are equal. *)
Lemma sorted_entries_unique l l' :
  StronglySorted entryLt l -> StronglySorted entryLt l' ->
  (forall x, x ∈ l <-> x ∈ l') -> l = l'.
Proof.
  intros Hl Hl' E. apply (StronglySorted_unique_strong entryLt); [|done..|].
  - intros x y _ _ Hxy Hyx. exfalso. apply (bytesLt_irrefl x.1). by eapply bytesLt_trans.
  - apply NoDup_Permutation; [..|done]; eapply NoDup_fmap_1; by apply StronglySorted_lt_NoDup.
Qed.

(** Sorted by [≤] with distinct keys is sorted by [<]. *)
Lemma StronglySorted_le_lt l : NoDup l.*1 ->
  StronglySorted (fun x y : bytes * bytes => bytesLe x.1 y.1) l -> StronglySorted entryLt l.
Proof.
  intros Hnd. induction 1 as [|x l Hl IH Hx]; constructor.
  - apply IH. cbn in Hnd. by apply NoDup_cons in Hnd as [_ ?].
  - cbn in Hnd. apply NoDup_cons in Hnd as [Hfresh _]. rewrite Forall_forall in Hx |- *.
    intros y Hy. destruct (proj1 (bytesLe_lt _ _) (Hx y Hy)) as [?|E]; [done|].
    destruct Hfresh. rewrite E. by apply list_elem_of_fmap_2.
Qed.

#[export] Instance entryLe_trans : Transitive (fun x y : bytes * bytes => bytesLe x.1 y.1).
Proof. intros x y z. apply transitivity. Qed.
#[export] Instance entryLe_total : Total (fun x y : bytes * bytes => bytesLe x.1 y.1).
Proof. intros x y. apply bytesLe_total. Qed.

Lemma NoDup_fst_filter {K A} (P : K * A -> Prop) `{forall x, Decision (P x)} (l : list (K * A)) :
  NoDup l.*1 -> NoDup (filter P l).*1.
Proof.
  induction l as [|x l IH]; [done|]. rewrite fmap_cons, NoDup_cons. intros [Hx Hl].
  rewrite filter_cons. case_decide; [|by apply IH]. cbn. apply NoDup_cons. split; [|by apply IH].
  intros (y & E & [_ Hy]%list_elem_of_filter)%list_elem_of_fmap. apply Hx. rewrite E.
  by apply list_elem_of_fmap_2.
Qed.

Lemma entriesFrom_perm m k :
  entriesFrom m k ≡ₚ filter (fun x => bytesLe k x.1) (map_to_list m).
Proof. apply merge_sort_Permutation. Qed.

Lemma entriesFrom_sorted m k : StronglySorted entryLt (entriesFrom m k).
Proof.
  apply StronglySorted_le_lt.
  - rewrite entriesFrom_perm. apply NoDup_fst_filter, NoDup_fst_map_to_list.
  - apply (StronglySorted_merge_sort _).
Qed.

Lemma elem_of_entriesFrom m k k' v :
  (k', v) ∈ entriesFrom m k <-> m !! k' = Some v /\ bytesLe k k'.
Proof.
  rewrite entriesFrom_perm, list_elem_of_filter, elem_of_map_to_list. cbn. tauto.
Qed.

Section laws.
Context {DB : Type} `{RocksDBLaws DB}.

Lemma ScanCF_entries db cf k : healthy db -> ScanCF db cf k = entriesFrom (contents db cf) k.
Proof.
  intros Hd. apply sorted_entries_unique; [apply ScanCF_sorted|apply entriesFrom_sorted|].
  intros [k' v]. rewrite elem_of_entriesFrom. by apply ScanCF_contents.
Qed.

Lemma OpenchainDB_get_contents db cf k : healthy db ->
  OpenchainDB_get db cf k = Ok (contents db cf !! k ≫= fun v => match v with [] => None | _ => Some v end).
Proof.
  intros Hd. unfold OpenchainDB_get. rewrite GetCF_contents by done.
  by destruct (_ !! k) as [[]|].
Qed.
End laws.

(** * An instance in memory *)

(** [failing] makes every read fail. *)
Record memDB := mkMemDB { mem : gmap columnFamily (gmap bytes bytes); failing : bool }.

Definition memCF (db : memDB) (cf : columnFamily) : gmap bytes bytes := default ∅ (mem db !! cf).

#[export] Instance memDB_RocksDB : RocksDB memDB := {
  GetCF := fun db cf k => if failing db then Err else Ok (memCF db cf !! k);
  ScanCF := fun db cf k => entriesFrom (memCF db cf) k;
  Write := fun db batch => Ok (mkMemDB
    (list_to_map ((fun cf => (cf, applyBatch cf (memCF db cf) batch))
      <$> [BlockchainCF; StateCF; StateDeltaCF; IndexesCF])) (failing db));
  EmptyCF := fun db cf => Ok (mkMemDB (delete cf (mem db)) (failing db))
}.

#[export] Instance memDB_laws : RocksDBLaws memDB.
Proof.
  refine {| contents := memCF; healthy := fun db => failing db = false |}.
  - intros db cf k E. cbn. by rewrite E.
  - intros. apply entriesFrom_sorted.
  - intros. apply elem_of_entriesFrom.
  - intros db batch E. eexists. split; [reflexivity|]. split; [done|]. by intros [].
  - intros db cf E. eexists. split; [reflexivity|]. split; [done|].
    intros cf'. unfold memCF. cbn. rewrite lookup_delete.
    case_bool_decide; case_decide; subst; done.
Defined.

Definition emptyDB : memDB := mkMemDB ∅ false.
