(* ===== verification/StateDelta.v ===== *)
(** core/ledger/statemgmt/state_delta.go and state_delta_iterator.go: the
    uncommitted changes of a batch of transactions, their wire format and range
    scans over them. *)
From stdpp Require Import base gmap list sorting.
From Stdlib Require Import ZArith Lia.
From Stdlib.Strings Require Import Byte.
From S2P Require Import Prelude GoStd GoBytes LedgerUtil.

(** * Data *)

(** A value that is nil is [None]; a nil [Value] marks a deletion. *)
Record UpdatedValue := mkUpdatedValue {
  Value : option bytes;
  PreviousValue : option bytes
}.

Definition IsDelete (u : UpdatedValue) : bool := bool_decide (Value u = None).
Definition GetValue (u : UpdatedValue) : option bytes := Value u.
Definition GetPreviousValue (u : UpdatedValue) : option bytes := PreviousValue u.

Record ChaincodeStateDelta := mkChaincodeStateDelta {
  ChaincodeID : bytes;
  UpdatedKVs : gmap bytes UpdatedValue
}.

Record StateDelta := mkStateDelta {
  ChaincodeStateDeltas : gmap bytes ChaincodeStateDelta;
  RollBackwards : bool
}.

#[export] Instance UpdatedValue_eta : Eta UpdatedValue := fun u =>
  mkUpdatedValue (Value u) (PreviousValue u).
#[export] Instance ChaincodeStateDelta_eta : Eta ChaincodeStateDelta := fun c =>
  mkChaincodeStateDelta (ChaincodeID c) (UpdatedKVs c).
#[export] Instance StateDelta_eta : Eta StateDelta := fun d =>
  mkStateDelta (ChaincodeStateDeltas d) (RollBackwards d).

Definition NewStateDelta : StateDelta := mkStateDelta ∅ false.
Definition newChaincodeStateDelta (chaincodeID : bytes) : ChaincodeStateDelta :=
  mkChaincodeStateDelta chaincodeID ∅.

(** ** One chaincode *)

Module Chaincode.

Definition get (c : ChaincodeStateDelta) (key : bytes) : option UpdatedValue :=
  UpdatedKVs c !! key.

(** A key that is already there keeps its previous value. *)
Definition set (c : ChaincodeStateDelta) (key : bytes) (updatedValue previousValue : option bytes)
    : ChaincodeStateDelta :=
  match UpdatedKVs c !! key with
  | Some u => c <| UpdatedKVs := <[key := u <| Value := updatedValue |>]> (UpdatedKVs c) |>
  | None => c <| UpdatedKVs := <[key := mkUpdatedValue updatedValue previousValue]> (UpdatedKVs c) |>
  end.

Definition remove (c : ChaincodeStateDelta) (key : bytes) (previousValue : option bytes)
    : ChaincodeStateDelta :=
  match UpdatedKVs c !! key with
  | Some u => c <| UpdatedKVs := <[key := u <| Value := None |>]> (UpdatedKVs c) |>
  | None => c <| UpdatedKVs := <[key := mkUpdatedValue None previousValue]> (UpdatedKVs c) |>
  end.

Definition hasChanges (c : ChaincodeStateDelta) : bool := (0 <? size (UpdatedKVs c))%nat.

(** [sort.Strings] on the keys. *)
Definition getSortedKeys (o : mapOrder) (c : ChaincodeStateDelta) : list bytes :=
  merge_sort bytesLe (ord o 1 (UpdatedKVs c)).*1.

End Chaincode.

(** ** The whole delta *)

Definition Get (d : StateDelta) (chaincodeID key : bytes) : option UpdatedValue :=
  c ← ChaincodeStateDeltas d !! chaincodeID; Chaincode.get c key.

Definition getOrCreateChaincodeStateDelta (d : StateDelta) (chaincodeID : bytes)
    : ChaincodeStateDelta :=
  default (newChaincodeStateDelta chaincodeID) (ChaincodeStateDeltas d !! chaincodeID).

(** An update through the pointer that [getOrCreateChaincodeStateDelta] returns. *)
Definition updateChaincode (d : StateDelta) (chaincodeID : bytes)
    (g : ChaincodeStateDelta -> ChaincodeStateDelta) : StateDelta :=
  d <| ChaincodeStateDeltas :=
    <[chaincodeID := g (getOrCreateChaincodeStateDelta d chaincodeID)]> (ChaincodeStateDeltas d) |>.

Definition Set_ (d : StateDelta) (chaincodeID key : bytes) (value previousValue : option bytes)
    : StateDelta :=
  updateChaincode d chaincodeID (fun c => Chaincode.set c key value previousValue).

Definition Delete (d : StateDelta) (chaincodeID key : bytes) (previousValue : option bytes)
    : StateDelta :=
  updateChaincode d chaincodeID (fun c => Chaincode.remove c key previousValue).

Definition IsUpdatedValueSet (d : StateDelta) (chaincodeID key : bytes) : bool :=
  match ChaincodeStateDeltas d !! chaincodeID with
  | None => false
  | Some c => bool_decide (is_Some (UpdatedKVs c !! key))
  end.

Definition IsEmpty (d : StateDelta) : bool := bool_decide (size (ChaincodeStateDeltas d) = O).

Definition GetUpdates (d : StateDelta) (chaincodeID : bytes) : option (gmap bytes UpdatedValue) :=
  UpdatedKVs <$> ChaincodeStateDeltas d !! chaincodeID.

Definition GetUpdatedChaincodeIds (o : mapOrder) (d : StateDelta) (sorted : bool) : list bytes :=
  let ids := fst <$> ord o 0 (ChaincodeStateDeltas d) in
  if sorted then merge_sort bytesLe ids else ids.

(** The body of the two loops of [ApplyChanges]; [existing] is the chaincode's
    entry before the inner loop. *)
Definition applyOne (chaincodeID : bytes) (existing : bool) (d : StateDelta)
    (entry : bytes * UpdatedValue) : StateDelta :=
  let '(key, valueHolder) := entry in
  let previousValue :=
    if existing then
      match Get d chaincodeID key with
      | Some u => PreviousValue u
      | None => PreviousValue valueHolder
      end
    else PreviousValue valueHolder in
  if IsDelete valueHolder then Delete d chaincodeID key previousValue
  else Set_ d chaincodeID key (Value valueHolder) previousValue.

Definition applyChaincode (o : mapOrder) (d : StateDelta)
    (entry : bytes * ChaincodeStateDelta) : StateDelta :=
  let '(chaincodeID, c) := entry in
  let existing := bool_decide (is_Some (ChaincodeStateDeltas d !! chaincodeID)) in
  foldl (applyOne chaincodeID existing) d (ord o 1 (UpdatedKVs c)).

Definition ApplyChanges (o : mapOrder) (d another : StateDelta) : StateDelta :=
  foldl (applyChaincode o) d (ord o 0 (ChaincodeStateDeltas another)).

(** ** Hash *)

(** What is hashed for one chaincode: its id, and per key in order the key and,
    unless it is deleted, the value. *)
Definition chaincodeContent (o : mapOrder) (c : ChaincodeStateDelta) : bytes :=
  concat ((fun key =>
    key ++ match Chaincode.get c key with
           | Some u => default [] (Value u)
           | None => []
           end) <$> Chaincode.getSortedKeys o c).

Definition hashingContent (o : mapOrder) (d : StateDelta) : bytes :=
  concat ((fun chaincodeID =>
    chaincodeID ++ match ChaincodeStateDeltas d !! chaincodeID with
                   | Some c => chaincodeContent o c
                   | None => []
                   end) <$> GetUpdatedChaincodeIds o d true).

(** [ComputeCryptoHash]; nil for an empty delta. *)
Definition ComputeCryptoHash (hash : bytes -> bytes) (o : mapOrder) (d : StateDelta)
    : option bytes :=
  if IsEmpty d then None else Some (hash (hashingContent o d)).

(** ** Wire format *)

Definition marshalEntry (entry : bytes * UpdatedValue) : bytes :=
  let '(key, valueHolder) := entry in
  encodeRawBytes key ++ encodeRawBytes (default [] (Value valueHolder)) ++
  encodeRawBytes (default [] (PreviousValue valueHolder)).

Definition marshal (o : mapOrder) (c : ChaincodeStateDelta) : bytes :=
  EncodeVarint (Z.of_nat (size (UpdatedKVs c))) ++
  concat (marshalEntry <$> ord o 1 (UpdatedKVs c)).

Definition Marshal (o : mapOrder) (d : StateDelta) : bytes :=
  EncodeVarint (Z.of_nat (size (ChaincodeStateDeltas d))) ++
  concat ((fun '(chaincodeID, c) => encodeRawBytes chaincodeID ++ marshal o c)
    <$> ord o 0 (ChaincodeStateDeltas d)).

(** [if len(value) == 0 { value = nil }]. *)
Definition nilIfEmpty (b : bytes) : option bytes :=
  match b with [] => None | _ => Some b end.

(** [for i := uint64(0); i < size; i++] over a buffer that shrinks, until the body
    returns an error; what was read before stays, the flag is false on an error.
    Every round reads at least one byte, so a round more than the buffer has
    bytes is never reached. *)
Fixpoint decodeLoop {A} (body : A -> bytes -> option (A * bytes)) (fuel : nat) (i size : Z)
    (acc : A) (buffer : bytes) : A * bytes * bool :=
  if i <? size then
    match fuel with
    | O => (acc, buffer, false)
    | S fuel =>
      match body acc buffer with
      | Some (acc, buffer) => decodeLoop body fuel (i + 1) size acc buffer
      | None => (acc, buffer, false)
      end
    end
  else (acc, buffer, true).

Definition unmarshalEntry (kvs : gmap bytes UpdatedValue) (buffer : bytes)
    : option (gmap bytes UpdatedValue * bytes) :=
  '(key, buffer) ← bufDecodeRawBytes buffer;
  '(value, buffer) ← bufDecodeRawBytes buffer;
  '(previousValue, buffer) ← bufDecodeRawBytes buffer;
  Some (<[key := mkUpdatedValue (nilIfEmpty value) (nilIfEmpty previousValue)]> kvs, buffer).

(** [None] is the error return; the caller drops the chaincode then. *)
Definition unmarshal (c : ChaincodeStateDelta) (buffer : bytes)
    : option (ChaincodeStateDelta * bytes) :=
  '(size, buffer) ← bufDecodeVarint buffer;
  let '(kvs, buffer, ok) := decodeLoop unmarshalEntry (S (length buffer)) 0 size ∅ buffer in
  if (ok : bool) then Some (c <| UpdatedKVs := kvs |>, buffer) else None.

Definition unmarshalChaincode (m : gmap bytes ChaincodeStateDelta) (buffer : bytes)
    : option (gmap bytes ChaincodeStateDelta * bytes) :=
  '(chaincodeID, buffer) ← bufDecodeRawBytes buffer;
  '(c, buffer) ← unmarshal (newChaincodeStateDelta chaincodeID) buffer;
  Some (<[chaincodeID := c]> m, buffer).

(** The delta after the call, and whether it returned without an error. *)
Definition Unmarshal (d : StateDelta) (buffer : bytes) : StateDelta * bool :=
  match bufDecodeVarint buffer with
  | None => (d, false)
  | Some (size, buffer) =>
    let '(m, _, ok) := decodeLoop unmarshalChaincode (S (length buffer)) 0 size ∅ buffer in
    (d <| ChaincodeStateDeltas := m |>, ok)
  end.

(** ** Range scans over a delta *)

Record StateDeltaIterator := mkStateDeltaIterator {
  updates : option (gmap bytes UpdatedValue);
  relevantKeys : list bytes;
  currentKeyIndex : Z;
  done_ : bool
}.

#[export] Instance StateDeltaIterator_eta : Eta StateDeltaIterator := fun i =>
  mkStateDeltaIterator (updates i) (relevantKeys i) (currentKeyIndex i) (done_ i).

Definition inRange (startKey endKey k : bytes) : bool :=
  bool_decide (bytesLe startKey k) && (bool_decide (endKey = []) || bool_decide (bytesLe k endKey)).

Definition retrieveRelevantKeys (o : mapOrder) (updates : option (gmap bytes UpdatedValue))
    (startKey endKey : bytes) : list bytes :=
  match updates with
  | None => []
  | Some kvs =>
    (filter (fun '(k, v) => inRange startKey endKey k && negb (IsDelete v)) (ord o 1 kvs)).*1
  end.

Definition NewStateDeltaRangeScanIterator (o : mapOrder) (delta : StateDelta)
    (chaincodeID startKey endKey : bytes) : StateDeltaIterator :=
  let updates := GetUpdates delta chaincodeID in
  mkStateDeltaIterator updates (retrieveRelevantKeys o updates startKey endKey) (-1) false.

Module DeltaIterator.

Definition Next (itr : StateDeltaIterator) : bool * StateDeltaIterator :=
  let itr := itr <| currentKeyIndex := currentKeyIndex itr + 1 |> in
  if currentKeyIndex itr <? Z.of_nat (length (relevantKeys itr)) then (true, itr)
  else (false, itr <| currentKeyIndex := currentKeyIndex itr - 1 |> <| done_ := true |>).

(** [None] is the run time panic of an index out of range or of a nil entry. *)
Definition GetKeyValue (itr : StateDeltaIterator) : option (bytes * option bytes) :=
  key ← (if currentKeyIndex itr <? 0 then None
         else relevantKeys itr !! Z.to_nat (currentKeyIndex itr));
  kvs ← updates itr;
  u ← kvs !! key;
  Some (key, GetValue u).

Definition ContainsKey (itr : StateDeltaIterator) (key : bytes) : bool :=
  match updates itr with
  | None => false
  | Some kvs => bool_decide (is_Some (kvs !! key))
  end.

End DeltaIterator.

(** * Merging deltas *)

(** The entry after an update [new] on top of [old]: the newer value, the older
    previous value. *)
Definition mergeValue (old : option UpdatedValue) (new : UpdatedValue) : UpdatedValue :=
  match old with
  | Some u => mkUpdatedValue (Value new) (PreviousValue u)
  | None => new
  end.

(** Every chaincode is filed under its own id and has an entry. *)
Definition wfDelta (d : StateDelta) : Prop :=
  forall id c, ChaincodeStateDeltas d !! id = Some c -> ChaincodeID c = id /\ UpdatedKVs c <> ∅.

Definition sameView (d e : StateDelta) : Prop :=
  RollBackwards d = RollBackwards e /\ forall c k, Get d c k = Get e c k.

Lemma Get_UpdatedKVs d id c k : ChaincodeStateDeltas d !! id = Some c ->
  Get d id k = UpdatedKVs c !! k.
Proof. intros E. unfold Get. by rewrite E. Qed.

Lemma Get_None d id k : ChaincodeStateDeltas d !! id = None -> Get d id k = None.
Proof. intros E. unfold Get. by rewrite E. Qed.

(** A well-formed delta is what its entries say it is. *)
Lemma wfDelta_ext d e : wfDelta d -> wfDelta e -> sameView d e -> d = e.
Proof.
  intros Hd He [Hr Hg]. destruct d as [m r], e as [n r']. cbn in *. subst r'. f_equal.
  assert (forall m n id c, wfDelta (mkStateDelta m r) -> wfDelta (mkStateDelta n r) ->
    (forall c k, Get (mkStateDelta m r) c k = Get (mkStateDelta n r) c k) ->
    m !! id = Some c -> n !! id = Some c) as Half.
  { clear. intros m n id c Hm Hn Hg E. destruct (Hm id c E) as [Hid Hne].
    destruct (n !! id) as [c'|] eqn:E'.
    - f_equal. destruct (Hn id c' E') as [Hid' _]. destruct c as [i kvs], c' as [i' kvs'].
      cbn in *. subst i i'. f_equal. apply map_eq. intros k. specialize (Hg id k).
      unfold Get in Hg. cbn in Hg. rewrite E, E' in Hg. by cbn in Hg.
    - exfalso. apply Hne. apply map_eq. intros k. specialize (Hg id k). unfold Get in Hg.
      cbn in Hg. rewrite E, E' in Hg. cbn in Hg. by rewrite lookup_empty. }
  apply map_eq. intros id. destruct (m !! id) as [c|] eqn:E.
  - symmetry. by eapply (Half m n); eauto.
  - destruct (n !! id) as [c|] eqn:E'; [|done]. rewrite <- E.
    eapply (Half n m); eauto.
Qed.

Lemma Get_updateChaincode d id g c k :
  Get (updateChaincode d id g) c k =
    if decide (c = id) then UpdatedKVs (g (getOrCreateChaincodeStateDelta d id)) !! k
    else Get d c k.
Proof.
  unfold Get, updateChaincode, Chaincode.get. cbn. case_decide as E; [subst|].
  - by rewrite lookup_insert_eq.
  - by rewrite lookup_insert_ne.
Qed.

Lemma getOrCreate_UpdatedKVs d id k :
  UpdatedKVs (getOrCreateChaincodeStateDelta d id) !! k = Get d id k.
Proof.
  unfold getOrCreateChaincodeStateDelta, Get. destruct (_ !! id); cbn; [done|].
  apply lookup_empty.
Qed.

Lemma Get_Set d id key v pv c k :
  Get (Set_ d id key v pv) c k =
    if decide (c = id /\ k = key) then Some (mergeValue (Get d id key) (mkUpdatedValue v pv))
    else Get d c k.
Proof.
  unfold Set_. rewrite Get_updateChaincode. unfold Chaincode.set.
  destruct (decide (c = id)) as [-> |Hc].
  - destruct (decide (k = key)) as [-> |Hk].
    + rewrite decide_True, <- getOrCreate_UpdatedKVs by done.
      destruct (UpdatedKVs (getOrCreateChaincodeStateDelta d id) !! key); cbn;
        by rewrite lookup_insert_eq.
    + rewrite decide_False by tauto. rewrite <- getOrCreate_UpdatedKVs.
      destruct (UpdatedKVs (getOrCreateChaincodeStateDelta d id) !! key); cbn;
        by rewrite lookup_insert_ne.
  - rewrite decide_False by tauto. done.
Qed.

(** A deletion is an update to nil. *)
Lemma Delete_Set d id key pv : Delete d id key pv = Set_ d id key None pv.
Proof. reflexivity. Qed.

Lemma updateChaincode_wf d id g : wfDelta d ->
  ChaincodeID (g (getOrCreateChaincodeStateDelta d id)) = id ->
  UpdatedKVs (g (getOrCreateChaincodeStateDelta d id)) <> ∅ ->
  wfDelta (updateChaincode d id g).
Proof.
  intros Hd Hi Hk id' c. cbn. rewrite lookup_insert. case_decide; [|apply Hd].
  intros [= <-]. subst. done.
Qed.

Lemma getOrCreate_id d id : wfDelta d -> ChaincodeID (getOrCreateChaincodeStateDelta d id) = id.
Proof.
  intros Hd. unfold getOrCreateChaincodeStateDelta. destruct (_ !! id) eqn:E; cbn; [|done].
  by eapply Hd.
Qed.

Lemma Set_wf d id key v pv : wfDelta d -> wfDelta (Set_ d id key v pv).
Proof.
  intros Hd. apply updateChaincode_wf; [done|..]; unfold Chaincode.set;
    destruct (UpdatedKVs (getOrCreateChaincodeStateDelta d id) !! key); cbn; try apply getOrCreate_id; try done; apply insert_non_empty.
Qed.

Lemma NewStateDelta_wf : wfDelta NewStateDelta.
Proof. intros id c. cbn. by rewrite lookup_empty. Qed.

Lemma applyOne_Set id ex d key u :
  exists pv, applyOne id ex d (key, u) = Set_ d id key (Value u) pv /\
    mergeValue (Get d id key) (mkUpdatedValue (Value u) pv) = mergeValue (Get d id key) u.
Proof.
  unfold applyOne, IsDelete. eexists. split.
  - case_bool_decide as E; [|reflexivity]. rewrite Delete_Set, <- E. reflexivity.
  - destruct (Get d id key); [done|]. destruct ex, u; done.
Qed.

Lemma Get_applyOne id ex d key u c k :
  Get (applyOne id ex d (key, u)) c k =
    if decide (c = id /\ k = key) then Some (mergeValue (Get d id key) u) else Get d c k.
Proof.
  destruct (applyOne_Set id ex d key u) as (pv & -> & E). by rewrite Get_Set, E.
Qed.

(** An entry [new] of the other delta over what is there. *)
Definition overlay (old new : option UpdatedValue) : option UpdatedValue :=
  match new with Some u => Some (mergeValue old u) | None => old end.

Lemma Get_applyAll id ex l d c k : NoDup l.*1 ->
  Get (foldl (applyOne id ex) d l) c k =
    if decide (c = id) then overlay (Get d id k) ((list_to_map l : gmap bytes UpdatedValue) !! k)
    else Get d c k.
Proof.
  revert d. induction l as [|[key u] l IH]; intros d Hnd.
  { cbn. rewrite lookup_empty. by case_decide; subst. }
  cbn [foldl]. cbn in Hnd. apply NoDup_cons in Hnd as [Hfresh Hnd]. rewrite IH by done.
  rewrite !Get_applyOne. cbn [list_to_map foldr fst snd].
  case_decide as Hc; [subst c|by rewrite decide_False by tauto].
  rewrite lookup_insert. destruct (decide (key = k)) as [-> |Hk].
  - rewrite decide_True by done. by rewrite (not_elem_of_list_to_map_1 _ _ Hfresh).
  - by rewrite decide_False by (intros [_ ?]; congruence).
Qed.

Lemma ord_list_to_map (o : mapOrder) t `{Countable K} {A} (m : gmap K A) :
  list_to_map (ord o t m) = m.
Proof.
  rewrite (list_to_map_proper (ord o t m) (map_to_list m)); [apply list_to_map_to_list| |].
  - apply ord_NoDup.
  - apply ord_perm.
Qed.

Lemma Get_applyChaincode o d id cd c k :
  Get (applyChaincode o d (id, cd)) c k =
    if decide (c = id) then overlay (Get d id k) (UpdatedKVs cd !! k) else Get d c k.
Proof.
  unfold applyChaincode. rewrite Get_applyAll by apply ord_NoDup. by rewrite ord_list_to_map.
Qed.

Lemma Get_applyChaincodes o l d c k : NoDup l.*1 ->
  Get (foldl (applyChaincode o) d l) c k =
    overlay (Get d c k) (cd ← (list_to_map l : gmap bytes ChaincodeStateDelta) !! c;
                         UpdatedKVs cd !! k).
Proof.
  revert d. induction l as [|[id cd] l IH]; intros d Hnd; [cbn; by rewrite lookup_empty|].
  cbn [foldl]. cbn in Hnd. apply NoDup_cons in Hnd as [Hfresh Hnd]. rewrite IH by done.
  rewrite Get_applyChaincode. cbn [list_to_map foldr fst snd]. rewrite lookup_insert.
  destruct (decide (c = id)) as [-> |Hc].
  - rewrite decide_True by done. rewrite (not_elem_of_list_to_map_1 _ _ Hfresh). done.
  - by rewrite decide_False by congruence.
Qed.

Lemma Get_ApplyChanges o d a c k :
  Get (ApplyChanges o d a) c k = overlay (Get d c k) (Get a c k).
Proof.
  unfold ApplyChanges. rewrite Get_applyChaincodes by apply ord_NoDup. by rewrite ord_list_to_map.
Qed.

Lemma foldl_preserves {A B} (P : A -> Prop) (f : A -> B -> A) l a :
  (forall a b, P a -> P (f a b)) -> P a -> P (foldl f a l).
Proof. intros Hf. revert a. induction l; cbn; auto. Qed.

Lemma applyOne_preserves (P : StateDelta -> Prop) id ex d entry :
  (forall d id key v pv, P d -> P (Set_ d id key v pv)) -> P d -> P (applyOne id ex d entry).
Proof.
  intros HP Hd. destruct entry as [key u]. destruct (applyOne_Set id ex d key u) as (pv & -> & _).
  by apply HP.
Qed.

(** What every [Set] preserves, merging preserves. *)
Lemma ApplyChanges_preserves (P : StateDelta -> Prop) o d a :
  (forall d id key v pv, P d -> P (Set_ d id key v pv)) -> P d -> P (ApplyChanges o d a).
Proof.
  intros HP Hd. unfold ApplyChanges. apply foldl_preserves; [|done].
  intros d' [id cd] Hd'. unfold applyChaincode. apply foldl_preserves; [|done].
  intros. by apply applyOne_preserves.
Qed.

Lemma ApplyChanges_wf o d a : wfDelta d -> wfDelta (ApplyChanges o d a).
Proof. apply ApplyChanges_preserves. apply Set_wf. Qed.

Lemma ApplyChanges_RollBackwards o d a : RollBackwards (ApplyChanges o d a) = RollBackwards d.
Proof.
  apply (ApplyChanges_preserves (fun e => RollBackwards e = RollBackwards d)); [|done].
  intros. done.
Qed.

(** C32. Merging reads as intended, whatever order the maps are walked in: an
    entry of the merged delta has the newer value and the older previous value,
    keys of one delta only are kept as they are, and well-formedness is kept. *)
Theorem ApplyChanges_spec (o : mapOrder) (d another : StateDelta) :
  wfDelta d ->
  wfDelta (ApplyChanges o d another) /\
  RollBackwards (ApplyChanges o d another) = RollBackwards d /\
  forall chaincodeID key,
    Get (ApplyChanges o d another) chaincodeID key =
      match Get d chaincodeID key, Get another chaincodeID key with
      | Some old, Some new => Some (mkUpdatedValue (Value new) (PreviousValue old))
      | None, Some new => Some new
      | old, None => old
      end.
Proof.
  intros Hd. split; [by apply ApplyChanges_wf|]. split; [apply ApplyChanges_RollBackwards|].
  intros c k. rewrite Get_ApplyChanges. destruct (Get d c k), (Get another c k); done.
Qed.

Definition sampleDelta (cc k v : byte) : StateDelta :=
  Set_ NewStateDelta [cc] [k] (Some [v]) None.

Lemma ApplyChanges_spec_witness :
  Get (ApplyChanges canonicalOrder (sampleDelta x01 x02 x03) (sampleDelta x01 x02 x04))
    [x01] [x02] = Some (mkUpdatedValue (Some [x04]) None).
Proof.
  rewrite (proj2 (proj2 (ApplyChanges_spec canonicalOrder (sampleDelta x01 x02 x03)
    (sampleDelta x01 x02 x04) (Set_wf _ _ _ _ _ NewStateDelta_wf)))).
  vm_compute. reflexivity.
Defined.

(** Merging is associative and independent of map order: the changes of a
    batch are the same however its transactions' changes are grouped. *)
Theorem ApplyChanges_assoc (o1 o2 o3 o4 : mapOrder) (a b c : StateDelta) :
  wfDelta a ->
  ApplyChanges o1 (ApplyChanges o2 a b) c = ApplyChanges o3 a (ApplyChanges o4 b c).
Proof.
  intros Ha. apply wfDelta_ext; [by repeat apply ApplyChanges_wf..|].
  split; [by rewrite !ApplyChanges_RollBackwards|]. intros id k. rewrite !Get_ApplyChanges.
  destruct (Get a id k), (Get b id k), (Get c id k); done.
Qed.

Lemma ApplyChanges_assoc_witness :
  ApplyChanges canonicalOrder (ApplyChanges canonicalOrder (sampleDelta x01 x02 x03)
    (sampleDelta x01 x02 x04)) (sampleDelta x02 x02 x05) =
  ApplyChanges canonicalOrder (sampleDelta x01 x02 x03)
    (ApplyChanges canonicalOrder (sampleDelta x01 x02 x04) (sampleDelta x02 x02 x05)).
Proof. apply ApplyChanges_assoc. apply Set_wf, NewStateDelta_wf. Defined.

(** * The hash *)

Lemma merge_sort_bytes_perm l k : l ≡ₚ k -> merge_sort bytesLe l = merge_sort bytesLe k.
Proof.
  intros E. apply (Sorted_unique bytesLe); [apply (Sorted_merge_sort bytesLe)..|].
  by rewrite !merge_sort_Permutation.
Qed.

Lemma getSortedKeys_order o o' c : Chaincode.getSortedKeys o c = Chaincode.getSortedKeys o' c.
Proof. apply merge_sort_bytes_perm. by rewrite !ord_perm. Qed.

Lemma GetUpdatedChaincodeIds_order o o' d :
  GetUpdatedChaincodeIds o d true = GetUpdatedChaincodeIds o' d true.
Proof. apply merge_sort_bytes_perm. by rewrite !ord_perm. Qed.

(** The hash of a delta does not depend on the order in which Go walks its
    maps, and two well-formed deltas with the same entries have the same hash:
    replicas that execute the same transactions agree on it. *)
Theorem ComputeCryptoHash_deterministic (hash : bytes -> bytes) (o o' : mapOrder)
    (d e : StateDelta) :
  wfDelta d -> wfDelta e -> sameView d e ->
  ComputeCryptoHash hash o d = ComputeCryptoHash hash o' e.
Proof.
  intros Hd He Hs. rewrite (wfDelta_ext d e Hd He Hs). unfold ComputeCryptoHash, hashingContent.
  rewrite (GetUpdatedChaincodeIds_order o o'). destruct (IsEmpty e); [done|]. do 3 f_equal.
  apply list_fmap_ext. intros _ id _. destruct (_ !! id); [|done]. f_equal.
  unfold chaincodeContent. by rewrite (getSortedKeys_order o o').
Qed.

Lemma ComputeCryptoHash_deterministic_witness :
  ComputeCryptoHash id canonicalOrder
    (Set_ (sampleDelta x01 x02 x03) [x01] [x04] (Some [x05]) None) =
  ComputeCryptoHash id canonicalOrder
    (Set_ (sampleDelta x01 x04 x05) [x01] [x02] (Some [x03]) None).
Proof.
  apply ComputeCryptoHash_deterministic; [apply Set_wf, Set_wf, NewStateDelta_wf..|].
  split; [reflexivity|]. intros c k. unfold sampleDelta. rewrite !Get_Set.
  repeat case_decide; destruct_and?; subst; try done; exfalso; tauto.
Defined.

(** * The wire format *)

(** What a value becomes on the wire: empty and nil are not told apart. *)
Definition normalizeValue (u : UpdatedValue) : UpdatedValue :=
  mkUpdatedValue (Value u ≫= nilIfEmpty) (PreviousValue u ≫= nilIfEmpty).

Definition normalize (c : ChaincodeStateDelta) : ChaincodeStateDelta :=
  c <| UpdatedKVs := normalizeValue <$> UpdatedKVs c |>.

Definition fitsValue (u : UpdatedValue) : Prop :=
  fitsInt (default [] (Value u)) /\ fitsInt (default [] (PreviousValue u)).

(** Lengths that fit Go's integers. *)
Definition fitsDelta (d : StateDelta) : Prop :=
  is_u64 (Z.of_nat (size (ChaincodeStateDeltas d))) /\
  map_Forall (fun id c => ChaincodeID c = id /\ fitsInt id /\
    is_u64 (Z.of_nat (size (UpdatedKVs c))) /\
    map_Forall (fun k u => fitsInt k /\ fitsValue u) (UpdatedKVs c)) (ChaincodeStateDeltas d).

Lemma encodeRawBytes_nonempty b : (1 <= length (encodeRawBytes b))%nat.
Proof.
  unfold encodeRawBytes, EncodeVarint. rewrite length_app. cbn.
  destruct (Z.of_nat (length b) >? 127); cbn; lia.
Qed.

Lemma concat_rounds {X} (enc : X -> bytes) l : (forall x, 1 <= length (enc x))%nat ->
  (length l <= length (concat (enc <$> l)))%nat.
Proof.
  intros H. induction l as [|x l IH]; cbn; [lia|]. rewrite length_app. specialize (H x). lia.
Qed.

(** The loop reads back what was written entry by entry. *)
Lemma decodeLoop_encode {A X} (body : A -> bytes -> option (A * bytes)) (enc : X -> bytes)
    (ins : A -> X -> A) l fuel i acc rest :
  (forall acc x rest, x ∈ l -> body acc (enc x ++ rest) = Some (ins acc x, rest)) ->
  (length l <= fuel)%nat ->
  decodeLoop body fuel i (i + Z.of_nat (length l)) acc (concat (enc <$> l) ++ rest) =
    (foldl ins acc l, rest, true).
Proof.
  revert fuel i acc. induction l as [|x l IH]; intros fuel i acc Hb Hf.
  { cbn [length Z.of_nat]. rewrite Z.add_0_r. destruct fuel; cbn; by rewrite Z.ltb_irrefl. }
  destruct fuel as [|fuel]; [cbn in Hf; lia|]. cbn [decodeLoop].
  destruct (Z.ltb_spec i (i + Z.of_nat (length (x :: l)))) as [_|Hlt]; [|cbn [length] in Hlt; lia].
  cbn [fmap list_fmap concat]. rewrite <- app_assoc, Hb by apply list_elem_of_here.
  cbn [mbind option_bind foldl].
  replace (i + Z.of_nat (length (x :: l))) with (i + 1 + Z.of_nat (length l)) by (cbn [length]; lia).
  apply IH; [|cbn in Hf; lia]. intros. apply Hb. by apply list_elem_of_further.
Qed.

Lemma foldl_insert {A B} (f : bytes -> A -> B) l m : NoDup l.*1 ->
  foldl (fun (m : gmap bytes B) '(k, x) => <[k := f k x]> m) m l =
    map_imap (fun k x => Some (f k x)) (list_to_map l : gmap bytes A) ∪ m.
Proof.
  revert m. induction l as [|[k x] l IH]; intros m Hnd.
  { cbn. by rewrite map_imap_empty, (left_id_L ∅ _). }
  cbn in Hnd |- *. apply NoDup_cons in Hnd as [Hk Hnd]. rewrite IH by done.
  apply map_eq. intros j. rewrite !lookup_union, !map_lookup_imap, !lookup_insert.
  case_decide as E; [subst j|done]. cbn.
  rewrite (not_elem_of_list_to_map_1 _ _ Hk). cbn. by destruct (m !! k).
Qed.

Lemma nilIfEmpty_default v : nilIfEmpty (default [] v) = v ≫= nilIfEmpty.
Proof. by destruct v. Qed.

Lemma unmarshalEntry_marshal kvs k u rest : fitsInt k -> fitsValue u ->
  unmarshalEntry kvs (marshalEntry (k, u) ++ rest) = Some (<[k := normalizeValue u]> kvs, rest).
Proof.
  intros Hk [Hv Hp]. unfold unmarshalEntry, marshalEntry. rewrite <- !app_assoc.
  do 3 (rewrite bufDecodeRawBytes_encode by done; cbn [mbind option_bind]).
  by rewrite !nilIfEmpty_default.
Qed.

Lemma marshalEntry_nonempty x : (1 <= length (marshalEntry x))%nat.
Proof.
  destruct x as [k u]. unfold marshalEntry. rewrite length_app.
  pose proof (encodeRawBytes_nonempty k). lia.
Qed.

Lemma imap_fmap {A B} (f : A -> B) (m : gmap bytes A) :
  map_imap (fun _ x => Some (f x)) m ∪ ∅ = f <$> m.
Proof.
  rewrite (right_id_L ∅ _). apply map_eq. intros j. rewrite map_lookup_imap, lookup_fmap.
  by destruct (m !! j).
Qed.

Lemma ord_length (o : mapOrder) t `{Countable K} {A} (m : gmap K A) : length (ord o t m) = size m.
Proof. rewrite (Permutation_length (ord_perm o t _ _ m)). apply length_map_to_list. Qed.

Lemma unmarshal_marshal o c c0 rest :
  is_u64 (Z.of_nat (size (UpdatedKVs c))) ->
  map_Forall (fun k u => fitsInt k /\ fitsValue u) (UpdatedKVs c) ->
  unmarshal c0 (marshal o c ++ rest) =
    Some (c0 <| UpdatedKVs := normalizeValue <$> UpdatedKVs c |>, rest).
Proof.
  intros Hs Hf. unfold unmarshal, marshal. rewrite <- app_assoc, bufDecodeVarint_encode by done.
  cbn [mbind option_bind]. rewrite <- (ord_length o 1), <- (Z.add_0_l (Z.of_nat _)).
  rewrite (decodeLoop_encode unmarshalEntry marshalEntry
    (fun m '(k, u) => <[k := normalizeValue u]> m)).
  - cbn [mbind option_bind]. do 2 f_equal.
    rewrite (foldl_insert (fun _ => normalizeValue)) by apply ord_NoDup.
    by rewrite ord_list_to_map, imap_fmap.
  - intros m [k u] r [Hk Hu]%elem_of_ord%Hf. by apply unmarshalEntry_marshal.
  - rewrite length_app. pose proof (concat_rounds marshalEntry (ord o 1 (UpdatedKVs c))
      marshalEntry_nonempty). lia.
Qed.

Lemma Unmarshal_Marshal_eq (o : mapOrder) (d d0 : StateDelta) :
  fitsDelta d ->
  Unmarshal d0 (Marshal o d) =
    (mkStateDelta (normalize <$> ChaincodeStateDeltas d) (RollBackwards d0), true).
Proof.
  intros [Hs Hf]. unfold Unmarshal, Marshal. rewrite bufDecodeVarint_encode by done.
  cbn [mbind option_bind]. rewrite <- (ord_length o 0), <- (Z.add_0_l (Z.of_nat _)).
  set (enc := fun '(chaincodeID, c) => encodeRawBytes chaincodeID ++ marshal o c).
  assert (forall x, 1 <= length (enc x))%nat as Hne.
  { intros [id c]. unfold enc. rewrite length_app. pose proof (encodeRawBytes_nonempty id). lia. }
  rewrite <- (app_nil_r (concat _)), (decodeLoop_encode unmarshalChaincode enc
    (fun m '(id, c) => <[id := normalize c]> m)).
  - cbn [mbind option_bind]. f_equal. unfold setter. cbn. f_equal.
    rewrite (foldl_insert (fun _ => normalize)) by apply ord_NoDup.
    by rewrite ord_list_to_map, imap_fmap.
  - intros m [id c] r (Hid & Hfid & Hc & Hk)%elem_of_ord%Hf. unfold unmarshalChaincode, enc.
    rewrite <- app_assoc, bufDecodeRawBytes_encode by done. cbn [mbind option_bind].
    rewrite unmarshal_marshal by done. cbn [mbind option_bind]. do 3 f_equal.
    destruct c. cbn in *. by subst.
  - rewrite app_nil_r. pose proof (concat_rounds enc (ord o 0 (ChaincodeStateDeltas d)) Hne). lia.
Qed.

(** C33. Unmarshalling a marshalled delta gives it back, whatever order its maps
    were written in, except that an empty value comes back as nil, that is as a
    deletion; the receiver keeps its direction flag, which is not transmitted. *)
Theorem Unmarshal_Marshal (o : mapOrder) (d d0 : StateDelta) :
  fitsDelta d ->
  Unmarshal d0 (Marshal o d) =
    (mkStateDelta (normalize <$> ChaincodeStateDeltas d) (RollBackwards d0), true).
Proof. apply Unmarshal_Marshal_eq. Qed.

Lemma Unmarshal_Marshal_witness :
  Unmarshal NewStateDelta (Marshal canonicalOrder (sampleDelta x01 x02 x03)) =
    (sampleDelta x01 x02 x03, true).
Proof.
  rewrite (Unmarshal_Marshal canonicalOrder (sampleDelta x01 x02 x03) NewStateDelta).
  - vm_compute. reflexivity.
  - split; [vm_compute; split; congruence|]. apply map_Forall_singleton.
    split; [reflexivity|]. split; [reflexivity|]. split; [vm_compute; split; congruence|].
    apply map_Forall_singleton. done.
Defined.
