(* ===== verification/StateSpec.v ===== *)
(** The state the ledger keeps, whatever data structure holds it: values by
    composite key, and what a delta does to them. *)
From stdpp Require Import base gmap list.
From Stdlib Require Import ZArith Lia.
From Stdlib.Strings Require Import Byte.
From S2P Require Import Prelude GoStd GoBytes LedgerUtil StateDelta.

Abbreviation kvs := (gmap bytes bytes).

(** * The state after a delta *)

(** The value a delta writes: rolling back writes the previous one. *)
Definition newValue (d : StateDelta) (u : UpdatedValue) : option bytes :=
  if RollBackwards d then PreviousValue u else Value u.

(** Nil and empty values delete. *)
Definition nonNil (v : option bytes) : option bytes := if IsNil v then None else v.

Definition chaincodeWrites (d : StateDelta) (cc : bytes) (l : list (bytes * UpdatedValue))
    : list (bytes * option bytes) :=
  (fun '(k, u) => (ConstructCompositeKey cc k, newValue d u)) <$> l.

(** The writes of a delta by composite key. *)
Definition deltaWrites (d : StateDelta) : gmap bytes (option bytes) :=
  list_to_map (concat ((fun '(cc, c) => chaincodeWrites d cc (map_to_list (UpdatedKVs c)))
    <$> map_to_list (ChaincodeStateDeltas d))).

Definition applyWrites (s : kvs) (w : gmap bytes (option bytes)) : kvs :=
  merge (fun old new => match new with Some v => nonNil v | None => old end) s w.

Definition applyDelta (s : kvs) (d : StateDelta) : kvs := applyWrites s (deltaWrites d).

Lemma lookup_applyWrites s w ck :
  applyWrites s w !! ck = match w !! ck with Some v => nonNil v | None => s !! ck end.
Proof. unfold applyWrites. rewrite lookup_merge. by destruct (s !! ck), (w !! ck). Qed.

(** Chaincode ids do not contain the delimiter, as [ConstructCompositeKey]
    assumes. *)
Definition noDelimiter (d : StateDelta) : Prop :=
  map_Forall (fun cc _ => stateKeyDelimiter ∉ cc) (ChaincodeStateDeltas d).

(** The writes in the order in which the code goes through the maps. *)
Definition orderedWrites (o : mapOrder) (d : StateDelta) : list (bytes * option bytes) :=
  concat ((fun cc => chaincodeWrites d cc (ord o 1 (default ∅ (GetUpdates d cc))))
    <$> (ord o 0 (ChaincodeStateDeltas d)).*1).

Lemma elem_of_orderedWrites o d ck v :
  (ck, v) ∈ orderedWrites o d <->
    exists cc k u, Get d cc k = Some u /\ ck = ConstructCompositeKey cc k /\ v = newValue d u.
Proof.
  unfold orderedWrites. rewrite list_elem_of_In, in_concat. split.
  - intros (l & Hl%list_elem_of_In & Hin%list_elem_of_In).
    apply list_elem_of_fmap in Hl as (cc & -> & _).
    apply list_elem_of_fmap in Hin as ([k u] & [= -> ->] & Hu%elem_of_ord).
    exists cc, k, u. split; [|done]. unfold GetUpdates in Hu. unfold Get.
    destruct (ChaincodeStateDeltas d !! cc); cbn in Hu; [done|]. by rewrite lookup_empty in Hu.
  - intros (cc & k & u & Hg & -> & ->). unfold Get in Hg.
    destruct (ChaincodeStateDeltas d !! cc) as [c|] eqn:E; [|done]. cbn in Hg.
    exists (chaincodeWrites d cc (ord o 1 (UpdatedKVs c))). split.
    + apply list_elem_of_In, list_elem_of_fmap. exists cc. unfold GetUpdates. rewrite E. split; [done|].
      apply list_elem_of_fmap. exists (cc, c). split; [done|]. by apply elem_of_ord.
    + apply list_elem_of_In, list_elem_of_fmap. exists (k, u). split; [done|]. by apply elem_of_ord.
Qed.

Lemma NoDup_concat {A} (ls : list (list A)) :
  Forall NoDup ls ->
  (forall i j l k x, ls !! i = Some l -> ls !! j = Some k -> x ∈ l -> x ∈ k -> i = j) ->
  NoDup (concat ls).
Proof.
  induction 1 as [|l ls Hl Hls IH]; intros Hd; cbn; [constructor|]. apply NoDup_app.
  split; [done|]. split.
  - intros x Hx Hx'. apply list_elem_of_In, in_concat in Hx' as (k & [j Hj]%list_elem_of_In%list_elem_of_lookup & Hk%list_elem_of_In).
    discriminate (Hd 0%nat (S j) l k x eq_refl Hj Hx Hk).
  - apply IH. intros i j l' k x Hi Hj Hx Hk. specialize (Hd (S i) (S j) l' k x Hi Hj Hx Hk). lia.
Qed.

Lemma orderedWrites_NoDup o d : noDelimiter d -> NoDup (orderedWrites o d).*1.
Proof.
  intros Hd. unfold orderedWrites.
  assert (forall ls : list (list (bytes * option bytes)), (concat ls).*1 = concat ((fun l => l.*1) <$> ls)) as Hc.
  { induction ls as [|l ls IH]; [done|]. cbn. by rewrite fmap_app, IH. }
  rewrite Hc, <- !list_fmap_compose. apply NoDup_concat.
  - rewrite Forall_forall. intros l (cc & -> & _)%list_elem_of_fmap. cbn. unfold chaincodeWrites.
    rewrite <- list_fmap_compose. rewrite (list_fmap_ext _ (ConstructCompositeKey cc.1 ∘ fst)) by by intros ? [].
    rewrite list_fmap_compose. apply NoDup_fmap_2; [|apply ord_NoDup].
    intros k k'. unfold ConstructCompositeKey. intros E%app_inv_head. by injection E.
  - intros i j l l' x Hi Hj Hx Hx'. rewrite list_lookup_fmap in Hi, Hj.
    destruct (ord o 0 (ChaincodeStateDeltas d) !! i) as [[cc c]|] eqn:Ei; [|done].
    destruct (ord o 0 (ChaincodeStateDeltas d) !! j) as [[cc' c']|] eqn:Ej; [|done].
    cbn in Hi, Hj. injection Hi as <-. injection Hj as <-.
    apply list_elem_of_fmap in Hx as ([y v] & -> & ([k u] & [= -> _] & _)%list_elem_of_fmap).
    apply list_elem_of_fmap in Hx' as ([y' v'] & E & ([k' u'] & [= -> _] & _)%list_elem_of_fmap).
    cbn in E. pose proof (list_elem_of_lookup_2 _ _ _ Ei) as H1%elem_of_ord.
    pose proof (list_elem_of_lookup_2 _ _ _ Ej) as H2%elem_of_ord.
    destruct (ConstructCompositeKey_inj cc k cc' k' (Hd _ _ H1) (Hd _ _ H2) E) as [-> _].
    eapply NoDup_lookup; [apply (ord_NoDup o 0 (ChaincodeStateDeltas d))|..];
      rewrite list_lookup_fmap; [by rewrite Ei|by rewrite Ej].
Qed.

(** The writes do not depend on the order. *)
Lemma orderedWrites_map o d : noDelimiter d -> list_to_map (orderedWrites o d) = deltaWrites d.
Proof.
  intros Hd.
  assert (deltaWrites d = list_to_map (orderedWrites canonicalOrder d)) as ->.
  { unfold deltaWrites, orderedWrites. cbn [ord canonicalOrder]. do 2 f_equal.
    rewrite <- list_fmap_compose. apply list_fmap_ext. intros i [cc c] Hi. cbn.
    apply list_elem_of_lookup_2, elem_of_map_to_list in Hi. unfold GetUpdates. by rewrite Hi. }
  apply map_eq. intros ck. apply option_eq. intros v.
  rewrite <- !elem_of_list_to_map by by apply orderedWrites_NoDup.
  by rewrite !elem_of_orderedWrites.
Qed.

Lemma lookup_deltaWrites d ck v : noDelimiter d ->
  deltaWrites d !! ck = Some v <->
    exists cc k u, Get d cc k = Some u /\ ck = ConstructCompositeKey cc k /\ v = newValue d u.
Proof.
  intros Hd. rewrite <- (orderedWrites_map canonicalOrder d Hd), <- elem_of_list_to_map
    by by apply orderedWrites_NoDup. apply elem_of_orderedWrites.
Qed.
