(* ===== verification/HashableState.v ===== *)
(** core/ledger/statemgmt/hashable_state.go: the interface of the data
    structures that hold the state, and what an implementation promises to
    state.go: it behaves as a map from composite keys to values, hashed by a
    function of that map. *)
From stdpp Require Import base gmap list.
From Stdlib Require Import ZArith Lia.
From S2P Require Import Prelude GoStd GoBytes LedgerUtil KVStore StateDelta StateSpec.

(** [yields next kv itr l]: calling [Next] until it returns false gives [l], read by
    [GetKeyValue] after each call. *)
Inductive yields {I : Type} (next : M I bool) (kv : I -> option (bytes * option bytes))
    : I -> list (bytes * option bytes) -> Prop :=
| yields_nil itr itr' : next itr = Done false itr' -> yields next kv itr []
| yields_cons itr itr' x l : next itr = Done true itr' -> kv itr' = Some x ->
    yields next kv itr' l -> yields next kv itr (x :: l).

(** [I] is the implementation's own state, [Itr] its range scan iterators.
    Database reads are explicit.  [AddChangesForPersistence] returns the
    extended batch; every caller drops its error. *)
Class HashableState (DB I Itr : Type) := {
  hs_Get : DB -> bytes -> bytes -> M I (result (option bytes));
  hs_PrepareWorkingSet : StateDelta -> M I (result unit);
  hs_ComputeCryptoHash : DB -> M I (result (option bytes));
  hs_AddChangesForPersistence : DB -> list batchOp -> M I (list batchOp);
  hs_ClearWorkingSet : bool -> M I unit;
  hs_GetRangeScanIterator : DB -> I -> bytes -> bytes -> bytes -> option Itr;
  hs_Next : DB -> M Itr bool;
  hs_GetKeyValue : Itr -> bytes * option bytes
}.

(** Deltas an implementation accepts: chaincodes with an entry each, and ids
    without the delimiter of composite keys. *)
Definition admissible (d : StateDelta) : Prop := wfDelta d /\ noDelimiter d.

(** [hs_holds db i s w]: the database and the implementation hold the committed
    state [s], and [w] is the state its working set leads to, if there is one. *)
Class HashableStateSpec (DB I Itr : Type) `{RocksDBLaws DB} `{!HashableState DB I Itr} := {
  hs_hash : kvs -> option bytes;
  hs_holds : DB -> I -> kvs -> option kvs -> Prop;
  hs_healthy : forall db i s w, hs_holds db i s w -> healthy db;
  hs_Get_spec : forall db i s w cc k, hs_holds db i s w ->
    hs_Get db cc k i = Done (Ok (s !! ConstructCompositeKey cc k)) i;
  hs_Prepare_empty : forall i d, IsEmpty d = true -> hs_PrepareWorkingSet d i = Done (Ok tt) i;
  hs_Prepare_spec : forall db i s w d, hs_holds db i s w -> admissible d -> IsEmpty d = false ->
    exists i', hs_PrepareWorkingSet d i = Done (Ok tt) i' /\ hs_holds db i' s (Some (applyDelta s d));
  hs_Hash_spec : forall db i s w, hs_holds db i s w ->
    exists i', hs_ComputeCryptoHash db i = Done (Ok (hs_hash (default s w))) i' /\ hs_holds db i' s w;
  hs_Persist_spec : forall db i s w batch, hs_holds db i s w ->
    exists i' ops, hs_AddChangesForPersistence db batch i = Done (batch ++ ops) i' /\
      hs_holds db i' s w /\ Forall (fun op => match op with PutCF cf _ _ | DeleteCF cf _ => cf end = StateCF) ops /\
      forall db', healthy db' -> contents db' StateCF = applyBatch StateCF (contents db StateCF) ops ->
        exists i'', hs_ClearWorkingSet true i' = Done tt i'' /\ hs_holds db' i'' (default s w) None;
  hs_Clear_spec : forall db i s w, hs_holds db i s w ->
    exists i', hs_ClearWorkingSet false i = Done tt i' /\ hs_holds db i' s None;
  hs_Scan_spec : forall db i s w cc start_ end_, hs_holds db i s w -> stateKeyDelimiter ∉ cc ->
    exists itr l, hs_GetRangeScanIterator db i cc start_ end_ = Some itr /\
      yields (hs_Next db) (fun itr => Some (hs_GetKeyValue itr)) itr l /\ NoDup l.*1 /\
      forall k v, (k, v) ∈ l <->
        inRange start_ end_ k = true /\ v = s !! ConstructCompositeKey cc k /\ is_Some v;
  hs_holds_db : forall db db' i s w, hs_holds db i s w -> healthy db' ->
    contents db' StateCF = contents db StateCF -> hs_holds db' i s w
}.
