(* ===== verification/State.v ===== *)
(** core/ledger/statemgmt/state: the world state with its transaction and batch
    deltas on top of an implementation of HashableState (state.go), and range
    scans over the three (composite_range_scan_iterator.go). *)
From stdpp Require Import base gmap list.
From Stdlib Require Import ZArith Lia.
From S2P Require Import Prelude GoStd GoBytes LedgerUtil KVStore StateDelta StateSpec HashableState.

(** * Data *)

Record State (I : Type) := mkState {
  stateImpl : I;
  stateDelta : StateDelta;
  currentTxStateDelta : StateDelta;
  currentTxUUID : bytes;
  txStateDeltaHash : gmap bytes (option bytes);
  updateStateImpl : bool;
  historyStateDeltaSize : Z
}.
Arguments mkState {I}.
Arguments stateImpl {I}.
Arguments stateDelta {I}.
Arguments currentTxStateDelta {I}.
Arguments currentTxUUID {I}.
Arguments txStateDeltaHash {I}.
Arguments updateStateImpl {I}.
Arguments historyStateDeltaSize {I}.

#[export] Instance State_eta I : Eta (State I) := fun s =>
  mkState (stateImpl s) (stateDelta s) (currentTxStateDelta s) (currentTxUUID s)
    (txStateDeltaHash s) (updateStateImpl s) (historyStateDeltaSize s).

(** [encodeStateDeltaKey] and [decodeStateDeltaKey]. *)
Definition encodeStateDeltaKey (blockNumber : Z) : bytes := PutUint64 blockNumber.
Definition decodeStateDeltaKey (dbkey : bytes) : Z := Uint64 dbkey.

(** The iterators under a composite one: two over deltas, one over the
    implementation. *)
Inductive anyItr (Itr : Type) :=
| DeltaItr (itr : StateDeltaIterator)
| ImplItr (itr : Itr).
Arguments DeltaItr {Itr} itr.
Arguments ImplItr {Itr} itr.

Record CompositeRangeScanIterator (Itr : Type) := mkCompositeRangeScanIterator {
  itrs : list (anyItr Itr);
  currentItrNumber : nat
}.
Arguments mkCompositeRangeScanIterator {Itr}.
Arguments itrs {Itr}.
Arguments currentItrNumber {Itr}.

#[export] Instance CompositeRangeScanIterator_eta Itr : Eta (CompositeRangeScanIterator Itr) := fun i =>
  mkCompositeRangeScanIterator (itrs i) (currentItrNumber i).

(** What [GetRangeScanIterator] returns: the implementation's iterator for the
    committed state, a composite one otherwise. *)
Inductive stateItr (Itr : Type) :=
| CommittedItr (itr : Itr)
| CompositeItr (itr : CompositeRangeScanIterator Itr).
Arguments CommittedItr {Itr} itr.
Arguments CompositeItr {Itr} itr.

Section state.
Context {DB I Itr : Type} `{RocksDB DB} `{!HashableState DB I Itr}.
(** [ComputeCryptoHash] of core/util, and the orders of Go's map iterations. *)
Context (hash : bytes -> bytes) (o : mapOrder).

(** A call of a method of the implementation. *)
Definition onImpl {A} (m : M I A) : M (State I) A := fun s =>
  match m (stateImpl s) with
  | Done a i => Done a (s <| stateImpl := i |>)
  | Panic => Panic
  | Diverge => Diverge
  end.

(** [NewState], once the configuration has picked and initialised an
    implementation; a negative history size panics. *)
Definition NewState (impl : I) (deltaHistorySize : Z) : option (State I) :=
  if deltaHistorySize <? 0 then None
  else Some (mkState impl NewStateDelta NewStateDelta [] ∅ false (u64 deltaHistorySize)).

(** * Transactions *)

Definition txInProgress (s : State I) : bool := negb (bool_decide (currentTxUUID s = [])).

Definition TxBegin (txUUID : bytes) : M (State I) unit :=
  b ← gets txInProgress;
  if (b : bool) then panic else
  modify (fun s => s <| currentTxUUID := txUUID |>).

Definition TxFinish (txUUID : bytes) (txSuccessful : bool) : M (State I) unit :=
  uuid ← gets currentTxUUID;
  if negb (bool_decide (uuid = txUUID)) then panic else
  when txSuccessful (
    tx ← gets currentTxStateDelta;
    if negb (IsEmpty tx) then
      modify (fun s => s <| stateDelta := ApplyChanges o (stateDelta s) tx |>
        <| txStateDeltaHash := <[txUUID := ComputeCryptoHash hash o tx]> (txStateDeltaHash s) |>
        <| updateStateImpl := true |>)
    else
      modify (fun s => s <| txStateDeltaHash := <[txUUID := None]> (txStateDeltaHash s) |>)) ;;
  modify (fun s => s <| currentTxStateDelta := NewStateDelta |> <| currentTxUUID := [] |>).

(** * Reads *)

Definition State_Get (db : DB) (chaincodeID key : bytes) (committed : bool)
    : M (State I) (result (option bytes)) :=
  s ← get;
  let fromImpl := onImpl (hs_Get db chaincodeID key) in
  if negb committed then
    match Get (currentTxStateDelta s) chaincodeID key with
    | Some valueHolder => mret (Ok (GetValue valueHolder))
    | None =>
      match Get (stateDelta s) chaincodeID key with
      | Some valueHolder => mret (Ok (GetValue valueHolder))
      | None => fromImpl
      end
    end
  else fromImpl.

Definition newCompositeRangeScanIterator (txDeltaItr batchDeltaItr : StateDeltaIterator)
    (implItr : Itr) : CompositeRangeScanIterator Itr :=
  mkCompositeRangeScanIterator [DeltaItr txDeltaItr; DeltaItr batchDeltaItr; ImplItr implItr] 0.

(** [None] is a panic of the implementation. *)
Definition GetRangeScanIterator (db : DB) (s : State I) (chaincodeID startKey endKey : bytes)
    (committed : bool) : option (stateItr Itr) :=
  stateImplItr ← hs_GetRangeScanIterator db (stateImpl s) chaincodeID startKey endKey;
  if (committed : bool) then Some (CommittedItr stateImplItr) else
  Some (CompositeItr (newCompositeRangeScanIterator
    (NewStateDeltaRangeScanIterator o (currentTxStateDelta s) chaincodeID startKey endKey)
    (NewStateDeltaRangeScanIterator o (stateDelta s) chaincodeID startKey endKey)
    stateImplItr)).

(** * Writes *)

Definition State_Set (db : DB) (chaincodeID key : bytes) (value : option bytes)
    : M (State I) (result unit) :=
  b ← gets txInProgress;
  if negb b then panic else
  tx ← gets currentTxStateDelta;
  if IsUpdatedValueSet tx chaincodeID key then
    modify (fun s => s <| currentTxStateDelta := Set_ tx chaincodeID key value None |>) ;;
    mret (Ok tt)
  else
    previousValue ←? State_Get db chaincodeID key true;
    modify (fun s => s <| currentTxStateDelta := Set_ tx chaincodeID key value previousValue |>) ;;
    mret (Ok tt).

Definition State_Delete (db : DB) (chaincodeID key : bytes) : M (State I) (result unit) :=
  b ← gets txInProgress;
  if negb b then panic else
  tx ← gets currentTxStateDelta;
  if IsUpdatedValueSet tx chaincodeID key then
    modify (fun s => s <| currentTxStateDelta := Delete tx chaincodeID key None |>) ;;
    mret (Ok tt)
  else
    previousValue ←? State_Get db chaincodeID key true;
    modify (fun s => s <| currentTxStateDelta := Delete tx chaincodeID key previousValue |>) ;;
    mret (Ok tt).

(** * The batch *)

(** [if state.updateStateImpl { ... }]: the error of [PrepareWorkingSet] is
    dropped. *)
Definition syncStateImpl : M (State I) unit :=
  b ← gets updateStateImpl;
  when b (
    d ← gets stateDelta;
    _ ← onImpl (hs_PrepareWorkingSet d);
    modify (fun s => s <| updateStateImpl := false |>)).

Definition GetHash (db : DB) : M (State I) (result (option bytes)) :=
  syncStateImpl ;;
  hash ←? onImpl (hs_ComputeCryptoHash db);
  mret (Ok hash).

Definition GetTxStateDeltaHash (s : State I) : gmap bytes (option bytes) := txStateDeltaHash s.

Definition ClearInMemoryChanges (changesPersisted : bool) : M (State I) unit :=
  modify (fun s => s <| stateDelta := NewStateDelta |> <| txStateDeltaHash := ∅ |>) ;;
  onImpl (hs_ClearWorkingSet changesPersisted).

Definition getStateDelta (s : State I) : StateDelta := stateDelta s.

(** An error of [Unmarshal] is dropped and what it has read is returned. *)
Definition FetchStateDeltaFromDB (db : DB) (blockNumber : Z) : result (option StateDelta) :=
  match GetFromStateDeltaCF db (encodeStateDeltaKey blockNumber) with
  | Err => Err
  | Ok None => Ok None
  | Ok (Some stateDeltaBytes) => Ok (Some (fst (Unmarshal NewStateDelta stateDeltaBytes)))
  end.

(** The batch with the changes. *)
Definition State_AddChangesForPersistence (db : DB) (blockNumber : Z) (writeBatch : list batchOp)
    : M (State I) (list batchOp) :=
  syncStateImpl ;;
  writeBatch ← onImpl (hs_AddChangesForPersistence db writeBatch);
  s ← get;
  let serializedStateDelta := Marshal o (stateDelta s) in
  let writeBatch := writeBatch ++
    [PutCF StateDeltaCF (encodeStateDeltaKey blockNumber) serializedStateDelta] in
  if blockNumber >=? historyStateDeltaSize s then
    let blockNumberToDelete := u64 (blockNumber - historyStateDeltaSize s) in
    mret (writeBatch ++ [DeleteCF StateDeltaCF (encodeStateDeltaKey blockNumberToDelete)])
  else mret writeBatch.

Definition ApplyStateDelta (delta : StateDelta) : M (State I) unit :=
  modify (fun s => s <| stateDelta := delta |> <| updateStateImpl := true |>).

(** The database after the write. *)
Definition CommitStateDelta (db : DB) : M (State I) (result DB) :=
  syncStateImpl ;;
  writeBatch ← onImpl (hs_AddChangesForPersistence db []);
  mret (Write db writeBatch).

Definition DeleteState (db : DB) : M (State I) (result DB) :=
  ClearInMemoryChanges false ;;
  mret (DB_DeleteState db).

(** * Composite range scans *)

(** Calls through the interface RangeScanIterator. *)
Definition itr_Next (db : DB) : M (anyItr Itr) bool := fun itr =>
  match itr with
  | DeltaItr d => let '(b, d) := DeltaIterator.Next d in Done b (DeltaItr d)
  | ImplItr i =>
    match hs_Next db i with
    | Done b i => Done b (ImplItr i)
    | Panic => Panic
    | Diverge => Diverge
    end
  end.

Definition itr_GetKeyValue (itr : anyItr Itr) : option (bytes * option bytes) :=
  match itr with
  | DeltaItr d => DeltaIterator.GetKeyValue d
  | ImplItr i => Some (hs_GetKeyValue i)
  end.

(** [itrs[currentItrNumber].Next()]. *)
Definition currentNext (db : DB) : M (CompositeRangeScanIterator Itr) bool := fun c =>
  match itrs c !! currentItrNumber c with
  | None => Panic
  | Some itr =>
    match itr_Next db itr with
    | Done b itr => Done b (c <| itrs := <[currentItrNumber c := itr]> (itrs c) |>)
    | Panic => Panic
    | Diverge => Diverge
    end
  end.

(** [for i := currentItrNumber - 1; i >= 0; i--]; [None] is the panic of the type
    assertion. *)
Fixpoint skipKey (its : list (anyItr Itr)) (key : bytes) (i : nat) : option bool :=
  match i with
  | O => Some false
  | S i =>
    match its !! i with
    | Some (DeltaItr d) => if DeltaIterator.ContainsKey d key then Some true else skipKey its key i
    | _ => None
    end
  end.

(** [for keyAvailable { ... }]; the loop ends when the current iterator does. *)
Fixpoint skipLoop (db : DB) (fuel : nat) (keyAvailable : bool)
    : M (CompositeRangeScanIterator Itr) bool :=
  if keyAvailable then
    match fuel with
    | O => diverge
    | S fuel =>
      c ← get;
      itr ← lift (itrs c !! currentItrNumber c);
      '(key, _) ← lift (itr_GetKeyValue itr);
      skip ← lift (skipKey (itrs c) key (currentItrNumber c));
      if (skip : bool) then
        keyAvailable ← currentNext db;
        skipLoop db fuel keyAvailable
      else mret true
    end
  else mret false.

(** [CompositeRangeScanIterator.Next]; [rounds] bounds its calls of itself. *)
Fixpoint composite_Next (db : DB) (fuel rounds : nat) : M (CompositeRangeScanIterator Itr) bool :=
  keyAvailable ← currentNext db;
  keyAvailable ← skipLoop db fuel keyAvailable;
  n ← gets currentItrNumber;
  if keyAvailable || bool_decide (n = 2%nat) then mret keyAvailable else
  modify (fun c => c <| currentItrNumber := S (currentItrNumber c) |>) ;;
  match rounds with
  | O => diverge
  | S rounds => composite_Next db fuel rounds
  end.

Definition composite_GetKeyValue (c : CompositeRangeScanIterator Itr) : option (bytes * option bytes) :=
  itr ← itrs c !! currentItrNumber c; itr_GetKeyValue itr.
End state.
