(* ===== verification/StateScan.v ===== *)
(** Range scans over the uncommitted state: the composite iterator goes through
    exactly the keys of the range that [State.Get] finds, with their values. *)
From stdpp Require Import base gmap list.
From Stdlib Require Import ZArith Lia.
From S2P Require Import Prelude GoStd GoBytes LedgerUtil KVStore StateDelta StateSpec HashableState.
From S2P Require Import State.

(** * Scans over a delta *)

Lemma relevantKeys_elem o kvs start_ end_ k :
  k ∈ retrieveRelevantKeys o (Some kvs) start_ end_ <->
    exists u, kvs !! k = Some u /\ inRange start_ end_ k = true /\ IsDelete u = false.
Proof.
  unfold retrieveRelevantKeys. rewrite list_elem_of_fmap. split.
  - intros ([k' u] & -> & [[Hr Hd]%Is_true_true%andb_true_iff Hin%elem_of_ord]%list_elem_of_filter).
    exists u. cbn. by apply negb_true_iff in Hd.
  - intros (u & Hu & Hr & Hd). exists (k, u). split; [done|]. apply list_elem_of_filter.
    rewrite Hr, Hd. split; [done|]. by apply elem_of_ord.
Qed.

Lemma relevantKeys_NoDup o us start_ end_ : NoDup (retrieveRelevantKeys o us start_ end_).
Proof. destruct us; [|constructor]. apply NoDup_fst_filter, ord_NoDup. Qed.

Section scan.
Context {DB I Itr : Type} `{RocksDBLaws DB} `{!HashableState DB I Itr} `{!HashableStateSpec DB I Itr}.

Abbreviation itrYields db := (yields (itr_Next (Itr := Itr) db) itr_GetKeyValue).

(** The entries a delta iterator goes through. *)
Definition deltaEntries (d : StateDelta) (cc : bytes) (ks : list bytes) : list (bytes * option bytes) :=
  (fun k => (k, Get d cc k ≫= Value)) <$> ks.

Lemma delta_yields_from db d cc ks i :
  (forall k, k ∈ ks -> is_Some (Get d cc k)) -> (i <= length ks)%nat ->
  itrYields db (DeltaItr (mkStateDeltaIterator (GetUpdates d cc) ks (Z.of_nat i - 1) false))
    (deltaEntries d cc (drop i ks)).
Proof.
  intros Hks Hi. remember (length ks - i)%nat as n eqn:En. revert i Hi En.
  induction n as [|n IH]; intros i Hi En.
  - rewrite drop_ge by lia. eapply yields_nil. cbn.
    unfold DeltaIterator.Next. cbn. rewrite (proj2 (Z.ltb_ge _ _)) by lia. reflexivity.
  - destruct (lookup_lt_is_Some_2 ks i ltac:(lia)) as [k Ek]. rewrite (drop_S ks k i) by done.
    eapply yields_cons; [| |apply (IH (S i)); lia].
    + cbn. unfold DeltaIterator.Next. cbn. rewrite (proj2 (Z.ltb_lt _ _)) by lia.
      replace (Z.of_nat i - 1 + 1) with (Z.of_nat (S i) - 1) by lia. reflexivity.
    + cbn [itr_GetKeyValue]. unfold DeltaIterator.GetKeyValue. cbn [currentKeyIndex relevantKeys updates].
      rewrite (proj2 (Z.ltb_ge _ _)) by lia. replace (Z.to_nat (Z.of_nat (S i) - 1)) with i by lia.
      rewrite Ek. destruct (Hks k ltac:(by eapply list_elem_of_lookup_2)) as [u Hu]. rewrite Hu.
      unfold GetUpdates, Get, Chaincode.get in *. destruct (ChaincodeStateDeltas d !! cc); [|done].
      cbn in *. by rewrite Hu.
Qed.

(** What the scan of a delta gives. *)
Definition deltaScan (o : mapOrder) (d : StateDelta) (cc start_ end_ : bytes) : list (bytes * option bytes) :=
  deltaEntries d cc (retrieveRelevantKeys o (GetUpdates d cc) start_ end_).

Lemma elem_of_deltaScan o d cc start_ end_ k v :
  (k, v) ∈ deltaScan o d cc start_ end_ <->
    exists u, Get d cc k = Some u /\ inRange start_ end_ k = true /\ v = Value u /\ is_Some v.
Proof.
  unfold deltaScan, deltaEntries, GetUpdates, Get. destruct (ChaincodeStateDeltas d !! cc) as [c|]; cbn.
  2:{ split; [by intros ?%elem_of_nil|by intros (? & ? & ?)]. }
  rewrite list_elem_of_fmap. unfold Chaincode.get. split.
  - intros (k' & [= -> ->] & (u & Hu & Hr & Hd)%relevantKeys_elem). exists u. rewrite Hu. cbn.
    unfold IsDelete in Hd. apply bool_decide_eq_false, not_eq_None_Some in Hd. done.
  - intros (u & Hu & Hr & -> & Hd). exists k. rewrite Hu. split; [done|]. apply relevantKeys_elem.
    exists u. split; [done|]. split; [done|]. by apply bool_decide_eq_false, not_eq_None_Some.
Qed.

Lemma deltaScan_NoDup o d cc start_ end_ : NoDup (deltaScan o d cc start_ end_).*1.
Proof.
  unfold deltaScan, deltaEntries. rewrite <- list_fmap_compose.
  rewrite (list_fmap_ext _ id) by done. rewrite list_fmap_id. apply relevantKeys_NoDup.
Qed.

Lemma delta_yields db o d cc start_ end_ :
  itrYields db (DeltaItr (NewStateDeltaRangeScanIterator o d cc start_ end_))
    (deltaScan o d cc start_ end_).
Proof.
  apply (delta_yields_from db d cc _ 0); [|lia]. intros k Hk. unfold GetUpdates, Get in *.
  destruct (ChaincodeStateDeltas d !! cc) as [c|]; [|by apply elem_of_nil in Hk].
  apply relevantKeys_elem in Hk as (u & Hu & _). by exists u.
Qed.

Lemma ContainsKey_new o d cc start_ end_ k :
  DeltaIterator.ContainsKey (NewStateDeltaRangeScanIterator o d cc start_ end_) k =
    bool_decide (is_Some (Get d cc k)).
Proof.
  unfold DeltaIterator.ContainsKey, NewStateDeltaRangeScanIterator, GetUpdates, Get. cbn.
  by destruct (ChaincodeStateDeltas d !! cc).
Qed.

Lemma impl_yields db itr l : yields (hs_Next db) (fun itr => Some (hs_GetKeyValue itr)) itr l ->
  itrYields db (ImplItr itr) l.
Proof.
  induction 1 as [itr itr' E|itr itr' x l E Ex Hl IH].
  - eapply yields_nil. cbn. by rewrite E.
  - eapply yields_cons; [cbn; by rewrite E|done|done].
Qed.

(** * The composite iterator *)

(** The keys that an iterator hides from the ones after it. *)
Definition hides (x : anyItr Itr) (k : bytes) : bool :=
  match x with DeltaItr d => DeltaIterator.ContainsKey d k | ImplItr _ => false end.

Definition sameKeys (x y : anyItr Itr) : Prop :=
  match x, y with
  | DeltaItr d, DeltaItr e => updates d = updates e
  | ImplItr _, ImplItr _ => True
  | _, _ => False
  end.

#[local] Instance sameKeys_equiv : Equivalence sameKeys.
Proof.
  split.
  - by intros [].
  - intros [] []; cbn; congruence.
  - intros [] [] []; cbn; try done. congruence.
Qed.

Lemma itr_Next_sameKeys db x b y : itr_Next db x = Done b y -> sameKeys x y.
Proof.
  destruct x as [d|i]; cbn.
  - unfold DeltaIterator.Next. cbn. destruct (_ <? _); intros [= <- <-]; exact eq_refl.
  - destruct (hs_Next db i); intros [= <- <-]; exact Logic.I.
Qed.

Lemma skipKey_insert (its : list (anyItr Itr)) k n x : skipKey (<[n := x]> its) k n = skipKey its k n.
Proof.
  assert (forall m, (m <= n)%nat -> skipKey (<[n := x]> its) k m = skipKey its k m) as Hm; [|by apply Hm].
  induction m as [|m IH]; intros Hmn; [done|]. cbn.
  rewrite list_lookup_insert_ne by lia. rewrite IH by lia. done.
Qed.

(** The entries an iterator at position [n] contributes. *)
Definition visible (f : bytes -> bool) (l : list (bytes * option bytes)) : list (bytes * option bytes) :=
  List.filter (fun kv => negb (f kv.1)) l.

Lemma currentNext_at db (its : list (anyItr Itr)) n x b y : its !! n = Some x -> itr_Next db x = Done b y ->
  currentNext db (mkCompositeRangeScanIterator its n) =
    Done b (mkCompositeRangeScanIterator (<[n := y]> its) n).
Proof. intros Hx Hn. unfold currentNext. cbn. by rewrite Hx, Hn. Qed.

Lemma skipLoop_at db fuel (its : list (anyItr Itr)) n x f k v : its !! n = Some x -> itr_GetKeyValue x = Some (k, v) ->
  skipKey its k n = Some (f k) ->
  skipLoop db (S fuel) true (mkCompositeRangeScanIterator its n) =
    if (f k : bool) then (b ← currentNext db; skipLoop db fuel b) (mkCompositeRangeScanIterator its n)
    else Done true (mkCompositeRangeScanIterator its n).
Proof.
  intros Hx Hkv Hs. cbn. cbv [mbind M_bind get lift mret M_ret]. cbn. rewrite Hx, Hkv, Hs.
  by destruct (f k).
Qed.

(** Moving the current iterator past the hidden keys. *)
Lemma advance_spec db n f : forall x l, itrYields db x l -> forall its fuel, its !! n = Some x ->
  (forall k, skipKey its k n = Some (f k)) -> (length l <= fuel)%nat ->
  exists b y, (b ← currentNext db; skipLoop db fuel b) (mkCompositeRangeScanIterator its n) =
      Done b (mkCompositeRangeScanIterator (<[n := y]> its) n) /\ sameKeys x y /\
    if (b : bool) then exists kv l', itr_GetKeyValue y = Some kv /\ itrYields db y l' /\
      visible f l = kv :: visible f l' /\ (length l' <= length l)%nat
    else visible f l = [].
Proof.
  induction 1 as [x y E|x y [k v] l E Ekv Hl IH]; intros its fuel Hx Hs Hf.
  - exists false, y. cbv [mbind M_bind]. rewrite (currentNext_at db its n x false y) by done.
    destruct fuel; (split; [done|]; split; [by eapply itr_Next_sameKeys|done]).
  - destruct fuel as [|fuel]; [cbn in Hf; lia|].
    cbv [mbind M_bind]. rewrite (currentNext_at db its n x true y) by done.
    pose proof (lookup_lt_Some _ _ _ Hx) as Hn.
    rewrite (skipLoop_at db fuel _ n y f k v);
      [|by rewrite list_lookup_insert_eq|done|by rewrite skipKey_insert].
    assert (visible f ((k, v) :: l) = if f k then visible f l else (k, v) :: visible f l) as Ev
      by (cbn; by destruct (f k)).
    rewrite Ev. destruct (f k).
    + destruct (IH (<[n := y]> its) fuel) as (b & z & Eb & Hz & Hb);
        [by rewrite list_lookup_insert_eq|intros; by rewrite skipKey_insert|cbn in Hf; lia|].
      exists b, z. rewrite Eb, list_insert_insert_eq. split; [done|].
      split; [transitivity y; [by eapply itr_Next_sameKeys|done]|].
      destruct b; [|done]. destruct Hb as (kv & l' & ? & ? & ? & ?). exists kv, l'. cbn. repeat split; auto.
    + exists true, y. split; [done|]. split; [by eapply itr_Next_sameKeys|]. exists (k, v), l. cbn. auto.
Qed.

(** The levels still to go through, each with the keys it hides and the entries
    left in its iterator. *)
Abbreviation levels := (list ((bytes -> bool) * list (bytes * option bytes))).

Fixpoint merged (f : bytes -> bool) (ls : levels) : list (bytes * option bytes) :=
  match ls with
  | [] => []
  | (h, l) :: ls => visible f l ++ merged (fun k => h k || f k) ls
  end.

Record ready (db : DB) (fuel : nat) (its : list (anyItr Itr)) (n : nat) (f : bytes -> bool)
    (ls : levels) : Prop := {
  rd_three : (n + length ls = 3)%nat;
  rd_skip : forall k, skipKey its k n = Some (f k);
  rd_level : forall i h l, ls !! i = Some (h, l) -> (length l <= fuel)%nat /\
    exists x, its !! (n + i)%nat = Some x /\ itrYields db x l /\
      ((n + i < 2)%nat -> (exists d, x = DeltaItr d) /\ forall k, hides x k = h k)
}.

Lemma ready_update db fuel its n f h l ls x y l' : ready db fuel its n f ((h, l) :: ls) ->
  its !! n = Some x -> sameKeys x y -> itrYields db y l' -> (length l' <= length l)%nat ->
  ready db fuel (<[n := y]> its) n f ((h, l') :: ls).
Proof.
  intros [H3 Hs Hl] Hx Hxy Hy Hlen. split; [done|intros; by rewrite skipKey_insert|].
  pose proof (lookup_lt_Some _ _ _ Hx) as Hn. intros [|i] h' k Hi.
  - injection Hi as <- <-. destruct (Hl 0%nat h l eq_refl) as (Hf & x' & Hx' & _ & Hd).
    rewrite Nat.add_0_r in *. split; [lia|]. exists y. rewrite list_lookup_insert_eq by done.
    split; [done|]. split; [done|]. intros H2. destruct (Hd H2) as [[d ->] Hh]. simplify_eq.
    destruct y as [e|]; [|done]. split; [by eexists|]. intros k. rewrite <- Hh. cbn in Hxy |- *.
    unfold DeltaIterator.ContainsKey. by rewrite Hxy.
  - destruct (Hl (S i) h' k Hi) as (Hf & x' & Hx' & Hr). split; [done|]. exists x'.
    by rewrite list_lookup_insert_ne by lia.
Qed.

Lemma ready_move db fuel its n f h l p ls x y : ready db fuel its n f ((h, l) :: p :: ls) ->
  its !! n = Some x -> sameKeys x y ->
  ready db fuel (<[n := y]> its) (S n) (fun k => h k || f k) (p :: ls).
Proof.
  intros [H3 Hs Hl] Hx Hxy. pose proof (lookup_lt_Some _ _ _ Hx) as Hn. split; [cbn in *; lia| |].
  - intros k. cbn. rewrite list_lookup_insert_eq by done.
    destruct (Hl 0%nat h l eq_refl) as (_ & x' & Hx' & _ & Hd). rewrite Nat.add_0_r in *. simplify_eq.
    destruct (Hd ltac:(cbn in H3; lia)) as [[d ->] Hh]. destruct y as [e|]; [|done].
    rewrite skipKey_insert, Hs. rewrite <- Hh. cbn in Hxy |- *. unfold DeltaIterator.ContainsKey.
    rewrite Hxy. by case_match.
  - intros i h' k Hi. destruct (Hl (S i) h' k Hi) as (Hf & x' & Hx' & Hr). split; [done|]. exists x'.
    rewrite list_lookup_insert_ne by lia. by replace (S n + i)%nat with (n + S i)%nat by lia.
Qed.

Lemma composite_step db fuel : forall ls n its f r, ready db fuel its n f ls -> ls <> [] ->
  (length ls <= S r)%nat ->
  match merged f ls with
  | [] => exists c, composite_Next db fuel r (mkCompositeRangeScanIterator its n) = Done false c
  | kv :: rest => exists its' n' f' ls',
      composite_Next db fuel r (mkCompositeRangeScanIterator its n) =
        Done true (mkCompositeRangeScanIterator its' n') /\
      composite_GetKeyValue (mkCompositeRangeScanIterator its' n') = Some kv /\
      ready db fuel its' n' f' ls' /\ ls' <> [] /\ merged f' ls' = rest
  end.
Proof.
  induction ls as [|[h l] ls IH]; intros n its f r Hrd Hne Hr; [done|]. clear Hne.
  destruct (rd_level _ _ _ _ _ _ Hrd 0%nat h l eq_refl) as (Hf & x & Hx & Hy & _). rewrite Nat.add_0_r in Hx.
  destruct (advance_spec db n f x l Hy its fuel Hx (rd_skip _ _ _ _ _ _ Hrd) Hf) as (b & y & E & Hxy & Hb).
  assert (composite_Next db fuel r (mkCompositeRangeScanIterator its n) =
    (if b || bool_decide (n = 2%nat) then Done b (mkCompositeRangeScanIterator (<[n := y]> its) n) else
     match r with
     | O => Diverge
     | S r => composite_Next db fuel r (mkCompositeRangeScanIterator (<[n := y]> its) (S n))
     end)) as ->.
  { revert E. destruct r; cbn; cbv [mbind M_bind gets modify]; destruct (currentNext db _); try done;
      intros ->; cbn; by destruct (_ || _). }
  pose proof (lookup_lt_Some _ _ _ Hx) as Hn. cbn [merged]. destruct b; cbn [orb].
  - destruct Hb as (kv & l' & Hkv & Hyl & -> & Hlen). cbn. exists (<[n := y]> its), n, f, ((h, l') :: ls).
    split; [done|]. unfold composite_GetKeyValue. cbn. rewrite list_lookup_insert_eq by done.
    split; [done|]. split; [|done]. by eapply ready_update.
  - rewrite Hb. cbn [app]. pose proof (rd_three _ _ _ _ _ _ Hrd) as H3. destruct ls as [|p ls].
    + cbn in *. rewrite bool_decide_eq_true_2 by lia. by eexists.
    + cbn in H3. rewrite bool_decide_eq_false_2 by lia. destruct r as [|r]; [cbn in Hr; lia|].
      apply IH; [by eapply ready_move|done|cbn in *; lia].
Qed.

Lemma composite_yields db fuel l : forall ls n its f, ready db fuel its n f ls -> ls <> [] ->
  merged f ls = l ->
  yields (composite_Next db fuel 2) composite_GetKeyValue (mkCompositeRangeScanIterator its n) l.
Proof.
  induction l as [|kv l IH]; intros ls n its f Hrd Hne Em;
    pose proof (composite_step db fuel ls n its f 2 Hrd Hne ltac:(pose proof (rd_three _ _ _ _ _ _ Hrd); lia)) as Hstep;
    rewrite Em in Hstep.
  - destruct Hstep as [c E]. by eapply yields_nil.
  - destruct Hstep as (its' & n' & f' & ls' & E & Ekv & Hrd' & Hne' & Em'). eapply yields_cons; [exact E|done|].
    by eapply IH.
Qed.

(** ** Agreement with [State.Get] *)

Lemma State_Get_value db (s : State I) committed_ w cc k : hs_holds db (stateImpl s) committed_ w ->
  State_Get db cc k false s = Done (Ok
    match Get (currentTxStateDelta s) cc k with
    | Some u => Value u
    | None =>
      match Get (stateDelta s) cc k with
      | Some u => Value u
      | None => committed_ !! ConstructCompositeKey cc k
      end
    end) s.
Proof.
  intros Hh. unfold State_Get. cbv [mbind M_bind get]. cbn [negb].
  destruct (Get (currentTxStateDelta s) cc k); [done|]. destruct (Get (stateDelta s) cc k); [done|].
  unfold onImpl. rewrite (hs_Get_spec _ _ _ _ _ _ Hh). by destruct s.
Qed.

Lemma visible_elem f l k v : (k, v) ∈ visible f l <-> (k, v) ∈ l /\ f k = false.
Proof. unfold visible. rewrite !list_elem_of_In, filter_In. cbn. by rewrite negb_true_iff. Qed.

Lemma visible_NoDup f l : NoDup l.*1 -> NoDup (visible f l).*1.
Proof. apply NoDup_fmap_filter. Qed.

(** Levels without duplicates, each hiding its own keys, merge without
    duplicates. *)
Lemma merged_NoDup (ls : levels) : forall f,
  (forall h l, (h, l) ∈ ls -> NoDup l.*1) ->
  (forall i h l k v, ls !! i = Some (h, l) -> (S i < length ls)%nat -> (k, v) ∈ l -> h k = true) ->
  NoDup (merged f ls).*1 /\ forall k v, (k, v) ∈ merged f ls -> f k = false.
Proof.
  induction ls as [|[h l] ls IH]; intros f Hnd Hh; [split; [constructor|by intros ? ? ?%elem_of_nil]|].
  cbn [merged]. destruct (IH (fun k => h k || f k)) as [Hn Hv].
  { intros h' l' Hin. apply (Hnd h'). by right. }
  { intros i h' l' k v Hi Hlt. apply (Hh (S i) h' l'); [done|cbn; lia]. }
  split.
  - rewrite fmap_app. apply NoDup_app. split; [apply visible_NoDup, (Hnd h); by left|]. split; [|done].
    intros k ([k1 v1] & -> & [Hin _]%visible_elem)%list_elem_of_fmap ([k2 v2] & E & Hin2)%list_elem_of_fmap.
    cbn in E. subst k2. destruct ls as [|p ls]; [by apply elem_of_nil in Hin2|].
    apply Hv in Hin2. rewrite (Hh 0%nat h l k1 v1) in Hin2; [done..|cbn; lia|done].
  - intros k v [[_ ?]%visible_elem|Hin]%elem_of_app; [done|]. apply Hv in Hin.
    by apply orb_false_iff in Hin as [_ ?].
Qed.

Lemma scan_ready db o (s : State I) cc start_ end_ itr li fuel :
  yields (hs_Next db) (fun itr => Some (hs_GetKeyValue itr)) itr li ->
  let la := deltaScan o (currentTxStateDelta s) cc start_ end_ in
  let lb := deltaScan o (stateDelta s) cc start_ end_ in
  (length la + length lb + length li <= fuel)%nat ->
  ready db fuel (itrs (newCompositeRangeScanIterator
      (NewStateDeltaRangeScanIterator o (currentTxStateDelta s) cc start_ end_)
      (NewStateDeltaRangeScanIterator o (stateDelta s) cc start_ end_) itr)) 0 (fun _ => false)
    [(fun k => bool_decide (is_Some (Get (currentTxStateDelta s) cc k)), la);
     (fun k => bool_decide (is_Some (Get (stateDelta s) cc k)), lb); (fun _ => false, li)].
Proof.
  intros Hi la lb Hf. split; [done..|]. intros [|[|[|i]]] h l [= <- <-]; (split; [lia|]).
  - eexists. split; [reflexivity|]. split; [apply delta_yields|]. intros _. split; [by eexists|].
    intros k. apply ContainsKey_new.
  - eexists. split; [reflexivity|]. split; [apply delta_yields|]. intros _. split; [by eexists|].
    intros k. apply ContainsKey_new.
  - eexists. split; [reflexivity|]. split; [by apply impl_yields|]. intros. cbn in *. lia.
Qed.

(** A range scan over the uncommitted state goes through every key of the
    range exactly once, with the value [State.Get] returns for it, and through
    no key that [State.Get] does not find: changes of the current transaction
    hide those of the batch, and both hide the committed state. *)
Theorem range_scan_agrees_with_Get (o : mapOrder) (db : DB) (s : State I) (committed_ : kvs) (w : option kvs)
    (cc start_ end_ : bytes) :
  hs_holds db (stateImpl s) committed_ w -> stateKeyDelimiter ∉ cc ->
  exists itr l n, GetRangeScanIterator o db s cc start_ end_ false = Some (CompositeItr itr) /\
    (forall fuel, (n <= fuel)%nat -> yields (composite_Next db fuel 2) composite_GetKeyValue itr l) /\
    NoDup l.*1 /\
    forall k v, (k, v) ∈ l <->
      inRange start_ end_ k = true /\ State_Get db cc k false s = Done (Ok v) s /\ is_Some v.
Proof.
  intros Hh Hcc. destruct (hs_Scan_spec db (stateImpl s) committed_ w cc start_ end_ Hh Hcc)
    as (itr & li & Eitr & Hyi & Hndi & Hli).
  pose (la := deltaScan o (currentTxStateDelta s) cc start_ end_).
  pose (lb := deltaScan o (stateDelta s) cc start_ end_).
  eexists _, _, (length la + length lb + length li)%nat. split; [|split; [|split]].
  - unfold GetRangeScanIterator. rewrite Eitr. reflexivity.
  - intros fuel Hf. eapply (composite_yields db fuel); [by apply (scan_ready db o s cc start_ end_ itr li)|done|reflexivity].
  - apply merged_NoDup.
    + intros h l [[= -> ->]|[[= -> ->]|[[= -> ->]|[]%elem_of_nil]%elem_of_cons]%elem_of_cons]%elem_of_cons;
        [apply deltaScan_NoDup..|done].
    + intros [|[|[|i]]] h l k v [= <- <-] Hlt; cbn in Hlt; [..|lia].
      * intros (u & Hu & _)%elem_of_deltaScan. apply bool_decide_eq_true. by eexists.
      * intros (u & Hu & _)%elem_of_deltaScan. apply bool_decide_eq_true. by eexists.
  - intros k v. rewrite (State_Get_value db s committed_ w cc k Hh). cbn [merged].
    rewrite app_nil_r, !elem_of_app, !visible_elem, !elem_of_deltaScan, Hli, !orb_false_r.
    rewrite orb_false_iff, !bool_decide_eq_false.
    destruct (Get (currentTxStateDelta s) cc k) as [u|] eqn:Ea; [|destruct (Get (stateDelta s) cc k) as [u|] eqn:Eb].
    + split.
      * intros [[(u' & [= <-] & Hr & -> & Hv) _]|[[_ Hn]|[_ [_ Hn]]]]; [done| |]; by destruct Hn; eexists.
      * intros (Hr & [= <-] & Hv). left. split; [|done]. by exists u.
    + split.
      * intros [[(u' & [=] & _) _]|[[(u' & [= <-] & Hr & -> & Hv) _]|[_ [Hn _]]]]; [done|]; by destruct Hn; eexists.
      * intros (Hr & [= <-] & Hv). right. left. split; [by exists u|by intros []].
    + split.
      * intros [[(u' & [=] & _) _]|[[(u' & [=] & _) _]|[(Hr & -> & Hv) _]]]. done.
      * intros (Hr & [= <-] & Hv). right. right. split; [done|]. split; by intros [].
Qed.
End scan.
