(* ===== verification/StateRefine.v ===== *)
(** state.go against an abstract transactional store: the committed values, the
    writes of the batch and those of the current transaction. *)
From stdpp Require Import base gmap list.
From Stdlib Require Import ZArith Lia.
From S2P Require Import Prelude GoStd GoBytes LedgerUtil KVStore StateDelta StateSpec HashableState.
From S2P Require Import State StateScan.

(** * The abstract store *)

(** Writes by chaincode and key; [None] deletes. *)
Abbreviation writes := (gmap (bytes * bytes) (option bytes)).

Record store := mkStore {
  st_committed : kvs;
  st_batch : writes;
  st_tx : writes;
  st_uuid : bytes
}.

#[export] Instance store_eta : Eta store := fun a =>
  mkStore (st_committed a) (st_batch a) (st_tx a) (st_uuid a).

(** The writes by composite key. *)
Definition compositeWrites (b : writes) : gmap bytes (option bytes) :=
  list_to_map ((fun '((cc, k), v) => (ConstructCompositeKey cc k, v)) <$> map_to_list b).

(** The values once the batch is committed. *)
Definition afterBatch (a : store) : kvs := applyWrites (st_committed a) (compositeWrites (st_batch a)).

(** What a transaction reads. *)
Definition readStore (a : store) (cc k : bytes) (committed_ : bool) : option bytes :=
  if committed_ then st_committed a !! ConstructCompositeKey cc k else
  match st_tx a !! (cc, k) with
  | Some v => v
  | None =>
    match st_batch a !! (cc, k) with
    | Some v => v
    | None => st_committed a !! ConstructCompositeKey cc k
    end
  end.

(** * Deltas that represent writes *)

(** [represents s d b]: the delta holds the writes [b], each with the committed
    value it replaces. *)
Record represents (s : kvs) (d : StateDelta) (b : writes) : Prop := {
  rp_wf : wfDelta d;
  rp_delim : noDelimiter d;
  rp_forward : RollBackwards d = false;
  rp_Get : forall cc k, Get d cc k =
    (fun v => mkUpdatedValue v (s !! ConstructCompositeKey cc k)) <$> b !! (cc, k)
}.

Lemma Get_empty cc k : Get NewStateDelta cc k = None.
Proof. unfold Get, NewStateDelta. cbn. by rewrite lookup_empty. Qed.

Lemma represents_empty s : represents s NewStateDelta ∅.
Proof.
  split; [apply NewStateDelta_wf|apply map_Forall_empty|done|].
  intros. by rewrite Get_empty, lookup_empty.
Qed.

Lemma IsUpdatedValueSet_Get d cc k : IsUpdatedValueSet d cc k = bool_decide (is_Some (Get d cc k)).
Proof.
  unfold IsUpdatedValueSet, Get, Chaincode.get. destruct (ChaincodeStateDeltas d !! cc); [done|].
  symmetry. apply bool_decide_eq_false. by intros [].
Qed.

Lemma Set_noDelimiter d cc k v pv : stateKeyDelimiter ∉ cc -> noDelimiter d ->
  noDelimiter (Set_ d cc k v pv).
Proof. intros Hcc Hd. by apply map_Forall_insert_2. Qed.

(** A write with the committed value as its previous one, or on a key that has
    one already. *)
Lemma represents_Set s d b cc k v pv : represents s d b -> stateKeyDelimiter ∉ cc ->
  (b !! (cc, k) = None -> pv = s !! ConstructCompositeKey cc k) ->
  represents s (Set_ d cc k v pv) (<[(cc, k) := v]> b).
Proof.
  intros [Hwf Hd Hf Hg] Hcc Hpv. split; [by apply Set_wf|by apply Set_noDelimiter|done|].
  intros cc' k'. rewrite Get_Set, !Hg. case_decide as E.
  - destruct E as [-> ->]. rewrite lookup_insert_eq. cbn. f_equal.
    destruct (b !! (cc, k)) eqn:Eb; cbn; [done|]. by rewrite Hpv.
  - rewrite lookup_insert_ne; [done|]. intros [= <- <-]. by apply E.
Qed.

Lemma ApplyChanges_noDelimiter o d a : noDelimiter d -> noDelimiter a -> noDelimiter (ApplyChanges o d a).
Proof.
  intros Hd Ha. unfold ApplyChanges.
  assert (forall l, Forall (fun p : bytes * ChaincodeStateDelta => stateKeyDelimiter ∉ p.1) l ->
    forall d, noDelimiter d -> noDelimiter (foldl (applyChaincode o) d l)) as Hl.
  { clear. induction 1 as [|[cc c] l Hcc Hl IH]; intros d Hd; [done|]. cbn [foldl]. apply IH.
    unfold applyChaincode. apply foldl_preserves; [|done]. intros e [k u] He.
    destruct (applyOne_Set cc (bool_decide (is_Some (ChaincodeStateDeltas d !! cc))) e k u) as (pv & -> & _).
    by apply Set_noDelimiter. }
  apply Hl; [|done]. rewrite Forall_forall. intros [cc c] Hin%elem_of_ord. by eapply Ha.
Qed.

(** Merging a transaction into the batch. *)
Lemma represents_Apply o s d b tx t : represents s d b -> represents s tx t ->
  represents s (ApplyChanges o d tx) (t ∪ b).
Proof.
  intros [Hwf Hd Hf Hg] [Hwf' Hd' Hf' Hg']. split.
  - by apply ApplyChanges_wf.
  - by apply ApplyChanges_noDelimiter.
  - by rewrite ApplyChanges_RollBackwards.
  - intros cc k. rewrite Get_ApplyChanges, Hg, Hg', lookup_union. unfold overlay.
    destruct (t !! (cc, k)), (b !! (cc, k)); done.
Qed.

Lemma represents_noDelimiter s d b cc k : represents s d b -> is_Some (b !! (cc, k)) ->
  stateKeyDelimiter ∉ cc.
Proof.
  intros [Hwf Hd _ Hg] [v Hv]. specialize (Hg cc k). rewrite Hv in Hg. unfold Get in Hg.
  destruct (ChaincodeStateDeltas d !! cc) eqn:E; [|done]. by eapply Hd.
Qed.

Lemma represents_IsEmpty s d b : represents s d b -> IsEmpty d = bool_decide (b = ∅).
Proof.
  intros [Hwf Hd _ Hg]. unfold IsEmpty. apply bool_decide_ext. rewrite map_size_empty_iff. split.
  - intros E. apply map_eq. intros [cc k]. specialize (Hg cc k). rewrite Get_None in Hg by (by rewrite E, lookup_empty).
    rewrite lookup_empty. by destruct (b !! (cc, k)).
  - intros ->. destruct (decide (ChaincodeStateDeltas d = ∅)) as [|Hne]; [done|].
    destruct (map_choose _ Hne) as (cc & c & Ec). destruct (Hwf cc c Ec) as [_ Hc].
    destruct (map_choose _ Hc) as (k & u & Eu). specialize (Hg cc k).
    rewrite (Get_UpdatedKVs d cc c k Ec), Eu, lookup_empty in Hg. done.
Qed.

Lemma represents_IsUpdatedValueSet s d b cc k : represents s d b ->
  IsUpdatedValueSet d cc k = bool_decide (is_Some (b !! (cc, k))).
Proof.
  intros [_ _ _ Hg]. rewrite IsUpdatedValueSet_Get, Hg. apply bool_decide_ext. apply fmap_is_Some.
Qed.

Lemma compositeWrites_elem (b : writes) ck v :
  (ck, v) ∈ ((fun '((cc, k), v) => (ConstructCompositeKey cc k, v)) <$> map_to_list b) <->
    exists cc k, b !! (cc, k) = Some v /\ ck = ConstructCompositeKey cc k.
Proof.
  rewrite list_elem_of_fmap. split.
  - intros ([[cc k] v'] & [= -> ->] & Hin%elem_of_map_to_list). eauto.
  - intros (cc & k & Hb & ->). exists ((cc, k), v). split; [done|]. by apply elem_of_map_to_list.
Qed.

(** The writes of a delta that represents [b]. *)
Lemma represents_writes s d b : represents s d b -> deltaWrites d = compositeWrites b.
Proof.
  intros Hr. pose proof (rp_Get _ _ _ Hr) as Hg. apply map_eq. intros ck. apply option_eq. intros v.
  rewrite lookup_deltaWrites by apply Hr. unfold compositeWrites. rewrite <- elem_of_list_to_map.
  - rewrite compositeWrites_elem. unfold newValue. rewrite (rp_forward _ _ _ Hr). split.
    + intros (cc & k & u & Hu & -> & ->). rewrite Hg in Hu.
      destruct (b !! (cc, k)) eqn:E; [|done]. injection Hu as <-. eauto.
    + intros (cc & k & Hb & ->). exists cc, k. eexists. rewrite Hg, Hb. done.
  - rewrite <- list_fmap_compose. assert (forall x, x ∈ map_to_list b -> is_Some (b !! x.1)) as Hin.
    { intros [x v'] Hx%elem_of_map_to_list. by eexists. }
    pose proof (NoDup_fst_map_to_list b) as Hnd'. induction (map_to_list b) as [|[[cc k] u] l IH]; [constructor|].
    cbn in Hnd' |- *. apply NoDup_cons in Hnd' as [Hx Hl]. apply NoDup_cons. split.
    + intros ([[cc' k'] u'] & E & Hy)%list_elem_of_fmap. cbn in E.
      destruct (ConstructCompositeKey_inj cc k cc' k') as [-> ->]; [..|done|].
      * eapply represents_noDelimiter; [done|]. exact (Hin ((cc, k), u) ltac:(by left)).
      * eapply represents_noDelimiter; [done|]. exact (Hin ((cc', k'), u') ltac:(by right)).
      * apply Hx. by apply (list_elem_of_fmap_2 fst _ ((cc', k'), u')).
    + apply IH; [|done]. intros x ?. apply Hin. by right.
Qed.

(** * The relation *)

Section refine.
Context {DB I Itr : Type} `{RocksDBLaws DB} `{!HashableState DB I Itr} `{!HashableStateSpec DB I Itr}.
Context (hash : bytes -> bytes) (o : mapOrder).

(** The implementation's working set is up to date unless [updateStateImpl] is
    set. *)
Definition implHolds (db : DB) (s : State I) (a : store) : Prop :=
  exists w, hs_holds db (stateImpl s) (st_committed a) w /\
    (st_batch a = ∅ -> w = None) /\
    (st_batch a <> ∅ -> updateStateImpl s = false -> w = Some (afterBatch a)).

Record stateRel (db : DB) (s : State I) (a : store) : Prop := {
  sr_impl : implHolds db s a;
  sr_batch : represents (st_committed a) (stateDelta s) (st_batch a);
  sr_tx : represents (st_committed a) (currentTxStateDelta s) (st_tx a);
  sr_uuid : currentTxUUID s = st_uuid a;
  sr_idle : st_uuid a = [] -> st_tx a = ∅
}.

Lemma stateRel_healthy db s a : stateRel db s a -> healthy db.
Proof. intros [(w & Hh & _) _ _ _ _]. by eapply hs_healthy. Qed.

Lemma afterBatch_Delta s a : represents (st_committed a) (stateDelta s) (st_batch a) ->
  applyDelta (st_committed a) (stateDelta (I := I) s) = afterBatch a.
Proof. intros Hr. unfold applyDelta, afterBatch. by rewrite (represents_writes _ _ _ Hr). Qed.

Lemma NewState_rel db impl s n : hs_holds db impl s None -> 0 <= n ->
  exists st, NewState impl n = Some st /\ stateRel db st (mkStore s ∅ ∅ []) /\
    historyStateDeltaSize st = u64 n.
Proof.
  intros Hh Hn. unfold NewState. rewrite (proj2 (Z.ltb_ge _ _)) by lia. eexists. split; [done|].
  split; [|done]. split; try apply represents_empty; try done. exists None. done.
Qed.

Lemma txInProgress_rel db s a : stateRel db s a -> txInProgress s = negb (bool_decide (st_uuid a = [])).
Proof. intros Hr. unfold txInProgress. by rewrite (sr_uuid _ _ _ Hr). Qed.

Lemma TxBegin_rel db s a uuid : stateRel db s a ->
  if decide (st_uuid a = []) then
    exists s', TxBegin uuid s = Done tt s' /\ stateRel db s' (a <| st_uuid := uuid |>)
  else TxBegin uuid s = Panic.
Proof.
  intros Hr. unfold TxBegin. cbv [mbind M_bind gets]. rewrite (txInProgress_rel _ _ _ Hr).
  case_decide as E; [rewrite bool_decide_eq_true_2 by done|by rewrite bool_decide_eq_false_2].
  eexists. split; [reflexivity|]. destruct Hr. split; try done. intros _. by apply sr_idle0.
Qed.

(** Finishing the transaction keeps or drops its writes. *)
Lemma TxFinish_rel db s a uuid ok : stateRel db s a -> 
  if decide (st_uuid a = uuid) then
    exists s', TxFinish hash o uuid ok s = Done tt s' /\
      stateRel db s' (mkStore (st_committed a) (if (ok : bool) then st_tx a ∪ st_batch a else st_batch a) ∅ [])
  else TxFinish hash o uuid ok s = Panic.
Proof.
  intros [Himpl Hb Ht Hu Hidle]. unfold TxFinish. cbv [mbind M_bind gets]. rewrite Hu.
  case_decide as E; [rewrite bool_decide_eq_true_2 by done|by rewrite bool_decide_eq_false_2].
  cbn [negb]. destruct ok; cbn [when].
  2:{ eexists. split; [reflexivity|]. split; cbn; try done; try apply represents_empty. }
  rewrite (represents_IsEmpty _ _ _ Ht). case_bool_decide as Et; cbn [negb].
  - eexists. split; [reflexivity|]. rewrite Et, (left_id_L ∅ (∪)).
    split; cbn; try done; try apply represents_empty.
  - eexists. split; [reflexivity|]. split; cbn; try done.
    + destruct Himpl as (w & Hh & Hn & _). exists w. split; [done|]. split; [|done].
      intros En. exfalso. apply Et. apply map_eq. intros ck. rewrite lookup_empty.
      apply (f_equal (.!! ck)) in En. rewrite lookup_empty in En.
      by apply lookup_union_None in En as [? _].
    + by apply represents_Apply.
Qed.

Lemma State_Get_rel db s a cc k c : stateRel db s a ->
  State_Get db cc k c s = Done (Ok (readStore a cc k c)) s.
Proof.
  intros [(w & Hh & _) Hb Ht _ _]. destruct c.
  - unfold State_Get, onImpl. cbv [mbind M_bind get]. cbn [negb].
    rewrite (hs_Get_spec _ _ _ _ _ _ Hh). by destruct s.
  - rewrite (State_Get_value _ _ _ _ _ _ Hh). cbn.
    rewrite (rp_Get _ _ _ Ht), (rp_Get _ _ _ Hb). by destruct (st_tx a !! _), (st_batch a !! _).
Qed.

(** A write in the current transaction; [State.Delete] writes nil. *)
Lemma Delete_is_Set db cc k : State_Delete db cc k = State_Set (I := I) db cc k None.
Proof. reflexivity. Qed.

Lemma State_Set_rel db s a cc k v : stateRel db s a -> stateKeyDelimiter ∉ cc ->
  if decide (st_uuid a = []) then State_Set db cc k v s = Panic else
  exists s', State_Set db cc k v s = Done (Ok tt) s' /\
    stateRel db s' (a <| st_tx := <[(cc, k) := v]> (st_tx a) |>).
Proof.
  intros Hr Hcc. pose proof (State_Get_rel db s a cc k true Hr) as Hg.
  unfold State_Set, try. cbv [mbind M_bind gets]. rewrite (txInProgress_rel _ _ _ Hr).
  case_decide as E; [by rewrite bool_decide_eq_true_2|rewrite bool_decide_eq_false_2 by done]. cbn [negb].
  rewrite (represents_IsUpdatedValueSet _ _ _ cc k (sr_tx _ _ _ Hr)).
  assert (forall pv, (st_tx a !! (cc, k) = None -> pv = st_committed a !! ConstructCompositeKey cc k) ->
    stateRel db (s <| currentTxStateDelta := Set_ (currentTxStateDelta s) cc k v pv |>)
      (a <| st_tx := <[(cc, k) := v]> (st_tx a) |>)) as Hset.
  { intros pv Hpv. destruct Hr. split; try done. by apply represents_Set. }
  case_bool_decide as Ek.
  - eexists. split; [reflexivity|]. apply Hset. intros En. rewrite En in Ek. by destruct Ek.
  - rewrite Hg. eexists. split; [reflexivity|]. by apply Hset.
Qed.

(** ** The batch *)

(** What the implementation holds once it is up to date. *)
Definition pendingOf (a : store) : option kvs := if decide (st_batch a = ∅) then None else Some (afterBatch a).

Lemma pendingOf_default a : default (st_committed a) (pendingOf a) = afterBatch a.
Proof.
  unfold pendingOf. case_decide as E; [|done]. cbn. unfold afterBatch. rewrite E.
  apply map_eq. intros ck. by rewrite lookup_applyWrites.
Qed.

(** A state that differs in the implementation only. *)
Lemma stateRel_synced db s s' a : stateRel db s a -> hs_holds db (stateImpl s') (st_committed a) (pendingOf a) ->
  stateDelta s' = stateDelta s -> currentTxStateDelta s' = currentTxStateDelta s ->
  currentTxUUID s' = currentTxUUID s -> stateRel db s' a.
Proof.
  intros [_ Hb Ht Hu Hi] Hh E1 E2 E3. split; rewrite ?E1, ?E2, ?E3; try done. exists (pendingOf a).
  split; [done|]. unfold pendingOf. by case_decide.
Qed.

Definition synced (s s' : State I) : Prop :=
  stateDelta s' = stateDelta s /\ currentTxStateDelta s' = currentTxStateDelta s /\
  currentTxUUID s' = currentTxUUID s /\ historyStateDeltaSize s' = historyStateDeltaSize s /\
  updateStateImpl s' = false.

Lemma sync_rel db s a : stateRel db s a ->
  exists s', syncStateImpl s = Done tt s' /\ synced s s' /\
    hs_holds db (stateImpl s') (st_committed a) (pendingOf a).
Proof.
  intros [(w & Hh & Hn & Hs) Hb _ _ _]. unfold syncStateImpl. cbv [mbind M_bind gets].
  destruct (updateStateImpl s) eqn:Eu; cbn [when].
  - destruct (IsEmpty (stateDelta s)) eqn:Ee.
    + unfold onImpl. rewrite hs_Prepare_empty by done. eexists. split; [reflexivity|]. split; [done|].
      rewrite (represents_IsEmpty _ _ _ Hb) in Ee. apply bool_decide_eq_true in Ee.
      unfold pendingOf. rewrite decide_True by done. cbn. by rewrite <- (Hn Ee).
    + destruct (hs_Prepare_spec _ _ _ _ _ Hh (conj (rp_wf _ _ _ Hb) (rp_delim _ _ _ Hb)) Ee) as (i' & E & Hh').
      unfold onImpl. rewrite E. eexists. split; [reflexivity|]. split; [done|].
      rewrite (represents_IsEmpty _ _ _ Hb) in Ee. apply bool_decide_eq_false in Ee.
      unfold pendingOf. rewrite decide_False by done. cbn. by rewrite <- (afterBatch_Delta s).
  - exists s. split; [done|]. split; [done|]. unfold pendingOf. case_decide as Ee.
    + by rewrite <- (Hn Ee).
    + by rewrite <- (Hs Ee eq_refl).
Qed.

(** The hash is that of the state with the batch applied. *)
Lemma GetHash_rel db s a : stateRel db s a ->
  exists s', GetHash db s = Done (Ok (hs_hash (afterBatch a))) s' /\ stateRel db s' a /\
    historyStateDeltaSize s' = historyStateDeltaSize s /\ stateDelta s' = stateDelta s.
Proof.
  intros Hr. destruct (sync_rel db s a Hr) as (s1 & E1 & (Ed & Et & Eu & Ehi & _) & Hh).
  destruct (hs_Hash_spec _ _ _ _ Hh) as (i & E2 & Hh2). rewrite pendingOf_default in E2.
  unfold GetHash, try, onImpl. cbv [mbind M_bind]. rewrite E1, E2. eexists. split; [reflexivity|].
  split; [by eapply stateRel_synced|done].
Qed.

Lemma Clear_rel db s a : stateRel db s a ->
  exists s', ClearInMemoryChanges false s = Done tt s' /\
    stateRel db s' (a <| st_batch := ∅ |>) /\ historyStateDeltaSize s' = historyStateDeltaSize s.
Proof.
  intros [(w & Hh & _) Hb Ht Hu Hi]. destruct (hs_Clear_spec _ _ _ _ Hh) as (i & E & Hh').
  unfold ClearInMemoryChanges, onImpl. cbv [mbind M_bind modify]. cbn. rewrite E.
  eexists. split; [reflexivity|]. split; [|done]. split; try done; try apply represents_empty.
  by exists None.
Qed.

(** The operations a commit adds to the batch for the history of deltas. *)
Definition historyOps (s : State I) (blockNumber : Z) : list batchOp :=
  PutCF StateDeltaCF (encodeStateDeltaKey blockNumber) (Marshal o (stateDelta s)) ::
  if blockNumber >=? historyStateDeltaSize s
  then [DeleteCF StateDeltaCF (encodeStateDeltaKey (u64 (blockNumber - historyStateDeltaSize s)))] else [].

Definition opCF (op : batchOp) : columnFamily := match op with PutCF cf _ _ | DeleteCF cf _ => cf end.

Lemma applyBatch_other cf m ops : Forall (fun op => opCF op <> cf) ops -> applyBatch cf m ops = m.
Proof.
  intros Hf. revert m. induction Hf as [|op ops Hop _ IH]; intros m; [done|].
  cbn. rewrite <- (IH m) at 2. unfold applyBatch. f_equal. destruct op; cbn in *; by rewrite bool_decide_eq_false_2.
Qed.

(** Committing: the changes of the state go to the state column family, and once
    a batch with them is written and the memory cleared, the batch is part of
    the committed state. *)
Lemma Persist_rel db s a blockNumber batch : stateRel db s a -> st_uuid a = [] ->
  exists s' ops, State_AddChangesForPersistence o db blockNumber batch s =
      Done (batch ++ ops ++ historyOps s blockNumber) s' /\
    stateRel db s' a /\ historyStateDeltaSize s' = historyStateDeltaSize s /\
    Forall (fun op => opCF op = StateCF) ops /\
    forall db', healthy db' -> contents db' StateCF = applyBatch StateCF (contents db StateCF) ops ->
      exists s'', ClearInMemoryChanges true s' = Done tt s'' /\
        stateRel db' s'' (mkStore (afterBatch a) ∅ ∅ []) /\
        historyStateDeltaSize s'' = historyStateDeltaSize s.
Proof.
  intros Hr Hidle. destruct (sync_rel db s a Hr) as (s1 & E1 & (Ed & Et & Eu & Ehi & _) & Hh).
  destruct (hs_Persist_spec db (stateImpl s1) (st_committed a) (pendingOf a) batch Hh)
    as (i & ops & E2 & Hh2 & Hcf & Hclear). rewrite pendingOf_default in Hclear.
  assert (State_AddChangesForPersistence o db blockNumber batch s =
    Done (batch ++ ops ++ historyOps s blockNumber) (s1 <| stateImpl := i |>)) as E.
  { unfold State_AddChangesForPersistence, onImpl, historyOps. cbv [mbind M_bind get]. rewrite E1, E2.
    cbn. rewrite Ed, Ehi, app_assoc. destruct (_ >=? _); cbn; [by rewrite <- app_assoc|done]. }
  eexists _, ops. split; [exact E|]. split; [by eapply stateRel_synced|]. split; [done|]. split; [done|].
  intros db' Hdb' Ec. destruct (Hclear db' Hdb' Ec) as (i' & E3 & Hh3).
  unfold ClearInMemoryChanges, onImpl. cbv [mbind M_bind modify]. cbn. rewrite E3.
  eexists. split; [reflexivity|]. split; [|done]. split; cbn; try apply represents_empty; try done.
  - by exists None.
  - rewrite Et. pose proof (sr_tx _ _ _ Hr) as Htx. rewrite (sr_idle _ _ _ Hr Hidle) in Htx.
    destruct Htx as [Hw Hd Hf Hg]. split; try done; intros cc k; rewrite Hg; by rewrite !lookup_empty.
  - rewrite Eu, (sr_uuid _ _ _ Hr). done.
Qed.

(** A database that agrees on the state column family. *)
Lemma stateRel_db db db' s a : stateRel db s a -> healthy db' ->
  contents db' StateCF = contents db StateCF -> stateRel db' s a.
Proof.
  intros [(w & Hh & Hw) ? ? ? ?] Hdb E. split; try done. exists w. split; [|done]. by eapply hs_holds_db.
Qed.

(** ** State transfer *)

(** Applying and committing a delta of another peer. *)
Lemma CommitStateDelta_rel db s a d : stateRel db s a -> st_batch a = ∅ -> admissible d -> IsEmpty d = false ->
  exists s1 s2 db', ApplyStateDelta d s = Done tt s1 /\ CommitStateDelta db s1 = Done (Ok db') s2 /\
    healthy db' /\ (forall cf, cf <> StateCF -> contents db' cf = contents db cf) /\
    (st_tx a = ∅ -> exists s3, ClearInMemoryChanges true s2 = Done tt s3 /\
      stateRel db' s3 (a <| st_committed := applyDelta (st_committed a) d |>)).
Proof.
  intros Hr Hb Had Hne. pose proof Hr as [(w & Hh & _) _ Ht Hu Hi].
  destruct (hs_Prepare_spec _ _ _ _ _ Hh Had Hne) as (i1 & E1 & Hh1).
  destruct (hs_Persist_spec _ _ _ _ [] Hh1) as (i2 & ops & E2 & Hh2 & Hcf & Hclear).
  destruct (Write_contents db ops (hs_healthy _ _ _ _ Hh)) as (db' & Ew & Hdb' & Ec).
  eexists _, _, db'. split; [reflexivity|]. split; [|split; [done|split]].
  - unfold CommitStateDelta, syncStateImpl, onImpl. cbv [mbind M_bind gets]. cbn. rewrite E1. cbn.
    rewrite E2. cbn. by rewrite Ew.
  - intros cf Hne'. rewrite Ec. apply applyBatch_other. eapply Forall_impl; [exact Hcf|].
    intros op E. unfold opCF. rewrite E. done.
  - intros Etx. destruct (Hclear db' Hdb' (Ec StateCF)) as (i3 & E3 & Hh3).
    unfold ClearInMemoryChanges, onImpl. cbv [mbind M_bind modify]. cbn. rewrite E3.
    eexists. split; [reflexivity|]. split; cbn; try done.
    + by exists None.
    + rewrite Hb. apply represents_empty.
    + rewrite Etx in Ht |- *. destruct Ht as [Hw Hd Hf Hg]. split; try done; intros cc k; rewrite Hg; by rewrite !lookup_empty.
Qed.
End refine.

(** * The history of deltas *)

(** What [Unmarshal] gives back of a marshalled delta, with the direction set. *)
Definition rolled (d : StateDelta) (backwards : bool) : StateDelta :=
  mkStateDelta (normalize <$> ChaincodeStateDeltas d) backwards.

Lemma Get_rolled d back cc k : Get (rolled d back) cc k = normalizeValue <$> Get d cc k.
Proof.
  unfold Get, rolled, Chaincode.get. cbn. rewrite lookup_fmap.
  destruct (ChaincodeStateDeltas d !! cc) as [c|]; [|done]. cbn. by rewrite lookup_fmap.
Qed.

Lemma rolled_noDelimiter d back : noDelimiter d -> noDelimiter (rolled d back).
Proof.
  intros Hd cc c. unfold rolled. cbn. rewrite lookup_fmap.
  destruct (ChaincodeStateDeltas d !! cc) as [c'|] eqn:E; [|done]. intros _. by eapply Hd.
Qed.

Lemma rolled_wf d back : wfDelta d -> wfDelta (rolled d back).
Proof.
  intros Hd cc c. unfold rolled. cbn. rewrite lookup_fmap.
  destruct (ChaincodeStateDeltas d !! cc) as [c'|] eqn:E; [|done]. intros [= <-].
  destruct (Hd cc c' E) as [Hid Hne]. split; [done|]. cbn. intros Ef. apply Hne. by apply fmap_empty_inv in Ef.
Qed.

Lemma nonNil_normalize v : nonNil (v ≫= nilIfEmpty) = nonNil v.
Proof. by destruct v as [[]|]. Qed.

(** A key the writes touch, and its value. *)
Lemma deltaWrites_represents s d b back cc k : represents s d b -> stateKeyDelimiter ∉ cc ->
  deltaWrites (rolled d back) !! ConstructCompositeKey cc k =
    (fun v => if (back : bool) then (s !! ConstructCompositeKey cc k ≫= nilIfEmpty)
              else v ≫= nilIfEmpty) <$> b !! (cc, k).
Proof.
  intros Hr Hcc. apply option_eq. intros v.
  rewrite lookup_deltaWrites by (apply rolled_noDelimiter, Hr). split.
  - intros (cc' & k' & u & Hu & E & ->). rewrite Get_rolled, (rp_Get _ _ _ Hr) in Hu.
    destruct (b !! (cc', k')) as [w|] eqn:Eb; [|done].
    destruct (ConstructCompositeKey_inj cc k cc' k') as [-> ->]; [done| |done|].
    { eapply represents_noDelimiter; [done|]. by exists w. }
    rewrite Eb. injection Hu as <-. unfold newValue. destruct back; reflexivity.
  - destruct (b !! (cc, k)) as [w|] eqn:Eb; [|done]. intros [= <-]. exists cc, k. eexists.
    rewrite Get_rolled, (rp_Get _ _ _ Hr), Eb. split; [reflexivity|]. split; [done|].
    unfold newValue. destruct back; reflexivity.
Qed.

Lemma deltaWrites_other d back ck : noDelimiter d ->
  (forall cc k u, Get d cc k = Some u -> ck <> ConstructCompositeKey cc k) ->
  deltaWrites (rolled d back) !! ck = None.
Proof.
  intros Hd Hck. apply eq_None_not_Some. intros [v Hv]. apply lookup_deltaWrites in Hv; [|by apply rolled_noDelimiter].
  destruct Hv as (cc & k & u & Hu & E & _). rewrite Get_rolled in Hu.
  destruct (Get d cc k) eqn:Eg; [|done]. by eapply Hck.
Qed.

(** Forwards the transmitted delta does what the original does; backwards it
    undoes it. *)
Lemma rolled_applies s d b : represents s d b -> map_Forall (fun _ v => v <> []) s ->
  applyDelta s (rolled d false) = applyDelta s d /\
  applyDelta (applyDelta s d) (rolled d true) = s.
Proof.
  intros Hr Hs. pose proof (rp_Get _ _ _ Hr) as Hg.
  assert (forall ck, (exists cc k, (stateKeyDelimiter ∉ cc) /\ ck = ConstructCompositeKey cc k /\ is_Some (b !! (cc, k))) \/
    (forall cc k u, Get d cc k = Some u -> ck <> ConstructCompositeKey cc k)) as Hcase.
  { intros ck. destruct (deltaWrites d !! ck) as [v|] eqn:E.
    - left. apply lookup_deltaWrites in E as (cc & k & u & Hu & -> & _); [|apply Hr]. exists cc, k.
      rewrite Hg in Hu. assert (is_Some (b !! (cc, k))) as Hb by (destruct (b !! (cc, k)); [by eexists|done]).
      split; [by eapply represents_noDelimiter|done].
    - right. intros cc k u Hu ->. enough (deltaWrites d !! ConstructCompositeKey cc k = Some (newValue d u)) by congruence.
      apply lookup_deltaWrites; [apply Hr|]. by exists cc, k, u. }
  assert (forall ck, deltaWrites d !! ck = compositeWrites b !! ck) as Hw by (intros; by rewrite (represents_writes _ _ _ Hr)).
  split; apply map_eq; intros ck; unfold applyDelta; rewrite !lookup_applyWrites.
  - destruct (Hcase ck) as [(cc & k & Hcc & -> & [v Hv])|Hno].
    + rewrite (deltaWrites_represents s d b false cc k Hr Hcc), Hv. cbn.
      replace (deltaWrites d !! _) with (Some v); [apply nonNil_normalize|].
      symmetry. apply lookup_deltaWrites; [apply Hr|]. exists cc, k. eexists. rewrite Hg, Hv.
      split; [reflexivity|]. split; [done|]. unfold newValue. by rewrite (rp_forward _ _ _ Hr).
    + rewrite (deltaWrites_other d false ck) by (done || apply Hr). destruct (deltaWrites d !! ck) eqn:E; [|done].
      apply lookup_deltaWrites in E as (cc & k & u & Hu & -> & _); [|apply Hr]. by destruct (Hno cc k u Hu).
  - destruct (Hcase ck) as [(cc & k & Hcc & -> & [v Hv])|Hno].
    + rewrite (deltaWrites_represents s d b true cc k Hr Hcc), Hv. cbn. rewrite nonNil_normalize.
      destruct (s !! _) as [x|] eqn:Ex; [|done]. specialize (Hs _ _ Ex). by destruct x.
    + rewrite (deltaWrites_other d true ck) by (done || apply Hr). destruct (deltaWrites d !! ck) eqn:E; [|done].
      apply lookup_deltaWrites in E as (cc & k & u & Hu & -> & _); [|apply Hr]. by destruct (Hno cc k u Hu).
Qed.

Lemma PutUint64_inj a b : is_u64 a -> is_u64 b -> PutUint64 a = PutUint64 b -> a = b.
Proof. intros Ha Hb E. by rewrite <- (Uint64_PutUint64 a), <- (Uint64_PutUint64 b), E. Qed.

Lemma Marshal_nonempty o d : exists x l, Marshal o d = x :: l.
Proof.
  unfold Marshal, EncodeVarint. cbn. destruct (_ >? 127); cbn; by eexists _, _.
Qed.

(** The delta of a block stays in the database when the history holds any. *)
Lemma history_fetch {DB I} `{RocksDBLaws DB} (o : mapOrder) (db : DB) m (s : State I) n : healthy db ->
  contents db StateDeltaCF = applyBatch StateDeltaCF m (historyOps o s n) -> is_u64 n ->
  0 < historyStateDeltaSize s -> fitsDelta (stateDelta s) ->
  FetchStateDeltaFromDB db n = Ok (Some (rolled (stateDelta s) false)).
Proof.
  intros Hdb Ec Hn Hh Hf. unfold FetchStateDeltaFromDB, GetFromStateDeltaCF.
  rewrite OpenchainDB_get_contents by done. rewrite Ec.
  assert (applyBatch StateDeltaCF m (historyOps o s n) !! encodeStateDeltaKey n = Some (Marshal o (stateDelta s))) as ->.
  { unfold historyOps, applyBatch. destruct (n >=? _) eqn:E; cbn [foldl applyOp];
      rewrite !bool_decide_eq_true_2 by done; [|by rewrite lookup_insert_eq].
    rewrite lookup_delete_ne; [by rewrite lookup_insert_eq|].
    intros E'%PutUint64_inj; [|apply u64_range|done]. unfold is_u64 in Hn. rewrite u64_small in E'; unfold is_u64; lia. }
  cbn [mbind option_bind].
  pose proof (Unmarshal_Marshal_eq o (stateDelta s) NewStateDelta Hf) as Eu.
  destruct (Marshal_nonempty o (stateDelta s)) as (x & l & El). rewrite El in Eu |- *.
  by rewrite Eu.
Qed.
