(* ===== verification/Blockchain.v ===== *)
(** core/ledger/blockchain.go, blockchain_indexes.go and protos/block.go: the
    chain of blocks in the database and its synchronous indexes. *)
From stdpp Require Import base gmap list strings.
From Stdlib Require Import ZArith Lia.
From Stdlib.Strings Require Import Byte.
From S2P Require Import Prelude GoStd GoBytes LedgerUtil KVStore StateDelta StateSpec.

(** * Protobuf messages *)

(** The messages of fabric.proto.  Protobuf does not tell a nil byte field from an
    empty one, nor does the ledger. *)
Record Timestamp := mkTimestamp { Seconds : Z; Nanos : Z }.

Inductive TransactionType :=
| UNDEFINED | CHAINCODE_DEPLOY | CHAINCODE_INVOKE | CHAINCODE_QUERY | CHAINCODE_TERMINATE.

Record Transaction := mkTransaction {
  Type_ : TransactionType;
  tx_ChaincodeID : bytes;
  Payload : bytes;
  Metadata : bytes;
  Uuid : bytes;
  tx_Timestamp : option Timestamp;
  ConfidentialityLevel : bool;
  ConfidentialityProtocolVersion : bytes;
  Nonce : bytes;
  ToValidators : bytes;
  Cert : bytes;
  Signature : bytes
}.

Record TransactionResult := mkTransactionResult {
  res_Uuid : bytes;
  Result : bytes;
  ErrorCode : Z;
  Error_ : bytes
}.

Record NonHashData := mkNonHashData {
  LocalLedgerCommitTimestamp : option Timestamp;
  TransactionResults : list TransactionResult
}.

Record Block := mkBlock {
  Version : Z;
  block_Timestamp : option Timestamp;
  Transactions : list Transaction;
  StateHash : bytes;
  PreviousBlockHash : bytes;
  ConsensusMetadata : bytes;
  block_NonHashData : option NonHashData
}.

Record BlockchainInfo := mkBlockchainInfo {
  Height : Z;
  CurrentBlockHash : bytes;
  info_PreviousBlockHash : bytes
}.

#[export] Instance Transaction_eta : Eta Transaction := fun t =>
  mkTransaction (Type_ t) (tx_ChaincodeID t) (Payload t) (Metadata t) (Uuid t) (tx_Timestamp t)
    (ConfidentialityLevel t) (ConfidentialityProtocolVersion t) (Nonce t) (ToValidators t)
    (Cert t) (Signature t).
#[export] Instance NonHashData_eta : Eta NonHashData := fun d =>
  mkNonHashData (LocalLedgerCommitTimestamp d) (TransactionResults d).
#[export] Instance Block_eta : Eta Block := fun b =>
  mkBlock (Version b) (block_Timestamp b) (Transactions b) (StateHash b) (PreviousBlockHash b)
    (ConsensusMetadata b) (block_NonHashData b).

#[export] Instance Timestamp_eq_dec : EqDecision Timestamp.
Proof. solve_decision. Defined.

#[export] Instance TransactionType_eq_dec : EqDecision TransactionType.
Proof. solve_decision. Defined.

#[export] Instance Transaction_eq_dec : EqDecision Transaction.
Proof. solve_decision. Defined.

(** The ranges of the Go types of the integer fields, and of the length of a slice. *)
Definition typedTimestamp (t : Timestamp) : Prop :=
  - 2 ^ 63 <= Seconds t < 2 ^ 63 /\ - 2 ^ 31 <= Nanos t < 2 ^ 31.

Definition typedTransaction (t : Transaction) : Prop := from_option typedTimestamp True (tx_Timestamp t).

Definition typedNonHashData (d : NonHashData) : Prop :=
  from_option typedTimestamp True (LocalLedgerCommitTimestamp d) /\
  Forall (fun r => 0 <= ErrorCode r < 2 ^ 32) (TransactionResults d).

Definition typedBlock (b : Block) : Prop :=
  0 <= Version b < 2 ^ 32 /\ from_option typedTimestamp True (block_Timestamp b) /\
  Forall typedTransaction (Transactions b) /\ Z.of_nat (length (Transactions b)) < 2 ^ 63 /\
  from_option typedNonHashData True (block_NonHashData b).

(** [proto.Marshal] and [proto.Unmarshal] on blocks, of the protobuf library. *)
Class BlockCodec := {
  marshalBlock : Block -> result bytes;
  unmarshalBlock : bytes -> result Block
}.

(** A message that is marshalled is read back, and one with a submessage takes at
    least a byte. *)
Class BlockCodecLaws `{BlockCodec} := {
  marshalBlock_ok : forall b, typedBlock b -> exists data, marshalBlock b = Ok data /\
    unmarshalBlock data = Ok b /\ (block_NonHashData b <> None -> data <> [])
}.

(** * protos/block.go *)

Section block.
Context `{BlockCodec} (hash : bytes -> bytes).

Definition Block_Bytes (block : Block) : result bytes := marshalBlock block.

Definition NewBlock (transactions : list Transaction) (metadata : bytes) : Block :=
  mkBlock 0 None transactions [] [] metadata None.

Definition UnmarshallBlock (blockBytes : bytes) : result Block := unmarshalBlock blockBytes.

(** The hash of a copy without the non-hash data. *)
Definition Block_GetHash (block : Block) : result bytes :=
  match Block_Bytes block with
  | Err => Err
  | Ok blockBytes =>
    match UnmarshallBlock blockBytes with
    | Err => Err
    | Ok blockCopy =>
      match marshalBlock (blockCopy <| block_NonHashData := None |>) with
      | Err => Err
      | Ok data => Ok (hash data)
      end
    end
  end.

Definition SetPreviousBlockHash (block : Block) (previousBlockHash : bytes) : Block :=
  block <| PreviousBlockHash := previousBlockHash |>.

(** A method call on a block that may be nil: [proto.Marshal] of nil is an error,
    the generated getters return nil. *)
Definition nilBlock_GetHash (block : option Block) : result bytes :=
  match block with Some b => Block_GetHash b | None => Err end.
Definition GetTransactions (block : option Block) : list Transaction :=
  match block with Some b => Transactions b | None => [] end.
End block.

(** * Index entries *)

Definition prefixBlockHashKey : Byte.byte := x01.
Definition prefixTxUUIDKey : Byte.byte := x02.
Definition prefixAddressBlockNumCompositeKey : Byte.byte := x03.

Definition encodeBlockNumber (blockNumber : Z) : bytes := EncodeVarint blockNumber.
Definition decodeBlockNumber (blockNumberBytes : bytes) : Z := (DecodeVarint blockNumberBytes).1.

Definition encodeBlockNumTxIndex (blockNumber txIndexInBlock : Z) : bytes :=
  EncodeVarint blockNumber ++ EncodeVarint txIndexInBlock.

Definition decodeBlockNumTxIndex (b : bytes) : result (Z * Z) :=
  match bufDecodeVarint b with
  | None => Err
  | Some (blockNum, rest) =>
    match bufDecodeVarint rest with
    | None => Err
    | Some (txIndex, _) => Ok (blockNum, txIndex)
    end
  end.

Definition prependKeyPrefix (prefix : Byte.byte) (key : bytes) : bytes := prefix :: key.
Definition encodeBlockHashKey (blockHash : bytes) : bytes := prependKeyPrefix prefixBlockHashKey blockHash.
Definition encodeTxUUIDKey (txUUID : bytes) : bytes := prependKeyPrefix prefixTxUUIDKey txUUID.

Definition encodeAddressBlockNumCompositeKey (address : bytes) (blockNumber : Z) : bytes :=
  [prefixAddressBlockNumCompositeKey] ++ encodeRawBytes address ++ EncodeVarint blockNumber.

Definition encodeListTxIndexes (listTx : list Z) : bytes := concat (EncodeVarint <$> listTx).

Definition getTxExecutingAddress (tx : Transaction) : bytes := String.list_byte_of_string "address1"%string.

(** The loop over the transactions: the batch and the indexes by address.  The map
    of chaincode ids by authorised address is built and never used. *)
Fixpoint indexTransactions (blockNumber txIndex : Z) (transactions : list Transaction)
    (addressToTxIndexesMap : gmap bytes (list Z)) (writeBatch : list batchOp)
    : gmap bytes (list Z) * list batchOp :=
  match transactions with
  | [] => (addressToTxIndexesMap, writeBatch)
  | tx :: transactions =>
    let writeBatch := writeBatch ++
      [PutCF IndexesCF (encodeTxUUIDKey (Uuid tx)) (encodeBlockNumTxIndex blockNumber txIndex)] in
    let address := getTxExecutingAddress tx in
    indexTransactions blockNumber (txIndex + 1) transactions
      (<[address := default [] (addressToTxIndexesMap !! address) ++ [txIndex]]> addressToTxIndexesMap)
      writeBatch
  end.

Definition addIndexDataForPersistence (o : mapOrder) (block : Block) (blockNumber : Z)
    (blockHash : bytes) (writeBatch : list batchOp) : list batchOp :=
  let writeBatch := writeBatch ++
    [PutCF IndexesCF (encodeBlockHashKey blockHash) (encodeBlockNumber blockNumber)] in
  let '(addressToTxIndexesMap, writeBatch) :=
    indexTransactions blockNumber 0 (Transactions block) ∅ writeBatch in
  writeBatch ++ ((fun '(address, txsIndexes) =>
    PutCF IndexesCF (encodeAddressBlockNumCompositeKey address blockNumber) (encodeListTxIndexes txsIndexes))
    <$> ord o 2 addressToTxIndexesMap).

(** * blockchain.go *)

Record lastProcessedBlock := mkLastProcessedBlock {
  lp_block : Block;
  lp_blockNumber : Z;
  lp_blockHash : bytes
}.

(** The indexer is not a field: the synchronous one has no state, and the
    asynchronous one has a file of its own. *)
Record blockchain := mkBlockchain {
  size_ : Z;
  previousBlockHash : bytes;
  bc_lastProcessedBlock : option lastProcessedBlock
}.

#[export] Instance blockchain_eta : Eta blockchain := fun b =>
  mkBlockchain (size_ b) (previousBlockHash b) (bc_lastProcessedBlock b).

Definition blockCountKey : bytes := String.list_byte_of_string "blockCount"%string.
Definition encodeBlockNumberDBKey (blockNumber : Z) : bytes := PutUint64 blockNumber.
Definition decodeBlockNumberDBKey (dbKey : bytes) : Z := Uint64 dbKey.

Section blockchain.
Context {DB : Type} `{RocksDB DB} `{BlockCodec} (hash : bytes -> bytes) (o : mapOrder).

(** [None] is the nil block of a number that is not in the database. *)
Definition fetchBlockFromDB (db : DB) (blockNumber : Z) : result (option Block) :=
  match GetFromBlockchainCF db (encodeBlockNumberDBKey blockNumber) with
  | Err => Err
  | Ok None => Ok None
  | Ok (Some blockBytes) =>
    match UnmarshallBlock blockBytes with Err => Err | Ok block => Ok (Some block) end
  end.

(** [decodeToUint64] panics on fewer than eight bytes. *)
Definition decodeToUint64 (b : bytes) : option Z :=
  if (length b <? 8)%nat then None else Some (Uint64 (take 8 b)).

Definition fetchBlockchainSizeFromDB (db : DB) : option (result Z) :=
  match GetFromBlockchainCF db blockCountKey with
  | Err => Some Err
  | Ok None => Some (Ok 0)
  | Ok (Some b) => Ok <$> decodeToUint64 b
  end.

(** [None] is a panic. *)
Definition newBlockchain (db : DB) : option (result blockchain) :=
  size ← fetchBlockchainSizeFromDB db;
  match size with
  | Err => Some Err
  | Ok size =>
    let blockchain := mkBlockchain size [] None in
    if size >? 0 then
      match fetchBlockFromDB db (size - 1) with
      | Err => Some Err
      | Ok previousBlock =>
        match nilBlock_GetHash hash previousBlock with
        | Err => Some Err
        | Ok h => Some (Ok (blockchain <| previousBlockHash := h |>))
        end
      end
    else Some (Ok blockchain)
  end.

Definition getSize (bc : blockchain) : Z := size_ bc.

Definition getBlock (db : DB) (blockNumber : Z) : result (option Block) := fetchBlockFromDB db blockNumber.

Definition getLastBlock (db : DB) (bc : blockchain) : result (option Block) :=
  if bool_decide (size_ bc = 0) then Ok None else getBlock db (size_ bc - 1).

(** A hash that is not in the index gives no bytes, and those decode to zero. *)
Definition fetchBlockNumberByBlockHashFromDB (db : DB) (blockHash : bytes) : result Z :=
  match GetFromIndexesCF db (encodeBlockHashKey blockHash) with
  | Err => Err
  | Ok blockNumberBytes => Ok (decodeBlockNumber (default [] blockNumberBytes))
  end.

Definition fetchTransactionIndexByUUIDFromDB (db : DB) (txUUID : bytes) : result (Z * Z) :=
  match GetFromIndexesCF db (encodeTxUUIDKey txUUID) with
  | Err => Err
  | Ok None => Err
  | Ok (Some blockNumTxIndexBytes) => decodeBlockNumTxIndex blockNumTxIndexBytes
  end.

Definition getBlockByHash (db : DB) (blockHash : bytes) : result (option Block) :=
  match fetchBlockNumberByBlockHashFromDB db blockHash with
  | Err => Err
  | Ok blockNumber => getBlock db blockNumber
  end.

(** [block.GetTransactions()[txIndex]]; [None] is the index panic. *)
Definition transactionAt (block : result (option Block)) (txIndex : Z) : option (result Transaction) :=
  match block with
  | Err => Some Err
  | Ok block => Ok <$> GetTransactions block !! Z.to_nat txIndex
  end.

Definition getTransactionByUUID (db : DB) (txUUID : bytes) : option (result Transaction) :=
  match fetchTransactionIndexByUUIDFromDB db txUUID with
  | Err => Some Err
  | Ok (blockNumber, txIndex) => transactionAt (getBlock db blockNumber) txIndex
  end.

Definition getTransaction (db : DB) (blockNumber txIndex : Z) : option (result Transaction) :=
  transactionAt (getBlock db blockNumber) txIndex.

Definition getTransactionByBlockHash (db : DB) (blockHash : bytes) (txIndex : Z)
    : option (result Transaction) := transactionAt (getBlockByHash db blockHash) txIndex.

Definition getTransactions (db : DB) (blockNumber : Z) : result (list Transaction) :=
  match getBlock db blockNumber with Err => Err | Ok block => Ok (GetTransactions block) end.

Definition getTransactionsByBlockHash (db : DB) (blockHash : bytes) : result (list Transaction) :=
  match getBlockByHash db blockHash with Err => Err | Ok block => Ok (GetTransactions block) end.

(** [lastBlock.PreviousBlockHash] of a nil block panics. *)
Definition getBlockchainInfo (db : DB) (bc : blockchain) : option (result BlockchainInfo) :=
  if bool_decide (getSize bc = 0) then Some (Ok (mkBlockchainInfo 0 [] [])) else
  match getLastBlock db bc with
  | Err => Some Err
  | Ok None => None
  | Ok (Some lastBlock) =>
    Some (Ok (mkBlockchainInfo (getSize bc) (previousBlockHash bc) (PreviousBlockHash lastBlock)))
  end.

Definition buildBlock (bc : blockchain) (block : Block) (stateHash : bytes) : Block :=
  (SetPreviousBlockHash block (previousBlockHash bc)) <| StateHash := stateHash |>.

(** [now] is [util.CreateUtcTimestamp()]; the block as it is persisted, its number
    and the batch are the result.  The indexes are in the batch when the indexer
    is synchronous. *)
Definition addPersistenceChanges (isSynchronous : bool) (now : Timestamp) (block : Block) (stateHash : bytes)
    (writeBatch : list batchOp) : M blockchain (result (Block * Z * list batchOp)) :=
  bc ← get;
  let block := buildBlock bc block stateHash in
  let block := block <| block_NonHashData := Some
    match block_NonHashData block with
    | None => mkNonHashData (Some now) []
    | Some d => d <| LocalLedgerCommitTimestamp := Some now |>
    end |> in
  let blockNumber := size_ bc in
  match Block_GetHash hash block with
  | Err => mret Err
  | Ok blockHash =>
    match Block_Bytes block with
    | Err => mret Err
    | Ok blockBytes =>
      let writeBatch := writeBatch ++
        [PutCF BlockchainCF (encodeBlockNumberDBKey blockNumber) blockBytes;
         PutCF BlockchainCF blockCountKey (PutUint64 (u64 (blockNumber + 1)))] in
      let writeBatch := if isSynchronous
        then addIndexDataForPersistence o block blockNumber blockHash writeBatch else writeBatch in
      modify (fun bc => bc <| bc_lastProcessedBlock :=
        Some (mkLastProcessedBlock block blockNumber blockHash) |>) ;;
      mret (Ok (block, blockNumber, writeBatch))
    end
  end.

Definition addPersistenceChangesForNewBlock := addPersistenceChanges true.

(** Success without a processed block dereferences nil. *)
Definition blockPersistenceStatus (success : bool) : M blockchain unit :=
  when success (
    modify (fun bc => bc <| size_ := u64 (size_ bc + 1) |>) ;;
    bc ← get;
    last ← lift (bc_lastProcessedBlock bc);
    modify (fun bc => bc <| previousBlockHash := lp_blockHash last |>)) ;;
  modify (fun bc => bc <| bc_lastProcessedBlock := None |>).

(** The database after the write.  The size is advanced before the write. *)
Definition persistRawBlock (db : DB) (block : Block) (blockNumber : Z) : M blockchain (result DB) :=
  match Block_Bytes block with
  | Err => mret Err
  | Ok blockBytes =>
    let writeBatch := [PutCF BlockchainCF (encodeBlockNumberDBKey blockNumber) blockBytes] in
    match Block_GetHash hash block with
    | Err => mret Err
    | Ok blockHash =>
      bc ← get;
      let higher := getSize bc <? u64 (blockNumber + 1) in
      let writeBatch := if higher
        then writeBatch ++ [PutCF BlockchainCF blockCountKey (PutUint64 (u64 (blockNumber + 1)))]
        else writeBatch in
      when higher (modify (fun bc => bc <| size_ := u64 (blockNumber + 1) |>
        <| previousBlockHash := blockHash |>)) ;;
      let writeBatch := addIndexDataForPersistence o block blockNumber blockHash writeBatch in
      mret (Write db writeBatch)
    end
  end.
End blockchain.
