(* ===== verification/BlockchainSpec.v ===== *)
(** The chain in the database against a list of blocks: what is stored, what the
    indexes find, and that a new block extends both. *)
From stdpp Require Import base gmap list.
From Stdlib Require Import ZArith Lia.
From Stdlib.Strings Require Import Byte.
From S2P Require Import Prelude GoStd GoBytes LedgerUtil KVStore StateDelta StateSpec HashableState.
From S2P Require Import State StateScan StateRefine Blockchain.

(** * Reference definitions *)

(** The last transaction with a uuid, and the last block with a hash. *)
Definition findTx (txs : list Transaction) (uuid : bytes) : option Transaction :=
  last (filter (fun tx => Uuid tx = uuid) txs).

Definition chainTx (chain : list Block) (uuid : bytes) : option Transaction :=
  findTx (concat (Transactions <$> chain)) uuid.

Abbreviation height chain := (Z.of_nat (length chain)).

Section spec.
Context {DB : Type} `{RocksDBLaws DB} `{BlockCodecLaws} (hash : bytes -> bytes) (o : mapOrder).

Definition blockData (b : Block) : bytes := match marshalBlock b with Ok d => d | Err => [] end.

(** The hash does not cover the non-hash data. *)
Definition blockHash (b : Block) : bytes := hash (blockData (b <| block_NonHashData := None |>)).

Definition chainBlock (chain : list Block) (h : bytes) : option Block :=
  last (filter (fun b => blockHash b = h) chain).

Lemma blockData_ok b : typedBlock b ->
  marshalBlock b = Ok (blockData b) /\ unmarshalBlock (blockData b) = Ok b /\
  (block_NonHashData b <> None -> blockData b <> []).
Proof.
  intros Hb. unfold blockData. destruct (marshalBlock_ok b Hb) as (d & E & E' & Hd). by rewrite E.
Qed.

Lemma typed_noNonHash b : typedBlock b -> typedBlock (b <| block_NonHashData := None |>).
Proof. by intros (? & ? & ? & ? & _). Qed.

Lemma GetHash_blockHash b : typedBlock b -> Block_GetHash hash b = Ok (blockHash b).
Proof.
  intros Hb. destruct (blockData_ok b Hb) as (E & E' & _). unfold Block_GetHash, Block_Bytes, UnmarshallBlock.
  rewrite E, E'. destruct (blockData_ok _ (typed_noNonHash b Hb)) as (-> & _). done.
Qed.

(** * The operations of the index *)

Fixpoint uuidOps (n i : Z) (txs : list Transaction) : list batchOp :=
  match txs with
  | [] => []
  | tx :: txs => PutCF IndexesCF (encodeTxUUIDKey (Uuid tx)) (encodeBlockNumTxIndex n i) :: uuidOps n (i + 1) txs
  end.

Lemma indexTransactions_ops n txs : forall i m batch,
  exists m', indexTransactions n i txs m batch = (m', batch ++ uuidOps n i txs).
Proof.
  induction txs as [|tx txs IH]; intros i m batch; cbn [indexTransactions uuidOps].
  - exists m. by rewrite app_nil_r.
  - edestruct IH as [m' E]. exists m'. rewrite E. by rewrite <- app_assoc.
Qed.

(** An entry by address. *)
Definition addressOp (op : batchOp) : Prop := exists k v, op = PutCF IndexesCF (x03 :: k) v.

Lemma addIndexData_ops b n h batch : exists addr, Forall addressOp addr /\
  addIndexDataForPersistence o b n h batch =
    batch ++ PutCF IndexesCF (encodeBlockHashKey h) (encodeBlockNumber n) :: uuidOps n 0 (Transactions b) ++ addr.
Proof.
  unfold addIndexDataForPersistence.
  destruct (indexTransactions_ops n (Transactions b) 0 ∅
    (batch ++ [PutCF IndexesCF (encodeBlockHashKey h) (encodeBlockNumber n)])) as [m ->].
  eexists. split; [|by rewrite <- !app_assoc].
  rewrite Forall_forall. intros op ([a l] & -> & _)%list_elem_of_fmap. by eexists _, _.
Qed.

Lemma uuidOps_CF n i txs : Forall (fun op => opCF op = IndexesCF) (uuidOps n i txs).
Proof. revert i. induction txs; intros i; cbn; constructor; auto. Qed.

(** Keys with other prefixes are not touched. *)
Lemma uuidOps_other n txs k : (forall u, k <> encodeTxUUIDKey u) -> forall i m,
  applyBatch IndexesCF m (uuidOps n i txs) !! k = m !! k.
Proof.
  intros Hk. induction txs as [|tx txs IH]; intros i m; [done|]. unfold applyBatch. cbn [uuidOps foldl applyOp].
  rewrite bool_decide_eq_true_2 by done. etransitivity; [apply IH|]. apply lookup_insert_ne. by intros E; eapply Hk.
Qed.

Lemma addressOps_other ops k : Forall addressOp ops -> (forall k', k <> x03 :: k') -> forall m,
  applyBatch IndexesCF m ops !! k = m !! k.
Proof.
  intros Hops Hk. induction Hops as [|op ops (k' & v & ->) _ IH]; intros m; [done|]. unfold applyBatch.
  cbn [foldl applyOp]. rewrite bool_decide_eq_true_2 by done. etransitivity; [apply IH|].
  apply lookup_insert_ne. by intros E; eapply Hk.
Qed.

Lemma findTx_cons tx txs u : findTx (tx :: txs) u =
  match findTx txs u with Some t => Some t | None => if decide (Uuid tx = u) then Some tx else None end.
Proof.
  unfold findTx. rewrite filter_cons. case_decide as E; [|by destruct (last _)].
  rewrite last_cons. by destruct (last _).
Qed.

(** The entry of a uuid is the position of its last transaction. *)
Lemma uuidOps_lookup n u txs : forall i m,
  match findTx txs u with
  | None => applyBatch IndexesCF m (uuidOps n (Z.of_nat i) txs) !! encodeTxUUIDKey u = m !! encodeTxUUIDKey u
  | Some tx => exists j, applyBatch IndexesCF m (uuidOps n (Z.of_nat i) txs) !! encodeTxUUIDKey u =
      Some (encodeBlockNumTxIndex n (Z.of_nat (i + j))) /\ txs !! j = Some tx
  end.
Proof.
  induction txs as [|tx txs IH]; intros i m; [done|]. rewrite findTx_cons.
  unfold applyBatch. cbn [uuidOps foldl applyOp]. rewrite bool_decide_eq_true_2 by done.
  replace (Z.of_nat i + 1) with (Z.of_nat (S i)) by lia.
  specialize (IH (S i) (<[encodeTxUUIDKey (Uuid tx) := encodeBlockNumTxIndex n (Z.of_nat i)]> m)).
  unfold applyBatch in IH. destruct (findTx txs u) as [t|].
  - destruct IH as (j & E & Ej). exists (S j). rewrite E. split; [|done]. do 2 f_equal. lia.
  - rewrite IH. case_decide as E.
    + exists O. rewrite <- E, lookup_insert_eq. by rewrite Nat.add_0_r.
    + apply lookup_insert_ne. by intros [= ?].
Qed.

(** * The chain in the database *)

Definition lastHash (chain : list Block) : bytes := match last chain with Some b => blockHash b | None => [] end.

(** The database holds the blocks of the chain and their number. *)
Record storedBlocks (db : DB) (chain : list Block) : Prop := {
  sb_healthy : healthy db;
  sb_bound : height chain < two64;
  sb_typed : Forall (fun b => typedBlock b /\ block_NonHashData b <> None) chain;
  sb_block : forall n, is_u64 n ->
    contents db BlockchainCF !! encodeBlockNumberDBKey n = blockData <$> chain !! Z.to_nat n;
  sb_count : contents db BlockchainCF !! blockCountKey =
    if decide (chain = []) then None else Some (PutUint64 (height chain))
}.

(** What the index has for a block hash, and for a transaction. *)
Definition hashIndex (m : gmap bytes bytes) (chain : list Block) (h : bytes) : Prop :=
  match chainBlock chain h with
  | None => m !! encodeBlockHashKey h = None
  | Some b => exists n, m !! encodeBlockHashKey h = Some (encodeBlockNumber (Z.of_nat n)) /\ chain !! n = Some b
  end.

Definition uuidIndex (m : gmap bytes bytes) (chain : list Block) (u : bytes) : Prop :=
  match chainTx chain u with
  | None => m !! encodeTxUUIDKey u = None
  | Some tx => exists n i b, m !! encodeTxUUIDKey u = Some (encodeBlockNumTxIndex (Z.of_nat n) (Z.of_nat i)) /\
      chain !! n = Some b /\ Transactions b !! i = Some tx
  end.

(** The database holds the chain: its blocks, their number, and the indexes. *)
Record stored (db : DB) (chain : list Block) : Prop := {
  sto_blocks : storedBlocks db chain;
  sto_hash : forall h, hashIndex (contents db IndexesCF) chain h;
  sto_uuid : forall u, uuidIndex (contents db IndexesCF) chain u
}.

Lemma sto_healthy db chain : stored db chain -> healthy db.
Proof. intros Hs. apply (sto_blocks _ _ Hs). Qed.
Lemma sto_bound db chain : stored db chain -> height chain < two64.
Proof. intros Hs. apply (sto_blocks _ _ Hs). Qed.
Lemma sto_typed db chain : stored db chain -> Forall (fun b => typedBlock b /\ block_NonHashData b <> None) chain.
Proof. intros Hs. apply (sto_blocks _ _ Hs). Qed.

Definition chainRel (bc : blockchain) (chain : list Block) : Prop :=
  size_ bc = height chain /\ previousBlockHash bc = lastHash chain.

Lemma empty_blocks db : healthy db -> contents db BlockchainCF = ∅ -> storedBlocks db [].
Proof. intros Hdb E. split; rewrite ?E; try done; intros; by rewrite lookup_empty. Qed.

Lemma empty_index m : m = ∅ -> (forall h, hashIndex m [] h) /\ (forall u, uuidIndex m [] u).
Proof. intros ->. split; intros; [unfold hashIndex|unfold uuidIndex]; cbn; apply lookup_empty. Qed.

Lemma empty_stored db : healthy db -> contents db BlockchainCF = ∅ -> contents db IndexesCF = ∅ ->
  stored db [].
Proof. intros Hdb Eb Ei. destruct (empty_index _ Ei). split; [by apply empty_blocks|done..]. Qed.

Lemma blocks_lookup db chain n b : storedBlocks db chain -> chain !! n = Some b ->
  typedBlock b /\ block_NonHashData b <> None /\ (n < length chain)%nat /\ is_u64 (Z.of_nat n).
Proof.
  intros Hs Hn. pose proof (lookup_lt_Some _ _ _ Hn). pose proof (sb_bound _ _ Hs).
  destruct (proj1 (Forall_lookup _ _) (sb_typed _ _ Hs) n b Hn). unfold is_u64. split; [done|]. split; [done|]. lia.
Qed.

Lemma stored_lookup db chain n b : stored db chain -> chain !! n = Some b ->
  typedBlock b /\ block_NonHashData b <> None /\ (n < length chain)%nat /\ is_u64 (Z.of_nat n).
Proof. intros Hs. by eapply blocks_lookup, sto_blocks. Qed.

(** ** Reads *)

Lemma fetchBlock_blocks db chain n : storedBlocks db chain -> is_u64 n ->
  fetchBlockFromDB db n = Ok (chain !! Z.to_nat n).
Proof.
  intros Hs Hn. unfold fetchBlockFromDB, GetFromBlockchainCF.
  rewrite OpenchainDB_get_contents by apply Hs. rewrite (sb_block _ _ Hs n Hn).
  destruct (chain !! Z.to_nat n) as [b|] eqn:E; [|done].
  destruct (blocks_lookup _ _ _ _ Hs E) as (Hb & Hd & _). destruct (blockData_ok b Hb) as (_ & Eu & Hne).
  cbn. specialize (Hne Hd). destruct (blockData b) as [|x l] eqn:Ed; [done|].
  unfold UnmarshallBlock. by rewrite Eu.
Qed.

Lemma fetchBlock_stored db chain n : stored db chain -> is_u64 n ->
  fetchBlockFromDB db n = Ok (chain !! Z.to_nat n).
Proof. intros Hs. by eapply fetchBlock_blocks, sto_blocks. Qed.

Lemma PutUint64_cons n : exists x l, PutUint64 n = x :: l.
Proof. by eexists _, _. Qed.

Lemma fetchSize_stored db chain : stored db chain -> fetchBlockchainSizeFromDB db = Some (Ok (height chain)).
Proof.
  intros Hs%sto_blocks. unfold fetchBlockchainSizeFromDB, GetFromBlockchainCF.
  rewrite OpenchainDB_get_contents by apply Hs. rewrite (sb_count _ _ Hs). case_decide as E; [by subst|].
  cbn [mbind option_bind]. pose proof (sb_bound _ _ Hs).
  assert (decodeToUint64 (PutUint64 (height chain)) = Some (height chain)) as Ed.
  { assert (length (PutUint64 (height chain)) = 8%nat) as El by apply beBytes_length.
    unfold decodeToUint64. rewrite El. cbn [Nat.ltb Nat.leb]. rewrite take_ge by lia.
    by rewrite Uint64_PutUint64 by (split; lia). }
  destruct (PutUint64_cons (height chain)) as (x & l & Ex). rewrite Ex in Ed |- *. by rewrite Ed.
Qed.

(** Starting on a stored chain. *)
Lemma newBlockchain_stored db chain : stored db chain ->
  exists bc, newBlockchain hash db = Some (Ok bc) /\ chainRel bc chain /\ bc_lastProcessedBlock bc = None.
Proof.
  intros Hs. unfold newBlockchain. rewrite (fetchSize_stored db chain Hs). cbn [mbind option_bind].
  destruct chain as [|b0 chain0] eqn:Ec; [eexists; split; [reflexivity|done]|]. rewrite <- Ec in *.
  assert (0 < length chain)%nat as Hlen by (subst chain; cbn; lia).
  destruct (height chain >? 0) eqn:Eg; [|lia]. pose proof (sto_bound _ _ Hs).
  rewrite (fetchBlock_stored db chain) by (done || split; lia).
  replace (Z.to_nat (height chain - 1)) with (length chain - 1)%nat by lia.
  destruct (lookup_lt_is_Some_2 chain (length chain - 1) ltac:(lia)) as [b Eb]. rewrite Eb. cbn [nilBlock_GetHash].
  destruct (stored_lookup _ _ _ _ Hs Eb) as (Hb & _). rewrite (GetHash_blockHash b Hb).
  eexists. split; [reflexivity|]. split; [|done]. split; [done|]. unfold lastHash.
  rewrite last_lookup. replace (pred (length chain)) with (length chain - 1)%nat by lia. by rewrite Eb.
Qed.

Lemma EncodeVarint_cons n : exists x l, EncodeVarint n = x :: l.
Proof. unfold EncodeVarint. cbn. destruct (n >? 127); by eexists _, _. Qed.

(** The number the index has for a hash; zero for one that no block has. *)
Lemma fetchNumber_index db chain h : storedBlocks db chain -> forall part, part `prefix_of` chain ->
  hashIndex (contents db IndexesCF) part h ->
  exists n, fetchBlockNumberByBlockHashFromDB db h = Ok n /\ is_u64 n /\
    match chainBlock part h with Some b => part !! Z.to_nat n = Some b | None => n = 0 end.
Proof.
  intros Hs part Hpre Hh. unfold fetchBlockNumberByBlockHashFromDB, GetFromIndexesCF.
  rewrite OpenchainDB_get_contents by apply Hs. unfold hashIndex in Hh. destruct (chainBlock part h) as [b|].
  - destruct Hh as (n & -> & Hn). exists (Z.of_nat n).
    destruct (blocks_lookup _ _ n b Hs) as (_ & _ & _ & Hu); [by eapply prefix_lookup_Some|].
    cbn [mbind option_bind]. pose proof (DecodeVarint_EncodeVarint (Z.of_nat n) [] Hu) as Ed.
    rewrite app_nil_r in Ed. unfold encodeBlockNumber.
    destruct (EncodeVarint_cons (Z.of_nat n)) as (x & l & Ex). rewrite Ex in Ed |- *. cbn [default from_option id].
    unfold decodeBlockNumber. rewrite Ed, Nat2Z.id. done.
  - rewrite Hh. by exists 0.
Qed.

(** The place the index has for a transaction. *)
Lemma fetchIndex_index db chain u : storedBlocks db chain -> forall part, part `prefix_of` chain ->
  uuidIndex (contents db IndexesCF) part u ->
  match chainTx part u with
  | None => fetchTransactionIndexByUUIDFromDB db u = Err
  | Some tx => exists n i b, fetchTransactionIndexByUUIDFromDB db u = Ok (n, i) /\ is_u64 n /\ is_u64 i /\
      part !! Z.to_nat n = Some b /\ Transactions b !! Z.to_nat i = Some tx
  end.
Proof.
  intros Hs part Hpre Hu. unfold fetchTransactionIndexByUUIDFromDB, GetFromIndexesCF.
  rewrite OpenchainDB_get_contents by apply Hs. unfold uuidIndex in Hu.
  destruct (chainTx part u) as [tx|]; [|by rewrite Hu].
  destruct Hu as (n & i & b & -> & Hn & Hi).
  destruct (blocks_lookup _ _ n b Hs) as ((_ & _ & _ & Hl & _) & _ & _ & Hun); [by eapply prefix_lookup_Some|].
  assert (is_u64 (Z.of_nat i)) as Hui.
  { pose proof (lookup_lt_Some _ _ _ Hi). unfold is_u64, two64. lia. }
  exists (Z.of_nat n), (Z.of_nat i), b. rewrite !Nat2Z.id. split; [|done].
  assert (decodeBlockNumTxIndex (encodeBlockNumTxIndex (Z.of_nat n) (Z.of_nat i)) = Ok (Z.of_nat n, Z.of_nat i)) as Ed.
  { unfold decodeBlockNumTxIndex, encodeBlockNumTxIndex. rewrite bufDecodeVarint_encode by done.
    rewrite <- (app_nil_r (EncodeVarint (Z.of_nat i))), bufDecodeVarint_encode by done. done. }
  assert (exists x l, encodeBlockNumTxIndex (Z.of_nat n) (Z.of_nat i) = x :: l) as (x & l & Ex).
  { unfold encodeBlockNumTxIndex. destruct (EncodeVarint_cons (Z.of_nat n)) as (x & l & ->). by eexists _, _. }
  cbn [mbind option_bind]. rewrite Ex in Ed |- *. exact Ed.
Qed.

(** A hash that no block has gives the first block. *)
Lemma getBlockByHash_stored db chain h : stored db chain ->
  getBlockByHash db h = Ok match chainBlock chain h with Some b => Some b | None => chain !! O end.
Proof.
  intros Hs. destruct (fetchNumber_index db chain h (sto_blocks _ _ Hs) chain) as (n & E & Hn & Hb); [done|apply Hs|].
  unfold getBlockByHash, getBlock. rewrite E, (fetchBlock_stored db chain n Hs Hn).
  destruct (chainBlock chain h) as [b|]; [by rewrite Hb|by rewrite Hb].
Qed.

(** The transaction index finds the last transaction with the uuid. *)
Lemma getTransactionByUUID_stored db chain u : stored db chain ->
  getTransactionByUUID db u = Some match chainTx chain u with Some tx => Ok tx | None => Err end.
Proof.
  intros Hs. pose proof (fetchIndex_index db chain u (sto_blocks _ _ Hs) chain ltac:(done) (sto_uuid _ _ Hs u)) as Hu.
  unfold getTransactionByUUID. destruct (chainTx chain u) as [tx|]; [|by rewrite Hu].
  destruct Hu as (n & i & b & -> & Hn & _ & Eb & Ei). unfold getBlock.
  rewrite (fetchBlock_stored db chain n Hs Hn), Eb. cbn. by rewrite Ei.
Qed.

(** ** A new block *)

Definition blockOps (n : Z) (b : Block) (addr : list batchOp) : list batchOp :=
  PutCF BlockchainCF (encodeBlockNumberDBKey n) (blockData b) ::
  PutCF BlockchainCF blockCountKey (PutUint64 (n + 1)) ::
  PutCF IndexesCF (encodeBlockHashKey (blockHash b)) (encodeBlockNumber n) ::
  uuidOps n 0 (Transactions b) ++ addr.

Lemma addressOps_CF addr : Forall addressOp addr -> Forall (fun op => opCF op = IndexesCF) addr.
Proof. intros Ha. eapply Forall_impl; [exact Ha|]. by intros op (k & v & ->). Qed.

Lemma indexOps_CF n b addr : Forall addressOp addr ->
  Forall (fun op => opCF op = IndexesCF) (uuidOps n 0 (Transactions b) ++ addr).
Proof. intros Ha. apply Forall_app_2; [apply uuidOps_CF|by apply addressOps_CF]. Qed.

Lemma applyOp_Put cf m k v : applyOp cf m (PutCF cf k v) = <[k := v]> m.
Proof. cbn [applyOp]. by rewrite bool_decide_eq_true_2. Qed.

Lemma applyOp_Put_other cf cf' m k v : cf' <> cf -> applyOp cf m (PutCF cf' k v) = m.
Proof. intros E. cbn [applyOp]. by rewrite bool_decide_eq_false_2. Qed.

Lemma blockOps_chain n b addr m : Forall addressOp addr ->
  applyBatch BlockchainCF m (blockOps n b addr) =
    <[blockCountKey := PutUint64 (n + 1)]> (<[encodeBlockNumberDBKey n := blockData b]> m).
Proof.
  intros Ha. unfold blockOps, applyBatch. cbn [foldl]. rewrite !applyOp_Put, applyOp_Put_other by done.
  apply applyBatch_other. eapply Forall_impl; [by apply indexOps_CF|]. by intros op ->.
Qed.

Lemma blockOps_hash n b addr m h : Forall addressOp addr ->
  applyBatch IndexesCF m (blockOps n b addr) !! encodeBlockHashKey h =
    if decide (blockHash b = h) then Some (encodeBlockNumber n) else m !! encodeBlockHashKey h.
Proof.
  intros Ha. unfold blockOps, applyBatch. cbn [foldl]. rewrite !(applyOp_Put_other IndexesCF BlockchainCF) by done.
  rewrite applyOp_Put. fold (applyBatch IndexesCF (<[encodeBlockHashKey (blockHash b) := encodeBlockNumber n]> m)
    (uuidOps n 0 (Transactions b) ++ addr)). rewrite applyBatch_app, addressOps_other, uuidOps_other by done.
  rewrite lookup_insert. case_decide as E; case_decide as E'; try done; [by injection E|by subst].
Qed.

Lemma blockOps_uuid n b addr m u : Forall addressOp addr ->
  match findTx (Transactions b) u with
  | None => applyBatch IndexesCF m (blockOps n b addr) !! encodeTxUUIDKey u = m !! encodeTxUUIDKey u
  | Some tx => exists i, applyBatch IndexesCF m (blockOps n b addr) !! encodeTxUUIDKey u =
      Some (encodeBlockNumTxIndex n (Z.of_nat i)) /\ Transactions b !! i = Some tx
  end.
Proof.
  intros Ha. unfold blockOps, applyBatch. cbn [foldl]. rewrite !(applyOp_Put_other IndexesCF BlockchainCF) by done.
  rewrite applyOp_Put. fold (applyBatch IndexesCF (<[encodeBlockHashKey (blockHash b) := encodeBlockNumber n]> m)
    (uuidOps n 0 (Transactions b) ++ addr)). rewrite applyBatch_app, addressOps_other by done.
  pose proof (uuidOps_lookup n u (Transactions b) 0
    (<[encodeBlockHashKey (blockHash b) := encodeBlockNumber n]> m)) as Hl.
  destruct (findTx _ u); [exact Hl|]. etransitivity; [exact Hl|]. by apply lookup_insert_ne.
Qed.

Lemma chainBlock_snoc chain b h :
  chainBlock (chain ++ [b]) h = if decide (blockHash b = h) then Some b else chainBlock chain h.
Proof.
  unfold chainBlock. rewrite filter_app, filter_cons, filter_nil.
  case_decide; [by rewrite last_snoc|by rewrite app_nil_r].
Qed.

Lemma chainTx_snoc chain b u : chainTx (chain ++ [b]) u =
  match findTx (Transactions b) u with Some tx => Some tx | None => chainTx chain u end.
Proof.
  unfold chainTx, findTx. rewrite fmap_app, concat_app, filter_app. cbn. rewrite app_nil_r, last_app.
  by destruct (last (filter _ (Transactions b))).
Qed.

Lemma blockKey_count n : encodeBlockNumberDBKey n <> blockCountKey.
Proof.
  intros E%(f_equal length). unfold encodeBlockNumberDBKey, PutUint64 in E. rewrite beBytes_length in E. done.
Qed.

Lemma lookup_chain_snoc (chain : list Block) b n : 0 <= n ->
  (chain ++ [b]) !! Z.to_nat n = if decide (n = height chain) then Some b else chain !! Z.to_nat n.
Proof.
  intros Hn. case_decide as E.
  - subst n. rewrite Nat2Z.id. by rewrite lookup_app_r, Nat.sub_diag by lia.
  - destruct (decide (Z.to_nat n < length chain)%nat) as [Hlt|Hge].
    + by rewrite lookup_app_l.
    + rewrite lookup_ge_None_2 by (rewrite length_app; cbn; lia). by rewrite lookup_ge_None_2 by lia.
Qed.

Lemma blocks_extend db db' chain b : storedBlocks db chain -> healthy db' -> height chain + 1 < two64 ->
  typedBlock b -> block_NonHashData b <> None ->
  contents db' BlockchainCF = <[blockCountKey := PutUint64 (height chain + 1)]>
    (<[encodeBlockNumberDBKey (height chain) := blockData b]> (contents db BlockchainCF)) ->
  storedBlocks db' (chain ++ [b]).
Proof.
  intros [Hdb Hbd Hty Hbl _] Hdb' Hlen Hb Hd Ec. split.
  - done.
  - rewrite length_app. cbn. lia.
  - apply Forall_app_2; [done|]. by constructor.
  - intros n Hn. rewrite Ec, lookup_insert_ne by (apply not_eq_sym, blockKey_count).
    rewrite lookup_chain_snoc by apply Hn. rewrite lookup_insert. case_decide as E; case_decide as E'; try done.
    + destruct E'. symmetry. apply PutUint64_inj; [split; lia|done|done].
    + subst n. done.
    + by apply Hbl.
  - rewrite Ec, lookup_insert_eq. rewrite decide_False by (by destruct chain). do 2 f_equal.
    rewrite length_app. cbn. lia.
Qed.

Lemma hashIndex_extend m chain b addr h : Forall addressOp addr -> hashIndex m chain h ->
  hashIndex (applyBatch IndexesCF m (blockOps (height chain) b addr)) (chain ++ [b]) h.
Proof.
  intros Ha Hh. unfold hashIndex. rewrite chainBlock_snoc, blockOps_hash by done. case_decide as E.
  - exists (length chain). split; [done|]. by rewrite lookup_app_r, Nat.sub_diag.
  - unfold hashIndex in Hh. destruct (chainBlock chain h); [|done]. destruct Hh as (n & E' & Hn).
    exists n. split; [done|]. by apply lookup_app_l_Some.
Qed.

Lemma uuidIndex_extend m chain b addr u : Forall addressOp addr -> uuidIndex m chain u ->
  uuidIndex (applyBatch IndexesCF m (blockOps (height chain) b addr)) (chain ++ [b]) u.
Proof.
  intros Ha Huu. unfold uuidIndex. rewrite chainTx_snoc.
  pose proof (blockOps_uuid (height chain) b addr m u Ha) as Hu.
  destruct (findTx (Transactions b) u) as [tx|].
  - destruct Hu as (i & E & Hi). exists (length chain), i, b. split; [done|]. split; [|done].
    by rewrite lookup_app_r, Nat.sub_diag.
  - rewrite Hu. unfold uuidIndex in Huu. destruct (chainTx chain u); [|done].
    destruct Huu as (n & i & b' & E & Hn & Hi). exists n, i, b'. split; [done|]. split; [|done].
    by apply lookup_app_l_Some.
Qed.

(** A database with the operations of the next block holds the longer chain. *)
Lemma stored_extend db db' chain b addr : stored db chain -> healthy db' -> height chain + 1 < two64 ->
  typedBlock b -> block_NonHashData b <> None -> Forall addressOp addr ->
  contents db' BlockchainCF = applyBatch BlockchainCF (contents db BlockchainCF) (blockOps (height chain) b addr) ->
  contents db' IndexesCF = applyBatch IndexesCF (contents db IndexesCF) (blockOps (height chain) b addr) ->
  stored db' (chain ++ [b]).
Proof.
  intros [Hbl Hh Hu] Hdb' Hlen Hb Hd Ha Ec Ei. rewrite blockOps_chain in Ec by done. split.
  - by eapply (blocks_extend db).
  - intros h. rewrite Ei. by apply hashIndex_extend.
  - intros u. rewrite Ei. by apply uuidIndex_extend.
Qed.

(** The block as it is persisted. *)
Definition persistedBlock (chain : list Block) (now : Timestamp) (b : Block) (stateHash : bytes) : Block :=
  b <| PreviousBlockHash := lastHash chain |> <| StateHash := stateHash |>
    <| block_NonHashData := Some (mkNonHashData (Some now)
         match block_NonHashData b with None => [] | Some d => TransactionResults d end) |>.

Lemma addPersistence_run bc chain now b stateHash batch : chainRel bc chain -> height chain + 1 < two64 ->
  typedBlock (persistedBlock chain now b stateHash) ->
  exists addr, Forall addressOp addr /\
    let block := persistedBlock chain now b stateHash in
    addPersistenceChangesForNewBlock hash o now b stateHash batch bc =
      Done (Ok (block, height chain, batch ++ blockOps (height chain) block addr))
        (bc <| bc_lastProcessedBlock := Some (mkLastProcessedBlock block (height chain) (blockHash block)) |>).
Proof.
  intros [Es Ep] Hlen Hty. pose (block := persistedBlock chain now b stateHash).
  destruct (addIndexData_ops block (height chain) (blockHash block)
    (batch ++ [PutCF BlockchainCF (encodeBlockNumberDBKey (height chain)) (blockData block);
      PutCF BlockchainCF blockCountKey (PutUint64 (height chain + 1))])) as (addr & Ha & Eops).
  exists addr. split; [done|]. cbv zeta. unfold addPersistenceChangesForNewBlock, addPersistenceChanges. cbv [mbind M_bind get].
  assert ((buildBlock bc b stateHash) <| block_NonHashData := Some
    match block_NonHashData (buildBlock bc b stateHash) with
    | None => mkNonHashData (Some now) []
    | Some d => d <| LocalLedgerCommitTimestamp := Some now |>
    end |> = block) as ->.
  { unfold block, persistedBlock, buildBlock, SetPreviousBlockHash. rewrite <- Ep. destruct b as [? ? ? ? ? ? [[]|]]; done. }
  cbv zeta. rewrite (GetHash_blockHash block Hty). unfold Block_Bytes. destruct (blockData_ok block Hty) as (-> & _).
  rewrite Es, u64_small by (split; lia). rewrite Eops. unfold modify.
  rewrite <- app_assoc. reflexivity.
Qed.
End spec.
