(* ===== verification/Ledger.v ===== *)
(** core/ledger/ledger.go: batches of transactions over the world state and the
    chain of blocks, and the calls of state transfer. *)
From stdpp Require Import base gmap list.
From Stdlib Require Import ZArith Lia.
From Stdlib.Strings Require Import Byte.
From S2P Require Import Prelude GoStd GoBytes LedgerUtil KVStore StateDelta StateSpec HashableState.
From S2P Require Import State Blockchain.

(** [currentID] is nil between batches.  The database and the events sent to the
    producer are part of the ledger's state here. *)
Record Ledger (DB I ID : Type) := mkLedger {
  ldb : DB;
  lblockchain : blockchain;
  lstate : State I;
  currentID : option ID;
  blockEvents : list Block
}.
Arguments mkLedger {DB I ID}.
Arguments ldb {DB I ID}.
Arguments lblockchain {DB I ID}.
Arguments lstate {DB I ID}.
Arguments currentID {DB I ID}.
Arguments blockEvents {DB I ID}.

#[export] Instance Ledger_eta DB I ID : Eta (Ledger DB I ID) := fun l =>
  mkLedger (ldb l) (lblockchain l) (lstate l) (currentID l) (blockEvents l).

(** Deployment specifications inside a transaction's payload: the protobuf
    functions and the assignment [deploymentSpec.CodePackage = nil]. *)
Class SpecCodec := {
  ChaincodeDeploymentSpec : Type;
  unmarshalSpec : bytes -> result ChaincodeDeploymentSpec;
  marshalSpec : ChaincodeDeploymentSpec -> result bytes;
  dropCodePackage : ChaincodeDeploymentSpec -> ChaincodeDeploymentSpec
}.

(** Errors of the exported functions that callers tell apart. *)
Inductive ledgerResult (A : Type) : Type :=
| LOk (a : A)
| ErrOutOfBounds
| LErr.
Arguments LOk {A} a.
Arguments ErrOutOfBounds {A}.
Arguments LErr {A}.

Definition fromResult {A} (r : result A) : ledgerResult A := match r with Ok a => LOk a | Err => LErr end.

Section ledger.
Context {DB I Itr ID : Type} `{RocksDB DB} `{!HashableState DB I Itr} `{EqDecision ID}.
Context `{BlockCodec} `{SpecCodec} (hash : bytes -> bytes) (o : mapOrder).

Abbreviation L := (M (Ledger DB I ID)).

(** Calls of methods of the components. *)
Definition onState {A} (m : M (State I) A) : L A := fun l =>
  match m (lstate l) with
  | Done a s => Done a (l <| lstate := s |>)
  | Panic => Panic
  | Diverge => Diverge
  end.

Definition onChain {A} (m : M blockchain A) : L A := fun l =>
  match m (lblockchain l) with
  | Done a b => Done a (l <| lblockchain := b |>)
  | Panic => Panic
  | Diverge => Diverge
  end.

(** [newLedger]; [newState] is [state.NewState()]. *)
Definition newLedger (db : DB) (newState : M unit (State I)) : M unit (result (Ledger DB I ID)) :=
  bc ← lift (newBlockchain hash db);
  match bc with
  | Err => mret Err
  | Ok bc => state ← newState; mret (Ok (mkLedger db bc state None []))
  end.

(** * Batches *)

(** [true] is a nil error. *)
Definition checkValidIDBegin (l : Ledger DB I ID) : bool := bool_decide (currentID l = None).
Definition checkValidIDCommitORRollback (l : Ledger DB I ID) (id : option ID) : bool :=
  bool_decide (currentID l = id).

Definition resetForNextTxGroup (txCommited : bool) : L unit :=
  modify (fun l => l <| currentID := None |>) ;;
  onState (ClearInMemoryChanges txCommited).

Definition BeginTxBatch (id : option ID) : L (result unit) :=
  l ← get;
  if negb (checkValidIDBegin l) then mret Err else
  modify (fun l => l <| currentID := id |>) ;; mret (Ok tt).

Definition GetTXBatchPreviewBlock (id : option ID) (transactions : list Transaction)
    (metadata : bytes) : L (result Block) :=
  l ← get;
  if negb (checkValidIDCommitORRollback l id) then mret Err else
  stateHash ←? onState (GetHash (ldb l));
  bc ← gets lblockchain;
  mret (Ok (buildBlock bc (NewBlock transactions metadata) (default [] stateHash))).

(** The payload of a deploy transaction without its code package; left alone when
    it cannot be read or written. *)
Definition lightTransaction (transaction : Transaction) : Transaction :=
  match Type_ transaction with
  | CHAINCODE_DEPLOY =>
    match unmarshalSpec (Payload transaction) with
    | Err => transaction
    | Ok deploymentSpec =>
      match marshalSpec (dropCodePackage deploymentSpec) with
      | Err => transaction
      | Ok deploymentSpecBytes => transaction <| Payload := deploymentSpecBytes |>
      end
    end
  | _ => transaction
  end.

Definition sendProducerBlockEvent (block : Block) : L unit :=
  modify (fun l => l <| blockEvents := blockEvents l ++
    [block <| Transactions := lightTransaction <$> Transactions block |>] |>).

(** The failure path that three steps of a commit share. *)
Definition abandonCommit {A} : L (result A) :=
  resetForNextTxGroup false ;;
  onChain (blockPersistenceStatus false) ;;
  mret Err.

Definition CommitTxBatch (now : Timestamp) (id : option ID) (transactions : list Transaction)
    (transactionResults : list TransactionResult) (metadata : bytes) : L (result unit) :=
  l ← get;
  if negb (checkValidIDCommitORRollback l id) then mret Err else
  stateHash ← onState (GetHash (ldb l));
  match stateHash with
  | Err => abandonCommit
  | Ok stateHash =>
    let block := (NewBlock transactions metadata)
      <| block_NonHashData := Some (mkNonHashData None transactionResults) |> in
    new ← onChain (addPersistenceChangesForNewBlock hash o now block (default [] stateHash) []);
    match new with
    | Err => abandonCommit
    | Ok (block, newBlockNumber, writeBatch) =>
      writeBatch ← onState (State_AddChangesForPersistence o (ldb l) newBlockNumber writeBatch);
      match Write (ldb l) writeBatch with
      | Err => abandonCommit
      | Ok db =>
        modify (fun l => l <| ldb := db |>) ;;
        resetForNextTxGroup true ;;
        onChain (blockPersistenceStatus true) ;;
        sendProducerBlockEvent block ;;
        mret (Ok tt)
      end
    end
  end.

Definition RollbackTxBatch (id : option ID) : L (result unit) :=
  l ← get;
  if negb (checkValidIDCommitORRollback l id) then mret Err else
  resetForNextTxGroup false ;; mret (Ok tt).

Definition Ledger_TxBegin (txUUID : bytes) : L unit := onState (TxBegin txUUID).
Definition TxFinished (txUUID : bytes) (txSuccessful : bool) : L unit :=
  onState (TxFinish hash o txUUID txSuccessful).

(** * The world state *)

Definition GetTempStateHash : L (result (option bytes)) := l ← get; onState (GetHash (ldb l)).

Definition GetTempStateHashWithTxDeltaStateHashes
    : L (result (option bytes) * gmap bytes (option bytes)) :=
  l ← get;
  stateHash ← onState (GetHash (ldb l));
  s ← gets lstate;
  mret (stateHash, GetTxStateDeltaHash s).

Definition Ledger_GetState (chaincodeID key : bytes) (committed : bool) : L (result (option bytes)) :=
  l ← get; onState (State_Get (ldb l) chaincodeID key committed).

Definition GetStateRangeScanIterator (l : Ledger DB I ID) (chaincodeID startKey endKey : bytes)
    (committed : bool) : option (stateItr Itr) :=
  GetRangeScanIterator o (ldb l) (lstate l) chaincodeID startKey endKey committed.

Definition SetState (chaincodeID key : bytes) (value : option bytes) : L (result unit) :=
  l ← get; onState (State_Set (ldb l) chaincodeID key value).

Definition Ledger_DeleteState (chaincodeID key : bytes) : L (result unit) :=
  l ← get; onState (State_Delete (ldb l) chaincodeID key).

(** * State transfer *)

Definition GetBlockchainSize (l : Ledger DB I ID) : Z := getSize (lblockchain l).

Definition GetStateDelta (l : Ledger DB I ID) (blockNumber : Z) : ledgerResult (option StateDelta) :=
  if blockNumber >=? GetBlockchainSize l then ErrOutOfBounds else
  fromResult (FetchStateDeltaFromDB (ldb l) blockNumber).

Definition Ledger_ApplyStateDelta (id : option ID) (delta : StateDelta) : L (result unit) :=
  l ← get;
  if negb (checkValidIDBegin l) then mret Err else
  modify (fun l => l <| currentID := id |>) ;;
  onState (ApplyStateDelta delta) ;; mret (Ok tt).

(** The deferred reset runs with [true] whether or not the write succeeded. *)
Definition Ledger_CommitStateDelta (id : option ID) : L (result unit) :=
  l ← get;
  if negb (checkValidIDCommitORRollback l id) then mret Err else
  db ← onState (CommitStateDelta (ldb l));
  match db with
  | Ok db => modify (fun l => l <| ldb := db |>) ;; resetForNextTxGroup true ;; mret (Ok tt)
  | Err => resetForNextTxGroup true ;; mret Err
  end.

Definition RollbackStateDelta (id : option ID) : L (result unit) :=
  l ← get;
  if negb (checkValidIDCommitORRollback l id) then mret Err else
  resetForNextTxGroup false ;; mret (Ok tt).

(** On an error the model keeps the database as it was. *)
Definition DeleteALLStateKeysAndValues : L (result unit) :=
  l ← get;
  db ← onState (DeleteState (ldb l));
  match db with
  | Ok db => modify (fun l => l <| ldb := db |>) ;; mret (Ok tt)
  | Err => mret Err
  end.

(** * The chain *)

Definition GetBlockchainInfo (l : Ledger DB I ID) : option (result BlockchainInfo) :=
  getBlockchainInfo (ldb l) (lblockchain l).

Definition GetBlockByNumber (l : Ledger DB I ID) (blockNumber : Z) : ledgerResult (option Block) :=
  if blockNumber >=? GetBlockchainSize l then ErrOutOfBounds else
  fromResult (getBlock (ldb l) blockNumber).

Definition GetTransactionByUUID (l : Ledger DB I ID) (txUUID : bytes) : option (result Transaction) :=
  getTransactionByUUID (ldb l) txUUID.

Definition PutRawBlock (block : Block) (blockNumber : Z) : L (result unit) :=
  l ← get;
  db ← onChain (persistRawBlock hash o (ldb l) block blockNumber);
  match db with
  | Err => mret Err
  | Ok db =>
    modify (fun l => l <| ldb := db |>) ;;
    sendProducerBlockEvent block ;; mret (Ok tt)
  end.

(** The loop of [VerifyChain] from [i] down to [lowBlock], [i - lowBlock] rounds: the
    block number and whether there is an error. *)
Fixpoint verifyLoop (l : Ledger DB I ID) (rounds : nat) (i : Z) : Z * ledgerResult unit :=
  match rounds with
  | O => (0, LOk tt)
  | S rounds =>
    match GetBlockByNumber l i with
    | LOk (Some currentBlock) =>
      match GetBlockByNumber l (i - 1) with
      | LOk (Some previousBlock) =>
        match Block_GetHash hash previousBlock with
        | Err => (i - 1, LErr)
        | Ok previousBlockHash =>
          if negb (bool_decide (previousBlockHash = PreviousBlockHash currentBlock)) then (i, LOk tt)
          else verifyLoop l rounds (i - 1)
        end
      | _ => (i - 1, LErr)
      end
    | _ => (i, LErr)
    end
  end.

Definition VerifyChain (l : Ledger DB I ID) (highBlock lowBlock : Z) : Z * ledgerResult unit :=
  if highBlock >=? GetBlockchainSize l then (highBlock, ErrOutOfBounds)
  else if highBlock <=? lowBlock then (lowBlock, ErrOutOfBounds)
  else verifyLoop l (Z.to_nat (highBlock - lowBlock)) highBlock.
End ledger.
