(* ===== verification/LedgerRefine.v ===== *)
(** ledger.go against an abstract ledger: a transactional store and a list of
    blocks.  Every operation keeps the two related and gives the same answer. *)
From stdpp Require Import base gmap list.
From Stdlib Require Import ZArith Lia.
From Stdlib.Strings Require Import Byte.
From S2P Require Import Prelude GoStd GoBytes LedgerUtil KVStore StateDelta StateSpec HashableState.
From S2P Require Import State StateScan StateRefine Blockchain BlockchainSpec Ledger.

(** * The abstract ledger *)

Record absLedger (ID : Type) := mkAbsLedger {
  al_store : store;
  al_chain : list Block;
  al_id : option ID
}.
Arguments mkAbsLedger {ID}.
Arguments al_store {ID}.
Arguments al_chain {ID}.
Arguments al_id {ID}.

#[export] Instance absLedger_eta ID : Eta (absLedger ID) := fun a =>
  mkAbsLedger (al_store a) (al_chain a) (al_id a).

(** ** Operations and answers *)

Inductive ledgerOp (ID : Type) :=
| OpBegin (id : option ID)
| OpCommit (now : Timestamp) (id : option ID) (txs : list Transaction)
    (results : list TransactionResult) (metadata : bytes)
| OpRollback (id : option ID)
| OpPreview (id : option ID) (txs : list Transaction) (metadata : bytes)
| OpTxBegin (uuid : bytes)
| OpTxFinished (uuid : bytes) (ok : bool)
| OpGet (cc key : bytes) (committed : bool)
| OpSet (cc key : bytes) (value : option bytes)
| OpDelete (cc key : bytes)
| OpHash
| OpBlock (n : Z)
| OpSize
| OpTransaction (uuid : bytes)
| OpVerify (high low : Z).

Arguments OpBegin {ID}.
Arguments OpCommit {ID}.
Arguments OpRollback {ID}.
Arguments OpPreview {ID}.
Arguments OpTxBegin {ID}.
Arguments OpTxFinished {ID}.
Arguments OpGet {ID}.
Arguments OpSet {ID}.
Arguments OpDelete {ID}.
Arguments OpHash {ID}.
Arguments OpBlock {ID}.
Arguments OpSize {ID}.
Arguments OpTransaction {ID}.
Arguments OpVerify {ID}.

Inductive answer :=
| AUnit
| AOk (ok : bool)
| AValue (v : result (option bytes))
| APreview (b : result Block)
| ABlock (b : ledgerResult (option Block))
| ASize (n : Z)
| ATransaction (tx : option (result Transaction))
| AVerify (v : Z * ledgerResult unit).

(** ** What it does *)

Section abstract.
Context {ID : Type} `{EqDecision ID} `{BlockCodec} (hash : bytes -> bytes).
(** The hash of a state. *)
Context (stateHash_ : kvs -> option bytes).

(** The block a commit adds. *)
Definition nextBlock (a : absLedger ID) (now : Timestamp) (txs : list Transaction)
    (results : list TransactionResult) (metadata : bytes) : Block :=
  persistedBlock hash (al_chain a) now
    ((NewBlock txs metadata) <| block_NonHashData := Some (mkNonHashData None results) |>)
    (default [] (stateHash_ (afterBatch (al_store a)))).

Definition committedLedger (a : absLedger ID) (b : Block) : absLedger ID :=
  mkAbsLedger (mkStore (afterBatch (al_store a)) ∅ ∅ []) (al_chain a ++ [b]) None.

Definition brokenLink (chain : list Block) (i : nat) : bool :=
  match chain !! i, chain !! pred i with
  | Some b, Some p => negb (bool_decide (blockHash hash p = PreviousBlockHash b))
  | _, _ => false
  end.

(** The highest broken link above [low], zero if there is none. *)
Definition highestBroken (chain : list Block) (high low : nat) : Z :=
  match last (List.filter (brokenLink chain) (seq (S low) (high - low))) with
  | Some i => Z.of_nat i
  | None => 0
  end.

(** What [VerifyChain] returns. *)
Definition verifyAnswer (chain : list Block) (high low : Z) : Z * ledgerResult unit :=
  if decide (height chain <= high) then (high, ErrOutOfBounds)
  else if decide (high <= low) then (low, ErrOutOfBounds)
  else (highestBroken chain (Z.to_nat high) (Z.to_nat low), LOk tt).

(** The abstract ledger.  [None] is a call that the protocol of transactions does
    not allow: the code panics, or, for a commit inside a transaction, is not meant
    to be called. *)
Definition absStep (a : absLedger ID) (op : ledgerOp ID) : option (absLedger ID * answer) :=
  let st := al_store a in
  match op with
  | OpBegin id =>
      if decide (al_id a = None) then Some (a <| al_id := id |>, AOk true) else Some (a, AOk false)
  | OpCommit now id txs results metadata =>
      if decide (al_id a = id) then
        if decide (st_uuid st = []) then
          Some (committedLedger a (nextBlock a now txs results metadata), AOk true)
        else None
      else Some (a, AOk false)
  | OpRollback id =>
      if decide (al_id a = id) then
        Some (a <| al_id := None |> <| al_store := st <| st_batch := ∅ |> |>, AOk true)
      else Some (a, AOk false)
  | OpPreview id txs metadata =>
      if decide (al_id a = id) then
        Some (a, APreview (Ok ((NewBlock txs metadata) <| PreviousBlockHash := lastHash hash (al_chain a) |>
          <| StateHash := default [] (stateHash_ (afterBatch st)) |>)))
      else Some (a, APreview Err)
  | OpTxBegin uuid =>
      if decide (st_uuid st = []) then Some (a <| al_store := st <| st_uuid := uuid |> |>, AUnit) else None
  | OpTxFinished uuid ok =>
      if decide (st_uuid st = uuid) then
        Some (a <| al_store := mkStore (st_committed st)
          (if ok then st_tx st ∪ st_batch st else st_batch st) ∅ [] |>, AUnit)
      else None
  | OpGet cc key committed => Some (a, AValue (Ok (readStore st cc key committed)))
  | OpSet cc key value =>
      if decide (st_uuid st = []) then None
      else Some (a <| al_store := st <| st_tx := <[(cc, key) := value]> (st_tx st) |> |>, AOk true)
  | OpDelete cc key =>
      if decide (st_uuid st = []) then None
      else Some (a <| al_store := st <| st_tx := <[(cc, key) := None]> (st_tx st) |> |>, AOk true)
  | OpHash => Some (a, AValue (Ok (stateHash_ (afterBatch st))))
  | OpBlock n => Some (a, ABlock
      (if decide (n < height (al_chain a)) then LOk (al_chain a !! Z.to_nat n) else ErrOutOfBounds))
  | OpSize => Some (a, ASize (height (al_chain a)))
  | OpTransaction uuid => Some (a, ATransaction
      (Some match chainTx (al_chain a) uuid with Some tx => Ok tx | None => Err end))
  | OpVerify high low => Some (a, AVerify (verifyAnswer (al_chain a) high low))
  end.

(** Arguments in the ranges of their Go types; chaincode ids without the delimiter
    of composite keys. *)
Definition wfOp (op : ledgerOp ID) : Prop :=
  match op with
  | OpCommit now _ txs results _ => typedTimestamp now /\ Forall typedTransaction txs /\
      Z.of_nat (length txs) < 2 ^ 63 /\ Forall (fun r => 0 <= ErrorCode r < 2 ^ 32) results
  | OpSet cc _ _ | OpDelete cc _ => stateKeyDelimiter ∉ cc
  | OpBlock n => is_u64 n
  | OpVerify high low => is_u64 high /\ is_u64 low
  | _ => True
  end.

Fixpoint absRun (a : absLedger ID) (ops : list (ledgerOp ID)) : option (absLedger ID * list answer) :=
  match ops with
  | [] => Some (a, [])
  | op :: ops => '(a, x) ← absStep a op; '(a, xs) ← absRun a ops; Some (a, x :: xs)
  end.

End abstract.

Section refine.
Context {DB I Itr ID : Type} `{RocksDBLaws DB} `{!HashableState DB I Itr} `{!HashableStateSpec DB I Itr}
  `{EqDecision ID} `{BlockCodecLaws} `{SpecCodec} (hash : bytes -> bytes) (o : mapOrder).

Record ledgerRel (l : Ledger DB I ID) (a : absLedger ID) : Prop := {
  lr_state : stateRel (ldb l) (lstate l) (al_store a);
  lr_stored : stored hash (ldb l) (al_chain a);
  lr_chain : chainRel hash (lblockchain l) (al_chain a);
  lr_id : currentID l = al_id a
}.

(** A batch of chain, state and history operations, by column family. *)
Lemma batch_split n b addr ops hist : Forall addressOp addr -> Forall (fun op => opCF op = StateCF) ops ->
  Forall (fun op => opCF op = StateDeltaCF) hist -> forall m,
  let batch := blockOps hash n b addr ++ ops ++ hist in
  applyBatch BlockchainCF m batch = applyBatch BlockchainCF m (blockOps hash n b addr) /\
  applyBatch IndexesCF m batch = applyBatch IndexesCF m (blockOps hash n b addr) /\
  applyBatch StateCF m batch = applyBatch StateCF m ops /\
  applyBatch StateDeltaCF m batch = applyBatch StateDeltaCF m hist.
Proof.
  intros Ha Ho Hh m batch. unfold batch. rewrite !applyBatch_app.
  assert (forall cf m l c, Forall (fun op => opCF op = c) l -> c <> cf -> applyBatch cf m l = m) as Hn.
  { intros cf m' l c Hl Hc. apply applyBatch_other. eapply Forall_impl; [exact Hl|]. by intros op ->. }
  assert (forall cf m, cf <> BlockchainCF -> cf <> IndexesCF -> applyBatch cf m (blockOps hash n b addr) = m) as Hb.
  { intros cf m' H1' H2'. apply applyBatch_other. unfold blockOps. repeat constructor; cbn; try done.
    eapply Forall_impl; [by apply indexOps_CF|]. intros op ->. done. }
  split; [|split; [|split]].
  - by rewrite (Hn _ _ hist StateDeltaCF), (Hn _ _ ops StateCF).
  - by rewrite (Hn _ _ hist StateDeltaCF), (Hn _ _ ops StateCF).
  - by rewrite (Hn _ _ hist StateDeltaCF), Hb.
  - by rewrite (Hn _ _ ops StateCF), Hb.
Qed.

Lemma historyOps_CF (s : State I) n : Forall (fun op => opCF op = StateDeltaCF) (historyOps o s n).
Proof. unfold historyOps. by destruct (_ >=? _); repeat constructor. Qed.

(** The result of a commit. *)
Record committedAs (l l' : Ledger DB I ID) (a : absLedger ID) (b : Block) : Prop := {
  ca_rel : ledgerRel l' (committedLedger a b);
  ca_history : contents (ldb l') StateDeltaCF = applyBatch StateDeltaCF (contents (ldb l) StateDeltaCF)
    (historyOps o (lstate l) (height (al_chain a)));
  ca_size : historyStateDeltaSize (lstate l') = historyStateDeltaSize (lstate l);
  ca_events : blockEvents l' = blockEvents l ++ [b <| Transactions := lightTransaction <$> Transactions b |>]
}.

Lemma Commit_rel l a now txs results metadata : ledgerRel l a -> st_uuid (al_store a) = [] ->
  height (al_chain a) + 1 < two64 -> typedBlock (nextBlock hash hs_hash a now txs results metadata) ->
  exists l', CommitTxBatch hash o now (al_id a) txs results metadata l = Done (Ok tt) l' /\
    committedAs l l' a (nextBlock hash hs_hash a now txs results metadata).
Proof.
  intros [Hst Hsto Hch Hid] Hidle Hlen Hty. pose (b := nextBlock hash hs_hash a now txs results metadata).
  destruct (GetHash_rel (ldb l) (lstate l) (al_store a) Hst) as (s1 & E1 & Hst1 & Hh1 & Hd1).
  destruct (addPersistence_run hash o (lblockchain l) (al_chain a) now
    ((NewBlock txs metadata) <| block_NonHashData := Some (mkNonHashData None results) |>)
    (default [] (hs_hash (afterBatch (al_store a)))) [] Hch Hlen Hty) as (addr & Ha & E2).
  change (persistedBlock _ _ _ _ _) with b in E2. cbv zeta in E2. cbn [app] in E2.
  destruct (Persist_rel o (ldb l) s1 (al_store a) (height (al_chain a)) (blockOps hash (height (al_chain a)) b addr)
    Hst1 Hidle) as (s2 & ops & E3 & Hst2 & Hh2 & Hcf & Hclear).
  destruct (Write_contents (ldb l) (blockOps hash (height (al_chain a)) b addr ++ ops ++ historyOps o s1 (height (al_chain a)))
    (stateRel_healthy _ _ _ Hst)) as (db & E4 & Hdb & Econ).
  pose proof (batch_split (height (al_chain a)) b addr ops _ Ha Hcf (historyOps_CF s1 (height (al_chain a)))) as Hsplit.
  cbv zeta in Hsplit.
  destruct (Hclear db Hdb) as (s3 & E5 & Hst3 & Hh3).
  { rewrite Econ. apply Hsplit. }
  remember (blockOps hash (height (al_chain a)) b addr) as bops eqn:Ebops.
  eexists. split.
  { unfold CommitTxBatch, resetForNextTxGroup, checkValidIDCommitORRollback, onState, onChain.
    cbv [mbind M_bind get modify]. rewrite Hid, bool_decide_eq_true_2 by done. cbn [negb]. rewrite E1. cbn.
    rewrite E2. cbn. rewrite E3. cbn. rewrite E4. cbn. rewrite E5. reflexivity. }
  split; [split|..].
  - exact Hst3.
  - eapply stored_extend; [exact Hsto|done|done|exact Hty|done|exact Ha|..]; fold b; rewrite <- Ebops.
    + cbn. rewrite Econ. apply Hsplit.
    + cbn. rewrite Econ. apply Hsplit.
  - destruct Hch as [Es _]. split; cbn.
    + rewrite Es, u64_small by (split; lia). rewrite length_app. cbn. lia.
    + unfold lastHash. by rewrite last_snoc.
  - done.
  - cbn. rewrite Econ. etransitivity; [apply Hsplit|]. unfold historyOps. by rewrite Hd1, Hh1.
  - cbn. by rewrite Hh3.
  - done.
Qed.

(** * Verifying the chain *)

Lemma GetBlockByNumber_rel l a n : ledgerRel l a -> is_u64 n ->
  GetBlockByNumber l n = if decide (n < height (al_chain a)) then LOk (al_chain a !! Z.to_nat n) else ErrOutOfBounds.
Proof.
  intros [_ Hsto [Es _] _] Hn. unfold GetBlockByNumber, GetBlockchainSize, getSize. rewrite Es.
  case_decide; destruct (n >=? _) eqn:E; try lia; [|done].
  unfold getBlock. by rewrite (fetchBlock_stored hash (ldb l) (al_chain a)).
Qed.

Lemma verifyLoop_rel l a low rounds : ledgerRel l a -> (low + rounds < length (al_chain a))%nat ->
  verifyLoop hash l rounds (Z.of_nat (low + rounds)) = (highestBroken hash (al_chain a) (low + rounds) low, LOk tt).
Proof.
  intros Hr. pose proof (sto_bound _ _ _ (lr_stored _ _ Hr)) as Hb. unfold highestBroken.
  induction rounds as [|n IH]; intros Hlt; [by rewrite Nat.add_0_r, Nat.sub_diag|]. cbn [verifyLoop].
  replace (low + S n - low)%nat with (S n) by lia. replace (low + n - low)%nat with n in IH by lia.
  rewrite seq_S, List.filter_app. cbn [List.filter].
  destruct (lookup_lt_is_Some_2 (al_chain a) (low + S n) ltac:(lia)) as [b Eb].
  destruct (lookup_lt_is_Some_2 (al_chain a) (low + n) ltac:(lia)) as [p Ep].
  rewrite (GetBlockByNumber_rel l a) by (done || split; lia). rewrite decide_True by lia. rewrite Nat2Z.id, Eb.
  rewrite (GetBlockByNumber_rel l a) by (done || split; lia). rewrite decide_True by lia.
  replace (Z.to_nat (Z.of_nat (low + S n) - 1)) with (low + n)%nat by lia. rewrite Ep.
  destruct (stored_lookup _ _ _ _ _ (lr_stored _ _ Hr) Ep) as (Hp & _). rewrite (GetHash_blockHash hash p Hp).
  replace (S low + n)%nat with (low + S n)%nat by lia. unfold brokenLink at 2. rewrite Eb.
  replace (pred (low + S n)) with (low + n)%nat by lia. rewrite Ep.
  destruct (negb _); cbn [List.filter]; [by rewrite last_snoc|].
  rewrite app_nil_r. replace (Z.of_nat (low + S n) - 1) with (Z.of_nat (low + n)) by lia. apply IH. lia.
Qed.

Lemma VerifyChain_rel l a high low : ledgerRel l a -> is_u64 high -> is_u64 low ->
  VerifyChain hash l high low = verifyAnswer hash (al_chain a) high low.
Proof.
  intros Hr Hh Hl. unfold VerifyChain, verifyAnswer, GetBlockchainSize, getSize. destruct (lr_chain _ _ Hr) as [-> _].
  destruct (high >=? _) eqn:E; case_decide as Ed; try lia; [done|].
  destruct (high <=? low) eqn:E'; case_decide as Ed'; try lia; [done|]. unfold is_u64 in *.
  pose proof (verifyLoop_rel l a (Z.to_nat low) (Z.to_nat (high - low)) Hr ltac:(lia)) as Hv.
  replace (Z.to_nat low + Z.to_nat (high - low))%nat with (Z.to_nat high) in Hv by lia.
  rewrite Z2Nat.id in Hv by lia. exact Hv.
Qed.

Definition isOk {A} (r : result A) : bool := match r with Ok _ => true | Err => false end.

(** The calls of ledger.go. *)
Definition runOp (op : ledgerOp ID) : M (Ledger DB I ID) answer :=
  match op with
  | OpBegin id => r ← BeginTxBatch id; mret (AOk (isOk r))
  | OpCommit now id txs results metadata =>
      r ← CommitTxBatch hash o now id txs results metadata; mret (AOk (isOk r))
  | OpRollback id => r ← RollbackTxBatch id; mret (AOk (isOk r))
  | OpPreview id txs metadata => r ← GetTXBatchPreviewBlock id txs metadata; mret (APreview r)
  | OpTxBegin uuid => _ ← Ledger_TxBegin uuid; mret AUnit
  | OpTxFinished uuid ok => _ ← TxFinished hash o uuid ok; mret AUnit
  | OpGet cc key committed => r ← Ledger_GetState cc key committed; mret (AValue r)
  | OpSet cc key value => r ← SetState cc key value; mret (AOk (isOk r))
  | OpDelete cc key => r ← Ledger_DeleteState cc key; mret (AOk (isOk r))
  | OpHash => r ← GetTempStateHash; mret (AValue r)
  | OpBlock n => b ← gets (fun l => GetBlockByNumber l n); mret (ABlock b)
  | OpSize => n ← gets GetBlockchainSize; mret (ASize n)
  | OpTransaction uuid => tx ← gets (fun l => GetTransactionByUUID l uuid); mret (ATransaction tx)
  | OpVerify high low => v ← gets (fun l => VerifyChain hash l high low); mret (AVerify v)
  end.

(** ** The step *)

Lemma onState_rel {A} l a (m : M (State I) A) x s st : ledgerRel l a -> m (lstate l) = Done x s ->
  stateRel (ldb l) s st ->
  exists l', onState m l = Done x l' /\ ledgerRel l' (a <| al_store := st |>).
Proof.
  intros [Hst Hsto Hch Hid] E Hs. unfold onState. rewrite E. eexists. split; [reflexivity|]. by split.
Qed.

Lemma nextBlock_typed (a : absLedger ID) now (id : option ID) txs results metadata :
  wfOp (OpCommit now id txs results metadata) -> typedBlock (nextBlock hash hs_hash a now txs results metadata).
Proof. intros (Hn & Ht & Hl & Hr). exact (conj (conj (Z.le_refl 0) eq_refl) (conj Logic.I (conj Ht (conj Hl (conj Hn Hr))))). Qed.

Lemma onState_same {A} l a (m : M (State I) A) x s : ledgerRel l a -> m (lstate l) = Done x s ->
  stateRel (ldb l) s (al_store a) -> exists l', onState m l = Done x l' /\ ledgerRel l' a.
Proof.
  intros Hr E Hs. destruct (onState_rel l a m x s _ Hr E Hs) as (l' & E' & Hl). exists l'. split; [done|]. by destruct a.
Qed.

Lemma reset_rel l a : ledgerRel l a -> exists l', resetForNextTxGroup false l = Done tt l' /\
  ledgerRel l' (a <| al_id := None |> <| al_store := (al_store a) <| st_batch := ∅ |> |>).
Proof.
  intros [Hst Hsto Hch Hid]. destruct (Clear_rel (ldb l) (lstate l) (al_store a) Hst) as (s' & E & Hst' & _).
  unfold resetForNextTxGroup, onState. cbv [mbind M_bind modify]. cbn. rewrite E. eexists. split; [reflexivity|]. by split.
Qed.

(** A call that returns [x] and is answered by [f x]. *)
Lemma answer_of {A} (m : M (Ledger DB I ID) A) (f : A -> answer) l x l' : m l = Done x l' ->
  (x' ← m; mret (f x')) l = Done (f x) l'.
Proof. intros E. cbv [mbind M_bind]. by rewrite E. Qed.

(** What the batch operations do. *)
Lemma batchOp_rel l a op a' ans : ledgerRel l a -> wfOp op -> height (al_chain a) + 1 < two64 ->
  match op with OpBegin _ | OpCommit _ _ _ _ _ | OpRollback _ | OpPreview _ _ _ => True | _ => False end ->
  absStep hash hs_hash a op = Some (a', ans) -> exists l', runOp op l = Done ans l' /\ ledgerRel l' a'.
Proof.
  intros Hr Hwf Hlen Hop. pose proof (lr_id _ _ Hr) as Hid.
  destruct op as [id|now id txs results metadata|id|id txs metadata| | | | | | | | | |]; try done; clear Hop; cbn [absStep runOp].
  - intros E. unfold BeginTxBatch, checkValidIDBegin. cbv [mbind M_bind get]. rewrite Hid.
    case_decide as Ei; injection E as <- <-.
    + rewrite bool_decide_eq_true_2 by done. eexists. split; [reflexivity|]. by destruct Hr.
    + rewrite bool_decide_eq_false_2 by done. by exists l.
  - case_decide as Ei; [case_decide as Eu; [|done]|]; intros [= <- <-].
    + subst id. destruct (Commit_rel l a now txs results metadata Hr Eu Hlen
        (nextBlock_typed a now (al_id a) txs results metadata Hwf)) as (l' & E & Hca).
      exists l'. split; [by apply (answer_of _ (fun r => AOk (isOk r)) _ _ _ E)|apply Hca].
    + exists l. split; [|done]. unfold CommitTxBatch, checkValidIDCommitORRollback. cbv [mbind M_bind get].
      by rewrite Hid, bool_decide_eq_false_2.
  - unfold RollbackTxBatch, checkValidIDCommitORRollback. cbv [mbind M_bind get]. rewrite Hid.
    case_decide as Ei; intros [= <- <-].
    + rewrite bool_decide_eq_true_2 by done. destruct (reset_rel l a Hr) as (l' & E & Hl'). cbn [negb]. rewrite E.
      by exists l'.
    + rewrite bool_decide_eq_false_2 by done. by exists l.
  - unfold GetTXBatchPreviewBlock, checkValidIDCommitORRollback, try. cbv [mbind M_bind get gets]. rewrite Hid.
    case_decide as Ei; intros [= <- <-].
    + rewrite bool_decide_eq_true_2 by done. cbn [negb].
      destruct (GetHash_rel (ldb l) (lstate l) (al_store a) (lr_state _ _ Hr)) as (s' & E & Hs & _).
      destruct (onState_same l a _ _ _ Hr E Hs) as (l' & E' & Hl'). rewrite E'. exists l'. split; [|done].
      cbn. unfold buildBlock, SetPreviousBlockHash. by destruct (lr_chain _ _ Hl') as [_ ->].
    + rewrite bool_decide_eq_false_2 by done. by exists l.
Qed.

Lemma txOp_rel l a op a' ans : ledgerRel l a -> wfOp op ->
  match op with OpTxBegin _ | OpTxFinished _ _ | OpGet _ _ _ | OpSet _ _ _ | OpDelete _ _ | OpHash => True
  | _ => False end ->
  absStep hash hs_hash a op = Some (a', ans) -> exists l', runOp op l = Done ans l' /\ ledgerRel l' a'.
Proof.
  intros Hr Hwf Hop. pose proof (lr_state _ _ Hr) as Hst.
  destruct op as [| | | |uuid|uuid ok|cc k c|cc k v|cc k| | | | |]; try done; clear Hop; cbn [absStep runOp wfOp] in *.
  - pose proof (TxBegin_rel _ _ _ uuid Hst) as Hb. case_decide; [|done]. intros [= <- <-].
    destruct Hb as (s' & E & Hs). destruct (onState_rel l a _ _ _ _ Hr E Hs) as (l' & E' & Hl').
    exists l'. split; [by apply (answer_of _ (fun _ => AUnit) _ _ _ E')|done].
  - pose proof (TxFinish_rel hash o _ _ _ uuid ok Hst) as Hb. case_decide; [|done]. intros [= <- <-].
    destruct Hb as (s' & E & Hs). destruct (onState_rel l a _ _ _ _ Hr E Hs) as (l' & E' & Hl').
    exists l'. split; [by apply (answer_of _ (fun _ => AUnit) _ _ _ E')|done].
  - intros [= <- <-]. pose proof (State_Get_rel _ _ _ cc k c Hst) as E.
    destruct (onState_same l a _ _ _ Hr E Hst) as (l' & E' & Hl').
    exists l'. split; [by apply (answer_of _ AValue _ _ _ E')|done].
  - pose proof (State_Set_rel _ _ _ cc k v Hst Hwf) as Hb. case_decide; [done|]. intros [= <- <-].
    destruct Hb as (s' & E & Hs). destruct (onState_rel l a _ _ _ _ Hr E Hs) as (l' & E' & Hl').
    exists l'. split; [by apply (answer_of _ (fun r => AOk (isOk r)) _ _ _ E')|done].
  - pose proof (State_Set_rel _ _ _ cc k None Hst Hwf) as Hb. case_decide; [done|]. intros [= <- <-].
    destruct Hb as (s' & E & Hs). destruct (onState_rel l a _ _ _ _ Hr E Hs) as (l' & E' & Hl').
    exists l'. split; [by apply (answer_of _ (fun r => AOk (isOk r)) _ _ _ E')|done].
  - intros [= <- <-]. destruct (GetHash_rel _ _ _ Hst) as (s' & E & Hs & _).
    destruct (onState_same l a _ _ _ Hr E Hs) as (l' & E' & Hl').
    exists l'. split; [by apply (answer_of _ AValue _ _ _ E')|done].
Qed.

Lemma step_rel l a op a' ans : ledgerRel l a -> wfOp op -> height (al_chain a) + 1 < two64 ->
  absStep hash hs_hash a op = Some (a', ans) -> exists l', runOp op l = Done ans l' /\ ledgerRel l' a'.
Proof.
  intros Hr Hwf Hlen. destruct op as [| | | | | | | | | |n| |uuid|high low];
    try (by apply batchOp_rel); try (by apply txOp_rel); cbn [absStep runOp wfOp] in *; intros [= <- <-];
    exists l; (split; [|done]); cbv [mbind M_bind gets].
  - by rewrite (GetBlockByNumber_rel l a).
  - unfold GetBlockchainSize, getSize. by destruct (lr_chain _ _ Hr) as [-> _].
  - unfold GetTransactionByUUID. by rewrite (getTransactionByUUID_stored hash (ldb l) (al_chain a) uuid (lr_stored _ _ Hr)).
  - destruct Hwf. by rewrite (VerifyChain_rel l a).
Qed.

(** ** Sequences of calls *)

Fixpoint runOps (ops : list (ledgerOp ID)) : M (Ledger DB I ID) (list answer) :=
  match ops with
  | [] => mret []
  | op :: ops => x ← runOp op; xs ← runOps ops; mret (x :: xs)
  end.

Lemma absStep_height (a : absLedger ID) op a' ans : absStep hash hs_hash a op = Some (a', ans) ->
  height (al_chain a') <= height (al_chain a) + 1.
Proof.
  destruct op; cbn; repeat case_decide; try done; intros [= <- <-]; cbn; try lia. rewrite length_app. cbn. lia.
Qed.

Lemma run_rel ops : forall l a a' answers, ledgerRel l a -> Forall wfOp ops ->
  height (al_chain a) + height ops < two64 -> absRun hash hs_hash a ops = Some (a', answers) ->
  exists l', runOps ops l = Done answers l' /\ ledgerRel l' a'.
Proof.
  induction ops as [|op ops IH]; intros l a a' answers Hr Hwf Hlen; cbn [absRun runOps].
  - intros [= <- <-]. by exists l.
  - apply Forall_cons in Hwf as [Hop Hops]. cbn [length] in Hlen.
    destruct (absStep hash hs_hash a op) as [[a1 x]|] eqn:E1; [|done]. cbn [mbind option_bind].
    destruct (absRun hash hs_hash a1 ops) as [[a2 xs]|] eqn:E2; [|done]. intros [= <- <-].
    destruct (step_rel l a op a1 x Hr Hop ltac:(lia) E1) as (l1 & R1 & Hr1).
    pose proof (absStep_height _ _ _ _ E1).
    destruct (IH l1 a1 a2 xs Hr1 Hops ltac:(lia) E2) as (l2 & R2 & Hr2).
    exists l2. split; [|done]. cbv [mbind M_bind]. by rewrite R1, R2.
Qed.

Lemma absRun_height ops : forall (a : absLedger ID) a' answers, absRun hash hs_hash a ops = Some (a', answers) ->
  height (al_chain a') <= height (al_chain a) + height ops.
Proof.
  induction ops as [|op ops IH]; intros a a' answers; cbn [absRun length]; [intros [= <- <-]; lia|].
  destruct (absStep hash hs_hash a op) as [[a1 x]|] eqn:E1; [|done]. cbn [mbind option_bind].
  destruct (absRun hash hs_hash a1 ops) as [[a2 xs]|] eqn:E2; [|done]. intros [= <- <-].
  pose proof (absStep_height _ _ _ _ E1). pose proof (IH _ _ _ E2). lia.
Qed.

(** * State transfer *)

Lemma stored_db db db' chain : stored hash db chain -> healthy db' ->
  contents db' BlockchainCF = contents db BlockchainCF -> contents db' IndexesCF = contents db IndexesCF ->
  stored hash db' chain.
Proof. intros [[] ? ?] Hdb Eb Ei. split; [split|..]; rewrite ?Eb, ?Ei; done. Qed.

(** Applying a delta and committing it. *)
Lemma transferDelta_rel l b id d : ledgerRel l b -> al_id b = None -> st_batch (al_store b) = ∅ ->
  st_tx (al_store b) = ∅ -> admissible d -> IsEmpty d = false ->
  exists l1 l2, Ledger_ApplyStateDelta id d l = Done (Ok tt) l1 /\
    Ledger_CommitStateDelta id l1 = Done (Ok tt) l2 /\
    ledgerRel l2 (b <| al_store := (al_store b)
      <| st_committed := applyDelta (st_committed (al_store b)) d |> |>).
Proof.
  intros [Hst Hsto Hch Hid] Hnone Hb Htx Hd Hne.
  destruct (CommitStateDelta_rel (ldb l) (lstate l) (al_store b) d Hst Hb Hd Hne)
    as (s1 & s2 & db' & E1 & E2 & Hdb' & Hcf & Hclear). destruct (Hclear Htx) as (s3 & E3 & Hst3).
  remember (ClearInMemoryChanges true) as clear eqn:Eclear.
  eexists _, _. split; [|split].
  - unfold Ledger_ApplyStateDelta, checkValidIDBegin, onState. cbv [mbind M_bind get modify].
    rewrite Hid, Hnone. cbn. reflexivity.
  - unfold Ledger_CommitStateDelta, checkValidIDCommitORRollback, onState, resetForNextTxGroup. rewrite <- Eclear.
    cbv [mbind M_bind get modify]. cbn [currentID]. rewrite bool_decide_eq_true_2 by done. cbn [negb].
    unfold ApplyStateDelta, modify in E1. injection E1 as <-. cbn. cbn in E2. rewrite E2. cbn. unfold onState. cbn. rewrite E3. reflexivity.
  - split; cbn.
    + exact Hst3.
    + eapply stored_db; [exact Hsto|done|by apply Hcf..].
    + done.
    + by rewrite Hnone.
Qed.

(** A raw block at the end of the chain. *)
Lemma PutRawBlock_rel l a b : ledgerRel l a -> height (al_chain a) + 1 < two64 -> typedBlock b ->
  block_NonHashData b <> None ->
  exists l', PutRawBlock hash o b (height (al_chain a)) l = Done (Ok tt) l' /\
    ledgerRel l' (a <| al_chain := al_chain a ++ [b] |>).
Proof.
  intros [Hst Hsto Hch Hid] Hlen Hb Hd. pose proof (sto_healthy _ _ _ Hsto) as Hdb.
  destruct (addIndexData_ops o b (height (al_chain a)) (blockHash hash b)
    [PutCF BlockchainCF (encodeBlockNumberDBKey (height (al_chain a))) (blockData b);
     PutCF BlockchainCF blockCountKey (PutUint64 (height (al_chain a) + 1))]) as (addr & Ha & Eops).
  destruct (Write_contents (ldb l) (blockOps hash (height (al_chain a)) b addr) Hdb) as (db' & Ew & Hdb' & Ec).
  assert (persistRawBlock hash o (ldb l) b (height (al_chain a)) (lblockchain l) = Done (Ok db')
    ((lblockchain l) <| size_ := height (al_chain a) + 1 |> <| previousBlockHash := blockHash hash b |>)) as E.
  { unfold persistRawBlock, Block_Bytes. destruct (blockData_ok b Hb) as (-> & _). rewrite (GetHash_blockHash hash b Hb).
    cbv [mbind M_bind get modify]. unfold getSize. destruct Hch as [-> _]. rewrite u64_small by (split; lia).
    rewrite (proj2 (Z.ltb_lt _ _)) by lia. cbn [app]. cbn [when]. rewrite Eops.
    unfold mret, M_ret. by rewrite <- Ew. }
  unfold PutRawBlock, onChain. cbv [mbind M_bind get modify]. rewrite E. eexists. split; [reflexivity|].
  pose proof (batch_split (height (al_chain a)) b addr [] [] Ha ltac:(constructor) ltac:(constructor)) as Hs.
  rewrite !app_nil_r in Hs. cbv zeta in Hs. split; cbn.
  - eapply stateRel_db; [exact Hst|done|]. rewrite Ec. destruct (Hs (contents (ldb l) StateCF)) as (_ & _ & E' & _). exact E'.
  - eapply stored_extend; [exact Hsto|done|done|done|done|exact Ha|by rewrite Ec..].
  - split; cbn; [rewrite length_app; cbn; lia|]. unfold lastHash. by rewrite last_snoc.
  - done.
Qed.

Lemma GetTempStateHash_rel l a : ledgerRel l a ->
  exists l', GetTempStateHash l = Done (Ok (hs_hash (afterBatch (al_store a)))) l' /\ ledgerRel l' a.
Proof.
  intros Hr. destruct (GetHash_rel _ _ _ (lr_state _ _ Hr)) as (s' & E & Hs & _).
  exact (onState_same l a _ _ _ Hr E Hs).
Qed.
End refine.
