(* ===== verification/BucketKeys.v ===== *)
(** core/ledger/statemgmt/buckettree: the shape of the bucket tree (config.go),
    the keys of buckets and data (bucket_key.go, data_key.go) and data nodes
    (data_node.go). *)
From stdpp Require Import base gmap list.
From Stdlib Require Import ZArith Lia.
From Stdlib.Strings Require Import Byte.
From S2P Require Import Prelude GoStd GoBytes LedgerUtil KVStore.

(** * config.go *)

Definition DefaultNumBuckets : Z := 10009.
Definition DefaultMaxGroupingAtEachLevel : Z := 10.

Record config := mkConfig {
  maxGroupingAtEachLevel : Z;
  lowestLevel : Z;
  levelToNumBucketsMap : gmap Z Z;
  hashFunc : bytes -> Z
}.

(** The entries of the configuration map that have the expected type. *)
Record configs := mkConfigs {
  numBuckets : option Z;
  maxGrouping : option Z;
  hashFunction : option (bytes -> Z);
  bucketCacheSize : option Z
}.

(** [fnv.New32a]: FNV-1a, 32 bits. *)
Definition fnvHash (data : bytes) : Z :=
  foldl (fun h b => Z.lxor h (Z_of_byte b) * 16777619 mod 4294967296) 2166136261 data.

(** The loop of [newConfig] that counts the buckets of each level, from the
    lowest one up; division by zero panics. *)
Fixpoint levelLoop (fuel : nat) (maxGroupingAtEachLevel currentLevel numBucketAtCurrentLevel : Z)
    (levelInfoMap : gmap Z Z) : M unit (Z * gmap Z Z) :=
  if numBucketAtCurrentLevel >? 1 then
    match fuel with
    | O => diverge
    | S fuel =>
      if maxGroupingAtEachLevel =? 0 then panic
      else
        let numBucketAtParentLevel := Z.quot numBucketAtCurrentLevel maxGroupingAtEachLevel in
        let numBucketAtParentLevel :=
          if negb (Z.rem numBucketAtCurrentLevel maxGroupingAtEachLevel =? 0)
          then numBucketAtParentLevel + 1 else numBucketAtParentLevel in
        levelLoop fuel maxGroupingAtEachLevel (currentLevel + 1) numBucketAtParentLevel
          (<[currentLevel + 1 := numBucketAtParentLevel]> levelInfoMap)
    end
  else mret (currentLevel, levelInfoMap).

Definition newConfig (fuel : nat) (numBuckets maxGroupingAtEachLevel : Z) (hashFunc : bytes -> Z)
    : M unit config :=
  '(lowest, levelInfoMap) ←
    levelLoop fuel maxGroupingAtEachLevel 0 numBuckets {[0 := numBuckets]};
  mret (mkConfig maxGroupingAtEachLevel lowest
    (kmap (fun k => lowest - k) levelInfoMap) hashFunc).

(** Each round of the loop leaves fewer buckets, so as many rounds as there are
    buckets are enough. *)
Definition initConfig (cs : configs) : M unit config :=
  let n := default DefaultNumBuckets (numBuckets cs) in
  newConfig (Z.to_nat n) n (default DefaultMaxGroupingAtEachLevel (maxGrouping cs))
    (default fnvHash (hashFunction cs)).

(** * bucket_key.go *)

Record bucketKey := mkBucketKey { level : Z; bucketNumber : Z }.

#[export] Instance bucketKey_eq_dec : EqDecision bucketKey.
Proof. solve_decision. Defined.
#[export] Instance bucketKey_countable : Countable bucketKey.
Proof.
  apply (inj_countable' (fun k => (level k, bucketNumber k)) (fun '(l, n) => mkBucketKey l n)).
  by intros [].
Defined.

Section conf.
Variable conf : config.

(** [None] is the panic of the code throughout this section. *)
Definition getNumBuckets (level : Z) : option Z :=
  if (level <? 0) || (level >? lowestLevel conf) then None
  else Some (default 0 (levelToNumBucketsMap conf !! level)).

Definition getNumBucketsAtLowestLevel : option Z := getNumBuckets (lowestLevel conf).

Definition computeParentBucketNumber (bucketNumber : Z) : option Z :=
  let g := maxGroupingAtEachLevel conf in
  if g =? 0 then None
  else
    let parentBucketNumber := Z.quot bucketNumber g in
    Some (if negb (Z.rem bucketNumber g =? 0) then parentBucketNumber + 1 else parentBucketNumber).

Definition newBucketKey (level bucketNumber : Z) : option bucketKey :=
  if (level >? lowestLevel conf) || (level <? 0) then None
  else
    n ← getNumBuckets level;
    if (bucketNumber <? 1) || (bucketNumber >? n) then None
    else Some (mkBucketKey level bucketNumber).

Definition newBucketKeyAtLowestLevel (bucketNumber : Z) : option bucketKey :=
  newBucketKey (lowestLevel conf) bucketNumber.

Definition constructRootBucketKey : option bucketKey := newBucketKey 0 1.

Definition decodeBucketKey (keyBytes : bytes) : option bucketKey :=
  match keyBytes with
  | [] => None
  | _ :: rest =>
      let '(level, numBytesRead) := DecodeVarint rest in
      let '(bucketNumber, _) := DecodeVarint (drop numBytesRead rest) in
      Some (mkBucketKey (i64 level) (i64 bucketNumber))
  end.

Definition getParentKey (k : bucketKey) : option bucketKey :=
  n ← computeParentBucketNumber (bucketNumber k); newBucketKey (level k - 1) n.

Definition bucketKey_equals (k another : bucketKey) : bool :=
  (level k =? level another) && (bucketNumber k =? bucketNumber another).

Definition getChildIndex (k childKey : bucketKey) : option Z :=
  let bucketNumberOfFirstChild := (bucketNumber k - 1) * maxGroupingAtEachLevel conf + 1 in
  let bucketNumberOfLastChild := bucketNumber k * maxGroupingAtEachLevel conf in
  if (bucketNumber childKey <? bucketNumberOfFirstChild)
     || (bucketNumber childKey >? bucketNumberOfLastChild) then None
  else Some (bucketNumber childKey - bucketNumberOfFirstChild).

Definition getChildKey (k : bucketKey) (index : Z) : option bucketKey :=
  let bucketNumberOfFirstChild := (bucketNumber k - 1) * maxGroupingAtEachLevel conf + 1 in
  newBucketKey (level k + 1) (bucketNumberOfFirstChild + index).

Definition getEncodedBytes (k : bucketKey) : bytes :=
  x00 :: EncodeVarint (u64 (level k)) ++ EncodeVarint (u64 (bucketNumber k)).

Definition bucketKey_clone (k : bucketKey) : option bucketKey :=
  newBucketKey (level k) (bucketNumber k).

(** * data_key.go *)

Record dataKey := mkDataKey { dk_bucketKey : bucketKey; compositeKey : bytes }.

Definition newDataKey (chaincodeID key : bytes) : option dataKey :=
  let compositeKey := ConstructCompositeKey chaincodeID key in
  let bucketHash := hashFunc conf compositeKey in
  n ← getNumBucketsAtLowestLevel;
  if n =? 0 then None
  else
    bk ← newBucketKeyAtLowestLevel (Z.rem bucketHash n + 1);
    Some (mkDataKey bk compositeKey).

Definition encodeBucketNumber (bucketNumber : Z) : option bytes :=
  EncodeOrderPreservingVarUint64 (u64 bucketNumber).

Definition decodeBucketNumber (encodedBytes : bytes) : option (Z * nat) :=
  '(bucketNum, bytesConsumed) ← DecodeOrderPreservingVarUint64 encodedBytes;
  Some (i64 bucketNum, bytesConsumed).

Definition minimumPossibleDataKeyBytesFor (k : bucketKey) : option bytes :=
  min ← encodeBucketNumber (bucketNumber k); Some (min ++ [x00]).

Definition minimumPossibleDataKeyBytes (bucketNumber : Z) (chaincodeID key : bytes)
    : option bytes :=
  b ← encodeBucketNumber bucketNumber; Some (b ++ ConstructCompositeKey chaincodeID key).

Definition dataKey_getEncodedBytes (k : dataKey) : option bytes :=
  encodedBytes ← encodeBucketNumber (bucketNumber (dk_bucketKey k));
  Some (encodedBytes ++ compositeKey k).

Definition newDataKeyFromEncodedBytes (encodedBytes : bytes) : option dataKey :=
  '(bucketNum, l) ← decodeBucketNumber encodedBytes;
  bk ← newBucketKeyAtLowestLevel bucketNum;
  Some (mkDataKey bk (drop l encodedBytes)).

(** * data_node.go *)

Record dataNode := mkDataNode { dn_dataKey : dataKey; dn_value : option bytes }.

Definition unmarshalDataNode (k : dataKey) (serializedBytes : option bytes) : dataNode :=
  mkDataNode k serializedBytes.

Definition unmarshalDataNodeFromBytes (keyBytes : bytes) (valueBytes : option bytes)
    : option dataNode :=
  k ← newDataKeyFromEncodedBytes keyBytes; Some (unmarshalDataNode k valueBytes).

Definition getCompositeKey (n : dataNode) : bytes := compositeKey (dn_dataKey n).
Definition dataNode_isDelete (n : dataNode) : bool := IsNil (dn_value n).
Definition getKeyElements (n : dataNode) : option (bytes * bytes) :=
  DecodeCompositeKey (getCompositeKey n).

End conf.

(** * Well-formed configurations *)

Definition numBucketsAt (conf : config) (l : Z) : Z := default 0 (levelToNumBucketsMap conf !! l).

(** Numbers of buckets and of children that fit Go's [int] on any platform. *)
Definition smallInt (z : Z) : Prop := z < 2147483648.

Record wfConfig (conf : config) : Prop := {
  wf_grouping : 2 <= maxGroupingAtEachLevel conf;
  wf_grouping_small : smallInt (maxGroupingAtEachLevel conf);
  wf_lowest : 0 <= lowestLevel conf < 64;
  wf_root : numBucketsAt conf 0 = 1;
  wf_level : forall l, 0 <= l < lowestLevel conf ->
    numBucketsAt conf l =
      (numBucketsAt conf (l + 1) + maxGroupingAtEachLevel conf - 1) / maxGroupingAtEachLevel conf;
  wf_num : forall l, 0 <= l <= lowestLevel conf ->
    1 <= numBucketsAt conf l /\ smallInt (numBucketsAt conf l);
  wf_hash : forall b, 0 <= hashFunc conf b
}.

(** Rounding up, as the code writes it. *)
Lemma ceil_quot n g : 0 <= n -> 0 < g ->
  (if negb (Z.rem n g =? 0) then Z.quot n g + 1 else Z.quot n g) = (n + g - 1) / g.
Proof.
  intros Hn Hg. rewrite Z.quot_div_nonneg, Z.rem_mod_nonneg by lia.
  destruct (Z.eqb_spec (n mod g) 0) as [E|E]; cbn.
  - apply Z.div_unique with (r := g - 1); [lia|]. pose proof (Z.div_mod n g ltac:(lia)). lia.
  - pose proof (Z.mod_pos_bound n g Hg). pose proof (Z.div_mod n g ltac:(lia)).
    apply Z.div_unique with (r := n mod g - 1); lia.
Qed.

Lemma ceil_less n g : 2 <= n -> 2 <= g -> 1 <= (n + g - 1) / g < n.
Proof.
  intros Hn Hg. split.
  - apply Z.div_le_lower_bound; lia.
  - apply Z.div_lt_upper_bound; nia.
Qed.

Lemma ceil_half n g : 2 <= n -> 2 <= g -> 2 * ((n + g - 1) / g) <= n + 1.
Proof.
  intros Hn Hg. pose proof (Z.mul_div_le (n + g - 1) g ltac:(lia)).
  assert ((n + g - 1) / g <= (n + 1) / 2); [|pose proof (Z.mul_div_le (n + 1) 2 ltac:(lia)); lia].
  apply Z.div_le_lower_bound; [lia|]. nia.
Qed.

(** The levels counted so far: each has as many buckets as the one below needs. *)
Definition counted (g n cur num : Z) (info : gmap Z Z) : Prop :=
  0 <= cur /\ info !! 0 = Some n /\ info !! cur = Some num /\
  (forall k, 0 <= k < cur -> exists a b, info !! k = Some a /\ info !! (k + 1) = Some b /\
    2 <= a /\ b = (a + g - 1) / g) /\
  1 <= num /\ (num - 1) * 2 ^ cur < n /\ 2 ^ cur < 2 * n.

Lemma counted_step g n cur num info : 2 <= g -> 2 <= num -> counted g n cur num info ->
  counted g n (cur + 1) ((num + g - 1) / g) (<[cur + 1 := (num + g - 1) / g]> info).
Proof.
  intros Hg Hnum (Hc & H0 & Hcur & Hk & Hn & Hp & Hq).
  pose proof (ceil_less num g Hnum Hg). pose proof (ceil_half num g Hnum Hg).
  split; [lia|]. split; [by rewrite lookup_insert_ne by lia|].
  split; [by rewrite lookup_insert_eq|]. split; [|split; [lia|]].
  - intros k Hk'. destruct (decide (k = cur)) as [-> |Hne].
    + exists num, ((num + g - 1) / g). rewrite lookup_insert_ne, lookup_insert_eq by lia. done.
    + destruct (Hk k ltac:(lia)) as (a & b & Ha & Hb & ?). exists a, b.
      rewrite !lookup_insert_ne by lia. done.
  - rewrite Z.pow_add_r by lia. change (2 ^ 1) with 2.
    pose proof (Z.pow_pos_nonneg 2 cur ltac:(lia) ltac:(lia)). nia.
Qed.

Lemma levelLoop_counts fuel g n cur num info : 2 <= g -> counted g n cur num info ->
  (Z.to_nat num <= S fuel)%nat ->
  exists lowest info', levelLoop fuel g cur num info tt = Done (lowest, info') tt /\
    counted g n lowest 1 info'.
Proof.
  intros Hg. revert cur num info. induction fuel as [|fuel IH]; intros cur num info Hc Hf;
    cbn [levelLoop]; destruct (Z.gtb_spec num 1).
  - lia.
  - assert (num = 1) as -> by (destruct Hc as (_ & _ & _ & _ & ? & _); lia). by eauto.
  - destruct (Z.eqb_spec g 0); [lia|]. rewrite ceil_quot by lia.
    pose proof (ceil_less num g ltac:(lia) Hg).
    apply IH; [apply counted_step; [done|lia|done]|lia].
  - assert (num = 1) as -> by (destruct Hc as (_ & _ & _ & _ & ? & _); lia). by eauto.
Qed.

(** Every bucket of the level below fits in the groups of the level above. *)
Lemma newConfig_wf n g h : 1 <= n -> smallInt n -> 2 <= g -> smallInt g -> (forall b, 0 <= h b) ->
  exists conf, newConfig (Z.to_nat n) n g h tt = Done conf tt /\ wfConfig conf /\
    maxGroupingAtEachLevel conf = g /\ numBucketsAt conf (lowestLevel conf) = n /\
    hashFunc conf = h.
Proof.
  intros Hn Hns Hg Hgs Hh.
  destruct (levelLoop_counts (Z.to_nat n) g n 0 n {[0 := n]}) as (lowest & info & E & Hc); [done| |lia|].
  { split; [lia|]. split; [apply lookup_singleton_eq|]. split; [apply lookup_singleton_eq|].
    split; [intros; lia|]. split; [lia|]. change (2 ^ 0) with 1. lia. }
  unfold newConfig. cbv [mbind M_bind]. rewrite E. eexists. split; [reflexivity|].
  destruct Hc as (Hl & H0 & H1 & Hk & _ & _ & Hp).
  assert (lowest < 64) as Hl64.
  { destruct (Z.lt_ge_cases lowest 64); [done|]. pose proof (Z.pow_le_mono_r 2 64 lowest ltac:(lia) ltac:(lia)).
    unfold smallInt in *. change (2 ^ 64) with 18446744073709551616 in *. lia. }
  assert (forall l, (kmap (fun k => lowest - k) info : gmap Z Z) !! l = info !! (lowest - l)) as Hmap.
  { intros l. replace l with (lowest - (lowest - l)) at 1 by lia. apply lookup_kmap.
    intros a b ?. lia. }
  assert (forall j, (j <= Z.to_nat lowest)%nat ->
    exists a, info !! Z.of_nat j = Some a /\ 1 <= a <= n) as Hbound.
  { induction j as [|j IHj]; intros Hj; [exists n; split; [done|lia]|].
    destruct IHj as (a & Ha & ?); [lia|].
    destruct (Hk (Z.of_nat j) ltac:(lia)) as (a' & b & Ha' & Hb & H2 & ->).
    rewrite Ha in Ha'. injection Ha' as <-. pose proof (ceil_less a g H2 Hg).
    rewrite Nat2Z.inj_succ. unfold Z.succ. eexists. split; [exact Hb|lia]. }
  split; [|split; [done|]].
  2: { unfold numBucketsAt. cbn. rewrite Hmap, Z.sub_diag, H0. done. }
  constructor; cbn; unfold numBucketsAt; cbn; try done; try lia.
  - by rewrite Hmap, Z.sub_0_r, H1.
  - intros l Hl'. rewrite !Hmap. destruct (Hk (lowest - (l + 1)) ltac:(lia)) as (a & b & Ha & Hb & _ & E').
    replace (lowest - (l + 1) + 1) with (lowest - l) in Hb by lia. by rewrite Ha, Hb.
  - intros l Hl'. rewrite Hmap. destruct (Hbound (Z.to_nat (lowest - l)) ltac:(lia)) as (a & Ha & ?).
    rewrite Z2Nat.id in Ha by lia. rewrite Ha. unfold smallInt in *. cbn. lia.
Qed.

(** * Keys under a well-formed configuration *)

Section wf.
Context (conf : config) (Hwf : wfConfig conf).
Abbreviation g := (maxGroupingAtEachLevel conf).

Definition validKey (k : bucketKey) : Prop :=
  0 <= level k <= lowestLevel conf /\ 1 <= bucketNumber k <= numBucketsAt conf (level k).

(** The bucket of a key of the data. *)
Definition bucketOf (ck : bytes) : Z :=
  hashFunc conf ck mod numBucketsAt conf (lowestLevel conf) + 1.

Definition parentNumber (n : Z) : Z := (n - 1) / g + 1.
Definition parentOf (k : bucketKey) : bucketKey :=
  mkBucketKey (level k - 1) (parentNumber (bucketNumber k)).
Definition childNumber (n : Z) (i : nat) : Z := (n - 1) * g + 1 + Z.of_nat i.
Definition childOf (k : bucketKey) (i : nat) : bucketKey :=
  mkBucketKey (level k + 1) (childNumber (bucketNumber k) i).
Definition childIndex (n : Z) : nat := Z.to_nat ((n - 1) mod g).

Lemma getNumBuckets_wf l : 0 <= l <= lowestLevel conf ->
  getNumBuckets conf l = Some (numBucketsAt conf l).
Proof.
  intros. unfold getNumBuckets. destruct (Z.ltb_spec l 0); [lia|].
  destruct (Z.gtb_spec l (lowestLevel conf)); [lia|]. done.
Qed.

Lemma newBucketKey_valid l n : validKey (mkBucketKey l n) ->
  newBucketKey conf l n = Some (mkBucketKey l n).
Proof.
  intros [Hl Hn]. cbn in *. unfold newBucketKey.
  destruct (Z.gtb_spec l (lowestLevel conf)); [lia|]. destruct (Z.ltb_spec l 0); [lia|]. cbn.
  rewrite getNumBuckets_wf by done. cbn. destruct (Z.ltb_spec n 1); [lia|].
  by destruct (Z.gtb_spec n (numBucketsAt conf l)); [lia|].
Qed.

Lemma newBucketKey_Some l n k : newBucketKey conf l n = Some k -> k = mkBucketKey l n /\ validKey k.
Proof.
  unfold newBucketKey. destruct (Z.gtb_spec l (lowestLevel conf)); [done|].
  destruct (Z.ltb_spec l 0); [done|]. cbn. rewrite getNumBuckets_wf by lia. cbn.
  destruct (Z.ltb_spec n 1); [done|]. destruct (Z.gtb_spec n (numBucketsAt conf l)); [done|].
  intros [= <-]. split; [done|]. split; cbn; lia.
Qed.

Lemma validKey_small k : validKey k -> is_u64 (level k) /\ is_u64 (bucketNumber k) /\
  bucketNumber k < 2147483648 /\ level k < 64.
Proof.
  intros [Hl Hn]. pose proof (wf_lowest conf Hwf). destruct (wf_num conf Hwf _ Hl) as [_ Hs].
  unfold smallInt, is_u64, two64 in *. lia.
Qed.

Lemma parentOf_valid k : validKey k -> 1 <= level k -> validKey (parentOf k).
Proof.
  intros [Hl Hn] H1. pose proof (wf_grouping conf Hwf). split; cbn; [lia|].
  rewrite (wf_level conf Hwf) by lia. replace (level k - 1 + 1) with (level k) by lia.
  unfold parentNumber. split; [pose proof (Z.div_pos (bucketNumber k - 1) g); lia|].
  replace (numBucketsAt conf (level k) + g - 1) with (numBucketsAt conf (level k) - 1 + 1 * g) by lia.
  rewrite Z.div_add by lia. pose proof (Z.div_le_mono (bucketNumber k - 1)
    (numBucketsAt conf (level k) - 1) g ltac:(lia) ltac:(lia)). lia.
Qed.

Lemma getParentKey_wf k : validKey k -> 1 <= level k -> getParentKey conf k = Some (parentOf k).
Proof.
  intros Hk H1. pose proof (wf_grouping conf Hwf). destruct Hk as [Hl Hn] eqn:Hk'.
  unfold getParentKey, computeParentBucketNumber. destruct (Z.eqb_spec g 0); [lia|]. cbn.
  rewrite ceil_quot by lia.
  replace (bucketNumber k + g - 1) with (bucketNumber k - 1 + 1 * g) by lia.
  rewrite Z.div_add by lia. apply newBucketKey_valid. by apply parentOf_valid.
Qed.

Lemma childIndex_lt n : (childIndex n < Z.to_nat g)%nat.
Proof.
  pose proof (wf_grouping conf Hwf). unfold childIndex.
  pose proof (Z.mod_pos_bound (n - 1) g ltac:(lia)). lia.
Qed.

(** Going up and down again. *)
Lemma childNumber_parent n : childNumber (parentNumber n) (childIndex n) = n.
Proof.
  pose proof (wf_grouping conf Hwf). unfold childNumber, parentNumber, childIndex.
  pose proof (Z.mod_pos_bound (n - 1) g ltac:(lia)).
  pose proof (Z.div_mod (n - 1) g ltac:(lia)). lia.
Qed.

Lemma childOf_parentOf k : childOf (parentOf k) (childIndex (bucketNumber k)) = k.
Proof.
  destruct k as [l n]. unfold childOf, parentOf. cbn. rewrite childNumber_parent. f_equal. lia.
Qed.

Lemma parentNumber_child n i : (i < Z.to_nat g)%nat ->
  parentNumber (childNumber n i) = n /\ childIndex (childNumber n i) = i.
Proof.
  intros Hi. pose proof (wf_grouping conf Hwf). unfold parentNumber, childIndex, childNumber.
  replace ((n - 1) * g + 1 + Z.of_nat i - 1) with (Z.of_nat i + (n - 1) * g) by lia.
  rewrite Z.div_add, Z_mod_plus_full, Z.div_small, Z.mod_small by lia. lia.
Qed.

Lemma getChildIndex_wf k : getChildIndex conf (parentOf k) k = Some (Z.of_nat (childIndex (bucketNumber k))).
Proof.
  pose proof (wf_grouping conf Hwf). pose proof (childNumber_parent (bucketNumber k)) as E.
  pose proof (childIndex_lt (bucketNumber k)).
  unfold childNumber in E. unfold getChildIndex. cbn.
  destruct (Z.ltb_spec (bucketNumber k) ((parentNumber (bucketNumber k) - 1) * g + 1)); [lia|].
  destruct (Z.gtb_spec (bucketNumber k) (parentNumber (bucketNumber k) * g)); [lia|]. cbn. f_equal. lia.
Qed.

Lemma getChildKey_wf k i : validKey (childOf k i) -> getChildKey conf k (Z.of_nat i) = Some (childOf k i).
Proof. intros. by apply newBucketKey_valid. Qed.

Lemma bucketOf_range ck : 1 <= bucketOf ck <= numBucketsAt conf (lowestLevel conf).
Proof.
  unfold bucketOf. pose proof (wf_lowest conf Hwf).
  destruct (wf_num conf Hwf (lowestLevel conf)); [lia|].
  pose proof (Z.mod_pos_bound (hashFunc conf ck) (numBucketsAt conf (lowestLevel conf)) ltac:(lia)). lia.
Qed.

Definition bucketKeyOf (ck : bytes) : bucketKey := mkBucketKey (lowestLevel conf) (bucketOf ck).

Lemma lowest_valid n : 1 <= n <= numBucketsAt conf (lowestLevel conf) ->
  validKey (mkBucketKey (lowestLevel conf) n).
Proof. intros. pose proof (wf_lowest conf Hwf). split; cbn; lia. Qed.

Lemma bucketKeyOf_valid ck : validKey (bucketKeyOf ck).
Proof. apply lowest_valid, bucketOf_range. Qed.

Lemma newDataKey_wf c k :
  newDataKey conf c k =
    Some (mkDataKey (bucketKeyOf (ConstructCompositeKey c k)) (ConstructCompositeKey c k)).
Proof.
  pose proof (wf_lowest conf Hwf). destruct (wf_num conf Hwf (lowestLevel conf)) as [Hn _]; [lia|].
  unfold newDataKey, getNumBucketsAtLowestLevel. rewrite getNumBuckets_wf by lia. cbn.
  destruct (Z.eqb_spec (numBucketsAt conf (lowestLevel conf)) 0); [lia|].
  rewrite Z.rem_mod_nonneg by (try apply (wf_hash conf Hwf); lia).
  unfold newBucketKeyAtLowestLevel. rewrite newBucketKey_valid; [done|apply bucketKeyOf_valid].
Qed.

(** ** Database keys *)

Lemma opv_first n : is_u64 n -> 1 <= n -> exists b rest, opv n = b :: rest /\ 1 <= Z_of_byte b <= 8.
Proof.
  intros Hu Hn. unfold opv. eexists _, _. split; [reflexivity|]. rewrite opv_size.
  pose proof (significant_length n). pose proof (fromBE_significant n Hu) as E.
  destruct (significant n); [cbn in E; lia|]. cbn [length] in *. lia.
Qed.

(** The key of a data entry in the database. *)
Definition dataRawKey (b : Z) (ck : bytes) : bytes := opv b ++ ck.

Lemma encodeBucketNumber_opv n : is_u64 n -> encodeBucketNumber n = Some (opv n).
Proof. intros. unfold encodeBucketNumber. by rewrite u64_small, Encode_opv. Qed.

Lemma dataKey_getEncodedBytes_wf k : validKey (dk_bucketKey k) ->
  dataKey_getEncodedBytes k = Some (dataRawKey (bucketNumber (dk_bucketKey k)) (compositeKey k)).
Proof.
  intros Hk. unfold dataKey_getEncodedBytes. rewrite encodeBucketNumber_opv; [done|].
  apply (validKey_small _ Hk).
Qed.

Lemma newDataKeyFromEncodedBytes_wf n ck : 1 <= n <= numBucketsAt conf (lowestLevel conf) ->
  newDataKeyFromEncodedBytes conf (dataRawKey n ck) =
    Some (mkDataKey (mkBucketKey (lowestLevel conf) n) ck).
Proof.
  intros Hn%lowest_valid. pose proof (validKey_small _ Hn) as (_ & Hu & Hs & _). cbn in Hu, Hs.
  unfold newDataKeyFromEncodedBytes, decodeBucketNumber, dataRawKey.
  rewrite Decode_opv by done. cbn [mbind option_bind].
  assert (i64 n = n) as ->.
  { unfold i64, is_u64, two64 in *. rewrite Z.mod_small by lia. lia. }
  unfold newBucketKeyAtLowestLevel. rewrite newBucketKey_valid by done. cbn [mbind option_bind].
  by rewrite drop_app_length.
Qed.

(** Data keys sort by bucket, then by composite key; they follow the keys of the
    bucket nodes, which start with a zero byte. *)
Lemma dataRawKey_compare n m a b : is_u64 n -> is_u64 m ->
  bytesCompare (dataRawKey n a) (dataRawKey m b) =
    match n ?= m with Eq => bytesCompare a b | c => c end.
Proof. apply opv_compare. Qed.

Lemma dataRawKey_inj n m a b : is_u64 n -> is_u64 m ->
  dataRawKey n a = dataRawKey m b -> n = m /\ a = b.
Proof.
  intros Hn Hm E. apply bytesCompare_eq in E. rewrite dataRawKey_compare in E by done.
  destruct (Z.compare_spec n m); [|done..]. apply bytesCompare_eq in E. done.
Qed.

Lemma dataRawKey_not_node n a rest : is_u64 n -> 1 <= n -> dataRawKey n a <> x00 :: rest.
Proof.
  intros Hu Hn. destruct (opv_first n Hu Hn) as (b & r & E & Hb). unfold dataRawKey. rewrite E.
  cbn. intros [= -> _]. cbn in Hb. lia.
Qed.

Lemma node_lt_data rest n a : is_u64 n -> 1 <= n -> bytesLt (x00 :: rest) (dataRawKey n a).
Proof.
  intros Hu Hn. destruct (opv_first n Hu Hn) as (b & r & E & Hb). unfold bytesLt, dataRawKey.
  rewrite E. cbn [app bytesCompare]. change (Z_of_byte x00) with 0.
  by destruct (Z.compare_spec 0 (Z_of_byte b)); [lia|..|lia].
Qed.

(** [decodeBucketKey] inverts [getEncodedBytes]. *)
Lemma decodeBucketKey_encode k : validKey k -> decodeBucketKey (getEncodedBytes k) = Some k.
Proof.
  intros Hk. destruct (validKey_small _ Hk) as (Hl & Hn & Hs & Hs').
  unfold decodeBucketKey, getEncodedBytes. rewrite !u64_small by done.
  rewrite DecodeVarint_EncodeVarint by done.
  rewrite drop_app_length. rewrite <- (app_nil_r (EncodeVarint (bucketNumber k))).
  rewrite DecodeVarint_EncodeVarint by done. f_equal. unfold is_u64, two64 in *.
  assert (forall z, 0 <= z < 2147483648 -> i64 z = z) as Hi.
  { intros z Hz. unfold i64, two64. rewrite Z.mod_small by lia. lia. }
  rewrite !Hi by lia. by destruct k.
Qed.

Lemma getEncodedBytes_inj k k' : validKey k -> validKey k' ->
  getEncodedBytes k = getEncodedBytes k' -> k = k'.
Proof.
  intros Hk Hk' E. apply decodeBucketKey_encode in Hk, Hk'. rewrite E in Hk. congruence.
Qed.

End wf.
