(* ===== verification/BucketNode.v ===== *)
(** core/ledger/statemgmt/buckettree: nodes of the tree (bucket_node.go), the
    nodes a batch of changes touches (bucket_tree_delta.go), the changed data
    by bucket (data_nodes_delta.go) and the hash of a bucket (bucket_hash.go). *)
From stdpp Require Import base gmap list sorting.
From Stdlib Require Import ZArith Lia.
From Stdlib.Strings Require Import Byte.
From S2P Require Import Prelude GoStd GoBytes LedgerUtil KVStore StateDelta BucketKeys.

(** A loop whose body may panic. *)
Fixpoint foldO {A B} (f : A -> B -> option A) (a : A) (l : list B) : option A :=
  match l with
  | [] => Some a
  | b :: l => a ← f a b; foldO f a l
  end.

(** [l[i] = x]; out of range panics. *)
Definition setAt {A} (l : list A) (i : Z) (x : A) : option (list A) :=
  if (i <? 0) || (i >=? Z.of_nat (length l)) then None else Some (<[Z.to_nat i := x]> l).

(** * bucket_node.go *)

(** A nil slice of flags is the empty list. *)
Record bucketNode := mkBucketNode {
  bn_bucketKey : bucketKey;
  childrenCryptoHash : list (option bytes);
  childrenUpdated : list bool;
  markedForDeletion : bool
}.

#[export] Instance bucketNode_eta : Eta bucketNode := fun n =>
  mkBucketNode (bn_bucketKey n) (childrenCryptoHash n) (childrenUpdated n) (markedForDeletion n).

(** The nodes of a delta by level and number; changed data by bucket. *)
Abbreviation bucketTreeDelta := (gmap Z (gmap Z bucketNode)).
Abbreviation dataNodesDelta := (gmap bucketKey (list dataNode)).

(** The number of rounds of [for i := 0; i < max; i++]. *)
Definition groupSize (conf : config) : nat := Z.to_nat (maxGroupingAtEachLevel conf).

Section nodes.
Context (conf : config) (cryptoHash : bytes -> bytes).

(** [make] panics on a negative length. *)
Definition newBucketNode (k : bucketKey) : option bucketNode :=
  if maxGroupingAtEachLevel conf <? 0 then None
  else Some (mkBucketNode k (replicate (groupSize conf) None) (replicate (groupSize conf) false) false).

Fixpoint unmarshalChildren (n : nat) (buffer : bytes) : option (list (option bytes)) :=
  match n with
  | O => Some []
  | S n =>
      '(childCryptoHash, buffer) ← bufDecodeRawBytes buffer;
      rest ← unmarshalChildren n buffer;
      Some ((if negb (IsNil (Some childCryptoHash)) then Some childCryptoHash else None) :: rest)
  end.

Definition unmarshalBucketNode (k : bucketKey) (serializedBytes : bytes) : option bucketNode :=
  node ← newBucketNode k;
  children ← unmarshalChildren (groupSize conf) serializedBytes;
  Some (node <| childrenCryptoHash := children |>).

(** The loop reads the first [max] entries; a shorter slice panics. *)
Definition bucketNode_marshal (node : bucketNode) : option bytes :=
  if (length (childrenCryptoHash node) <? groupSize conf)%nat then None
  else Some (concat ((fun h => encodeRawBytes (default [] h))
               <$> take (groupSize conf) (childrenCryptoHash node))).

Definition setChildCryptoHash (node : bucketNode) (childKey : bucketKey) (hash : option bytes)
    : option bucketNode :=
  i ← getChildIndex conf (bn_bucketKey node) childKey;
  children ← setAt (childrenCryptoHash node) i hash;
  updated ← setAt (childrenUpdated node) i true;
  Some (node <| childrenCryptoHash := children |> <| childrenUpdated := updated |>).

Definition mergeChild (updated : list bool) (children : list (option bytes))
    (entry : nat * option bytes) : option (list (option bytes)) :=
  let '(i, childCryptoHash) := entry in
  u ← updated !! i;
  if (u : bool) then Some children
  else
    h ← children !! i;
    Some (if IsNil h then <[i := childCryptoHash]> children else children).

Definition mergeBucketNode (node another : bucketNode) : option bucketNode :=
  if negb (bucketKey_equals (bn_bucketKey node) (bn_bucketKey another)) then None
  else
    children ← foldO (mergeChild (childrenUpdated node)) (childrenCryptoHash node)
                 (imap pair (childrenCryptoHash another));
    Some (node <| childrenCryptoHash := children |>).

(** The loop over the children: their hashes joined and counted.  The key of a
    child is computed for the log message, which panics on an invalid key. *)
Definition hashChild (k : bucketKey) (acc : bytes * Z) (entry : nat * option bytes)
    : option (bytes * Z) :=
  let '(cryptoHashContent, numChildren) := acc in
  let '(i, childCryptoHash) := entry in
  if NotNil childCryptoHash then
    _ ← getChildKey conf k (Z.of_nat i);
    Some (cryptoHashContent ++ default [] childCryptoHash, numChildren + 1)
  else Some acc.

Definition computeCryptoHash (node : bucketNode) : option (option bytes * bucketNode) :=
  '(cryptoHashContent, numChildren) ←
    foldO (hashChild (bn_bucketKey node)) ([], 0) (imap pair (childrenCryptoHash node));
  if numChildren =? 0 then Some (None, node <| markedForDeletion := true |>)
  else if numChildren =? 1 then Some (Some cryptoHashContent, node)
  else Some (Some (cryptoHash cryptoHashContent), node).

(** * bucket_tree_delta.go *)

Definition newBucketTreeDelta : bucketTreeDelta := ∅.

Definition getNode (d : bucketTreeDelta) (k : bucketKey) : option bucketNode :=
  byBucketNumber ← d !! level k; byBucketNumber !! bucketNumber k.

(** A change through the pointer the delta holds. *)
Definition putNode (d : bucketTreeDelta) (k : bucketKey) (node : bucketNode) : bucketTreeDelta :=
  <[level k := <[bucketNumber k := node]> (default ∅ (d !! level k))]> d.

Definition getOrCreateBucketNode (d : bucketTreeDelta) (k : bucketKey)
    : option (bucketNode * bucketTreeDelta) :=
  match getNode d k with
  | Some node => Some (node, d)
  | None => node ← newBucketNode k; Some (node, putNode d k node)
  end.

Definition bucketTreeDelta_isEmpty (d : bucketTreeDelta) : bool := bool_decide (size d = O).

Definition getBucketNodesAt (o : mapOrder) (d : bucketTreeDelta) (level : Z) : list bucketNode :=
  match d !! level with
  | None => []
  | Some byBucketNumber => (ord o 3 byBucketNumber).*2
  end.

Definition getRootNode (o : mapOrder) (d : bucketTreeDelta) : option bucketNode :=
  head (getBucketNodesAt o d 0).

(** * data_nodes_delta.go *)

Definition dataNodeLe (x y : dataNode) : Prop := bytesLe (getCompositeKey x) (getCompositeKey y).

#[export] Instance dataNodeLe_dec : RelDecision dataNodeLe.
Proof. intros x y. unfold dataNodeLe. apply _. Defined.

Definition add (d : dataNodesDelta) (chaincodeID key : bytes) (value : option bytes)
    : option dataNodesDelta :=
  k ← newDataKey conf chaincodeID key;
  let node := mkDataNode k value in
  Some (<[dk_bucketKey k := default [] (d !! dk_bucketKey k) ++ [node]]> d).

(** [sort.Sort] leaves the nodes in increasing order of their composite keys;
    the nodes of a bucket have distinct ones. *)
Definition newDataNodesDelta (o : mapOrder) (stateDelta : StateDelta) : option dataNodesDelta :=
  d ← foldO (fun d chaincodeID =>
        foldO (fun d '(key, updatedValue) =>
          add d chaincodeID key
            (if RollBackwards stateDelta then GetPreviousValue updatedValue
             else GetValue updatedValue))
          d (ord o 1 (default ∅ (GetUpdates stateDelta chaincodeID))))
        ∅ (GetUpdatedChaincodeIds o stateDelta false);
  Some (merge_sort dataNodeLe <$> (d : dataNodesDelta)).

Definition getAffectedBuckets (o : mapOrder) (d : dataNodesDelta) : option (list bucketKey) :=
  mapM (bucketKey_clone conf) (ord o 2 d).*1.

Definition getSortedDataNodesFor (d : dataNodesDelta) (k : bucketKey) : list dataNode :=
  default [] (d !! k).

(** * bucket_hash.go *)

Record bucketHashCalculator := mkCalculator {
  currentChaincodeID : bytes;
  calc_dataNodes : list dataNode;
  hashingData : bytes
}.

#[export] Instance calculator_eta : Eta bucketHashCalculator := fun c =>
  mkCalculator (currentChaincodeID c) (calc_dataNodes c) (hashingData c).

Definition newBucketHashCalculator : bucketHashCalculator := mkCalculator [] [] [].

Definition appendSize (c : bucketHashCalculator) (size : nat) : bucketHashCalculator :=
  c <| hashingData := hashingData c ++ EncodeVarint (Z.of_nat size) |>.

Definition appendSizeAndData (c : bucketHashCalculator) (b : bytes) : bucketHashCalculator :=
  let c := appendSize c (length b) in c <| hashingData := hashingData c ++ b |>.

Definition appendCurrentChaincodeData (c : bucketHashCalculator) : option bucketHashCalculator :=
  if bool_decide (currentChaincodeID c = []) then Some c
  else
    let c := appendSizeAndData c (currentChaincodeID c) in
    let c := appendSize c (length (calc_dataNodes c)) in
    foldO (fun c node =>
      '(_, key) ← getKeyElements node;
      Some (appendSizeAndData (appendSizeAndData c key) (default [] (dn_value node))))
      c (calc_dataNodes c).

Definition addNextNode (c : bucketHashCalculator) (node : dataNode) : option bucketHashCalculator :=
  '(chaincodeID, _) ← getKeyElements node;
  c ← (if bool_decide (chaincodeID = currentChaincodeID c) then Some c
       else
         c ← appendCurrentChaincodeData c;
         Some (c <| currentChaincodeID := chaincodeID |> <| calc_dataNodes := [] |>));
  Some (c <| calc_dataNodes := calc_dataNodes c ++ [node] |>).

Definition calculator_computeCryptoHash (c : bucketHashCalculator) : option (option bytes) :=
  c ← (if bool_decide (currentChaincodeID c = []) then Some c
       else
         c ← appendCurrentChaincodeData c;
         Some (c <| currentChaincodeID := [] |> <| calc_dataNodes := [] |>));
  Some (if IsNil (Some (hashingData c)) then None else Some (cryptoHash (hashingData c))).

(** * computeDataNodesCryptoHash, state_impl.go *)

Definition addUnlessDelete (c : bucketHashCalculator) (node : dataNode)
    : option bucketHashCalculator :=
  if dataNode_isDelete node then Some c else addNextNode c node.

(** The two sorted lists merged; an updated node replaces the existing one. *)
Fixpoint mergeLoop (updatedNodes : list dataNode) : list dataNode -> bucketHashCalculator ->
    option bucketHashCalculator :=
  match updatedNodes with
  | [] => fun existingNodes c => foldO addUnlessDelete c existingNodes
  | updatedNode :: updatedRest =>
      fix inner existingNodes c :=
        match existingNodes with
        | [] => foldO addUnlessDelete c (updatedNode :: updatedRest)
        | existingNode :: existingRest =>
            match bytesCompare (getCompositeKey updatedNode) (getCompositeKey existingNode) with
            | Lt => c ← addUnlessDelete c updatedNode;
                    mergeLoop updatedRest (existingNode :: existingRest) c
            | Eq => c ← addUnlessDelete c updatedNode; mergeLoop updatedRest existingRest c
            | Gt => c ← addUnlessDelete c existingNode; inner existingRest c
            end
        end
  end.

Definition computeDataNodesCryptoHash (updatedNodes existingNodes : list dataNode)
    : option (option bytes) :=
  c ← mergeLoop updatedNodes existingNodes newBucketHashCalculator;
  calculator_computeCryptoHash c.

End nodes.
