(* ===== verification/BucketHash.v ===== *)
(** The hash of a bucket, bucket_hash.go and computeDataNodesCryptoHash of
    state_impl.go: the calculator hashes the data grouped by chaincode, the
    grouped encoding determines the data, and merging the changes into the
    stored nodes gives the hash of the changed bucket. *)
From stdpp Require Import base gmap list sorting.
From Stdlib Require Import ZArith Lia.
From Stdlib.Strings Require Import Byte.
From S2P Require Import Prelude GoStd GoBytes LedgerUtil KVStore StateDelta BucketKeys BucketNode.

(** * What is hashed *)

(** An entry of a bucket: chaincode, key, value. *)
Abbreviation entry := (bytes * (bytes * bytes))%type.
Abbreviation group := (bytes * list (bytes * bytes))%type.

(** A run of entries of one chaincode, in front of the groups that follow. *)
Definition joinGroup (g : group) (gs : list group) : list group :=
  match gs with
  | (c, kvs) :: gs' => if bool_decide (g.1 = c) then (c, g.2 ++ kvs) :: gs' else g :: gs
  | [] => [g]
  end.

Definition groupEntries (l : list entry) : list group :=
  foldr (fun e gs => joinGroup (e.1, [e.2]) gs) [] l.

Definition entryContent (kv : bytes * bytes) : bytes := encodeRawBytes kv.1 ++ encodeRawBytes kv.2.

(** Data of the chaincode with the empty name is left out. *)
Definition groupContent (g : group) : bytes :=
  if bool_decide (g.1 = []) then []
  else encodeRawBytes g.1 ++ EncodeVarint (Z.of_nat (length g.2)) ++ concat (entryContent <$> g.2).

Definition bucketContent (l : list entry) : bytes := concat (groupContent <$> groupEntries l).

(** The entry of a data node. *)
Definition nodeEntry (node : dataNode) : option entry :=
  '(chaincodeID, key) ← getKeyElements node; Some (chaincodeID, (key, default [] (dn_value node))).

(** * The calculator *)

(** The calculator holds nodes of its current chaincode. *)
Definition holds (c : bucketHashCalculator) (kvs : list (bytes * bytes)) : Prop :=
  Forall2 (fun node kv => nodeEntry node = Some (currentChaincodeID c, kv)) (calc_dataNodes c) kvs.

Lemma foldO_app {A B} (f : A -> B -> option A) a l k :
  foldO f a (l ++ k) = a ← foldO f a l; foldO f a k.
Proof. revert a. induction l as [|x l IH]; intros a; [done|]. cbn. destruct (f a x); cbn; [apply IH|done]. Qed.

Lemma appendSizeAndData_hashing c b :
  appendSizeAndData c b = c <| hashingData := hashingData c ++ encodeRawBytes b |>.
Proof. destruct c. unfold appendSizeAndData, appendSize, encodeRawBytes. cbn. by rewrite app_assoc. Qed.

Lemma append_nodes c nodes cc kvs :
  Forall2 (fun node kv => nodeEntry node = Some (cc, kv)) nodes kvs ->
  foldO (fun c node => '(_, key) ← getKeyElements node;
      Some (appendSizeAndData (appendSizeAndData c key) (default [] (dn_value node)))) c nodes =
    Some (c <| hashingData := hashingData c ++ concat (entryContent <$> kvs) |>).
Proof.
  intros Hn. revert c. induction Hn as [|node [k v] nodes kvs E Hn IH]; intros c; cbn [foldO].
  { cbn. rewrite app_nil_r. by destruct c. }
  unfold nodeEntry in E. destruct (getKeyElements node) as [[c' k']|]; [|done].
  cbn in E. injection E as -> -> E. cbn [mbind option_bind]. rewrite IH, E.
  rewrite !appendSizeAndData_hashing. cbn. unfold entryContent. cbn. by rewrite !app_assoc.
Qed.

Lemma appendCurrent_content c kvs : holds c kvs ->
  appendCurrentChaincodeData c =
    Some (c <| hashingData := hashingData c ++ groupContent (currentChaincodeID c, kvs) |>).
Proof.
  intros Hc. pose proof (Forall2_length _ _ _ Hc) as El.
  unfold appendCurrentChaincodeData, groupContent. cbn [fst snd].
  case_bool_decide as E; [rewrite app_nil_r; by destruct c|].
  erewrite append_nodes; [|destruct c; exact Hc]. rewrite appendSizeAndData_hashing.
  unfold appendSize. destruct c. cbn in *. by rewrite El, <- !app_assoc.
Qed.

(** What the calculator hashes once the nodes [l] are added. *)
Lemma addNodes_content l c kvs nodes : holds c kvs -> Forall2 (fun node e => nodeEntry node = Some e) nodes l ->
  exists c' kvs', foldO addNextNode c nodes = Some c' /\ holds c' kvs' /\
    hashingData c' ++ groupContent (currentChaincodeID c', kvs') =
      hashingData c ++ concat (groupContent <$> joinGroup (currentChaincodeID c, kvs) (groupEntries l)).
Proof.
  intros Hc Hl. revert c kvs Hc. induction Hl as [|node [cc kv] nodes l E Hl IH]; intros c kvs Hc.
  { exists c, kvs. split; [done|]. split; [done|]. cbn. by rewrite app_nil_r. }
  cbn [foldO groupEntries foldr fst snd]. fold (groupEntries l).
  assert (exists k, getKeyElements node = Some (cc, k)) as [k Ek].
  { unfold nodeEntry in E. destruct (getKeyElements node) as [[a b]|]; [|done].
    cbn in E. injection E as -> _. eauto. }
  unfold addNextNode. rewrite Ek. cbn [mbind option_bind].
  case_bool_decide as Hcc; cbn [mbind option_bind].
  - destruct (IH (c <| calc_dataNodes := calc_dataNodes c ++ [node] |>) (kvs ++ [kv]))
      as (c' & kvs' & E' & Hh & E2).
    { unfold holds. cbn. apply Forall2_app; [done|]. constructor; [|done]. by rewrite E, Hcc. }
    exists c', kvs'. split; [exact E'|]. split; [done|]. rewrite E2. cbn. f_equal. f_equal. f_equal. subst cc.
    destruct (groupEntries l) as [|[c2 kvs2] gs]; cbn; [by rewrite bool_decide_eq_true_2|].
    case_bool_decide; cbn; rewrite ?bool_decide_eq_true_2 by done; [|done].
    by rewrite <- app_assoc.
  - rewrite (appendCurrent_content c kvs Hc). cbn [mbind option_bind].
    edestruct (IH (mkCalculator cc [node] (hashingData c ++ groupContent (currentChaincodeID c, kvs)))
      [kv]) as (c' & kvs' & E' & Hh & E2).
    { repeat constructor. exact E. }
    exists c', kvs'. split; [exact E'|]. split; [done|]. rewrite E2. cbn. rewrite <- app_assoc. f_equal.
    destruct (groupEntries l) as [|[c2 kvs2] gs]; cbn; [by rewrite bool_decide_eq_false_2|].
    case_bool_decide; cbn; rewrite ?bool_decide_eq_false_2 by congruence; done.
Qed.

Definition hashContent (cryptoHash : bytes -> bytes) (content : bytes) : option bytes :=
  if IsNil (Some content) then None else Some (cryptoHash content).

(** The calculator hashes the grouped content of the nodes it is given. *)
Lemma calculator_hash cryptoHash nodes l : Forall2 (fun node e => nodeEntry node = Some e) nodes l ->
  (c ← foldO addNextNode newBucketHashCalculator nodes; calculator_computeCryptoHash cryptoHash c) =
    Some (hashContent cryptoHash (bucketContent l)).
Proof.
  intros Hl. destruct (addNodes_content l newBucketHashCalculator [] nodes) as (c & kvs & -> & Hc & E);
    [constructor|done|].
  cbn [hashingData newBucketHashCalculator app] in E.
  assert (concat (groupContent <$> joinGroup ([], []) (groupEntries l)) = bucketContent l) as Hj.
  { unfold bucketContent. destruct (groupEntries l) as [|[c2 kvs2] gs]; [done|]. cbn.
    by case_bool_decide as E2; [subst c2|]. }
  cbn [currentChaincodeID newBucketHashCalculator] in E. rewrite Hj in E. clear Hj. cbn [mbind option_bind].
  unfold calculator_computeCryptoHash, hashContent.
  case_bool_decide as Hcc; cbn [mbind option_bind].
  - unfold groupContent in E. cbn [fst] in E. rewrite bool_decide_eq_true_2, app_nil_r in E by done.
    by rewrite E.
  - rewrite (appendCurrent_content c kvs Hc). cbn [mbind option_bind]. cbn. by rewrite E.
Qed.

(** * The content determines the entries *)

Lemma encodeRawBytes_inj a b x y : fitsInt a -> fitsInt b ->
  encodeRawBytes a ++ x = encodeRawBytes b ++ y -> a = b /\ x = y.
Proof.
  intros Ha Hb E. pose proof (bufDecodeRawBytes_encode a x Ha) as H. rewrite E in H.
  rewrite bufDecodeRawBytes_encode in H by done. by injection H as -> ->.
Qed.

Lemma EncodeVarint_inj a b x y : is_u64 a -> is_u64 b ->
  EncodeVarint a ++ x = EncodeVarint b ++ y -> a = b /\ x = y.
Proof.
  intros Ha Hb E. pose proof (bufDecodeVarint_encode a x Ha) as H. rewrite E in H.
  rewrite bufDecodeVarint_encode in H by done. by injection H as -> ->.
Qed.

Definition fitsKV (kv : bytes * bytes) : Prop := fitsInt kv.1 /\ fitsInt kv.2.
Definition fitsEntry (e : entry) : Prop := fitsInt e.1 /\ fitsKV e.2.

Lemma entries_inj l l' x y : Forall fitsKV l -> Forall fitsKV l' -> length l = length l' ->
  concat (entryContent <$> l) ++ x = concat (entryContent <$> l') ++ y -> l = l' /\ x = y.
Proof.
  intros Hl. revert l'. induction Hl as [|[k v] l [Hk Hv] Hl IH]; intros [|[k' v'] l'] Hl' E; try done.
  apply Forall_cons in Hl' as [[Hk' Hv'] Hl']. injection E as E. rewrite !fmap_cons. cbn [concat].
  change (entryContent (k, v)) with (encodeRawBytes k ++ encodeRawBytes v).
  change (entryContent (k', v')) with (encodeRawBytes k' ++ encodeRawBytes v').
  rewrite <- !app_assoc. intros [-> [-> H]%encodeRawBytes_inj]%encodeRawBytes_inj; try done.
  apply IH in H as [-> ->]; done.
Qed.

Definition fitsGroup (g : group) : Prop :=
  g.1 <> [] /\ fitsInt g.1 /\ is_u64 (Z.of_nat (length g.2)) /\ Forall fitsKV g.2.

Lemma groupContent_fits g x : g.1 <> [] ->
  groupContent g ++ x = encodeRawBytes g.1 ++ EncodeVarint (Z.of_nat (length g.2)) ++
    concat (entryContent <$> g.2) ++ x.
Proof. intros. unfold groupContent. rewrite bool_decide_eq_false_2 by done. by rewrite <- !app_assoc. Qed.

Lemma groupContent_nonempty g x : g.1 <> [] -> groupContent g ++ x <> [].
Proof.
  intros Hg. rewrite groupContent_fits by done. intros E%(f_equal length).
  rewrite length_app in E. pose proof (encodeRawBytes_nonempty g.1). cbn [length] in E. lia.
Qed.

Lemma groups_inj gs gs' : Forall fitsGroup gs -> Forall fitsGroup gs' ->
  concat (groupContent <$> gs) = concat (groupContent <$> gs') -> gs = gs'.
Proof.
  intros H. revert gs'. induction H as [|g gs (Hne & Hc & Hn & Hkv) H IH]; intros [|g' gs'] H' E.
  - done.
  - apply Forall_cons in H' as [(Hne & _) _]. symmetry in E. by apply groupContent_nonempty in E.
  - by apply groupContent_nonempty in E.
  - apply Forall_cons in H' as [(Hne' & Hc' & Hn' & Hkv') H']. cbn in E.
    rewrite !groupContent_fits in E by done.
    apply encodeRawBytes_inj in E as [E1 E]; [|done..].
    apply EncodeVarint_inj in E as [E2 E]; [|done..].
    apply entries_inj in E as [E3 E]; [|done..|lia].
    f_equal; [destruct g, g'; by cbn in *; subst|by apply IH].
Qed.

Definition ungroup (gs : list group) : list entry := concat ((fun g : group => (g.1,.) <$> g.2) <$> gs).

Lemma ungroup_join g gs : ungroup (joinGroup g gs) = ((g.1,.) <$> g.2) ++ ungroup gs.
Proof.
  destruct gs as [|[c kvs] gs]; [done|]. cbn. case_bool_decide as E; [|done].
  subst. unfold ungroup. cbn. by rewrite fmap_app, app_assoc.
Qed.

Lemma ungroup_group l : ungroup (groupEntries l) = l.
Proof.
  induction l as [|[c kv] l IH]; [done|]. cbn [groupEntries foldr]. fold (groupEntries l).
  rewrite ungroup_join, IH. done.
Qed.

Lemma group_fits l : Forall (fun e => e.1 <> [] /\ fitsEntry e) l -> Z.of_nat (length l) < two64 ->
  Forall fitsGroup (groupEntries l).
Proof.
  intros Hl Hn. rewrite <- (ungroup_group l) in Hl, Hn.
  assert (Forall (fun g : group => g.2 <> []) (groupEntries l)) as Hne.
  { clear. induction l as [|e l IH]; [constructor|]. cbn [groupEntries foldr]. fold (groupEntries l).
    destruct (groupEntries l) as [|[c kvs] gs]; cbn; [by repeat constructor|].
    apply Forall_cons in IH as [? ?]. case_bool_decide; repeat constructor; done. }
  induction Hne as [|[c kvs] gs Hkvs Hne IH]; [constructor|]. cbn in *.
  unfold ungroup in Hl, Hn. cbn in Hl, Hn. apply Forall_app in Hl as [Hh Hl].
  rewrite length_app, length_fmap in Hn.
  constructor; [|apply IH; [done|unfold ungroup; lia]].
  destruct kvs as [|kv kvs]; [done|]. rewrite Forall_fmap in Hh.
  pose proof (Forall_inv Hh) as [? [? _]]. split; [done|]. split; [done|].
  split; [unfold is_u64; cbn [snd]; lia|]. eapply Forall_impl; [exact Hh|].
  intros kv' [_ [_ Hkv]]. exact Hkv.
Qed.

(** * Merging changes into the stored nodes *)

Fixpoint mergeNodes (updatedNodes : list dataNode) : list dataNode -> list dataNode :=
  match updatedNodes with
  | [] => fun existingNodes => existingNodes
  | u :: us =>
      fix inner existingNodes :=
        match existingNodes with
        | [] => u :: us
        | e :: es =>
            match bytesCompare (getCompositeKey u) (getCompositeKey e) with
            | Lt => u :: mergeNodes us (e :: es)
            | Eq => u :: mergeNodes us es
            | Gt => e :: inner es
            end
        end
  end.

Lemma mergeLoop_nodes us es c : mergeLoop us es c = foldO addUnlessDelete c (mergeNodes us es).
Proof.
  revert es c. induction us as [|u us IH]; intros es c; [done|].
  revert c. induction es as [|e es IHe]; intros c; [done|]. cbn [mergeLoop mergeNodes].
  destruct (bytesCompare _ _); cbn [foldO]; destruct (addUnlessDelete c _); cbn; auto.
Qed.

Lemma foldO_delete c l :
  foldO addUnlessDelete c l = foldO addNextNode c (List.filter (fun n => negb (dataNode_isDelete n)) l).
Proof.
  revert c. induction l as [|n l IH]; intros c; [done|].
  cbn [foldO List.filter]. assert (addUnlessDelete c n =
    if dataNode_isDelete n then Some c else addNextNode c n) as -> by done.
  destruct (dataNode_isDelete n); cbn; [apply IH|]. destruct (addNextNode c n); cbn; [apply IH|done].
Qed.

Definition nodeLt (x y : dataNode) : Prop := bytesLt (getCompositeKey x) (getCompositeKey y).

Lemma nodeLt_trans x y z : nodeLt x y -> nodeLt y z -> nodeLt x z.
Proof. apply bytesLt_trans. Qed.

(** The merged list has the changed nodes and the stored ones that have no change. *)
Lemma elem_of_mergeNodes us es x : StronglySorted nodeLt us -> StronglySorted nodeLt es ->
  x ∈ mergeNodes us es <->
    x ∈ us \/ (x ∈ es /\ forall u, u ∈ us -> getCompositeKey u <> getCompositeKey x).
Proof.
  intros Hus. revert es. induction Hus as [|u us Hus IH Hu]; intros es Hes; cbn [mergeNodes].
  { rewrite elem_of_nil. split; [|by intros [[]|[? _]]]. intros Hx. right. split; [done|].
    by intros u' []%elem_of_nil. }
  induction Hes as [|e es Hes IHe He]; [rewrite elem_of_nil; tauto|].
  rewrite Forall_forall in Hu, He.
  assert (forall y, y ∈ us -> nodeLt u y) as Hu' by done.
  destruct (bytesCompare (getCompositeKey u) (getCompositeKey e)) eqn:E.
  - apply bytesCompare_eq in E. rewrite elem_of_cons, IH by done. rewrite !elem_of_cons.
    split; [intros [->|[?|[? Hx]]]; auto|].
    + right. split; [auto|]. intros u'. rewrite elem_of_cons. intros [->|Hu2] E2.
      * specialize (He x H). unfold nodeLt in He. rewrite <- E, E2 in He. by apply bytesLt_irrefl in He.
      * by apply (Hx u').
    + intros [[->|?]|[[->|?] Hx]]; auto.
      * exfalso. apply (Hx u); [by left|done].
      * right. right. split; [done|]. intros. apply Hx. by right.
  - rewrite elem_of_cons, IH by (by constructor; [|rewrite Forall_forall]).
    rewrite !elem_of_cons. split; [intros [->|[?|[? Hx]]]; auto|].
    + right. split; [done|]. intros u'. rewrite elem_of_cons. intros [->|Hu2] E2; [|by apply (Hx u')].
      assert (nodeLt u x) as Hlt by (destruct H as [->|H]; [exact E|eapply nodeLt_trans; [exact E|by apply He]]).
      unfold nodeLt in Hlt. rewrite E2 in Hlt. by apply bytesLt_irrefl in Hlt.
    + intros [[->|?]|[? Hx]]; auto. right. right. split; [done|]. intros. apply Hx. by right.
  - rewrite elem_of_cons, IHe. rewrite !elem_of_cons.
    split; [intros [->|[?|[? Hx]]]; auto|intros [?|[[->|?] Hx]]; auto].
    right. split; [by left|]. intros u'. rewrite elem_of_cons. intros [->|Hu2] E2.
    + rewrite E2, bytesCompare_refl in E. done.
    + specialize (Hu u' Hu2). unfold nodeLt in Hu. rewrite E2 in Hu. unfold bytesLt in Hu. congruence.
Qed.

Lemma mergeNodes_sorted us es : StronglySorted nodeLt us -> StronglySorted nodeLt es ->
  StronglySorted nodeLt (mergeNodes us es).
Proof.
  intros Hus. revert es. induction Hus as [|u us Hus IH Hu]; intros es Hes; cbn [mergeNodes]; [done|].
  induction Hes as [|e es Hes IHe He]; [by constructor|].
  rewrite Forall_forall in Hu, He.
  destruct (bytesCompare (getCompositeKey u) (getCompositeKey e)) eqn:E.
  - apply bytesCompare_eq in E. constructor; [by apply IH|]. rewrite Forall_forall. intros x.
    rewrite elem_of_mergeNodes by done. intros [?|[Hx _]]; [by apply Hu|].
    specialize (He x Hx). unfold nodeLt in *. by rewrite E.
  - constructor; [apply IH; by constructor; [|rewrite Forall_forall]|]. rewrite Forall_forall. intros x.
    rewrite elem_of_mergeNodes by (done || by constructor; [|rewrite Forall_forall]).
    rewrite elem_of_cons. intros [?|[[->|Hx] _]]; [by apply Hu|exact E|].
    eapply nodeLt_trans; [exact E|by apply He].
  - constructor; [done|]. rewrite Forall_forall. intros x.
    change (x ∈ mergeNodes (u :: us) es -> nodeLt e x).
    rewrite elem_of_mergeNodes; [|by constructor; [|rewrite Forall_forall]|done].
    assert (nodeLt e u) as Heu by (unfold nodeLt, bytesLt; rewrite bytesCompare_opp, E; done).
    rewrite elem_of_cons. intros [[->|Hx]|[Hx _]]; [done| |by apply He].
    eapply nodeLt_trans; [exact Heu|by apply Hu].
Qed.
