(* ===== verification/BucketSpec.v ===== *)
(** What the bucket tree is for: the hash of the whole state as a function of
    its key-value pairs alone ([nodeHash]), and when a database holds a state
    together with its tree ([consistent]). *)
From stdpp Require Import base gmap list sorting.
From Stdlib Require Import ZArith Lia.
From Stdlib.Strings Require Import Byte.
From S2P Require Import Prelude GoStd GoBytes LedgerUtil KVStore StateDelta StateSpec BucketKeys.
From S2P Require Import BucketNode BucketHash.

(** * The state hash from scratch *)

Section spec.
Context (conf : config) (cryptoHash : bytes -> bytes).

(** The pairs of a bucket in the order of their keys. *)
Definition bucketPairs (s : kvs) (b : Z) : list (bytes * bytes) :=
  entriesFrom (filter (fun '(ck, _) => bucketOf conf ck = b) s) [].

Definition pairEntry (kv : bytes * bytes) : option entry :=
  '(chaincodeID, key) ← DecodeCompositeKey kv.1; Some (chaincodeID, (key, kv.2)).

Definition bucketHash (s : kvs) (b : Z) : option bytes :=
  hashContent cryptoHash (bucketContent (omap pairEntry (bucketPairs s b))).

(** The hash of a node from those of its children: nil children do not count,
    the hash of an only child is passed on. *)
Definition combine (hs : list (option bytes)) : option bytes :=
  match omap id hs with
  | [] => None
  | [h] => Some h
  | hs => Some (cryptoHash (concat hs))
  end.

Fixpoint treeHash (s : kvs) (height : nat) (n : Z) : option bytes :=
  match height with
  | O => bucketHash s n
  | S height =>
      combine ((fun i => treeHash s height (childNumber conf n i)) <$> seq 0 (groupSize conf))
  end.

Definition nodeHash (s : kvs) (k : bucketKey) : option bytes :=
  treeHash s (Z.to_nat (lowestLevel conf - level k)) (bucketNumber k).

Definition children (s : kvs) (k : bucketKey) : list (option bytes) :=
  (fun i => nodeHash s (childOf conf k i)) <$> seq 0 (groupSize conf).

Definition stateHash (s : kvs) : option bytes := nodeHash s (mkBucketKey 0 1).

Lemma nodeHash_combine s k : level k < lowestLevel conf -> nodeHash s k = combine (children s k).
Proof.
  intros Hk. unfold nodeHash at 1.
  replace (Z.to_nat (lowestLevel conf - level k))
    with (S (Z.to_nat (lowestLevel conf - (level k + 1)))) by lia. done.
Qed.

Lemma nodeHash_bucket s b : nodeHash s (mkBucketKey (lowestLevel conf) b) = bucketHash s b.
Proof. unfold nodeHash. cbn. by rewrite Z.sub_diag. Qed.

Lemma children_length s k : length (children s k) = groupSize conf.
Proof. unfold children. by rewrite length_fmap, length_seq. Qed.

Lemma children_lookup s k i : (i < groupSize conf)%nat ->
  children s k !! i = Some (nodeHash s (childOf conf k i)).
Proof. intros. unfold children. by rewrite list_lookup_fmap, lookup_seq_lt. Qed.

(** ** Locality *)

(** The numbers of the nodes of height [height] above the buckets [A]. *)
Fixpoint touched (A : gset Z) (height : nat) : gset Z :=
  match height with
  | O => A
  | S height => set_map (parentNumber conf) (touched A height)
  end.

Definition touchedAt (A : gset Z) (l : Z) : gset Z := touched A (Z.to_nat (lowestLevel conf - l)).

Lemma touchedAt_up A l : l < lowestLevel conf ->
  touchedAt A l = set_map (parentNumber conf) (touchedAt A (l + 1)).
Proof.
  intros. unfold touchedAt.
  replace (Z.to_nat (lowestLevel conf - l)) with (S (Z.to_nat (lowestLevel conf - (l + 1)))) by lia.
  done.
Qed.

Lemma touchedAt_lowest A : touchedAt A (lowestLevel conf) = A.
Proof. unfold touchedAt. by rewrite Z.sub_diag. Qed.

(** Two states that agree outside the buckets [A]. *)
Definition agreeOutside (A : gset Z) (s s' : kvs) : Prop :=
  forall ck, bucketOf conf ck ∉ A -> s !! ck = s' !! ck.

Lemma bucketPairs_agree A s s' b : agreeOutside A s s' -> b ∉ A ->
  bucketPairs s b = bucketPairs s' b.
Proof.
  intros Ha Hb. unfold bucketPairs. f_equal. apply map_eq. intros ck.
  rewrite !map_lookup_filter. destruct (decide (bucketOf conf ck = b)) as [<-|Hne].
  - by rewrite (Ha ck Hb).
  - destruct (s !! ck), (s' !! ck); cbn; by rewrite ?option_guard_False by done.
Qed.

Section wf.
Hypothesis Hwf : wfConfig conf.

Lemma treeHash_agree A s s' h n : agreeOutside A s s' -> n ∉ touched A h ->
  treeHash s h n = treeHash s' h n.
Proof.
  intros Ha. revert n. induction h as [|h IH]; intros n Hn; cbn in *.
  - unfold bucketHash. by erewrite bucketPairs_agree.
  - f_equal. apply list_fmap_ext. intros _ i [_ Hi]%list_elem_of_lookup_2%elem_of_seq. apply IH.
    intros Hin. apply Hn. apply elem_of_map. eexists. split; [|exact Hin].
    symmetry. apply (parentNumber_child conf Hwf). unfold groupSize in Hi. lia.
Qed.

Lemma nodeHash_agree A s s' k : agreeOutside A s s' -> bucketNumber k ∉ touchedAt A (level k) ->
  nodeHash s k = nodeHash s' k.
Proof. intros. by eapply treeHash_agree. Qed.

Lemma childOf_touched A k i : level k < lowestLevel conf -> (i < groupSize conf)%nat ->
  bucketNumber (childOf conf k i) ∈ touchedAt A (level k + 1) -> bucketNumber k ∈ touchedAt A (level k).
Proof.
  intros Hk Hi Hin. rewrite touchedAt_up by done. apply elem_of_map. eexists. split; [|exact Hin].
  symmetry. apply (parentNumber_child conf Hwf). exact Hi.
Qed.

Lemma children_agree A s s' k : level k < lowestLevel conf -> agreeOutside A s s' ->
  bucketNumber k ∉ touchedAt A (level k) -> children s k = children s' k.
Proof.
  intros Hl Ha Hk. unfold children. apply list_fmap_ext.
  intros _ i [_ Hi]%list_elem_of_lookup_2%elem_of_seq. apply (nodeHash_agree A); [done|].
  intros Hin. apply Hk. eapply childOf_touched; [done| |exact Hin]. unfold groupSize in *. lia.
Qed.

(** Touched nodes exist. *)
Lemma touchedAt_valid A l n : (forall b, b ∈ A -> validKey conf (mkBucketKey (lowestLevel conf) b)) ->
  0 <= l <= lowestLevel conf -> n ∈ touchedAt A l -> validKey conf (mkBucketKey l n).
Proof.
  intros HA. unfold touchedAt. intros Hl Hn.
  replace l with (lowestLevel conf - Z.of_nat (Z.to_nat (lowestLevel conf - l))) at 1 by lia.
  assert (Z.of_nat (Z.to_nat (lowestLevel conf - l)) <= lowestLevel conf) as Hh by lia.
  revert n Hn Hh. generalize (Z.to_nat (lowestLevel conf - l)) as h. clear Hl l.
  induction h as [|h IH]; intros n Hn Hh.
  { rewrite Z.sub_0_r. by apply HA. }
  cbn [touched] in Hn. apply elem_of_map in Hn as (m & -> & Hm).
  assert (validKey conf (mkBucketKey (lowestLevel conf - Z.of_nat h) m)) as Hv by (apply IH; [done|lia]).
  apply (parentOf_valid conf Hwf) in Hv; [|cbn; lia].
  unfold parentOf in Hv. cbn in Hv.
  replace (lowestLevel conf - Z.of_nat (S h)) with (lowestLevel conf - Z.of_nat h - 1) by lia. done.
Qed.

Lemma touched_nonempty A h : A <> ∅ -> touched A h <> ∅.
Proof.
  intros HA. induction h as [|h IH]; [done|]. cbn. intros E. apply IH.
  apply set_eq. intros x. split; [|set_solver]. intros Hx.
  assert (parentNumber conf x ∈ (∅ : gset Z)) as Hp; [|set_solver]. rewrite <- E.
  apply elem_of_map. eauto.
Qed.

Lemma touchedAt_root A : (forall b, b ∈ A -> validKey conf (mkBucketKey (lowestLevel conf) b)) ->
  A <> ∅ -> touchedAt A 0 = {[1]}.
Proof.
  intros HA Hne. pose proof (wf_lowest conf Hwf).
  assert (forall n, n ∈ touchedAt A 0 -> n = 1) as H1.
  { intros n Hn. apply touchedAt_valid in Hn as [_ Hn]; [|done|lia]. cbn in Hn.
    rewrite (wf_root conf Hwf) in Hn. lia. }
  destruct (set_choose_L (touchedAt A 0)) as [n Hn]; [by apply touched_nonempty|].
  pose proof (H1 n Hn). subst n. apply set_eq. intros x. rewrite elem_of_singleton.
  split; [apply H1|by intros ->].
Qed.

(** ** Nodes that do not exist *)

Lemma bucketHash_outside s b : numBucketsAt conf (lowestLevel conf) < b -> bucketHash s b = None.
Proof.
  intros Hb. unfold bucketHash, bucketPairs.
  assert (filter (fun '(ck, _) => bucketOf conf ck = b) s = ∅) as ->; [|done].
  apply map_eq. intros ck. rewrite map_lookup_filter, lookup_empty. destruct (s !! ck); [|done]. cbn.
  pose proof (bucketOf_range conf Hwf ck). by rewrite option_guard_False by lia.
Qed.

Lemma combine_None hs : (forall h, h ∈ hs -> h = None) -> combine hs = None.
Proof.
  intros H. unfold combine. replace (omap id hs) with (@nil bytes); [done|].
  induction hs as [|h hs IH]; [done|]. cbn. rewrite (H h) by (by left). apply IH.
  intros h' ?. apply H. by right.
Qed.

Lemma childNumber_outside l n i : 0 <= l < lowestLevel conf -> numBucketsAt conf l < n ->
  numBucketsAt conf (l + 1) < childNumber conf n i.
Proof.
  intros Hl Hn. rewrite (wf_level conf Hwf) in Hn by done. pose proof (wf_grouping conf Hwf).
  unfold childNumber.
  pose proof (Z.div_mod (numBucketsAt conf (l + 1) + maxGroupingAtEachLevel conf - 1)
    (maxGroupingAtEachLevel conf) ltac:(lia)).
  pose proof (Z.mod_pos_bound (numBucketsAt conf (l + 1) + maxGroupingAtEachLevel conf - 1)
    (maxGroupingAtEachLevel conf) ltac:(lia)). nia.
Qed.

Lemma treeHash_outside s h n : Z.of_nat h <= lowestLevel conf ->
  numBucketsAt conf (lowestLevel conf - Z.of_nat h) < n -> treeHash s h n = None.
Proof.
  revert n. induction h as [|h IH]; intros n Hh Hn; cbn [treeHash].
  { apply bucketHash_outside. by rewrite Z.sub_0_r in Hn. }
  apply combine_None. intros x (i & -> & _)%list_elem_of_fmap. apply IH; [lia|].
  replace (lowestLevel conf - Z.of_nat h) with (lowestLevel conf - Z.of_nat (S h) + 1) by lia.
  apply childNumber_outside; [lia|done].
Qed.

(** A child with a hash is a valid node. *)
Lemma child_valid s k i : validKey conf k -> level k < lowestLevel conf ->
  nodeHash s (childOf conf k i) <> None -> validKey conf (childOf conf k i).
Proof.
  intros [Hl Hn] Hlt Hh. pose proof (wf_grouping conf Hwf). split; cbn; [lia|].
  split; [unfold childNumber; nia|].
  destruct (Z.le_gt_cases (childNumber conf (bucketNumber k) i) (numBucketsAt conf (level k + 1)));
    [done|]. destruct Hh. unfold nodeHash. apply treeHash_outside; cbn; [lia|].
  rewrite Z2Nat.id by lia. by replace (lowestLevel conf - (lowestLevel conf - (level k + 1)))
    with (level k + 1) by lia.
Qed.
End wf.

(** ** Hashes are never empty *)

(** What the code relies on of SHA3: a digest is not empty and its length fits. *)
Hypothesis Hhash : forall b, cryptoHash b <> [] /\ fitsInt (cryptoHash b).

Lemma hashContent_nonempty b h : hashContent cryptoHash b = Some h -> h <> [] /\ fitsInt h.
Proof. unfold hashContent. destruct (IsNil _); [done|]. intros [= <-]. apply Hhash. Qed.

Lemma treeHash_nonempty s height n h : treeHash s height n = Some h -> h <> [] /\ fitsInt h.
Proof.
  revert n h. induction height as [|height IH]; intros n h; cbn [treeHash].
  { apply hashContent_nonempty. }
  unfold combine. destruct (omap id _) as [|h1 [|h2 hs]] eqn:E; [done| |].
  - intros [= <-]. assert (h1 ∈ omap id ((fun i => treeHash s height (childNumber conf n i))
      <$> seq 0 (groupSize conf))) as Hin by (rewrite E; by left).
    apply list_elem_of_omap in Hin as (x & Hx & Ex). apply list_elem_of_fmap in Hx as (i & -> & _).
    by eapply IH.
  - intros [= <-]. apply Hhash.
Qed.

Lemma nodeHash_nonempty s k h : nodeHash s k = Some h -> h <> [] /\ fitsInt h.
Proof. apply treeHash_nonempty. Qed.

Lemma nodeHash_IsNil s k : IsNil (nodeHash s k) = bool_decide (nodeHash s k = None).
Proof.
  destruct (nodeHash s k) as [h|] eqn:E; [|done]. apply nodeHash_nonempty in E as [E _].
  by destruct h.
Qed.

End spec.
