(* ===== verification/BucketState.v ===== *)
(** core/ledger/statemgmt/buckettree: the cache of bucket nodes
    (bucket_cache.go), database access (db_helper.go), the state implementation
    (state_impl.go) and range scans (range_scan_iterator.go). *)
From stdpp Require Import base gmap list.
From Stdlib Require Import ZArith Lia.
From Stdlib.Strings Require Import Byte.
From S2P Require Import Prelude GoStd GoBytes LedgerUtil KVStore StateDelta BucketKeys BucketNode.

(** * State *)

Record bucketCache := mkBucketCache {
  isEnabled : bool;
  cacheMap : gmap bucketKey bucketNode;
  cacheSize : Z;
  maxSize : Z
}.

#[export] Instance bucketCache_eta : Eta bucketCache := fun x =>
  mkBucketCache (isEnabled x) (cacheMap x) (cacheSize x) (maxSize x).

(** A nil delta is [None]. *)
Record StateImpl := mkStateImpl {
  si_dataNodesDelta : option dataNodesDelta;
  si_bucketTreeDelta : option bucketTreeDelta;
  persistedStateHash : option bytes;
  lastComputedCryptoHash : option bytes;
  recomputeCryptoHash : bool;
  si_bucketCache : bucketCache
}.

#[export] Instance StateImpl_eta : Eta StateImpl := fun s =>
  mkStateImpl (si_dataNodesDelta s) (si_bucketTreeDelta s) (persistedStateHash s)
    (lastComputedCryptoHash s) (recomputeCryptoHash s) (si_bucketCache s).

(** A [range] loop whose body may return an error. *)
Fixpoint forE {S A} (l : list A) (f : A -> M S (result unit)) : M S (result unit) :=
  match l with
  | [] => mret (Ok tt)
  | x :: l => _ ←? f x; forE l f
  end.

(** * bucket_cache.go *)

(** [unsafe.Sizeof] on a 64-bit platform. *)
Definition bucketKey_size : Z := 16.
Definition bucketNode_size (node : bucketNode) : Z :=
  match childrenCryptoHash node with
  | [] => 64
  | h :: _ =>
      u64 (64 + Z.of_nat (length (childrenCryptoHash node)) * Z.of_nat (length (default [] h)))
  end.

Definition defaultBucketCacheMaxSize : Z := 100.

Definition newBucketCache (maxSizeMBs : Z) : bucketCache :=
  mkBucketCache (negb (maxSizeMBs <=? 0)) ∅ 0 (u64 (maxSizeMBs * 1024 * 1024)).

Definition putWithoutLock (cache : bucketCache) (key : bucketKey) (node : bucketNode)
    : bucketCache :=
  if negb (isEnabled cache) then cache
  else
    let node := node <| markedForDeletion := false |> <| childrenUpdated := [] |> in
    match cacheMap cache !! key with
    | Some existingNode =>
        let size := u64 (bucketNode_size node - bucketNode_size existingNode) in
        let cache := cache <| cacheSize := u64 (cacheSize cache + size) |> in
        if cacheSize cache >? maxSize cache then
          cache <| cacheMap := delete key (cacheMap cache) |>
            <| cacheSize := u64 (cacheSize cache - (bucketKey_size + bucketNode_size existingNode)) |>
        else cache <| cacheMap := <[key := node]> (cacheMap cache) |>
    | None =>
        let cache := cache <| cacheSize := u64 (cacheSize cache + bucketNode_size node) |> in
        if cacheSize cache >? maxSize cache then cache
        else cache <| cacheMap := <[key := node]> (cacheMap cache) |>
    end.

Definition removeWithoutLock (cache : bucketCache) (key : bucketKey) : bucketCache :=
  if negb (isEnabled cache) then cache
  else
    match cacheMap cache !! key with
    | Some node =>
        cache <| cacheSize := u64 (cacheSize cache - (bucketKey_size + bucketNode_size node)) |>
          <| cacheMap := delete key (cacheMap cache) |>
    | None => cache
    end.

Section impl.
Context {DB : Type} `{RocksDB DB} (conf : config) (cryptoHash : bytes -> bytes) (o : mapOrder).

(** ** db_helper.go *)

Definition fetchDataNodeFromDB {S} (db : DB) (k : dataKey) : M S (result (option dataNode)) :=
  key ← lift (dataKey_getEncodedBytes k);
  match GetFromStateCF db key with
  | Err => mret Err
  | Ok nodeBytes =>
      if IsNil nodeBytes then mret (Ok None) else mret (Ok (Some (unmarshalDataNode k nodeBytes)))
  end.

Definition fetchBucketNodeFromDB {S} (db : DB) (k : bucketKey) : M S (result (option bucketNode)) :=
  match GetFromStateCF db (getEncodedBytes k) with
  | Err => mret Err
  | Ok nodeBytes =>
      if IsNil nodeBytes then mret (Ok None)
      else node ← lift (unmarshalBucketNode conf k (default [] nodeBytes)); mret (Ok (Some node))
  end.

(** The loop over the entries from the smallest key of the bucket on. *)
Fixpoint fetchLoop (k : bucketKey) (entries : list (bytes * bytes)) : option (list dataNode) :=
  match entries with
  | [] => Some []
  | (keyBytes, valueBytes) :: entries =>
      dk ← newDataKeyFromEncodedBytes conf keyBytes;
      if negb (bucketKey_equals (dk_bucketKey dk) k) then Some []
      else
        rest ← fetchLoop k entries;
        Some (unmarshalDataNode dk (Some valueBytes) :: rest)
  end.

Definition fetchDataNodesFromDBFor (db : DB) (k : bucketKey) : option (list dataNode) :=
  minimumDataKeyBytes ← minimumPossibleDataKeyBytesFor k;
  fetchLoop k (ScanCF db StateCF minimumDataKeyBytes).

(** ** The cache over the database *)

Fixpoint loadLoop (entries : list (bytes * bytes)) (cache : bucketCache) : option bucketCache :=
  match entries with
  | [] => Some cache
  | (key, nodeBytes) :: entries =>
      first ← head key;
      if negb (bool_decide (first = x00)) then Some cache
      else
        bKey ← decodeBucketKey key;
        node ← unmarshalBucketNode conf bKey nodeBytes;
        let size := u64 (bucketKey_size + bucketNode_size node) in
        let cache := cache <| cacheSize := u64 (cacheSize cache + size) |> in
        if cacheSize cache >=? maxSize cache then
          Some (cache <| cacheSize := u64 (cacheSize cache - size) |>)
        else loadLoop entries (cache <| cacheMap := <[bKey := node]> (cacheMap cache) |>)
  end.

Definition loadAllBucketNodesFromDB (db : DB) (cache : bucketCache) : option bucketCache :=
  if negb (isEnabled cache) then Some cache
  else loadLoop (ScanCF db StateCF [x00]) cache.

Definition cache_get {S} (db : DB) (cache : bucketCache) (key : bucketKey)
    : M S (result (option bucketNode)) :=
  if negb (isEnabled cache) then fetchBucketNodeFromDB db key
  else
    match cacheMap cache !! key with
    | None => fetchBucketNodeFromDB db key
    | Some node => mret (Ok (Some node))
    end.

(** ** state_impl.go *)

Definition StateImpl_Get {S} (db : DB) (chaincodeID key : bytes) : M S (result (option bytes)) :=
  k ← lift (newDataKey conf chaincodeID key);
  node ←? fetchDataNodeFromDB db k;
  match node with
  | None => mret (Ok None)
  | Some node => mret (Ok (dn_value node))
  end.

Definition PrepareWorkingSet (stateDelta : StateDelta) : M StateImpl (result unit) :=
  if IsEmpty stateDelta then mret (Ok tt)
  else
    d ← lift (newDataNodesDelta conf o stateDelta);
    modify (fun s => s <| si_dataNodesDelta := Some d |>
      <| si_bucketTreeDelta := Some newBucketTreeDelta |> <| recomputeCryptoHash := true |>);;
    mret (Ok tt).

(** The tree delta; nil is dereferenced. *)
Definition theTree : M StateImpl bucketTreeDelta := t ← gets si_bucketTreeDelta; lift t.
Definition setTree (t : bucketTreeDelta) : M StateImpl unit :=
  modify (fun s => s <| si_bucketTreeDelta := Some t |>).

(** [getOrCreateBucketNode] on the parent, then [setChildCryptoHash]. *)
Definition updateParent (k : bucketKey) (hash : option bytes) : M StateImpl unit :=
  parentKey ← lift (getParentKey conf k);
  tree ← theTree;
  '(parent, tree) ← lift (getOrCreateBucketNode conf tree parentKey);
  parent ← lift (setChildCryptoHash conf parent k hash);
  setTree (putNode tree parentKey parent).

Definition processDataNodeDelta (db : DB) : M StateImpl (result unit) :=
  d ← gets si_dataNodesDelta;
  d ← lift d;
  affectedBuckets ← lift (getAffectedBuckets conf o d);
  forE affectedBuckets (fun k =>
    let updatedDataNodes := getSortedDataNodesFor d k in
    existingDataNodes ← lift (fetchDataNodesFromDBFor db k);
    cryptoHashForBucket ←
      lift (computeDataNodesCryptoHash cryptoHash updatedDataNodes existingDataNodes);
    updateParent k cryptoHashForBucket;;
    mret (Ok tt)).

(** The nodes of one level; [Ok true] is the early return at the root. *)
Fixpoint processNodes (db : DB) (level : Z) (bucketNodes : list bucketNode)
    : M StateImpl (result bool) :=
  match bucketNodes with
  | [] => mret (Ok false)
  | node :: bucketNodes =>
      cache ← gets si_bucketCache;
      dbBucketNode ←? cache_get db cache (bn_bucketKey node);
      node ← match dbBucketNode with
             | Some dbNode => lift (mergeBucketNode node dbNode)
             | None => mret node
             end;
      tree ← theTree;
      setTree (putNode tree (bn_bucketKey node) node);;
      if level =? 0 then mret (Ok true)
      else
        '(hash, node) ← lift (computeCryptoHash conf cryptoHash node);
        tree ← theTree;
        setTree (putNode tree (bn_bucketKey node) node);;
        updateParent (bn_bucketKey node) hash;;
        processNodes db level bucketNodes
  end.

Fixpoint processLevels (db : DB) (levels : list Z) : M StateImpl (result unit) :=
  match levels with
  | [] => mret (Ok tt)
  | level :: levels =>
      tree ← theTree;
      returned ←? processNodes db level (getBucketNodesAt o tree level);
      if (returned : bool) then mret (Ok tt) else processLevels db levels
  end.

(** The levels above the lowest one. *)
Definition upperLevels : list Z := seqZ 0 (lowestLevel conf).

Definition processBucketTreeDelta (db : DB) : M StateImpl (result unit) :=
  processLevels db (rev upperLevels).

Definition computeRootNodeCryptoHash : M StateImpl (option bytes) :=
  tree ← theTree;
  root ← lift (getRootNode o tree);
  '(hash, root) ← lift (computeCryptoHash conf cryptoHash root);
  setTree (putNode tree (bn_bucketKey root) root);;
  mret hash.

Definition ComputeStateHash (db : DB) : M StateImpl (result (option bytes)) :=
  recompute ← gets recomputeCryptoHash;
  if (recompute : bool) then
    _ ←? processDataNodeDelta db;
    _ ←? processBucketTreeDelta db;
    hash ← computeRootNodeCryptoHash;
    modify (fun s => s <| lastComputedCryptoHash := hash |> <| recomputeCryptoHash := false |>);;
    mret (Ok hash)
  else
    hash ← gets lastComputedCryptoHash;
    mret (Ok hash).

Definition dataNodeOp (node : dataNode) : option batchOp :=
  key ← dataKey_getEncodedBytes (dn_dataKey node);
  Some (if dataNode_isDelete node then DeleteCF StateCF key
        else PutCF StateCF key (default [] (dn_value node))).

Definition addDataNodeChangesForPersistence : M StateImpl (list batchOp) :=
  d ← gets si_dataNodesDelta;
  d ← lift d;
  affectedBuckets ← lift (getAffectedBuckets conf o d);
  lift (mapM dataNodeOp (concat (getSortedDataNodesFor d <$> affectedBuckets))).

Definition bucketNodeOp (node : bucketNode) : option batchOp :=
  if markedForDeletion node then Some (DeleteCF StateCF (getEncodedBytes (bn_bucketKey node)))
  else
    v ← bucketNode_marshal conf node;
    Some (PutCF StateCF (getEncodedBytes (bn_bucketKey node)) v).

Definition addBucketNodeChangesForPersistence : M StateImpl (list batchOp) :=
  tree ← theTree;
  lift (mapM bucketNodeOp (concat (getBucketNodesAt o tree <$> rev upperLevels))).

(** The operations appended to the batch; an error while hashing is dropped. *)
Definition AddChangesForPersistence (db : DB) (writeBatch : list batchOp)
    : M StateImpl (list batchOp) :=
  d ← gets si_dataNodesDelta;
  match d with
  | None => mret writeBatch
  | Some _ =>
      recompute ← gets recomputeCryptoHash;
      err ← (if (recompute : bool) then ComputeStateHash db else mret (Ok None));
      match err with
      | Err => mret writeBatch
      | Ok _ =>
          dataOps ← addDataNodeChangesForPersistence;
          nodeOps ← addBucketNodeChangesForPersistence;
          mret (writeBatch ++ dataOps ++ nodeOps)
      end
  end.

Definition cacheNode (cache : bucketCache) (node : bucketNode) : bucketCache :=
  if markedForDeletion node then removeWithoutLock cache (bn_bucketKey node)
  else putWithoutLock cache (bn_bucketKey node) node.

Definition updateBucketCache (s : StateImpl) : StateImpl :=
  match si_bucketTreeDelta s with
  | None => s
  | Some tree =>
      if bucketTreeDelta_isEmpty tree then s
      else s <| si_bucketCache :=
        foldl cacheNode (si_bucketCache s) (concat (getBucketNodesAt o tree <$> upperLevels)) |>
  end.

Definition ClearWorkingSet (changesPersisted : bool) : M StateImpl unit :=
  modify (fun s =>
    let s :=
      if changesPersisted then
        updateBucketCache (s <| persistedStateHash := lastComputedCryptoHash s |>)
      else s <| lastComputedCryptoHash := persistedStateHash s |> in
    s <| si_dataNodesDelta := None |> <| si_bucketTreeDelta := None |>
      <| recomputeCryptoHash := false |>).

End impl.

(** [Initialize]: the global configuration and the state. *)
Definition Initialize {DB} `{RocksDB DB} (cryptoHash : bytes -> bytes) (db : DB) (cs : configs)
    : M unit (result (config * StateImpl)) :=
  conf ← initConfig cs;
  rootKey ← lift (constructRootBucketKey conf);
  rootBucketNode ←? fetchBucketNodeFromDB conf db rootKey;
  hash ← match rootBucketNode with
         | Some node => '(h, _) ← lift (computeCryptoHash conf cryptoHash node); mret h
         | None => mret None
         end;
  cache ← lift (loadAllBucketNodesFromDB conf db
            (newBucketCache (default defaultBucketCacheMaxSize (bucketCacheSize cs))));
  mret (Ok (conf, mkStateImpl None None hash hash false cache)).

(** * range_scan_iterator.go *)

(** The position of the database iterator is the list of entries it has left. *)
Record RangeScanIterator := mkRangeScanIterator {
  dbItr : list (bytes * bytes);
  rs_chaincodeID : bytes;
  startKey : bytes;
  endKey : bytes;
  currentBucketNumber : Z;
  currentKey : bytes;
  currentValue : option bytes;
  rs_done : bool
}.

#[export] Instance RangeScanIterator_eta : Eta RangeScanIterator := fun i =>
  mkRangeScanIterator (dbItr i) (rs_chaincodeID i) (startKey i) (endKey i)
    (currentBucketNumber i) (currentKey i) (currentValue i) (rs_done i).

Section scan.
Context {DB : Type} `{RocksDB DB} (conf : config) (db : DB).

Definition seekForStartKeyWithinBucket (bucketNumber : Z) : M RangeScanIterator unit :=
  itr ← get;
  datakeyBytes ← lift (minimumPossibleDataKeyBytes bucketNumber (rs_chaincodeID itr) (startKey itr));
  modify (fun itr => itr <| currentBucketNumber := bucketNumber |>
    <| dbItr := ScanCF db StateCF datakeyBytes |>).

Definition newRangeScanIterator (chaincodeID startKey endKey : bytes) : option RangeScanIterator :=
  match seekForStartKeyWithinBucket 1
    (mkRangeScanIterator [] chaincodeID startKey endKey 0 [] None false) with
  | Done _ itr => Some itr
  | _ => None
  end.

(** The loop of [Next]. *)
Fixpoint scanLoop (fuel : nat) : M RangeScanIterator bool :=
  itr ← get;
  match dbItr itr with
  | [] => modify (fun itr => itr <| rs_done := true |>);; mret false
  | (keyBytes, valueBytes) :: rest =>
      match fuel with
      | O => diverge
      | S fuel =>
          node ← lift (unmarshalDataNodeFromBytes conf keyBytes (Some valueBytes));
          '(chaincodeID, key) ← lift (DecodeCompositeKey (getCompositeKey node));
          let bucketNumber := bucketNumber (dk_bucketKey (dn_dataKey node)) in
          if bucketNumber >? currentBucketNumber itr then
            seekForStartKeyWithinBucket bucketNumber;; scanLoop fuel
          else if bool_decide (chaincodeID = rs_chaincodeID itr)
                  && (bool_decide (endKey itr = []) || bool_decide (bytesLe key (endKey itr))) then
            modify (fun itr => itr <| currentKey := key |> <| currentValue := dn_value node |>
              <| dbItr := rest |>);;
            mret true
          else
            seekForStartKeyWithinBucket (bucketNumber + 1);; scanLoop fuel
      end
  end.

Definition scan_Next (fuel : nat) : M RangeScanIterator bool :=
  done ← gets rs_done;
  if (done : bool) then mret false else scanLoop fuel.

Definition scan_GetKeyValue (itr : RangeScanIterator) : bytes * option bytes :=
  (currentKey itr, currentValue itr).

End scan.
