(* ===== verification/BucketStore.v ===== *)
(** The database of the bucket tree: when it holds a state and its tree
    ([consistent]), and what the readers of db_helper.go and the cache return
    then. *)
From stdpp Require Import base gmap list sorting.
From Stdlib Require Import ZArith Lia.
From Stdlib.Strings Require Import Byte.
From S2P Require Import Prelude GoStd GoBytes LedgerUtil KVStore StateDelta StateSpec BucketKeys.
From S2P Require Import BucketNode BucketHash BucketSpec BucketState.

(** Composite keys and values that are not empty. *)
Definition wfKvs (s : kvs) : Prop :=
  map_Forall (fun ck v => v <> [] /\ is_Some (DecodeCompositeKey ck)) s.

Definition allNil (hs : list (option bytes)) : bool := forallb (fun h => bool_decide (h = None)) hs.

Definition marshalHashes (hs : list (option bytes)) : bytes :=
  concat ((fun h => encodeRawBytes (default [] h)) <$> hs).

(** The database holds the data of [s] under the data keys, and under the key
    of every bucket node with a child that has a hash the hashes of its
    children; it holds nothing else. *)
Record consistent (conf : config) (cryptoHash : bytes -> bytes) (m : gmap bytes bytes) (s : kvs)
    : Prop := {
  cons_data : forall ck, m !! dataRawKey (bucketOf conf ck) ck = s !! ck;
  cons_node : forall k, validKey conf k -> level k < lowestLevel conf ->
    m !! getEncodedBytes k =
      if allNil (children conf cryptoHash s k) then None
      else Some (marshalHashes (children conf cryptoHash s k));
  cons_only : forall raw, is_Some (m !! raw) ->
    (exists ck, raw = dataRawKey (bucketOf conf ck) ck) \/
    (exists k, validKey conf k /\ level k < lowestLevel conf /\ raw = getEncodedBytes k)
}.

Lemma allNil_spec hs : allNil hs = true <-> forall h, h ∈ hs -> h = None.
Proof.
  unfold allNil. rewrite forallb_forall. split; intros H h Hh.
  - apply list_elem_of_In in Hh. specialize (H h Hh). by apply bool_decide_eq_true in H.
  - apply bool_decide_eq_true. apply H. by apply list_elem_of_In.
Qed.

Section store.
Context {DB : Type} `{RocksDBLaws DB}.
Context (conf : config) (cryptoHash : bytes -> bytes) (Hwf : wfConfig conf)
  (Hhash : forall b, cryptoHash b <> [] /\ fitsInt (cryptoHash b)).
Context (db : DB) (s : kvs) (Hdb : healthy db) (Hs : wfKvs s)
  (Hc : consistent conf cryptoHash (contents db StateCF) s).

Lemma bucketOf_u64 ck : is_u64 (bucketOf conf ck) /\ 1 <= bucketOf conf ck.
Proof.
  pose proof (bucketKeyOf_valid conf Hwf ck) as Hk. pose proof (validKey_small conf Hwf _ Hk) as Hu.
  cbn in Hu. pose proof (bucketOf_range conf Hwf ck). split; [apply Hu|lia].
Qed.

(** ** Data nodes *)

Definition pairNode (kv : bytes * bytes) : dataNode :=
  mkDataNode (mkDataKey (bucketKeyOf conf kv.1) kv.1) (Some kv.2).

Definition rawPair (kv : bytes * bytes) : bytes * bytes :=
  (dataRawKey (bucketOf conf kv.1) kv.1, kv.2).

Lemma rawPair_bucket x y : entryLt (rawPair x) (rawPair y) -> bucketOf conf x.1 <= bucketOf conf y.1.
Proof.
  unfold entryLt, bytesLt, rawPair. cbn [fst]. rewrite dataRawKey_compare by apply bucketOf_u64.
  destruct (Z.compare_spec (bucketOf conf x.1) (bucketOf conf y.1)); [lia|lia|done].
Qed.

Lemma rawPair_lt x y : bucketOf conf x.1 = bucketOf conf y.1 ->
  entryLt (rawPair x) (rawPair y) <-> entryLt x y.
Proof.
  intros E. unfold entryLt, bytesLt, rawPair. cbn [fst]. rewrite dataRawKey_compare by apply bucketOf_u64.
  by rewrite E, Z.compare_refl.
Qed.

(** The loop stops at the first entry of another bucket. *)
Lemma fetchLoop_filter b L : StronglySorted entryLt (rawPair <$> L) ->
  Forall (fun kv => b <= bucketOf conf kv.1) L ->
  fetchLoop conf (mkBucketKey (lowestLevel conf) b) (rawPair <$> L) =
    Some (pairNode <$> filter (fun kv => bucketOf conf kv.1 = b) L).
Proof.
  induction L as [|[ck v] L IH]; intros Hsort Hb; [done|]. rewrite fmap_cons in Hsort.
  apply StronglySorted_inv in Hsort as [Hsort Hx]. apply Forall_cons in Hb as [Hbx Hb].
  cbn [fmap list_fmap fetchLoop rawPair fst snd].
  rewrite newDataKeyFromEncodedBytes_wf by (done || apply bucketOf_range, Hwf).
  cbn [mbind option_bind]. unfold bucketKey_equals. cbn [dk_bucketKey level bucketNumber].
  rewrite Z.eqb_refl. cbn [andb]. rewrite filter_cons. cbn [fst].
  destruct (Z.eqb_spec (bucketOf conf ck) b) as [E|E]; cbn [negb].
  - rewrite decide_True by done. rewrite IH by done. done.
  - rewrite decide_False by done. replace (filter _ L) with (@nil (bytes * bytes)); [done|].
    symmetry. apply elem_of_nil_inv. intros y [Ey Hy]%list_elem_of_filter.
    rewrite Forall_forall in Hx. cbn in Hbx. assert (bucketOf conf ck <= bucketOf conf y.1); [|lia].
    apply (rawPair_bucket (ck, v) y). apply Hx. by apply list_elem_of_fmap_2.
Qed.

(** The entries from the smallest data key of a bucket on are data. *)
Lemma scan_data from : (exists n a, is_u64 n /\ 1 <= n /\ from = dataRawKey n a) ->
  exists L, ScanCF db StateCF from = rawPair <$> L /\
    forall ck v, (ck, v) ∈ L <-> s !! ck = Some v /\ bytesLe from (dataRawKey (bucketOf conf ck) ck).
Proof.
  intros (n & a & Hn & H1 & ->). rewrite ScanCF_entries by done.
  assert (forall x, x ∈ entriesFrom (contents db StateCF) (dataRawKey n a) ->
    exists kv, x = rawPair kv) as Hx.
  { intros [raw v] [Hv Hle]%elem_of_entriesFrom.
    destruct (cons_only _ _ _ _ Hc raw (mk_is_Some _ _ Hv)) as [[ck ->]|(k & Hk & Hl & ->)].
    - by exists (ck, v).
    - exfalso. apply bytesLe_not_lt in Hle. apply Hle. by apply node_lt_data. }
  assert (exists L, entriesFrom (contents db StateCF) (dataRawKey n a) = rawPair <$> L) as [L EL].
  { revert Hx. generalize (entriesFrom (contents db StateCF) (dataRawKey n a)) as l.
    induction l as [|x l IH]; intros Hl; [by exists []|].
    destruct (Hl x ltac:(by left)) as [kv ->]. destruct IH as [L ->]; [|by exists (kv :: L)].
    intros y Hy. apply Hl. by right. }
  exists L. split; [done|]. intros ck v.
  assert ((ck, v) ∈ L <-> rawPair (ck, v) ∈ rawPair <$> L) as ->.
  { split; [apply list_elem_of_fmap_2|]. intros ([ck' v'] & E & Hin)%list_elem_of_fmap.
    pose proof (f_equal fst E) as E1. pose proof (f_equal snd E) as E2. cbn [rawPair fst snd] in E1, E2.
    apply dataRawKey_inj in E1 as [_ ->]; [by rewrite E2|apply bucketOf_u64..]. }
  rewrite <- EL. unfold rawPair. cbn [fst snd]. rewrite elem_of_entriesFrom, (cons_data _ _ _ _ Hc). done.
Qed.

Lemma elem_of_bucketPairs b ck v :
  (ck, v) ∈ bucketPairs conf s b <-> s !! ck = Some v /\ bucketOf conf ck = b.
Proof.
  unfold bucketPairs. rewrite elem_of_entriesFrom, map_lookup_filter_Some.
  split; [tauto|]. intros. split; [done|]. apply (bytesLe_app []).
Qed.

Lemma composite_ge ck : is_Some (DecodeCompositeKey ck) -> bytesLe [x00] ck.
Proof.
  intros [[a b] E]. destruct ck as [|x ck]; [done|]. unfold bytesLe. cbn [bytesCompare].
  change (Z_of_byte x00) with 0. pose proof (Z_of_byte_range x).
  destruct (Z.compare_spec 0 (Z_of_byte x)); [|done|lia]. by destruct ck.
Qed.

(** [fetchDataNodesFromDBFor] returns the bucket. *)
Lemma fetchDataNodes_bucket b : 1 <= b <= numBucketsAt conf (lowestLevel conf) ->
  fetchDataNodesFromDBFor conf db (mkBucketKey (lowestLevel conf) b) =
    Some (pairNode <$> bucketPairs conf s b).
Proof.
  intros Hb. pose proof (validKey_small conf Hwf _ (lowest_valid conf Hwf b Hb)) as (_ & Hu & _).
  cbn in Hu. unfold fetchDataNodesFromDBFor, minimumPossibleDataKeyBytesFor. cbn [bucketNumber].
  rewrite encodeBucketNumber_opv by done. cbn [mbind option_bind].
  change (opv b ++ [x00]) with (dataRawKey b [x00]).
  destruct (scan_data (dataRawKey b [x00])) as (L & E & HL); [exists b, [x00]; split_and!; lia || done|].
  pose proof (ScanCF_sorted db StateCF (dataRawKey b [x00])) as Hsort. rewrite E in Hsort |- *.
  assert (Forall (fun kv => b <= bucketOf conf kv.1) L) as Hge.
  { rewrite Forall_forall. intros [ck v] [_ Hle]%HL. unfold bytesLe in Hle.
    rewrite dataRawKey_compare in Hle by (done || apply bucketOf_u64). cbn.
    destruct (Z.compare_spec b (bucketOf conf ck)); [lia|lia|done]. }
  rewrite fetchLoop_filter by done. do 2 f_equal. apply sorted_entries_unique.
  - clear -Hsort Hwf. induction L as [|x L IH]; [constructor|]. rewrite fmap_cons in Hsort.
    apply StronglySorted_inv in Hsort as [Hsort Hx]. rewrite filter_cons. case_decide as Ex; [|by apply IH].
    constructor; [by apply IH|]. rewrite Forall_forall in Hx |- *.
    intros y [Ey Hy]%list_elem_of_filter. apply rawPair_lt; [congruence|].
    apply Hx. by apply list_elem_of_fmap_2.
  - apply entriesFrom_sorted.
  - intros [ck v]. rewrite list_elem_of_filter, HL, elem_of_bucketPairs. cbn [fst].
    split; [tauto|]. intros [Hv Eb]. split; [done|]. split; [done|]. unfold bytesLe.
    rewrite dataRawKey_compare by (done || apply bucketOf_u64). rewrite Eb, Z.compare_refl.
    apply composite_ge. by destruct (Hs ck v Hv).
Qed.

Lemma fetchDataNode_value {S} ck (st : S) :
  fetchDataNodeFromDB db (mkDataKey (bucketKeyOf conf ck) ck) st =
    Done (Ok ((fun v => pairNode (ck, v)) <$> s !! ck)) st.
Proof.
  unfold fetchDataNodeFromDB. rewrite (dataKey_getEncodedBytes_wf conf Hwf) by apply bucketKeyOf_valid, Hwf.
  cbv [mbind M_bind]. cbn [lift mret M_ret]. cbv beta. unfold GetFromStateCF.
  rewrite OpenchainDB_get_contents by done. cbn [dk_bucketKey bucketKeyOf bucketNumber compositeKey].
  rewrite (cons_data _ _ _ _ Hc). destruct (s !! ck) as [v|] eqn:E; [|done].
  destruct (Hs ck v E) as [Hv _]. by destruct v.
Qed.

(** The committed value of a key. *)
Lemma StateImpl_Get_value {S} chaincodeID key (st : S) :
  StateImpl_Get conf db chaincodeID key st = Done (Ok (s !! ConstructCompositeKey chaincodeID key)) st.
Proof.
  unfold StateImpl_Get. rewrite (newDataKey_wf conf Hwf). unfold try. cbv [mbind M_bind lift mret M_ret].
  rewrite fetchDataNode_value. by destruct (s !! _).
Qed.

(** ** Bucket nodes *)

Lemma unmarshalChildren_marshal hs rest :
  Forall (fun h => forall b, h = Some b -> b <> [] /\ fitsInt b) hs ->
  unmarshalChildren (length hs) (marshalHashes hs ++ rest) = Some hs.
Proof.
  induction 1 as [|h hs Hh Hhs IH]; [done|]. unfold marshalHashes. cbn [length unmarshalChildren fmap list_fmap concat].
  rewrite <- app_assoc, bufDecodeRawBytes_encode.
  - cbn [mbind option_bind]. unfold marshalHashes in IH. rewrite IH. cbn [mbind option_bind].
    destruct h as [b|]; [|done]. destruct (Hh b eq_refl) as [Hb _]. by destruct b.
  - destruct h as [b|]; [by apply Hh|]. done.
Qed.

Lemma children_nonempty k :
  Forall (fun h => forall b, h = Some b -> b <> [] /\ fitsInt b) (children conf cryptoHash s k).
Proof.
  rewrite Forall_forall. intros h (i & -> & _)%list_elem_of_fmap b Eb.
  by eapply (nodeHash_nonempty conf cryptoHash Hhash).
Qed.

Definition storedNode (k : bucketKey) : bucketNode :=
  mkBucketNode k (children conf cryptoHash s k) (replicate (groupSize conf) false) false.

Lemma newBucketNode_wf k : newBucketNode conf k =
  Some (mkBucketNode k (replicate (groupSize conf) None) (replicate (groupSize conf) false) false).
Proof.
  unfold newBucketNode. pose proof (wf_grouping conf Hwf).
  by destruct (Z.ltb_spec (maxGroupingAtEachLevel conf) 0); [lia|].
Qed.

Lemma unmarshalBucketNode_stored k :
  unmarshalBucketNode conf k (marshalHashes (children conf cryptoHash s k)) = Some (storedNode k).
Proof.
  unfold unmarshalBucketNode. rewrite newBucketNode_wf. cbn [mbind option_bind].
  rewrite <- (children_length conf cryptoHash s k) at 1.
  rewrite <- (app_nil_r (marshalHashes _)), unmarshalChildren_marshal by apply children_nonempty. done.
Qed.

Lemma marshalHashes_nonempty hs : hs <> [] -> marshalHashes hs <> [].
Proof.
  destruct hs as [|h hs]; [done|]. intros _ E%(f_equal length). unfold marshalHashes in E.
  cbn [fmap list_fmap concat] in E. rewrite length_app in E.
  pose proof (encodeRawBytes_nonempty (default [] h)). cbn [length] in E. lia.
Qed.

(** The stored node of a key, or nothing when none of its children has a hash. *)
Lemma fetchBucketNode_stored {S} k (st : S) : validKey conf k -> level k < lowestLevel conf ->
  fetchBucketNodeFromDB conf db k st =
    Done (Ok (if allNil (children conf cryptoHash s k) then None else Some (storedNode k))) st.
Proof.
  intros Hk Hl. unfold fetchBucketNodeFromDB, GetFromStateCF.
  rewrite OpenchainDB_get_contents by done. rewrite (cons_node _ _ _ _ Hc k Hk Hl).
  destruct (allNil _) eqn:E; [done|]. cbn [mbind option_bind].
  pose proof (unmarshalBucketNode_stored k) as Hu.
  assert (marshalHashes (children conf cryptoHash s k) <> []) as Hne.
  { apply marshalHashes_nonempty. pose proof (children_length conf cryptoHash s k) as El.
    pose proof (wf_grouping conf Hwf). unfold groupSize in El.
    destruct (children conf cryptoHash s k); [cbn in El; lia|done]. }
  destruct (marshalHashes (children conf cryptoHash s k)) as [|b bs]; [done|].
  cbn [IsNil default mbind option_bind M_bind]. cbv [mbind M_bind]. cbn [from_option id]. rewrite Hu. done.
Qed.

(** ** The cache *)

(** A cached node has the hashes of the stored one. *)
Definition cacheOk (cache : bucketCache) : Prop :=
  isEnabled cache = true -> forall k node, cacheMap cache !! k = Some node ->
    bn_bucketKey node = k /\ validKey conf k /\ level k < lowestLevel conf /\
    childrenCryptoHash node = children conf cryptoHash s k.

(** Reading through the cache: a node with the stored hashes, or nothing when
    there are none. *)
Lemma cache_get_stored {S} cache k (st : S) : cacheOk cache -> validKey conf k ->
  level k < lowestLevel conf ->
  exists r, cache_get conf db cache k st = Done (Ok r) st /\
    match r with
    | Some node => bn_bucketKey node = k /\ childrenCryptoHash node = children conf cryptoHash s k
    | None => allNil (children conf cryptoHash s k) = true
    end.
Proof.
  intros Hcache Hk Hl. unfold cache_get.
  assert (exists r, fetchBucketNodeFromDB conf db k st = Done (Ok r) st /\
    match r with
    | Some node => bn_bucketKey node = k /\ childrenCryptoHash node = children conf cryptoHash s k
    | None => allNil (children conf cryptoHash s k) = true
    end) as Hfetch.
  { rewrite fetchBucketNode_stored by done. eexists. split; [reflexivity|]. by destruct (allNil _). }
  destruct (isEnabled cache) eqn:He; cbn [negb]; [|done].
  destruct (cacheMap cache !! k) as [node|] eqn:E; [|done].
  destruct (Hcache He k node E) as (? & _ & _ & ?). by exists (Some node).
Qed.

End store.
