(* ===== verification/BucketDelta.v ===== *)
(** The changes of a batch in the bucket tree, data_nodes_delta.go: how they
    are spread over the buckets, and that
    hashing a bucket with its changes gives the hash of the changed bucket. *)
From stdpp Require Import base gmap list sorting.
From Stdlib Require Import ZArith Lia.
From Stdlib.Strings Require Import Byte.
From S2P Require Import Prelude GoStd GoBytes LedgerUtil KVStore StateDelta StateSpec BucketKeys.
From S2P Require Import BucketNode BucketHash BucketSpec BucketState BucketStore.

(** * The changes by bucket *)

Section delta.
Context (conf : config) (Hwf : wfConfig conf).

Definition writeNode (kv : bytes * option bytes) : dataNode :=
  mkDataNode (mkDataKey (bucketKeyOf conf kv.1) kv.1) kv.2.

Definition addWrite (D : dataNodesDelta) (kv : bytes * option bytes) : dataNodesDelta :=
  <[bucketKeyOf conf kv.1 := default [] (D !! bucketKeyOf conf kv.1) ++ [writeNode kv]]> D.

Lemma add_wf D cc k v : add conf D cc k v = Some (addWrite D (ConstructCompositeKey cc k, v)).
Proof. unfold add. by rewrite (newDataKey_wf conf Hwf). Qed.

Lemma foldO_total {A B} (f : A -> B -> option A) (g : A -> B -> A) a l :
  (forall a b, f a b = Some (g a b)) -> foldO f a l = Some (foldl g a l).
Proof. intros Hf. revert a. induction l as [|b l IH]; intros a; [done|]. cbn. rewrite Hf. apply IH. Qed.

Lemma foldl_fmap_concat {A B C} (f : A -> C -> A) (g : B -> list C) a l :
  foldl (fun a b => foldl f a (g b)) a l = foldl f a (concat (g <$> l)).
Proof.
  revert a. induction l as [|b l IH]; intros a; [done|]. cbn. by rewrite IH, foldl_app.
Qed.

Lemma newDataNodesDelta_writes o d :
  newDataNodesDelta conf o d =
    Some (merge_sort dataNodeLe <$> foldl addWrite ∅ (orderedWrites o d)).
Proof.
  unfold newDataNodesDelta, GetUpdatedChaincodeIds.
  rewrite (foldO_total _ (fun D cc => foldl addWrite D
    (chaincodeWrites d cc (ord o 1 (default ∅ (GetUpdates d cc)))))).
  - cbn [mbind option_bind]. by rewrite foldl_fmap_concat.
  - intros D cc. unfold chaincodeWrites.
    rewrite (foldO_total _ (fun D '(k, u) => addWrite D (ConstructCompositeKey cc k, newValue d u))).
    + f_equal. rewrite foldl_fmap. generalize D. induction (ord o 1 _) as [|[k u] l IH]; cbn; auto.
    + intros D' [k u]. rewrite add_wf. by unfold newValue, GetPreviousValue, GetValue.
Qed.
(** A bucket of the delta holds the nodes of its writes. *)
Lemma lookup_addWrites l D k :
  default [] (foldl addWrite D l !! k) =
    default [] (D !! k) ++ (writeNode <$> filter (fun kv => bucketKeyOf conf kv.1 = k) l) /\
  (is_Some (foldl addWrite D l !! k) <->
    is_Some (D !! k) \/ exists kv, kv ∈ l /\ bucketKeyOf conf kv.1 = k).
Proof.
  revert D. induction l as [|kv l IH]; intros D.
  { cbn. rewrite app_nil_r. split; [done|]. split; [auto|]. by intros [?|(? & ?%elem_of_nil & _)]. }
  cbn [foldl]. destruct (IH (addWrite D kv)) as [-> ->]. unfold addWrite. rewrite filter_cons.
  rewrite !lookup_insert. destruct (decide (bucketKeyOf conf kv.1 = k)) as [<-|Hne].
  - cbn. rewrite <- app_assoc. split; [done|]. split; [|eauto]. intros _. right. exists kv.
    split; [by left|done].
  - split; [done|]. apply or_iff_compat_l. split.
    + intros (kv' & ? & ?). exists kv'. split; [by right|done].
    + intros (kv' & [->|?]%elem_of_cons & ?); [done|]. eauto.
Qed.

(** What the changes by bucket are, for writes [w]. *)
Record spread (D : dataNodesDelta) (w : gmap bytes (option bytes)) : Prop := {
  spread_sorted : forall k nodes, D !! k = Some nodes -> StronglySorted nodeLt nodes;
  spread_nodes : forall k nodes node, D !! k = Some nodes ->
    node ∈ nodes <-> exists ck v, w !! ck = Some v /\ bucketKeyOf conf ck = k /\ node = writeNode (ck, v);
  spread_dom : forall k, is_Some (D !! k) <-> exists ck, is_Some (w !! ck) /\ bucketKeyOf conf ck = k
}.

#[export] Instance dataNodeLe_trans : Transitive dataNodeLe.
Proof. intros x y z. unfold dataNodeLe. apply transitivity. Qed.
#[export] Instance dataNodeLe_total : Total dataNodeLe.
Proof. intros x y. apply bytesLe_total. Qed.

Lemma nodes_le_lt l : NoDup (getCompositeKey <$> l) -> StronglySorted dataNodeLe l ->
  StronglySorted nodeLt l.
Proof.
  intros Hnd. induction 1 as [|x l Hl IH Hx]; constructor; rewrite fmap_cons in Hnd;
    apply NoDup_cons in Hnd as [Hfresh Hnd]; [by apply IH|].
  rewrite Forall_forall in Hx |- *. intros y Hy.
  destruct (proj1 (bytesLe_lt _ _) (Hx y Hy)) as [?|E]; [done|].
  destruct Hfresh. rewrite E. by apply list_elem_of_fmap_2.
Qed.

Lemma newDataNodesDelta_spread o d : noDelimiter d ->
  exists D, newDataNodesDelta conf o d = Some D /\ spread D (deltaWrites d).
Proof.
  intros Hd. rewrite newDataNodesDelta_writes. eexists. split; [reflexivity|].
  pose proof (orderedWrites_NoDup o d Hd) as Hnd.
  assert (forall ck v, deltaWrites d !! ck = Some v <-> (ck, v) ∈ orderedWrites o d) as Hw.
  { intros ck v. rewrite <- (orderedWrites_map o d Hd). symmetry. by apply elem_of_list_to_map. }
  assert (forall k nodes, (merge_sort dataNodeLe <$> foldl addWrite ∅ (orderedWrites o d)) !! k = Some nodes ->
    nodes = merge_sort dataNodeLe
      (writeNode <$> filter (fun kv => bucketKeyOf conf kv.1 = k) (orderedWrites o d))) as Hn.
  { intros k nodes. rewrite lookup_fmap. destruct (lookup_addWrites (orderedWrites o d) ∅ k) as [E _].
    rewrite lookup_empty in E. destruct (foldl _ _ _ !! k); [|done]. cbn in E |- *. subst. by intros [= <-]. }
  split.
  - intros k nodes ->%Hn. apply nodes_le_lt; [|apply (StronglySorted_merge_sort _)].
    rewrite merge_sort_Permutation, <- list_fmap_compose.
    rewrite (list_fmap_ext _ fst) by done. by apply NoDup_fst_filter.
  - intros k nodes node ->%Hn. rewrite merge_sort_Permutation, list_elem_of_fmap. split.
    + intros ([ck v] & -> & [Hk Hin]%list_elem_of_filter). exists ck, v. by rewrite Hw.
    + intros (ck & v & Hv%Hw & Hk & ->). exists (ck, v). by rewrite list_elem_of_filter.
  - intros k. rewrite lookup_fmap, fmap_is_Some.
    destruct (lookup_addWrites (orderedWrites o d) ∅ k) as [_ ->]. rewrite lookup_empty. split.
    + intros [[? [=]]|([ck v] & Hin & Hk)]. exists ck. split; [|done]. exists v. by apply Hw.
    + intros (ck & [v Hv%Hw] & Hk). right. by exists (ck, v).
Qed.

(** ** The hash of a changed bucket *)

Section hash.
Context (cryptoHash : bytes -> bytes) (s : kvs) (w : gmap bytes (option bytes)) (D : dataNodesDelta).
Context (Hs : wfKvs s) (HD : spread D w)
  (Hw : forall ck v, w !! ck = Some v -> is_Some (DecodeCompositeKey ck)).

Lemma applyWrites_wf : wfKvs (applyWrites s w).
Proof.
  intros ck v. rewrite lookup_applyWrites. destruct (w !! ck) as [v'|] eqn:E; [|apply Hs].
  intros Hv. split; [|by eapply Hw]. unfold nonNil in Hv. destruct v' as [[|]|]; cbn in Hv; try done.
  by injection Hv as <-.
Qed.

Lemma sorted_nodes_unique l l' : StronglySorted nodeLt l -> StronglySorted nodeLt l' ->
  (forall x, x ∈ l <-> x ∈ l') -> l = l'.
Proof.
  intros Hl Hl' E.
  assert (forall l, StronglySorted nodeLt l -> NoDup l) as Hnd.
  { clear. induction 1 as [|x l Hl IH Hx]; constructor; [|done]. intros Hin.
    rewrite Forall_forall in Hx. by apply (bytesLt_irrefl (getCompositeKey x)), (Hx x Hin). }
  apply (StronglySorted_unique_strong nodeLt); [|done..|].
  - intros x y _ _ Hxy Hyx. exfalso. apply (bytesLt_irrefl (getCompositeKey x)). by eapply nodeLt_trans.
  - apply NoDup_Permutation; auto.
Qed.

Lemma pairNode_sorted l : StronglySorted entryLt l -> StronglySorted nodeLt (pairNode conf <$> l).
Proof.
  induction 1 as [|x l Hl IH Hx]; constructor; [done|]. apply Forall_fmap. exact Hx.
Qed.

Lemma filter_sorted (P : dataNode -> bool) l : StronglySorted nodeLt l ->
  StronglySorted nodeLt (List.filter P l).
Proof.
  induction 1 as [|x l Hl IH Hx]; cbn; [constructor|]. destruct (P x); [|done]. constructor; [done|].
  rewrite Forall_forall in Hx |- *. intros y [Hy _]%list_elem_of_In%filter_In. apply Hx.
  by apply list_elem_of_In.
Qed.

(** Changed and stored nodes merged, deletions left out, are the new bucket. *)
Lemma merged_bucket b nodes : D !! mkBucketKey (lowestLevel conf) b = Some nodes ->
  List.filter (fun n => negb (dataNode_isDelete n))
    (mergeNodes nodes (pairNode conf <$> bucketPairs conf s b)) =
  pairNode conf <$> bucketPairs conf (applyWrites s w) b.
Proof.
  intros HDb. pose proof (spread_sorted _ _ HD _ _ HDb) as Hsn.
  pose proof (pairNode_sorted _ (entriesFrom_sorted (filter (fun '(ck, _) => bucketOf conf ck = b) s) [])) as Hse.
  fold (bucketPairs conf s b) in Hse. apply sorted_nodes_unique.
  - by apply filter_sorted, mergeNodes_sorted.
  - apply pairNode_sorted, entriesFrom_sorted.
  - intros x. rewrite list_elem_of_In, filter_In, <- list_elem_of_In, elem_of_mergeNodes by done.
    rewrite !list_elem_of_fmap. split.
    + intros [[Hx|[([ck v] & -> & [Hv Hb]%elem_of_bucketPairs) Hno]] Hdel].
      * apply (spread_nodes _ _ HD _ _ _ HDb) in Hx as (ck & v & Hv & Hk & ->).
        cbn in Hdel. destruct v as [[|a v]|]; try done. exists (ck, a :: v). split; [done|].
        apply elem_of_bucketPairs. rewrite lookup_applyWrites, Hv. split; [done|]. by injection Hk.
      * exists (ck, v). split; [done|]. apply elem_of_bucketPairs. split; [|done].
        rewrite lookup_applyWrites. destruct (w !! ck) as [v'|] eqn:E; [|done]. exfalso.
        apply (Hno (writeNode (ck, v'))); [|done]. apply (spread_nodes _ _ HD _ _ _ HDb).
        exists ck, v'. split; [done|]. split; [|done]. unfold bucketKeyOf. by rewrite Hb.
    + intros ([ck v] & -> & [Hv Hb]%elem_of_bucketPairs). rewrite lookup_applyWrites in Hv. split.
      * destruct (w !! ck) as [v'|] eqn:E.
        -- left. apply (spread_nodes _ _ HD _ _ _ HDb). exists ck, v'. split; [done|].
           split; [unfold bucketKeyOf; by rewrite Hb|]. unfold nonNil in Hv.
           destruct (IsNil v'); [done|]. by subst v'.
        -- right. split; [exists (ck, v); split; [done|]; by apply elem_of_bucketPairs|].
           intros u (ck' & v' & Hv' & _ & ->)%(spread_nodes _ _ HD _ _ _ HDb). cbn. intros ->. congruence.
      * cbn. destruct (w !! ck) as [v'|]; [unfold nonNil in Hv; destruct v' as [[|]|]; cbn in Hv; try done; by injection Hv as <-|].
        destruct (Hs ck v Hv) as [Hne _]. by destruct v.
Qed.

(** The bucket hash of the code is the hash of the new state's bucket. *)
Lemma computeDataNodesCryptoHash_bucket b nodes : D !! mkBucketKey (lowestLevel conf) b = Some nodes ->
  computeDataNodesCryptoHash cryptoHash nodes (pairNode conf <$> bucketPairs conf s b) =
    Some (bucketHash conf cryptoHash (applyWrites s w) b).
Proof.
  intros HDb. unfold computeDataNodesCryptoHash. rewrite mergeLoop_nodes, foldO_delete.
  rewrite (merged_bucket b nodes HDb). apply calculator_hash.
  assert (Forall (fun kv => is_Some (pairEntry kv)) (bucketPairs conf (applyWrites s w) b)) as Hall.
  { rewrite Forall_forall. intros [ck v] [Hv _]%elem_of_bucketPairs.
    destruct (applyWrites_wf ck v Hv) as [_ [[a k] E]]. unfold pairEntry. cbn [fst snd]. rewrite E. by eexists. }
  induction Hall as [|kv l [e He] Hall IH]; cbn [omap list_omap fmap list_fmap]; [constructor|].
  rewrite He. constructor; [|done]. unfold nodeEntry. exact He.
Qed.
End hash.

End delta.
