(* ===== verification/BucketProcess.v ===== *)
(** The computation of the state hash, state_impl.go: processDataNodeDelta and
    processBucketTreeDelta build, level by level, the nodes above the changed
    buckets with the hashes of the changed state. *)
From stdpp Require Import base gmap list sorting.
From Stdlib Require Import ZArith Lia.
From Stdlib.Strings Require Import Byte.
From S2P Require Import Prelude GoStd GoBytes LedgerUtil KVStore StateDelta StateSpec BucketKeys.
From S2P Require Import BucketNode BucketHash BucketSpec BucketState BucketStore BucketDelta.

(** * Nodes of a delta *)

Lemma getNode_putNode d k node k' :
  getNode (putNode d k node) k' = if decide (k' = k) then Some node else getNode d k'.
Proof.
  unfold getNode, putNode. rewrite lookup_insert. destruct k as [l n], k' as [l' n']. cbn.
  destruct (decide (l = l')) as [<-|Hl].
  - cbn. rewrite lookup_insert. destruct (decide (n = n')) as [<-|Hn].
    + by rewrite decide_True.
    + rewrite decide_False by congruence. by destruct (d !! l); cbn; rewrite ?lookup_empty.
  - by rewrite decide_False by congruence.
Qed.

Lemma elem_of_getBucketNodesAt o d l node :
  node ∈ getBucketNodesAt o d l <-> exists n, getNode d (mkBucketKey l n) = Some node.
Proof.
  unfold getBucketNodesAt, getNode. cbn. destruct (d !! l) as [m|]; cbn.
  - rewrite list_elem_of_fmap. split.
    + intros ([n x] & -> & Hin%elem_of_ord). eauto.
    + intros [n Hn]. exists (n, node). split; [done|]. by apply elem_of_ord.
  - split; [by intros ?%elem_of_nil|by intros []].
Qed.

(** * Merging and hashing a node *)

Definition mergedChild (upd : list bool) (cs hs : list (option bytes)) (i off : nat)
    : option (option bytes) :=
  match upd !! i with
  | Some false => match cs !! i with
                  | Some h => if IsNil h then hs !! (i - off)%nat else Some h
                  | None => None
                  end
  | _ => cs !! i
  end.

Lemma mergeChildren_lookup upd hs off cs :
  (off + length hs <= length upd)%nat -> (off + length hs <= length cs)%nat ->
  exists cs', foldO (mergeChild upd) cs (imap (fun j h => ((off + j)%nat, h)) hs) = Some cs' /\
    length cs' = length cs /\
    forall i, cs' !! i = if decide (off <= i < off + length hs)%nat then mergedChild upd cs hs i off
                         else cs !! i.
Proof.
  revert off cs. induction hs as [|h hs IH]; intros off cs Hu Hc; cbn [length imap foldO] in *.
  { exists cs. split; [done|]. split; [done|]. intros i. by rewrite decide_False by lia. }
  rewrite Nat.add_0_r. destruct (lookup_lt_is_Some_2 upd off ltac:(lia)) as [u Eu].
  destruct (lookup_lt_is_Some_2 cs off ltac:(lia)) as [c Ec].
  set (cs1 := if u then cs else if IsNil c then <[off:=h]> cs else cs).
  assert (mergeChild upd cs (off, h) = Some cs1) as ->.
  { cbn. rewrite Eu. cbn. subst cs1. destruct u; [done|]. by rewrite Ec. }
  cbn [mbind option_bind].
  assert (length cs1 = length cs) as El.
  { subst cs1. destruct u; [done|]. destruct (IsNil c); [by rewrite length_insert|done]. }
  destruct (IH (S off) cs1) as (cs' & E & Hl & Hi); [lia|lia|].
  exists cs'. split; [|split; [congruence|]].
  { rewrite <- E. f_equal. apply imap_ext. intros j x _. cbn. by rewrite Nat.add_succ_r. }
  intros i. rewrite Hi. destruct (decide (i = off)) as [->|Hne].
  - rewrite decide_False, decide_True by lia. unfold mergedChild. rewrite Eu, Ec, Nat.sub_diag. subst cs1.
    destruct u; [done|]. destruct (IsNil c); [|done]. by rewrite list_lookup_insert_eq by lia.
  - assert (cs1 !! i = cs !! i) as E1.
    { subst cs1. destruct u; [done|]. destruct (IsNil c); [by rewrite list_lookup_insert_ne|done]. }
    destruct (decide (S off <= i < S off + length hs)%nat).
    + rewrite decide_True by lia. unfold mergedChild. rewrite E1.
      replace (i - off)%nat with (S (i - S off)) by lia. done.
    + by rewrite decide_False by lia.
Qed.

Section hashing.
Context (conf : config) (cryptoHash : bytes -> bytes).

Lemma hashChildren k off hs acc n :
  (forall j b, hs !! j = Some (Some b) -> b <> [] /\ is_Some (getChildKey conf k (Z.of_nat (off + j)))) ->
  foldO (hashChild conf k) (acc, n) (imap (fun j h => ((off + j)%nat, h)) hs) =
    Some (acc ++ concat (omap id hs), n + Z.of_nat (length (omap id hs))).
Proof.
  revert off acc n. induction hs as [|h hs IH]; intros off acc n Hh; cbn [imap foldO].
  { cbn. by rewrite app_nil_r, Z.add_0_r. }
  assert (forall j b, hs !! j = Some (Some b) ->
    b <> [] /\ is_Some (getChildKey conf k (Z.of_nat (S off + j)))) as Hh'.
  { intros j b Hj. specialize (Hh (S j) b Hj). by rewrite Nat.add_succ_r in Hh. }
  assert (imap ((fun j h => ((off + j)%nat, h)) ∘ S) hs = imap (fun j h => ((S off + j)%nat, h)) hs) as ->.
  { apply imap_ext. intros j x _. cbn. by rewrite Nat.add_succ_r. }
  destruct h as [b|].
  - destruct (Hh 0%nat b eq_refl) as [Hb [ck Eck]]. cbn [hashChild]. destruct b as [|x b]; [done|].
    cbn [NotNil IsNil negb]. rewrite Eck. cbn [mbind option_bind]. rewrite IH by done.
    cbn. rewrite <- !app_assoc. do 2 f_equal. lia.
  - cbn [hashChild NotNil IsNil negb mbind option_bind]. by rewrite IH.
Qed.

Lemma omap_id_nil hs : omap id hs = [] <-> allNil hs = true.
Proof.
  rewrite allNil_spec. split.
  - intros E h Hh. destruct h as [b|]; [|done]. exfalso.
    assert (b ∈ omap id hs) as Hb by (apply list_elem_of_omap; by exists (Some b)).
    rewrite E in Hb. by apply elem_of_nil in Hb.
  - intros H. apply elem_of_nil_inv. intros b (x & Hx & E)%list_elem_of_omap.
    rewrite (H x Hx) in E. done.
Qed.
End hashing.

(** * Building the tree *)

Definition withTree (st : StateImpl) (t : bucketTreeDelta) : StateImpl :=
  st <| si_bucketTreeDelta := Some t |>.

Section build.
Context {DB : Type} `{RocksDBLaws DB}.
Context (conf : config) (cryptoHash : bytes -> bytes) (o : mapOrder) (Hwf : wfConfig conf)
  (Hhash : forall b, cryptoHash b <> [] /\ fitsInt (cryptoHash b)).
(** The new state and the buckets in which it differs. *)
Context (s' : kvs) (A : gset Z).

Abbreviation hashOf := (nodeHash conf cryptoHash s').

(** A node of which the hashes of the children in [S] are known. *)
Record partialNode (S : gset Z) (k : bucketKey) (node : bucketNode) : Prop := {
  pn_key : bn_bucketKey node = k;
  pn_hashes : length (childrenCryptoHash node) = groupSize conf;
  pn_flags : length (childrenUpdated node) = groupSize conf;
  pn_updated : forall i, (i < groupSize conf)%nat ->
    childrenUpdated node !! i = Some (bool_decide (childNumber conf (bucketNumber k) i ∈ S));
  pn_children : forall i, (i < groupSize conf)%nat ->
    childrenCryptoHash node !! i =
      Some (if decide (childNumber conf (bucketNumber k) i ∈ S) then hashOf (childOf conf k i) else None);
  pn_marked : markedForDeletion node = false
}.

Abbreviation parents S := (set_map (parentNumber conf) S : gset Z).

(** The nodes of level [l] are those above [S], partially filled. *)
Definition levelPartial (l : Z) (S : gset Z) (tree : bucketTreeDelta) : Prop :=
  forall n, match getNode tree (mkBucketKey l n) with
            | Some node => n ∈ parents S /\ partialNode S (mkBucketKey l n) node
            | None => n ∉ parents S
            end.

Lemma newNode_partial S k : bucketNumber k ∉ parents S ->
  partialNode S k
    (mkBucketNode k (replicate (groupSize conf) None) (replicate (groupSize conf) false) false).
Proof.
  intros Hk.
  assert (forall i, (i < groupSize conf)%nat -> childNumber conf (bucketNumber k) i ∉ S) as Hno.
  { intros i Hi Hin. apply Hk. apply elem_of_map. eexists. split; [|exact Hin].
    symmetry. by apply (parentNumber_child conf Hwf). }
  constructor; cbn; try done; try (by rewrite length_replicate).
  - intros i Hi. rewrite lookup_replicate_2 by done. by rewrite bool_decide_eq_false_2 by (by apply Hno).
  - intros i Hi. rewrite lookup_replicate_2 by done. by rewrite decide_False by (by apply Hno).
Qed.

Lemma getOrCreate_partial l S tree n : levelPartial l S tree ->
  exists node tree', getOrCreateBucketNode conf tree (mkBucketKey l n) = Some (node, tree') /\
    partialNode S (mkBucketKey l n) node /\
    forall k', k' <> mkBucketKey l n -> getNode tree' k' = getNode tree k'.
Proof.
  intros HL. specialize (HL n). unfold getOrCreateBucketNode.
  destruct (getNode tree (mkBucketKey l n)) as [node|].
  - exists node, tree. split; [done|]. by split; [apply HL|].
  - rewrite (newBucketNode_wf conf Hwf). cbn [mbind option_bind]. eexists _, _. split; [reflexivity|].
    split; [by apply newNode_partial|]. intros k' Hk'. by rewrite getNode_putNode, decide_False.
Qed.

Lemma setAt_lt {X} (l : list X) (i : nat) x : (i < length l)%nat ->
  setAt l (Z.of_nat i) x = Some (<[i := x]> l).
Proof.
  intros Hi. unfold setAt. destruct (Z.ltb_spec (Z.of_nat i) 0); [lia|]. rewrite Z.geb_leb.
  destruct (Z.leb_spec (Z.of_nat (length l)) (Z.of_nat i)); [lia|]. by rewrite Nat2Z.id.
Qed.

(** Filling in one more child. *)
Lemma setChild_partial S k node : partialNode S (parentOf conf k) node ->
  exists node', setChildCryptoHash conf node k (hashOf k) = Some node' /\
    partialNode (S ∪ {[bucketNumber k]}) (parentOf conf k) node'.
Proof.
  intros [Hk Hh Hf Hu Hc Hm]. pose proof (childIndex_lt conf Hwf (bucketNumber k)) as Hi.
  unfold setChildCryptoHash. rewrite Hk, (getChildIndex_wf conf Hwf). cbn [mbind option_bind].
  rewrite !setAt_lt by (rewrite ?Hh, ?Hf; exact Hi). cbn [mbind option_bind].
  eexists. split; [reflexivity|].
  assert (forall i, (i < groupSize conf)%nat -> i <> childIndex conf (bucketNumber k) ->
    childNumber conf (bucketNumber (parentOf conf k)) i <> bucketNumber k) as Hne.
  { intros i Hi' Hne E. apply Hne. rewrite <- E. symmetry.
    by apply (parentNumber_child conf Hwf (bucketNumber (parentOf conf k)) i). }
  constructor; cbn [bn_bucketKey childrenCryptoHash childrenUpdated markedForDeletion setter];
    rewrite ?length_insert; try done.
  - intros i Hi'. destruct (decide (i = childIndex conf (bucketNumber k))) as [->|Hi2].
    + rewrite list_lookup_insert_eq by (rewrite Hf; exact Hi). f_equal. symmetry. apply bool_decide_eq_true.
      cbn [parentOf bucketNumber]. rewrite (childNumber_parent conf Hwf). by apply elem_of_union_r, elem_of_singleton.
    + rewrite list_lookup_insert_ne, Hu by done. f_equal. apply bool_decide_ext.
      specialize (Hne i Hi' Hi2). rewrite elem_of_union, elem_of_singleton. tauto.
  - intros i Hi'. destruct (decide (i = childIndex conf (bucketNumber k))) as [->|Hi2].
    + rewrite list_lookup_insert_eq by (rewrite Hh; exact Hi). rewrite decide_True.
      * by rewrite (childOf_parentOf conf Hwf).
      * cbn [parentOf bucketNumber]. rewrite (childNumber_parent conf Hwf). by apply elem_of_union_r, elem_of_singleton.
    + rewrite list_lookup_insert_ne, Hc by done. f_equal. specialize (Hne i Hi' Hi2).
      destruct (decide (childNumber conf (bucketNumber (parentOf conf k)) i ∈ S)).
      * by rewrite decide_True by (apply elem_of_union; auto).
      * by rewrite decide_False by (rewrite elem_of_union, elem_of_singleton; tauto).
Qed.

(** A node of another parent is not concerned. *)
Lemma partialNode_other S k n node : parentNumber conf n <> bucketNumber k ->
  partialNode S k node -> partialNode (S ∪ {[n]}) k node.
Proof.
  intros Hn [Hk Hh Hf Hu Hc Hm].
  assert (forall i, (i < groupSize conf)%nat ->
    childNumber conf (bucketNumber k) i ∈ S ∪ {[n]} <-> childNumber conf (bucketNumber k) i ∈ S) as Hiff.
  { intros i Hi. rewrite elem_of_union, elem_of_singleton. split; [|auto]. intros [?|E]; [done|].
    destruct Hn. rewrite <- E. by apply (parentNumber_child conf Hwf). }
  constructor; try done.
  - intros i Hi. rewrite Hu by done. f_equal. apply bool_decide_ext. by rewrite Hiff.
  - intros i Hi. rewrite Hc by done. f_equal. specialize (Hiff i Hi).
    destruct (decide (childNumber conf (bucketNumber k) i ∈ S)).
    + by rewrite decide_True by tauto.
    + by rewrite decide_False by tauto.
Qed.

(** [updateParent] with the hash of a node of the new state. *)
Lemma updateParent_partial S k tree st : validKey conf k -> 1 <= level k ->
  levelPartial (level k - 1) S tree ->
  exists tree', updateParent conf k (hashOf k) (withTree st tree) = Done tt (withTree st tree') /\
    levelPartial (level k - 1) (S ∪ {[bucketNumber k]}) tree' /\
    forall k', level k' <> level k - 1 -> getNode tree' k' = getNode tree k'.
Proof.
  intros Hk Hl HL. unfold updateParent. rewrite (getParentKey_wf conf Hwf) by done.
  destruct (getOrCreate_partial _ S tree (parentNumber conf (bucketNumber k)) HL)
    as (node & tree1 & E1 & Hp & Hsame). fold (parentOf conf k) in E1, Hp, Hsame.
  destruct (setChild_partial S k node Hp) as (node' & E2 & Hp').
  exists (putNode tree1 (parentOf conf k) node'). split; [|split].
  - cbv [mbind M_bind theTree gets lift mret M_ret setTree modify]. cbn. rewrite E1. cbv beta iota.
    rewrite E2. done.
  - intros n. rewrite getNode_putNode. case_decide as E.
    + injection E as ->. split; [|done]. apply elem_of_map. exists (bucketNumber k). split; [done|].
      by apply elem_of_union_r, elem_of_singleton.
    + rewrite Hsame by done. specialize (HL n). destruct (getNode tree _) as [x|].
      * destruct HL as [Hn Hx]. split.
        { apply elem_of_map in Hn as (y & -> & ?). apply elem_of_map. exists y. split; [done|].
          by apply elem_of_union_l. }
        apply partialNode_other; [|done]. cbn. intros E2'. apply E. unfold parentOf. by rewrite E2'.
      * intros Hin. apply HL. apply elem_of_map in Hin as (y & -> & [Hy| ->%elem_of_singleton]%elem_of_union).
        -- apply elem_of_map. eauto.
        -- by destruct E.
  - intros k' Hk'. rewrite getNode_putNode, decide_False by (intros ->; by apply Hk').
    apply Hsame. intros ->. by apply Hk'.
Qed.

(** * Level by level *)

Section levels.
Context (db : DB) (s : kvs) (Hdb : healthy db) (Hs : wfKvs s)
  (Hc : consistent conf cryptoHash (contents db StateCF) s).
Context (HA : forall b, b ∈ A -> validKey conf (mkBucketKey (lowestLevel conf) b))
  (Hagree : agreeOutside conf A s s').

Abbreviation T := (touchedAt conf A).

(** A finished node. *)
Definition fullNode (k : bucketKey) (node : bucketNode) : Prop :=
  bn_bucketKey node = k /\ childrenCryptoHash node = children conf cryptoHash s' k /\
  markedForDeletion node = allNil (children conf cryptoHash s' k).

(** The nodes of level [l] while it is processed: those in [S] are finished. *)
Definition levelMid (l : Z) (S : gset Z) (tree : bucketTreeDelta) : Prop :=
  forall n, match getNode tree (mkBucketKey l n) with
            | Some node => n ∈ T l /\
                if decide (n ∈ S) then fullNode (mkBucketKey l n) node
                else partialNode (T (l + 1)) (mkBucketKey l n) node
            | None => n ∉ T l
            end.

Lemma levelPartial_Mid l tree : l < lowestLevel conf ->
  levelPartial l (T (l + 1)) tree -> levelMid l ∅ tree.
Proof.
  intros Hl HL n. specialize (HL n). rewrite (touchedAt_up conf A l Hl).
  destruct (getNode tree _); [|done]. by rewrite decide_False by apply not_elem_of_empty.
Qed.

(** Merged with what is stored, a node has the hashes of the new state. *)
Lemma merge_stored {St} cache k node (st : St) : cacheOk conf cryptoHash s cache ->
  validKey conf k -> level k < lowestLevel conf -> partialNode (T (level k + 1)) k node ->
  exists r node', cache_get conf db cache k st = Done (Ok r) st /\
    match r with Some dbNode => mergeBucketNode node dbNode | None => Some node end = Some node' /\
    bn_bucketKey node' = k /\ childrenCryptoHash node' = children conf cryptoHash s' k /\
    markedForDeletion node' = false.
Proof.
  intros Hcache Hk Hl [Hkey Hh Hf Hu Hch Hm].
  destruct (cache_get_stored conf cryptoHash Hwf Hhash db s Hdb Hc cache k st Hcache Hk Hl)
    as (r & E & Hr). exists r.
  assert (forall i, (i < groupSize conf)%nat ->
    childNumber conf (bucketNumber k) i ∉ T (level k + 1) ->
    nodeHash conf cryptoHash s (childOf conf k i) = hashOf (childOf conf k i)) as Hun.
  { intros i Hi Hin. by apply (nodeHash_agree conf cryptoHash Hwf A). }
  destruct r as [dbNode|].
  - destruct Hr as [Hkey' Hch']. unfold mergeBucketNode, bucketKey_equals. rewrite Hkey, Hkey', !Z.eqb_refl.
    cbn [andb negb]. destruct (mergeChildren_lookup (childrenUpdated node)
      (childrenCryptoHash dbNode) 0 (childrenCryptoHash node)) as (cs & Ecs & Hlen & Hcs);
      [rewrite Hch', children_length; cbn; lia..|].
    eexists. split; [exact E|]. rewrite (imap_ext _ (fun j h => ((0 + j)%nat, h)) _) by done.
    rewrite Ecs. cbn [mbind option_bind]. split; [reflexivity|]. split; [done|]. split; [|done]. cbn.
    apply list_eq. intros i. rewrite Hcs, Hch', children_length. cbn.
    destruct (decide (0 <= i < groupSize conf)%nat) as [Hi|Hi].
    + unfold mergedChild. rewrite Hu, Hch, Nat.sub_0_r, !children_lookup by lia.
      case_bool_decide as Hin; [by rewrite decide_True|]. rewrite decide_False by done.
      cbn. by rewrite Hun by (lia || done).
    + rewrite (proj2 (lookup_ge_None _ i)) by lia. symmetry. apply lookup_ge_None.
      rewrite children_length. lia.
  - exists node. split; [exact E|]. split; [done|]. split; [done|]. split; [|done].
    apply list_eq. intros i. destruct (decide (i < groupSize conf)%nat) as [Hi|Hi].
    + rewrite Hch, children_lookup by done. case_decide as Hin; [done|].
      rewrite <- Hun by done. f_equal. symmetry.
      apply (proj1 (allNil_spec _) Hr). apply list_elem_of_lookup. exists i. by apply children_lookup.
    + rewrite !(proj2 (lookup_ge_None _ i)); [done|rewrite children_length; lia|lia].
Qed.

Lemma computeCryptoHash_full k node : validKey conf k -> level k < lowestLevel conf ->
  bn_bucketKey node = k -> childrenCryptoHash node = children conf cryptoHash s' k ->
  markedForDeletion node = false ->
  exists node', computeCryptoHash conf cryptoHash node = Some (hashOf k, node') /\ fullNode k node'.
Proof.
  intros Hk Hl Hkey Hch Hm. unfold computeCryptoHash. rewrite Hkey, Hch.
  rewrite (imap_ext _ (fun j h => ((0 + j)%nat, h)) _) by done.
  rewrite hashChildren.
  - cbn [mbind option_bind]. rewrite Z.add_0_l, nodeHash_combine by done. unfold combine, fullNode.
    pose proof (omap_id_nil (children conf cryptoHash s' k)) as Hnil.
    destruct (omap id (children conf cryptoHash s' k)) as [|h1 [|h2 hs]] eqn:E.
    + eexists. split; [reflexivity|]. cbn. split_and!; [done|done|]. symmetry. by apply Hnil.
    + eexists. split; [cbn; by rewrite app_nil_r|]. rewrite Hm. split_and!; [done|done|].
      symmetry. apply not_true_iff_false. intros ?%Hnil. done.
    + eexists. split; [destruct (Z.eqb_spec (Z.of_nat (length (h1 :: h2 :: hs))) 0); [done|];
        destruct (Z.eqb_spec (Z.of_nat (length (h1 :: h2 :: hs))) 1); [cbn in *; lia|]; reflexivity|].
      rewrite Hm. split_and!; [done|done|]. symmetry. apply not_true_iff_false. intros ?%Hnil. done.
  - intros j b Hj. assert (j < groupSize conf)%nat as Hjl.
    { apply lookup_lt_Some in Hj. by rewrite children_length in Hj. }
    rewrite children_lookup in Hj by done. injection Hj as Hj.
    split; [by destruct (nodeHash_nonempty conf cryptoHash Hhash _ _ _ Hj)|]. cbn [Nat.add].
    rewrite getChildKey_wf; [by eexists|]. apply (child_valid conf cryptoHash Hwf s'); [done|done|].
    by rewrite Hj.
Qed.

Definition numbers (nodes : list bucketNode) : gset Z :=
  list_to_set ((fun node => bucketNumber (bn_bucketKey node)) <$> nodes).

Lemma T_valid l n : 0 <= l <= lowestLevel conf -> n ∈ T l -> validKey conf (mkBucketKey l n).
Proof. apply (touchedAt_valid conf Hwf). exact HA. Qed.

(** One node below the root: it is finished and known to its parent. *)
Lemma processNodes_step l node rest S tree st : 1 <= l < lowestLevel conf ->
  cacheOk conf cryptoHash s (si_bucketCache st) -> levelPartial (l - 1) S tree ->
  bucketNumber (bn_bucketKey node) ∈ T l ->
  partialNode (T (l + 1)) (mkBucketKey l (bucketNumber (bn_bucketKey node))) node ->
  exists tree' node', processNodes conf cryptoHash db l (node :: rest) (withTree st tree) =
      processNodes conf cryptoHash db l rest (withTree st tree') /\
    fullNode (mkBucketKey l (bucketNumber (bn_bucketKey node))) node' /\
    levelPartial (l - 1) (S ∪ {[bucketNumber (bn_bucketKey node)]}) tree' /\
    forall k, level k <> l - 1 -> getNode tree' k =
      if decide (k = mkBucketKey l (bucketNumber (bn_bucketKey node))) then Some node' else getNode tree k.
Proof.
  intros Hl Hcache Hpar HnT Hpn. pose proof (pn_key _ _ _ Hpn) as Ekey.
  set (n := bucketNumber (bn_bucketKey node)) in *.
  pose proof (T_valid l n ltac:(lia) HnT) as Hvalid.
  destruct (merge_stored (si_bucketCache st) (mkBucketKey l n) node (withTree st tree))
    as (r & node1 & Eget & Emerge & Ek1 & Ech1 & Em1); [done..|cbn; lia|done|].
  destruct (computeCryptoHash_full (mkBucketKey l n) node1) as (node2 & Ehash & Hfull);
    [done|cbn; lia|done..|].
  set (tree2 := putNode (putNode tree (mkBucketKey l n) node1) (mkBucketKey l n) node2).
  assert (levelPartial (l - 1) S tree2) as Hpar2.
  { intros m. specialize (Hpar m). unfold tree2. rewrite !getNode_putNode, !decide_False; [done|..];
      intros [=]; lia. }
  destruct (updateParent_partial S (mkBucketKey l n) tree2 st) as (tree3 & Eup & Hpar3 & Hsame3);
    [done|cbn; lia|exact Hpar2|]. cbn [level bucketNumber] in *.
  exists tree3, node2. split; [|split; [done|split; [done|]]].
  - cbn [processNodes]. rewrite Ekey. cbv [mbind M_bind gets try]. cbn [si_bucketCache withTree setter].
    rewrite Eget. cbv beta iota.
    assert (match r with Some dbNode => lift (mergeBucketNode node dbNode) | None => mret node end
      (withTree st tree) = Done node1 (withTree st tree)) as ->.
    { destruct r as [dbNode|]; cbn in Emerge |- *; [by rewrite Emerge|]. by injection Emerge as ->. }
    cbv [theTree gets lift setTree modify mret M_ret mbind M_bind]. cbn [si_bucketTreeDelta withTree setter].
    rewrite Ek1. destruct (Z.eqb_spec l 0); [lia|]. rewrite Ehash. cbn [si_bucketTreeDelta setter].
    destruct Hfull as (-> & _). exact (f_equal (fun x => match x with
      | Done _ s => processNodes conf cryptoHash db l rest s | Panic => Panic | Diverge => Diverge end) Eup).
  - intros k Hk. rewrite Hsame3 by done. unfold tree2. rewrite !getNode_putNode. by case_decide.
Qed.

(** One level below the root: its nodes are finished and their parents partially
    filled. *)
Lemma processNodes_level l rest S tree st : 1 <= l < lowestLevel conf ->
  cacheOk conf cryptoHash s (si_bucketCache st) -> levelMid l S tree -> levelPartial (l - 1) S tree ->
  (forall node, node ∈ rest -> (bucketNumber (bn_bucketKey node) ∉ S) /\
    getNode tree (mkBucketKey l (bucketNumber (bn_bucketKey node))) = Some node) ->
  NoDup ((fun node => bucketNumber (bn_bucketKey node)) <$> rest) ->
  exists tree', processNodes conf cryptoHash db l rest (withTree st tree) =
      Done (Ok false) (withTree st tree') /\
    levelMid l (S ∪ numbers rest) tree' /\ levelPartial (l - 1) (S ∪ numbers rest) tree' /\
    forall k, level k <> l -> level k <> l - 1 -> getNode tree' k = getNode tree k.
Proof.
  intros Hl Hcache. revert S tree. induction rest as [|node rest IH]; intros S tree Hmid Hpar Hrest Hnd.
  { exists tree. unfold numbers. cbn. rewrite (right_id_L ∅ (∪) S). done. }
  destruct (Hrest node ltac:(by left)) as [HnS Enode].
  pose proof (Hmid (bucketNumber (bn_bucketKey node))) as Hn. rewrite Enode in Hn.
  destruct Hn as [HnT Hpn]. rewrite decide_False in Hpn by done.
  destruct (processNodes_step l node rest S tree st Hl Hcache Hpar HnT Hpn)
    as (tree3 & node2 & Estep & Hfull & Hpar3 & Hsame3).
  rewrite fmap_cons in Hnd. apply NoDup_cons in Hnd as [Hfresh Hnd].
  destruct (IH (S ∪ {[bucketNumber (bn_bucketKey node)]}) tree3) as (tree' & E & Hmid' & Hpar' & Hsame).
  - intros m. rewrite Hsame3 by (cbn; lia). specialize (Hmid m).
    destruct (decide (mkBucketKey l m = _)) as [Hm|Hm].
    + injection Hm as ->. split; [done|].
      rewrite decide_True by (by apply elem_of_union_r, elem_of_singleton). exact Hfull.
    + destruct (getNode tree _); [|done]. destruct Hmid as [? Hpm]. split; [done|].
      destruct (decide (m ∈ S)).
      * by rewrite decide_True by (by apply elem_of_union_l).
      * rewrite decide_False; [done|]. rewrite elem_of_union, elem_of_singleton. intros [?| ->]; done.
  - exact Hpar3.
  - intros node' Hin. destruct (Hrest node' ltac:(by right)) as [HnS' En'].
    assert (bucketNumber (bn_bucketKey node') <> bucketNumber (bn_bucketKey node)) as Hne.
    { intros Heq. apply Hfresh. apply list_elem_of_fmap. exists node'. split; [by rewrite Heq|done]. }
    split; [by rewrite elem_of_union, elem_of_singleton; intros [?|?]|].
    rewrite Hsame3, decide_False; [done|intros [=]; done|cbn; lia].
  - exact Hnd.
  - exists tree'. assert (S ∪ numbers (node :: rest) =
      S ∪ {[bucketNumber (bn_bucketKey node)]} ∪ numbers rest) as ->.
    { unfold numbers. rewrite fmap_cons. cbn [list_to_set]. by rewrite (assoc_L (∪)). }
    rewrite Estep. split; [done|]. split; [done|]. split; [done|].
    intros k H1 H2. rewrite Hsame, Hsame3, decide_False by (done || intros ->; by apply H1). done.
Qed.

(** The nodes of a level before it is processed. *)
Lemma level_nodes l tree : levelMid l ∅ tree ->
  (forall node, node ∈ getBucketNodesAt o tree l -> (bucketNumber (bn_bucketKey node) ∉ (∅ : gset Z)) /\
    getNode tree (mkBucketKey l (bucketNumber (bn_bucketKey node))) = Some node) /\
  NoDup ((fun node => bucketNumber (bn_bucketKey node)) <$> getBucketNodesAt o tree l) /\
  numbers (getBucketNodesAt o tree l) = T l.
Proof.
  intros Hmid.
  assert (forall n node, getNode tree (mkBucketKey l n) = Some node -> bucketNumber (bn_bucketKey node) = n)
    as Hnum.
  { intros n node En. specialize (Hmid n). rewrite En in Hmid. destruct Hmid as [_ Hp].
    rewrite decide_False in Hp by apply not_elem_of_empty. by rewrite (pn_key _ _ _ Hp). }
  split; [|split].
  - intros node [n En]%elem_of_getBucketNodesAt. split; [apply not_elem_of_empty|].
    by rewrite (Hnum n node En).
  - unfold getBucketNodesAt. destruct (tree !! l) as [m|] eqn:E; [|constructor].
    assert ((fun node => bucketNumber (bn_bucketKey node)) <$> (ord o 3 m).*2 = (ord o 3 m).*1) as ->;
      [|apply ord_NoDup].
    rewrite <- list_fmap_compose. apply list_fmap_ext. intros i [n node] Hi. cbn. apply Hnum.
    unfold getNode. cbn. rewrite E. cbn. apply list_elem_of_lookup_2 in Hi. by apply elem_of_ord in Hi.
  - apply set_eq. intros n. unfold numbers. rewrite elem_of_list_to_set, list_elem_of_fmap. split.
    + intros (node & -> & [m En]%elem_of_getBucketNodesAt). rewrite (Hnum m node En).
      specialize (Hmid m). rewrite En in Hmid. by destruct Hmid.
    + intros Hn. specialize (Hmid n). destruct (getNode tree (mkBucketKey l n)) as [node|] eqn:E; [|done].
      exists node. split; [by rewrite (Hnum n node E)|]. apply elem_of_getBucketNodesAt. eauto.
Qed.
(** The finished nodes of a level. *)
Definition levelFull (l : Z) (tree : bucketTreeDelta) : Prop :=
  forall n, match getNode tree (mkBucketKey l n) with
            | Some node => n ∈ T l /\ fullNode (mkBucketKey l n) node
            | None => n ∉ T l
            end.

Lemma levelMid_Full l tree : levelMid l (T l) tree -> levelFull l tree.
Proof.
  intros Hm n. specialize (Hm n). destruct (getNode tree _); [|done]. destruct Hm as [Hn Hf].
  by rewrite decide_True in Hf.
Qed.

Lemma levelFull_ext l tree tree' :
  (forall n, getNode tree' (mkBucketKey l n) = getNode tree (mkBucketKey l n)) ->
  levelFull l tree -> levelFull l tree'.
Proof. intros E HF n. rewrite E. apply HF. Qed.

Lemma levelPartial_ext l S tree tree' :
  (forall n, getNode tree' (mkBucketKey l n) = getNode tree (mkBucketKey l n)) ->
  levelPartial l S tree -> levelPartial l S tree'.
Proof. intros E HL n. rewrite E. apply HL. Qed.

(** The root has the hashes of its children, its own is still to be computed. *)
Definition rootMerged (tree : bucketTreeDelta) : Prop :=
  exists root, (forall n, getNode tree (mkBucketKey 0 n) = if decide (n = 1) then Some root else None) /\
    bn_bucketKey root = mkBucketKey 0 1 /\
    childrenCryptoHash root = children conf cryptoHash s' (mkBucketKey 0 1) /\
    markedForDeletion root = false.

Context (Hdeep : 1 <= lowestLevel conf) (Hne : A <> ∅).

Lemma root_valid : validKey conf (mkBucketKey 0 1).
Proof. split; cbn; [lia|]. rewrite (wf_root conf Hwf). lia. Qed.

Lemma processNodes_root tree st : cacheOk conf cryptoHash s (si_bucketCache st) ->
  levelPartial 0 (T 1) tree ->
  exists tree', processNodes conf cryptoHash db 0 (getBucketNodesAt o tree 0) (withTree st tree) =
      Done (Ok true) (withTree st tree') /\ rootMerged tree' /\
    forall k, level k <> 0 -> getNode tree' k = getNode tree k.
Proof.
  intros Hcache HL. pose proof (touchedAt_root conf Hwf A HA Hne) as ET.
  pose proof (levelPartial_Mid 0 tree ltac:(lia) HL) as Hmid.
  assert (exists node, getNode tree (mkBucketKey 0 1) = Some node) as [node Enode].
  { specialize (Hmid 1). destruct (getNode tree _); [eauto|]. rewrite ET in Hmid.
    destruct Hmid. by apply elem_of_singleton. }
  pose proof (Hmid 1) as Hn. rewrite Enode in Hn. destruct Hn as [_ Hp].
  rewrite decide_False in Hp by apply not_elem_of_empty.
  assert (exists rest, getBucketNodesAt o tree 0 = node :: rest) as [rest ->].
  { destruct (level_nodes 0 tree Hmid) as (Hnodes & _ & Hnum).
    destruct (getBucketNodesAt o tree 0) as [|node' rest] eqn:E.
    - unfold numbers in Hnum. cbn in Hnum. by rewrite ET in Hnum.
    - exists rest. destruct (Hnodes node' ltac:(by left)) as [_ E'].
      assert (bucketNumber (bn_bucketKey node') ∈ T 0) as Hin.
      { rewrite <- Hnum. unfold numbers. rewrite fmap_cons. cbn [list_to_set]. by apply elem_of_union_l, elem_of_singleton. }
      rewrite ET in Hin. apply elem_of_singleton in Hin. rewrite Hin, Enode in E'. by injection E' as ->. }
  destruct (merge_stored (si_bucketCache st) (mkBucketKey 0 1) node (withTree st tree))
    as (r & node1 & Eget & Emerge & Ek1 & Ech1 & Em1); [done|apply root_valid|cbn; lia|done|].
  exists (putNode tree (mkBucketKey 0 1) node1). split; [|split].
  - cbn [processNodes]. rewrite (pn_key _ _ _ Hp). cbv [mbind M_bind gets try]. cbn [si_bucketCache withTree setter].
    rewrite Eget. cbv beta iota.
    assert (match r with Some dbNode => lift (mergeBucketNode node dbNode) | None => mret node end
      (withTree st tree) = Done node1 (withTree st tree)) as ->.
    { destruct r as [dbNode|]; cbn in Emerge |- *; [by rewrite Emerge|]. by injection Emerge as ->. }
    cbv [theTree gets lift setTree modify mret M_ret mbind M_bind]. cbn [si_bucketTreeDelta withTree setter].
    by rewrite Ek1.
  - exists node1. split; [|done]. intros n. rewrite getNode_putNode.
    destruct (decide (n = 1)) as [->|Hn1]; [by rewrite decide_True|]. rewrite decide_False by congruence.
    specialize (Hmid n). destruct (getNode tree _); [|done]. destruct Hmid as [Hn' _].
    rewrite ET in Hn'. by apply elem_of_singleton in Hn'.
  - intros k Hk. rewrite getNode_putNode, decide_False; [done|]. intros ->. by apply Hk.
Qed.

Lemma upperLevels_step (j : nat) :
  rev (seqZ 0 (Z.of_nat (S j))) = Z.of_nat j :: rev (seqZ 0 (Z.of_nat j)).
Proof.
  replace (Z.of_nat (S j)) with (Z.of_nat j + 1) by lia. rewrite seqZ_app by lia.
  rewrite rev_app_distr. rewrite Z.add_0_l. done.
Qed.

(** From the level above the buckets up to the root. *)
Lemma processLevels_build (j : nat) tree st : Z.of_nat j < lowestLevel conf ->
  cacheOk conf cryptoHash s (si_bucketCache st) ->
  levelPartial (Z.of_nat j) (T (Z.of_nat j + 1)) tree ->
  (forall m, m < Z.of_nat j -> levelPartial m ∅ tree) ->
  (forall m, Z.of_nat j < m < lowestLevel conf -> levelFull m tree) ->
  exists tree', processLevels conf cryptoHash o db (rev (seqZ 0 (Z.of_nat (S j)))) (withTree st tree) =
      Done (Ok tt) (withTree st tree') /\ rootMerged tree' /\
    forall m, 0 < m < lowestLevel conf -> levelFull m tree'.
Proof.
  revert tree. induction j as [|j IH]; intros tree Hj Hcache HL Hbelow Hfull;
    rewrite upperLevels_step; cbn [processLevels]; cbv [mbind M_bind try theTree gets lift];
    cbn [si_bucketTreeDelta withTree setter]; cbv [mret M_ret].
  - destruct (processNodes_root tree st Hcache HL) as (tree' & E & Hroot & Hsame).
    exists tree'. change (Z.of_nat 0) with 0. rewrite E. cbv beta iota. split; [done|]. split; [done|].
    intros m Hm. eapply levelFull_ext; [|apply Hfull; lia]. intros n. apply Hsame. cbn. lia.
  - destruct (level_nodes (Z.of_nat (S j)) tree) as (Hnodes & Hnd & Hnum);
      [by apply levelPartial_Mid|].
    destruct (processNodes_level (Z.of_nat (S j)) (getBucketNodesAt o tree (Z.of_nat (S j))) ∅ tree st)
      as (tree1 & E & Hmid & Hpar & Hsame); [lia|done|by apply levelPartial_Mid|apply Hbelow; lia|done..|].
    rewrite Hnum, (left_id_L ∅ (∪)) in Hmid, Hpar. rewrite E. cbv beta iota.
    replace (Z.of_nat (S j) - 1) with (Z.of_nat j) in * by lia.
    apply IH; [lia|done|by replace (Z.of_nat j + 1) with (Z.of_nat (S j)) by lia| |].
    + intros m Hm. eapply levelPartial_ext; [|apply Hbelow; lia]. intros n. apply Hsame; cbn; lia.
    + intros m Hm. destruct (decide (m = Z.of_nat (S j))) as [->|Hne'].
      * by apply levelMid_Full.
      * eapply levelFull_ext; [|apply Hfull; lia]. intros n. apply Hsame; cbn; lia.
Qed.

(** The root of a finished tree. *)
Lemma computeRoot_full tree st : rootMerged tree ->
  (forall m, 0 < m < lowestLevel conf -> levelFull m tree) ->
  exists tree', computeRootNodeCryptoHash conf cryptoHash o (withTree st tree) =
      Done (stateHash conf cryptoHash s') (withTree st tree') /\
    forall m, 0 <= m < lowestLevel conf -> levelFull m tree'.
Proof.
  intros (root & Hroot & Hk & Hch & Hm) Hfull.
  assert (exists rest, getBucketNodesAt o tree 0 = root :: rest) as [rest Erest].
  { destruct (getBucketNodesAt o tree 0) as [|node rest] eqn:E.
    - assert (root ∈ getBucketNodesAt o tree 0) as Hin.
      { apply elem_of_getBucketNodesAt. exists 1. by rewrite Hroot. }
      rewrite E in Hin. by apply elem_of_nil in Hin.
    - assert (node ∈ getBucketNodesAt o tree 0) as [n En]%elem_of_getBucketNodesAt by (rewrite E; by left).
      rewrite Hroot in En. case_decide; [|done]. injection En as ->. eauto. }
  destruct (computeCryptoHash_full (mkBucketKey 0 1) root root_valid ltac:(cbn; lia) Hk Hch Hm)
    as (root' & E & Hf).
  exists (putNode tree (mkBucketKey 0 1) root'). split.
  - unfold computeRootNodeCryptoHash, getRootNode.
    cbv [mbind M_bind theTree gets lift setTree modify mret M_ret].
    cbn [si_bucketTreeDelta withTree setter]. rewrite Erest. cbn [head]. rewrite E.
    destruct Hf as (-> & _). done.
  - intros m Hm' n. rewrite getNode_putNode. destruct (decide (m = 0)) as [->|Hm0].
    + rewrite (touchedAt_root conf Hwf A HA Hne), Hroot. destruct (decide (n = 1)) as [->|Hn].
      * rewrite decide_True by done. split; [by apply elem_of_singleton|done].
      * rewrite decide_False by congruence. by rewrite elem_of_singleton.
    + rewrite decide_False by congruence. apply Hfull. lia.
Qed.
End levels.

End build.
