(* ===== verification/BucketCommit.v ===== *)
(** The life cycle of a working set, state_impl.go: preparing it, hashing it,
    adding it to a write batch and clearing it keep [holds], the relation
    between the database, the fields of StateImpl and the state they stand for. *)
From stdpp Require Import base gmap list sorting.
From Stdlib Require Import ZArith Lia.
From Stdlib.Strings Require Import Byte.
From S2P Require Import Prelude GoStd GoBytes LedgerUtil KVStore StateDelta StateSpec BucketKeys.
From S2P Require Import BucketNode BucketHash BucketSpec BucketState BucketStore BucketDelta.
From S2P Require Import BucketProcess.

(** * Batches *)

Definition opKey (op : batchOp) : bytes := match op with PutCF _ k _ | DeleteCF _ k => k end.
Definition opValue (op : batchOp) : option bytes :=
  match op with PutCF _ _ v => Some v | DeleteCF _ _ => None end.
Definition opCF (op : batchOp) : columnFamily := match op with PutCF cf _ _ | DeleteCF cf _ => cf end.

(** A batch whose operations on a key agree. *)
Lemma applyBatch_lookup cf m batch k v :
  (forall op, op ∈ batch -> opCF op = cf) ->
  (forall op, op ∈ batch -> opKey op = k -> opValue op = v) ->
  applyBatch cf m batch !! k = if bool_decide (Exists (fun op => opKey op = k) batch) then v else m !! k.
Proof.
  revert m. induction batch as [|op batch IH]; intros m Hcf Hv; [done|].
  cbn [applyBatch foldl]. fold (applyBatch cf (applyOp cf m op) batch). rewrite IH; first last.
  { intros op' ?. apply Hv. by right. }
  { intros op' ?. apply Hcf. by right. }
  assert (applyOp cf m op !! k = if decide (opKey op = k) then v else m !! k) as ->.
  { pose proof (Hcf op ltac:(by left)) as Ecf. pose proof (Hv op ltac:(by left)) as Ev.
    destruct op as [cf' k' v'|cf' k']; cbn in *; subst cf'; rewrite bool_decide_eq_true_2 by done.
    - rewrite lookup_insert. case_decide; [|done]. by rewrite <- Ev.
    - rewrite lookup_delete. case_decide; [|done]. by rewrite <- Ev. }
  case_decide as Ek; repeat case_bool_decide; rewrite ?Exists_cons in *; tauto.
Qed.

Lemma mapM_total {X Y} (f : X -> option Y) (g : X -> Y) l :
  (forall x, x ∈ l -> f x = Some (g x)) -> mapM f l = Some (g <$> l).
Proof.
  induction l as [|x l IH]; intros Hf; [done|]. cbn. rewrite (Hf x) by (by left). cbn.
  rewrite IH; [done|]. intros y Hy. apply Hf. by right.
Qed.

Section commit.
Context {DB : Type} `{RocksDBLaws DB}.
Context (conf : config) (cryptoHash : bytes -> bytes) (o : mapOrder) (Hwf : wfConfig conf)
  (Hdeep : 1 <= lowestLevel conf)
  (Hhash : forall b, cryptoHash b <> [] /\ fitsInt (cryptoHash b)).

(** Writes to composite keys. *)
Definition composite (w : gmap bytes (option bytes)) : Prop :=
  forall ck v, w !! ck = Some v -> is_Some (DecodeCompositeKey ck).

(** The buckets of a delta. *)
Definition affected (D : dataNodesDelta) : gset Z := set_map bucketNumber (dom D).

Section working_set.
Context (db : DB) (s : kvs) (Hdb : healthy db) (Hs : wfKvs s)
  (Hc : consistent conf cryptoHash (contents db StateCF) s).
Context (D : dataNodesDelta) (w : gmap bytes (option bytes)) (HD : spread conf D w)
  (Hw : composite w) (Hne : w <> ∅).

Abbreviation s' := (applyWrites s w).
Abbreviation A := (affected D).

Lemma delta_key k : is_Some (D !! k) -> exists ck, k = bucketKeyOf conf ck /\ is_Some (w !! ck).
Proof. intros Hk. apply (spread_dom _ _ _ HD) in Hk as (ck & Hck & <-). eauto. Qed.

Lemma elem_of_affected b : b ∈ A <-> is_Some (D !! mkBucketKey (lowestLevel conf) b).
Proof.
  unfold affected. rewrite elem_of_map. split.
  - intros (k & -> & Hk%elem_of_dom). destruct (delta_key k Hk) as (ck & -> & _). done.
  - intros Hb. exists (mkBucketKey (lowestLevel conf) b). split; [done|]. by apply elem_of_dom.
Qed.

Lemma affected_valid b : b ∈ A -> validKey conf (mkBucketKey (lowestLevel conf) b).
Proof.
  intros Hb%elem_of_affected. destruct (delta_key _ Hb) as (ck & E & _). rewrite E.
  by apply bucketKeyOf_valid.
Qed.

Lemma bucketOf_affected ck : is_Some (w !! ck) -> bucketOf conf ck ∈ A.
Proof.
  intros Hck. apply elem_of_affected. apply (spread_dom _ _ _ HD). by exists ck.
Qed.

Lemma affected_nonempty : A <> ∅.
Proof.
  destruct (map_choose w Hne) as (ck & v & E). intros EA.
  pose proof (bucketOf_affected ck (mk_is_Some _ _ E)) as Hin. rewrite EA in Hin.
  by apply not_elem_of_empty in Hin.
Qed.

Lemma agree_affected : agreeOutside conf A s s'.
Proof.
  intros ck Hck. rewrite lookup_applyWrites. destruct (w !! ck) eqn:E; [|done].
  destruct Hck. apply bucketOf_affected. by rewrite E.
Qed.

Lemma getAffectedBuckets_keys : getAffectedBuckets conf o D = Some (ord o 2 D).*1.
Proof.
  unfold getAffectedBuckets. rewrite <- (list_fmap_id (ord o 2 D).*1) at 2. apply mapM_total.
  intros k ([k' nodes] & -> & Hin%elem_of_ord)%list_elem_of_fmap. cbn.
  destruct (delta_key k' (mk_is_Some _ _ Hin)) as (ck & -> & _).
  apply newBucketKey_valid. by apply bucketKeyOf_valid.
Qed.

(** ** Hashing *)

Lemma bucketHash_run k : is_Some (D !! k) ->
  exists existing, fetchDataNodesFromDBFor conf db k = Some existing /\
    computeDataNodesCryptoHash cryptoHash (getSortedDataNodesFor D k) existing =
      Some (nodeHash conf cryptoHash s' k) /\ validKey conf k /\ level k = lowestLevel conf.
Proof.
  intros Hk. destruct (delta_key k Hk) as (ck & -> & _). destruct Hk as [nodes En].
  eexists. split; [apply (fetchDataNodes_bucket conf cryptoHash Hwf db s Hdb Hs Hc), bucketOf_range, Hwf|].
  split; [|split; [by apply bucketKeyOf_valid|done]].
  unfold getSortedDataNodesFor. rewrite En. cbn [default from_option id].
  rewrite (computeDataNodesCryptoHash_bucket conf cryptoHash s w D Hs HD Hw) by exact En.
  unfold bucketKeyOf. by rewrite nodeHash_bucket.
Qed.

(** The first stage fills the level above the buckets. *)
Lemma processData_loop keys S tree st : (forall k, k ∈ keys -> is_Some (D !! k)) ->
  levelPartial conf cryptoHash s' (lowestLevel conf - 1) S tree ->
  exists tree',
    forE keys (fun k =>
      existingDataNodes ← lift (fetchDataNodesFromDBFor conf db k);
      cryptoHashForBucket ← lift (computeDataNodesCryptoHash cryptoHash (getSortedDataNodesFor D k) existingDataNodes);
      updateParent conf k cryptoHashForBucket;; mret (Ok tt)) (withTree st tree) =
      Done (Ok tt) (withTree st tree') /\
    levelPartial conf cryptoHash s' (lowestLevel conf - 1) (S ∪ list_to_set (bucketNumber <$> keys)) tree' /\
    forall k, level k <> lowestLevel conf - 1 -> getNode tree' k = getNode tree k.
Proof.
  revert S tree. induction keys as [|k keys IH]; intros S tree Hk HL.
  { exists tree. cbn. by rewrite (right_id_L ∅ (∪) S). }
  destruct (bucketHash_run k) as (existing & Ef & Eh & Hv & Hlev); [apply Hk; by left|].
  destruct (updateParent_partial conf cryptoHash Hwf s' S k tree st Hv) as (tree1 & Eu & HL1 & Hsame1);
    [lia|by rewrite Hlev|]. rewrite Hlev in HL1, Hsame1.
  destruct (IH (S ∪ {[bucketNumber k]}) tree1) as (tree' & E & HL' & Hsame);
    [intros k' ?; apply Hk; by right|done|].
  exists tree'. split; [|split].
  - cbn [forE]. unfold try at 1. cbv [mbind M_bind]. rewrite Ef. cbv [lift mret M_ret]. rewrite Eh. cbv beta iota.
    rewrite Eu. exact E.
  - rewrite fmap_cons. cbn [list_to_set]. by rewrite (assoc_L (∪)).
  - intros k' Hk'. rewrite Hsame by done. by apply Hsame1.
Qed.

Lemma emptyTree_partial m : levelPartial conf cryptoHash s' m ∅ newBucketTreeDelta.
Proof. intros n. unfold getNode, newBucketTreeDelta. rewrite lookup_empty. cbn. by rewrite set_map_empty. Qed.

Lemma keys_affected : list_to_set (bucketNumber <$> (ord o 2 D).*1) = A.
Proof.
  apply set_eq. intros b. rewrite elem_of_list_to_set, elem_of_affected, list_elem_of_fmap. split.
  - intros (k & -> & ([k' nodes] & -> & Hin%elem_of_ord)%list_elem_of_fmap).
    destruct (delta_key k' (mk_is_Some _ _ Hin)) as (ck & -> & _). by eexists.
  - intros [nodes Hb]. exists (mkBucketKey (lowestLevel conf) b). split; [done|].
    apply list_elem_of_fmap. exists (mkBucketKey (lowestLevel conf) b, nodes). split; [done|].
    by apply elem_of_ord.
Qed.

(** The nodes of the finished tree. *)
Definition treeDone (tree : bucketTreeDelta) : Prop :=
  forall m, 0 <= m < lowestLevel conf -> levelFull conf cryptoHash s' A m tree.

(** The hash computed is that of the new state. *)
Lemma ComputeStateHash_run st : cacheOk conf cryptoHash s (si_bucketCache st) ->
  si_dataNodesDelta st = Some D -> si_bucketTreeDelta st = Some newBucketTreeDelta ->
  recomputeCryptoHash st = true ->
  exists tree, ComputeStateHash conf cryptoHash o db st =
      Done (Ok (stateHash conf cryptoHash s'))
        ((withTree st tree) <| lastComputedCryptoHash := stateHash conf cryptoHash s' |>
           <| recomputeCryptoHash := false |>) /\ treeDone tree.
Proof.
  intros Hcache ED ET ER. unfold ComputeStateHash. cbv [mbind M_bind gets try]. rewrite ER.
  assert (st = withTree st newBucketTreeDelta) as Est by (destruct st; cbn in ET |- *; by subst).
  unfold processDataNodeDelta. cbv [mbind M_bind gets lift mret M_ret]. rewrite ED, getAffectedBuckets_keys.
  cbv beta iota.
  destruct (processData_loop (ord o 2 D).*1 ∅ newBucketTreeDelta st) as (tree1 & E1 & HL1 & Hsame1).
  { intros k ([k' nodes] & -> & Hin%elem_of_ord)%list_elem_of_fmap. by eexists. }
  { apply emptyTree_partial. }
  rewrite <- Est in E1. cbv [mbind M_bind lift mret M_ret] in E1. rewrite E1. cbv beta iota.
  rewrite keys_affected, (left_id_L ∅ (∪)) in HL1.
  destruct (processLevels_build conf cryptoHash o Hwf Hhash s' A db s Hdb Hc affected_valid agree_affected
    Hdeep affected_nonempty (Z.to_nat (lowestLevel conf - 1)) tree1 st) as (tree2 & E2 & Hroot & Hfull).
  - lia.
  - done.
  - rewrite Z2Nat.id, Z.sub_add by lia. by rewrite touchedAt_lowest.
  - intros m Hm. eapply levelPartial_ext; [|apply emptyTree_partial]. intros n. apply Hsame1. cbn. lia.
  - intros m Hm. lia.
  - unfold processBucketTreeDelta, upperLevels.
    replace (Z.of_nat (S (Z.to_nat (lowestLevel conf - 1)))) with (lowestLevel conf) in E2 by lia.
    rewrite E2. cbv beta iota.
    destruct (computeRoot_full conf cryptoHash o Hwf Hhash s' A affected_valid Hdeep affected_nonempty
      tree2 st Hroot Hfull) as (tree3 & E3 & Hdone).
    rewrite E3. exists tree3. split; [reflexivity|exact Hdone].
Qed.

(** ** Persisting *)

(** The operations that write the data and the finished nodes. *)
Definition isDataOp (op : batchOp) : Prop :=
  exists ck v, w !! ck = Some v /\ opCF op = StateCF /\
    opKey op = dataRawKey (bucketOf conf ck) ck /\ opValue op = nonNil v.

Definition isNodeOp (op : batchOp) : Prop :=
  exists k, validKey conf k /\ 0 <= level k < lowestLevel conf /\
    bucketNumber k ∈ touchedAt conf A (level k) /\ opCF op = StateCF /\ opKey op = getEncodedBytes k /\
    opValue op = if allNil (children conf cryptoHash s' k) then None
                 else Some (marshalHashes (children conf cryptoHash s' k)).

Definition writeOp (node : dataNode) : batchOp :=
  if dataNode_isDelete node then DeleteCF StateCF (dataRawKey (bucketOf conf (getCompositeKey node)) (getCompositeKey node))
  else PutCF StateCF (dataRawKey (bucketOf conf (getCompositeKey node)) (getCompositeKey node)) (default [] (dn_value node)).

Lemma delta_nodes node : node ∈ concat (getSortedDataNodesFor D <$> (ord o 2 D).*1) <->
  exists ck v, w !! ck = Some v /\ node = writeNode conf (ck, v).
Proof.
  rewrite list_elem_of_In, in_concat. split.
  - intros (l & Hl%list_elem_of_In & Hin%list_elem_of_In).
    apply list_elem_of_fmap in Hl as (k & -> & ([k' nodes] & -> & HDk%elem_of_ord)%list_elem_of_fmap).
    cbn in Hin. unfold getSortedDataNodesFor in Hin. rewrite HDk in Hin.
    apply (spread_nodes _ _ _ HD _ _ _ HDk) in Hin as (ck & v & ? & _ & ->). eauto.
  - intros (ck & v & Hv & ->).
    destruct (proj2 (spread_dom _ _ _ HD (bucketKeyOf conf ck))) as [nodes En]; [exists ck; by rewrite Hv|].
    exists nodes. split; apply list_elem_of_In.
    + apply list_elem_of_fmap. exists (bucketKeyOf conf ck). unfold getSortedDataNodesFor. rewrite En.
      split; [done|]. apply list_elem_of_fmap. exists (bucketKeyOf conf ck, nodes). split; [done|].
      by apply elem_of_ord.
    + apply (spread_nodes _ _ _ HD _ _ _ En). eauto.
Qed.

Lemma addData_run st : si_dataNodesDelta st = Some D ->
  exists ops, addDataNodeChangesForPersistence conf o st = Done ops st /\
    (forall op, op ∈ ops -> isDataOp op) /\
    (forall ck, is_Some (w !! ck) -> Exists (fun op => opKey op = dataRawKey (bucketOf conf ck) ck) ops).
Proof.
  intros ED. unfold addDataNodeChangesForPersistence. cbv [mbind M_bind gets lift mret M_ret].
  rewrite ED, getAffectedBuckets_keys. cbv beta iota.
  rewrite (mapM_total dataNodeOp writeOp).
  - eexists. split; [reflexivity|]. split.
    + intros op (node & -> & (ck & v & Hv & ->)%delta_nodes)%list_elem_of_fmap. exists ck, v.
      unfold writeOp, nonNil, dataNode_isDelete. cbn [dn_value writeNode snd fst getCompositeKey].
      split; [done|]. by destruct v as [[|]|].
    + intros ck [v Hv]. apply Exists_exists. exists (writeOp (writeNode conf (ck, v))). split.
      * apply list_elem_of_fmap_2, delta_nodes. eauto.
      * unfold writeOp. by destruct (dataNode_isDelete _).
  - intros node (ck & v & Hv & ->)%delta_nodes. unfold dataNodeOp.
    rewrite (dataKey_getEncodedBytes_wf conf Hwf) by (by apply bucketKeyOf_valid). done.
Qed.

Lemma tree_nodes tree node : treeDone tree ->
  node ∈ concat (getBucketNodesAt o tree <$> rev (upperLevels conf)) <->
  exists k, 0 <= level k < lowestLevel conf /\ getNode tree k = Some node.
Proof.
  intros Ht. rewrite list_elem_of_In, in_concat. unfold upperLevels. split.
  - intros (l & (m & -> & Hm)%list_elem_of_In%list_elem_of_fmap & Hin%list_elem_of_In).
    apply elem_of_getBucketNodesAt in Hin as [n En]. apply list_elem_of_In, in_rev, list_elem_of_In, elem_of_seqZ in Hm.
    exists (mkBucketKey m n). split; [cbn; lia|done].
  - intros ([m n] & Hm & En). cbn in Hm. exists (getBucketNodesAt o tree m). split; apply list_elem_of_In.
    + apply list_elem_of_fmap_2. apply list_elem_of_In, in_rev. rewrite rev_involutive.
      apply list_elem_of_In, elem_of_seqZ. lia.
    + apply elem_of_getBucketNodesAt. eauto.
Qed.

Definition nodeOp (node : bucketNode) : batchOp :=
  if markedForDeletion node then DeleteCF StateCF (getEncodedBytes (bn_bucketKey node))
  else PutCF StateCF (getEncodedBytes (bn_bucketKey node)) (marshalHashes (childrenCryptoHash node)).

Lemma done_node tree k node : treeDone tree -> 0 <= level k < lowestLevel conf -> getNode tree k = Some node ->
  bucketNumber k ∈ touchedAt conf A (level k) /\ fullNode conf cryptoHash s' k node.
Proof.
  intros Ht Hk En. specialize (Ht (level k) Hk (bucketNumber k)). destruct k as [l n]. cbn in *.
  by rewrite En in Ht.
Qed.

Lemma addNodes_run st tree : treeDone tree -> si_bucketTreeDelta st = Some tree ->
  exists ops, addBucketNodeChangesForPersistence conf o st = Done ops st /\
    (forall op, op ∈ ops -> isNodeOp op) /\
    (forall k, 0 <= level k < lowestLevel conf -> bucketNumber k ∈ touchedAt conf A (level k) ->
      Exists (fun op => opKey op = getEncodedBytes k) ops).
Proof.
  intros Ht ET. unfold addBucketNodeChangesForPersistence, theTree. cbv [mbind M_bind gets lift mret M_ret].
  rewrite ET. cbv beta iota. rewrite (mapM_total (bucketNodeOp conf) nodeOp).
  - eexists. split; [reflexivity|]. split.
    + intros op (node & -> & (k & Hk & En)%(tree_nodes tree node Ht))%list_elem_of_fmap.
      destruct (done_node tree k node Ht Hk En) as [Hin (Ekey & Ech & Em)].
      exists k. split; [destruct k; apply (touchedAt_valid conf Hwf A); [apply affected_valid|cbn in *; lia|done]|].
      split; [done|]. split; [done|]. unfold nodeOp. rewrite Em, Ekey, Ech. by destruct (allNil _).
    + intros k Hk Hin. pose proof (Ht (level k) Hk (bucketNumber k)) as Hf.
      destruct (getNode tree (mkBucketKey (level k) (bucketNumber k))) as [node|] eqn:E; [|done].
      destruct Hf as [_ (Ekey & _)]. apply Exists_exists. exists (nodeOp node). split.
      * apply list_elem_of_fmap_2. apply (tree_nodes tree node Ht). by eexists.
      * unfold nodeOp. destruct k. rewrite Ekey. by destruct (markedForDeletion node).
  - intros node (k & Hk & En)%(tree_nodes tree node Ht).
    destruct (done_node tree k node Ht Hk En) as [_ (Ekey & Ech & _)].
    unfold bucketNodeOp, nodeOp. destruct (markedForDeletion node); [done|].
    unfold bucketNode_marshal. rewrite Ech, children_length, Nat.ltb_irrefl. cbn [mbind option_bind].
    by rewrite take_ge by (by rewrite children_length).
Qed.

(** The batch takes the database from the old state to the new one. *)
Lemma batch_consistent dataOps nodeOps :
  (forall op, op ∈ dataOps -> isDataOp op) ->
  (forall ck, is_Some (w !! ck) -> Exists (fun op => opKey op = dataRawKey (bucketOf conf ck) ck) dataOps) ->
  (forall op, op ∈ nodeOps -> isNodeOp op) ->
  (forall k, 0 <= level k < lowestLevel conf -> bucketNumber k ∈ touchedAt conf A (level k) ->
    Exists (fun op => opKey op = getEncodedBytes k) nodeOps) ->
  consistent conf cryptoHash (applyBatch StateCF (contents db StateCF) (dataOps ++ nodeOps)) s'.
Proof.
  intros Hd Hd' Hn Hn'.
  assert (forall op, op ∈ dataOps ++ nodeOps -> opCF op = StateCF) as Hcf.
  { intros op [(ck & v & _ & ? & _)%Hd|(k & _ & _ & _ & ? & _)%Hn]%elem_of_app; done. }
  assert (forall k ck, getEncodedBytes k <> dataRawKey (bucketOf conf ck) ck) as Hdisj.
  { intros k ck E. symmetry in E. by apply dataRawKey_not_node in E; [|apply (bucketOf_u64 conf Hwf)..]. }
  split.
  - intros ck. rewrite (applyBatch_lookup _ _ _ _ (s' !! ck) Hcf).
    + rewrite lookup_applyWrites, (cons_data _ _ _ _ Hc). case_bool_decide as He; [done|].
      destruct (w !! ck) eqn:E; [|done]. destruct He. apply Exists_app. left. apply Hd'. by eexists.
    + intros op [(ck' & v & Hv & _ & Ek & Ev)%Hd|(k & _ & _ & _ & _ & Ek & _)%Hn]%elem_of_app E.
      * rewrite Ek in E. apply dataRawKey_inj in E as [_ ->]; [|apply (bucketOf_u64 conf Hwf)..].
        by rewrite lookup_applyWrites, Hv.
      * rewrite Ek in E. by apply Hdisj in E.
  - intros k Hk Hl. assert (0 <= level k < lowestLevel conf) as Hl' by (destruct Hk; lia).
    rewrite (applyBatch_lookup _ _ _ _ (if allNil (children conf cryptoHash s' k) then None
      else Some (marshalHashes (children conf cryptoHash s' k))) Hcf).
    + case_bool_decide as He; [done|]. rewrite (cons_node _ _ _ _ Hc) by done.
      destruct (decide (bucketNumber k ∈ touchedAt conf A (level k))) as [Hin|Hin].
      * destruct He. apply Exists_app. right. by apply Hn'.
      * by rewrite (children_agree conf cryptoHash Hwf A s s' k Hl agree_affected Hin).
    + intros op [(ck & v & _ & _ & Ek & _)%Hd|(k' & Hk' & _ & _ & _ & Ek & Ev)%Hn]%elem_of_app E.
      * rewrite Ek in E. symmetry in E. by apply Hdisj in E.
      * rewrite Ek in E. apply (getEncodedBytes_inj conf Hwf) in E; [|done..]. by subst k'.
  - intros raw Hraw. destruct (decide (Exists (fun op => opKey op = raw) (dataOps ++ nodeOps))) as [He|He].
    + apply Exists_exists in He as (op & [(ck & v & _ & _ & Ek & _)%Hd|(k & ? & ? & _ & _ & Ek & _)%Hn]%elem_of_app & <-).
      * left. eauto.
      * right. exists k. split; [done|]. split; [lia|done].
    + rewrite (applyBatch_lookup _ _ _ _ None Hcf) in Hraw.
      * rewrite bool_decide_eq_false_2 in Hraw by done. by apply (cons_only _ _ _ _ Hc).
      * intros op Hop E. destruct He. apply Exists_exists. eauto.
Qed.

(** ** The cache *)

Lemma cacheNode_lookup cache node : isEnabled (cacheNode cache node) = isEnabled cache /\
  (isEnabled cache = true -> forall k x, cacheMap (cacheNode cache node) !! k = Some x ->
    (k = bn_bucketKey node /\ bn_bucketKey x = k /\ childrenCryptoHash x = childrenCryptoHash node) \/
    (k <> bn_bucketKey node /\ cacheMap cache !! k = Some x)).
Proof.
  unfold cacheNode, removeWithoutLock, putWithoutLock. destruct cache as [en m sz mx]. cbn.
  destruct (markedForDeletion node), en; cbn; (split; [repeat case_match; done|]); try done; intros _ k x.
  - destruct (m !! bn_bucketKey node) eqn:E; cbn.
    + rewrite lookup_delete. case_decide; [done|]. intros. right. split; congruence.
    + intros. right. split; [congruence|done].
  - destruct (m !! bn_bucketKey node) eqn:E; cbn; destruct (_ >? _); cbn.
    + rewrite lookup_delete. case_decide; [done|]. intros. right. split; congruence.
    + rewrite lookup_insert. case_decide as Ek; [|intros; right; split; congruence].
      intros [= <-]. left. subst k. done.
    + intros. right. split; [congruence|done].
    + rewrite lookup_insert. case_decide as Ek; [|intros; right; split; congruence].
      intros [= <-]. left. subst k. done.
Qed.

(** While the cache is updated: stale entries are those still to come. *)
Lemma cacheNodes_ok nodes cache :
  (forall node, node ∈ nodes -> childrenCryptoHash node = children conf cryptoHash s' (bn_bucketKey node) /\
    validKey conf (bn_bucketKey node) /\ level (bn_bucketKey node) < lowestLevel conf) ->
  (isEnabled cache = true -> forall k x, cacheMap cache !! k = Some x ->
    bn_bucketKey x = k /\ validKey conf k /\ level k < lowestLevel conf /\
    (childrenCryptoHash x = children conf cryptoHash s' k \/ exists node, node ∈ nodes /\ bn_bucketKey node = k)) ->
  cacheOk conf cryptoHash s' (foldl cacheNode cache nodes).
Proof.
  revert cache. induction nodes as [|node nodes IH]; intros cache Hn Hcache.
  { intros He k x Hx. destruct (Hcache He k x Hx) as (? & ? & ? & [?|(? & ?%elem_of_nil & _)]); done. }
  cbn [foldl]. destruct (cacheNode_lookup cache node) as [He Hlook].
  apply IH; [intros; apply Hn; by right|]. rewrite He. intros Hen k x Hx.
  destruct (Hn node ltac:(by left)) as (Hch & Hv & Hl).
  destruct (Hlook Hen k x Hx) as [(-> & Ek & Ex)|[Hk Hx']].
  - split; [done|]. split; [done|]. split; [done|]. left. by rewrite Ex.
  - destruct (Hcache Hen k x Hx') as (? & ? & ? & Hor). split; [done|]. split; [done|]. split; [done|].
    destruct Hor as [?|(node' & [->|?]%elem_of_cons & ?)]; [by left|done|right; eauto].
Qed.

Lemma updateBucketCache_ok st tree : treeDone tree -> si_bucketTreeDelta st = Some tree ->
  cacheOk conf cryptoHash s (si_bucketCache st) ->
  cacheOk conf cryptoHash s' (si_bucketCache (updateBucketCache conf o st)).
Proof.
  intros Ht ET Hcache. unfold updateBucketCache. rewrite ET.
  assert (bucketTreeDelta_isEmpty tree = false) as ->.
  { unfold bucketTreeDelta_isEmpty. apply bool_decide_eq_false. intros E%map_size_empty_iff. subst tree.
    pose proof (Ht 0 ltac:(lia) 1) as H1. unfold getNode in H1.
    cbn [level] in H1. rewrite lookup_empty in H1. apply H1.
    rewrite (touchedAt_root conf Hwf A affected_valid affected_nonempty). by apply elem_of_singleton. }
  cbn. assert (forall node, node ∈ concat (getBucketNodesAt o tree <$> upperLevels conf) <->
    node ∈ concat (getBucketNodesAt o tree <$> rev (upperLevels conf))) as Hrev.
  { intros node. rewrite !list_elem_of_In, !in_concat. setoid_rewrite <- list_elem_of_In.
    setoid_rewrite list_elem_of_fmap. setoid_rewrite list_elem_of_In. setoid_rewrite <- in_rev. done. }
  apply cacheNodes_ok.
  - intros node (k & Hk & En)%Hrev%(tree_nodes tree node Ht).
    destruct (done_node tree k node Ht Hk En) as [Hin (-> & Ech & _)]. split; [done|].
    split; [destruct k; apply (touchedAt_valid conf Hwf A); [apply affected_valid|cbn in *; lia|done]|lia].
  - intros He k x Hx. destruct (Hcache He k x Hx) as (Ek & Hv & Hl & Ech). split_and!; [done..|].
    destruct (decide (bucketNumber k ∈ touchedAt conf A (level k))) as [Hin|Hin].
    + right. assert (0 <= level k < lowestLevel conf) as Hl' by (destruct Hv; lia).
      pose proof (Ht (level k) Hl' (bucketNumber k)) as Hf.
      destruct (getNode tree (mkBucketKey (level k) (bucketNumber k))) as [node|] eqn:E; [|done].
      destruct Hf as [_ (Ekey & _)]. exists node. split; [|by destruct k].
      apply Hrev, (tree_nodes tree node Ht). by eexists.
    + left. by rewrite Ech, (children_agree conf cryptoHash Hwf A s s' k Hl agree_affected Hin).
Qed.
End working_set.
End commit.
