(* ===== verification/BucketScan.v ===== *)
(** Range scans over the bucket tree, range_scan_iterator.go: the iterator goes
    through the buckets one after the other and yields exactly the keys of the
    chaincode in the range. *)
From stdpp Require Import base gmap list sorting.
From Stdlib Require Import ZArith Lia.
From Stdlib.Strings Require Import Byte.
From S2P Require Import Prelude GoStd GoBytes LedgerUtil KVStore StateDelta StateSpec HashableState.
From S2P Require Import BucketKeys BucketNode BucketHash BucketSpec BucketState BucketStore.

(** * Prefixes and order *)

(** What lies between two extensions of a prefix extends it. *)
Lemma prefix_between p a b h : bytesLe (p ++ a) h -> bytesLt h (p ++ b) -> exists c, h = p ++ c.
Proof.
  revert h. induction p as [|x p IH]; intros h Hle Hlt; [by exists h|].
  destruct h as [|y h]; [by unfold bytesLe in Hle|].
  unfold bytesLe, bytesLt in *. cbn in *.
  destruct (Z.compare_spec (Z_of_byte x) (Z_of_byte y)) as [E|E|E]; [|..|done].
  - rewrite E, Z.compare_refl in Hlt. apply (inj Z_of_byte) in E as ->.
    destruct (IH h Hle Hlt) as [c ->]. by exists c.
  - destruct (Z.compare_spec (Z_of_byte y) (Z_of_byte x)); [lia|lia|done].
Qed.

Lemma bytesLe_prefix p a b : bytesLe (p ++ a) (p ++ b) <-> bytesLe a b.
Proof. unfold bytesLe. by rewrite bytesCompare_app_l. Qed.

Lemma bytesLt_prefix p a b : bytesLt (p ++ a) (p ++ b) <-> bytesLt a b.
Proof. unfold bytesLt. by rewrite bytesCompare_app_l. Qed.

Lemma bytesLt_le a b : bytesLt a b -> bytesLe a b.
Proof. intros. apply bytesLe_lt. by left. Qed.

Section scan.
Context {DB : Type} `{RocksDBLaws DB}.
Context (conf : config) (cryptoHash : bytes -> bytes) (Hwf : wfConfig conf).
Context (db : DB) (s : kvs) (Hdb : healthy db) (Hs : wfKvs s)
  (Hc : consistent conf cryptoHash (contents db StateCF) s).
Context (cc start_ end_ : bytes) (Hcc : stateKeyDelimiter ∉ cc).

Abbreviation num := (numBucketsAt conf (lowestLevel conf)).
Abbreviation raw := (rawPair conf).

(** The entries to return. *)
Definition good (kv : bytes * bytes) : bool :=
  match DecodeCompositeKey kv.1 with
  | Some (c, k) => bool_decide (c = cc) && inRange start_ end_ k
  | None => false
  end.

Definition keyValue (kv : bytes * bytes) : bytes * option bytes :=
  (default [] (snd <$> DecodeCompositeKey kv.1), Some kv.2).

Definition bucketResults (b : Z) : list (bytes * bytes) := List.filter good (bucketPairs conf s b).

(** The smallest key of the range in a bucket. *)
Definition fromKey (b : Z) : bytes := dataRawKey b (ConstructCompositeKey cc start_).

Lemma good_spec kv : good kv = true <->
  exists k, kv.1 = ConstructCompositeKey cc k /\ inRange start_ end_ k = true.
Proof.
  unfold good. split.
  - destruct (DecodeCompositeKey kv.1) as [[c k]|] eqn:E; [|done].
    intros [->%bool_decide_eq_true Hr]%andb_true_iff. exists k. split; [by apply DecodeCompositeKey_Some|done].
  - intros (k & -> & Hr). rewrite DecodeCompositeKey_Construct by done. by rewrite bool_decide_eq_true_2.
Qed.

(** A scan from the start of the range in bucket [b]. *)
Definition scanFrom (b : Z) (L : list (bytes * bytes)) : Prop :=
  ScanCF db StateCF (fromKey b) = raw <$> L /\
  forall ck v, (ck, v) ∈ L <-> s !! ck = Some v /\ bytesLe (fromKey b) (dataRawKey (bucketOf conf ck) ck).

Lemma num_small : 1 <= num < 2147483648.
Proof.
  pose proof (wf_lowest conf Hwf). destruct (wf_num conf Hwf (lowestLevel conf)); [lia|].
  unfold smallInt in *. lia.
Qed.

Lemma scan_exists b : 1 <= b <= num + 1 -> exists L, scanFrom b L.
Proof.
  intros Hb. pose proof num_small.
  destruct (scan_data conf cryptoHash Hwf db s Hdb Hc (fromKey b)) as (L & E & HL); [|by exists L].
  exists b, (ConstructCompositeKey cc start_). unfold is_u64, two64. split; [lia|]. split; [lia|done].
Qed.

Lemma fromKey_bucket b ck : 1 <= b <= num + 1 ->
  bytesLe (fromKey b) (dataRawKey (bucketOf conf ck) ck) ->
  b < bucketOf conf ck \/ (b = bucketOf conf ck /\ bytesLe (ConstructCompositeKey cc start_) ck).
Proof.
  intros Hb Hle. pose proof num_small. unfold bytesLe, fromKey in Hle.
  rewrite dataRawKey_compare in Hle by (unfold is_u64, two64; lia || apply (bucketOf_u64 conf Hwf)).
  destruct (Z.compare_spec b (bucketOf conf ck)); [by right|by left|done].
Qed.

Lemma fromKey_le b ck : 1 <= b <= num + 1 ->
  b < bucketOf conf ck \/ (b = bucketOf conf ck /\ bytesLe (ConstructCompositeKey cc start_) ck) ->
  bytesLe (fromKey b) (dataRawKey (bucketOf conf ck) ck).
Proof.
  intros Hb Hor. pose proof num_small. unfold bytesLe, fromKey.
  rewrite dataRawKey_compare by (unfold is_u64, two64; lia || apply (bucketOf_u64 conf Hwf)).
  destruct (Z.compare_spec b (bucketOf conf ck)), Hor as [?|[? ?]]; try lia; done.
Qed.

(** What the iterator has still to return, at the entries [L] in bucket [b]. *)
Definition remaining (b : Z) (L : list (bytes * bytes)) : list (bytes * bytes) :=
  List.filter (fun kv => bool_decide (bucketOf conf kv.1 = b) && good kv) L ++
  concat (bucketResults <$> seqZ (b + 1) (num - b)).

Lemma filter_sorted_entries (P : bytes * bytes -> bool) l : StronglySorted entryLt l ->
  StronglySorted entryLt (List.filter P l).
Proof.
  induction 1 as [|x l Hl IH Hx]; cbn; [constructor|]. destruct (P x); [|done]. constructor; [done|].
  rewrite Forall_forall in Hx |- *. intros y [Hy _]%list_elem_of_In%filter_In. apply Hx. by apply list_elem_of_In.
Qed.

Lemma sorted_in_bucket b L : StronglySorted entryLt (raw <$> L) ->
  StronglySorted entryLt (List.filter (fun kv => bool_decide (bucketOf conf kv.1 = b) && good kv) L).
Proof.
  induction L as [|x L IH]; intros Hsort; [constructor|]. rewrite fmap_cons in Hsort.
  apply StronglySorted_inv in Hsort as [Hsort Hx]. cbn.
  destruct (bool_decide _ && good x) eqn:E; [|by apply IH]. constructor; [by apply IH|].
  rewrite Forall_forall in Hx |- *. intros y [Hy Ey]%list_elem_of_In%filter_In.
  apply andb_true_iff in E as [E _]. apply andb_true_iff in Ey as [Ey _].
  apply bool_decide_eq_true in E, Ey. apply (rawPair_lt conf Hwf); [congruence|].
  apply Hx, list_elem_of_fmap_2. by apply list_elem_of_In.
Qed.

(** A fresh scan has all the results of its bucket ahead. *)
Lemma scanFrom_remaining b L : 1 <= b <= num + 1 -> scanFrom b L ->
  remaining b L = concat (bucketResults <$> seqZ b (num + 1 - b)).
Proof.
  intros Hb [Escan HL]. unfold remaining.
  assert (List.filter (fun kv => bool_decide (bucketOf conf kv.1 = b) && good kv) L = bucketResults b) as ->.
  { apply sorted_entries_unique.
    - apply sorted_in_bucket. rewrite <- Escan. apply ScanCF_sorted.
    - apply filter_sorted_entries, entriesFrom_sorted.
    - intros [ck v]. unfold bucketResults. rewrite !list_elem_of_In, !filter_In, <- !list_elem_of_In.
      rewrite andb_true_iff, bool_decide_eq_true, HL, elem_of_bucketPairs. cbn [fst].
      split; [tauto|]. intros [[Hv Eb] Hg]. split; [|done]. split; [done|].
      apply fromKey_le; [done|]. right. split; [done|]. apply good_spec in Hg as (k & Ek & Hr).
      cbn in Ek. subst ck. unfold ConstructCompositeKey. apply bytesLe_prefix.
      apply andb_true_iff in Hr as [Hr _]. apply bool_decide_eq_true in Hr.
      apply (bytesLe_prefix [stateKeyDelimiter]). done. }
  destruct (decide (b = num + 1)) as [->|Hne].
  - rewrite Z.sub_diag. replace (num - (num + 1)) with (-1) by lia.
    unfold bucketResults, bucketPairs.
    assert (filter (fun '(ck, _) => bucketOf conf ck = num + 1) s = ∅) as ->; [|done].
    apply map_eq. intros ck. rewrite map_lookup_filter, lookup_empty. destruct (s !! ck); [|done]. cbn.
    rewrite option_guard_False; [done|]. pose proof (bucketOf_range conf Hwf ck). lia.
  - rewrite (seqZ_cons b) by lia. rewrite fmap_cons. cbn [concat]. replace (Z.succ b) with (b + 1) by lia.
    by replace (Z.pred (num + 1 - b)) with (num - b) by lia.
Qed.

(** The iterator in bucket [b] with the entries [L] ahead: what it has passed
    since it came to the bucket is in that bucket. *)
Record position (b : Z) (L : list (bytes * bytes)) (itr : RangeScanIterator) : Prop := {
  pos_range : 1 <= b <= num + 1;
  pos_scan : exists P, scanFrom b (P ++ L) /\ forall x, x ∈ P -> bucketOf conf x.1 = b;
  pos_itr : dbItr itr = raw <$> L;
  pos_bucket : currentBucketNumber itr = b;
  pos_args : rs_chaincodeID itr = cc /\ startKey itr = start_ /\ endKey itr = end_;
  pos_done : rs_done itr = false
}.

Lemma pos_sorted b L itr : position b L itr -> StronglySorted entryLt (raw <$> L).
Proof.
  intros [_ (P & [E _] & _) _ _ _ _].
  pose proof (ScanCF_sorted db StateCF (fromKey b)) as Hsort. rewrite E, fmap_app in Hsort.
  by apply StronglySorted_app_1_r in Hsort || by apply StronglySorted_app in Hsort as (_ & _ & ?).
Qed.

Lemma pos_elem b L itr ck v : position b L itr -> (ck, v) ∈ L ->
  s !! ck = Some v /\ (b < bucketOf conf ck \/
    (b = bucketOf conf ck /\ bytesLe (ConstructCompositeKey cc start_) ck)).
Proof.
  intros [Hb (P & [_ HL] & _) _ _ _ _] Hin.
  destruct (proj1 (HL ck v)) as [Hv Hle]; [apply elem_of_app; by right|].
  split; [done|]. by apply fromKey_bucket.
Qed.

(** Entries of later buckets are ahead. *)
Lemma pos_later b L itr ck v : position b L itr -> s !! ck = Some v -> b < bucketOf conf ck ->
  (ck, v) ∈ L.
Proof.
  intros [Hb (P & [_ HL] & HP) _ _ _ _] Hv Hlt.
  assert ((ck, v) ∈ P ++ L) as [Hin|Hin]%elem_of_app; [|specialize (HP _ Hin); cbn in HP; lia|done].
  apply HL. split; [done|]. apply fromKey_le; [done|]. by left.
Qed.

Lemma head_least b x L itr y : position b (x :: L) itr -> y ∈ L ->
  entryLt (raw x) (raw y).
Proof.
  intros Hp Hy. pose proof (pos_sorted _ _ _ Hp) as Hsort. rewrite fmap_cons in Hsort.
  apply StronglySorted_inv in Hsort as [_ Hx]. rewrite Forall_forall in Hx.
  apply Hx. by apply list_elem_of_fmap_2.
Qed.

Lemma filter_none {X} (P : X -> bool) l : (forall x, x ∈ l -> P x = false) -> List.filter P l = [].
Proof.
  induction l as [|x l IH]; intros Hl; [done|]. cbn. rewrite (Hl x) by (by left).
  apply IH. intros y ?. apply Hl. by right.
Qed.

(** No entry of the buckets in between: no result there. *)
Lemma no_results l : (forall c ck v, c ∈ l -> s !! ck = Some v -> bucketOf conf ck <> c) ->
  concat (bucketResults <$> l) = [].
Proof.
  induction l as [|c l IH]; intros Hl; [done|]. rewrite fmap_cons. cbn [concat].
  rewrite IH by (intros c' ck v Hin; apply Hl; by right). rewrite app_nil_r.
  apply filter_none. intros [ck v] [Hv Hb]%elem_of_bucketPairs. exfalso.
  by apply (Hl c ck v); [left|..].
Qed.

Lemma remaining_end b itr : position b [] itr -> remaining b [] = [].
Proof.
  intros Hp. unfold remaining. cbn. apply no_results.
  intros c ck v Hc'%elem_of_seqZ Hv E. pose proof (pos_later _ _ _ ck v Hp Hv) as Hin.
  apply elem_of_nil in Hin; [done|lia].
Qed.

Lemma remaining_skip b x L itr : position b (x :: L) itr -> b < bucketOf conf x.1 ->
  remaining b (x :: L) = concat (bucketResults <$> seqZ (bucketOf conf x.1) (num + 1 - bucketOf conf x.1)).
Proof.
  intros Hp Hlt. pose proof (bucketOf_range conf Hwf x.1). unfold remaining.
  rewrite filter_none; [cbn [app]|].
  - replace (num - b) with ((bucketOf conf x.1 - (b + 1)) + (num + 1 - bucketOf conf x.1)) by lia.
    rewrite seqZ_app by lia. rewrite fmap_app, concat_app.
    replace (b + 1 + (bucketOf conf x.1 - (b + 1))) with (bucketOf conf x.1) by lia.
    rewrite no_results; [done|]. intros c ck v Hc'%elem_of_seqZ Hv E.
    pose proof (pos_later _ _ _ ck v Hp Hv ltac:(lia)) as [<-|Hin]%elem_of_cons; [cbn in *; lia|].
    pose proof (rawPair_bucket conf Hwf _ _ (head_least _ _ _ _ _ Hp Hin)). cbn in *. lia.
  - intros y [->|Hin]%elem_of_cons; apply andb_false_iff; left; apply bool_decide_eq_false; [lia|].
    pose proof (rawPair_bucket conf Hwf _ _ (head_least _ _ _ _ _ Hp Hin)). lia.
Qed.

(** Once an entry of the bucket is not in the range, no later one is. *)
Lemma remaining_next b x L itr : position b (x :: L) itr -> bucketOf conf x.1 = b -> good x = false ->
  remaining b (x :: L) = concat (bucketResults <$> seqZ (b + 1) (num - b)).
Proof.
  intros Hp Hb Hg. unfold remaining. rewrite filter_none; [done|].
  intros y [->|Hin]%elem_of_cons; [by rewrite Hg, andb_false_r|]. apply andb_false_iff.
  destruct (decide (bucketOf conf y.1 = b)) as [Eb|Eb]; [|left; by apply bool_decide_eq_false].
  right. apply not_true_iff_false. intros (k & Ek & Hr)%good_spec.
  pose proof (head_least _ _ _ _ _ Hp Hin) as Hlt. apply (proj1 (rawPair_lt conf Hwf x y ltac:(congruence))) in Hlt.
  unfold entryLt in Hlt. rewrite Ek in Hlt.
  destruct x as [ck v]. destruct (pos_elem _ _ _ ck v Hp) as [_ [?|[_ Hle]]]; [by left|cbn in *; lia|].
  cbn [fst] in *. unfold ConstructCompositeKey in Hle, Hlt.
  change (stateKeyDelimiter :: start_) with ([stateKeyDelimiter] ++ start_) in Hle.
  change (stateKeyDelimiter :: k) with ([stateKeyDelimiter] ++ k) in Hlt.
  rewrite app_assoc in Hle, Hlt. destruct (prefix_between _ _ _ _ Hle Hlt) as [kx ->].
  apply bytesLe_prefix in Hle. apply bytesLt_prefix in Hlt.
  apply not_true_iff_false in Hg. apply Hg, good_spec. exists kx. cbn.
  rewrite <- app_assoc. split; [done|]. unfold inRange in *.
  apply andb_true_iff in Hr as [_ Hr]. apply andb_true_iff. split; [by apply bool_decide_eq_true|].
  apply orb_true_iff in Hr as [Hr|Hr]; apply orb_true_iff; [by left|right].
  apply bool_decide_eq_true in Hr. apply bool_decide_eq_true.
  etransitivity; [by apply bytesLt_le|done].
Qed.

(** Going to another bucket. *)
Lemma seek_position b itr : 1 <= b <= num + 1 ->
  rs_chaincodeID itr = cc /\ startKey itr = start_ /\ endKey itr = end_ -> rs_done itr = false ->
  exists L itr', seekForStartKeyWithinBucket db b itr = Done tt itr' /\ position b L itr' /\
    remaining b L = concat (bucketResults <$> seqZ b (num + 1 - b)).
Proof.
  intros Hb (E1 & E2 & E3) Hd. destruct (scan_exists b Hb) as [L HL]. exists L.
  pose proof num_small. unfold seekForStartKeyWithinBucket, minimumPossibleDataKeyBytes.
  cbv [mbind M_bind Prelude.get]. rewrite encodeBucketNumber_opv by (unfold is_u64, two64; lia).
  cbn [option_bind]. rewrite E1, E2. cbv [lift mret M_ret modify]. eexists. split; [reflexivity|].
  split; [|by apply scanFrom_remaining]. split; try done.
  - exists []. split; [done|]. by intros x ?%elem_of_nil.
  - cbn. exact (proj1 HL).
Qed.

(** One round of the loop of [Next]. *)
Lemma scanLoop_round f b ck v L itr : position b ((ck, v) :: L) itr ->
  exists k, DecodeCompositeKey ck = Some (default [] (fst <$> DecodeCompositeKey ck), k) /\
  scanLoop conf db (S f) itr =
    if bucketOf conf ck >? b then (seekForStartKeyWithinBucket db (bucketOf conf ck);; scanLoop conf db f) itr
    else if good (ck, v) then
      Done true (itr <| currentKey := k |> <| currentValue := Some v |> <| dbItr := raw <$> L |>)
    else (seekForStartKeyWithinBucket db (bucketOf conf ck + 1);; scanLoop conf db f) itr.
Proof.
  intros Hp. destruct (pos_elem _ _ _ ck v Hp ltac:(by left)) as [Hv Hbucket].
  destruct (Hs ck v Hv) as [_ [[c k] Edec]]. exists k. rewrite Edec. split; [done|].
  cbn [scanLoop]. cbv [mbind M_bind Prelude.get]. rewrite (pos_itr _ _ _ Hp).
  cbn [fmap list_fmap rawPair fst snd].
  assert (unmarshalDataNodeFromBytes conf (dataRawKey (bucketOf conf ck) ck) (Some v) =
    Some (pairNode conf (ck, v))) as ->.
  { unfold unmarshalDataNodeFromBytes. by rewrite newDataKeyFromEncodedBytes_wf by (done || apply bucketOf_range, Hwf). }
  cbn [lift mret M_ret pairNode getCompositeKey dn_dataKey dn_value compositeKey dk_bucketKey bucketKeyOf
    bucketNumber fst snd]. rewrite Edec. cbn [lift mret M_ret].
  rewrite (pos_bucket _ _ _ Hp). destruct (Z.gtb_spec (bucketOf conf ck) b) as [Hgt|Hle]; [done|].
  assert (good (ck, v) = bool_decide (c = rs_chaincodeID itr) &&
    (bool_decide (endKey itr = []) || bool_decide (bytesLe k (endKey itr)))) as ->.
  { destruct (pos_args _ _ _ Hp) as (-> & _ & ->). unfold good. cbn [fst]. rewrite Edec. unfold inRange.
    case_bool_decide as Ec; cbn [andb]; [|done]. subst c.
    rewrite bool_decide_eq_true_2; [done|]. apply DecodeCompositeKey_Some in Edec. subst ck.
    destruct Hbucket as [?|[_ Hle']]; [lia|]. unfold ConstructCompositeKey in Hle'.
    apply bytesLe_prefix in Hle'. by apply (bytesLe_prefix [stateKeyDelimiter]) in Hle'. }
  by destruct (_ && _).
Qed.

(** One call of [Next]. *)
Lemma scanLoop_next f b L itr : position b L itr -> num + 1 - b <= Z.of_nat f ->
  (remaining b L = [] /\ exists itr', scanLoop conf db f itr = Done false itr') \/
  exists kv rest b' L' itr', remaining b L = kv :: rest /\ scanLoop conf db f itr = Done true itr' /\
    scan_GetKeyValue itr' = keyValue kv /\ position b' L' itr' /\ remaining b' L' = rest.
Proof.
  revert b L itr. induction f as [|f IH]; intros b L itr Hp Hf;
    (destruct L as [|[ck v] L];
      [left; split; [by eapply remaining_end|]; cbn [scanLoop]; cbv [mbind M_bind Prelude.get];
       rewrite (pos_itr _ _ _ Hp); cbn; eauto|]);
    destruct (pos_elem _ _ _ ck v Hp ltac:(by left)) as [Hv Hbucket];
    pose proof (bucketOf_range conf Hwf ck) as Hrange; [lia|].
  destruct (scanLoop_round f b ck v L itr Hp) as (k & Edec & ->).
  pose proof (pos_args _ _ _ Hp) as Hargs. pose proof (pos_done _ _ _ Hp) as Hd.
  destruct (Z.gtb_spec (bucketOf conf ck) b) as [Hgt|Hle].
  - destruct (seek_position (bucketOf conf ck) itr) as (L' & itr' & E & Hp' & Hrem); [lia|done..|].
    cbv [mbind M_bind]. rewrite E.
    assert (remaining b ((ck, v) :: L) = remaining (bucketOf conf ck) L') as ->.
    { rewrite Hrem. by eapply remaining_skip; [|cbn; lia]. }
    apply IH; [done|lia].
  - assert (bucketOf conf ck = b) as Hb by lia. destruct (good (ck, v)) eqn:Eg.
    + right. exists (ck, v). eexists. exists b, L. eexists. split.
      { unfold remaining. cbn [List.filter]. rewrite Eg. cbn [fst].
        rewrite bool_decide_eq_true_2 by done. cbn [andb app]. reflexivity. }
      split; [reflexivity|]. split; [unfold keyValue; cbn; by rewrite Edec|]. split; [|done].
      destruct Hp as [? (P & HL & HP) ? ? ? ?]. split; try done.
      exists (P ++ [(ck, v)]). rewrite <- app_assoc. split; [done|].
      intros y [?| ->%list_elem_of_singleton]%elem_of_app; [by apply HP|done].
    + destruct (seek_position (b + 1) itr) as (L' & itr' & E & Hp' & Hrem); [lia|done..|].
      cbv [mbind M_bind]. rewrite Hb, E.
      assert (remaining b ((ck, v) :: L) = remaining (b + 1) L') as ->.
      { rewrite Hrem. replace (num + 1 - (b + 1)) with (num - b) by lia. by eapply remaining_next. }
      apply IH; [done|lia].
Qed.

(** The iterator yields what remains. *)
Lemma scan_yields fuel l : num <= Z.of_nat fuel -> forall b L itr, position b L itr -> remaining b L = l ->
  yields (scan_Next conf db fuel) (fun itr => Some (scan_GetKeyValue itr)) itr (keyValue <$> l).
Proof.
  intros Hf. induction l as [|kv l IH]; intros b L itr Hp Hrem.
  - destruct (scanLoop_next fuel b L itr Hp) as [[_ [itr' E]]|(kv & rest & _ & _ & _ & E & _)];
      [pose proof (pos_range _ _ _ Hp); lia| |congruence].
    eapply yields_nil. unfold scan_Next. cbv [mbind M_bind gets]. rewrite (pos_done _ _ _ Hp). exact E.
  - destruct (scanLoop_next fuel b L itr Hp) as [[E _]|(kv' & rest & b' & L' & itr' & E & En & Ekv & Hp' & Er)];
      [pose proof (pos_range _ _ _ Hp); lia|congruence|].
    rewrite Hrem in E. injection E as <- <-. rewrite fmap_cons, <- Ekv. eapply yields_cons.
    + unfold scan_Next. cbv [mbind M_bind gets]. rewrite (pos_done _ _ _ Hp). exact En.
    + done.
    + by eapply IH.
Qed.

Definition scanResults : list (bytes * bytes) := concat (bucketResults <$> seqZ 1 num).

Lemma elem_of_scanResults ck v : (ck, v) ∈ scanResults <-> s !! ck = Some v /\ good (ck, v) = true.
Proof.
  unfold scanResults. rewrite list_elem_of_In, in_concat. split.
  - intros (l & (b & -> & _)%list_elem_of_In%list_elem_of_fmap & [Hin Hg]%filter_In).
    apply list_elem_of_In, elem_of_bucketPairs in Hin as [Hv _]. done.
  - intros [Hv Hg]. exists (bucketResults (bucketOf conf ck)). split.
    + apply list_elem_of_In, list_elem_of_fmap_2, elem_of_seqZ.
      pose proof (bucketOf_range conf Hwf ck). lia.
    + apply filter_In. split; [|done]. by apply list_elem_of_In, elem_of_bucketPairs.
Qed.

Lemma scanResults_NoDup : NoDup scanResults.*1.
Proof.
  unfold scanResults. pose proof (NoDup_seqZ 1 num) as Hnd. induction (seqZ 1 num) as [|b l IH]; [constructor|].
  apply NoDup_cons in Hnd as [Hb Hnd]. rewrite fmap_cons. cbn [concat]. rewrite fmap_app. apply NoDup_app.
  split; [apply StronglySorted_lt_NoDup, filter_sorted_entries, entriesFrom_sorted|].
  split; [|by apply IH]. intros ck ([ck1 v1] & -> & Hin1)%list_elem_of_fmap ([ck2 v2] & E & Hin2)%list_elem_of_fmap.
  cbn in E. subst ck2. apply list_elem_of_In, filter_In in Hin1 as [Hin1 _].
  apply list_elem_of_In, elem_of_bucketPairs in Hin1 as [_ E1].
  apply list_elem_of_In, in_concat in Hin2 as (k & (b2 & -> & Hb2)%list_elem_of_In%list_elem_of_fmap & [Hin2 _]%filter_In).
  apply list_elem_of_In, elem_of_bucketPairs in Hin2 as [_ E2]. apply Hb. congruence.
Qed.
End scan.
