(* ===== verification/BucketTree.v ===== *)
(** The bucket tree as an implementation of HashableState: the relation between
    database, StateImpl and state, and that every operation keeps it. *)
From stdpp Require Import base gmap list sorting.
From Stdlib Require Import ZArith Lia.
From Stdlib.Strings Require Import Byte.
From S2P Require Import Prelude GoStd GoBytes LedgerUtil KVStore StateDelta StateSpec HashableState.
From S2P Require Import BucketKeys BucketNode BucketHash BucketSpec BucketState BucketStore BucketDelta.
From S2P Require Import BucketProcess BucketCommit BucketScan.

#[export] Instance bucketTree {DB} `{RocksDB DB} (conf : config) (cryptoHash : bytes -> bytes)
    (o : mapOrder) : HashableState DB StateImpl RangeScanIterator := {
  hs_Get := fun db cc k => StateImpl_Get conf db cc k;
  hs_PrepareWorkingSet := PrepareWorkingSet conf o;
  hs_ComputeCryptoHash := ComputeStateHash conf cryptoHash o;
  hs_AddChangesForPersistence := AddChangesForPersistence conf cryptoHash o;
  hs_ClearWorkingSet := ClearWorkingSet conf o;
  hs_GetRangeScanIterator := fun db _ => newRangeScanIterator db;
  hs_Next := fun db => scan_Next conf db (Z.to_nat (numBucketsAt conf (lowestLevel conf)));
  hs_GetKeyValue := scan_GetKeyValue
}.

Section tree.
Context {DB : Type} `{RocksDBLaws DB}.
Context (conf : config) (cryptoHash : bytes -> bytes) (o : mapOrder) (Hwf : wfConfig conf)
  (Hdeep : 1 <= lowestLevel conf)
  (Hhash : forall b, cryptoHash b <> [] /\ fitsInt (cryptoHash b)).

(** The committed state. *)
Record committed (db : DB) (st : StateImpl) (s : kvs) : Prop := {
  com_healthy : healthy db;
  com_wf : wfKvs s;
  com_consistent : consistent conf cryptoHash (contents db StateCF) s;
  com_cache : cacheOk conf cryptoHash s (si_bucketCache st);
  com_hash : persistedStateHash st = stateHash conf cryptoHash s
}.

(** The working set: none, prepared, or hashed. *)
Inductive workingSet (st : StateImpl) (s : kvs) : option kvs -> Prop :=
| ws_none : si_dataNodesDelta st = None -> recomputeCryptoHash st = false ->
    si_bucketTreeDelta st = None ->
    lastComputedCryptoHash st = stateHash conf cryptoHash s -> workingSet st s None
| ws_prepared D w : spread conf D w -> composite w -> w <> ∅ ->
    si_dataNodesDelta st = Some D -> si_bucketTreeDelta st = Some newBucketTreeDelta ->
    recomputeCryptoHash st = true -> workingSet st s (Some (applyWrites s w))
| ws_hashed D w tree : spread conf D w -> composite w -> w <> ∅ ->
    si_dataNodesDelta st = Some D -> si_bucketTreeDelta st = Some tree ->
    treeDone conf cryptoHash s D w tree -> recomputeCryptoHash st = false ->
    lastComputedCryptoHash st = stateHash conf cryptoHash (applyWrites s w) ->
    workingSet st s (Some (applyWrites s w)).

Definition bt_holds (db : DB) (st : StateImpl) (s : kvs) (w : option kvs) : Prop :=
  committed db st s /\ workingSet st s w.

Lemma delta_composite d : noDelimiter d -> composite (deltaWrites d).
Proof.
  intros Hd ck v (cc & k & u & Hg & -> & _)%lookup_deltaWrites; [|done].
  rewrite DecodeCompositeKey_Construct; [by eexists|]. unfold Get in Hg.
  destruct (ChaincodeStateDeltas d !! cc) eqn:E; [|done]. by eapply Hd.
Qed.

Lemma delta_nonempty d : wfDelta d -> noDelimiter d -> IsEmpty d = false -> deltaWrites d <> ∅.
Proof.
  intros Hwfd Hd He E. unfold IsEmpty in He. apply bool_decide_eq_false in He.
  destruct (map_choose (ChaincodeStateDeltas d)) as (cc & c & Ec).
  { intros E'. apply He. by rewrite E'. }
  destruct (Hwfd cc c Ec) as [_ Hne]. destruct (map_choose _ Hne) as (k & u & Eu).
  assert (deltaWrites d !! ConstructCompositeKey cc k = Some (newValue d u)) as Hin.
  { apply lookup_deltaWrites; [done|]. exists cc, k, u. split; [|done]. unfold Get. by rewrite Ec. }
  by rewrite E, lookup_empty in Hin.
Qed.

Lemma Prepare_holds db st s w d : bt_holds db st s w -> admissible d -> IsEmpty d = false ->
  exists st', PrepareWorkingSet conf o d st = Done (Ok tt) st' /\
    bt_holds db st' s (Some (applyDelta s d)).
Proof.
  intros [[] _] [Hwfd Hd] He. destruct (newDataNodesDelta_spread conf Hwf o d Hd) as (D & ED & HD).
  unfold PrepareWorkingSet. rewrite He. cbv [mbind M_bind]. rewrite ED. cbn.
  eexists. split; [reflexivity|]. split; [by split|].
  apply (ws_prepared _ _ D (deltaWrites d)); try done; [by apply delta_composite|by apply delta_nonempty].
Qed.

Lemma Hash_holds db st s w : bt_holds db st s w ->
  exists st', ComputeStateHash conf cryptoHash o db st =
      Done (Ok (stateHash conf cryptoHash (default s w))) st' /\ bt_holds db st' s w.
Proof.
  intros [Hcom Hws]. destruct Hws as [? Hr ? Hl|D w HD Hw Hne ED ET Hr|D w tree HD Hw Hne ED ET Ht Hr Hl].
  - exists st. split; [|by split; [|constructor]]. unfold ComputeStateHash. cbv [mbind M_bind gets].
    by rewrite Hr, Hl.
  - destruct Hcom as [Hdb Hs Hc Hcache Hper].
    destruct (ComputeStateHash_run conf cryptoHash o Hwf Hdeep Hhash db s Hdb Hs Hc D w HD Hw Hne st)
      as (tree & E & Ht); [done..|]. eexists. split; [exact E|]. split; [by split|].
    by apply (ws_hashed _ _ D w tree).
  - exists st. split; [|by split; [|eapply ws_hashed]]. unfold ComputeStateHash. cbv [mbind M_bind gets].
    by rewrite Hr, Hl.
Qed.

(** A hash that is known is not computed again. *)
Lemma ComputeStateHash_again db st r st' : ComputeStateHash conf cryptoHash o db st = Done (Ok r) st' ->
  ComputeStateHash conf cryptoHash o db st' = Done (Ok r) st'.
Proof.
  unfold ComputeStateHash, try. cbv [mbind M_bind gets modify mret M_ret].
  destruct (recomputeCryptoHash st) eqn:E.
  - destruct (processDataNodeDelta _ _ _ _ st) as [[|] st1| |]; try done.
    destruct (processBucketTreeDelta _ _ _ _ st1) as [[|] st2| |]; try done.
    destruct (computeRootNodeCryptoHash _ _ _ st2) as [h st3| |]; try done. intros [= <- <-]. done.
  - intros [= <- <-]. by rewrite E.
Qed.

Lemma Clear_false_holds db st s w : bt_holds db st s w ->
  exists st', ClearWorkingSet conf o false st = Done tt st' /\ bt_holds db st' s None.
Proof.
  intros [[] _]. eexists. split; [reflexivity|]. split; [by split|]. by constructor.
Qed.

(** Updating the cache changes nothing else. *)
Lemma updateBucketCache_hashes st :
  persistedStateHash (updateBucketCache conf o st) = persistedStateHash st /\
  lastComputedCryptoHash (updateBucketCache conf o st) = lastComputedCryptoHash st.
Proof. unfold updateBucketCache. by repeat case_match. Qed.

(** The batch of a hashed working set, and clearing it once it is written. *)
Lemma Persist_hashed db st s D w tree batch : committed db st s -> spread conf D w -> composite w -> w <> ∅ ->
  si_dataNodesDelta st = Some D -> si_bucketTreeDelta st = Some tree ->
  treeDone conf cryptoHash s D w tree -> recomputeCryptoHash st = false ->
  lastComputedCryptoHash st = stateHash conf cryptoHash (applyWrites s w) ->
  exists ops, AddChangesForPersistence conf cryptoHash o db batch st = Done (batch ++ ops) st /\
    Forall (fun op => match op with PutCF cf _ _ | DeleteCF cf _ => cf end = StateCF) ops /\
    forall db', healthy db' -> contents db' StateCF = applyBatch StateCF (contents db StateCF) ops ->
      exists st', ClearWorkingSet conf o true st = Done tt st' /\
        bt_holds db' st' (applyWrites s w) None.
Proof.
  intros [Hdb Hs Hc Hcache Hper] HD Hw Hne ED ET Ht Hr Hl.
  destruct (addData_run conf o Hwf D w HD st ED) as (dataOps & E1 & Hd & Hd').
  destruct (addNodes_run conf cryptoHash o Hwf s D w HD st tree Ht ET) as (nodeOps & E2 & Hn & Hn').
  exists (dataOps ++ nodeOps). split; [|split].
  - unfold AddChangesForPersistence. cbv [mbind M_bind gets]. rewrite ED, Hr. cbn [mret M_ret].
    rewrite E1, E2. done.
  - rewrite Forall_forall. intros op [(ck & v & _ & E & _)%Hd|(k & _ & _ & _ & E & _)%Hn]%elem_of_app; done.
  - intros db' Hdb' Econ. eexists. split; [reflexivity|].
    pose (st1 := st <| persistedStateHash := lastComputedCryptoHash st |>).
    destruct (updateBucketCache_hashes st1) as [E3 E4].
    split; [split|by apply ws_none; [..|rewrite <- Hl; exact E4]].
    + done.
    + by apply applyWrites_wf.
    + rewrite Econ. by eapply batch_consistent; eauto.
    + exact (updateBucketCache_ok conf cryptoHash o Hwf Hdeep s D w HD Hne
        st1 tree Ht ET Hcache).
    + rewrite <- Hl. exact E3.
Qed.

Lemma Persist_holds db st s w batch : bt_holds db st s w ->
  exists st' ops, AddChangesForPersistence conf cryptoHash o db batch st = Done (batch ++ ops) st' /\
    bt_holds db st' s w /\
    Forall (fun op => match op with PutCF cf _ _ | DeleteCF cf _ => cf end = StateCF) ops /\
    forall db', healthy db' -> contents db' StateCF = applyBatch StateCF (contents db StateCF) ops ->
      exists st'', ClearWorkingSet conf o true st' = Done tt st'' /\ bt_holds db' st'' (default s w) None.
Proof.
  intros [Hcom Hws]. destruct Hws as [Hd Hr Ht Hl|D w HD Hw Hne ED ET Hr|D w tree HD Hw Hne ED ET Ht Hr Hl].
  - exists st, []. rewrite app_nil_r. unfold AddChangesForPersistence. cbv [mbind M_bind gets]. rewrite Hd.
    split; [done|]. split; [by split; [|constructor]|]. split; [constructor|].
    intros db' Hdb' Econ. cbn in Econ. destruct Hcom. eexists. split; [reflexivity|].
    unfold updateBucketCache. cbn. rewrite Ht. split; [|by constructor]. split; try done. by rewrite Econ.
  - destruct Hcom as [Hdb Hs Hc Hcache Hper].
    destruct (ComputeStateHash_run conf cryptoHash o Hwf Hdeep Hhash db s Hdb Hs Hc D w HD Hw Hne st)
      as (tree & E & Ht); [done..|].
    set (st' := (withTree st tree) <| lastComputedCryptoHash := stateHash conf cryptoHash (applyWrites s w) |>
      <| recomputeCryptoHash := false |>) in *.
    assert (committed db st' s) as Hcom' by (by split).
    destruct (Persist_hashed db st' s D w tree batch Hcom' HD Hw Hne ED eq_refl Ht eq_refl eq_refl)
      as (ops & Eops & Hcf & Hclear).
    exists st', ops. split; [|split; [split; [done|by apply (ws_hashed _ _ D w tree)]|done]].
    unfold AddChangesForPersistence in Eops |- *. cbv [mbind M_bind gets] in Eops |- *.
    rewrite ED, Hr, E. change (si_dataNodesDelta st') with (si_dataNodesDelta st) in Eops.
    rewrite ED in Eops. exact Eops.
  - destruct (Persist_hashed db st s D w tree batch Hcom HD Hw Hne ED ET Ht Hr Hl) as (ops & Eops & Hcf & Hclear).
    exists st, ops. split; [done|]. split; [|done]. split; [done|]. by apply (ws_hashed _ _ D w tree).
Qed.

Lemma Scan_holds db st s w cc start_ end_ : bt_holds db st s w -> stateKeyDelimiter ∉ cc ->
  exists itr l, newRangeScanIterator db cc start_ end_ = Some itr /\
    yields (scan_Next conf db (Z.to_nat (numBucketsAt conf (lowestLevel conf)))) (fun itr => Some (scan_GetKeyValue itr)) itr l /\
    NoDup l.*1 /\
    forall k v, (k, v) ∈ l <->
      inRange start_ end_ k = true /\ v = s !! ConstructCompositeKey cc k /\ is_Some v.
Proof.
  intros [[Hdb Hs Hc _ _] _] Hcc. pose proof (num_small conf Hwf).
  destruct (seek_position conf cryptoHash Hwf db s Hdb Hc cc start_ end_ Hcc 1
    (mkRangeScanIterator [] cc start_ end_ 0 [] None false)) as (L & itr & E & Hp & Hrem); [lia|done..|].
  assert (forall kv, kv ∈ scanResults conf s cc start_ end_ ->
    exists k, kv.1 = ConstructCompositeKey cc k /\ inRange start_ end_ k = true /\ keyValue kv = (k, Some kv.2)) as Hres.
  { intros [ck v] [_ (k & Ek & Hr)%good_spec]%elem_of_scanResults; [|done..]. exists k. split; [done|].
    split; [done|]. unfold keyValue. cbn in *. by rewrite Ek, DecodeCompositeKey_Construct. }
  exists itr, (keyValue <$> scanResults conf s cc start_ end_). split.
  { unfold newRangeScanIterator. by rewrite E. }
  split; [|split].
  - eapply (scan_yields conf cryptoHash Hwf db s Hdb Hs Hc cc start_ end_ Hcc); [lia|exact Hp|].
    rewrite Hrem. by replace (numBucketsAt conf (lowestLevel conf) + 1 - 1)
      with (numBucketsAt conf (lowestLevel conf)) by lia.
  - pose proof (scanResults_NoDup conf s cc start_ end_) as Hnd. revert Hnd Hres.
    generalize (scanResults conf s cc start_ end_) as l. clear. induction l as [|x l IH]; intros Hnd Hres; [constructor|].
    rewrite !fmap_cons in *. apply NoDup_cons in Hnd as [Hx Hnd]. apply NoDup_cons. split.
    + intros ([k v] & E & (y & Ey & Hy)%list_elem_of_fmap)%list_elem_of_fmap. apply Hx.
      destruct (Hres x ltac:(by left)) as (kx & Ex & _ & Ekx).
      destruct (Hres y ltac:(by right)) as (ky & Ey' & _ & Eky).
      rewrite Ekx in E. rewrite Eky in Ey. injection Ey as -> ->. cbn in E. subst kx. rewrite Ex, <- Ey'.
      by apply list_elem_of_fmap_2.
    + apply IH; [done|]. intros kv Hin. apply Hres. by right.
  - intros k v. rewrite list_elem_of_fmap. split.
    + intros (kv & Ekv & Hin). destruct (Hres kv Hin) as (k' & Ek & Hr & Ekv'). rewrite Ekv' in Ekv.
      injection Ekv as -> ->. split; [done|]. destruct kv as [ck v1]. cbn in *. subst ck.
      apply elem_of_scanResults in Hin as [Hv _]; [|done]. by rewrite Hv.
    + intros (Hr & Ev & [v1 Hv]). subst v. exists (ConstructCompositeKey cc k, v1). rewrite Hv. split.
      * unfold keyValue. cbn. by rewrite DecodeCompositeKey_Construct.
      * apply elem_of_scanResults; [done|]. split; [done|]. apply good_spec; [done|]. eauto.
Qed.

#[export] Instance bucketTree_spec :
  HashableStateSpec DB StateImpl RangeScanIterator (HashableState0 := bucketTree conf cryptoHash o).
Proof.
  refine {| hs_hash := stateHash conf cryptoHash; hs_holds := bt_holds |}.
  - intros db st s w [[] _]. done.
  - intros db st s w cc k [[] _]. by apply (StateImpl_Get_value conf cryptoHash Hwf db s).
  - intros st d He. cbn. unfold PrepareWorkingSet. by rewrite He.
  - intros. cbn. by eapply Prepare_holds.
  - intros. cbn. by apply Hash_holds.
  - intros. cbn. by apply Persist_holds.
  - intros. cbn. by eapply Clear_false_holds.
  - intros. cbn. by eapply Scan_holds.
  - intros db db' st s w [[] Hw] Hdb' E. split; [|done]. split; try done. by rewrite E.
Defined.

(** ** Starting up *)

Lemma loadLoop_ok db s l cache : healthy db -> consistent conf cryptoHash (contents db StateCF) s ->
  (forall k v, (k, v) ∈ l -> contents db StateCF !! k = Some v) ->
  cacheOk conf cryptoHash s cache ->
  exists cache', loadLoop conf l cache = Some cache' /\ cacheOk conf cryptoHash s cache'.
Proof.
  intros Hdb Hc. revert cache. induction l as [|[k v] l IH]; intros cache Hl Hcache; [by exists cache|].
  pose proof (Hl k v ltac:(by left)) as Hv. cbn [loadLoop].
  destruct (cons_only _ _ _ _ Hc k (mk_is_Some _ _ Hv)) as [[ck ->]|(bk & Hbk & Hlev & ->)].
  - destruct (bucketOf_u64 conf Hwf ck) as [Hu H1]. destruct (opv_first _ Hu H1) as (b & rest & E & Hb).
    unfold dataRawKey. rewrite E. cbn [app head mbind option_bind].
    rewrite bool_decide_eq_false_2; [by exists cache|]. intros ->. cbn in Hb. lia.
  - cbn [getEncodedBytes head mbind option_bind]. fold (getEncodedBytes bk).
    rewrite bool_decide_eq_true_2 by done. cbn [negb].
    rewrite (decodeBucketKey_encode conf Hwf) by done. cbn [mbind option_bind].
    rewrite (cons_node _ _ _ _ Hc bk Hbk Hlev) in Hv. destruct (allNil _) eqn:Enil; [done|].
    injection Hv as <-. rewrite (unmarshalBucketNode_stored conf cryptoHash Hwf Hhash). cbn [mbind option_bind].
    destruct (_ >=? _); [eexists; split; [reflexivity|exact Hcache]|].
    apply IH; [intros k' v' ?; apply Hl; by right|]. intros He k' node. cbn. rewrite lookup_insert.
    case_decide as E; [subst k'; by intros [= <-]|by apply Hcache].
Qed.

Lemma loadAll_ok db s cache : healthy db -> consistent conf cryptoHash (contents db StateCF) s ->
  cacheOk conf cryptoHash s cache ->
  exists cache', loadAllBucketNodesFromDB conf db cache = Some cache' /\ cacheOk conf cryptoHash s cache'.
Proof.
  intros Hdb Hc Hcache. unfold loadAllBucketNodesFromDB. destruct (negb _); [by exists cache|].
  apply (loadLoop_ok db); try done. intros k v. rewrite ScanCF_contents by done. by intros [? _].
Qed.

Lemma Initialize_holds db s cs : healthy db -> wfKvs s ->
  consistent conf cryptoHash (contents db StateCF) s -> initConfig cs tt = Done conf tt ->
  exists st, Initialize cryptoHash db cs tt = Done (Ok (conf, st)) tt /\ bt_holds db st s None.
Proof.
  intros Hdb Hs Hc Econf. unfold Initialize, try. cbv [mbind M_bind]. rewrite Econf.
  unfold constructRootBucketKey. rewrite newBucketKey_valid by (apply root_valid; [done|lia]). cbn [lift mret M_ret].
  rewrite (fetchBucketNode_stored conf cryptoHash Hwf Hhash db s Hdb Hc) by (apply root_valid || (cbn; lia); done).
  destruct (loadAll_ok db s (newBucketCache (default defaultBucketCacheMaxSize (bucketCacheSize cs))))
    as (cache & Ecache & Hcache); [done..|by intros ? k node; cbn; rewrite lookup_empty|].
  assert (stateHash conf cryptoHash s = combine cryptoHash (children conf cryptoHash s (mkBucketKey 0 1))) as Eh
    by exact (nodeHash_combine conf cryptoHash s (mkBucketKey 0 1) ltac:(cbn [level]; lia)).
  destruct (allNil (children conf cryptoHash s (mkBucketKey 0 1))) eqn:Enil.
  - rewrite Ecache. eexists. split; [reflexivity|].
    assert (stateHash conf cryptoHash s = None) as En.
    { rewrite Eh. apply combine_None. by apply allNil_spec. }
    split; [by split|]. by apply ws_none.
  - destruct (computeCryptoHash_full conf cryptoHash Hwf Hhash s (mkBucketKey 0 1)
      (storedNode conf cryptoHash s (mkBucketKey 0 1))) as (node & E & _);
      [apply root_valid; [done|lia]|cbn; lia|done..|].
    rewrite E. cbn [lift mret M_ret]. rewrite Ecache. eexists. split; [reflexivity|].
    split; [by split|]. by apply ws_none.
Qed.

Lemma empty_consistent : consistent conf cryptoHash ∅ ∅.
Proof.
  split.
  - intros ck. by rewrite !lookup_empty.
  - intros k Hk Hl. rewrite lookup_empty.
    assert (forall h n, treeHash conf cryptoHash ∅ h n = None) as Hnone.
    { induction h as [|h IH]; intros n; cbn [treeHash].
      - unfold bucketHash, bucketPairs. by rewrite map_filter_empty.
      - apply combine_None. intros x (i & -> & _)%list_elem_of_fmap. apply IH. }
    replace (allNil _) with true; [done|]. symmetry. apply allNil_spec.
    intros x (i & -> & _)%list_elem_of_fmap. apply Hnone.
  - intros raw [v Hv]. by rewrite lookup_empty in Hv.
Qed.
End tree.
