(* ===== verification/BucketToy.v ===== *)
(** A small bucket tree: three buckets in groups of two, and a hash function that
    keeps the first bytes. *)
From stdpp Require Import base gmap list.
From Stdlib Require Import ZArith Lia.
From Stdlib.Strings Require Import Byte.
From S2P Require Import Prelude GoStd GoBytes LedgerUtil KVStore StateDelta StateSpec BucketKeys.
From S2P Require Import BucketNode BucketHash BucketSpec BucketState BucketStore BucketTree.

Definition toyConfigs : configs := mkConfigs (Some 3) (Some 2) None (Some 0).

Definition toyConf : config := mkConfig 2 2 {[0 := 1; 1 := 2; 2 := 3]} fnvHash.

Definition toyHash (b : bytes) : bytes := take 8 (x01 :: b).

Lemma toyHash_ok b : toyHash b <> [] /\ fitsInt (toyHash b).
Proof.
  split; [done|]. unfold fitsInt, toyHash. rewrite length_take. lia.
Qed.

Lemma toyConf_init : initConfig toyConfigs tt = Done toyConf tt.
Proof. reflexivity. Qed.

Lemma fnvHash_nonneg b : 0 <= fnvHash b.
Proof.
  unfold fnvHash. assert (forall l a, 0 <= a ->
    0 <= foldl (fun h b => Z.lxor h (Z_of_byte b) * 16777619 mod 4294967296) a l) as Hl; [|by apply Hl].
  induction l as [|x l IH]; intros a Ha; [done|]. cbn [foldl]. apply IH. by apply Z.mod_pos_bound.
Qed.

Lemma toyConf_wf : wfConfig toyConf.
Proof.
  destruct (newConfig_wf 3 2 fnvHash) as (conf & E & Hwf & _); [done..|apply fnvHash_nonneg|].
  assert (newConfig (Z.to_nat 3) 3 2 fnvHash tt = Done toyConf tt) as E' by reflexivity.
  rewrite E' in E. by injection E as <-.
Qed.

(** An implementation that starts on the empty database. *)
Lemma toyHolds : exists st, bt_holds toyConf toyHash emptyDB st ∅ None.
Proof.
  destruct (Initialize_holds toyConf toyHash toyConf_wf ltac:(done) toyHash_ok emptyDB ∅ toyConfigs) as (st & _ & Hh).
  - done.
  - intros ck v. by rewrite lookup_empty.
  - apply empty_consistent.
  - apply toyConf_init.
  - by exists st.
Qed.

(** A delta with one key. *)
Definition toyDelta : StateDelta := Set_ NewStateDelta [x61] [x6b] (Some [x76]) None.
