(* ===== verification/BucketBinding.v ===== *)
(** The state hash determines the state, as far as the hash function has no
    collision among the strings that are hashed. *)
From stdpp Require Import base gmap list sorting.
From Stdlib Require Import ZArith Lia.
From Stdlib.Strings Require Import Byte.
From S2P Require Import Prelude GoStd GoBytes LedgerUtil KVStore StateDelta StateSpec BucketKeys.
From S2P Require Import BucketNode BucketHash BucketSpec BucketState BucketStore.

(** Keys of chaincodes with a name, and lengths that fit. *)
Definition hashable (s : kvs) : Prop :=
  Z.of_nat (size s) < two64 /\
  map_Forall (fun ck v => exists cc k, DecodeCompositeKey ck = Some (cc, k) /\ cc <> [] /\
    fitsInt cc /\ fitsInt k /\ fitsInt v) s.

Lemma pairEntry_good s ck v : hashable s -> s !! ck = Some v ->
  exists cc k, pairEntry (ck, v) = Some (cc, (k, v)) /\ ck = ConstructCompositeKey cc k /\
    cc <> [] /\ fitsEntry (cc, (k, v)).
Proof.
  intros [_ Hs] Hv. destruct (Hs ck v Hv) as (cc & k & E & Hne & Hc & Hk & Hf). exists cc, k.
  unfold pairEntry. cbn. rewrite E. split; [done|]. split; [by apply DecodeCompositeKey_Some|]. by repeat split.
Qed.

(** Pairs are read back from their entries. *)
Definition entryPair (e : entry) : bytes * bytes := (ConstructCompositeKey e.1 e.2.1, e.2.2).

Lemma entries_good s l : hashable s -> (forall ck v, (ck, v) ∈ l -> s !! ck = Some v) ->
  Forall (fun e => e.1 <> [] /\ fitsEntry e) (omap pairEntry l) /\ entryPair <$> omap pairEntry l = l /\
  length (omap pairEntry l) = length l.
Proof.
  intros Hs. induction l as [|[ck v] l IH]; intros Hl; [done|].
  destruct (pairEntry_good s ck v Hs (Hl ck v ltac:(by left))) as (cc & k & E & -> & Hne & Hf).
  destruct IH as (H1 & H2 & H3); [intros; apply Hl; by right|].
  cbn [omap list_omap]. rewrite E. split; [by constructor|]. rewrite fmap_cons, H2. split; [done|]. cbn. by rewrite H3.
Qed.

Lemma bucketContent_inj s s' l l' : hashable s -> hashable s' ->
  (forall ck v, (ck, v) ∈ l -> s !! ck = Some v) -> (forall ck v, (ck, v) ∈ l' -> s' !! ck = Some v) ->
  Z.of_nat (length l) < two64 -> Z.of_nat (length l') < two64 ->
  bucketContent (omap pairEntry l) = bucketContent (omap pairEntry l') -> l = l'.
Proof.
  intros Hs Hs' Hl Hl' Hn Hn' E. destruct (entries_good s l Hs Hl) as (Hg & Hp & Hlen).
  destruct (entries_good s' l' Hs' Hl') as (Hg' & Hp' & Hlen').
  rewrite <- Hp, <- Hp'. f_equal. rewrite <- (ungroup_group (omap pairEntry l)), <- (ungroup_group (omap pairEntry l')).
  f_equal. apply groups_inj; [apply group_fits; [done|lia]|apply group_fits; [done|lia]|exact E].
Qed.

Section binding.
Context (conf : config) (cryptoHash : bytes -> bytes) (Hwf : wfConfig conf).

Abbreviation childHashes s h n := ((fun i => treeHash conf cryptoHash s h (childNumber conf n i)) <$> seq 0 (groupSize conf)).

(** The strings that are hashed for a state: the contents of its buckets and the
    hashes of the children of its nodes. *)
Definition leafInput (s : kvs) (x : bytes) : Prop :=
  exists b, 1 <= b <= numBucketsAt conf (lowestLevel conf) /\
    x = bucketContent (omap pairEntry (bucketPairs conf s b)) /\ x <> [].

Definition nodeInput (s : kvs) (x : bytes) : Prop :=
  exists k, validKey conf k /\ level k < lowestLevel conf /\
    x = concat (omap id (children conf cryptoHash s k)) /\ (2 <= length (omap id (children conf cryptoHash s k)))%nat.

(** No two of the strings hashed for one of two states have the same hash, and no
    bucket content is a list of hashes. *)
Definition noCollision (s s' : kvs) : Prop :=
  let input x := leafInput s x \/ leafInput s' x \/ nodeInput s x \/ nodeInput s' x in
  (forall x y, input x -> input y -> cryptoHash x = cryptoHash y -> x = y) /\
  (forall x, leafInput s x \/ leafInput s' x -> ~ (nodeInput s x \/ nodeInput s' x)).

(** ** The pairs under a node *)

Fixpoint leafPairs (s : kvs) (h : nat) (n : Z) : list (bytes * bytes) :=
  match h with
  | O => bucketPairs conf s n
  | S h => concat ((fun i => leafPairs s h (childNumber conf n i)) <$> seq 0 (groupSize conf))
  end.

Lemma bucketPairs_lookup s b ck v : (ck, v) ∈ bucketPairs conf s b -> s !! ck = Some v.
Proof. by intros [? _]%elem_of_bucketPairs. Qed.

Lemma bucketPairs_length s b : (length (bucketPairs conf s b) <= size s)%nat.
Proof.
  unfold bucketPairs. rewrite (Permutation_length (entriesFrom_perm _ _)). etransitivity; [apply length_filter|].
  rewrite length_map_to_list. apply map_size_filter.
Qed.

Lemma bucketHash_None s b : hashable s -> bucketHash conf cryptoHash s b = None -> bucketPairs conf s b = [].
Proof.
  intros Hs. unfold bucketHash, hashContent. destruct (IsNil _) eqn:E; [|done]. intros _.
  assert (bucketContent (omap pairEntry (bucketPairs conf s b)) = []) as Ec.
  { unfold IsNil in E. cbn in E. by destruct (bucketContent _). }
  pose proof (bucketPairs_length s b) as Hlen. destruct Hs as [Hsz Hs].
  apply (bucketContent_inj s s _ []); [by split|by split|apply bucketPairs_lookup|by intros ? ? ?%elem_of_nil|lia|done|exact Ec].
Qed.

Lemma omap_id_None {A} (l : list (option A)) : omap id l = [] -> forall x, x ∈ l -> x = None.
Proof.
  induction l as [|[a|] l IH]; cbn; [by intros _ x ?%elem_of_nil|done|].
  intros E x [->|Hx]%elem_of_cons; [done|by apply IH].
Qed.

Lemma concat_nil {A} (ls : list (list A)) : (forall l, l ∈ ls -> l = []) -> concat ls = [].
Proof.
  induction ls as [|l ls IH]; intros Hl; [done|]. cbn. rewrite (Hl l) by by left. apply IH. intros; apply Hl; by right.
Qed.

Lemma combine_None_inv hs : combine cryptoHash hs = None -> omap id hs = [].
Proof. unfold combine. by destruct (omap id hs) as [|? []]. Qed.

(** A node without a hash has no pairs. *)
Lemma treeHash_None s h : hashable s -> forall n, treeHash conf cryptoHash s h n = None -> leafPairs s h n = [].
Proof.
  intros Hs. induction h as [|h IH]; intros n; cbn [treeHash leafPairs]; [by apply bucketHash_None|].
  intros E%combine_None_inv. apply concat_nil. intros l (i & -> & Hi)%list_elem_of_fmap. apply IH.
  eapply omap_id_None; [exact E|]. apply list_elem_of_fmap. by exists i.
Qed.

(** The children with a hash, and that they have all the pairs. *)
Definition liveChildren (s : kvs) (h : nat) (n : Z) : list Z :=
  List.filter (fun m => negb (bool_decide (treeHash conf cryptoHash s h m = None)))
    (childNumber conf n <$> seq 0 (groupSize conf)).

Lemma liveChildren_hashes s h n :
  Some <$> omap id (childHashes s h n) = treeHash conf cryptoHash s h <$> liveChildren s h n.
Proof.
  unfold liveChildren. induction (seq 0 (groupSize conf)) as [|i l IH]; [done|]. cbn.
  destruct (treeHash conf cryptoHash s h (childNumber conf n i)) as [x|] eqn:E; cbn.
  - rewrite E. f_equal. exact IH.
  - exact IH.
Qed.

Lemma liveChildren_some s h n m : m ∈ liveChildren s h n -> is_Some (treeHash conf cryptoHash s h m).
Proof.
  unfold liveChildren. intros [_ Hne]%list_elem_of_In%filter_In.
  apply negb_true_iff, bool_decide_eq_false in Hne. by apply not_eq_None_Some.
Qed.

Lemma liveChildren_pairs s h n : hashable s ->
  leafPairs s (S h) n = concat (leafPairs s h <$> liveChildren s h n).
Proof.
  intros Hs. cbn [leafPairs]. unfold liveChildren. induction (seq 0 (groupSize conf)) as [|i l IH]; [done|]. cbn.
  case_bool_decide as E; cbn; rewrite IH; [|done]. by rewrite (treeHash_None s h Hs _ E).
Qed.

(** ** What a hash is the hash of *)

Definition validAt (h : nat) (n : Z) : Prop :=
  Z.of_nat h <= lowestLevel conf /\ validKey conf (mkBucketKey (lowestLevel conf - Z.of_nat h) n).

Lemma childHashes_children s h n : Z.of_nat (S h) <= lowestLevel conf ->
  childHashes s h n = children conf cryptoHash s (mkBucketKey (lowestLevel conf - Z.of_nat (S h)) n).
Proof.
  intros Hh. unfold children. apply list_fmap_ext. intros _ i _. unfold nodeHash, childOf. cbn [level bucketNumber].
  f_equal. lia.
Qed.

Lemma liveChildren_valid s h n m : validAt (S h) n -> m ∈ liveChildren s h n -> validAt h m.
Proof.
  intros [Hh Hk] Hm. unfold liveChildren in Hm. apply list_elem_of_In, filter_In in Hm as [Hin Hne].
  apply list_elem_of_In, list_elem_of_fmap in Hin as (i & -> & _).
  apply negb_true_iff, bool_decide_eq_false in Hne. split; [lia|].
  pose proof (child_valid conf cryptoHash Hwf s _ i Hk ltac:(cbn; lia)) as Hv. cbn [level bucketNumber childOf] in Hv.
  unfold childOf in Hv. cbn [level bucketNumber] in Hv.
  replace (lowestLevel conf - Z.of_nat (S h) + 1) with (lowestLevel conf - Z.of_nat h) in Hv by lia.
  apply Hv. unfold nodeHash. cbn [level bucketNumber].
  replace (Z.to_nat (lowestLevel conf - (lowestLevel conf - Z.of_nat h))) with h by lia. done.
Qed.

(** A hash is that of a bucket, or of a node with two children or more. *)
Lemma treeHash_resolve s h : hashable s -> forall n x, validAt h n -> treeHash conf cryptoHash s h n = Some x ->
  (exists y, leafInput s y /\ x = cryptoHash y /\
     exists b, y = bucketContent (omap pairEntry (bucketPairs conf s b)) /\ leafPairs s h n = bucketPairs conf s b) \/
  (exists h0 n0, (h0 < h)%nat /\ validAt (S h0) n0 /\ (2 <= length (omap id (childHashes s h0 n0)))%nat /\
     x = cryptoHash (concat (omap id (childHashes s h0 n0))) /\ leafPairs s h n = leafPairs s (S h0) n0).
Proof.
  intros Hs. induction h as [|h IH]; intros n x Hv; cbn [treeHash].
  - unfold bucketHash, hashContent. destruct (IsNil _) eqn:E; [done|]. intros [= <-]. left.
    eexists. split; [|split; [reflexivity|by exists n]]. destruct Hv as [_ [_ Hn]]. cbn in Hn.
    rewrite Z.sub_0_r in Hn. exists n. split; [done|]. split; [done|].
    intros E'. rewrite E' in E. done.
  - unfold combine. pose proof (liveChildren_hashes s h n) as Hl.
    destruct (omap id (childHashes s h n)) as [|x1 [|x2 xs]] eqn:E; [done| |].
    + intros [= <-]. pose proof (liveChildren_pairs s h n Hs) as Hp.
      destruct (liveChildren s h n) as [|m [|]] eqn:El; [done| |done]. injection Hl as Hm.
      cbn [fmap list_fmap concat] in Hp. rewrite app_nil_r in Hp. rewrite Hp.
      assert (validAt h m) as Hvm by (apply (liveChildren_valid s h n); [done|rewrite El; by left]).
      destruct (IH m x1 Hvm (eq_sym Hm)) as [Hleaf|(h0 & n0 & Hlt & Hrest)]; [by left|].
      right. exists h0, n0. split; [lia|done].
    + intros [= <-]. right. exists h, n. rewrite E. split; [lia|]. split; [done|]. split; [cbn; lia|]. done.
Qed.

(** ** Binding *)

Context (L : nat) (HL : forall b, length (cryptoHash b) = S L).

Lemma treeHash_length s h : forall n x, treeHash conf cryptoHash s h n = Some x -> length x = S L.
Proof.
  induction h as [|h IH]; intros n x; cbn [treeHash].
  - unfold bucketHash, hashContent. destruct (IsNil _); [done|]. intros [= <-]. apply HL.
  - unfold combine. destruct (omap id _) as [|x1 [|x2 xs]] eqn:E; [done| |intros [= <-]; apply HL].
    intros [= <-]. assert (x1 ∈ omap id (childHashes s h n)) as Hin by (rewrite E; by left).
    apply list_elem_of_omap in Hin as (y & Hy & Ey). unfold id in Ey. subst y.
    apply list_elem_of_fmap in Hy as (i & Hi & _). by eapply IH.
Qed.

Lemma concat_fixed_inj (ls ks : list bytes) : Forall (fun x => length x = S L) ls -> Forall (fun x => length x = S L) ks ->
  concat ls = concat ks -> ls = ks.
Proof.
  intros Hls. revert ks. induction Hls as [|x ls Hx _ IH]; intros ks Hks E.
  - destruct Hks as [|y ks Hy _]; [done|]. exfalso. apply (f_equal length) in E. cbn in E. rewrite length_app in E. lia.
  - destruct Hks as [|y ks Hy Hks]; [exfalso; apply (f_equal length) in E; cbn in E; rewrite length_app in E; lia|].
    cbn in E. apply app_inj_1 in E as [-> E]; [|lia]. f_equal. by apply IH.
Qed.

Lemma childHashes_fixed s h n : Forall (fun x => length x = S L) (omap id (childHashes s h n)).
Proof.
  rewrite Forall_forall. intros x (y & Hy & Ey)%list_elem_of_omap. unfold id in Ey. subst y.
  apply list_elem_of_fmap in Hy as (i & Hi & _). by eapply treeHash_length.
Qed.

Lemma nodeInput_at s h n : validAt (S h) n -> (2 <= length (omap id (childHashes s h n)))%nat ->
  nodeInput s (concat (omap id (childHashes s h n))).
Proof.
  intros [Hh Hk] Hlen. rewrite (childHashes_children s h n Hh) in Hlen |- *.
  eexists. split; [exact Hk|]. split; [cbn [level]; lia|done].
Qed.

Lemma same_pairs s s' : hashable s -> hashable s' -> noCollision s s' ->
  forall h n h' n' x, validAt h n -> validAt h' n' -> treeHash conf cryptoHash s h n = Some x ->
    treeHash conf cryptoHash s' h' n' = Some x -> leafPairs s h n = leafPairs s' h' n'.
Proof.
  intros Hs Hs' [Hinj Hsep] h. induction h as [h IH] using lt_wf_ind. intros n h' n' x Hv Hv' E E'.
  destruct (treeHash_resolve s h Hs n x Hv E) as [(y & Hy & Ey & b & Eb & ->)|(h0 & n0 & Hlt & Hv0 & H2 & Ey & ->)];
  destruct (treeHash_resolve s' h' Hs' n' x Hv' E') as [(y' & Hy' & Ey' & b' & Eb' & ->)|(h0' & n0' & _ & Hv0' & H2' & Ey' & ->)].
  - assert (y = y') as Eyy by (apply Hinj; [by left|by right; left|congruence]). rewrite Eb, Eb' in Eyy.
    pose proof (bucketPairs_length s b). pose proof (bucketPairs_length s' b').
    apply (bucketContent_inj s s'); [done|done|apply bucketPairs_lookup..| | |exact Eyy]; destruct Hs, Hs'; lia.
  - exfalso. apply (Hsep y); [by left|]. right. pose proof (nodeInput_at s' h0' n0' Hv0' H2') as Hn.
    assert (y = concat (omap id (childHashes s' h0' n0'))) as ->; [|done].
    apply Hinj; [by left|by right; right; right|congruence].
  - exfalso. apply (Hsep y'); [by right|]. left. pose proof (nodeInput_at s h0 n0 Hv0 H2) as Hn.
    assert (y' = concat (omap id (childHashes s h0 n0))) as ->; [|done].
    apply Hinj; [by right; left|by right; right; left|congruence].
  - assert (omap id (childHashes s h0 n0) = omap id (childHashes s' h0' n0')) as Ehs.
    { apply concat_fixed_inj; [apply childHashes_fixed..|]. apply Hinj; [| |congruence].
      - right. right. left. by apply nodeInput_at.
      - right. right. right. by apply nodeInput_at. }
    rewrite !liveChildren_pairs by done. f_equal.
    assert (treeHash conf cryptoHash s h0 <$> liveChildren s h0 n0 =
      treeHash conf cryptoHash s' h0' <$> liveChildren s' h0' n0') as El.
    { rewrite <- !liveChildren_hashes. by f_equal. }
    pose proof (fun m => liveChildren_valid s h0 n0 m Hv0) as Hl. pose proof (fun m => liveChildren_valid s' h0' n0' m Hv0') as Hl'.
    pose proof (liveChildren_some s h0 n0) as Hsome.
    revert El Hl Hl' Hsome. generalize (liveChildren s h0 n0), (liveChildren s' h0' n0'). clear - IH Hlt.
    intros ks. induction ks as [|m ks IHk]; intros [|m' ks'] El Hl Hl' Hsome; try done.
    cbn [fmap list_fmap] in El |- *. injection El as Em El. destruct (Hsome m ltac:(by left)) as [z Hz]. f_equal.
    + eapply (IH h0 Hlt m h0' m' z); [apply Hl; by left|apply Hl'; by left|done|congruence].
    + apply IHk; [done|intros; apply Hl; by right|intros; apply Hl'; by right|intros; apply Hsome; by right].
Qed.

(** ** The root *)

Lemma elem_of_leafPairs s ck v h : forall n,
  (ck, v) ∈ leafPairs s h n <-> s !! ck = Some v /\ Nat.iter h (parentNumber conf) (bucketOf conf ck) = n.
Proof.
  induction h as [|h IH]; intros n; cbn [leafPairs]; [apply elem_of_bucketPairs|].
  rewrite list_elem_of_In, in_concat. split.
  - intros (l & (i & -> & Hi%elem_of_seq)%list_elem_of_In%list_elem_of_fmap & [Hv E]%list_elem_of_In%IH).
    split; [done|]. rewrite Nat.iter_succ, E. apply (parentNumber_child conf Hwf). unfold groupSize in Hi. lia.
  - intros [Hv E]. pose (m := Nat.iter h (parentNumber conf) (bucketOf conf ck)). rewrite Nat.iter_succ in E. fold m in E.
    exists (leafPairs s h (childNumber conf n (childIndex conf m))). split.
    + apply list_elem_of_In, list_elem_of_fmap. exists (childIndex conf m). split; [done|]. apply elem_of_seq.
      pose proof (childIndex_lt conf Hwf m). unfold groupSize. lia.
    + apply list_elem_of_In, IH. split; [done|]. fold m. rewrite <- E. symmetry. by apply childNumber_parent.
Qed.

Lemma ancestor_valid ck h : Z.of_nat h <= lowestLevel conf ->
  validKey conf (mkBucketKey (lowestLevel conf - Z.of_nat h) (Nat.iter h (parentNumber conf) (bucketOf conf ck))).
Proof.
  pose proof (wf_lowest conf Hwf). induction h as [|h IH]; intros Hh.
  - cbn. rewrite Z.sub_0_r. split; cbn; [lia|]. apply (bucketOf_range conf Hwf).
  - pose proof (parentOf_valid conf Hwf _ (IH ltac:(lia)) ltac:(cbn; lia)) as Hp. unfold parentOf in Hp.
    cbn [level bucketNumber] in Hp. rewrite Nat.iter_succ.
    by replace (lowestLevel conf - Z.of_nat (S h)) with (lowestLevel conf - Z.of_nat h - 1) by lia.
Qed.

(** All pairs are under the root. *)
Lemma root_pairs s ck v : (ck, v) ∈ leafPairs s (Z.to_nat (lowestLevel conf)) 1 <-> s !! ck = Some v.
Proof.
  rewrite elem_of_leafPairs. split; [by intros [? _]|]. intros Hv. split; [done|].
  pose proof (wf_lowest conf Hwf). destruct (ancestor_valid ck (Z.to_nat (lowestLevel conf)) ltac:(lia)) as [_ Hn].
  cbn [level bucketNumber] in Hn. rewrite Z2Nat.id, Z.sub_diag, (wf_root conf Hwf) in Hn by lia. lia.
Qed.

Lemma stateHash_inj s s' : hashable s -> hashable s' -> noCollision s s' ->
  stateHash conf cryptoHash s = stateHash conf cryptoHash s' -> s = s'.
Proof.
  intros Hs Hs' Hc E. pose proof (wf_lowest conf Hwf). unfold stateHash, nodeHash in E. cbn [level bucketNumber] in E.
  rewrite Z.sub_0_r in E.
  assert (leafPairs s (Z.to_nat (lowestLevel conf)) 1 = leafPairs s' (Z.to_nat (lowestLevel conf)) 1) as El.
  { destruct (treeHash conf cryptoHash s _ 1) as [x|] eqn:Ex.
    - assert (validAt (Z.to_nat (lowestLevel conf)) 1) as Hv.
      { split; [lia|]. split; cbn; [lia|]. rewrite Z2Nat.id, Z.sub_diag, (wf_root conf Hwf) by lia. lia. }
      by eapply (same_pairs s s').
    - by rewrite !treeHash_None. }
  apply map_eq. intros ck. apply option_eq. intros v. by rewrite <- !root_pairs, El.
Qed.
End binding.
