(* ===== verification/BucketTheorems.v ===== *)
(** What the bucket tree guarantees: its shape, that the incremental hash is the
    one from scratch, that a commit keeps the stored tree right, that range scans
    are exact, and that the hash determines the state; and what it does on
    configurations and deltas that it does not handle. *)
From stdpp Require Import base gmap list sorting.
From Stdlib Require Import ZArith Lia.
From Stdlib.Strings Require Import Byte.
From S2P Require Import Prelude GoStd GoBytes LedgerUtil KVStore StateDelta StateSpec HashableState.
From S2P Require Import BucketKeys BucketNode BucketHash BucketSpec BucketState BucketStore BucketDelta.
From S2P Require Import BucketCommit BucketScan BucketTree BucketToy BucketBinding.

(** * Shape *)

(** [newConfig] terminates for every number of buckets and every grouping of at least
    two: there is one bucket at the root, the configured number at the lowest level,
    and on every level in between as many as it takes to group the buckets below. *)
Theorem newConfig_levels (n g : Z) (h : bytes -> Z) :
  1 <= n < 2147483648 -> 2 <= g < 2147483648 -> (forall b, 0 <= h b) ->
  exists conf, newConfig (Z.to_nat n) n g h tt = Done conf tt /\
    0 <= lowestLevel conf < 64 /\ levelToNumBucketsMap conf !! 0 = Some 1 /\
    levelToNumBucketsMap conf !! lowestLevel conf = Some n /\
    forall l, 0 <= l < lowestLevel conf ->
      exists m k, levelToNumBucketsMap conf !! l = Some m /\ levelToNumBucketsMap conf !! (l + 1) = Some k /\
        m * g >= k /\ (m - 1) * g < k.
Proof.
  intros Hn Hg Hh. destruct (newConfig_wf n g h) as (conf & E & Hwf & Eg & El & _); [lia|unfold smallInt; lia|lia|unfold smallInt; lia|done|].
  exists conf. split; [done|]. split; [apply (wf_lowest _ Hwf)|].
  assert (forall l, 0 <= l <= lowestLevel conf -> levelToNumBucketsMap conf !! l = Some (numBucketsAt conf l)) as Hl.
  { intros l Hr. pose proof (wf_num _ Hwf l Hr) as [Hp _]. unfold numBucketsAt in *.
    destruct (levelToNumBucketsMap conf !! l); [done|]. cbn in Hp. lia. }
  pose proof (wf_lowest _ Hwf). rewrite !Hl by lia. split; [by rewrite (wf_root _ Hwf)|]. split; [by rewrite El|].
  intros l Hr. rewrite !Hl by lia. eexists _, _. split; [done|]. split; [done|]. rewrite (wf_level _ Hwf l Hr), Eg.
  pose proof (Z.div_mod (numBucketsAt conf (l + 1) + g - 1) g ltac:(lia)).
  pose proof (Z.mod_pos_bound (numBucketsAt conf (l + 1) + g - 1) g ltac:(lia)). lia.
Qed.

Lemma newConfig_levels_witness : exists conf, newConfig (Z.to_nat 10009) 10009 10 fnvHash tt = Done conf tt /\
  levelToNumBucketsMap conf !! 0 = Some 1.
Proof.
  destruct (newConfig_levels 10009 10 fnvHash ltac:(lia) ltac:(lia) fnvHash_nonneg) as (conf & E & _ & E0 & _).
  exists conf. split; [|done]. exact E.
Defined.

(** With a grouping of one, which the configuration accepts, [newConfig] does not
    terminate for two buckets or more: a level has as many buckets as the one
    below. *)
Theorem newConfig_grouping_one (fuel : nat) (n : Z) (h : bytes -> Z) : 2 <= n ->
  newConfig fuel n 1 h tt = Diverge.
Proof.
  intros Hn. unfold newConfig. cbv [mbind M_bind]. enough (forall l m, levelLoop fuel 1 l n m tt = Diverge) as -> by done.
  induction fuel as [|fuel IH]; intros l m; cbn [levelLoop]; rewrite (proj2 (Z.gtb_lt _ _)) by lia; [done|].
  cbn [Z.eqb]. rewrite Z.quot_1_r, Z.rem_1_r. apply IH.
Qed.

Lemma newConfig_grouping_one_witness : newConfig 100 10009 1 fnvHash tt = Diverge.
Proof. apply (newConfig_grouping_one 100 10009 fnvHash). lia. Defined.

(** * Hash and commit *)

Section tree.
Context {DB : Type} `{RocksDBLaws DB} (conf : config) (cryptoHash : bytes -> bytes) (o : mapOrder).

(** What the tree relies on: a configuration with a level under the root, and a
    digest that is not empty and whose length fits. *)
Record sound : Prop := {
  snd_wf : wfConfig conf;
  snd_deep : 1 <= lowestLevel conf;
  snd_hash : forall b, cryptoHash b <> [] /\ fitsInt (cryptoHash b)
}.
End tree.

Lemma toySound : sound toyConf toyHash.
Proof. split; [apply toyConf_wf|done|apply toyHash_ok]. Qed.

Lemma toyDelta_ok : admissible toyDelta /\ IsEmpty toyDelta = false.
Proof.
  split; [split; [apply Set_wf, NewStateDelta_wf|]|reflexivity].
  apply map_Forall_singleton. by rewrite list_elem_of_singleton.
Qed.

(** C8. The hash that [ComputeCryptoHash] computes from the changed buckets, the stored
    tree and the cache is the hash of the state with the delta applied, computed
    from scratch over all its key-value pairs; computing it again changes nothing. *)
Theorem incremental_hash {DB : Type} `{RocksDBLaws DB} (conf : config) (cryptoHash : bytes -> bytes)
    (o : mapOrder) (db : DB) (st : StateImpl) (s : kvs) (w : option kvs) (d : StateDelta) :
  sound conf cryptoHash -> bt_holds conf cryptoHash db st s w -> admissible d -> IsEmpty d = false ->
  exists st1 st2, PrepareWorkingSet conf o d st = Done (Ok tt) st1 /\
    ComputeStateHash conf cryptoHash o db st1 = Done (Ok (stateHash conf cryptoHash (applyDelta s d))) st2 /\
    ComputeStateHash conf cryptoHash o db st2 = Done (Ok (stateHash conf cryptoHash (applyDelta s d))) st2.
Proof.
  intros [Hwf Hdeep Hhash] Hh Had Hne.
  destruct (Prepare_holds conf cryptoHash o Hwf db st s w d Hh Had Hne) as (st1 & E1 & Hh1).
  destruct (Hash_holds conf cryptoHash o Hwf Hdeep Hhash db st1 s _ Hh1) as (st2 & E2 & Hh2).
  exists st1, st2. split; [done|]. split; [exact E2|]. by eapply ComputeStateHash_again.
Qed.

(** C16. Writing the batch that [AddChangesForPersistence] builds, and clearing the working
    set, leaves a database and a cache that hold the new state with its tree, on
    every path: hashed before or not, with or without a working set from an earlier
    delta.  A delta that is not committed leaves the old one. *)
Theorem bucketTree_commit {DB : Type} `{RocksDBLaws DB} (conf : config) (cryptoHash : bytes -> bytes)
    (o : mapOrder) (db : DB) (st : StateImpl) (s : kvs) (w : option kvs) (d : StateDelta) :
  sound conf cryptoHash -> bt_holds conf cryptoHash db st s w -> admissible d -> IsEmpty d = false ->
  exists st1 st2 ops db' st3 st4, PrepareWorkingSet conf o d st = Done (Ok tt) st1 /\
    AddChangesForPersistence conf cryptoHash o db [] st1 = Done ops st2 /\
    Write db ops = Ok db' /\
    ClearWorkingSet conf o true st2 = Done tt st3 /\
    bt_holds conf cryptoHash db' st3 (applyDelta s d) None /\
    ClearWorkingSet conf o false st2 = Done tt st4 /\ bt_holds conf cryptoHash db st4 s None.
Proof.
  intros [Hwf Hdeep Hhash] Hh Had Hne.
  destruct (Prepare_holds conf cryptoHash o Hwf db st s w d Hh Had Hne) as (st1 & E1 & Hh1).
  destruct (Persist_holds conf cryptoHash o Hwf Hdeep Hhash db st1 s _ [] Hh1) as (st2 & ops & E2 & Hh2 & _ & Hclear).
  destruct (Write_contents db ops (com_healthy _ _ _ _ _ (proj1 Hh))) as (db' & E3 & Hdb' & Ec).
  destruct (Hclear db' Hdb' (Ec StateCF)) as (st3 & E4 & Hh3).
  destruct (Clear_false_holds conf cryptoHash o db st2 s _ Hh2) as (st4 & E5 & Hh4).
  exists st1, st2, ops, db', st3, st4. done.
Qed.

Lemma incremental_hash_witness : exists st st1 st2,
  PrepareWorkingSet toyConf canonicalOrder toyDelta st = Done (Ok tt) st1 /\
  ComputeStateHash toyConf toyHash canonicalOrder emptyDB st1 =
    Done (Ok (stateHash toyConf toyHash (applyDelta ∅ toyDelta))) st2.
Proof.
  destruct toyHolds as [st Hh]. destruct toyDelta_ok as [Had Hne].
  destruct (incremental_hash toyConf toyHash canonicalOrder emptyDB st ∅ None toyDelta toySound Hh Had Hne)
    as (st1 & st2 & E1 & E2 & _). exists st, st1, st2. exact (conj E1 E2).
Defined.

Lemma bucketTree_commit_witness : exists st st1 st2 ops db',
  PrepareWorkingSet toyConf canonicalOrder toyDelta st = Done (Ok tt) st1 /\
  AddChangesForPersistence toyConf toyHash canonicalOrder emptyDB [] st1 = Done ops st2 /\
  Write emptyDB ops = Ok db'.
Proof.
  destruct toyHolds as [st Hh]. destruct toyDelta_ok as [Had Hne].
  destruct (bucketTree_commit toyConf toyHash canonicalOrder emptyDB st ∅ None toyDelta toySound Hh Had Hne)
    as (st1 & st2 & ops & db' & st3 & st4 & E1 & E2 & E3 & _).
  exists st, st1, st2, ops, db'. exact (conj E1 (conj E2 E3)).
Defined.

(** * Range scans *)

(** C23. The range scan over the committed state goes through exactly the keys of the
    chaincode between the two bounds, an empty upper bound being none, each once
    and with its value, although the database is ordered by bucket. *)
Theorem bucket_scan_exact {DB : Type} `{RocksDBLaws DB} (conf : config) (cryptoHash : bytes -> bytes)
    (db : DB) (st : StateImpl) (s : kvs) (w : option kvs) (cc start_ end_ : bytes) :
  sound conf cryptoHash -> bt_holds conf cryptoHash db st s w -> stateKeyDelimiter ∉ cc ->
  exists itr l, newRangeScanIterator db cc start_ end_ = Some itr /\
    yields (scan_Next conf db (Z.to_nat (numBucketsAt conf (lowestLevel conf))))
      (fun itr => Some (scan_GetKeyValue itr)) itr l /\
    NoDup l.*1 /\
    forall k v, (k, v) ∈ l <->
      inRange start_ end_ k = true /\ v = s !! ConstructCompositeKey cc k /\ is_Some v.
Proof. intros [Hwf Hdeep Hhash]. by apply Scan_holds. Qed.

Lemma bucket_scan_exact_witness : exists itr l, newRangeScanIterator emptyDB [x61] [] [] = Some itr /\
  yields (scan_Next toyConf emptyDB (Z.to_nat (numBucketsAt toyConf (lowestLevel toyConf))))
    (fun itr => Some (scan_GetKeyValue itr)) itr l.
Proof.
  destruct toyHolds as [st Hh].
  destruct (bucket_scan_exact toyConf toyHash emptyDB st ∅ None [x61] [] [] toySound Hh
    ltac:(by rewrite list_elem_of_singleton)) as (itr & l & E & Hy & _).
  exists itr, l. exact (conj E Hy).
Defined.

(** * Binding *)


(** A digest of fixed length without collisions on short strings. *)
Definition fixedHash (b : bytes) : bytes := resize 40 x00 b.

Definition toyState : kvs := {[ ConstructCompositeKey [x61] [x6b] := [x76] ]}.

Lemma toyLeaf x : leafInput toyConf toyState x ->
  x = bucketContent (omap pairEntry (bucketPairs toyConf toyState (bucketOf toyConf (ConstructCompositeKey [x61] [x6b])))).
Proof.
  intros (b & Hb & -> & Hne). change (numBucketsAt toyConf (lowestLevel toyConf)) with 3 in Hb.
  assert (b = 1 \/ b = 2 \/ b = 3) as [->|[->| ->]] by lia; revert Hne; vm_compute; congruence.
Qed.

Lemma toyNode x : ~ nodeInput toyConf fixedHash toyState x.
Proof.
  intros ([l n] & [[Hl Hl'] Hn] & Hlt & _ & H2). cbn [level bucketNumber] in *.
  change (lowestLevel toyConf) with 2 in *. assert (l = 0 \/ l = 1) as [->| ->] by lia.
  - change (numBucketsAt toyConf 0) with 1 in Hn. assert (n = 1) as -> by lia. revert H2. vm_compute. lia.
  - change (numBucketsAt toyConf 1) with 2 in Hn. assert (n = 1 \/ n = 2) as [->| ->] by lia;
      revert H2; vm_compute; lia.
Qed.


(** * Deltas that are not handled *)

(** A delta with a chaincode and no key, and its wire format. *)
Definition hollowDelta (cc : bytes) : StateDelta := mkStateDelta {[cc := newChaincodeStateDelta cc]} false.

Definition hollowBytes (cc : bytes) : bytes := EncodeVarint 1 ++ encodeRawBytes cc ++ EncodeVarint 0.

Lemma hollow_unmarshal cc : fitsInt cc -> Unmarshal NewStateDelta (hollowBytes cc) = (hollowDelta cc, true).
Proof.
  intros Hc. unfold Unmarshal, hollowBytes. rewrite bufDecodeVarint_encode by done.
  cbn [decodeLoop]. change (0 <? 1) with true. cbn iota.
  unfold unmarshalChaincode. rewrite bufDecodeRawBytes_encode by done. cbn [mbind option_bind].
  unfold unmarshal. rewrite <- (app_nil_r (EncodeVarint 0)), bufDecodeVarint_encode by done. cbn [mbind option_bind].
  cbn [decodeLoop]. change (0 <? 0) with false. cbn iota. 
  destruct (length (encodeRawBytes cc ++ EncodeVarint 0 ++ [])); reflexivity.
Qed.

Lemma hollow_writes cc : stateKeyDelimiter ∉ cc -> noDelimiter (hollowDelta cc) /\ deltaWrites (hollowDelta cc) = ∅.
Proof.
  intros Hcc. assert (noDelimiter (hollowDelta cc)) as Hd by by apply map_Forall_singleton. split; [done|].
  apply map_eq. intros ck. rewrite lookup_empty. apply eq_None_not_Some. intros [v Hv].
  apply lookup_deltaWrites in Hv as (c & k & u & Hg & _); [|done]. unfold Get, hollowDelta in Hg. cbn in Hg.
  destruct (decide (c = cc)) as [->|Hne].
  - rewrite lookup_singleton_eq in Hg. cbn in Hg. unfold Chaincode.get in Hg. cbn in Hg. by rewrite lookup_empty in Hg.
  - by rewrite lookup_singleton_ne in Hg.
Qed.

Lemma ord_empty (o : mapOrder) t `{Countable K} {A} : ord o t (∅ : gmap K A) = [].
Proof. apply Permutation_nil_r. rewrite ord_perm. by rewrite map_to_list_empty. Qed.

Lemma processLevels_empty {DB} `{RocksDB DB} conf cryptoHash o (db : DB) ls st : si_bucketTreeDelta st = Some ∅ ->
  processLevels conf cryptoHash o db ls st = Done (Ok tt) st.
Proof.
  intros E. induction ls as [|l ls IH]; [done|]. cbn [processLevels]. unfold theTree, try. cbv [mbind M_bind gets lift mret M_ret].
  rewrite E. unfold getBucketNodesAt. rewrite lookup_empty. cbn. exact IH.
Qed.

(** A delta that another peer sends with a chaincode and no key under it is accepted,
    does not count as empty, and makes [ComputeCryptoHash] panic, whatever the
    state is. *)
Theorem hollow_delta_panics {DB : Type} `{RocksDB DB} (conf : config) (cryptoHash : bytes -> bytes) (o : mapOrder)
    (db : DB) (st : StateImpl) (cc : bytes) :
  wfConfig conf -> fitsInt cc -> stateKeyDelimiter ∉ cc ->
  exists d st', Unmarshal NewStateDelta (hollowBytes cc) = (d, true) /\
    PrepareWorkingSet conf o d st = Done (Ok tt) st' /\ ComputeStateHash conf cryptoHash o db st' = Panic.
Proof.
  intros Hwf Hc Hcc. destruct (hollow_writes cc Hcc) as [Hd Hw]. exists (hollowDelta cc).
  destruct (newDataNodesDelta_spread conf Hwf o (hollowDelta cc) Hd) as (D & ED & [_ _ Hdom]). rewrite Hw in Hdom.
  assert (D = ∅) as ->.
  { apply map_eq. intros k. rewrite lookup_empty. apply eq_None_not_Some. intros (ck & [v Hv] & _)%Hdom.
    by rewrite lookup_empty in Hv. }
  pose (st1 := st <| si_dataNodesDelta := Some ∅ |> <| si_bucketTreeDelta := Some newBucketTreeDelta |>
    <| recomputeCryptoHash := true |>).
  exists st1. split; [by apply hollow_unmarshal|]. split.
  { unfold PrepareWorkingSet. cbv [mbind M_bind]. rewrite ED.
    assert (IsEmpty (hollowDelta cc) = false) as -> by (unfold IsEmpty; cbn; by rewrite map_size_singleton). reflexivity. }
  unfold ComputeStateHash, processDataNodeDelta, try. cbv [mbind M_bind gets lift mret M_ret].
  change (recomputeCryptoHash st1) with true. cbv beta iota.
  change (si_dataNodesDelta st1) with (Some (∅ : dataNodesDelta)). cbv beta iota.
  unfold getAffectedBuckets. rewrite ord_empty. cbn [fmap list_fmap mapM option_bind mret option_ret forE].
  unfold processBucketTreeDelta. cbv [mret M_ret]. rewrite processLevels_empty by done.
  unfold computeRootNodeCryptoHash, theTree. cbv [mbind M_bind gets lift mret M_ret].
  change (si_bucketTreeDelta st1) with (Some (∅ : bucketTreeDelta)). unfold getRootNode, getBucketNodesAt.
  by rewrite lookup_empty.
Qed.

Lemma hollow_delta_panics_witness : exists d st', Unmarshal NewStateDelta (hollowBytes [x61]) = (d, true) /\
  ComputeStateHash toyConf toyHash canonicalOrder emptyDB st' = Panic.
Proof.
  destruct (hollow_delta_panics toyConf toyHash canonicalOrder emptyDB
    (mkStateImpl None None None None false (newBucketCache 0)) [x61] toyConf_wf ltac:(done)
    ltac:(by rewrite list_elem_of_singleton)) as (d & st' & E1 & _ & E2).
  exists d, st'. exact (conj E1 E2).
Defined.
