(* ===== verification/LedgerToy.v ===== *)
(** A concrete codec for blocks, an instance of the interface the ledger is proved
    against. *)
From stdpp Require Import base gmap list countable.
From Stdlib Require Import ZArith Lia.
From Stdlib.Strings Require Import Byte.
From S2P Require Import Prelude GoStd GoBytes LedgerUtil KVStore StateDelta StateSpec HashableState.
From S2P Require Import Blockchain Ledger.

(** * Blocks as byte strings *)

#[export] Instance Timestamp_countable : Countable Timestamp.
Proof.
  apply (inj_countable' (fun t => (Seconds t, Nanos t)) (fun '(s, n) => mkTimestamp s n)). by intros [].
Defined.

#[export] Instance TransactionType_countable : Countable TransactionType.
Proof.
  apply (inj_countable'
    (fun t => match t with UNDEFINED => 0%nat | CHAINCODE_DEPLOY => 1%nat | CHAINCODE_INVOKE => 2%nat
                      | CHAINCODE_QUERY => 3%nat | CHAINCODE_TERMINATE => 4%nat end)
    (fun n => match n with O => UNDEFINED | 1%nat => CHAINCODE_DEPLOY | 2%nat => CHAINCODE_INVOKE
                      | 3%nat => CHAINCODE_QUERY | _ => CHAINCODE_TERMINATE end)).
  by intros [].
Defined.

#[export] Instance Transaction_countable : Countable Transaction.
Proof.
  apply (inj_countable'
    (fun t => (Type_ t, [tx_ChaincodeID t; Payload t; Metadata t; Uuid t;
        ConfidentialityProtocolVersion t; Nonce t; ToValidators t; Cert t; Signature t],
      tx_Timestamp t, ConfidentialityLevel t))
    (fun '(ty, l, ts, c) =>
      let f i := default [] (l !! i) in
      mkTransaction ty (f 0%nat) (f 1%nat) (f 2%nat) (f 3%nat) ts c (f 4%nat) (f 5%nat) (f 6%nat)
        (f 7%nat) (f 8%nat))).
  by intros [].
Defined.

#[export] Instance TransactionResult_eq_dec : EqDecision TransactionResult.
Proof. solve_decision. Defined.
#[export] Instance TransactionResult_countable : Countable TransactionResult.
Proof.
  apply (inj_countable' (fun r => (res_Uuid r, Result r, ErrorCode r, Error_ r))
    (fun '(u, r, c, e) => mkTransactionResult u r c e)). by intros [].
Defined.

#[export] Instance NonHashData_eq_dec : EqDecision NonHashData.
Proof. solve_decision. Defined.
#[export] Instance NonHashData_countable : Countable NonHashData.
Proof.
  apply (inj_countable' (fun d => (LocalLedgerCommitTimestamp d, TransactionResults d))
    (fun '(t, r) => mkNonHashData t r)). by intros [].
Defined.

#[export] Instance Block_eq_dec : EqDecision Block.
Proof. solve_decision. Defined.
#[export] Instance Block_countable : Countable Block.
Proof.
  apply (inj_countable' (fun b => (Version b, block_Timestamp b, Transactions b, StateHash b,
      PreviousBlockHash b, ConsensusMetadata b, block_NonHashData b))
    (fun '(v, t, txs, s, p, c, d) => mkBlock v t txs s p c d)). by intros [].
Defined.

(** The binary digits, least significant first. *)
Fixpoint posBytes (p : positive) : bytes :=
  match p with
  | xH => [x02]
  | xO p => x00 :: posBytes p
  | xI p => x01 :: posBytes p
  end.

Fixpoint bytesPos (b : bytes) : option positive :=
  match b with
  | x00 :: b => xO <$> bytesPos b
  | x01 :: b => xI <$> bytesPos b
  | x02 :: _ => Some xH
  | _ => None
  end.

Lemma bytesPos_posBytes p : bytesPos (posBytes p) = Some p.
Proof. induction p as [p IH|p IH|]; cbn; by rewrite ?IH. Qed.

#[export] Instance toyCodec : BlockCodec := {
  marshalBlock := fun b => Ok (posBytes (encode b));
  unmarshalBlock := fun data =>
    match bytesPos data ≫= decode with Some b => Ok b | None => Err end
}.

#[export] Instance toyCodec_laws : BlockCodecLaws.
Proof.
  split. intros b _. eexists. split; [reflexivity|]. split.
  - cbn. rewrite bytesPos_posBytes. cbn. by rewrite decode_encode.
  - intros _. by destruct (encode b).
Qed.

(** Deployment specifications are a length and as many bytes of code. *)
#[export] Instance toySpecCodec : SpecCodec := {
  ChaincodeDeploymentSpec := bytes;
  unmarshalSpec := fun b => Ok b;
  marshalSpec := fun b => Ok b;
  dropCodePackage := take 1
}.

(** * Data *)

Definition toyTransaction (uuid : Byte.byte) : Transaction :=
  mkTransaction CHAINCODE_DEPLOY [x63] [x04; x05] [] [uuid] (Some (mkTimestamp 7 0)) false [] [] [] [] [].

Definition now : Timestamp := mkTimestamp 42 0.
