(* ===== verification/LedgerBoot.v ===== *)
(** Opening a ledger whose state is a bucket tree: [state.NewState] with the
    default data structure, on an empty database and on one a ledger left
    behind. *)
From stdpp Require Import base gmap list.
From Stdlib Require Import ZArith Lia.
From Stdlib.Strings Require Import Byte.
From S2P Require Import Prelude GoStd GoBytes LedgerUtil KVStore StateDelta StateSpec HashableState.
From S2P Require Import State StateScan StateRefine Blockchain BlockchainSpec Ledger LedgerRefine.
From S2P Require Import BucketKeys BucketNode BucketHash BucketSpec BucketState BucketStore BucketTree.
From S2P Require Import BucketToy.

(** [NewState] when the configured data structure is the bucket tree; an error of
    [Initialize] panics. *)
Definition NewState_buckettree {DB} `{RocksDB DB} (hash : bytes -> bytes) (db : DB) (cs : configs)
    (deltaHistorySize : Z) : M unit (State StateImpl) :=
  r ← Initialize hash db cs;
  match r with
  | Err => panic
  | Ok (_, impl) => lift (NewState impl deltaHistorySize)
  end.

(** Configurations for which the tree has a level under its root and numbers fit
    Go's [int]. *)
Record okConfigs (cs : configs) : Prop := {
  ok_buckets : 2 <= default DefaultNumBuckets (numBuckets cs) /\
    smallInt (default DefaultNumBuckets (numBuckets cs));
  ok_grouping : 2 <= default DefaultMaxGroupingAtEachLevel (maxGrouping cs) /\
    smallInt (default DefaultMaxGroupingAtEachLevel (maxGrouping cs));
  ok_hash : forall h b, hashFunction cs = Some h -> 0 <= h b
}.

Lemma initConfig_ok cs : okConfigs cs ->
  exists conf, initConfig cs tt = Done conf tt /\ wfConfig conf /\ 1 <= lowestLevel conf.
Proof.
  intros [[Hn Hns] [Hg Hgs] Hh].
  destruct (newConfig_wf (default DefaultNumBuckets (numBuckets cs)) _ (default fnvHash (hashFunction cs))
    ltac:(lia) Hns Hg Hgs) as (conf & E & Hwf & _ & Hl & _).
  { intros b. destruct (hashFunction cs) eqn:Ef; [by eapply Hh|apply fnvHash_nonneg]. }
  exists conf. split; [exact E|]. split; [done|].
  destruct (Z.eq_dec (lowestLevel conf) 0) as [E0|]; [|pose proof (wf_lowest _ Hwf); lia].
  rewrite E0, (wf_root _ Hwf) in Hl. lia.
Qed.

Section boot.
Context {DB ID : Type} `{RocksDBLaws DB} `{EqDecision ID} `{BlockCodecLaws} `{SpecCodec}.
Context (hash : bytes -> bytes) (o : mapOrder).
Context (conf : config) (Hwf : wfConfig conf) (Hdeep : 1 <= lowestLevel conf)
  (Hhash : forall b, hash b <> [] /\ fitsInt (hash b)).

#[local] Instance treeState : HashableState DB StateImpl RangeScanIterator := bucketTree conf hash o.
#[local] Instance treeSpec : HashableStateSpec DB StateImpl RangeScanIterator :=
  bucketTree_spec conf hash o Hwf Hdeep Hhash.

(** A database that holds a state and a chain, and nothing in memory. *)
Lemma newLedger_stored db s chain cs history : healthy db -> wfKvs s ->
  consistent conf hash (contents db StateCF) s -> stored hash db chain ->
  initConfig cs tt = Done conf tt -> 0 <= history ->
  exists l, newLedger (ID := ID) hash db (NewState_buckettree hash db cs history) tt = Done (Ok l) tt /\
    ledgerRel hash l (mkAbsLedger (mkStore s ∅ ∅ []) chain None) /\ ldb l = db /\
    historyStateDeltaSize (lstate l) = u64 history /\ blockEvents l = [].
Proof.
  intros Hdb Hs Hc Hst Econf Hhist.
  destruct (newBlockchain_stored hash db chain Hst) as (bc & Ebc & Hbc & _).
  destruct (Initialize_holds conf hash Hwf Hdeep Hhash db s cs Hdb Hs Hc Econf) as (impl & Ei & Hh).
  destruct (NewState_rel (HashableStateSpec0 := treeSpec) db impl s history Hh Hhist) as (st & En & Hrel & Ehi).
  unfold newLedger, NewState_buckettree. cbv [mbind M_bind]. rewrite Ebc. cbn [lift mret M_ret]. rewrite Ei, En.
  eexists. split; [reflexivity|]. split; [by split|done].
Qed.

Definition emptyLedger : absLedger ID := mkAbsLedger (mkStore ∅ ∅ ∅ []) [] None.

(** What a ledger leaves in its database: the committed state and the chain. *)
Lemma ledgerRel_db (l : Ledger DB StateImpl ID) (a : absLedger ID) : ledgerRel hash l a ->
  healthy (ldb l) /\ wfKvs (st_committed (al_store a)) /\
  consistent conf hash (contents (ldb l) StateCF) (st_committed (al_store a)) /\
  stored hash (ldb l) (al_chain a).
Proof.
  intros [[(w & [[Hd Hs Hc _ _] _] & _) _ _ _ _] Hsto _ _]. done.
Qed.
End boot.

(** * Links *)

(** The last of an interval of numbers with a property. *)
Lemma last_filter_spec (f : nat -> bool) s n :
  (last (List.filter f (seq s n)) = None /\ forall i, (s <= i < s + n)%nat -> f i = false) \/
  (exists i, last (List.filter f (seq s n)) = Some i /\ (s <= i < s + n)%nat /\ f i = true /\
     forall j, (i < j < s + n)%nat -> f j = false).
Proof.
  induction n as [|n IH]; [left; split; [done|intros; lia]|].
  rewrite seq_S, List.filter_app. cbn. destruct (f (s + n)%nat) eqn:E.
  - right. exists (s + n)%nat. rewrite last_snoc. split; [done|]. split; [lia|]. split; [done|]. intros; lia.
  - rewrite app_nil_r. destruct IH as [[-> Hn]|(i & -> & Hi & Hf & Hn)].
    + left. split; [done|]. intros i Hi. destruct (decide (i = s + n)%nat) as [->|]; [done|]. apply Hn. lia.
    + right. exists i. split; [done|]. split; [lia|]. split; [done|]. intros j Hj.
      destruct (decide (j = s + n)%nat) as [->|]; [done|]. apply Hn. lia.
Qed.

Section links.
Context {ID : Type} `{EqDecision ID} `{BlockCodec} (hash : bytes -> bytes) (sh : kvs -> option bytes).

(** Every block names the hash of the one before it. *)
Definition linked (chain : list Block) : Prop :=
  forall i b p, chain !! S i = Some b -> chain !! i = Some p -> blockHash hash p = PreviousBlockHash b.

Lemma linked_snoc chain b : linked chain -> PreviousBlockHash b = lastHash hash chain -> linked (chain ++ [b]).
Proof.
  intros Hl Hb i b' p Hi Hp. destruct (decide (S i < length chain)%nat) as [Hlt|Hge].
  - rewrite lookup_app_l in Hi by done. rewrite lookup_app_l in Hp by lia. by eapply Hl.
  - apply lookup_snoc_Some in Hi as [[? ?]|[E <-]]; [lia|]. rewrite lookup_app_l in Hp by lia.
    rewrite Hb. unfold lastHash. rewrite last_lookup, <- E. cbn. by rewrite Hp.
Qed.

Lemma absStep_linked (a : absLedger ID) op a' ans : absStep hash sh a op = Some (a', ans) ->
  linked (al_chain a) -> linked (al_chain a').
Proof.
  destruct op; cbn; repeat case_decide; try done; intros [= <- <-]; try done. intros Hl. by apply linked_snoc.
Qed.

Lemma absRun_linked ops : forall (a : absLedger ID) a' answers, absRun hash sh a ops = Some (a', answers) ->
  linked (al_chain a) -> linked (al_chain a').
Proof.
  induction ops as [|op ops IH]; intros a a' answers; cbn; [by intros [= <- <-]|].
  destruct (absStep hash sh a op) as [[a1 x]|] eqn:E; [|done]. cbn.
  destruct (absRun hash sh a1 ops) as [[a2 xs]|] eqn:E2; [|done]. cbn. intros [= <- <-] Hl.
  eapply IH; [done|]. by eapply absStep_linked.
Qed.

Lemma linked_verifies chain high low : linked chain -> highestBroken hash chain high low = 0.
Proof.
  intros Hl. unfold highestBroken.
  assert (List.filter (brokenLink hash chain) (seq (S low) (high - low)) = []) as ->; [|done].
  assert (forall l, (forall i, i ∈ l -> (1 <= i)%nat) -> List.filter (brokenLink hash chain) l = []) as Hf.
  { induction l as [|i l IH]; intros Hi; [done|]. cbn. rewrite IH by (intros; apply Hi; by right).
    destruct i as [|i]; [specialize (Hi O ltac:(by left)); lia|]. unfold brokenLink. cbn.
    destruct (chain !! S i) eqn:E1, (chain !! i) eqn:E2; try done.
    rewrite bool_decide_eq_true_2; [done|]. by eapply Hl. }
  apply Hf. intros i Hi%elem_of_seq. lia.
Qed.
End links.
