(* ===== verification/LedgerTheorems.v ===== *)
(** What the ledger guarantees: it implements the abstract ledger, survives a
    restart, its chain verifies, previews are truthful, and deltas taken from one
    peer move another. *)
From stdpp Require Import base gmap list.
From Stdlib Require Import ZArith Lia.
From Stdlib.Strings Require Import Byte.
From S2P Require Import Prelude GoStd GoBytes LedgerUtil KVStore StateDelta StateSpec HashableState.
From S2P Require Import State StateScan StateRefine Blockchain BlockchainSpec Ledger LedgerRefine.
From S2P Require Import LedgerBoot LedgerToy BucketKeys BucketNode BucketHash BucketSpec BucketState.
From S2P Require Import BucketStore BucketTree BucketToy.

(** * From an empty database *)

(** A usable configuration and hash function. *)
Record setting (cs : configs) (conf : config) (hash : bytes -> bytes) : Prop := {
  set_configs : okConfigs cs;
  set_conf : initConfig cs tt = Done conf tt;
  set_hash : forall b, hash b <> [] /\ fitsInt (hash b)
}.

Definition empty_db {DB} `{RocksDBLaws DB} (db : DB) : Prop := healthy db /\ forall cf, contents db cf = ∅.

(** What is left of a ledger when the process stops. *)
Definition recovered {ID} (a : absLedger ID) : absLedger ID :=
  mkAbsLedger (mkStore (st_committed (al_store a)) ∅ ∅ []) (al_chain a) None.

Section theorems.
Context {DB ID : Type} `{RocksDBLaws DB} `{EqDecision ID} `{BlockCodecLaws} `{SpecCodec}.
Context (hash : bytes -> bytes) (o : mapOrder) (cs : configs) (conf : config) (Hset : setting cs conf hash).

#[local] Instance tree : HashableState DB StateImpl RangeScanIterator := bucketTree conf hash o.

Lemma setting_wf : wfConfig conf /\ 1 <= lowestLevel conf.
Proof.
  destruct (initConfig_ok cs (set_configs _ _ _ Hset)) as (conf' & E & ?).
  rewrite (set_conf _ _ _ Hset) in E. by injection E as <-.
Qed.

#[local] Instance spec : HashableStateSpec DB StateImpl RangeScanIterator :=
  bucketTree_spec conf hash o (proj1 setting_wf) (proj2 setting_wf) (set_hash _ _ _ Hset).

Lemma open_empty db history : empty_db db -> 0 <= history ->
  exists l, newLedger (ID := ID) hash db (NewState_buckettree hash db cs history) tt = Done (Ok l) tt /\
    ledgerRel hash l emptyLedger /\ historyStateDeltaSize (lstate l) = u64 history.
Proof.
  intros [Hdb He] Hh.
  destruct (newLedger_stored (ID := ID) hash o conf (proj1 setting_wf) (proj2 setting_wf) (set_hash _ _ _ Hset) db ∅ [] cs history)
    as (l & E & Hr & _ & Ehi & _).
  - done.
  - intros ck v. by rewrite lookup_empty.
  - rewrite He. by apply empty_consistent; apply setting_wf.
  - by apply empty_stored.
  - apply Hset.
  - done.
  - exists l. split; [done|]. split; [exact Hr|done].
Qed.

Lemma reopen l a history : ledgerRel hash l a -> 0 <= history ->
  exists l', newLedger (ID := ID) hash (ldb l) (NewState_buckettree hash (ldb l) cs history) tt = Done (Ok l') tt /\
    ledgerRel hash l' (recovered a).
Proof.
  intros Hr Hh.
  destruct (ledgerRel_db hash o conf (proj1 setting_wf) (proj2 setting_wf) (set_hash _ _ _ Hset) l a Hr) as (Hdb & Hs & Hc & Hst).
  destruct (newLedger_stored (ID := ID) hash o conf (proj1 setting_wf) (proj2 setting_wf) (set_hash _ _ _ Hset) (ldb l)
    (st_committed (al_store a)) (al_chain a) cs history Hdb Hs Hc Hst (set_conf _ _ _ Hset) Hh)
    as (l' & E & Hr' & _). exists l'. split; [done|exact Hr'].
Qed.
End theorems.

(** * The ledger implements its specification *)

(** C4. A ledger opened on an empty database, with the state in a bucket tree,
    answers every sequence of calls as the abstract ledger does: reads see the
    writes of the transaction, of the batch and of the committed state in that
    order, a failed or rolled back transaction leaves nothing, a commit appends a
    block that carries the hash of the new state and of the block before it, and
    blocks and transactions are found again. *)
Theorem ledger_refines_spec {DB ID : Type} `{RocksDBLaws DB} `{EqDecision ID} `{BlockCodecLaws} `{SpecCodec}
    (hash : bytes -> bytes) (o : mapOrder) (cs : configs) (conf : config) (db : DB) (history : Z)
    (ops : list (ledgerOp ID)) (a : absLedger ID) (answers : list answer) :
  setting cs conf hash -> empty_db db -> 0 <= history ->
  Forall wfOp ops -> Z.of_nat (length ops) < two64 ->
  absRun hash (stateHash conf hash) emptyLedger ops = Some (a, answers) ->
  exists l0 l, newLedger hash db (NewState_buckettree hash db cs history) tt = Done (Ok l0) tt /\
    runOps (HashableState0 := bucketTree conf hash o) hash o ops l0 = Done answers l.
Proof.
  intros Hset Hdb Hh Hops Hlen Ha.
  destruct (open_empty (ID := ID) hash o cs conf Hset db history Hdb Hh) as (l0 & E0 & Hr0 & _).
  destruct (run_rel hash o ops l0 emptyLedger a answers Hr0 Hops Hlen Ha) as (l & E & _). eauto.
Qed.

Lemma toySetting : setting toyConfigs toyConf toyHash.
Proof.
  split.
  - split; [done..|]. by intros h b [=].
  - reflexivity.
  - apply toyHash_ok.
Qed.

Lemma emptyDB_empty : empty_db emptyDB.
Proof. by split. Qed.

(** A batch with a transaction that succeeds and one that fails. *)
Definition toyBatch : list (ledgerOp nat) :=
  [OpBegin (Some 1%nat); OpTxBegin [x01]; OpSet [x61] [x6b] (Some [x76]); OpGet [x61] [x6b] false;
   OpTxFinished [x01] true; OpTxBegin [x02]; OpDelete [x61] [x6b]; OpGet [x61] [x6b] false;
   OpTxFinished [x02] false; OpGet [x61] [x6b] true;
   OpCommit now (Some 1%nat) [toyTransaction x01] [] []].

Definition toyAnswers : list answer :=
  [AOk true; AUnit; AOk true; AValue (Ok (Some [x76])); AUnit; AUnit; AOk true; AValue (Ok None);
   AUnit; AValue (Ok None); AOk true].

Definition toyQueries : list (ledgerOp nat) :=
  [OpGet [x61] [x6b] true; OpSize; OpTransaction [x01]; OpTransaction [x02]; OpCommit now (Some 1%nat) [] [] []].

Definition toyReplies : list answer :=
  [AValue (Ok (Some [x76])); ASize 1; ATransaction (Some (Ok (toyTransaction x01))); ATransaction (Some Err);
   AOk false].

Lemma toyOps_wf : Forall wfOp (toyBatch ++ toyQueries).
Proof.
  repeat constructor; cbn; try done; try lia; try (by rewrite list_elem_of_singleton).
Qed.

Lemma ledger_refines_spec_witness : exists l0 l,
  newLedger toyHash emptyDB (NewState_buckettree toyHash emptyDB toyConfigs 500) tt = Done (Ok l0) tt /\
  runOps (HashableState0 := bucketTree toyConf toyHash canonicalOrder) toyHash canonicalOrder
    (toyBatch ++ toyQueries) l0 = Done (toyAnswers ++ toyReplies) l.
Proof.
  eapply (ledger_refines_spec toyHash canonicalOrder toyConfigs toyConf emptyDB 500).
  - apply toySetting.
  - apply emptyDB_empty.
  - lia.
  - apply toyOps_wf.
  - done.
  - vm_compute. reflexivity.
Defined.



(** * The chain *)

(** C35. [VerifyChain] returns the highest block of the range whose recorded
    previous hash is not the hash of the block before it, and zero when every link
    of the range holds. *)
Theorem VerifyChain_finds {DB I Itr ID : Type} `{RocksDBLaws DB} `{!HashableState DB I Itr}
    `{!HashableStateSpec DB I Itr} `{EqDecision ID} `{BlockCodecLaws}
    (hash : bytes -> bytes) (l : Ledger DB I ID) (a : absLedger ID) (high low : Z) :
  ledgerRel hash l a -> 0 <= low < high -> high < Z.of_nat (length (al_chain a)) ->
  exists r, VerifyChain hash l high low = (r, LOk tt) /\
    (r = 0 /\ (forall i, low < i <= high -> brokenLink hash (al_chain a) (Z.to_nat i) = false) \/
     low < r <= high /\ brokenLink hash (al_chain a) (Z.to_nat r) = true /\
       forall i, r < i <= high -> brokenLink hash (al_chain a) (Z.to_nat i) = false).
Proof.
  intros Hr Hlow Hhigh. pose proof (sto_bound _ _ _ (lr_stored _ _ _ Hr)) as Hb.
  rewrite (VerifyChain_rel hash l a high low Hr) by (split; lia). unfold verifyAnswer.
  rewrite !decide_False by lia. eexists. split; [reflexivity|]. unfold highestBroken.
  destruct (last_filter_spec (brokenLink hash (al_chain a)) (S (Z.to_nat low)) (Z.to_nat high - Z.to_nat low))
    as [[-> Hn]|(i & -> & Hi & Hbr & Hn)].
  - left. split; [done|]. intros i Hi. apply Hn. lia.
  - right. rewrite Nat2Z.id. split; [lia|]. split; [done|]. intros j Hj. apply Hn. lia.
Qed.

(** On a ledger whose blocks were all committed by itself, [VerifyChain] finds
    nothing, whatever range it is called with. *)
Theorem committed_chain_verifies {DB ID : Type} `{RocksDBLaws DB} `{EqDecision ID} `{BlockCodecLaws} `{SpecCodec}
    (hash : bytes -> bytes) (o : mapOrder) (cs : configs) (conf : config) (db : DB) (history : Z)
    (ops : list (ledgerOp ID)) (a : absLedger ID) (answers : list answer) (high low : Z) :
  setting cs conf hash -> empty_db db -> 0 <= history ->
  Forall wfOp ops -> Z.of_nat (length ops) < two64 ->
  absRun hash (stateHash conf hash) emptyLedger ops = Some (a, answers) ->
  0 <= low < high -> high < Z.of_nat (length (al_chain a)) ->
  exists l0 l, newLedger hash db (NewState_buckettree hash db cs history) tt = Done (Ok l0) tt /\
    runOps (HashableState0 := bucketTree conf hash o) hash o ops l0 = Done answers l /\
    VerifyChain hash l high low = (0, LOk tt).
Proof.
  intros Hset Hdb Hh Hops Hlen Ha Hlow Hhigh.
  destruct (open_empty (ID := ID) hash o cs conf Hset db history Hdb Hh) as (l0 & E0 & Hr0 & _).
  destruct (run_rel hash o ops l0 emptyLedger a answers Hr0 Hops Hlen Ha) as (l & E & Hr).
  exists l0, l. split; [done|]. split; [done|].
  pose proof (sto_bound _ _ _ (lr_stored _ _ _ Hr)) as Hb.
  rewrite (VerifyChain_rel hash l a high low Hr) by (split; lia). unfold verifyAnswer.
  rewrite !decide_False by lia. rewrite linked_verifies; [done|].
  eapply absRun_linked; [exact Ha|]. by intros i b p.
Qed.

Definition toyBlock (prev : bytes) : Block :=
  mkBlock 0 None [] [x09] prev [] (Some (mkNonHashData (Some now) [])).

Lemma toyBlock_typed prev : typedBlock (toyBlock prev).
Proof. by repeat split. Qed.

Lemma VerifyChain_finds_witness : exists (l : Ledger memDB StateImpl nat), VerifyChain toyHash l 1 0 = (1, LOk tt).
Proof.
  destruct (open_empty (ID := nat) toyHash canonicalOrder toyConfigs toyConf toySetting emptyDB 500 emptyDB_empty
    ltac:(lia)) as (l0 & _ & Hr0 & _).
  destruct (PutRawBlock_rel toyHash canonicalOrder l0 emptyLedger (toyBlock []) Hr0 ltac:(done)
    (toyBlock_typed _) ltac:(done)) as (l1 & _ & Hr1).
  destruct (PutRawBlock_rel toyHash canonicalOrder l1 _ (toyBlock [x05]) Hr1 ltac:(done)
    (toyBlock_typed _) ltac:(done)) as (l2 & _ & Hr2).
  exists l2. destruct (VerifyChain_finds toyHash l2 _ 1 0 Hr2 ltac:(lia) ltac:(cbn; lia))
    as (r & E & [[_ Hn]|(Hr & _)]).
  - specialize (Hn 1 ltac:(lia)). vm_compute in Hn. discriminate.
  - rewrite E. f_equal. lia.
Defined.

Definition toySecond : list (ledgerOp nat) :=
  [OpBegin (Some 2%nat); OpTxBegin [x03]; OpSet [x62] [x6b] (Some [x77]); OpTxFinished [x03] true;
   OpCommit now (Some 2%nat) [toyTransaction x03] [] []].

Lemma toySecond_wf : Forall wfOp (toyBatch ++ toySecond).
Proof. repeat constructor; cbn; try done; try lia; try (by rewrite list_elem_of_singleton). Qed.

Lemma committed_chain_verifies_witness : exists l0 l,
  newLedger toyHash emptyDB (NewState_buckettree toyHash emptyDB toyConfigs 500) tt = Done (Ok l0) tt /\
  runOps (HashableState0 := bucketTree toyConf toyHash canonicalOrder) toyHash canonicalOrder
    (toyBatch ++ toySecond) l0 = Done (toyAnswers ++ [AOk true; AUnit; AOk true; AUnit; AOk true]) l /\
  VerifyChain toyHash l 1 0 = (0, LOk tt).
Proof.
  eapply (committed_chain_verifies toyHash canonicalOrder toyConfigs toyConf emptyDB 500).
  - apply toySetting.
  - apply emptyDB_empty.
  - lia.
  - apply toySecond_wf.
  - done.
  - vm_compute. reflexivity.
  - lia.
  - vm_compute. reflexivity.
Defined.

(** ** After a commit *)

Section committed.
Context {DB I Itr ID : Type} `{RocksDBLaws DB} `{!HashableState DB I Itr} `{!HashableStateSpec DB I Itr}
  `{EqDecision ID} `{BlockCodecLaws} `{SpecCodec} (hash : bytes -> bytes) (o : mapOrder).

Lemma committed_block (l l' : Ledger DB I ID) a block : ledgerRel hash l a ->
  ledgerRel hash l' (committedLedger a block) -> Z.of_nat (length (al_chain a)) + 1 < two64 ->
  GetBlockByNumber l' (GetBlockchainSize l) = LOk (Some block).
Proof.
  intros Hr Hr' Hlen. unfold GetBlockchainSize, getSize. destruct (lr_chain _ _ _ Hr) as [-> _].
  rewrite (GetBlockByNumber_rel hash l' _ _ Hr') by (split; lia). cbn [committedLedger al_chain].
  rewrite decide_True by (rewrite length_app; cbn; lia). by rewrite Nat2Z.id, lookup_app_r, Nat.sub_diag.
Qed.

Lemma committed_delta (l l' : Ledger DB I ID) a block : ledgerRel hash l a ->
  ledgerRel hash l' (committedLedger a block) -> Z.of_nat (length (al_chain a)) + 1 < two64 ->
  contents (ldb l') StateDeltaCF = applyBatch StateDeltaCF (contents (ldb l) StateDeltaCF)
    (historyOps o (lstate l) (Z.of_nat (length (al_chain a)))) ->
  0 < historyStateDeltaSize (lstate l) -> fitsDelta (stateDelta (lstate l)) ->
  GetStateDelta l' (GetBlockchainSize l) = LOk (Some (rolled (stateDelta (lstate l)) false)).
Proof.
  intros Hr Hr' Hlen Ec Hh Hf. unfold GetStateDelta, GetBlockchainSize, getSize.
  destruct (lr_chain _ _ _ Hr) as [-> _], (lr_chain _ _ _ Hr') as [-> _].
  destruct (_ >=? _) eqn:E; [cbn [committedLedger al_chain] in E; rewrite length_app in E; cbn [length] in E;
    apply Z.geb_le in E; lia|].
  rewrite (history_fetch o (ldb l') _ (lstate l) _ (stateRel_healthy _ _ _ (lr_state _ _ _ Hr')) Ec);
    [done|split; lia|done|done].
Qed.
End committed.

(** The preview of a batch has the hash of the block that committing the batch with
    the same arguments adds, although that block carries in addition the results
    of the transactions and the local time. *)
Theorem preview_hash {DB I Itr ID : Type} `{RocksDBLaws DB} `{!HashableState DB I Itr}
    `{!HashableStateSpec DB I Itr} `{EqDecision ID} `{BlockCodecLaws} `{SpecCodec}
    (hash : bytes -> bytes) (o : mapOrder) (l : Ledger DB I ID) (a : absLedger ID) (now : Timestamp)
    (txs : list Transaction) (results : list TransactionResult) (metadata : bytes) :
  ledgerRel hash l a -> st_uuid (al_store a) = [] -> Z.of_nat (length (al_chain a)) + 1 < two64 ->
  wfOp (OpCommit now (al_id a) txs results metadata) ->
  exists preview l1 l2 b h,
    GetTXBatchPreviewBlock (al_id a) txs metadata l = Done (Ok preview) l1 /\
    CommitTxBatch hash o now (al_id a) txs results metadata l1 = Done (Ok tt) l2 /\
    GetBlockByNumber l2 (GetBlockchainSize l) = LOk (Some b) /\
    Block_GetHash hash preview = Ok h /\ Block_GetHash hash b = Ok h.
Proof.
  intros Hr Hidle Hlen Hwf.
  destruct (step_rel hash o l a (OpPreview (al_id a) txs metadata) a
    (APreview (Ok ((NewBlock txs metadata) <| PreviousBlockHash := lastHash hash (al_chain a) |>
      <| StateHash := default [] (hs_hash (afterBatch (al_store a))) |>))) Hr Logic.I Hlen) as (l1 & E1 & Hr1).
  { cbn [absStep]. by rewrite decide_True. }
  set (preview := (NewBlock txs metadata) <| PreviousBlockHash := lastHash hash (al_chain a) |>
      <| StateHash := default [] (hs_hash (afterBatch (al_store a))) |>) in E1.
  pose proof (nextBlock_typed (HashableStateSpec0 := HashableStateSpec0) hash a now (al_id a) txs results metadata Hwf) as Hty.
  destruct (Commit_rel hash o l1 a now txs results metadata Hr1 Hidle Hlen Hty) as (l2 & E2 & [Hr2 _ _ _]).
  exists preview, l1, l2, (nextBlock hash hs_hash a now txs results metadata), (blockHash hash preview).
  split; [|split; [exact E2|split; [|split]]].
  - cbn [runOp] in E1. cbv [mbind M_bind] in E1.
    destruct (GetTXBatchPreviewBlock (al_id a) txs metadata l) as [r l'| |]; [|done..].
    injection E1 as -> ->. done.
  - by eapply committed_block.
  - apply GetHash_blockHash. destruct Hty as (? & ? & ? & ? & _). done.
  - by rewrite (GetHash_blockHash hash _ Hty).
Qed.

(** The ledger and the abstract ledger after some calls. *)
Definition toyLedger (ops : list (ledgerOp nat)) : option (Ledger memDB StateImpl nat) :=
  match newLedger toyHash emptyDB (NewState_buckettree toyHash emptyDB toyConfigs 500) tt with
  | Done (Ok l0) _ =>
    match runOps (HashableState0 := tree toyHash canonicalOrder toyConf) toyHash canonicalOrder ops l0 with
    | Done _ l => Some l
    | _ => None
    end
  | _ => None
  end.

Definition toyAfter (ops : list (ledgerOp nat)) : absLedger nat :=
  from_option fst emptyLedger (absRun toyHash (stateHash toyConf toyHash) emptyLedger ops).

Lemma toyReach (ops : list (ledgerOp nat)) : Forall wfOp ops -> Z.of_nat (length ops) < two64 ->
  from_option (fun _ => true) false (absRun toyHash (stateHash toyConf toyHash) emptyLedger ops) = true ->
  exists l, toyLedger ops = Some l /\
    ledgerRel (HashableState0 := tree toyHash canonicalOrder toyConf)
      (HashableStateSpec0 := spec toyHash canonicalOrder toyConfigs toyConf toySetting) toyHash l (toyAfter ops).
Proof.
  intros Hops Hlen Hrun. destruct (absRun toyHash _ emptyLedger ops) as [[a answers]|] eqn:Ha; [|done].
  destruct (open_empty (ID := nat) toyHash canonicalOrder toyConfigs toyConf toySetting emptyDB 500 emptyDB_empty
    ltac:(lia)) as (l0 & E0 & Hr0 & _).
  destruct (run_rel toyHash canonicalOrder ops l0 emptyLedger a answers Hr0 Hops Hlen Ha) as (l & E & Hr).
  exists l. unfold toyAfter, toyLedger. rewrite Ha, E0. split; [|done]. by rewrite E.
Qed.

(** Everything but the commit. *)
Definition toyOpen : list (ledgerOp nat) := take 10 toyBatch.

Lemma toyOpen_wf : Forall wfOp toyOpen.
Proof. apply Forall_take, (proj1 (proj1 (Forall_app _ _ _) toyOps_wf)). Qed.

Lemma toyOpen_runs :
  from_option (fun _ => true) false (absRun toyHash (stateHash toyConf toyHash) emptyLedger toyOpen) = true.
Proof. vm_compute. reflexivity. Qed.

Lemma toyCommit_wf id : wfOp (ID := nat) (OpCommit now id [toyTransaction x01] [] []).
Proof. cbn. repeat split; try done. repeat constructor; cbn; lia. Qed.

Lemma preview_hash_witness : exists (l l1 l2 : Ledger memDB StateImpl nat) preview b h,
  GetTXBatchPreviewBlock (HashableState0 := tree toyHash canonicalOrder toyConf) (al_id (toyAfter toyOpen))
    [toyTransaction x01] [] l = Done (Ok preview) l1 /\
  CommitTxBatch (HashableState0 := tree toyHash canonicalOrder toyConf) toyHash canonicalOrder now
    (al_id (toyAfter toyOpen)) [toyTransaction x01] [] [] l1 = Done (Ok tt) l2 /\
  GetBlockByNumber l2 (GetBlockchainSize l) = LOk (Some b) /\
  Block_GetHash toyHash preview = Ok h /\ Block_GetHash toyHash b = Ok h.
Proof.
  destruct (toyReach toyOpen toyOpen_wf eq_refl toyOpen_runs) as (l & _ & Hr).
  destruct (preview_hash toyHash canonicalOrder l (toyAfter toyOpen) now [toyTransaction x01] [] [] Hr)
    as (p & l1 & l2 & b & h & Hall).
  - vm_compute. reflexivity.
  - vm_compute. reflexivity.
  - apply toyCommit_wf.
  - exists l, l1, l2, p, b, h. exact Hall.
Defined.

(** * Range scans *)

Lemma range_scan_agrees_with_Get_witness : exists (l : Ledger memDB StateImpl nat) itr kvs n,
  GetRangeScanIterator (HashableState0 := tree toyHash canonicalOrder toyConf) canonicalOrder (ldb l) (lstate l)
    [x61] [] [] false = Some (CompositeItr itr) /\
  yields (composite_Next (HashableState0 := tree toyHash canonicalOrder toyConf) (ldb l) n 2)
    (composite_GetKeyValue (HashableState0 := tree toyHash canonicalOrder toyConf)) itr kvs /\
  NoDup kvs.*1.
Proof.
  destruct (toyReach toyOpen toyOpen_wf eq_refl toyOpen_runs) as (l & _ & Hr).
  destruct (sr_impl _ _ _ (lr_state _ _ _ Hr)) as (w & Hh & _).
  destruct (range_scan_agrees_with_Get canonicalOrder (ldb l) (lstate l) _ w [x61] [] [] Hh) as (itr & kvs & n & E & Hy & Hnd & _).
  - apply (bool_decide_unpack (stateKeyDelimiter ∉ [x61])). vm_compute. exact Logic.I.
  - exists l, itr, kvs, n. exact (conj E (conj (Hy n (le_n n)) Hnd)).
Defined.

(** * State transfer *)

Lemma recovered_fields {ID} (b : absLedger ID) : recovered b = b ->
  al_id b = None /\ st_batch (al_store b) = ∅ /\ st_tx (al_store b) = ∅.
Proof. destruct b as [[] ? ?]. unfold recovered. cbn. by intros [= <- <- <- <-]. Qed.

Lemma rolled_admissible s d b back : represents s d b ->
  admissible (rolled d back) /\ IsEmpty (rolled d back) = IsEmpty d.
Proof.
  intros Hr. split; [split; [apply rolled_wf, Hr|apply rolled_noDelimiter, Hr]|].
  unfold IsEmpty, rolled. cbn. by rewrite map_size_fmap.
Qed.

Lemma afterBatch_empty st : st_batch st = ∅ -> afterBatch st = st_committed st.
Proof.
  intros E. unfold afterBatch. rewrite E. apply map_eq. intros ck. by rewrite lookup_applyWrites.
Qed.

(** C21. A peer that has the state of another one before a block and is given the delta
    of the block, as [GetStateDelta] returns it, has the state of the other one
    after the block once it has applied and committed the delta, and the hash
    that is in the block; with [RollBackwards] set the same delta takes it back. *)
Theorem delta_transfers_state {DB I Itr ID : Type} `{RocksDBLaws DB} `{!HashableState DB I Itr}
    `{!HashableStateSpec DB I Itr} `{EqDecision ID} `{BlockCodecLaws} `{SpecCodec}
    (hash : bytes -> bytes) (o : mapOrder) (l peer : Ledger DB I ID) (a b : absLedger ID) (now : Timestamp)
    (txs : list Transaction) (results : list TransactionResult) (metadata : bytes) (id : option ID) :
  ledgerRel hash l a -> st_uuid (al_store a) = [] -> Z.of_nat (length (al_chain a)) + 1 < two64 ->
  wfOp (OpCommit now (al_id a) txs results metadata) ->
  0 < historyStateDeltaSize (lstate l) -> fitsDelta (stateDelta (lstate l)) -> st_batch (al_store a) <> ∅ ->
  map_Forall (fun _ v => v <> []) (st_committed (al_store a)) ->
  ledgerRel hash peer b -> recovered b = b -> st_committed (al_store b) = st_committed (al_store a) ->
  exists l' block d p1 p2 p3 p4 p5,
    CommitTxBatch hash o now (al_id a) txs results metadata l = Done (Ok tt) l' /\
    GetBlockByNumber l' (GetBlockchainSize l) = LOk (Some block) /\
    GetStateDelta l' (GetBlockchainSize l) = LOk (Some d) /\
    Ledger_ApplyStateDelta id d peer = Done (Ok tt) p1 /\
    Ledger_CommitStateDelta id p1 = Done (Ok tt) p2 /\
    ledgerRel hash p2 (b <| al_store := (al_store b) <| st_committed := afterBatch (al_store a) |> |>) /\
    GetTempStateHash p2 = Done (Ok (hs_hash (afterBatch (al_store a)))) p3 /\
    StateHash block = default [] (hs_hash (afterBatch (al_store a))) /\
    Ledger_ApplyStateDelta id (d <| RollBackwards := true |>) p3 = Done (Ok tt) p4 /\
    Ledger_CommitStateDelta id p4 = Done (Ok tt) p5 /\ ledgerRel hash p5 b.
Proof.
  intros Hr Hidle Hlen Hwf Hhist Hfits Hne Hvals Hp Hrec Hsame.
  pose proof (nextBlock_typed (HashableStateSpec0 := HashableStateSpec0) hash a now (al_id a) txs results metadata Hwf) as Hty.
  destruct (Commit_rel hash o l a now txs results metadata Hr Hidle Hlen Hty) as (l' & E & [Hr' Hhis _ _]).
  pose proof (sr_batch _ _ _ (lr_state _ _ _ Hr)) as Hrep.
  destruct (rolled_applies _ _ _ Hrep Hvals) as [Hfwd Hback].
  rewrite (afterBatch_Delta (lstate l) (al_store a) Hrep) in Hfwd, Hback.
  destruct (recovered_fields b Hrec) as (Hid & Hb & Htx).
  assert (IsEmpty (stateDelta (lstate l)) = false) as Hfull
    by (rewrite (represents_IsEmpty _ _ _ Hrep); by apply bool_decide_eq_false_2).
  destruct (rolled_admissible _ _ _ false Hrep) as [Had Hie]. rewrite Hfull in Hie.
  destruct (rolled_admissible _ _ _ true Hrep) as [Had' Hie']. rewrite Hfull in Hie'.
  destruct (transferDelta_rel hash peer b id _ Hp Hid Hb Htx Had Hie) as (p1 & p2 & E1 & E2 & Hr2).
  rewrite Hsame, Hfwd in Hr2.
  destruct (GetTempStateHash_rel hash p2 _ Hr2) as (p3 & E3 & Hr3).
  destruct (transferDelta_rel hash p3 _ id _ Hr3 Hid Hb Htx Had' Hie') as (p4 & p5 & E4 & E5 & Hr5).
  change (st_committed (al_store (b <| al_store := (al_store b) <| st_committed := afterBatch (al_store a) |> |>)))
    with (afterBatch (al_store a)) in Hr5.
  exists l', (nextBlock hash hs_hash a now txs results metadata), (rolled (stateDelta (lstate l)) false),
    p1, p2, p3, p4, p5. split; [exact E|]. split; [by eapply committed_block|].
  split; [by eapply committed_delta|]. split; [done|]. split; [done|]. split; [done|].
  split; [etransitivity; [exact E3|]; do 3 f_equal; by apply afterBatch_empty|].
  split; [done|]. split; [exact E4|]. split; [exact E5|].
  rewrite Hback, <- Hsame in Hr5. by destruct b as [[] ? ?].
Qed.

Lemma toyOpen_delta l : toyLedger toyOpen = Some l ->
  stateDelta (lstate l) = mkStateDelta {[ [x61] := mkChaincodeStateDelta [x61]
    {[ [x6b] := mkUpdatedValue (Some [x76]) None ]} ]} false /\ historyStateDeltaSize (lstate l) = 500.
Proof.
  assert ((fun l => (stateDelta (lstate l), historyStateDeltaSize (lstate l))) <$> toyLedger toyOpen =
    Some (mkStateDelta {[ [x61] := mkChaincodeStateDelta [x61] {[ [x6b] := mkUpdatedValue (Some [x76]) None ]} ]} false, 500))
    as E by (vm_compute; reflexivity).
  intros El. rewrite El in E. cbn in E. injection E as Ed Eh. exact (conj Ed Eh).
Qed.

Lemma delta_transfers_state_witness : exists (l l' peer p1 p2 : Ledger memDB StateImpl nat) d,
  GetStateDelta l' (GetBlockchainSize l) = LOk (Some d) /\
  Ledger_ApplyStateDelta (Some 7%nat) d peer = Done (Ok tt) p1 /\
  Ledger_CommitStateDelta (HashableState0 := tree toyHash canonicalOrder toyConf) (Some 7%nat) p1 = Done (Ok tt) p2.
Proof.
  destruct (toyReach toyOpen toyOpen_wf eq_refl toyOpen_runs) as (l & El & Hr).
  destruct (toyReach [] ltac:(constructor) eq_refl eq_refl) as (peer & _ & Hp).
  destruct (toyOpen_delta l El) as [Ed Eh].
  destruct (delta_transfers_state toyHash canonicalOrder l peer (toyAfter toyOpen) (toyAfter []) now
    [toyTransaction x01] [] [] (Some 7%nat) Hr) as (l' & b & d & p1 & p2 & p3 & p4 & p5 & Hall).
  - vm_compute. reflexivity.
  - vm_compute. reflexivity.
  - apply toyCommit_wf.
  - rewrite Eh. reflexivity.
  - rewrite Ed. split; [vm_compute; split; congruence|]. apply map_Forall_singleton.
    split; [reflexivity|]. split; [reflexivity|]. split; [vm_compute; split; congruence|].
    apply map_Forall_singleton. split; [reflexivity|split; reflexivity].
  - apply (bool_decide_unpack (st_batch (al_store (toyAfter toyOpen)) <> ∅)). vm_compute. exact Logic.I.
  - apply (bool_decide_unpack _). vm_compute. exact Logic.I.
  - exact Hp.
  - reflexivity.
  - vm_compute. reflexivity.
  - exists l, l', peer, p1, p2, d. tauto.
Defined.
