(* ===== verification/LedgerFindings.v ===== *)
(** What the ledger does on the paths where it does not do what it is meant to:
    unknown block hashes, the hash after the state is deleted, and a failed read
    while a delta is committed. *)
From stdpp Require Import base gmap list.
From Stdlib Require Import ZArith Lia.
From Stdlib.Strings Require Import Byte.
From S2P Require Import Prelude GoStd GoBytes LedgerUtil KVStore StateDelta StateSpec HashableState.
From S2P Require Import State StateScan StateRefine Blockchain BlockchainSpec Ledger LedgerRefine.
From S2P Require Import LedgerBoot LedgerToy LedgerTheorems BucketKeys BucketNode BucketHash BucketSpec.
From S2P Require Import BucketState BucketStore BucketTree BucketToy.

(** * Unknown hashes *)

(** Looking a block up by a hash that no block has does not fail: it gives block zero. *)
Theorem unknown_hash_gives_genesis {DB : Type} `{RocksDBLaws DB} `{BlockCodecLaws} (hash : bytes -> bytes)
    (db : DB) (chain : list Block) (h : bytes) :
  stored hash db chain -> (forall b, b ∈ chain -> blockHash hash b <> h) ->
  getBlockByHash db h = Ok (chain !! O).
Proof.
  intros Hs Hh. rewrite (getBlockByHash_stored hash db chain h Hs).
  assert (chainBlock hash chain h = None) as ->; [|done].
  unfold chainBlock. apply last_None.
  destruct (filter _ chain) as [|b l] eqn:E; [done|].
  assert (b ∈ filter (fun b => blockHash hash b = h) chain) as [Eb Hb]%list_elem_of_filter by (rewrite E; by left).
  by destruct (Hh b Hb).
Qed.

(** * Deleting the state *)

(** Without a working set the hash is the one in memory. *)
Lemma GetHash_memory {DB : Type} `{RocksDBLaws DB} (hash : bytes -> bytes) (o : mapOrder) cs conf
    (Hset : setting cs conf hash) (db db' : DB) (s : State StateImpl) a :
  stateRel (HashableState0 := bucketTree conf hash o) (HashableStateSpec0 := spec hash o cs conf Hset) db s a ->
  st_batch a = ∅ ->
  exists s', GetHash (HashableState0 := bucketTree conf hash o) db' s =
    Done (Ok (stateHash conf hash (st_committed a))) s'.
Proof.
  intros Hr Hb. destruct (sync_rel db s a Hr) as (s1 & E1 & _ & Hh). unfold pendingOf in Hh.
  rewrite decide_True in Hh by done. destruct Hh as [_ Hw]. inversion Hw as [Hd Hre Ht Hl| |].
  unfold GetHash, try, onImpl. cbv [mbind M_bind]. rewrite E1. cbn [hs_ComputeCryptoHash bucketTree].
  unfold ComputeStateHash. cbv [mbind M_bind gets]. rewrite Hre, Hl. eexists. reflexivity.
Qed.

(** [DeleteALLStateKeysAndValues] empties the state in the database and keeps the hash of
    the old state in memory: [GetTempStateHash] still returns it. *)
Theorem delete_keeps_hash {DB ID : Type} `{RocksDBLaws DB} `{EqDecision ID} `{BlockCodecLaws}
    (hash : bytes -> bytes) (o : mapOrder) (cs : configs) (conf : config) (Hset : setting cs conf hash)
    (l : Ledger DB StateImpl ID) (a : absLedger ID) :
  ledgerRel (HashableStateSpec0 := spec hash o cs conf Hset) hash l a ->
  exists l1 l2, DeleteALLStateKeysAndValues (HashableState0 := bucketTree conf hash o) l = Done (Ok tt) l1 /\
    contents (ldb l1) StateCF = ∅ /\ contents (ldb l1) StateDeltaCF = ∅ /\
    GetTempStateHash (HashableState0 := bucketTree conf hash o) l1 =
      Done (Ok (stateHash conf hash (st_committed (al_store a)))) l2.
Proof.
  intros [Hst _ _ _]. destruct (Clear_rel (HashableState0 := bucketTree conf hash o) _ _ _ Hst) as (s1 & E1 & Hst1 & _).
  destruct (EmptyCF_contents (ldb l) StateCF (stateRel_healthy _ _ _ Hst)) as (db1 & F1 & Hd1 & C1).
  destruct (EmptyCF_contents db1 StateDeltaCF Hd1) as (db2 & F2 & Hd2 & C2).
  destruct (GetHash_memory hash o cs conf Hset (ldb l) db2 s1 _ Hst1 eq_refl) as (s2 & E2).
  pose (l1 := l <| lstate := s1 |> <| ldb := db2 |>).
  exists l1. eexists. split; [|split; [|split]].
  - unfold DeleteALLStateKeysAndValues, onState, DeleteState. cbv [mbind M_bind get]. rewrite E1.
    unfold DB_DeleteState. rewrite F1, F2. reflexivity.
  - cbn. rewrite C2, C1. done.
  - cbn. rewrite C2. done.
  - unfold GetTempStateHash, onState. cbv [mbind M_bind get]. 
    change (ldb l1) with db2. change (lstate l1) with s1. rewrite E2. reflexivity.
Qed.

Lemma toyBatch_wf : Forall wfOp toyBatch.
Proof. exact (proj1 (proj1 (Forall_app _ _ _) toyOps_wf)). Qed.

Lemma toyBatch_runs :
  from_option (fun _ => true) false (absRun toyHash (stateHash toyConf toyHash) emptyLedger toyBatch) = true.
Proof. vm_compute. reflexivity. Qed.

Lemma unknown_hash_gives_genesis_witness : exists (l : Ledger memDB StateImpl nat),
  getBlockByHash (ldb l) [x00] = Ok (al_chain (toyAfter toyBatch) !! O).
Proof.
  destruct (toyReach toyBatch toyBatch_wf eq_refl toyBatch_runs) as (l & _ & Hr). exists l.
  apply (unknown_hash_gives_genesis toyHash (ldb l) _ [x00] (lr_stored _ _ _ Hr)).
  intros b _. unfold blockHash, toyHash. cbn [take]. intros [=].
Defined.

Lemma delete_keeps_hash_witness : exists (l l1 l2 : Ledger memDB StateImpl nat),
  DeleteALLStateKeysAndValues (HashableState0 := bucketTree toyConf toyHash canonicalOrder) l = Done (Ok tt) l1 /\
  GetTempStateHash (HashableState0 := bucketTree toyConf toyHash canonicalOrder) l1 =
    Done (Ok (stateHash toyConf toyHash (st_committed (al_store (toyAfter toyBatch))))) l2.
Proof.
  destruct (toyReach toyBatch toyBatch_wf eq_refl toyBatch_runs) as (l & _ & Hr).
  destruct (delete_keeps_hash toyHash canonicalOrder toyConfigs toyConf toySetting l _ Hr)
    as (l1 & l2 & E1 & _ & _ & E2).
  exists l, l1, l2. exact (conj E1 E2).
Defined.

(** * A failed read *)

(** A state over a database whose reads fail. *)
Definition unreadable : memDB := mkMemDB ∅ true.

Definition freshState : State StateImpl :=
  mkState (mkStateImpl None None None None false (newBucketCache 0)) NewStateDelta NewStateDelta [] ∅ false 500.

(** When a bucket node cannot be read while a delta is committed, nothing is written and
    [CommitStateDelta] reports success: the error of the hash computation is
    dropped in [AddChangesForPersistence]. *)
Theorem failed_read_loses_delta : exists s1 s2 db',
  ApplyStateDelta toyDelta freshState = Done tt s1 /\
  CommitStateDelta (HashableState0 := bucketTree toyConf toyHash canonicalOrder) unreadable s1 = Done (Ok db') s2 /\
  memCF db' StateCF = ∅ /\
  applyDelta ∅ toyDelta !! ConstructCompositeKey [x61] [x6b] = Some [x76].
Proof.
  eexists _, _, _. split; [reflexivity|]. split; [vm_compute; reflexivity|]. split; vm_compute; reflexivity.
Qed.
