(* ===== verification/AsyncIndexer.v ===== *)
(** The asynchronous block indexer, core/ledger/blockchain_indexes_async.go: the
    committer hands blocks over a channel to a goroutine that writes the indexes,
    and queries wait until the index has caught up with the chain.  The threads
    are a step relation; a critical section of the indexer's lock is one step. *)
From stdpp Require Import base gmap list relations.
From Stdlib Require Import ZArith Lia.
From Stdlib.Strings Require Import Byte.
From S2P Require Import Prelude GoStd GoBytes LedgerUtil KVStore Blockchain.

(** * The indexer's data *)

Definition lastIndexedBlockKey : bytes := [x00].

Record blockWrapper := mkBlockWrapper {
  bw_block : option Block;
  bw_blockNumber : Z;
  bw_blockHash : bytes;
  stopNow : bool
}.

(** [err] is whether the error is set; the lock and the condition variable are
    in the step relation. *)
Record blockchainIndexerState := mkIndexerState {
  zerothBlockIndexed : bool;
  lastBlockIndexed : Z;
  err : bool
}.

#[export] Instance blockchainIndexerState_eta : Eta blockchainIndexerState := fun s =>
  mkIndexerState (zerothBlockIndexed s) (lastBlockIndexed s) (err s).

Definition setBlockIndexed (blockNumber : Z) (s : blockchainIndexerState) : blockchainIndexerState :=
  s <| lastBlockIndexed := blockNumber |> <| zerothBlockIndexed := true |>.

Definition setError (s : blockchainIndexerState) : blockchainIndexerState := s <| err := true |>.
Definition hasError (s : blockchainIndexerState) : bool := err s.

(** * Threads *)

(** The goroutine that [start] spawns: waiting on the channel, with a block in
    hand, about to write its indexes, about to call [blockIndexed], about to
    record an error, stopped. *)
Inductive indexerPC :=
| Receiving
| Received (w : blockWrapper)
| Indexing (w : blockWrapper)
| Indexed (blockNumber : Z)
| IndexFailed
| Stopped.

Inductive question :=
| ByHash (blockHash : bytes)
| ByUUID (txUUID : bytes)
| Stop.

Inductive fetched :=
| BlockNumber (r : result Z)
| TransactionIndex (r : result (Z * Z)).

(** A call of [fetchBlockNumberByBlockHash], [fetchTransactionIndexByUUID] or
    [stop]: before [checkError], before the two calls of [getSize], before the
    lock, in one of the two [Wait]s, woken, past the wait, returned ([None] is
    the error of [checkError], or the end of [stop]). *)
Inductive clientPC :=
| Checking
| Sizing
| Targeting
| Locking (lastBlockCommitted : Z)
| WaitingZeroth (lastBlockCommitted : Z)
| Waiting (lastBlockCommitted : Z)
| Woken (lastBlockCommitted : Z)
| Fetching
| Returned (r : option fetched).

(** [blockChan] is unbuffered: it holds the wrappers of the blocked senders. *)
Record world (DB : Type) := mkWorld {
  w_db : DB;
  w_blockchain : blockchain;
  indexerState : blockchainIndexerState;
  w_indexer : indexerPC;
  blockChan : list blockWrapper;
  clients : list (question * clientPC)
}.
Arguments mkWorld {DB}.
Arguments w_db {DB}.
Arguments w_blockchain {DB}.
Arguments indexerState {DB}.
Arguments w_indexer {DB}.
Arguments blockChan {DB}.
Arguments clients {DB}.

#[export] Instance world_eta DB : Eta (world DB) := fun w =>
  mkWorld (w_db w) (w_blockchain w) (indexerState w) (w_indexer w) (blockChan w) (clients w).

Section indexer.
Context {DB : Type} `{RocksDB DB} `{BlockCodec} (hash : bytes -> bytes) (o : mapOrder).

(** ** Writing the indexes *)

(** A nil block has no transactions. *)
Definition indexBatch (block : option Block) (blockNumber : Z) (blockHash : bytes) : list batchOp :=
  addIndexDataForPersistence o (default (NewBlock [] []) block) blockNumber blockHash [] ++
  [PutCF IndexesCF lastIndexedBlockKey (encodeBlockNumber blockNumber)].

(** [createIndexesInternal] up to the call of [blockIndexed]. *)
Definition writeIndexes (db : DB) (block : option Block) (blockNumber : Z) (blockHash : bytes) : result DB :=
  Write db (indexBatch block blockNumber blockHash).

Definition createIndexesInternal (block : option Block) (blockNumber : Z) (blockHash : bytes)
    (db : DB) (s : blockchainIndexerState) : result (DB * blockchainIndexerState) :=
  match writeIndexes db block blockNumber blockHash with
  | Err => Err
  | Ok db => Ok (db, setBlockIndexed blockNumber s)
  end.

(** ** Starting *)

Definition fetchLastIndexedBlockNumFromDB (db : DB) : result (bool * Z) :=
  match GetFromIndexesCF db lastIndexedBlockKey with
  | Err => Err
  | Ok None => Ok (false, 0)
  | Ok (Some b) => Ok (true, decodeBlockNumber b)
  end.

Definition newBlockchainIndexerState (db : DB) : result blockchainIndexerState :=
  match fetchLastIndexedBlockNumFromDB db with
  | Err => Err
  | Ok (zeroth, last) => Ok (mkIndexerState zeroth last false)
  end.

(** The loop of [indexPendingBlocks], [n] times: the error of
    [createIndexesInternal] is dropped. *)
Fixpoint indexPendingLoop (n : nat) (lastIndexedBlockNum : Z) (db : DB) (s : blockchainIndexerState)
    : result (DB * blockchainIndexerState) :=
  match n with
  | O => Ok (db, s)
  | S n =>
    let blockNumToIndex := u64 (lastIndexedBlockNum + 1) in
    match getBlock db blockNumToIndex with
    | Err => Err
    | Ok blockToIndex =>
      match nilBlock_GetHash hash blockToIndex with
      | Err => Err
      | Ok blockHash =>
        let '(db, s) :=
          match createIndexesInternal blockToIndex blockNumToIndex blockHash db s with
          | Err => (db, s)
          | Ok dbs => dbs
          end in
        indexPendingLoop n (lastIndexedBlockNum + 1) db s
      end
    end
  end.

Definition indexPendingBlocks (db : DB) (bc : blockchain) (s : blockchainIndexerState)
    : result (DB * blockchainIndexerState) :=
  if bool_decide (getSize bc = 0) then Ok (db, s) else
  let lastCommittedBlockNum := getSize bc - 1 in
  let lastIndexedBlockNum := lastBlockIndexed s in
  if bool_decide (lastCommittedBlockNum = lastIndexedBlockNum) then Ok (db, s) else
  indexPendingLoop (Z.to_nat (lastCommittedBlockNum - lastIndexedBlockNum)) lastIndexedBlockNum db s.

Definition start (db : DB) (bc : blockchain) : result (world DB) :=
  match newBlockchainIndexerState db with
  | Err => Err
  | Ok s =>
    match indexPendingBlocks db bc s with
    | Err => Err
    | Ok (db, s) => Ok (mkWorld db bc s Receiving [] [])
    end
  end.

(** ** The committer *)

(** A commit with the asynchronous indexer, up to the send on the channel, at
    which [blockPersistenceStatus] blocks; a failed write changes nothing. *)
Definition commitAsync (now : Timestamp) (block : Block) (stateHash : bytes) (w : world DB) : option (world DB) :=
  match addPersistenceChanges hash o false now block stateHash [] (w_blockchain w) with
  | Done (Ok (block, blockNumber, writeBatch)) bc =>
    match Write (w_db w) writeBatch with
    | Err => Some w
    | Ok db =>
      last ← bc_lastProcessedBlock bc;
      Some (w <| w_db := db |>
        <| w_blockchain := bc <| size_ := u64 (size_ bc + 1) |> <| previousBlockHash := lp_blockHash last |> |>
        <| blockChan := blockChan w ++
             [mkBlockWrapper (Some (lp_block last)) (lp_blockNumber last) (lp_blockHash last) false] |>)
    end
  | Done Err _ => Some w
  | _ => None
  end.

(** ** The channel and the goroutine *)

(** The receive of the goroutine meets the oldest blocked send; the committer
    goes on, and its last assignment clears [lastProcessedBlock]. *)
Definition handOver (w : world DB) : option (world DB) :=
  match w_indexer w, blockChan w with
  | Receiving, b :: senders =>
    let w := w <| w_indexer := Received b |> <| blockChan := senders |> in
    Some (if stopNow b then w
          else w <| w_blockchain := (w_blockchain w) <| bc_lastProcessedBlock := None |> |>)
  | _, _ => None
  end.

(** [Broadcast] wakes every waiting client. *)
Definition wake (pc : clientPC) : clientPC :=
  match pc with
  | WaitingZeroth t | Waiting t => Woken t
  | _ => pc
  end.

Definition blockIndexed (blockNumber : Z) (w : world DB) : world DB :=
  w <| indexerState := setBlockIndexed blockNumber (indexerState w) |>
    <| clients := (fun c => (c.1, wake c.2)) <$> clients w |>.

Definition runIndexer (w : world DB) : option (world DB) :=
  match w_indexer w with
  | Receiving | Stopped => None
  | Received b => Some (w <| w_indexer :=
      if stopNow b then Stopped else if hasError (indexerState w) then Receiving else Indexing b |>)
  | Indexing b => Some
      match writeIndexes (w_db w) (bw_block b) (bw_blockNumber b) (bw_blockHash b) with
      | Err => w <| w_indexer := IndexFailed |>
      | Ok db => w <| w_db := db |> <| w_indexer := Indexed (bw_blockNumber b) |>
      end
  | Indexed n => Some ((blockIndexed n w) <| w_indexer := Receiving |>)
  | IndexFailed => Some (w <| indexerState := setError (indexerState w) |> <| w_indexer := Receiving |>)
  end.

(** ** Queries *)

(** The test of the second loop of [waitForLastCommittedBlock]. *)
Definition catchUp (s : blockchainIndexerState) (lastBlockCommitted : Z) : clientPC :=
  if lastBlockIndexed s <? lastBlockCommitted then Waiting lastBlockCommitted else Fetching.

Definition fetchIndex (db : DB) (q : question) : option fetched :=
  match q with
  | ByHash h => Some (BlockNumber (fetchBlockNumberByBlockHashFromDB db h))
  | ByUUID u => Some (TransactionIndex (fetchTransactionIndexByUUIDFromDB db u))
  | Stop => None
  end.

(** [None]: the client is blocked or has returned. *)
Definition clientStep (w : world DB) (q : question) (pc : clientPC) : option clientPC :=
  let s := indexerState w in
  match pc with
  | Checking => Some (if hasError s then Returned None else Sizing)
  | Sizing => Some (if bool_decide (getSize (w_blockchain w) = 0) then Fetching else Targeting)
  | Targeting => Some (Locking (u64 (getSize (w_blockchain w) - 1)))
  | Locking t => Some (if zerothBlockIndexed s then catchUp s t else WaitingZeroth t)
  | Woken t => Some (catchUp s t)
  | Fetching => Some (Returned (fetchIndex (w_db w) q))
  | WaitingZeroth _ | Waiting _ | Returned _ => None
  end.

(** [stop] does not look at the error. *)
Definition firstPC (q : question) : clientPC := match q with Stop => Sizing | _ => Checking end.

Definition runClient (i : nat) (w : world DB) : option (world DB) :=
  '(q, pc) ← clients w !! i;
  pc' ← clientStep w q pc;
  let w' := w <| clients := <[i := (q, pc')]> (clients w) |> in
  Some match q, pc with
       | Stop, Fetching => w' <| blockChan := blockChan w ++ [mkBlockWrapper None 0 [] true] |>
       | _, _ => w'
       end.

(** ** The steps *)

Inductive thread := ChannelT | IndexerT | ClientT (i : nat).

Definition runThread (t : thread) (w : world DB) : option (world DB) :=
  match t with
  | ChannelT => handOver w
  | IndexerT => runIndexer w
  | ClientT i => runClient i w
  end.

Definition internalStep (w w' : world DB) : Prop := exists t, runThread t w = Some w'.

(** The committer is one thread: it commits the next block when the send of the
    last one has returned.  Its arguments are within their Go types, and the
    block numbers do not run out. *)
Inductive worldStep (w : world DB) : world DB -> Prop :=
| step_commit now block stateHash w' :
    bc_lastProcessedBlock (w_blockchain w) = None ->
    typedTimestamp now -> typedBlock block -> size_ (w_blockchain w) + 1 < two64 ->
    commitAsync now block stateHash w = Some w' -> worldStep w w'
| step_ask q : worldStep w (w <| clients := clients w ++ [(q, firstPC q)] |>)
| step_run w' : internalStep w w' -> worldStep w w'.
End indexer.
