(* ===== verification/AsyncSpec.v ===== *)
(** The invariant of the asynchronous indexer: the blocks that are not indexed yet
    are, in order, the ones in the goroutine's hands and on the channel, and a
    waiting client waits for a block that will come. *)
From stdpp Require Import base gmap list relations.
From Stdlib Require Import ZArith Lia.
From Stdlib.Strings Require Import Byte.
From S2P Require Import Prelude GoStd GoBytes LedgerUtil KVStore Blockchain StateRefine BlockchainSpec.
From S2P Require Import AsyncIndexer.

(** Calls of [stop] are kept apart: after one the goroutine is gone. *)
Definition noStop {DB} (w : world DB) : Prop := Forall (fun c => c.1 <> Stop) (clients w).

Definition returned (pc : clientPC) : Prop := exists r, pc = Returned r.

(** The state of an indexer that has indexed [m] blocks. *)
Definition stateAt (m : nat) : blockchainIndexerState :=
  mkIndexerState (bool_decide (m <> 0%nat)) (Z.of_nat (pred m)) false.

(** The wrappers that the goroutine has still to index. *)
Definition inHand (pc : indexerPC) : list blockWrapper :=
  match pc with Received b | Indexing b => [b] | _ => [] end.

(** What a client may rely on. *)
Definition clientOK (m size : nat) (c : question * clientPC) : Prop :=
  match c.2 with
  | Locking t => 0 <= t < Z.of_nat size
  | WaitingZeroth t => 0 <= t < Z.of_nat size /\ m = 0%nat
  | Waiting t => 0 <= t < Z.of_nat size /\ Z.of_nat m <= t
  | Woken t => 0 <= t < Z.of_nat size /\ m <> 0%nat
  | Targeting => size <> 0%nat
  | _ => True
  end.

Section spec.
Context {DB : Type} `{RocksDBLaws DB} `{BlockCodecLaws} (hash : bytes -> bytes) (o : mapOrder).

(** The index has the blocks of [chain], and the number of the last of them. *)
Record indexes (db : DB) (chain : list Block) : Prop := {
  ix_hash : forall h, hashIndex hash (contents db IndexesCF) chain h;
  ix_uuid : forall u, uuidIndex (contents db IndexesCF) chain u;
  ix_last : contents db IndexesCF !! lastIndexedBlockKey =
    if decide (chain = []) then None else Some (encodeBlockNumber (height chain - 1))
}.

Definition wrapper (n : nat) (b : Block) : blockWrapper :=
  mkBlockWrapper (Some b) (Z.of_nat n) (blockHash hash b) false.

(** How many blocks the indexer's state knows of: [blockIndexed] comes after the write. *)
Definition known (pc : indexerPC) (n : nat) : nat := match pc with Indexed _ => pred n | _ => n end.

Definition pcOK (pc : indexerPC) (n : nat) : Prop :=
  match pc with
  | Indexed k => n <> 0%nat /\ k = Z.of_nat (pred n)
  | IndexFailed | Stopped => False
  | _ => True
  end.

(** [n] blocks of [chain] are indexed. *)
Record indexing (w : world DB) (chain : list Block) (n : nat) : Prop := {
  in_blocks : storedBlocks (w_db w) chain;
  in_chain : chainRel hash (w_blockchain w) chain;
  in_bound : (n <= length chain)%nat;
  in_index : indexes (w_db w) (take n chain);
  in_pending : inHand (w_indexer w) ++ blockChan w = imap (fun i => wrapper (n + i)) (drop n chain);
  in_pc : pcOK (w_indexer w) n;
  in_state : indexerState w = stateAt (known (w_indexer w) n);
  in_clients : Forall (clientOK (known (w_indexer w) n) (length chain)) (clients w)
}.

(** * The batch of a block *)

Lemma indexBatch_contents b n m m' : exists addr, Forall addressOp addr /\
  applyBatch IndexesCF m (indexBatch o (Some b) n (blockHash hash b)) =
    <[lastIndexedBlockKey := encodeBlockNumber n]> (applyBatch IndexesCF m (blockOps hash n b addr)) /\
  applyBatch BlockchainCF m' (indexBatch o (Some b) n (blockHash hash b)) = m'.
Proof.
  destruct (addIndexData_ops o b n (blockHash hash b) []) as (addr & Ha & E). exists addr. split; [done|].
  unfold indexBatch. change (default (NewBlock [] []) (Some b)) with b. rewrite !applyBatch_app, E. split.
  - unfold applyBatch, blockOps. cbn [foldl app]. rewrite !(applyOp_Put_other IndexesCF BlockchainCF) by done.
    by rewrite applyOp_Put.
  - rewrite !(applyBatch_other BlockchainCF); [done|..]; [|by repeat constructor].
    constructor; [done|]. eapply Forall_impl; [by apply indexOps_CF|]. by intros op ->.
Qed.

Lemma blocks_db db db' chain : storedBlocks db chain -> healthy db' ->
  contents db' BlockchainCF = contents db BlockchainCF -> storedBlocks db' chain.
Proof. intros [] ? E. split; rewrite ?E; done. Qed.

Lemma indexes_db db db' chain : indexes db chain -> contents db' IndexesCF = contents db IndexesCF ->
  indexes db' chain.
Proof. intros [] E. split; rewrite ?E; done. Qed.

Lemma hashIndex_lastKey m v chain h :
  hashIndex hash (<[lastIndexedBlockKey := v]> m) chain h <-> hashIndex hash m chain h.
Proof. unfold hashIndex. by rewrite lookup_insert_ne. Qed.
Lemma uuidIndex_lastKey m v chain u :
  uuidIndex (<[lastIndexedBlockKey := v]> m) chain u <-> uuidIndex m chain u.
Proof. unfold uuidIndex. by rewrite lookup_insert_ne. Qed.

(** The next block is indexed. *)
Lemma writeIndexes_ok db chain n b : storedBlocks db chain -> indexes db (take n chain) -> chain !! n = Some b ->
  exists db', writeIndexes o db (Some b) (Z.of_nat n) (blockHash hash b) = Ok db' /\
    storedBlocks db' chain /\ indexes db' (take (S n) chain).
Proof.
  intros Hs Hi Hn. pose proof (lookup_lt_Some _ _ _ Hn) as Hlt.
  destruct (Write_contents db (indexBatch o (Some b) (Z.of_nat n) (blockHash hash b)) (sb_healthy _ _ Hs))
    as (db' & Ew & Hdb' & Ec). exists db'. split; [exact Ew|].
  destruct (indexBatch_contents b (Z.of_nat n) (contents db IndexesCF) (contents db BlockchainCF))
    as (addr & Ha & Ei & Eb).
  split; [apply (blocks_db db); [done|done|by rewrite Ec]|].
  assert (height (take n chain) = Z.of_nat n) as El by (rewrite length_take_le; lia).
  rewrite (take_S_r _ _ _ Hn).
  assert (contents db' IndexesCF = <[lastIndexedBlockKey := encodeBlockNumber (Z.of_nat n)]>
    (applyBatch IndexesCF (contents db IndexesCF) (blockOps hash (height (take n chain)) b addr))) as E'.
  { by rewrite Ec, El. }
  split; rewrite E'.
  - intros h. rewrite hashIndex_lastKey. by apply hashIndex_extend, Hi.
  - intros u. rewrite uuidIndex_lastKey. by apply uuidIndex_extend, Hi.
  - rewrite lookup_insert_eq, decide_False by (by destruct (take n chain)). do 2 f_equal.
    rewrite length_app, length_take_le by lia. cbn. lia.
Qed.

(** * Starting *)

Lemma stateAt_S m n : stateAt (S n) = setBlockIndexed (Z.of_nat n) (stateAt m).
Proof. done. Qed.

Lemma newIndexerState_ok db chain n : storedBlocks db chain -> indexes db (take n chain) ->
  (n <= length chain)%nat -> newBlockchainIndexerState db = Ok (stateAt n).
Proof.
  intros Hs Hi Hn. unfold newBlockchainIndexerState, fetchLastIndexedBlockNumFromDB, GetFromIndexesCF.
  rewrite OpenchainDB_get_contents by apply Hs. rewrite (ix_last _ _ Hi). pose proof (sb_bound _ _ Hs).
  assert (length (take n chain) = n) as El by (rewrite length_take; lia).
  case_decide as E.
  - rewrite E in El. by destruct n.
  - destruct n as [|n]; [done|]. rewrite El. replace (Z.of_nat (S n) - 1) with (Z.of_nat n) by lia.
    pose proof (DecodeVarint_EncodeVarint (Z.of_nat n) [] ltac:(split; lia)) as Ed. rewrite app_nil_r in Ed.
    unfold encodeBlockNumber. destruct (EncodeVarint_cons (Z.of_nat n)) as (x & l & Ex). rewrite Ex in Ed |- *.
    cbn [mbind option_bind]. unfold decodeBlockNumber. by rewrite Ed.
Qed.

Lemma indexPendingLoop_ok k : forall db chain n s, storedBlocks db chain -> indexes db (take (S n) chain) ->
  (S n + k = length chain)%nat ->
  exists db', indexPendingLoop hash o k (Z.of_nat n) db s =
      Ok (db', if decide (k = 0%nat) then s else (stateAt (length chain)) <| err := err s |>) /\
    storedBlocks db' chain /\ indexes db' chain.
Proof.
  induction k as [|k IH]; intros db chain n s Hs Hi Hk.
  - exists db. split; [done|]. rewrite take_ge in Hi by lia. done.
  - destruct (lookup_lt_is_Some_2 chain (S n) ltac:(lia)) as [b Hb].
    destruct (blocks_lookup _ _ _ _ Hs Hb) as (Hty & _ & _ & Hu).
    destruct (writeIndexes_ok db chain (S n) b Hs Hi Hb) as (db1 & E1 & Hs1 & Hi1).
    destruct (IH db1 chain (S n) (setBlockIndexed (Z.of_nat (S n)) s) Hs1 Hi1 ltac:(lia)) as (db' & E & Hs' & Hi').
    exists db'. split; [|done]. cbn [indexPendingLoop].
    replace (Z.of_nat n + 1) with (Z.of_nat (S n)) by lia. rewrite (u64_small _ Hu). unfold getBlock.
    rewrite (fetchBlock_blocks db chain) by done. rewrite Nat2Z.id, Hb. cbn [nilBlock_GetHash].
    rewrite (GetHash_blockHash hash b Hty). unfold createIndexesInternal. rewrite E1. rewrite E.
    do 2 f_equal. case_decide; [|done]. subst k. replace (length chain) with (S (S n)) by lia. done.
Qed.

(** Starting on a chain whose first block is indexed, if there is one, catches up
    with it. *)
Lemma start_ok db bc chain n : storedBlocks db chain -> chainRel hash bc chain -> indexes db (take n chain) ->
  (n <= length chain)%nat -> chain = [] \/ n <> 0%nat ->
  exists w, start hash o db bc = Ok w /\ indexing w chain (length chain) /\
    w_blockchain w = bc /\ clients w = [] /\ blockChan w = [].
Proof.
  intros Hs [Es Ep] Hi Hn Hz. unfold start. rewrite (newIndexerState_ok db chain n) by done.
  unfold indexPendingBlocks, getSize. rewrite Es.
  assert (exists db', (if bool_decide (height chain = 0) then Ok (db, stateAt n)
    else if bool_decide (height chain - 1 = lastBlockIndexed (stateAt n)) then Ok (db, stateAt n)
    else indexPendingLoop hash o (Z.to_nat (height chain - 1 - lastBlockIndexed (stateAt n)))
      (lastBlockIndexed (stateAt n)) db (stateAt n)) = Ok (db', stateAt (length chain)) /\
    storedBlocks db' chain /\ indexes db' chain) as (db' & -> & Hs' & Hi').
  { destruct Hz as [->|Hz].
    - exists db. destruct n; [|cbn in Hn; lia]. done.
    - destruct n as [|n]; [done|]. rewrite bool_decide_eq_false_2 by lia. cbn [stateAt lastBlockIndexed pred].
      case_bool_decide as E.
      + exists db. replace (length chain) with (S n) by lia. rewrite take_ge in Hi by lia. done.
      + destruct (indexPendingLoop_ok (length chain - S n) db chain n (stateAt (S n)) Hs Hi ltac:(lia))
          as (db' & El & Hs' & Hi').
        exists db'. split; [|done]. replace (Z.to_nat (height chain - 1 - Z.of_nat n)) with (length chain - S n)%nat by lia.
        rewrite El. rewrite decide_False by lia. done. }
  eexists. split; [reflexivity|]. split; [|done]. split; cbn.
  - done.
  - done.
  - lia.
  - by rewrite take_ge by lia.
  - by rewrite drop_ge by lia.
  - done.
  - done.
  - constructor.
Qed.

(** * Steps *)

Lemma clientOK_longer m size size' c : (size <= size')%nat -> clientOK m size c -> clientOK m size' c.
Proof. destruct c as [q []]; cbn; lia. Qed.

Lemma addPersistence_async bc chain now b stateHash : chainRel hash bc chain -> height chain + 1 < two64 ->
  typedBlock (persistedBlock hash chain now b stateHash) ->
  let block := persistedBlock hash chain now b stateHash in
  addPersistenceChanges hash o false now b stateHash [] bc =
    Done (Ok (block, height chain,
        [PutCF BlockchainCF (encodeBlockNumberDBKey (height chain)) (blockData block);
         PutCF BlockchainCF blockCountKey (PutUint64 (height chain + 1))]))
      (bc <| bc_lastProcessedBlock := Some (mkLastProcessedBlock block (height chain) (blockHash hash block)) |>).
Proof.
  intros [Es Ep] Hlen Hty block. unfold addPersistenceChanges. cbv [mbind M_bind get].
  assert ((buildBlock bc b stateHash) <| block_NonHashData := Some
    match block_NonHashData (buildBlock bc b stateHash) with
    | None => mkNonHashData (Some now) []
    | Some d => d <| LocalLedgerCommitTimestamp := Some now |>
    end |> = block) as ->.
  { unfold block, persistedBlock, buildBlock, SetPreviousBlockHash. rewrite <- Ep. destruct b as [? ? ? ? ? ? [[]|]]; done. }
  cbv zeta. rewrite (GetHash_blockHash hash block Hty). unfold Block_Bytes.
  destruct (blockData_ok block Hty) as (-> & _). rewrite Es, u64_small by (split; lia). done.
Qed.

Lemma persistedBlock_typed chain now b stateHash : typedTimestamp now -> typedBlock b ->
  typedBlock (persistedBlock hash chain now b stateHash).
Proof.
  intros Hn (Hv & Ht & Htx & Hl & Hd). refine (conj Hv (conj Ht (conj Htx (conj Hl (conj Hn _))))).
  cbn. destruct (block_NonHashData b) as [d|]; [apply Hd|constructor].
Qed.

Lemma imap_snoc {A B} (f : nat -> A -> B) (l : list A) x : imap f (l ++ [x]) = imap f l ++ [f (length l) x].
Proof. rewrite imap_app. cbn. by rewrite Nat.add_0_r. Qed.

Lemma commit_indexing w chain n now b stateHash w' : indexing w chain n -> typedTimestamp now -> typedBlock b ->
  size_ (w_blockchain w) + 1 < two64 -> commitAsync hash o now b stateHash w = Some w' ->
  indexing w' (chain ++ [persistedBlock hash chain now b stateHash]) n /\ clients w' = clients w.
Proof.
  intros [Hs Hc Hn Hi Hp Hpc Hst Hcl] Hnow Hb Hlen. pose proof Hc as [Es _]. rewrite Es in Hlen.
  pose (block := persistedBlock hash chain now b stateHash).
  pose proof (persistedBlock_typed chain now b stateHash Hnow Hb) as Hty. fold block in Hty.
  unfold commitAsync. rewrite (addPersistence_async _ chain) by done. fold block.
  destruct (Write_contents (w_db w) [PutCF BlockchainCF (encodeBlockNumberDBKey (height chain)) (blockData block);
    PutCF BlockchainCF blockCountKey (PutUint64 (height chain + 1))] (sb_healthy _ _ Hs)) as (db' & -> & Hdb & Ec).
  cbn [bc_lastProcessedBlock mbind option_bind]. cbn. intros [= <-]. split; [|done].
  split; cbn.
  - eapply (blocks_extend (w_db w)); [done..|]. rewrite Ec. reflexivity.
  - split; cbn; [|unfold lastHash; by rewrite last_snoc].
    rewrite Es, u64_small by (split; lia). rewrite length_app. cbn. lia.
  - rewrite length_app. lia.
  - rewrite take_app_le by done. apply (indexes_db (w_db w)); [done|]. rewrite Ec. reflexivity.
  - rewrite drop_app_le, imap_snoc, <- Hp, app_assoc by done. f_equal. unfold wrapper. f_equal.
    rewrite length_drop. f_equal. lia.
  - done.
  - done.
  - eapply Forall_impl; [exact Hcl|]. intros c. apply clientOK_longer. rewrite length_app. lia.
Qed.

(** The block that comes next out of the pipeline. *)
Lemma pending_next n chain b rest : (n <= length chain)%nat ->
  b :: rest = imap (fun i => wrapper (n + i)) (drop n chain) ->
  exists blk, chain !! n = Some blk /\ b = wrapper n blk /\
    rest = imap (fun i => wrapper (S n + i)) (drop (S n) chain).
Proof.
  intros Hn E. destruct (drop n chain) as [|blk l] eqn:Ed; [done|]. cbn in E. injection E as -> ->.
  exists blk. assert (chain !! n = Some blk) as Hb.
  { rewrite <- (Nat.add_0_r n), <- lookup_drop, Ed. done. }
  split; [done|]. rewrite Nat.add_0_r. split; [done|].
  rewrite (drop_S _ _ _ Hb) in Ed. injection Ed as <-. apply imap_ext. intros i x _. cbn. f_equal. lia.
Qed.

Lemma handOver_indexing w chain n w' : indexing w chain n -> handOver w = Some w' ->
  indexing w' chain n /\ clients w' = clients w.
Proof.
  intros [Hs Hc Hn Hi Hp Hpc Hst Hcl]. unfold handOver.
  destruct (w_indexer w) eqn:Ew; try done. destruct (blockChan w) as [|b l] eqn:El; [done|].
  cbn [inHand app] in Hp. destruct (pending_next n chain b l Hn Hp) as (blk & Hb & -> & _). cbn [wrapper stopNow].
  intros [= <-]. split; [|done]. split; cbn; try done.
Qed.

Lemma wake_clientOK n size c : clientOK n size c -> clientOK (S n) size (c.1, wake c.2).
Proof. destruct c as [q []]; cbn; try done; lia. Qed.

Lemma runIndexer_indexing w chain n w' : indexing w chain n -> runIndexer o w = Some w' ->
  exists n', indexing w' chain n' /\ (n <= n')%nat /\
    (clients w' = clients w \/ clients w' = (fun c => (c.1, wake c.2)) <$> clients w).
Proof.
  intros [Hs Hc Hn Hi Hp Hpc Hst Hcl]. unfold runIndexer. destruct (w_indexer w) eqn:Ew; cbn in Hpc; try done.
  - cbn [inHand app] in Hp. destruct (pending_next n chain _ _ Hn Hp) as (blk & Hb & -> & _).
    cbn [wrapper stopNow]. rewrite Hst. cbn [hasError stateAt err known]. intros [= <-]. exists n.
    split; [|split; [done|by left]]. by split.
  - cbn [inHand app] in Hp. destruct (pending_next n chain _ _ Hn Hp) as (blk & Hb & -> & Hrest).
    destruct (writeIndexes_ok (w_db w) chain n blk Hs Hi Hb) as (db' & E & Hs' & Hi').
    cbn [wrapper bw_block bw_blockNumber bw_blockHash]. rewrite E. intros [= <-]. exists (S n).
    pose proof (lookup_lt_Some _ _ _ Hb). split; [|split; [lia|by left]]. by split.
  - destruct Hpc as [H0' ->]. intros [= <-]. exists n. split; [|split; [done|by right]].
    destruct n as [|n]; [done|]. cbn [known pred] in *. split; cbn; try done.
    + rewrite Hst. by destruct n.
    + apply Forall_fmap. eapply Forall_impl; [exact Hcl|]. intros c. apply wake_clientOK.
Qed.

(** ** Clients *)

Lemma catchUp_ok m size t q : 0 <= t < Z.of_nat size -> m <> 0%nat ->
  clientOK m size (q, catchUp (stateAt m) t).
Proof.
  intros Ht Hm. unfold catchUp. cbn [stateAt lastBlockIndexed]. destruct (Z.ltb_spec (Z.of_nat (pred m)) t); cbn; lia.
Qed.

Lemma clientStep_ok w chain n q pc pc' : indexing w chain n -> clientOK (known (w_indexer w) n) (length chain) (q, pc) ->
  clientStep w q pc = Some pc' -> clientOK (known (w_indexer w) n) (length chain) (q, pc').
Proof.
  intros Hw. pose proof (in_state _ _ _ Hw) as Est. destruct (in_chain _ _ _ Hw) as [Es _].
  pose proof (sb_bound _ _ (in_blocks _ _ _ Hw)) as Hb. set (m := known (w_indexer w) n) in *.
  unfold clientStep, getSize. rewrite Est, Es.
  destruct pc as [| | |t|t|t|t| |r]; cbn [clientOK snd]; intros Hok [= <-]; try done.
  - case_bool_decide; cbn; [done|lia].
  - cbn. rewrite u64_small by (split; lia). lia.
  - cbn [stateAt zerothBlockIndexed]. case_bool_decide as E; [by apply catchUp_ok|]. cbn.
    split; [done|]. destruct m; [done|]. destruct E. done.
  - apply catchUp_ok; lia.
Qed.

Lemma runClient_indexing w chain n i w' : indexing w chain n -> noStop w -> runClient i w = Some w' ->
  indexing w' chain n /\ exists q pc pc', clients w !! i = Some (q, pc) /\ clientStep w q pc = Some pc' /\
    clients w' = <[i := (q, pc')]> (clients w).
Proof.
  intros Hw Hns. unfold runClient. destruct (clients w !! i) as [[q pc]|] eqn:Ei; [|done]. cbn [mbind option_bind].
  destruct (clientStep w q pc) as [pc'|] eqn:Ep; [|done]. cbn [mbind option_bind].
  assert (q <> Stop) as Hq by exact (proj1 (Forall_lookup _ _) Hns i _ Ei).
  intros E. assert (w' = w <| clients := <[i := (q, pc')]> (clients w) |>) as ->.
  { destruct q; [by destruct pc; injection E as <-..|done]. }
  split; [|by exists q, pc, pc'].
  pose proof (proj1 (Forall_lookup _ _) (in_clients _ _ _ Hw) i _ Ei) as Hok.
  pose proof (clientStep_ok w chain n q pc pc' Hw Hok Ep) as Hok'.
  destruct Hw as [Hs Hc Hn Hi Hp Hpc Hst Hcl]. split; cbn; try done. by apply Forall_insert.
Qed.
End spec.
