(* ===== verification/AsyncTheorems.v ===== *)
(** What the asynchronous indexer guarantees: an answer covers every block committed
    before the question, every question is answered, and where it fails: after an
    error those who wait are never woken, and a first block that was committed but
    not indexed stays out of the index. *)
From stdpp Require Import base gmap list relations.
From Stdlib Require Import ZArith Lia.
From Stdlib.Strings Require Import Byte.
From S2P Require Import Prelude GoStd GoBytes LedgerUtil KVStore Blockchain StateRefine BlockchainSpec.
From S2P Require Import AsyncIndexer AsyncSpec BucketToy LedgerToy.

(** A correct answer for an index of [part]: the last block with the hash, zero for
    none; the last transaction with the uuid, an error for none. *)
Definition answers `{BlockCodec} (hash : bytes -> bytes) (part : list Block) (q : question)
    (r : option fetched) : Prop :=
  match q with
  | ByHash h => exists n, r = Some (BlockNumber (Ok n)) /\
      match chainBlock hash part h with Some b => part !! Z.to_nat n = Some b | None => n = 0 end
  | ByUUID u =>
      match chainTx part u with
      | None => r = Some (TransactionIndex Err)
      | Some tx => exists n i b, r = Some (TransactionIndex (Ok (n, i))) /\
          part !! Z.to_nat n = Some b /\ Transactions b !! Z.to_nat i = Some tx
      end
  | Stop => False
  end.
Section theorems.
Context {DB : Type} `{RocksDBLaws DB} `{BlockCodecLaws} (hash : bytes -> bytes) (o : mapOrder).

(** What the indexer may be started on: the index has a part of the chain, and the
    first block if there is one. *)
Record startable (db : DB) (bc : blockchain) (chain : list Block) (n : nat) : Prop := {
  sta_blocks : storedBlocks db chain;
  sta_chain : chainRel hash bc chain;
  sta_index : indexes hash db (take n chain);
  sta_bound : (n <= length chain)%nat;
  sta_first : chain = [] \/ n <> 0%nat
}.

Lemma noStop_before w w' : worldStep hash o w w' -> noStop w' -> noStop w.
Proof.
  intros Hst Hns. destruct Hst as [now b sh w' _ _ _ _ E|q|w' [[| |i] E]].
  - unfold commitAsync in E. destruct (addPersistenceChanges _ _ _ _ _ _ _ _) as [[[[? ?] ?]|] ?| |]; try done;
      [|by injection E as <-]. destruct (Write _ _); [|by injection E as <-].
    destruct (bc_lastProcessedBlock _); [|done]. by injection E as <-.
  - by apply Forall_app in Hns as [? _].
  - cbn in E. unfold handOver in E. destruct (w_indexer w), (blockChan w); try done. injection E as <-.
    revert Hns. by destruct (stopNow _).
  - cbn in E. unfold runIndexer in E. destruct (w_indexer w); try done; injection E as <-; try done.
    + revert Hns. by destruct (writeIndexes _ _ _ _ _).
    + exact (proj1 (Forall_fmap (fun c => (c.1, wake c.2)) (fun c => c.1 <> Stop) (clients w)) Hns).
  - cbn in E. unfold runClient in E. destruct (clients w !! i) as [[q pc]|] eqn:Ei; [|done]. cbn in E.
    destruct (clientStep w q pc) as [pc'|]; [|done]. cbn in E.
    assert (Forall (fun c => c.1 <> Stop) (<[i := (q, pc')]> (clients w))) as Hins.
    { destruct q; [by destruct pc; injection E as <-..|destruct pc; injection E as <-; exact Hns]. }
    apply Forall_lookup. intros j c Hj. destruct (decide (i = j)) as [<-|Hij].
    + rewrite Ei in Hj. injection Hj as <-.
      apply (proj1 (Forall_lookup _ _) Hins i (q, pc')). rewrite list_lookup_insert_eq; [done|].
      by apply lookup_lt_Some in Ei.
    + apply (proj1 (Forall_lookup _ _) Hins j c). by rewrite list_lookup_insert_ne.
Qed.

Lemma noStop_steps w w' : rtc (worldStep hash o) w w' -> noStop w' -> noStop w.
Proof. induction 1 as [|w w1 w2 Hst _ IH]; [done|]. intros Hns. by eapply noStop_before, IH. Qed.

(** * One client *)

(** What holds of a client that asked when the chain had [s] blocks. *)
Definition track (s : nat) (q : question) (chain : list Block) (n : nat) (pc : clientPC) : Prop :=
  match pc with
  | Checking | Sizing | Targeting => True
  | Locking t | WaitingZeroth t | Waiting t | Woken t => Z.of_nat s <= t + 1
  | Fetching => (s <= n)%nat
  | Returned r => exists k, (s <= k <= length chain)%nat /\ answers hash (take k chain) q r
  end.

Lemma fetch_answers w chain n q : indexing hash w chain n -> q <> Stop ->
  answers hash (take n chain) q (fetchIndex (w_db w) q).
Proof.
  intros Hw Hq. pose proof (in_blocks _ _ _ _ Hw) as Hs. pose proof (in_index _ _ _ _ Hw) as Hi.
  assert (take n chain `prefix_of` chain) as Hpre by apply prefix_take. destruct q as [h|u|]; [..|done].
  - destruct (fetchNumber_index hash (w_db w) chain h Hs _ Hpre (ix_hash _ _ _ Hi h)) as (k & E & _ & Hk).
    exists k. split; [|done]. cbn. by rewrite E.
  - pose proof (fetchIndex_index (w_db w) chain u Hs _ Hpre (ix_uuid _ _ _ Hi u)) as Hu. cbn.
    destruct (chainTx (take n chain) u); [|by rewrite Hu].
    destruct Hu as (k & i & b & E & _ & _ & Hk & Hti). exists k, i, b. by rewrite E.
Qed.

Lemma track_catchUp s q w chain n t : indexing hash w chain n -> known (w_indexer w) n <> 0%nat ->
  Z.of_nat s <= t + 1 -> track s q chain n (catchUp (indexerState w) t).
Proof.
  intros Hw H0' Ht. rewrite (in_state _ _ _ _ Hw). unfold catchUp. cbn [stateAt lastBlockIndexed].
  assert (known (w_indexer w) n <= n)%nat by (destruct (w_indexer w); cbn; lia).
  destruct (Z.ltb_spec (Z.of_nat (pred (known (w_indexer w) n))) t); cbn; lia.
Qed.

Lemma track_clientStep s q w chain n pc pc' : indexing hash w chain n -> (s <= length chain)%nat -> q <> Stop ->
  clientOK (known (w_indexer w) n) (length chain) (q, pc) -> clientStep w q pc = Some pc' ->
  track s q chain n pc -> track s q chain n pc'.
Proof.
  intros Hw Hs Hq Hok. pose proof (in_state _ _ _ _ Hw) as Est. destruct (in_chain _ _ _ _ Hw) as [Es _].
  pose proof (sb_bound _ _ (in_blocks _ _ _ _ Hw)) as Hb. pose proof (in_bound _ _ _ _ Hw) as Hn.
  destruct pc as [| | |t|t|t|t| |r]; cbn [clientStep clientOK snd] in *; intros [= <-] Ht; cbn [track] in Ht.
  - by rewrite Est.
  - unfold getSize. rewrite Es. case_bool_decide; cbn; [lia|done].
  - unfold getSize. rewrite Es. cbn. rewrite u64_small by (split; lia). lia.
  - destruct (zerothBlockIndexed _) eqn:E; [|done]. apply track_catchUp; [done| |done].
    rewrite Est in E. cbn in E. by apply bool_decide_eq_true in E.
  - apply track_catchUp; [done|lia|done].
  - exists n. split; [lia|]. by apply fetch_answers.
Qed.

Lemma track_longer s q chain b n n' pc : (n <= n')%nat -> track s q chain n pc -> track s q (chain ++ [b]) n' pc.
Proof.
  intros Hn. destruct pc; cbn; try done; [lia|]. intros (k & Hk & Ha). exists k. rewrite length_app.
  split; [lia|]. by rewrite take_app_le by lia.
Qed.

Lemma track_more s q chain n n' pc : (n <= n')%nat -> track s q chain n pc -> track s q chain n' pc.
Proof. intros Hn. destruct pc; cbn; try done. lia. Qed.

Lemma track_wake s q chain n pc : track s q chain n pc -> track s q chain n (wake pc).
Proof. by destruct pc. Qed.

(** A step keeps the invariant; a client is followed across it. *)
Lemma step_track w w' chain n : worldStep hash o w w' -> noStop w' -> indexing hash w chain n ->
  exists chain' n', indexing hash w' chain' n' /\ (length chain <= length chain')%nat /\
    forall s i q pc, (s <= length chain)%nat -> clients w !! i = Some (q, pc) -> track s q chain n pc ->
      exists pc', clients w' !! i = Some (q, pc') /\ track s q chain' n' pc'.
Proof.
  intros Hst Hns Hw. pose proof (noStop_before _ _ Hst Hns) as Hns0.
  destruct Hst as [now b sh w' _ Hnow Hb Hlen E|q|w' [[| |j] E]].
  - destruct (commit_indexing hash o w chain n now b sh w' Hw Hnow Hb Hlen E) as [Hw' Ec].
    eexists _, n. split; [exact Hw'|]. split; [rewrite length_app; lia|].
    intros s i q pc Hs Hi Ht. exists pc. rewrite Ec. split; [done|]. by eapply track_longer.
  - exists chain, n. split; [|split; [done|]].
    + destruct Hw. split; cbn; try done. apply Forall_app_2; [done|]. constructor; [|done]. by destruct q.
    + intros s i q' pc Hs Hi Ht. exists pc. split; [|done]. by apply lookup_app_l_Some.
  - destruct (handOver_indexing hash w chain n w' Hw E) as [Hw' Ec]. exists chain, n. split; [done|]. split; [done|].
    intros s i q pc Hs Hi Ht. exists pc. by rewrite Ec.
  - destruct (runIndexer_indexing hash o w chain n w' Hw E) as (n' & Hw' & Hn & Ec).
    exists chain, n'. split; [done|]. split; [done|]. intros s i q pc Hs Hi Ht.
    apply (track_more _ _ _ _ _ _ Hn) in Ht. destruct Ec as [Ec|Ec]; rewrite Ec; [by exists pc|].
    exists (wake pc). rewrite list_lookup_fmap, Hi. split; [done|]. by apply track_wake.
  - destruct (runClient_indexing hash w chain n j w' Hw Hns0 E) as (Hw' & qj & pj & pj' & Ej & Est & Ec).
    exists chain, n. split; [done|]. split; [done|]. intros s i q pc Hs Hi Ht. rewrite Ec.
    destruct (decide (j = i)) as [->|Hij]; [|exists pc; by rewrite list_lookup_insert_ne].
    rewrite Ej in Hi. injection Hi as -> ->. exists pj'.
    split; [apply list_lookup_insert_eq; by eapply lookup_lt_Some|].
    eapply track_clientStep; [exact Hw|done| |exact (proj1 (Forall_lookup _ _) (in_clients _ _ _ _ Hw) i _ Ej)|exact Est|done].
    exact (proj1 (Forall_lookup _ _) Hns0 i _ Ej).
Qed.

Lemma steps_indexing w w' : rtc (worldStep hash o) w w' -> noStop w' -> forall chain n, indexing hash w chain n ->
  exists chain' n', indexing hash w' chain' n' /\ (length chain <= length chain')%nat /\
    forall s i q pc, (s <= length chain)%nat -> clients w !! i = Some (q, pc) -> track s q chain n pc ->
      exists pc', clients w' !! i = Some (q, pc') /\ track s q chain' n' pc'.
Proof.
  intros Hr Hns. induction Hr as [w|w w1 w2 Hst Hr IH]; intros chain n Hw.
  - exists chain, n. split; [done|]. split; [done|]. by eauto.
  - pose proof (noStop_steps _ _ Hr Hns) as Hns1.
    destruct (step_track w w1 chain n Hst Hns1 Hw) as (c1 & n1 & Hw1 & Hl1 & Ht1).
    destruct (IH Hns c1 n1 Hw1) as (c2 & n2 & Hw2 & Hl2 & Ht2). exists c2, n2. split; [done|]. split; [lia|].
    intros s i q pc Hs Hi Ht. destruct (Ht1 s i q pc Hs Hi Ht) as (pc1 & Hi1 & Htr1).
    apply (Ht2 s i q pc1); [lia|done..].
Qed.

Lemma started_indexing db bc chain n w : startable db bc chain n -> start hash o db bc = Ok w ->
  indexing hash w chain (length chain) /\ clients w = [].
Proof.
  intros [Hs Hc Hi Hn Hz] E. destruct (start_ok hash o db bc chain n Hs Hc Hi Hn Hz) as (w1 & E1 & Hw & _ & Hcl & _).
  rewrite E1 in E. injection E as <-. done.
Qed.
End theorems.


(** * Progress *)

Definition rank (pc : clientPC) : nat :=
  match pc with
  | Checking => 7 | Sizing => 6 | Targeting => 5 | Locking _ => 4 | Woken _ => 3
  | Fetching => 2 | WaitingZeroth _ | Waiting _ => 1 | Returned _ => 0
  end.

Definition pcWork (pc : indexerPC) : nat :=
  match pc with Received _ => 3 | Indexing _ => 2 | Indexed _ | IndexFailed => 1 | Receiving | Stopped => 0 end.

Definition ranks (cs : list (question * clientPC)) : nat := sum_list ((fun c => rank c.2) <$> cs).

(** Waking the clients costs at most two for each of them. *)
Definition measure {DB} (w : world DB) : nat :=
  ranks (clients w) + (2 * length (clients w) + 1) * (4 * length (blockChan w) + pcWork (w_indexer w)).

Lemma ranks_wake cs : (ranks ((fun c => (c.1, wake c.2)) <$> cs) <= ranks cs + 2 * length cs)%nat.
Proof. unfold ranks. induction cs as [|[q []] cs IH]; cbn in *; lia. Qed.

Lemma ranks_insert cs i q pc pc' : cs !! i = Some (q, pc) -> (rank pc' < rank pc)%nat ->
  (ranks (<[i := (q, pc')]> cs) < ranks cs)%nat.
Proof.
  unfold ranks. revert i. induction cs as [|c cs IH]; intros [|i] E Hlt; cbn in *; [done|done|..].
  - injection E as ->. cbn. lia.
  - specialize (IH i E Hlt). unfold insert, list_insert in *. cbn in IH |- *. lia.
Qed.

Lemma measure_lt r r' c x x' : (r' < r + c -> x' < x -> r' + c * x' < r + c * x)%nat.
Proof. nia. Qed.

Section progress.
Context {DB : Type} `{RocksDBLaws DB} `{BlockCodecLaws} (hash : bytes -> bytes) (o : mapOrder).

Lemma clientStep_rank (w : world DB) q pc pc' : clientStep w q pc = Some pc' -> (rank pc' < rank pc)%nat.
Proof.
  destruct pc; cbn; intros [= <-]; unfold catchUp;
    repeat (case_bool_decide || case_match); cbn; lia.
Qed.

(** Every step of the threads decreases the measure. *)
Lemma internal_measure w w' chain n : indexing hash w chain n -> noStop w -> internalStep o w w' ->
  (measure w' < measure w)%nat.
Proof.
  intros Hw Hns [[| |i] E]; cbn in E.
  - unfold handOver in E. destruct (w_indexer w) eqn:Ew, (blockChan w) as [|b l] eqn:El; try done. injection E as <-.
    unfold measure. rewrite Ew, El. destruct (stopNow b); apply measure_lt; cbn -[ranks]; lia.
  - unfold runIndexer in E. unfold measure. pose proof (in_pc _ _ _ _ Hw) as Hpc.
    destruct (w_indexer w) eqn:Ew; try done; injection E as <-.
    + apply measure_lt; [cbn -[ranks]; lia|]. cbn. by repeat case_match; cbn; lia.
    + destruct (writeIndexes _ _ _ _ _); apply measure_lt; cbn -[ranks]; lia.
    + cbn -[ranks]. pose proof (ranks_wake (clients w)). rewrite length_fmap. apply measure_lt; lia.
  - destruct (runClient_indexing hash w chain n i w' Hw Hns E) as (Hw' & q & pc & pc' & Ei & Est & Ec).
    pose proof (ranks_insert _ _ _ _ _ Ei (clientStep_rank _ _ _ _ Est)).
    assert (blockChan w' = blockChan w /\ w_indexer w' = w_indexer w) as [Eb Ep].
    { unfold runClient in E. rewrite Ei in E. cbn in E. rewrite Est in E. cbn in E.
      pose proof (proj1 (Forall_lookup _ _) Hns i _ Ei) as Hq. destruct q; [by destruct pc; injection E as <-..|done]. }
    unfold measure. rewrite Ec, Eb, Ep, length_insert. lia.
Qed.

Lemma internal_noStop w w' : internalStep o w w' -> noStop w -> noStop w'.
Proof.
  intros [[| |i] E] Hns; cbn in E.
  - unfold handOver in E. destruct (w_indexer w), (blockChan w); try done. injection E as <-. by destruct (stopNow _).
  - unfold runIndexer in E. destruct (w_indexer w); try done; injection E as <-; try done.
    + by destruct (writeIndexes _ _ _ _ _).
    + apply Forall_fmap. exact Hns.
  - unfold runClient in E. destruct (clients w !! i) as [[q pc]|] eqn:Ei; [|done]. cbn in E.
    destruct (clientStep w q pc) as [pc'|]; [|done]. cbn in E.
    pose proof (proj1 (Forall_lookup _ _) Hns i _ Ei) as Hq.
    assert (Forall (fun c => c.1 <> Stop) (<[i := (q, pc')]> (clients w))) by by apply Forall_insert.
    destruct q; [by destruct pc; injection E as <-..|done].
Qed.

(** When no thread can run, everything is indexed and everyone is answered. *)
Lemma quiet_answered w chain n : indexing hash w chain n -> (forall t, runThread o t w = None) ->
  blockChan w = [] /\ Forall (fun c => returned c.2) (clients w).
Proof.
  intros Hw Hq. pose proof (Hq IndexerT) as Hqi. pose proof (Hq ChannelT) as Hqc. cbn in Hqi, Hqc.
  pose proof (in_pc _ _ _ _ Hw) as Hpc. pose proof (in_pending _ _ _ _ Hw) as Hp.
  unfold runIndexer in Hqi. unfold handOver in Hqc.
  destruct (w_indexer w) eqn:Ew; try done. destruct (blockChan w) as [|b l] eqn:El; [|done]. split; [done|].
  assert (n = length chain) as ->.
  { apply (f_equal length) in Hp. rewrite length_imap, length_drop in Hp. cbn in Hp.
    pose proof (in_bound _ _ _ _ Hw). lia. }
  pose proof (in_clients _ _ _ _ Hw) as Hcl. rewrite Ew in Hcl. cbn [known] in Hcl.
  apply Forall_lookup. intros i [q pc] Hi. pose proof (proj1 (Forall_lookup _ _) Hcl i _ Hi) as Hok.
  specialize (Hq (ClientT i)). cbn [runThread] in Hq. unfold runClient in Hq. rewrite Hi in Hq. cbn in Hq.
  destruct pc; cbn in Hq, Hok; try (by destruct q); try lia. by eexists.
Qed.
End progress.


(** * After an error *)

Section stranded.
Context {DB : Type} `{RocksDB DB} `{BlockCodec} (hash : bytes -> bytes) (o : mapOrder).

(** The goroutine has failed, or has recorded that it did. *)
Definition failed (w : world DB) : Prop :=
  match w_indexer w with
  | IndexFailed => True
  | Receiving | Received _ | Stopped => err (indexerState w) = true
  | _ => False
  end.

Lemma failed_step w w' i q t : worldStep hash o w w' -> failed w -> clients w !! i = Some (q, Waiting t) ->
  failed w' /\ clients w' !! i = Some (q, Waiting t).
Proof.
  unfold failed. intros Hst Hf Hi. destruct Hst as [now b sh w' _ _ _ _ E|q'|w' [[| |j] E]].
  - unfold commitAsync in E. destruct (addPersistenceChanges _ _ _ _ _ _ _ _) as [[[[? ?] ?]|] ?| |]; try done;
      [|by injection E as <-]. destruct (Write _ _); [|by injection E as <-].
    destruct (bc_lastProcessedBlock _); [|done]. by injection E as <-.
  - split; [done|]. cbn. by apply lookup_app_l_Some.
  - cbn in E. unfold handOver in E. destruct (w_indexer w), (blockChan w); try done. injection E as <-.
    by destruct (stopNow _).
  - cbn in E. unfold runIndexer in E. destruct (w_indexer w); try done; injection E as <-; [|done].
    split; [|done]. cbn. unfold hasError. rewrite Hf. by destruct (stopNow _).
  - cbn in E. unfold runClient in E. destruct (clients w !! j) as [[qj pj]|] eqn:Ej; [|done]. cbn in E.
    destruct (clientStep w qj pj) as [pj'|] eqn:Ep; [|done]. cbn in E.
    destruct (decide (j = i)) as [->|Hij]; [rewrite Hi in Ej; by injection Ej as <- <-|].
    assert ((<[j := (qj, pj')]> (clients w)) !! i = Some (q, Waiting t)) by by rewrite list_lookup_insert_ne.
    destruct qj, pj; by injection E as <-.
Qed.
End stranded.

(** When the write of a block's indexes fails, a query that waits for the index is
    never woken: whatever happens afterwards, commits and questions included, it
    waits on, because the error is recorded without a broadcast and no later block
    is indexed. *)
Theorem async_error_strands {DB : Type} `{RocksDB DB} `{BlockCodec} (hash : bytes -> bytes) (o : mapOrder)
    (w w1 w' : world DB) (b : blockWrapper) (i : nat) (q : question) (t : Z) :
  w_indexer w = Indexing b ->
  writeIndexes o (w_db w) (bw_block b) (bw_blockNumber b) (bw_blockHash b) = Err ->
  runIndexer o w = Some w1 -> clients w1 !! i = Some (q, Waiting t) ->
  rtc (worldStep hash o) w1 w' -> clients w' !! i = Some (q, Waiting t).
Proof.
  intros Ew Ewr E Hi Hr. unfold runIndexer in E. rewrite Ew, Ewr in E. injection E as <-.
  assert (failed (w <| w_indexer := IndexFailed |>)) as Hf by done.
  revert Hf Hi. induction Hr as [|w1 w2 w3 Hst _ IH]; intros Hf Hi; [done|].
  destruct (failed_step hash o _ _ _ _ _ Hst Hf Hi) as [Hf' Hi']. by apply IH.
Qed.

(** A first block that was committed and not indexed, by a process that stopped in
    between, is not indexed by the next start either. *)
Lemma start_skips_block_zero {DB : Type} `{RocksDBLaws DB} `{BlockCodecLaws} (hash : bytes -> bytes) (o : mapOrder)
    (db : DB) (bc : blockchain) (b : Block) : storedBlocks db [b] -> indexes hash db [] -> size_ bc = 1 ->
  exists w, start hash o db bc = Ok w /\ w_db w = db /\ clientStep w (ByHash (blockHash hash b)) (Locking 0) =
    Some (WaitingZeroth 0).
Proof.
  intros Hs Hi Es. unfold start. rewrite (newIndexerState_ok hash db [b] 0) by (done || cbn; lia).
  unfold indexPendingBlocks, getSize. rewrite Es. by eexists.
Qed.

(** * A run *)

Section run.
Context {DB : Type} `{RocksDB DB} `{BlockCodec} (hash : bytes -> bytes) (o : mapOrder).

Fixpoint runThreads (ts : list thread) (w : world DB) : option (world DB) :=
  match ts with
  | [] => Some w
  | t :: ts => w ← runThread o t w; runThreads ts w
  end.

Lemma runThreads_steps ts w w' : runThreads ts w = Some w' -> rtc (worldStep hash o) w w'.
Proof.
  revert w. induction ts as [|t ts IH]; intros w; cbn.
  - by intros [= ->].
  - destruct (runThread o t w) as [w1|] eqn:E; [|done]. cbn. intros Hr.
    eapply rtc_l; [apply step_run; by exists t|by apply IH].
Qed.

(** Open an empty chain, commit a block, ask, and let the threads run. *)
Definition opened (db : DB) : option (world DB) :=
  match start hash o db (mkBlockchain 0 [] None) with Ok w => Some w | Err => None end.

Definition asked (db : DB) (b : Block) (q : question) : option (world DB) :=
  w ← opened db;
  w ← commitAsync hash o now b [] w;
  Some (w <| clients := clients w ++ [(q, firstPC q)] |>).

Lemma asked_steps db b q w0 w : typedBlock b -> opened db = Some w0 -> asked db b q = Some w ->
  start hash o db (mkBlockchain 0 [] None) = Ok w0 /\
  (size_ (w_blockchain w0) = 0 -> bc_lastProcessedBlock (w_blockchain w0) = None -> rtc (worldStep hash o) w0 w).
Proof.
  unfold asked, opened. intros Hb. destruct (start _ _ _ _) as [w1|]; [|done]. intros [= <-]. cbn [mbind option_bind].
  destruct (commitAsync hash o now b [] w1) as [w2|] eqn:E; [|done]. intros [= <-]. split; [done|]. intros Hz Hn.
  eapply rtc_l; [|apply rtc_once, step_ask].
  apply (step_commit _ _ _ now b [] w2); [done|by split|done|by rewrite Hz|done].
Qed.
End run.

Definition toyBlock : Block := NewBlock [toyTransaction x01] [].

Lemma toyBlock_ok : typedBlock toyBlock.
Proof. repeat split; try done. by repeat constructor. Qed.

(** The client gets as far as waiting, the block is indexed, the client is woken. *)
Definition waitSteps : list thread := [ClientT 0; ClientT 0; ClientT 0; ClientT 0].
Definition indexSteps : list thread := [ChannelT; IndexerT; IndexerT; IndexerT; ClientT 0; ClientT 0].

Definition toyAsked : option (world memDB) := asked toyHash canonicalOrder emptyDB toyBlock (ByUUID [x01]).

Lemma toyStartable : startable toyHash emptyDB (mkBlockchain 0 [] None) [] 0.
Proof.
  split; [by apply empty_blocks|done| |done|by left]. assert (contents emptyDB IndexesCF = ∅) as E by done.
  destruct (empty_index toyHash _ E).
  split; [done..|]. by rewrite E.
Qed.

Definition toyDone : option (world memDB) := toyAsked ≫= runThreads canonicalOrder (waitSteps ++ indexSteps).

Lemma toyDone_returned :
  match opened toyHash canonicalOrder emptyDB, toyAsked, toyDone with
  | Some w0, Some w, Some w' =>
    (size_ (w_blockchain w0), bc_lastProcessedBlock (w_blockchain w0), size_ (w_blockchain w), clients w, clients w')
  | _, _, _ => (-1, None, -1, [], [])
  end = (0, None, 1, [(ByUUID [x01], Checking)], [(ByUUID [x01], Returned (Some (TransactionIndex (Ok (0, 0)))))]).
Proof. vm_compute. reflexivity. Qed.

Lemma toyAnswered : exists w0 w w' r, start toyHash canonicalOrder emptyDB (mkBlockchain 0 [] None) = Ok w0 /\
  rtc (worldStep toyHash canonicalOrder) w0 w /\ clients w !! 0%nat = Some (ByUUID [x01], Checking) /\
  noStop w /\ size_ (w_blockchain w) = 1 /\
  rtc (worldStep toyHash canonicalOrder) w w' /\ noStop w' /\ clients w' !! 0%nat = Some (ByUUID [x01], Returned r).
Proof.
  pose proof toyDone_returned as Hd. unfold toyDone in Hd.
  destruct (opened _ _ _) as [w0|] eqn:E0; [|done]. destruct toyAsked as [w|] eqn:E; [|done]. cbn [mbind option_bind] in Hd.
  destruct (runThreads _ _ w) as [w'|] eqn:Er; [|done]. injection Hd as Es El Es' Ec Ec'.
  unfold toyAsked in E.
  destruct (asked_steps toyHash canonicalOrder emptyDB toyBlock _ w0 w toyBlock_ok E0 E) as [Est Hr].
  exists w0, w, w', (Some (TransactionIndex (Ok (0, 0)))). unfold noStop. rewrite Ec, Ec'. split; [exact Est|].
  split; [by apply Hr|]. split; [done|]. split; [by repeat constructor|]. split; [done|].
  split; [by eapply runThreads_steps|]. split; [by repeat constructor|done].
Qed.



(** A database that takes blocks and no indexes. *)
Definition fullDB : RocksDB memDB := {|
  GetCF := GetCF;
  ScanCF := ScanCF;
  Write := fun db batch =>
    if existsb (fun op => bool_decide (opCF op = IndexesCF)) batch then Err else Write db batch;
  EmptyCF := EmptyCF
|}.

(** The indexes of the second block cannot be written, and a client waits for it. *)
Definition toyWaiting : world memDB :=
  mkWorld emptyDB (mkBlockchain 2 [] None) (stateAt 1) (Indexing (mkBlockWrapper (Some toyBlock) 1 [] false)) []
    [(ByHash [x01], Waiting 1)].

Lemma async_error_strands_witness : exists w1, runIndexer (H := fullDB) canonicalOrder toyWaiting = Some w1 /\
  forall w', rtc (worldStep (H := fullDB) toyHash canonicalOrder) w1 w' ->
    clients w' !! 0%nat = Some (ByHash [x01], Waiting 1).
Proof.
  eexists. split; [reflexivity|]. intros w' Hr.
  eapply (async_error_strands (H := fullDB) toyHash canonicalOrder toyWaiting _ w' _ 0 _ 1);
    [reflexivity|reflexivity|reflexivity|reflexivity|exact Hr].
Defined.
