(* ===== verification/ExecTransaction.v ===== *)
(** Execution of transactions, core/chaincode/exectransaction.go, against the
    interface the ledger offers to it.  Chaincode, the containers it runs in and
    the security helper are parameters. *)
From stdpp Require Import base gmap list.
From Stdlib Require Import ZArith Lia.
From S2P Require Import Prelude GoStd GoBytes LedgerUtil KVStore Blockchain Ledger.

(** * The ledger as its callers see it *)

(** The calls that the execution of transactions and the consensus helper make;
    [ID] names a batch. *)
Class LedgerCalls (S ID : Type) := {
  callBeginTxBatch : option ID -> M S (result unit);
  callGetTXBatchPreviewBlock : option ID -> list Transaction -> bytes -> M S (result Block);
  callCommitTxBatch : option ID -> list Transaction -> list TransactionResult -> bytes -> M S (result unit);
  callRollbackTxBatch : option ID -> M S (result unit);
  callTxBegin : bytes -> M S unit;
  callTxFinished : bytes -> bool -> M S unit;
  callGetTempStateHash : M S (result (option bytes));
  callGetState : bytes -> bytes -> bool -> M S (result (option bytes));
  callSetState : bytes -> bytes -> option bytes -> M S (result unit);
  callDeleteState : bytes -> bytes -> M S (result unit);
  callGetBlockByNumber : Z -> M S (ledgerResult (option Block));
  callGetBlockchainSize : M S Z
}.
#[export] Hint Mode LedgerCalls + - : typeclass_instances.

(** * Chaincode *)

Inductive ChaincodeMessageType :=
| MsgUNDEFINED | REGISTER | REGISTERED | INIT | READY | TRANSACTION | COMPLETED | ERROR | GET_STATE | PUT_STATE
| DEL_STATE | INVOKE_CHAINCODE | INVOKE_QUERY | RESPONSE | QUERY | QUERY_COMPLETED | QUERY_ERROR
| RANGE_QUERY_STATE | RANGE_QUERY_STATE_NEXT | RANGE_QUERY_STATE_CLOSE.

Record ChaincodeSecurityContext := mkChaincodeSecurityContext {
  sc_CallerCert : bytes;
  sc_CallerSign : bytes;
  sc_Payload : bytes;
  sc_Binding : bytes;
  sc_Metadata : bytes
}.

(** The timestamp, which is never set, is left out. *)
Record ChaincodeMessage := mkChaincodeMessage {
  msg_Type : ChaincodeMessageType;
  msg_Payload : bytes;
  msg_Uuid : bytes;
  msg_SecurityContext : option ChaincodeSecurityContext
}.

(** What chaincode does with the ledger until it returns: reads and writes of keys,
    each depending on what the ones before returned. *)
Inductive chaincodeRun (A : Type) : Type :=
| RunReturn (a : A)
| RunGet (chaincodeID key : bytes) (committed : bool) (k : result (option bytes) -> chaincodeRun A)
| RunPut (chaincodeID key : bytes) (value : option bytes) (k : result unit -> chaincodeRun A)
| RunDelete (chaincodeID key : bytes) (k : result unit -> chaincodeRun A).
Arguments RunReturn {A} a.
Arguments RunGet {A}.
Arguments RunPut {A}.
Arguments RunDelete {A}.

(** [ChaincodeSupport], which starts containers and talks to them: [preExecution]
    is [TransactionPreExecution] of the security helper, if there is one. *)
Class ChaincodeSupport := {
  ChaincodeInput : Type;
  marshalInput : ChaincodeInput -> result bytes;
  preExecution : option (Transaction -> result Transaction);
  DeployChaincode : Transaction -> result unit;
  LaunchChaincode : Transaction -> chaincodeRun (result (bytes * ChaincodeInput));
  ExecuteChaincode : bytes -> ChaincodeMessage -> Transaction -> chaincodeRun (result (option ChaincodeMessage))
}.

Section exec.
Context {S ID : Type} `{!LedgerCalls S ID} `{!ChaincodeSupport}.

Fixpoint interpret {A} (r : chaincodeRun A) : M S A :=
  match r with
  | RunReturn a => mret a
  | RunGet cc key committed k => v ← callGetState cc key committed; interpret (k v)
  | RunPut cc key value k => v ← callSetState cc key value; interpret (k v)
  | RunDelete cc key k => v ← callDeleteState cc key; interpret (k v)
  end.

Definition createTransactionMessage (uuid : bytes) (cMsg : ChaincodeInput) : result ChaincodeMessage :=
  match marshalInput cMsg with Err => Err | Ok payload => Ok (mkChaincodeMessage TRANSACTION payload uuid None) end.

Definition createQueryMessage (uuid : bytes) (cMsg : ChaincodeInput) : result ChaincodeMessage :=
  match marshalInput cMsg with Err => Err | Ok payload => Ok (mkChaincodeMessage QUERY payload uuid None) end.

Definition isQuery (t : Transaction) : bool := match Type_ t with CHAINCODE_QUERY => true | _ => false end.

Definition markTxBegin (t : Transaction) : M S unit := if isQuery t then mret tt else callTxBegin (Uuid t).

Definition markTxFinish (t : Transaction) (successful : bool) : M S unit :=
  if isQuery t then mret tt else callTxFinished (Uuid t) successful.

Definition executeDeploy (t : Transaction) : M S (result bytes) :=
  match DeployChaincode t with
  | Err => mret Err
  | Ok _ =>
    markTxBegin t;;
    launched ← interpret (LaunchChaincode t);
    match launched with
    | Err => markTxFinish t false;; mret Err
    | Ok _ => markTxFinish t true;; mret (Ok [])
    end
  end.

(** The response decides whether the transaction succeeded; the payload of a response of
    another type goes into the text of the error. *)
Definition finishWith (t : Transaction) (resp : result (option ChaincodeMessage)) : M S (result bytes) :=
  match resp with
  | Err | Ok None => markTxFinish t false;; mret Err
  | Ok (Some resp) =>
    match msg_Type resp with
    | COMPLETED | QUERY_COMPLETED => markTxFinish t true;; mret (Ok (msg_Payload resp))
    | _ => markTxFinish t false;; mret Err
    end
  end.

Definition executeInvoke (t : Transaction) : M S (result bytes) :=
  launched ← interpret (LaunchChaincode t);
  match launched with
  | Err => mret Err
  | Ok (chaincode, cMsg) =>
    match (if isQuery t then createQueryMessage (Uuid t) cMsg else createTransactionMessage (Uuid t) cMsg) with
    | Err => mret Err
    | Ok ccMsg =>
      markTxBegin t;;
      resp ← interpret (ExecuteChaincode chaincode ccMsg t);
      finishWith t resp
    end
  end.

Definition Execute (t : Transaction) : M S (result bytes) :=
  match (match preExecution with None => Ok t | Some f => f t end) with
  | Err => mret Err
  | Ok t =>
    match Type_ t with
    | CHAINCODE_DEPLOY => executeDeploy t
    | CHAINCODE_INVOKE | CHAINCODE_QUERY => executeInvoke t
    | _ => mret Err
    end
  end.

(** The state hash, with whether each transaction and the hash succeeded. *)
Fixpoint executeLoop (xacts : list Transaction) : M S (list (result bytes)) :=
  match xacts with
  | [] => mret []
  | t :: xacts => r ← Execute t; rs ← executeLoop xacts; mret (r :: rs)
  end.

Definition ExecuteTransactions (xacts : list Transaction) : M S (option bytes * list bool) :=
  errs ← executeLoop xacts;
  statehash ← callGetTempStateHash;
  mret (match statehash with Ok h => h | Err => None end,
    ((fun r => match r with Ok _ => true | Err => false end) <$> errs) ++
      [match statehash with Ok _ => true | Err => false end]).
End exec.
