(* ===== verification/ConsensusHelper.v ===== *)
(** The consensus helper, consensus/helper/helper.go: the batch operations that a
    consensus plugin calls, on top of the ledger and the execution of
    transactions. *)
From stdpp Require Import base gmap list.
From Stdlib Require Import ZArith Lia.
From S2P Require Import Prelude GoStd GoBytes LedgerUtil KVStore Blockchain Ledger ExecTransaction.

(** The batch that the helper collects for the commit, and the ledger. *)
Record Helper (S : Type) := mkHelper {
  curBatch : list Transaction;
  h_ledger : S
}.
Arguments mkHelper {S}.
Arguments curBatch {S}.
Arguments h_ledger {S}.

#[export] Instance Helper_eta S : Eta (Helper S) := fun h => mkHelper (curBatch h) (h_ledger h).

Section helper.
Context {S ID : Type} `{!LedgerCalls S ID} `{!ChaincodeSupport} `{BlockCodec} (hash : bytes -> bytes).

Abbreviation HM := (M (Helper S)).

(** A call of the ledger, of which [GetLedger] returns the only one. *)
Definition onLedger {A} (m : M S A) : HM A := fun h =>
  match m (h_ledger h) with
  | Done a s => Done a (h <| h_ledger := s |>)
  | Panic => Panic
  | Diverge => Diverge
  end.

Definition helper_BeginTxBatch (id : option ID) : HM (result unit) :=
  _ ←? onLedger (callBeginTxBatch id);
  modify (fun h => h <| curBatch := [] |>) ;; mret (Ok tt).

(** The errors of the transactions are dropped. *)
Definition helper_ExecTxs (id : option ID) (txs : list Transaction) : HM (result (option bytes)) :=
  res ← onLedger (ExecuteTransactions txs);
  modify (fun h => h <| curBatch := curBatch h ++ txs |>) ;;
  mret (Ok (fst res)).

(** A number out of bounds is an error too. *)
Definition blockOf (r : ledgerResult (option Block)) : result (option Block) :=
  match r with LOk b => Ok b | _ => Err end.

Definition helper_GetBlock (blockNumber : Z) : HM (result (option Block)) :=
  r ← onLedger (callGetBlockByNumber blockNumber); mret (blockOf r).

Definition helper_GetBlockchainSize : HM Z := onLedger callGetBlockchainSize.

Definition helper_CommitTxBatch (id : option ID) (metadata : bytes) : HM (result (option Block)) :=
  h ← get;
  _ ←? onLedger (callCommitTxBatch id (curBatch h) [] metadata);
  size ← helper_GetBlockchainSize;
  modify (fun h => h <| curBatch := [] |>) ;;
  helper_GetBlock (u64 (size - 1)).

Definition helper_RollbackTxBatch (id : option ID) : HM (result unit) :=
  _ ←? onLedger (callRollbackTxBatch id);
  modify (fun h => h <| curBatch := [] |>) ;; mret (Ok tt).

Definition helper_PreviewCommitTxBatch (id : option ID) (metadata : bytes) : HM (result Block) :=
  h ← get; onLedger (callGetTXBatchPreviewBlock id (curBatch h) metadata).

Definition helper_GetCurrentStateHash : HM (result (option bytes)) := onLedger callGetTempStateHash.

Definition helper_HashBlock (block : option Block) : result bytes := nilBlock_GetHash hash block.
End helper.
