(* ===== verification/Executor.v ===== *)
(** The executor of the PBFT plugins, consensus/obcpbft/obc-executor.go: a queue of
    ordered requests and the thread that executes them, commits them as blocks,
    validates them with the orderer if asked to, and starts state transfer. *)
From stdpp Require Import base gmap list.
From Stdlib Require Import ZArith Lia.
From S2P Require Import Prelude GoStd GoBytes LedgerUtil KVStore Blockchain Ledger ExecTransaction ConsensusHelper.

Record ExecutionInfo := mkExecutionInfo {
  ei_Checkpoint : bool;
  ei_Validate : bool;
  ei_Null : bool
}.

Record BlockInfo := mkBlockInfo {
  bi_BlockNumber : Z;
  bi_BlockHash : bytes
}.

(** A [transaction] of the queue; the pointer to it is the id of its batch, and
    batch ids are compared with [reflect.DeepEqual]. *)
Record request := mkRequest {
  rq_seqNo : Z;
  rq_txs : list Transaction;
  rq_execInfo : option ExecutionInfo;
  rq_sync : bool
}.

Record syncTarget (PeerID : Type) := mkSyncTarget {
  st_seqNo : Z;
  st_peerIDs : list PeerID;
  st_blockInfo : BlockInfo;
  st_execInfo : option ExecutionInfo
}.
Arguments mkSyncTarget {PeerID}.
Arguments st_seqNo {PeerID}.
Arguments st_peerIDs {PeerID}.
Arguments st_blockInfo {PeerID}.
Arguments st_execInfo {PeerID}.

#[export] Instance ExecutionInfo_eq_dec : EqDecision ExecutionInfo.
Proof. solve_decision. Defined.
#[export] Instance request_eq_dec : EqDecision request.
Proof. solve_decision. Defined.

(** Calls of the orderer. *)
Inductive ordererCall :=
| CallStartup (seqNo : Z) (id : bytes)
| CallCheckpoint (seqNo : Z) (id : bytes).

(** [proto.Marshal] and [proto.Unmarshal] on block infos. *)
Class BlockInfoCodec := {
  marshalBlockInfo : BlockInfo -> result bytes;
  unmarshalBlockInfo : bytes -> result BlockInfo
}.

(** What else the executor uses: the orderer's [Validate], and state transfer, which
    changes the ledger and ends with the target it reached ([None]: the thread is
    told to exit). *)
Class ExecutorEnv (S PeerID : Type) := {
  orderer_Validate : Z -> bytes -> bool * option bytes * list PeerID;
  stateTransfer : list (syncTarget PeerID) -> M S (option (syncTarget PeerID))
}.

(** [syncTargets] holds the targets of the goroutines that [validate] leaves
    blocked on that channel. *)
Record obcExecutor (S PeerID : Type) := mkObcExecutor {
  ex_lastExec : Z;
  ex_helper : Helper S;
  syncTargets : list (syncTarget PeerID);
  ordererCalls : list ordererCall
}.
Arguments mkObcExecutor {S PeerID}.
Arguments ex_lastExec {S PeerID}.
Arguments ex_helper {S PeerID}.
Arguments syncTargets {S PeerID}.
Arguments ordererCalls {S PeerID}.

#[export] Instance obcExecutor_eta S P : Eta (obcExecutor S P) := fun e =>
  mkObcExecutor (ex_lastExec e) (ex_helper e) (syncTargets e) (ordererCalls e).

(** * The queue *)

(** [Execute] on a queue of [queueSize] places: a full queue is drained and a
    request for state transfer takes the place of what was lost. *)
Definition enqueue (queueSize : nat) (queue : list request) (seqNo : Z) (txs : list Transaction)
    (execInfo : option ExecutionInfo) : list request :=
  let rq := mkRequest seqNo txs execInfo false in
  if (length queue <? queueSize)%nat then queue ++ [rq]
  else [mkRequest seqNo [] None true; rq].

(** [SkipTo] drains the queue. *)
Definition skipQueue (seqNo : Z) (execInfo : option ExecutionInfo) : list request :=
  [mkRequest seqNo [] execInfo true].

Section executor.
Context {S PeerID : Type} `{!LedgerCalls S request} `{!ChaincodeSupport} `{BlockCodec} `{!BlockInfoCodec}
  `{!ExecutorEnv S PeerID}.
Context (hash : bytes -> bytes).

Abbreviation X := (M (obcExecutor S PeerID)).

Definition onHelper {A} (m : M (Helper S) A) : X A := fun e =>
  match m (ex_helper e) with
  | Done a h => Done a (e <| ex_helper := h |>)
  | Panic => Panic
  | Diverge => Diverge
  end.

Definition callOrderer (c : ordererCall) : X unit :=
  modify (fun e => e <| ordererCalls := ordererCalls e ++ [c] |>).

Definition getBlockchainSize : X Z := onHelper helper_GetBlockchainSize.

(** A block that cannot be hashed panics. *)
Definition hashBlock (block : option Block) : X bytes :=
  match helper_HashBlock hash block with Ok h => mret h | Err => panic end.

Definition rollback (tx : request) : X unit :=
  r ← onHelper (helper_RollbackTxBatch (Some tx));
  match r with Ok _ => mret tt | Err => panic end.

(** Logging the fields of a nil id panics. *)
Definition createID (id : option BlockInfo) : X (result bytes) :=
  match id with None => panic | Some id => mret (marshalBlockInfo id) end.

Definition getCurrentInfo : X (result BlockInfo) :=
  height ← getBlockchainSize;
  if bool_decide (height = 0) then mret Err else
  headBlock ←? onHelper (helper_GetBlock (height - 1));
  blockHash ← hashBlock headBlock;
  mret (Ok (mkBlockInfo (height - 1) blockHash)).

(** ** One batch *)

Definition prepareCommit (tx : request) : X (result unit) :=
  _ ←? onHelper (helper_BeginTxBatch (Some tx));
  r ← onHelper (helper_ExecTxs (Some tx) (rq_txs tx));
  match r with
  | Err => rollback tx ;; mret Err
  | Ok _ => mret (Ok tt)
  end.

Definition commit (tx : request) : X (result bytes) :=
  r ← onHelper (helper_CommitTxBatch (Some tx) []);
  match r with
  | Err => rollback tx ;; mret Err
  | Ok block =>
    modify (fun e => e <| ex_lastExec := rq_seqNo tx |>) ;;
    id ← hashBlock block;
    mret (Ok id)
  end.

(** The deferred function of [validate] rolls the batch back when the result is an
    error; it is registered after the preview. *)
Definition deferRollback (tx : request) (m : X (result bool)) : X (result bool) :=
  r ← m;
  match r with Err => rollback tx ;; mret Err | Ok b => mret (Ok b) end.

Definition validateBody (tx : request) (block : Block) : X (result bool) :=
  blockHeight ← getBlockchainSize;
  blockHashBytes ← hashBlock (Some block);
  idAsBytes ← createID (Some (mkBlockInfo blockHeight blockHashBytes));
  match idAsBytes with
  | Err => mret Err
  | Ok idAsBytes =>
    let '(commit, correctedIDAsBytes, peerIDs) := orderer_Validate (rq_seqNo tx) idAsBytes in
    if negb commit then mret Err else
    match correctedIDAsBytes with
    | None => mret (Ok false)
    | Some correctedIDAsBytes =>
      rollback tx ;;
      match unmarshalBlockInfo correctedIDAsBytes with
      | Err => mret Err
      | Ok correctedID =>
        modify (fun e => e <| syncTargets := syncTargets e ++
          [mkSyncTarget (rq_seqNo tx) peerIDs correctedID None] |>) ;;
        mret (Ok true)
      end
    end
  end.

Definition validate (tx : request) : X (result bool) :=
  block ←? onHelper (helper_PreviewCommitTxBatch (Some tx) []);
  deferRollback tx (validateBody tx block).

(** [sync] with [true]: state transfer is needed. *)
Definition execute (tx : request) : X (result (bool * option BlockInfo)) :=
  _ ←? prepareCommit tx;
  sync ←? (if from_option ei_Validate false (rq_execInfo tx) then validate tx else mret (Ok false));
  if (sync : bool) then mret (Ok (true, None)) else
  blockHash ←? commit tx;
  blockHeight ← getBlockchainSize;
  mret (Ok (false, Some (mkBlockInfo (u64 (blockHeight - 1)) blockHash))).

Definition sync : X (option (Z * BlockInfo * option ExecutionInfo)) :=
  e ← get;
  modify (fun e => e <| syncTargets := [] |>) ;;
  finish ← onHelper (onLedger (stateTransfer (syncTargets e)));
  match finish with
  | None => mret None
  | Some finish =>
    modify (fun e => e <| ex_lastExec := st_seqNo finish |>) ;;
    mret (Some (st_seqNo finish, st_blockInfo finish, st_execInfo finish))
  end.

(** ** The thread *)

(** [if execInfo.Checkpoint { ... }]; a nil [execInfo] panics, and so does a nil
    [id] that is logged. *)
Definition sendCheckpoint (seqNo : Z) (id : option BlockInfo) (execInfo : option ExecutionInfo) : X unit :=
  match execInfo with
  | None => panic
  | Some execInfo =>
    when (ei_Checkpoint execInfo) (
      idAsBytes ← createID id;
      callOrderer (CallCheckpoint seqNo (match idAsBytes with Ok b => b | Err => [] end)))
  end.

(** The body of the loop of [queueThread] for a request taken from the queue. *)
Definition processRequest (tx : request) : X unit :=
  _ ← getBlockchainSize;
  e ← get;
  if rq_seqNo tx <=? ex_lastExec e then mret tt else
  let execInfo := default (mkExecutionInfo false false false) (rq_execInfo tx) in
  let tx := mkRequest (rq_seqNo tx) (rq_txs tx) (Some execInfo) (rq_sync tx) in
  outcome ← (if rq_sync tx then mret (Ok (true, 0, None))
    else if ei_Null execInfo then
      id ← getCurrentInfo;
      mret match id with Err => Err | Ok id => Ok (false, rq_seqNo tx, Some id) end
    else
      r ← execute tx;
      mret match r with Err => Err | Ok (sync, id) => Ok (sync, 0, id) end);
  match outcome with
  | Err => mret tt
  | Ok (false, seqNo, id) => sendCheckpoint seqNo id (Some execInfo)
  | Ok (true, _, _) =>
    finish ← sync;
    match finish with
    | None => mret tt
    | Some (seqNo, id, execInfo) => sendCheckpoint seqNo (Some id) execInfo
    end
  end.

(** The error of [getCurrentInfo] is overwritten: on an empty chain the nil id
    panics. *)
Definition startup : X unit :=
  bi ← getCurrentInfo;
  idAsBytes ← createID (match bi with Ok bi => Some bi | Err => None end);
  match idAsBytes with
  | Err => panic
  | Ok idAsBytes => callOrderer (CallStartup 0 idAsBytes)
  end.

Definition queueThread (queue : list request) : X unit := startup ;; forM_ queue processRequest.
End executor.
