(* ===== verification/Replicas.v ===== *)
(** Two replicas that execute the same requests: a relation between two ledgers,
    as an interface, and that the execution of transactions, the consensus helper
    and the executor preserve it. *)
From stdpp Require Import base gmap list.
From Stdlib Require Import ZArith Lia.
From S2P Require Import Prelude GoStd GoBytes LedgerUtil KVStore Blockchain Ledger.
From S2P Require Import ExecTransaction ConsensusHelper Executor.

(** Both programs return, and their results are related. *)
Definition both {S1 S2 A1 A2} (m1 : M S1 A1) (m2 : M S2 A2) (s1 : S1) (s2 : S2)
    (Q : A1 -> S1 -> A2 -> S2 -> Prop) : Prop :=
  exists x1 t1 x2 t2, m1 s1 = Done x1 t1 /\ m2 s2 = Done x2 t2 /\ Q x1 t1 x2 t2.

Section both.
Context {S1 S2 : Type}.

Lemma both_ret {A1 A2} (x1 : A1) (x2 : A2) (s1 : S1) (s2 : S2) Q : Q x1 s1 x2 s2 -> both (mret x1) (mret x2) s1 s2 Q.
Proof. intros HQ. by exists x1, s1, x2, s2. Qed.

Lemma both_bind {A1 A2 B1 B2} (m1 : M S1 A1) (m2 : M S2 A2) (k1 : A1 -> M S1 B1) (k2 : A2 -> M S2 B2) s1 s2 Q :
  both m1 m2 s1 s2 (fun x1 t1 x2 t2 => both (k1 x1) (k2 x2) t1 t2 Q) -> both (m1 ≫= k1) (m2 ≫= k2) s1 s2 Q.
Proof.
  intros (x1 & t1 & x2 & t2 & E1 & E2 & y1 & u1 & y2 & u2 & F1 & F2 & HQ). exists y1, u1, y2, u2.
  cbv [mbind M_bind]. by rewrite E1, E2, F1, F2.
Qed.

Lemma both_mono {A1 A2} (m1 : M S1 A1) (m2 : M S2 A2) s1 s2 (Q Q' : A1 -> S1 -> A2 -> S2 -> Prop) :
  both m1 m2 s1 s2 Q -> (forall x1 t1 x2 t2, Q x1 t1 x2 t2 -> Q' x1 t1 x2 t2) -> both m1 m2 s1 s2 Q'.
Proof. intros (x1 & t1 & x2 & t2 & E1 & E2 & HQ) HQ'. exists x1, t1, x2, t2. auto. Qed.

Lemma both_get {Q : S1 -> S1 -> S2 -> S2 -> Prop} s1 s2 : Q s1 s1 s2 s2 -> both get get s1 s2 Q.
Proof. intros HQ. by exists s1, s1, s2, s2. Qed.

Lemma both_modify f1 f2 (s1 : S1) (s2 : S2) Q : Q tt (f1 s1) tt (f2 s2) -> both (modify f1) (modify f2) s1 s2 Q.
Proof. intros HQ. by exists tt, (f1 s1), tt, (f2 s2). Qed.
End both.

(** * The relation, as an interface *)

(** [pairRel k n u id s1 s2]: the two ledgers have the same state and blocks with
    the same hashes, [n] of them with room for [k] more; transaction [u] is in
    progress, in batch [id]. *)
Class LedgerPair (S1 S2 ID : Type) `{!LedgerCalls S1 ID} `{!LedgerCalls S2 ID} `{BlockCodec} (hash : bytes -> bytes) := {
  pairRel : nat -> Z -> bytes -> option ID -> S1 -> S2 -> Prop;
  pair_less : forall k n u id s1 s2, pairRel (S k) n u id s1 s2 -> pairRel k n u id s1 s2;
  pair_Begin : forall k n u id s1 s2, pairRel k n u None s1 s2 ->
    both (callBeginTxBatch id) (callBeginTxBatch id) s1 s2
      (fun x1 t1 x2 t2 => x1 = Ok tt /\ x2 = Ok tt /\ pairRel k n u id t1 t2);
  pair_Commit : forall k n id txs metadata s1 s2, pairRel (S k) n [] id s1 s2 ->
    Forall typedTransaction txs -> Z.of_nat (length txs) < 2 ^ 63 ->
    both (callCommitTxBatch id txs [] metadata) (callCommitTxBatch id txs [] metadata) s1 s2
      (fun x1 t1 x2 t2 => x1 = Ok tt /\ x2 = Ok tt /\ pairRel k (n + 1) [] None t1 t2);
  pair_TxBegin : forall k n u id s1 s2, pairRel k n [] id s1 s2 ->
    both (callTxBegin u) (callTxBegin u) s1 s2 (fun _ t1 _ t2 => pairRel k n u id t1 t2);
  pair_TxFinished : forall k n u id ok s1 s2, pairRel k n u id s1 s2 ->
    both (callTxFinished u ok) (callTxFinished u ok) s1 s2 (fun _ t1 _ t2 => pairRel k n [] id t1 t2);
  pair_Hash : forall k n u id s1 s2, pairRel k n u id s1 s2 ->
    both callGetTempStateHash callGetTempStateHash s1 s2
      (fun x1 t1 x2 t2 => x1 = x2 /\ pairRel k n u id t1 t2);
  pair_Get : forall k n u id cc key committed s1 s2, pairRel k n u id s1 s2 ->
    both (callGetState cc key committed) (callGetState cc key committed) s1 s2
      (fun x1 t1 x2 t2 => x1 = x2 /\ pairRel k n u id t1 t2);
  pair_Set : forall k n u id cc key value s1 s2, pairRel k n u id s1 s2 -> u <> [] -> stateKeyDelimiter ∉ cc ->
    both (callSetState cc key value) (callSetState cc key value) s1 s2
      (fun x1 t1 x2 t2 => x1 = x2 /\ pairRel k n u id t1 t2);
  pair_Delete : forall k n u id cc key s1 s2, pairRel k n u id s1 s2 -> u <> [] -> stateKeyDelimiter ∉ cc ->
    both (callDeleteState cc key) (callDeleteState cc key) s1 s2
      (fun x1 t1 x2 t2 => x1 = x2 /\ pairRel k n u id t1 t2);
  pair_Size : forall k n u id s1 s2, pairRel k n u id s1 s2 ->
    both callGetBlockchainSize callGetBlockchainSize s1 s2
      (fun x1 t1 x2 t2 => x1 = n /\ x2 = n /\ is_u64 n /\ pairRel k n u id t1 t2);
  pair_Block : forall k n u id m s1 s2, pairRel k n u id s1 s2 -> 0 <= m < n ->
    both (callGetBlockByNumber m) (callGetBlockByNumber m) s1 s2
      (fun x1 t1 x2 t2 => exists b1 b2 h, x1 = LOk (Some b1) /\ x2 = LOk (Some b2) /\
        Block_GetHash hash b1 = Ok h /\ Block_GetHash hash b2 = Ok h /\ pairRel k n u id t1 t2)
}.

(** * Chaincode that keeps the rules *)

(** Writes only inside a transaction, and to chaincode ids without the delimiter. *)
Fixpoint wfRun {A} (inTx : bool) (r : chaincodeRun A) : Prop :=
  match r with
  | RunReturn _ => True
  | RunGet _ _ _ k => forall v, wfRun inTx (k v)
  | RunPut cc _ _ k => inTx = true /\ (stateKeyDelimiter ∉ cc) /\ forall v, wfRun inTx (k v)
  | RunDelete cc _ k => inTx = true /\ (stateKeyDelimiter ∉ cc) /\ forall v, wfRun inTx (k v)
  end.

(** Starting a container for anything but a deployment, and queries, write nothing;
    decrypting a transaction keeps an id. *)
Class WfChaincode `{!ChaincodeSupport} := {
  wf_preExecution : forall f t t', preExecution = Some f -> f t = Ok t' -> Uuid t <> [] -> Uuid t' <> [];
  wf_Launch : forall t, wfRun (match Type_ t with CHAINCODE_DEPLOY => true | _ => false end) (LaunchChaincode t);
  wf_Execute : forall cc msg t, wfRun (negb (isQuery t)) (ExecuteChaincode cc msg t)
}.

Section execution.
Context {S1 S2 ID : Type} `{!LedgerCalls S1 ID} `{!LedgerCalls S2 ID} `{BlockCodec} (hash : bytes -> bytes)
  `{!LedgerPair S1 S2 ID hash} `{!ChaincodeSupport} `{!WfChaincode}.

Lemma interpret_both {A} (r : chaincodeRun A) : forall k n u id s1 s2, pairRel k n u id s1 s2 ->
  wfRun (negb (bool_decide (u = []))) r ->
  both (interpret r) (interpret r) s1 s2 (fun x1 t1 x2 t2 => x1 = x2 /\ pairRel k n u id t1 t2).
Proof.
  induction r as [a|cc key c r IH|cc key v r IH|cc key r IH]; intros k n u id s1 s2 Hp Hwf; cbn [interpret wfRun] in *.
  - by apply both_ret.
  - apply both_bind. eapply both_mono; [by apply pair_Get|]. cbn. intros x ? ? ? [<- Hp']. by apply IH.
  - destruct Hwf as (Hu & Hcc & Hr). assert (u <> []) by (by destruct u).
    apply both_bind. eapply both_mono; [by apply pair_Set|]. cbn. intros x ? ? ? [<- Hp']. by apply IH.
  - destruct Hwf as (Hu & Hcc & Hr). assert (u <> []) by (by destruct u).
    apply both_bind. eapply both_mono; [by apply pair_Delete|]. cbn. intros x ? ? ? [<- Hp']. by apply IH.
Qed.

Lemma markTxBegin_both k n id t s1 s2 : pairRel k n [] id s1 s2 ->
  both (markTxBegin t) (markTxBegin t) s1 s2
    (fun _ t1 _ t2 => pairRel k n (if isQuery t then [] else Uuid t) id t1 t2).
Proof. intros Hp. unfold markTxBegin. destruct (isQuery t); [by apply both_ret|by apply pair_TxBegin]. Qed.

Lemma markTxFinish_both k n id t ok s1 s2 : pairRel k n (if isQuery t then [] else Uuid t) id s1 s2 ->
  both (markTxFinish t ok) (markTxFinish t ok) s1 s2 (fun _ t1 _ t2 => pairRel k n [] id t1 t2).
Proof. intros Hp. unfold markTxFinish. destruct (isQuery t); [by apply both_ret|by apply pair_TxFinished]. Qed.

(** A transaction that ends the same way on both sides. *)
Lemma finish_both {A} k n id t ok (r : A) s1 s2 : pairRel k n (if isQuery t then [] else Uuid t) id s1 s2 ->
  both (markTxFinish t ok;; mret r) (markTxFinish t ok;; mret r) s1 s2
    (fun x1 t1 x2 t2 => x1 = x2 /\ pairRel k n [] id t1 t2).
Proof.
  intros Hp. apply both_bind. eapply both_mono; [by apply markTxFinish_both|]. cbn. intros _ ? _ ? ?. by apply both_ret.
Qed.

Lemma finishWith_both k n id t resp s1 s2 : pairRel k n (if isQuery t then [] else Uuid t) id s1 s2 ->
  both (finishWith t resp) (finishWith t resp) s1 s2 (fun x1 t1 x2 t2 => x1 = x2 /\ pairRel k n [] id t1 t2).
Proof.
  intros Hp. unfold finishWith. destruct resp as [[resp|]|]; [destruct (msg_Type resp)|..]; by apply finish_both.
Qed.

Lemma executeDeploy_both k n id t s1 s2 : pairRel k n [] id s1 s2 -> Uuid t <> [] -> Type_ t = CHAINCODE_DEPLOY ->
  both (executeDeploy t) (executeDeploy t) s1 s2 (fun x1 t1 x2 t2 => x1 = x2 /\ pairRel k n [] id t1 t2).
Proof.
  intros Hp Hu Ht. unfold executeDeploy. destruct (DeployChaincode t); [|by apply both_ret].
  assert (isQuery t = false) as Hq by (unfold isQuery; by rewrite Ht).
  apply both_bind. eapply both_mono; [by apply markTxBegin_both|]. cbn. intros _ u1 _ u2 Hp1.
  apply both_bind. eapply both_mono; [eapply interpret_both; [exact Hp1|]|].
  { rewrite Hq, bool_decide_eq_false_2 by done. pose proof (wf_Launch t) as Hl. by rewrite Ht in Hl. }
  cbn. intros x v1 ? v2 [<- Hp2]. destruct x; by apply finish_both.
Qed.

Lemma executeInvoke_both k n id t s1 s2 : pairRel k n [] id s1 s2 -> Uuid t <> [] -> Type_ t <> CHAINCODE_DEPLOY ->
  both (executeInvoke t) (executeInvoke t) s1 s2 (fun x1 t1 x2 t2 => x1 = x2 /\ pairRel k n [] id t1 t2).
Proof.
  intros Hp Hu Ht. unfold executeInvoke. apply both_bind. eapply both_mono; [eapply interpret_both; [exact Hp|]|].
  { pose proof (wf_Launch t) as Hl. by destruct (Type_ t). }
  cbn. intros x v1 ? v2 [<- Hp2]. destruct x as [[cc cMsg]|]; [|by apply both_ret].
  destruct (if isQuery t then _ else _) as [ccMsg|]; [|by apply both_ret].
  apply both_bind. eapply both_mono; [by apply markTxBegin_both|]. cbn. intros _ u1 _ u2 Hp1.
  apply both_bind. eapply both_mono; [eapply interpret_both; [exact Hp1|]|].
  { pose proof (wf_Execute cc ccMsg t) as He. destruct (isQuery t); [done|]. by rewrite bool_decide_eq_false_2. }
  cbn. intros resp w1 ? w2 [<- Hp3]. by apply finishWith_both.
Qed.

Lemma Execute_both k n id t s1 s2 : pairRel k n [] id s1 s2 -> Uuid t <> [] ->
  both (Execute t) (Execute t) s1 s2 (fun x1 t1 x2 t2 => x1 = x2 /\ pairRel k n [] id t1 t2).
Proof.
  intros Hp Hu. unfold Execute.
  assert (forall t', (match preExecution with None => Ok t | Some f => f t end) = Ok t' -> Uuid t' <> []) as Hpre.
  { intros t' E. destruct preExecution as [f|] eqn:Ef; [by eapply wf_preExecution|by injection E as <-]. }
  destruct (match preExecution with None => Ok t | Some f => f t end) as [t'|]; [|by apply both_ret].
  specialize (Hpre t' eq_refl). destruct (Type_ t') eqn:Ht.
  all: first [by apply both_ret | by apply executeDeploy_both | apply executeInvoke_both; [done|done|by rewrite Ht]].
Qed.

Lemma executeLoop_both txs : forall k n id s1 s2, pairRel k n [] id s1 s2 -> Forall (fun t => Uuid t <> []) txs ->
  both (executeLoop txs) (executeLoop txs) s1 s2 (fun x1 t1 x2 t2 => x1 = x2 /\ pairRel k n [] id t1 t2).
Proof.
  induction txs as [|t txs IH]; intros k n id s1 s2 Hp Htx; cbn [executeLoop]; [by apply both_ret|].
  apply Forall_cons in Htx as [Hu Htx]. apply both_bind. eapply both_mono; [by apply Execute_both|].
  cbn. intros x t1 ? t2 [<- Hp1]. apply both_bind. eapply both_mono; [by apply IH|].
  cbn. intros xs u1 ? u2 [<- Hp2]. by apply both_ret.
Qed.

Lemma ExecuteTransactions_both txs k n id s1 s2 : pairRel k n [] id s1 s2 -> Forall (fun t => Uuid t <> []) txs ->
  both (ExecuteTransactions txs) (ExecuteTransactions txs) s1 s2
    (fun x1 t1 x2 t2 => x1 = x2 /\ pairRel k n [] id t1 t2).
Proof.
  intros Hp Htx. unfold ExecuteTransactions. apply both_bind. eapply both_mono; [by apply executeLoop_both|].
  cbn. intros x t1 ? t2 [<- Hp1]. apply both_bind. eapply both_mono; [by apply pair_Hash|].
  cbn. intros h u1 ? u2 [<- Hp2]. by apply both_ret.
Qed.
End execution.

(** * The helper and the executor *)

(** Requests that are executed and not validated, with transactions of Go's types
    that have an id. *)
Record wfRequest (rq : request) : Prop := {
  wfr_sync : rq_sync rq = false;
  wfr_validate : from_option ei_Validate false (rq_execInfo rq) = false;
  wfr_uuid : Forall (fun t => Uuid t <> []) (rq_txs rq);
  wfr_typed : Forall typedTransaction (rq_txs rq);
  wfr_length : Z.of_nat (length (rq_txs rq)) < 2 ^ 63
}.

(** The requests of a queue that become blocks: those ordered after the last one
    executed that are not null requests. *)
Definition executes (last : Z) (rq : request) : bool :=
  negb (rq_seqNo rq <=? last) && negb (from_option ei_Null false (rq_execInfo rq)).

Fixpoint executed (last : Z) (queue : list request) : list request :=
  match queue with
  | [] => []
  | rq :: queue => if executes last rq then rq :: executed (rq_seqNo rq) queue else executed last queue
  end.

Definition lastOf (last : Z) (queue : list request) : Z := foldl (fun _ rq => rq_seqNo rq) last (executed last queue).

Section executors.
Context {S1 S2 PeerID1 PeerID2 : Type} `{!LedgerCalls S1 request} `{!LedgerCalls S2 request} `{BlockCodec}
  (hash : bytes -> bytes) `{!LedgerPair S1 S2 request hash} `{!ChaincodeSupport} `{!WfChaincode} `{!BlockInfoCodec}
  `{!ExecutorEnv S1 PeerID1} `{!ExecutorEnv S2 PeerID2}.

Abbreviation Ex1 := (obcExecutor S1 PeerID1).
Abbreviation Ex2 := (obcExecutor S2 PeerID2).

(** ** The helper *)

(** Batch [id] is open and the helpers have collected the same transactions. *)
Record hRel (k : nat) (n : Z) (id : option request) (batch : list Transaction)
    (h1 : Helper S1) (h2 : Helper S2) : Prop := {
  hr_ledger : pairRel k n [] id (h_ledger h1) (h_ledger h2);
  hr_batch1 : curBatch h1 = batch;
  hr_batch2 : curBatch h2 = batch
}.

(** A call of the two ledgers. *)
Lemma onLedger_both {A1 A2} k n id k' n' id' batch (m1 : M S1 A1) (m2 : M S2 A2) (P : A1 -> A2 -> Prop) h1 h2 :
  hRel k n id batch h1 h2 ->
  both m1 m2 (h_ledger h1) (h_ledger h2) (fun x1 t1 x2 t2 => P x1 x2 /\ pairRel k' n' [] id' t1 t2) ->
  both (onLedger m1) (onLedger m2) h1 h2 (fun x1 t1 x2 t2 => P x1 x2 /\ hRel k' n' id' batch t1 t2).
Proof.
  intros [] (x1 & t1 & x2 & t2 & E1 & E2 & HP & Hp). eexists x1, _, x2, _. unfold onLedger.
  rewrite E1, E2. split; [reflexivity|]. split; [reflexivity|]. split; [done|]. by split.
Qed.

Lemma helper_Size_both k n id batch h1 h2 : hRel k n id batch h1 h2 ->
  both helper_GetBlockchainSize helper_GetBlockchainSize h1 h2
    (fun x1 t1 x2 t2 => (x1 = n /\ x2 = n /\ is_u64 n) /\ hRel k n id batch t1 t2).
Proof.
  intros Hh. apply (onLedger_both k n id); [exact Hh|]. eapply both_mono; [by eapply pair_Size, hr_ledger|]. cbn. tauto.
Qed.

Lemma helper_Block_both k n id batch m h1 h2 : hRel k n id batch h1 h2 -> 0 <= m < n ->
  both (helper_GetBlock m) (helper_GetBlock m) h1 h2
    (fun x1 t1 x2 t2 => (exists b1 b2 h, x1 = Ok (Some b1) /\ x2 = Ok (Some b2) /\
      Block_GetHash hash b1 = Ok h /\ Block_GetHash hash b2 = Ok h) /\ hRel k n id batch t1 t2).
Proof.
  intros Hh Hm. apply both_bind. eapply both_mono.
  - apply (onLedger_both k n id k n id batch _ _ (fun x1 x2 => exists b1 b2 h, x1 = LOk (Some b1) /\ x2 = LOk (Some b2) /\
      Block_GetHash hash b1 = Ok h /\ Block_GetHash hash b2 = Ok h)); [exact Hh|].
    eapply both_mono; [eapply pair_Block; [by eapply hr_ledger|done]|].
    cbn. intros ? ? ? ? (b1 & b2 & h & ? & ? & ? & ? & ?). split; [by exists b1, b2, h|done].
  - cbn. intros ? t1 ? t2 [(b1 & b2 & h & -> & -> & E1 & E2) Hh']. apply both_ret. split; [|done]. by exists b1, b2, h.
Qed.

Lemma helper_Begin_both k n id batch h1 h2 : hRel k n None batch h1 h2 ->
  both (helper_BeginTxBatch id) (helper_BeginTxBatch id) h1 h2
    (fun x1 t1 x2 t2 => (x1 = Ok tt /\ x2 = Ok tt) /\ hRel k n id [] t1 t2).
Proof.
  intros Hh. apply both_bind. eapply both_mono.
  - apply (onLedger_both k n None k n id batch _ _ (fun x1 x2 => x1 = Ok tt /\ x2 = Ok tt)); [exact Hh|].
    eapply both_mono; [by eapply pair_Begin, hr_ledger|]. cbn. tauto.
  - cbn. intros ? t1 ? t2 [[-> ->] []]. apply both_bind, both_modify. apply both_ret. split; [done|]. by split.
Qed.

Lemma helper_ExecTxs_both k n id batch txs h1 h2 : hRel k n id batch h1 h2 -> Forall (fun t => Uuid t <> []) txs ->
  both (helper_ExecTxs id txs) (helper_ExecTxs id txs) h1 h2
    (fun x1 t1 x2 t2 => (exists h, x1 = Ok h /\ x2 = Ok h) /\ hRel k n id (batch ++ txs) t1 t2).
Proof.
  intros Hh Htx. apply both_bind. eapply both_mono.
  - apply (onLedger_both k n id k n id batch _ _ eq); [exact Hh|].
    eapply (ExecuteTransactions_both hash); [by eapply hr_ledger|done].
  - cbn. intros x t1 ? t2 [<- [Hp E1 E2]]. apply both_bind, both_modify. apply both_ret.
    split; [by eexists|]. split; cbn; [done|by rewrite E1|by rewrite E2].
Qed.

Lemma helper_Commit_both k n id batch h1 h2 : hRel (S k) n id batch h1 h2 -> Forall typedTransaction batch ->
  Z.of_nat (length batch) < 2 ^ 63 -> 0 <= n ->
  both (helper_CommitTxBatch id []) (helper_CommitTxBatch id []) h1 h2
    (fun x1 t1 x2 t2 => (exists b1 b2 h, x1 = Ok (Some b1) /\ x2 = Ok (Some b2) /\
      Block_GetHash hash b1 = Ok h /\ Block_GetHash hash b2 = Ok h) /\ hRel k (n + 1) None [] t1 t2).
Proof.
  intros Hh Hty Hlen Hn. apply both_bind, both_get.
  rewrite (hr_batch1 _ _ _ _ _ _ Hh), (hr_batch2 _ _ _ _ _ _ Hh). apply both_bind. eapply both_mono.
  - apply (onLedger_both (S k) n id k (n + 1) None batch _ _ (fun x1 x2 => x1 = Ok tt /\ x2 = Ok tt)); [exact Hh|].
    eapply both_mono; [eapply pair_Commit; [by eapply hr_ledger|done|done]|]. cbn. tauto.
  - cbn. intros ? t1 ? t2 [[-> ->] Hh1]. apply both_bind. eapply both_mono; [by apply helper_Size_both|].
    cbn. intros ? u1 ? u2 [(-> & -> & Hu) [Hp _ _]]. apply both_bind, both_modify.
    rewrite u64_small by (unfold is_u64 in *; lia). replace (n + 1 - 1) with n by lia.
    apply helper_Block_both; [by split|lia].
Qed.

(** ** The executor *)

Record exRel (k : nat) (n : Z) (id : option request) (batch : list Transaction) (last : Z)
    (calls : list ordererCall) (e1 : Ex1) (e2 : Ex2) : Prop := {
  er_helper : hRel k n id batch (ex_helper e1) (ex_helper e2);
  er_last1 : ex_lastExec e1 = last;
  er_last2 : ex_lastExec e2 = last;
  er_calls1 : ordererCalls e1 = calls;
  er_calls2 : ordererCalls e2 = calls
}.

Lemma onHelper_both {A1 A2} k n id batch last calls k' n' id' batch' (m1 : M (Helper S1) A1) (m2 : M (Helper S2) A2)
    (P : A1 -> A2 -> Prop) e1 e2 : exRel k n id batch last calls e1 e2 ->
  both m1 m2 (ex_helper e1) (ex_helper e2) (fun x1 t1 x2 t2 => P x1 x2 /\ hRel k' n' id' batch' t1 t2) ->
  both (onHelper m1) (onHelper m2) e1 e2 (fun x1 t1 x2 t2 => P x1 x2 /\ exRel k' n' id' batch' last calls t1 t2).
Proof.
  intros [] (x1 & t1 & x2 & t2 & E1 & E2 & HP & Hp). eexists x1, _, x2, _. unfold onHelper.
  rewrite E1, E2. split; [reflexivity|]. split; [reflexivity|]. split; [done|]. by split.
Qed.

Lemma getBlockchainSize_both k n id batch last calls e1 e2 : exRel k n id batch last calls e1 e2 ->
  both getBlockchainSize getBlockchainSize e1 e2
    (fun x1 t1 x2 t2 => (x1 = n /\ x2 = n /\ is_u64 n) /\ exRel k n id batch last calls t1 t2).
Proof. intros He. eapply onHelper_both; [exact He|]. by apply helper_Size_both, He. Qed.

Lemma hashBlock_both (b1 b2 : Block) h (e1 : Ex1) (e2 : Ex2) Q : Block_GetHash hash b1 = Ok h -> Block_GetHash hash b2 = Ok h ->
  Q h e1 h e2 -> both (hashBlock hash (Some b1)) (hashBlock hash (Some b2)) e1 e2 Q.
Proof. intros E1 E2 HQ. unfold hashBlock. cbn. rewrite E1, E2. by apply both_ret. Qed.

Lemma getCurrentInfo_both k n id batch last calls e1 e2 : exRel k n id batch last calls e1 e2 ->
  both (getCurrentInfo hash) (getCurrentInfo hash) e1 e2
    (fun x1 t1 x2 t2 => (x1 = x2 /\ (0 < n -> exists h, x1 = Ok (mkBlockInfo (n - 1) h))) /\
      exRel k n id batch last calls t1 t2).
Proof.
  intros He. apply both_bind. eapply both_mono; [by apply getBlockchainSize_both|].
  cbn. intros ? t1 ? t2 [(-> & -> & Hn) He1]. case_bool_decide; [apply both_ret; split; [split; [done|lia]|done]|].
  apply both_bind. eapply both_mono.
  - eapply onHelper_both; [exact He1|]. apply helper_Block_both; [apply He1|unfold is_u64 in Hn; lia].
  - cbn. intros ? u1 ? u2 [(b1 & b2 & h & -> & -> & E1 & E2) He2]. apply both_bind.
    apply (hashBlock_both b1 b2 h); [done..|]. apply both_ret. split; [|done]. split; [done|by eexists].
Qed.

Lemma prepareCommit_both k n batch last calls tx e1 e2 : exRel k n None batch last calls e1 e2 -> wfRequest tx ->
  both (prepareCommit tx) (prepareCommit tx) e1 e2
    (fun x1 t1 x2 t2 => (x1 = Ok tt /\ x2 = Ok tt) /\ exRel k n (Some tx) (rq_txs tx) last calls t1 t2).
Proof.
  intros He Htx. apply both_bind. eapply both_mono.
  - eapply onHelper_both; [exact He|]. eapply helper_Begin_both, He.
  - cbn. intros ? t1 ? t2 [[-> ->] He1]. apply both_bind. eapply both_mono.
    + eapply onHelper_both; [exact He1|]. eapply helper_ExecTxs_both; [apply He1|apply Htx].
    + cbn. intros ? u1 ? u2 [(h & -> & ->) He2]. by apply both_ret.
Qed.

Lemma commit_both k n last calls tx e1 e2 : exRel (S k) n (Some tx) (rq_txs tx) last calls e1 e2 -> wfRequest tx -> 0 <= n ->
  both (commit hash tx) (commit hash tx) e1 e2
    (fun x1 t1 x2 t2 => (exists h, x1 = Ok h /\ x2 = Ok h) /\ exRel k (n + 1) None [] (rq_seqNo tx) calls t1 t2).
Proof.
  intros He Htx Hn. apply both_bind. eapply both_mono.
  - eapply onHelper_both; [exact He|]. eapply helper_Commit_both; [apply He|apply Htx|apply Htx|done].
  - cbn. intros ? t1 ? t2 [(b1 & b2 & h & -> & -> & E1 & E2) []]. apply both_bind, both_modify. apply both_bind.
    apply (hashBlock_both b1 b2 h); [done..|]. apply both_ret. split; [by exists h|]. by split.
Qed.

Lemma execute_both k n batch last calls tx e1 e2 : exRel (S k) n None batch last calls e1 e2 -> wfRequest tx -> 0 <= n ->
  both (execute hash tx) (execute hash tx) e1 e2
    (fun x1 t1 x2 t2 => (exists bi, x1 = Ok (false, Some bi) /\ x2 = Ok (false, Some bi)) /\
      exRel k (n + 1) None [] (rq_seqNo tx) calls t1 t2).
Proof.
  intros He Htx Hn. apply both_bind. eapply both_mono; [by eapply prepareCommit_both|].
  cbn. intros ? t1 ? t2 [[-> ->] He1]. apply both_bind. rewrite (wfr_validate _ Htx). apply both_ret.
  apply both_bind. eapply both_mono; [by eapply commit_both|].
  cbn. intros ? u1 ? u2 [(h & -> & ->) He2]. apply both_bind. eapply both_mono; [by eapply getBlockchainSize_both|].
  cbn. intros ? v1 ? v2 [(-> & -> & _) He3]. apply both_ret. split; [by eexists|done].
Qed.

Lemma sendCheckpoint_both k n batch last calls seqNo bi ei e1 e2 : exRel k n None batch last calls e1 e2 ->
  both (sendCheckpoint seqNo (Some bi) (Some ei)) (sendCheckpoint seqNo (Some bi) (Some ei)) e1 e2
    (fun _ t1 _ t2 => exists calls', exRel k n None batch last calls' t1 t2).
Proof.
  intros [Hh L1 L2 C1 C2]. unfold sendCheckpoint. destruct (ei_Checkpoint ei); cbn [when].
  - apply both_bind, both_ret. unfold callOrderer. apply both_modify. eexists. split; cbn; [done..|by rewrite C1|by rewrite C2].
  - apply both_ret. by exists calls.
Qed.

(** [execInfo] is filled in before the request is executed. *)
Lemma wfRequest_filled tx : wfRequest tx -> wfRequest (mkRequest (rq_seqNo tx) (rq_txs tx)
  (Some (default (mkExecutionInfo false false false) (rq_execInfo tx))) (rq_sync tx)).
Proof. intros [? Hv ? ? ?]. split; cbn; try done. by destruct (rq_execInfo tx). Qed.

(** The relation with the room for one block less. *)
Lemma exRel_less k n batch last calls (e1 : Ex1) (e2 : Ex2) : exRel (S k) n None batch last calls e1 e2 ->
  exRel k n None batch last calls e1 e2.
Proof. intros [[] ? ? ? ?]. split; [|done..]. split; [by apply pair_less|done..]. Qed.

Lemma processRequest_both k n batch last calls tx e1 e2 : exRel (S k) n None batch last calls e1 e2 -> wfRequest tx -> 0 <= n ->
  both (processRequest hash tx) (processRequest hash tx) e1 e2
    (fun _ t1 _ t2 => exists batch' calls',
      exRel k (if executes last tx then n + 1 else n) None batch' (if executes last tx then rq_seqNo tx else last) calls' t1 t2).
Proof.
  intros He Htx Hn. apply both_bind. eapply both_mono; [by apply getBlockchainSize_both|].
  cbn. intros ? t1 ? t2 [_ He1]. apply both_bind, both_get. rewrite (er_last1 _ _ _ _ _ _ _ _ He1), (er_last2 _ _ _ _ _ _ _ _ He1).
  unfold executes. destruct (rq_seqNo tx <=? last); cbn [negb andb].
  { apply both_ret. exists batch, calls. by apply exRel_less. }
  rewrite (wfr_sync _ Htx). cbn [rq_sync]. apply both_bind.
  assert (from_option ei_Null false (rq_execInfo tx) = ei_Null (default (mkExecutionInfo false false false) (rq_execInfo tx))) as ->
    by by destruct (rq_execInfo tx).
  destruct (ei_Null _); cbn [negb].
  - apply both_bind. eapply both_mono; [by apply getCurrentInfo_both|].
    cbn. intros x u1 ? u2 [[<- Hx] He2]. apply both_ret. destruct x as [bi|].
    + eapply both_mono; [eapply (sendCheckpoint_both k n batch last calls), exRel_less, He2|].
      cbn. intros _ ? _ ? [calls' He3]. by exists batch, calls'.
    + apply both_ret. exists batch, calls. by apply exRel_less.
  - apply both_bind. pose proof (wfRequest_filled tx Htx) as Htx'. rewrite (wfr_sync _ Htx) in Htx'.
    eapply both_mono; [eapply execute_both; [exact He1|exact Htx'|done]|].
    cbn. intros ? u1 ? u2 [(bi & -> & ->) He2]. apply both_ret.
    eapply both_mono; [by eapply sendCheckpoint_both|]. cbn. intros _ ? _ ? [calls' He3].
    by exists [], calls'.
Qed.

Lemma requests_both queue : forall k n batch last calls e1 e2, exRel (length queue + k) n None batch last calls e1 e2 ->
  Forall wfRequest queue -> 0 <= n ->
  both (forM_ queue (processRequest hash)) (forM_ queue (processRequest hash)) e1 e2
    (fun _ t1 _ t2 => exists batch' calls',
      exRel k (n + Z.of_nat (length (executed last queue))) None batch' (lastOf last queue) calls' t1 t2).
Proof.
  induction queue as [|tx queue IH]; intros k n batch last calls e1 e2 He Hq Hn; cbn [forM_].
  - apply both_ret. exists batch, calls. by rewrite Z.add_0_r.
  - apply Forall_cons in Hq as [Htx Hq]. apply both_bind.
    eapply both_mono; [eapply (processRequest_both (length queue + k)); [exact He|done|done]|].
    cbn. intros _ t1 _ t2 (b1 & c1 & He1).
    eapply both_mono; [eapply IH; [exact He1|done|destruct (executes last tx); lia]|].
    cbn. intros _ ? _ ? (b2 & c2 & He2). exists b2, c2. unfold lastOf in *. cbn [executed].
    destruct (executes last tx); [|done]. cbn [foldl length]. by rewrite Nat2Z.inj_succ, <- Z.add_1_l, Z.add_assoc.
Qed.

Lemma queueThread_both queue k n batch last calls e1 e2 : exRel (length queue + k) n None batch last calls e1 e2 ->
  Forall wfRequest queue -> 0 < n -> (forall bi, marshalBlockInfo bi <> Err) ->
  both (queueThread hash queue) (queueThread hash queue) e1 e2
    (fun _ t1 _ t2 => exists batch' calls',
      exRel k (n + Z.of_nat (length (executed last queue))) None batch' (lastOf last queue) calls' t1 t2).
Proof.
  intros He Hq Hn Hm. unfold queueThread, startup. apply both_bind. apply both_bind.
  eapply both_mono; [by apply getCurrentInfo_both|]. cbn. intros ? t1 ? t2 [[<- Hx] He1].
  destruct (Hx Hn) as [h ->]. apply both_bind, both_ret. destruct (marshalBlockInfo _) as [id|] eqn:Em; [|by destruct (Hm _ Em)].
  unfold callOrderer. apply both_modify. destruct He1 as [Hh L1 L2 C1 C2].
  eapply requests_both; [|done|lia]. split; cbn; [exact Hh|exact L1|exact L2|by rewrite C1|by rewrite C2].
Qed.
End executors.
