(* ===== verification/ReplicaLedgers.v ===== *)
(** The ledger implements the interface of its callers, and two ledgers with the
    same state and the same blocks, up to what the block hash does not cover, are a
    pair in the sense of [LedgerPair]: the databases, the orders of map iterations,
    the clocks and even the state implementations may differ. *)
From stdpp Require Import base gmap list.
From Stdlib Require Import ZArith Lia.
From S2P Require Import Prelude GoStd GoBytes LedgerUtil KVStore StateDelta StateSpec HashableState State.
From S2P Require Import StateScan StateRefine Blockchain BlockchainSpec Ledger LedgerRefine.
From S2P Require Import ExecTransaction ConsensusHelper Executor Replicas.

(** The interface; [clock] is what [util.CreateUtcTimestamp] returns. *)
Definition ledgerCalls {DB I Itr ID : Type} `{RocksDB DB} `{!HashableState DB I Itr} `{EqDecision ID} `{BlockCodec}
    `{SpecCodec} (hash : bytes -> bytes) (o : mapOrder) (clock : Ledger DB I ID -> Timestamp)
    : LedgerCalls (Ledger DB I ID) ID := {|
  callBeginTxBatch := BeginTxBatch;
  callGetTXBatchPreviewBlock := GetTXBatchPreviewBlock;
  callCommitTxBatch := fun id txs results metadata =>
    l ← get; CommitTxBatch hash o (clock l) id txs results metadata;
  callRollbackTxBatch := RollbackTxBatch;
  callTxBegin := Ledger_TxBegin;
  callTxFinished := TxFinished hash o;
  callGetTempStateHash := GetTempStateHash;
  callGetState := Ledger_GetState;
  callSetState := SetState;
  callDeleteState := Ledger_DeleteState;
  callGetBlockByNumber := fun n => gets (fun l => GetBlockByNumber l n);
  callGetBlockchainSize := gets GetBlockchainSize
|}.

(** What the hash of a block covers. *)
Definition hashed (b : Block) : Block := b <| block_NonHashData := None |>.

Definition sameBlocks (c1 c2 : list Block) : Prop := hashed <$> c1 = hashed <$> c2.

Lemma sameBlocks_length c1 c2 : sameBlocks c1 c2 -> length c1 = length c2.
Proof. intros E%(f_equal length). by rewrite !length_fmap in E. Qed.

Lemma blockHash_hashed `{BlockCodec} hash b1 b2 : hashed b1 = hashed b2 -> blockHash hash b1 = blockHash hash b2.
Proof. unfold blockHash, hashed. by intros ->. Qed.

Lemma sameBlocks_lookup c1 c2 (n : nat) b1 : sameBlocks c1 c2 -> c1 !! n = Some b1 ->
  exists b2, c2 !! n = Some b2 /\ hashed b1 = hashed b2.
Proof.
  intros E Hn. assert ((hashed <$> c1) !! n = Some (hashed b1)) as E1 by by rewrite list_lookup_fmap, Hn.
  rewrite E, list_lookup_fmap in E1. destruct (c2 !! n) as [b2|]; [|done]. exists b2. split; [done|].
  symmetry. exact (inj Some _ _ E1).
Qed.

Lemma sameBlocks_lastHash `{BlockCodec} hash c1 c2 : sameBlocks c1 c2 -> lastHash hash c1 = lastHash hash c2.
Proof.
  intros E. unfold lastHash. rewrite !last_lookup, <- (sameBlocks_length _ _ E).
  destruct (c1 !! pred (length c1)) as [b1|] eqn:E1.
  - destruct (sameBlocks_lookup _ _ _ _ E E1) as (b2 & -> & Eh). by apply blockHash_hashed.
  - destruct (c2 !! pred (length c1)) as [b2|] eqn:E2; [|done].
    apply lookup_ge_None in E1. apply lookup_lt_Some in E2. rewrite <- (sameBlocks_length _ _ E) in E2. lia.
Qed.

(** The same state, and the same blocks. *)
Record agree {ID} (a1 a2 : absLedger ID) : Prop := {
  ag_store : al_store a1 = al_store a2;
  ag_id : al_id a1 = al_id a2;
  ag_chain : sameBlocks (al_chain a1) (al_chain a2)
}.

(** The result inside an answer. *)
Lemma run_inv {S A} (m : M S A) (f : A -> answer) s ans s' : (x ← m; mret (f x)) s = Done ans s' ->
  exists x, m s = Done x s' /\ f x = ans.
Proof. cbv [mbind M_bind mret M_ret]. destruct (m s) as [x t| |]; try done. intros [= <- <-]. by exists x. Qed.

Lemma isOk_tt (r : result unit) : isOk r = true -> r = Ok tt.
Proof. by destruct r as [[]|]. Qed.

Section pair.
Context {DB1 I1 Itr1 DB2 I2 Itr2 ID : Type} `{RDB1 : RocksDB DB1} `{Laws1 : !RocksDBLaws DB1}
  `{HS1 : !HashableState DB1 I1 Itr1} `{Spec1 : !HashableStateSpec DB1 I1 Itr1}
  `{RDB2 : RocksDB DB2} `{Laws2 : !RocksDBLaws DB2}
  `{HS2 : !HashableState DB2 I2 Itr2} `{Spec2 : !HashableStateSpec DB2 I2 Itr2}
  `{EqDecision ID} `{BlockCodecLaws} `{SpecCodec}
  (hash : bytes -> bytes) (o1 o2 : mapOrder)
  (clock1 : Ledger DB1 I1 ID -> Timestamp) (clock2 : Ledger DB2 I2 ID -> Timestamp).
Hypothesis Hhash : forall s, hs_hash (HashableStateSpec := Spec1) s = hs_hash (HashableStateSpec := Spec2) s.
Hypothesis Hclock1 : forall l, typedTimestamp (clock1 l).
Hypothesis Hclock2 : forall l, typedTimestamp (clock2 l).

#[local] Instance calls1 : LedgerCalls (Ledger DB1 I1 ID) ID := ledgerCalls hash o1 clock1.
#[local] Instance calls2 : LedgerCalls (Ledger DB2 I2 ID) ID := ledgerCalls hash o2 clock2.

Definition replicaRel (k : nat) (n : Z) (u : bytes) (id : option ID) (l1 : Ledger DB1 I1 ID) (l2 : Ledger DB2 I2 ID) : Prop :=
  exists a1 a2, ledgerRel hash l1 a1 /\ ledgerRel hash l2 a2 /\ agree a1 a2 /\
    al_id a1 = id /\ st_uuid (al_store a1) = u /\ n = height (al_chain a1) /\ n + Z.of_nat k + 1 < two64.

(** One call of both. *)
Lemma op_both k n u id op1 op2 (l1 : Ledger DB1 I1 ID) (l2 : Ledger DB2 I2 ID) : replicaRel k n u id l1 l2 ->
  wfOp op1 -> wfOp op2 ->
  exists a1 a2, agree a1 a2 /\ al_id a1 = id /\ st_uuid (al_store a1) = u /\ n = height (al_chain a1) /\
    n + Z.of_nat k + 1 < two64 /\
    forall a1' a2' x1 x2, absStep hash (hs_hash (HashableStateSpec := Spec1)) a1 op1 = Some (a1', x1) ->
      absStep hash (hs_hash (HashableStateSpec := Spec2)) a2 op2 = Some (a2', x2) ->
      exists l1' l2', runOp hash o1 op1 l1 = Done x1 l1' /\ runOp hash o2 op2 l2 = Done x2 l2' /\
        ledgerRel hash l1' a1' /\ ledgerRel hash l2' a2'.
Proof.
  intros (a1 & a2 & Hr1 & Hr2 & Hag & Hid & Hu & Hn & Hk) Hwf1 Hwf2. exists a1, a2.
  split; [done|]. split; [done|]. split; [done|]. split; [done|]. split; [done|].
  intros a1' a2' x1 x2 E1 E2.
  destruct (step_rel hash o1 l1 a1 op1 a1' x1 Hr1 Hwf1 ltac:(lia) E1) as (l1' & R1 & Hr1').
  pose proof (sameBlocks_length _ _ (ag_chain _ _ Hag)) as El.
  destruct (step_rel hash o2 l2 a2 op2 a2' x2 Hr2 Hwf2 ltac:(lia) E2) as (l2' & R2 & Hr2').
  by exists l1', l2'.
Qed.

(** The same for the call inside an operation. *)
Lemma call_both {A} k n u id k' n' u' id' op1 op2 (m1 : M (Ledger DB1 I1 ID) A) (m2 : M (Ledger DB2 I2 ID) A)
    (f : A -> answer) (P : answer -> answer -> Prop) l1 l2 : replicaRel k n u id l1 l2 -> wfOp op1 -> wfOp op2 ->
  runOp hash o1 op1 l1 = (x ← m1; mret (f x)) l1 -> runOp hash o2 op2 l2 = (x ← m2; mret (f x)) l2 ->
  n' + Z.of_nat k' <= n + Z.of_nat k ->
  (forall a1 a2, agree a1 a2 -> al_id a1 = id -> st_uuid (al_store a1) = u -> n = height (al_chain a1) ->
    exists a1' a2' x1 x2, absStep hash (hs_hash (HashableStateSpec := Spec1)) a1 op1 = Some (a1', x1) /\
      absStep hash (hs_hash (HashableStateSpec := Spec2)) a2 op2 = Some (a2', x2) /\ P x1 x2 /\
      agree a1' a2' /\ al_id a1' = id' /\ st_uuid (al_store a1') = u' /\ n' = height (al_chain a1')) ->
  both m1 m2 l1 l2 (fun y1 t1 y2 t2 => P (f y1) (f y2) /\ replicaRel k' n' u' id' t1 t2).
Proof.
  intros Hp Hwf1 Hwf2 F1 F2 Hk Habs.
  destruct (op_both k n u id op1 op2 l1 l2 Hp Hwf1 Hwf2) as (a1 & a2 & Hag & Hid & Hu & Hn & Hk' & Hrun).
  destruct (Habs a1 a2 Hag Hid Hu Hn) as (a1' & a2' & x1 & x2 & E1 & E2 & HP & Hag' & Hid' & Hu' & Hn').
  destruct (Hrun a1' a2' x1 x2 E1 E2) as (l1' & l2' & R1 & R2 & Hr1 & Hr2).
  rewrite F1 in R1. rewrite F2 in R2. destruct (run_inv _ _ _ _ _ R1) as (y1 & M1 & <-).
  destruct (run_inv _ _ _ _ _ R2) as (y2 & M2 & <-). exists y1, l1', y2, l2'.
  split; [done|]. split; [done|]. split; [done|]. exists a1', a2'.
  split; [done|]. split; [done|]. split; [done|]. split; [done|]. split; [done|]. split; [done|]. lia.
Qed.

(** Calls that do not change the abstract ledger and answer alike. *)
Lemma read_both {A} k n u id op (m1 : M (Ledger DB1 I1 ID) A) (m2 : M (Ledger DB2 I2 ID) A) (f : A -> answer) l1 l2 :
  replicaRel k n u id l1 l2 -> wfOp op -> (forall x y, f x = f y -> x = y) ->
  runOp hash o1 op l1 = (x ← m1; mret (f x)) l1 -> runOp hash o2 op l2 = (x ← m2; mret (f x)) l2 ->
  (forall a1 a2, agree a1 a2 -> exists x, absStep hash (hs_hash (HashableStateSpec := Spec1)) a1 op = Some (a1, x) /\
    absStep hash (hs_hash (HashableStateSpec := Spec2)) a2 op = Some (a2, x)) ->
  both m1 m2 l1 l2 (fun x1 t1 x2 t2 => x1 = x2 /\ replicaRel k n u id t1 t2).
Proof.
  intros Hp Hwf Hf F1 F2 Habs. eapply both_mono.
  - apply (call_both k n u id k n u id op op m1 m2 f eq l1 l2 Hp Hwf Hwf F1 F2 ltac:(lia)).
    intros a1 a2 Hag Hid Hu Hn. destruct (Habs a1 a2 Hag) as (x & E1 & E2). exists a1, a2, x, x. done.
  - cbn. intros ? ? ? ? [E%Hf Hr]. done.
Qed.

Lemma replica_Begin k n u id l1 l2 : replicaRel k n u None l1 l2 ->
  both (callBeginTxBatch id) (callBeginTxBatch id) l1 l2
    (fun x1 t1 x2 t2 => x1 = Ok tt /\ x2 = Ok tt /\ replicaRel k n u id t1 t2).
Proof.
  intros Hp. eapply both_mono.
  - apply (call_both k n u None k n u id (OpBegin id) (OpBegin id) _ _ (fun r => AOk (isOk r))
      (fun x1 x2 => x1 = AOk true /\ x2 = AOk true) l1 l2 Hp Logic.I Logic.I eq_refl eq_refl ltac:(lia)).
    intros a1 a2 [Hs Hi Hc] Hid Hu Hn. cbn [absStep]. rewrite !decide_True by (by rewrite <- ?Hi).
    eexists _, _, _, _. do 2 (split; [reflexivity|]). split; [by split|]. by split; [split|].
  - cbn. intros ? ? ? ? [[[= E1] [= E2]] Hr]. by rewrite (isOk_tt _ E1), (isOk_tt _ E2).
Qed.

Lemma nextBlock_hashed a1 a2 now1 now2 txs results metadata : agree a1 a2 ->
  hashed (nextBlock (ID := ID) hash (hs_hash (HashableStateSpec := Spec1)) a1 now1 txs results metadata) =
  hashed (nextBlock hash (hs_hash (HashableStateSpec := Spec2)) a2 now2 txs results metadata).
Proof.
  intros [Hs _ Hc]. unfold nextBlock, persistedBlock, hashed. cbn.
  by rewrite (sameBlocks_lastHash hash _ _ Hc), Hs, Hhash.
Qed.

Lemma replica_Commit k n id txs metadata l1 l2 : replicaRel (S k) n [] id l1 l2 ->
  Forall typedTransaction txs -> Z.of_nat (length txs) < 2 ^ 63 ->
  both (callCommitTxBatch id txs [] metadata) (callCommitTxBatch id txs [] metadata) l1 l2
    (fun x1 t1 x2 t2 => x1 = Ok tt /\ x2 = Ok tt /\ replicaRel k (n + 1) [] None t1 t2).
Proof.
  intros Hp Htx Hlen. apply both_bind, both_get. eapply both_mono.
  - apply (call_both (S k) n [] id k (n + 1) [] None (OpCommit (clock1 l1) id txs [] metadata)
      (OpCommit (clock2 l2) id txs [] metadata) _ _ (fun r => AOk (isOk r))
      (fun x1 x2 => x1 = AOk true /\ x2 = AOk true) l1 l2 Hp); [by split; [apply Hclock1|]|by split; [apply Hclock2|]|reflexivity|reflexivity|lia|].
    intros a1 a2 Hag Hid Hu Hn. cbn [absStep]. pose proof Hag as [Hs Hi Hc].
    rewrite !decide_True by (rewrite <- ?Hi, <- ?Hs; done). eexists _, _, _, _.
    do 2 (split; [reflexivity|]). split; [done|]. cbn. split; [|split; [done|split; [done|]]].
    + split; cbn; [by rewrite Hs|done|]. unfold sameBlocks. rewrite !fmap_app, Hc. f_equal. cbn. f_equal.
      by apply nextBlock_hashed.
    + rewrite length_app. cbn. lia.
  - cbn. intros ? ? ? ? [[[= E1] [= E2]] Hr]. by rewrite (isOk_tt _ E1), (isOk_tt _ E2).
Qed.

(** Calls that change the stores alike. *)
Lemma store_both {A} k n u id u' op (m1 : M (Ledger DB1 I1 ID) A) (m2 : M (Ledger DB2 I2 ID) A) (f : A -> answer) x l1 l2 :
  replicaRel k n u id l1 l2 -> wfOp op ->
  runOp hash o1 op l1 = (x ← m1; mret (f x)) l1 -> runOp hash o2 op l2 = (x ← m2; mret (f x)) l2 ->
  (forall a1 a2, agree a1 a2 -> st_uuid (al_store a1) = u -> exists st, st_uuid st = u' /\
    absStep hash (hs_hash (HashableStateSpec := Spec1)) a1 op = Some (a1 <| al_store := st |>, x) /\
    absStep hash (hs_hash (HashableStateSpec := Spec2)) a2 op = Some (a2 <| al_store := st |>, x)) ->
  both m1 m2 l1 l2 (fun x1 t1 x2 t2 => (f x1 = x /\ f x2 = x) /\ replicaRel k n u' id t1 t2).
Proof.
  intros Hp Hwf F1 F2 Habs.
  apply (call_both k n u id k n u' id op op m1 m2 f (fun y1 y2 => y1 = x /\ y2 = x) l1 l2 Hp Hwf Hwf F1 F2 ltac:(lia)).
  intros a1 a2 Hag Hid Hu Hn. destruct (Habs a1 a2 Hag Hu) as (st & Hst & E1 & E2). destruct Hag as [Hs Hi Hc].
  eexists _, _, x, x. split; [exact E1|]. split; [exact E2|]. split; [done|]. by split; [split|].
Qed.

Lemma replica_TxBegin k n u id l1 l2 : replicaRel k n [] id l1 l2 ->
  both (callTxBegin u) (callTxBegin u) l1 l2 (fun _ t1 _ t2 => replicaRel k n u id t1 t2).
Proof.
  intros Hp. eapply both_mono.
  - apply (store_both k n [] id u (OpTxBegin u) _ _ (fun _ => AUnit) AUnit l1 l2 Hp Logic.I eq_refl eq_refl).
    intros a1 a2 [Hs _ _] Hu. cbn [absStep]. rewrite !decide_True by (by rewrite <- ?Hs).
    eexists. split; [|rewrite <- Hs; split; reflexivity]. done.
  - cbn. by intros ? ? ? ? [_ ?].
Qed.

Lemma replica_TxFinished k n u id ok l1 l2 : replicaRel k n u id l1 l2 ->
  both (callTxFinished u ok) (callTxFinished u ok) l1 l2 (fun _ t1 _ t2 => replicaRel k n [] id t1 t2).
Proof.
  intros Hp. eapply both_mono.
  - apply (store_both k n u id [] (OpTxFinished u ok) _ _ (fun _ => AUnit) AUnit l1 l2 Hp Logic.I eq_refl eq_refl).
    intros a1 a2 [Hs _ _] Hu. cbn [absStep]. rewrite !decide_True by (by rewrite <- ?Hs).
    eexists. split; [|rewrite <- Hs; split; reflexivity]. done.
  - cbn. by intros ? ? ? ? [_ ?].
Qed.

Lemma replica_Set k n u id cc key value l1 l2 : replicaRel k n u id l1 l2 -> u <> [] -> stateKeyDelimiter ∉ cc ->
  both (callSetState cc key value) (callSetState cc key value) l1 l2
    (fun x1 t1 x2 t2 => x1 = x2 /\ replicaRel k n u id t1 t2).
Proof.
  intros Hp Hne Hcc. eapply both_mono.
  - apply (store_both k n u id u (OpSet cc key value) _ _ (fun r => AOk (isOk r)) (AOk true) l1 l2 Hp Hcc eq_refl eq_refl).
    intros a1 a2 [Hs _ _] Hu. cbn [absStep]. rewrite !decide_False by (rewrite <- ?Hs; congruence).
    eexists. split; [|rewrite <- Hs; split; reflexivity]. done.
  - cbn. intros ? ? ? ? [[[= E1] [= E2]] Hr]. by rewrite (isOk_tt _ E1), (isOk_tt _ E2).
Qed.

Lemma replica_Delete k n u id cc key l1 l2 : replicaRel k n u id l1 l2 -> u <> [] -> stateKeyDelimiter ∉ cc ->
  both (callDeleteState cc key) (callDeleteState cc key) l1 l2
    (fun x1 t1 x2 t2 => x1 = x2 /\ replicaRel k n u id t1 t2).
Proof.
  intros Hp Hne Hcc. eapply both_mono.
  - apply (store_both k n u id u (OpDelete cc key) _ _ (fun r => AOk (isOk r)) (AOk true) l1 l2 Hp Hcc eq_refl eq_refl).
    intros a1 a2 [Hs _ _] Hu. cbn [absStep]. rewrite !decide_False by (rewrite <- ?Hs; congruence).
    eexists. split; [|rewrite <- Hs; split; reflexivity]. done.
  - cbn. intros ? ? ? ? [[[= E1] [= E2]] Hr]. by rewrite (isOk_tt _ E1), (isOk_tt _ E2).
Qed.

Lemma replica_Block k n u id m l1 l2 : replicaRel k n u id l1 l2 -> 0 <= m < n ->
  both (callGetBlockByNumber m) (callGetBlockByNumber m) l1 l2
    (fun x1 t1 x2 t2 => exists b1 b2 h, x1 = LOk (Some b1) /\ x2 = LOk (Some b2) /\
      Block_GetHash hash b1 = Ok h /\ Block_GetHash hash b2 = Ok h /\ replicaRel k n u id t1 t2).
Proof.
  intros Hp Hm. pose proof Hp as (a1 & a2 & Hr1 & Hr2 & Hag & Hid & Hu & Hn & Hk).
  assert (is_u64 m) as Hm' by (unfold is_u64; lia).
  pose proof (sameBlocks_length _ _ (ag_chain _ _ Hag)) as El.
  destruct (lookup_lt_is_Some_2 (al_chain a1) (Z.to_nat m) ltac:(lia)) as [b1 E1].
  destruct (sameBlocks_lookup _ _ _ _ (ag_chain _ _ Hag) E1) as (b2 & E2 & Eh).
  destruct (stored_lookup _ _ _ _ _ (lr_stored _ _ _ Hr1) E1) as (Ht1 & _).
  destruct (stored_lookup _ _ _ _ _ (lr_stored _ _ _ Hr2) E2) as (Ht2 & _).
  eexists _, l1, _, l2. split; [reflexivity|]. split; [reflexivity|]. exists b1, b2, (blockHash hash b1).
  rewrite (GetBlockByNumber_rel hash l1 a1 m Hr1 Hm'), (GetBlockByNumber_rel hash l2 a2 m Hr2 Hm').
  rewrite !decide_True by lia. rewrite E1, E2. split; [done|]. split; [done|].
  rewrite (GetHash_blockHash hash b1 Ht1), (GetHash_blockHash hash b2 Ht2). by rewrite (blockHash_hashed hash _ _ Eh).
Qed.

Lemma replica_Size k n u id l1 l2 : replicaRel k n u id l1 l2 ->
  both callGetBlockchainSize callGetBlockchainSize l1 l2
    (fun x1 t1 x2 t2 => x1 = n /\ x2 = n /\ is_u64 n /\ replicaRel k n u id t1 t2).
Proof.
  intros Hp. pose proof Hp as (a1 & a2 & Hr1 & Hr2 & Hag & Hid & Hu & Hn & Hk).
  pose proof (sameBlocks_length _ _ (ag_chain _ _ Hag)) as El.
  eexists _, l1, _, l2. split; [reflexivity|]. split; [reflexivity|]. unfold GetBlockchainSize, getSize.
  destruct (lr_chain _ _ _ Hr1) as [-> _], (lr_chain _ _ _ Hr2) as [-> _]. unfold is_u64. repeat split; try lia. done.
Qed.

(** Two ledgers are a pair. *)
Lemma replica_pair : LedgerPair (Ledger DB1 I1 ID) (Ledger DB2 I2 ID) ID hash.
Proof.
  refine {| pairRel := replicaRel; pair_Begin := replica_Begin; pair_Commit := replica_Commit;
    pair_TxBegin := replica_TxBegin; pair_TxFinished := replica_TxFinished; pair_Set := replica_Set;
    pair_Delete := replica_Delete; pair_Size := replica_Size; pair_Block := replica_Block |}.
  - intros k n u id l1 l2 (a1 & a2 & Hr1 & Hr2 & Hag & Hid & Hu & Hn & Hk). exists a1, a2.
    split; [done|]. split; [done|]. split; [done|]. split; [done|]. split; [done|]. split; [done|lia].
  - intros k n u id l1 l2 Hp. eapply (read_both k n u id OpHash _ _ AValue); [done|done|by intros ? ? [= ->]|reflexivity|reflexivity|].
    intros a1 a2 [Hs _ _]. eexists. split; [reflexivity|]. cbn. by rewrite Hs, Hhash.
  - intros k n u id cc key c l1 l2 Hp.
    eapply (read_both k n u id (OpGet cc key c) _ _ AValue); [done|done|by intros ? ? [= ->]|reflexivity|reflexivity|].
    intros a1 a2 [Hs _ _]. eexists. split; [reflexivity|]. cbn. by rewrite Hs.
Defined.
End pair.
