(* ===== verification/ReplicaTheorems.v ===== *)
(** What the executor guarantees on top of the ledger: replicas that execute the
    same ordered requests keep the same state and the same blocks and report the
    same checkpoints; and what it does when a commit fails. *)
From stdpp Require Import base gmap list.
From Stdlib Require Import ZArith Lia.
From Stdlib.Strings Require Import Byte.
From S2P Require Import Prelude GoStd GoBytes LedgerUtil KVStore StateDelta StateSpec HashableState.
From S2P Require Import State StateScan StateRefine Blockchain BlockchainSpec Ledger LedgerRefine.
From S2P Require Import LedgerBoot LedgerToy LedgerTheorems LedgerFindings.
From S2P Require Import BucketKeys BucketNode BucketHash BucketSpec BucketState BucketStore BucketTree BucketToy.
From S2P Require Import ExecTransaction ConsensusHelper Executor Replicas ReplicaLedgers.

(** * Agreement *)

Lemma sameBlocks_hashes `{BlockCodec} hash c1 c2 : sameBlocks c1 c2 -> blockHash hash <$> c1 = blockHash hash <$> c2.
Proof.
  intros E. apply list_eq. intros i. rewrite !list_lookup_fmap. destruct (c1 !! i) as [b1|] eqn:E1.
  - destruct (sameBlocks_lookup _ _ _ _ E E1) as (b2 & -> & Eh). cbn. by rewrite (blockHash_hashed hash _ _ Eh).
  - destruct (c2 !! i) as [b2|] eqn:E2; [|done]. symmetry in E.
    destruct (sameBlocks_lookup _ _ _ _ E E2) as (b1 & E3 & _). by rewrite E1 in E3.
Qed.

(** Two replicas, each with its own database, state implementation, order of map
    iterations, clock and way to transfer state, execute the same chaincode. *)
Section agreement.
Context {DB1 I1 Itr1 DB2 I2 Itr2 PeerID1 PeerID2 : Type} `{RDB1 : RocksDB DB1} `{Laws1 : !RocksDBLaws DB1}
  `{HS1 : !HashableState DB1 I1 Itr1} `{Spec1 : !HashableStateSpec DB1 I1 Itr1}
  `{RDB2 : RocksDB DB2} `{Laws2 : !RocksDBLaws DB2}
  `{HS2 : !HashableState DB2 I2 Itr2} `{Spec2 : !HashableStateSpec DB2 I2 Itr2}
  `{BlockCodecLaws} `{SpecCodec} `{!ChaincodeSupport} `{!WfChaincode} `{!BlockInfoCodec}
  (hash : bytes -> bytes) (o1 o2 : mapOrder)
  (clock1 : Ledger DB1 I1 request -> Timestamp) (clock2 : Ledger DB2 I2 request -> Timestamp)
  `{!ExecutorEnv (Ledger DB1 I1 request) PeerID1} `{!ExecutorEnv (Ledger DB2 I2 request) PeerID2}.

(** Two executors at rest, with the same state and the same chain up to what the block
    hash does not cover. *)
Record twins (e1 : obcExecutor (Ledger DB1 I1 request) PeerID1) (e2 : obcExecutor (Ledger DB2 I2 request) PeerID2)
    (a1 a2 : absLedger request) (last : Z) : Prop := {
  tw_ledger1 : ledgerRel hash (h_ledger (ex_helper e1)) a1;
  tw_ledger2 : ledgerRel hash (h_ledger (ex_helper e2)) a2;
  tw_store : al_store a1 = al_store a2;
  tw_blocks : sameBlocks (al_chain a1) (al_chain a2);
  tw_id1 : al_id a1 = None;
  tw_id2 : al_id a2 = None;
  tw_uuid : st_uuid (al_store a1) = [];
  tw_batch : curBatch (ex_helper e1) = curBatch (ex_helper e2);
  tw_last1 : ex_lastExec e1 = last;
  tw_last2 : ex_lastExec e2 = last;
  tw_calls : ordererCalls e1 = ordererCalls e2
}.

(** They stay twins. *)
Lemma twins_run (queue : list request) e1 e2 a1 a2 (last : Z) :
  (forall s, hs_hash (HashableStateSpec := Spec1) s = hs_hash (HashableStateSpec := Spec2) s) ->
  (forall l, typedTimestamp (clock1 l)) -> (forall l, typedTimestamp (clock2 l)) ->
  (forall bi, marshalBlockInfo bi <> Err) -> twins e1 e2 a1 a2 last ->
  Forall wfRequest queue -> 0 < height (al_chain a1) -> height (al_chain a1) + height queue + 1 < two64 ->
  exists e1' e2' a1' a2',
    queueThread (LedgerCalls0 := ledgerCalls hash o1 clock1) hash queue e1 = Done tt e1' /\
    queueThread (LedgerCalls0 := ledgerCalls hash o2 clock2) hash queue e2 = Done tt e2' /\
    twins e1' e2' a1' a2' (lastOf last queue) /\
    height (al_chain a1') = height (al_chain a1) + height (executed last queue).
Proof.
  intros Hhash Hc1 Hc2 Hm [Hr1 Hr2 Hst Hch Hi1 Hi2 Hu Hb Hl1 Hl2 Hcalls] Hq Hpos Hlen.
  pose (LP := replica_pair hash o1 o2 clock1 clock2 Hhash Hc1 Hc2).
  destruct (queueThread_both (LedgerCalls0 := ledgerCalls hash o1 clock1) (LedgerCalls1 := ledgerCalls hash o2 clock2)
    (LedgerPair0 := LP) hash queue 0 (height (al_chain a1)) (curBatch (ex_helper e1)) last (ordererCalls e1) e1 e2)
    as ([] & e1' & [] & e2' & E1 & E2 & batch & calls & [[Hl B1 B2] ? ? C1 C2]).
  - split; [split|..]; try done. exists a1, a2. do 2 (split; [done|]). split; [by split; congruence|].
    do 3 (split; [done|]). lia.
  - done.
  - done.
  - done.
  - destruct Hl as (b1 & b2 & Hr1' & Hr2' & [Hs Hid Hsame] & Hid1 & Hu' & Hn & _).
    exists e1', e2', b1, b2. do 2 (split; [done|]). split; [|by rewrite <- Hn]. by split; try congruence.
Qed.

End agreement.

(** * A replica with a chain, and another one with another order and clock *)

Definition reversedOrder : mapOrder.
Proof.
  refine {| ord := fun _ K _ _ A m => reverse (map_to_list m) |}.
  intros. apply reverse_Permutation.
Defined.

(** Chaincode that writes its message under the key of its transaction. *)
#[export] Instance toySupport : ChaincodeSupport := {
  ChaincodeInput := bytes;
  marshalInput := Ok;
  preExecution := None;
  DeployChaincode := fun _ => Ok tt;
  LaunchChaincode := fun t => RunReturn (Ok ([x61], Payload t));
  ExecuteChaincode := fun cc msg t =>
    if isQuery t then RunGet [x61] [x6b] true (fun v => RunReturn (Ok (Some (mkChaincodeMessage QUERY_COMPLETED [] (Uuid t) None))))
    else RunPut [x61] (Uuid t) (Some (msg_Payload msg)) (fun _ =>
      RunReturn (Ok (Some (mkChaincodeMessage COMPLETED [] (Uuid t) None))))
}.

Lemma toyID_clean : stateKeyDelimiter ∉ [x61].
Proof. apply (bool_decide_unpack (stateKeyDelimiter ∉ [x61])). vm_compute. exact Logic.I. Qed.

#[export] Instance toySupport_wf : WfChaincode.
Proof.
  split.
  - done.
  - intros t. exact Logic.I.
  - intros cc msg t. cbn. destruct (isQuery t); cbn; [done|]. split; [done|]. split; [apply toyID_clean|done].
Qed.

#[export] Instance toyInfoCodec : BlockInfoCodec := {
  marshalBlockInfo := fun bi => Ok (PutUint64 (bi_BlockNumber bi) ++ bi_BlockHash bi);
  unmarshalBlockInfo := fun b => Ok (mkBlockInfo (Uint64 (take 8 b)) (drop 8 b))
}.

#[export] Instance toyEnv : ExecutorEnv (Ledger memDB StateImpl request) nat := {
  orderer_Validate := fun _ _ => (true, None, []);
  stateTransfer := fun _ => mret None
}.

Definition toyGenesis (now : Timestamp) : list (ledgerOp request) :=
  [OpBegin None; OpCommit now None [toyTransaction x01] [] []].

Definition toyAfterGenesis (now : Timestamp) : absLedger request :=
  from_option fst emptyLedger (absRun toyHash (stateHash toyConf toyHash) emptyLedger (toyGenesis now)).

Lemma toyGenesis_reach (o : mapOrder) now : typedTimestamp now ->
  exists l, ledgerRel (HashableState0 := tree toyHash o toyConf)
    (HashableStateSpec0 := spec toyHash o toyConfigs toyConf toySetting) toyHash l (toyAfterGenesis now).
Proof.
  intros Hnow.
  destruct (open_empty (ID := request) toyHash o toyConfigs toyConf toySetting emptyDB 500 emptyDB_empty
    ltac:(lia)) as (l0 & _ & Hr0 & _).
  assert (exists answers, absRun toyHash (stateHash toyConf toyHash) emptyLedger (toyGenesis now) =
    Some (toyAfterGenesis now, answers)) as [answers Ha] by (eexists; reflexivity).
  edestruct (run_rel (HashableState0 := tree toyHash o toyConf)
    (HashableStateSpec0 := spec toyHash o toyConfigs toyConf toySetting) toyHash o (toyGenesis now) l0 emptyLedger)
    as (l & _ & Hr); [exact Hr0| |reflexivity|exact Ha|by exists l].
  repeat constructor; try done; cbn; try lia; apply Hnow.
Qed.

Definition toyQueue : list request := [
  mkRequest 1 [toyTransaction x02] (Some (mkExecutionInfo true false false)) false;
  mkRequest 2 [] (Some (mkExecutionInfo true false true)) false;
  mkRequest 1 [toyTransaction x03] None false;
  mkRequest 3 [toyTransaction x04; toyTransaction x05] None false].

Lemma toyQueue_wf : Forall wfRequest toyQueue.
Proof. repeat constructor; cbn; try done; lia. Qed.

Definition later : Timestamp := mkTimestamp 43 7.


(** * A failed commit *)

(** After a failed commit the ledger does not know the batch any more. *)
Lemma CommitTxBatch_forgets {DB I Itr ID : Type} `{RocksDB DB} `{!HashableState DB I Itr} `{EqDecision ID}
    `{BlockCodec} `{SpecCodec} (hash : bytes -> bytes) (o : mapOrder) now (id : ID) txs results metadata
    (l l' : Ledger DB I ID) :
  CommitTxBatch hash o now (Some id) txs results metadata l = Done Err l' ->
  checkValidIDCommitORRollback l' (Some id) = false.
Proof.
  unfold CommitTxBatch. cbv [mbind M_bind get]. destruct (checkValidIDCommitORRollback l (Some id)) eqn:Hid; cbn [negb].
  2: { intros [= <-]. exact Hid. }
  assert (forall (l1 l2 : Ledger DB I ID), abandonCommit (A := unit) l1 = Done Err l2 ->
    checkValidIDCommitORRollback l2 (Some id) = false) as Habandon.
  { intros l1 l2. unfold abandonCommit, resetForNextTxGroup, onState, onChain.
    cbv [mbind M_bind modify mret M_ret]. destruct (ClearInMemoryChanges _ _); [|done..].
    destruct (blockPersistenceStatus _ _); [|done..]. intros [= <-]. reflexivity. }
  unfold onState at 1. destruct (GetHash _ _) as [[h|] s| |]; [|apply Habandon|done..].
  unfold onChain at 1. destruct (addPersistenceChangesForNewBlock _ _ _ _ _ _ _) as [[[[b n] w]|] c| |]; [|apply Habandon|done..].
  unfold onState at 1. destruct (State_AddChangesForPersistence _ _ _ _ _) as [w' s'| |]; [|done..].
  destruct (Write _ _); [|apply Habandon].
  cbv [modify]. unfold resetForNextTxGroup, onState, onChain, sendProducerBlockEvent. cbv [mbind M_bind modify mret M_ret].
  destruct (ClearInMemoryChanges _ _); [|done..]. by destruct (blockPersistenceStatus _ _).
Qed.

(** When the ledger reports that a commit failed, for whatever reason, the executor
    panics instead of returning the error: it rolls the batch back, and the ledger,
    which has already discarded the batch, refuses. *)
Theorem failed_commit_panics {DB I Itr PeerID : Type} `{RocksDB DB} `{!HashableState DB I Itr} `{BlockCodec}
    `{SpecCodec} (hash : bytes -> bytes) (o : mapOrder) (clock : Ledger DB I request -> Timestamp)
    (tx : request) (e : obcExecutor (Ledger DB I request) PeerID) (l' : Ledger DB I request) :
  let l := h_ledger (ex_helper e) in
  CommitTxBatch hash o (clock l) (Some tx) (curBatch (ex_helper e)) [] [] l = Done Err l' ->
  commit (LedgerCalls0 := ledgerCalls hash o clock) hash tx e = Panic.
Proof.
  intros l E. pose proof (CommitTxBatch_forgets _ _ _ _ _ _ _ _ _ E) as Hid.
  unfold commit, onHelper, helper_CommitTxBatch, onLedger, try. cbv [mbind M_bind get].
  cbn [callCommitTxBatch ledgerCalls]. cbv [mbind M_bind get]. unfold l in E. rewrite E. cbv [mret M_ret].
  unfold rollback, onHelper, helper_RollbackTxBatch, onLedger, try. cbv [mbind M_bind]. cbn [callRollbackTxBatch ledgerCalls ex_helper h_ledger].
  unfold RollbackTxBatch. cbv [mbind M_bind get]. cbn. by rewrite Hid.
Qed.

(** A batch with a write, over a database whose reads fail. *)
Definition toyRequest : request := mkRequest 1 [toyTransaction x02] (Some (mkExecutionInfo true false false)) false.

Definition toyFailing : obcExecutor (Ledger memDB StateImpl request) nat :=
  mkObcExecutor 0 (mkHelper [toyTransaction x02] (mkLedger unreadable (mkBlockchain 1 [x01] None)
    (freshState <| stateDelta := toyDelta |> <| updateStateImpl := true |>) (Some toyRequest) [])) [] [].

Lemma failed_commit_panics_witness :
  commit (LedgerCalls0 := ledgerCalls (HashableState0 := bucketTree toyConf toyHash canonicalOrder) toyHash canonicalOrder
    (fun _ => now)) toyHash toyRequest toyFailing = Panic.
Proof.
  pose (run := CommitTxBatch (HashableState0 := bucketTree toyConf toyHash canonicalOrder) toyHash canonicalOrder now
    (Some toyRequest) [toyTransaction x02] [] [] (h_ledger (ex_helper toyFailing))).
  assert (match run with Done r _ => isOk r = false | _ => False end) as Hrun by (vm_compute; reflexivity).
  destruct run as [r l'| |] eqn:E; [|destruct Hrun..]. destruct r as [u|]; [discriminate Hrun|].
  exact (failed_commit_panics toyHash canonicalOrder (fun _ => now) toyRequest toyFailing l' E).
Defined.

(** * Validation and checkpoints *)

Section paths.
Context {S PeerID : Type} `{!LedgerCalls S request} `{!ChaincodeSupport} `{BlockCodec} `{!BlockInfoCodec}
  `{!ExecutorEnv S PeerID} (hash : bytes -> bytes).

(** A preview that fails leaves the batch open: the deferred rollback is not
    registered yet. *)
Lemma failed_preview_keeps_batch (tx : request) (e : obcExecutor S PeerID) s' :
  callGetTXBatchPreviewBlock (Some tx) (curBatch (ex_helper e)) [] (h_ledger (ex_helper e)) = Done Err s' ->
  exists e', validate hash tx e = Done Err e' /\ h_ledger (ex_helper e') = s'.
Proof.
  intros E. unfold validate, try, onHelper, helper_PreviewCommitTxBatch, onLedger. cbv [mbind M_bind get]. rewrite E.
  eexists. split; reflexivity.
Qed.

(** A corrected id that cannot be read rolls the batch back twice. *)
Lemma bad_correction_panics (tx : request) block (e : obcExecutor S PeerID) n h id corrected peers s1 s2 s3 :
  callGetBlockchainSize (h_ledger (ex_helper e)) = Done n s1 -> helper_HashBlock hash (Some block) = Ok h ->
  marshalBlockInfo (mkBlockInfo n h) = Ok id -> orderer_Validate (rq_seqNo tx) id = (true, Some corrected, peers) ->
  callRollbackTxBatch (Some tx) s1 = Done (Ok tt) s2 -> callRollbackTxBatch (Some tx) s2 = Done Err s3 ->
  unmarshalBlockInfo corrected = Err ->
  deferRollback tx (validateBody hash tx block) e = Panic.
Proof.
  intros E1 E2 E3 E4 E5 E6 E7. unfold deferRollback, validateBody, getBlockchainSize, hashBlock, createID, rollback, onHelper,
    helper_GetBlockchainSize, helper_RollbackTxBatch, onLedger, try. cbv [mbind M_bind mret M_ret modify].
  rewrite E1, E2, E3, E4. cbn. rewrite E5. cbn. rewrite E7. cbn. by rewrite E6.
Qed.

(** A correction of the orderer ends in a panic: the target that [validate] leaves
    has no [execInfo], and the thread looks at its [Checkpoint] after the transfer. *)
Lemma corrected_target_panics (tx : request) (e e' : obcExecutor S PeerID) :
  rq_sync tx = false -> ex_lastExec e < rq_seqNo tx -> from_option ei_Null false (rq_execInfo tx) = false ->
  (forall execInfo, execute hash (mkRequest (rq_seqNo tx) (rq_txs tx) (Some execInfo) false) e = Done (Ok (true, None)) e') ->
  (exists n, callGetBlockchainSize (h_ledger (ex_helper e)) = Done n (h_ledger (ex_helper e))) ->
  (exists t s, stateTransfer (syncTargets e') (h_ledger (ex_helper e')) = Done (Some t) s /\ st_execInfo t = None) ->
  processRequest hash tx e = Panic.
Proof.
  intros Hs Hl Hn Hx (n & En) (t & s & Et & Ei).
  unfold processRequest, getBlockchainSize, onHelper, helper_GetBlockchainSize, onLedger. cbv [mbind M_bind get].
  rewrite En. cbn [ex_lastExec ex_helper]. destruct e as [last [batch l] targets calls]. cbn in *.
  destruct (rq_seqNo tx <=? last) eqn:El; [lia|]. rewrite Hs. cbn.
  assert (ei_Null (default (mkExecutionInfo false false false) (rq_execInfo tx)) = false) as -> by (by destruct (rq_execInfo tx)).
  rewrite Hx. cbv [mret M_ret]. unfold sync, onHelper, onLedger. cbv [mbind M_bind get modify]. cbn. rewrite Et. cbn. by rewrite Ei.
Qed.
End paths.
