(* ===== verification/CheckpointPath.v ===== *)
(** The way of a checkpoint from the executor, which asks for one after a request,
    to the PBFT engine, which broadcasts it. *)
From stdpp Require Import base gmap list.
From Stdlib Require Import ZArith Lia.
From Stdlib.Strings Require Import Byte.
From S2P Require Import Prelude GoStd PbftTypes PbftCore PbftToy PbftViewChange.
From S2P Require Import GoBytes LedgerUtil KVStore StateDelta StateSpec HashableState State Blockchain Ledger LedgerToy.
From S2P Require Import BucketKeys BucketNode BucketState BucketTree BucketToy LedgerFindings.
From S2P Require Import ExecTransaction ConsensusHelper Executor ReplicaLedgers ReplicaTheorems.

(** What the executor does after it has executed a request. *)
Lemma executed_checkpoint {S PeerID : Type} `{!LedgerCalls S request} `{!ChaincodeSupport} `{BlockCodec}
    `{!BlockInfoCodec} `{!ExecutorEnv S PeerID} (hash : bytes -> bytes) (seqNo : Z) txs v
    (e e' : obcExecutor S PeerID) bi id n s :
  let tx := mkRequest seqNo txs (Some (mkExecutionInfo true v false)) false in
  ex_lastExec e < seqNo -> callGetBlockchainSize (h_ledger (ex_helper e)) = Done n s ->
  execute hash tx (e <| ex_helper := (ex_helper e) <| h_ledger := s |> |>) = Done (Ok (false, Some bi)) e' ->
  marshalBlockInfo bi = Ok id ->
  processRequest hash tx e = Done tt (e' <| ordererCalls := ordererCalls e' ++ [CallCheckpoint 0 id] |>).
Proof.
  intros tx Hlast En Ex Em.
  unfold processRequest, getBlockchainSize, onHelper, helper_GetBlockchainSize, onLedger. cbv [mbind M_bind get].
  rewrite En. cbn [ex_lastExec rq_seqNo tx]. apply Z.lt_nge in Hlast.
  destruct (seqNo <=? ex_lastExec e) eqn:El; [lia|]. cbn [rq_sync rq_txs rq_execInfo ei_Null].
  unfold tx in Ex. cbn. rewrite El. cbn in Ex. rewrite Ex. cbv [mret M_ret]. unfold sendCheckpoint, createID, callOrderer, when, modify. cbn.
  cbv [mbind M_bind mret M_ret]. by rewrite Em.
Qed.

(** A request that asks for a checkpoint is executed, and the sequence number it was
    ordered under is lost on the way to the engine: the executor asks for a
    checkpoint at 0, which the engine never refuses, and the engine records and
    broadcasts the state under the last number it has handed out by then,
    multiple of the checkpoint interval or not. *)
Theorem checkpoint_loses_seqNo {S PeerID : Type} `{!LedgerCalls S request} `{!ChaincodeSupport} `{BlockCodec}
    `{!BlockInfoCodec} `{!ExecutorEnv S PeerID} (hash : bytes -> bytes) (seqNo : Z) txs v
    (e e' : obcExecutor S PeerID) bi id n s env self (instance : pbftCore) :
  let tx := mkRequest seqNo txs (Some (mkExecutionInfo true v false)) false in
  ex_lastExec e < seqNo -> callGetBlockchainSize (h_ledger (ex_helper e)) = Done n s ->
  execute hash tx (e <| ex_helper := (ex_helper e) <| h_ledger := s |> |>) = Done (Ok (false, Some bi)) e' ->
  marshalBlockInfo bi = Ok id ->
  (forall m, marshal_Message env m = true) -> byzantine instance = false -> K_ instance <> 0 ->
  processRequest hash tx e = Done tt (e' <| ordererCalls := ordererCalls e' ++ [CallCheckpoint 0 id] |>) /\
  exists s1, takeCheckpoint env self 0 id instance =
      (self (Message_Checkpoint (mkCheckpoint (lastExec instance) (id_ instance) (Base64.EncodeToString id)))
        (id_ instance) ;; mret tt) s1 /\
    chkpts s1 !! lastExec instance = Some (Base64.EncodeToString id).
Proof.
  intros tx Hlast En Ex Em Hm Hb HK. split; [by eapply executed_checkpoint|].
  exists (checkpointed instance id). split; [|cbn; apply lookup_insert_eq].
  apply takeCheckpoint_broadcasts; [done..|]. apply Z.mod_0_l. done.
Qed.

(** A request on a chain of one block, and the request at 7 after it. *)
Definition toyReady : obcExecutor (Ledger memDB StateImpl request) nat :=
  mkObcExecutor 0 (mkHelper [] (mkLedger emptyDB (mkBlockchain 1 [x01] None) freshState None [])) [] [].

Lemma checkpoint_loses_seqNo_witness : exists e' id,
  processRequest (LedgerCalls0 := ledgerCalls (HashableState0 := bucketTree toyConf toyHash canonicalOrder) toyHash
    canonicalOrder (fun _ => now)) toyHash (mkRequest 7 [toyTransaction x02] (Some (mkExecutionInfo true false false)) false)
    toyReady = Done tt e' /\
  last (ordererCalls e') = Some (CallCheckpoint 0 id).
Proof.
  pose (run := execute (LedgerCalls0 := ledgerCalls (HashableState0 := bucketTree toyConf toyHash canonicalOrder) toyHash
    canonicalOrder (fun _ => now)) toyHash
    (mkRequest 7 [toyTransaction x02] (Some (mkExecutionInfo true false false)) false) toyReady).
  assert (match run with Done (Ok (false, Some _)) _ => True | _ => False end) as Hrun by (vm_compute; exact Logic.I).
  destruct run as [[[[] [bi|]]|] e'| |] eqn:E; try destruct Hrun.
  assert (marshalBlockInfo bi = Ok (PutUint64 (bi_BlockNumber bi) ++ bi_BlockHash bi)) as Em by reflexivity.
  destruct (checkpoint_loses_seqNo (LedgerCalls0 := ledgerCalls (HashableState0 := bucketTree toyConf toyHash canonicalOrder)
    toyHash canonicalOrder (fun _ => now)) toyHash 7 [toyTransaction x02] false toyReady e' bi
    (PutUint64 (bi_BlockNumber bi) ++ bi_BlockHash bi) 1
    (h_ledger (ex_helper toyReady)) PbftToy.toyEnv (recvMsgSync PbftToy.toyEnv 9) (toyNode 2)
    eq_refl eq_refl E Em (fun _ => eq_refl) eq_refl ltac:(vm_compute; congruence)) as [Ep _].
  eexists _, _. split; [exact Ep|]. exact (last_snoc _ _).
Defined.
