(* ===== verification/StateTransfer.v ===== *)
(** State transfer, consensus/statetransfer/statetransfer.go: fetching blocks, state
    deltas and snapshots from peers that may send anything, checking them against a
    block hash that consensus vouches for, and validating the chain below it.

    The channel of a remote call is the finite list of messages that arrive before
    it is closed or times out.  The two threads meet where the state thread asks
    the block thread for blocks and waits for its reply. *)
From stdpp Require Import base gmap list.
From Stdlib Require Import ZArith Lia.
From S2P Require Import Prelude GoStd GoBytes LedgerUtil KVStore StateDelta Blockchain Ledger.
From S2P Require Import ExecTransaction ConsensusHelper.

(** * Messages *)

Record SyncBlockRange := mkSyncBlockRange {
  Start : Z;
  End_ : Z
}.

Record SyncBlocks := mkSyncBlocks {
  sb_Range : option SyncBlockRange;
  sb_Blocks : list Block
}.

Record SyncStateDeltas := mkSyncStateDeltas {
  sd_Range : option SyncBlockRange;
  sd_Deltas : list bytes
}.

Record SyncStateSnapshot := mkSyncStateSnapshot {
  ss_Delta : bytes;
  ss_Sequence : Z;
  ss_BlockNumber : Z
}.

(** The pointer to the message that brought a delta is the id of the group it is
    applied in. *)
Inductive transferID :=
| DeltaMessage (ptr : nat)
| SnapshotPiece (ptr : nat).

#[export] Instance transferID_eq_dec : EqDecision transferID.
Proof. solve_decision. Defined.

(** * The stack and the network *)

(** [consensus.LedgerStack]; the size of the chain is always known. *)
Class LedgerStack (S : Type) := {
  stack_GetBlock : Z -> M S (result (option Block));
  stack_GetBlockchainSize : M S Z;
  stack_GetCurrentStateHash : M S (result (option bytes));
  stack_PutBlock : Z -> Block -> M S (result unit);
  stack_VerifyBlockchain : Z -> Z -> M S (Z * result unit);
  stack_ApplyStateDelta : transferID -> StateDelta -> M S (result unit);
  stack_CommitStateDelta : transferID -> M S (result unit);
  stack_RollbackStateDelta : transferID -> M S (result unit);
  stack_EmptyState : M S (result unit)
}.
#[export] Hint Mode LedgerStack + : typeclass_instances.

Inductive PeerEndpointType := EpUNDEFINED | VALIDATOR | NON_VALIDATOR.

(** [ep_ptr] is the address of the endpoint, which the code compares. *)
Record PeerEndpoint (PeerID : Type) := mkPeerEndpoint {
  ep_ptr : nat;
  ep_Type : PeerEndpointType;
  ep_ID : PeerID
}.
Arguments mkPeerEndpoint {PeerID}.
Arguments ep_ptr {PeerID}.
Arguments ep_Type {PeerID}.
Arguments ep_ID {PeerID}.

(** The network at the [t]-th call, and [rand.Int()]. *)
Class Network (PeerID : Type) := {
  GetRemoteBlocks : nat -> PeerID -> Z -> Z -> result (list SyncBlocks);
  GetRemoteStateDeltas : nat -> PeerID -> Z -> Z -> result (list SyncStateDeltas);
  GetRemoteStateSnapshot : nat -> PeerID -> result (list SyncStateSnapshot);
  GetNetworkInfo : nat -> result (PeerEndpoint PeerID * list (PeerEndpoint PeerID));
  randInt : nat -> nat;
  backgroundRounds : nat -> nat
}.
#[export] Hint Mode Network + : typeclass_instances.

(** * The state *)

Record blockRange := mkBlockRange {
  highBlock : Z;
  lowBlock : Z;
  lowNextHash : bytes
}.

Record syncMark (PeerID : Type) := mkSyncMark {
  sm_blockNumber : Z;
  sm_peerIDs : option (list PeerID)
}.
Arguments mkSyncMark {PeerID}.
Arguments sm_blockNumber {PeerID}.
Arguments sm_peerIDs {PeerID}.

(** The metadata of a target is only passed on to the listeners and left out. *)
Record blockHashReply (PeerID : Type) := mkBlockHashReply {
  bh_syncMark : syncMark PeerID;
  bh_blockHash : bytes
}.
Arguments mkBlockHashReply {PeerID}.
Arguments bh_syncMark {PeerID}.
Arguments bh_blockHash {PeerID}.

Definition bh_blockNumber {PeerID} (r : blockHashReply PeerID) : Z := sm_blockNumber (bh_syncMark r).
Definition bh_peerIDs {PeerID} (r : blockHashReply PeerID) : option (list PeerID) := sm_peerIDs (bh_syncMark r).

Record blockSyncReq (PeerID : Type) := mkBlockSyncReq {
  bs_syncMark : syncMark PeerID;
  reportOnBlock : Z;
  hasReplyChan : bool;
  firstBlockHash : bytes
}.
Arguments mkBlockSyncReq {PeerID}.
Arguments bs_syncMark {PeerID}.
Arguments reportOnBlock {PeerID}.
Arguments hasReplyChan {PeerID}.
Arguments firstBlockHash {PeerID}.

Inductive StateTransferUpdate (PeerID : Type) :=
| Initiated
| Errored (peerIDs : option (list PeerID))
| Completed (blockNumber : Z) (blockHash : bytes) (peerIDs : option (list PeerID)).
Arguments Initiated {PeerID}.
Arguments Errored {PeerID}.
Arguments Completed {PeerID}.

Record transferConfig := mkTransferConfig {
  RecoverDamage : bool;
  blockVerifyChunkSize : Z;
  MaxStateDeltas : Z
}.

(** [blockHashReceiver] is the channel of one place that [AddTarget] fills;
    [arrivals] are the targets that will be added while the state thread waits, after
    which it is told to exit.  [calls_] counts the calls of the network. *)
Record StateTransferState (S PeerID : Type) := mkStateTransferState {
  stack : S;
  stateValid : bool;
  asynchronousTransferInProgress : bool;
  validBlockRanges : list blockRange;
  blockHashReceiver : option (blockHashReply PeerID);
  arrivals : list (blockHashReply PeerID);
  notices : list (StateTransferUpdate PeerID);
  calls_ : nat
}.
Arguments mkStateTransferState {S PeerID}.
Arguments stack {S PeerID}.
Arguments stateValid {S PeerID}.
Arguments asynchronousTransferInProgress {S PeerID}.
Arguments validBlockRanges {S PeerID}.
Arguments blockHashReceiver {S PeerID}.
Arguments arrivals {S PeerID}.
Arguments notices {S PeerID}.
Arguments calls_ {S PeerID}.

#[export] Instance StateTransferState_eta S P : Eta (StateTransferState S P) := fun s =>
  mkStateTransferState (stack s) (stateValid s) (asynchronousTransferInProgress s) (validBlockRanges s)
    (blockHashReceiver s) (arrivals s) (notices s) (calls_ s).
#[export] Instance blockRange_eta : Eta blockRange := fun r => mkBlockRange (highBlock r) (lowBlock r) (lowNextHash r).

Section transfer.
Context {S PeerID : Type} `{!LedgerStack S} `{!Network PeerID} `{BlockCodec} (hash : bytes -> bytes)
  (conf : transferConfig).

Abbreviation X := (M (StateTransferState S PeerID)).

Definition onStack {A} (m : M S A) : X A := fun s =>
  match m (stack s) with
  | Done a st => Done a (s <| stack := st |>)
  | Panic => Panic
  | Diverge => Diverge
  end.

(** A call of the network. *)
Definition ask {A} (f : nat -> A) : X A := s ← get; modify (fun s => s <| calls_ := (calls_ s + 1)%nat |>) ;; mret (f (calls_ s)).

(** A message that arrives is a new object; its address is the number of a call. *)
Definition arrive : X nat := ask (fun t => t).

Definition InvalidateState : X unit := modify (fun s => s <| stateValid := false |>).

Definition AddTarget (target : blockHashReply PeerID) : X unit :=
  modify (fun s => s <| blockHashReceiver := Some target |>).

(** * Peers *)

Definition discover : X (result (list PeerID)) :=
  info ← ask GetNetworkInfo;
  mret match info with
  | Err => Err
  | Ok (self, network) => Ok (ep_ID <$> List.filter (fun endpoint =>
      match ep_Type endpoint with VALIDATOR => negb (ep_ptr endpoint =? ep_ptr self)%nat | _ => false end) network)
  end.

(** The loop of [tryOverPeers]; [V] are the variables that [do_] closes over. *)
Fixpoint tryLoop {V} (do_ : PeerID -> V -> X (V * result unit)) (peerIDs : list PeerID) (startIndex : nat)
    (rounds : list nat) (v : V) (err : result unit) : X (V * result unit) :=
  match rounds with
  | [] => mret (v, err)
  | i :: rounds =>
    match peerIDs !! ((i + startIndex) mod length peerIDs)%nat with
    | None => panic
    | Some peerID =>
      '(v, err) ← do_ peerID v;
      match err with
      | Ok _ => mret (v, Ok tt)
      | Err => tryLoop do_ peerIDs startIndex rounds v Err
      end
    end
  end.

Definition tryOverPeers {V} (passedPeerIDs : option (list PeerID)) (do_ : PeerID -> V -> X (V * result unit)) (v : V)
    : X (V * result unit) :=
  peerIDs ← match passedPeerIDs with Some peerIDs => mret (Ok peerIDs) | None => discover end;
  match peerIDs with
  | Err => mret (v, Err)
  | Ok [] => mret (v, Err)
  | Ok peerIDs =>
    r ← ask (randInt (PeerID := PeerID));
    tryLoop do_ peerIDs (r mod length peerIDs)%nat (seq 0 (length peerIDs)) v (Ok tt)
  end.

(** * Blocks *)

(** The variables of [syncBlocks]; [sv_block] is the last block looked at. *)
Record blockVars := mkBlockVars {
  blockCursor : Z;
  validBlockHash : bytes;
  sv_block : option Block
}.

(** Unless damage is to be repaired, a block that is there already has to have the
    expected hash, and is kept.  Errors of [PutBlock] are dropped. *)
Definition storeBlock (cursor : Z) (expected : bytes) (block : Block) : X unit :=
  if RecoverDamage conf then onStack (stack_PutBlock cursor block) ;; mret tt else
  old ← onStack (stack_GetBlock cursor);
  match old with
  | Ok (Some oldBlock) =>
    match helper_HashBlock hash (Some oldBlock) with
    | Ok oldBlockHash => if bool_decide (oldBlockHash = expected) then mret tt else panic
    | Err => panic
    end
  | _ => onStack (stack_PutBlock cursor block) ;; mret tt
  end.

(** The blocks of one message, from index [i]: [None] when the next message is
    waited for. *)
Fixpoint recvBlocks (low start : Z) (i : Z) (blocks : list Block) (v : blockVars) : X (blockVars * option (result unit)) :=
  match blocks with
  | [] => mret (v, None)
  | block :: blocks =>
    let '(mkBlockVars cursor expected _) := v in
    if negb (bool_decide (u64 (start - i) = cursor)) then
      recvBlocks low start (i + 1) blocks (mkBlockVars cursor expected (Some block))
    else
    match helper_HashBlock hash (Some block) with
    | Err => mret (mkBlockVars cursor expected (Some block), Some Err)
    | Ok testHash =>
      if negb (bool_decide (testHash = expected)) then mret (mkBlockVars cursor expected (Some block), Some Err) else
      storeBlock cursor expected block ;;
      if bool_decide (cursor = low) then mret (mkBlockVars cursor (PreviousBlockHash block) (Some block), Some (Ok tt))
      else recvBlocks low start (i + 1) blocks (mkBlockVars (u64 (cursor - 1)) (PreviousBlockHash block) (Some block))
    end
  end.

(** The messages of a peer; after the last one the channel is closed or times out. *)
Fixpoint recvSyncBlocks (low : Z) (messages : list SyncBlocks) (v : blockVars) : X (blockVars * result unit) :=
  match messages with
  | [] => mret (v, Err)
  | m :: messages =>
    match sb_Range m with
    | None => panic
    | Some r =>
      if Start r <? End_ r then recvSyncBlocks low messages v else
      '(v, done) ← recvBlocks low (Start r) 0 (sb_Blocks m) v;
      match done with
      | Some err => mret (v, err)
      | None => recvSyncBlocks low messages v
      end
    end
  end.

Definition fetchBlocks (low : Z) (peerID : PeerID) (v : blockVars) : X (blockVars * result unit) :=
  reply ← ask (fun t => GetRemoteBlocks t peerID (blockCursor v) low);
  match reply with
  | Err => mret (v, Err)
  | Ok messages => recvSyncBlocks low messages v
  end.

(** The last block number attempted, the last block looked at, and the error. *)
Definition syncBlocks (high low : Z) (highHash : bytes) (peerIDs : option (list PeerID))
    : X (Z * option Block * result unit) :=
  '(v, err) ← tryOverPeers peerIDs (fetchBlocks low) (mkBlockVars high highHash None);
  mret (blockCursor v, sv_block v, err).

(** The reply of the block thread is the result. *)
Definition syncBlockchainToCheckpoint (req : blockSyncReq PeerID) : X (result unit) :=
  let blockNumber := sm_blockNumber (bs_syncMark req) in
  blockchainSize ← onStack stack_GetBlockchainSize;
  if u64 (blockNumber + 1) <? blockchainSize then panic else
  '(n, block, err) ← syncBlocks blockNumber (reportOnBlock req) (firstBlockHash req) (sm_peerIDs (bs_syncMark req));
  match err with
  | Err => mret Err
  | Ok _ =>
    match block with
    | None => panic
    | Some block =>
      modify (fun s => s <| validBlockRanges := validBlockRanges s ++
        [mkBlockRange blockNumber (if hasReplyChan req then n else 0) (PreviousBlockHash block)] |>) ;;
      mret (Ok tt)
    end
  end.

(** * The chain below *)

(** [blockRangeSlice.Less]. *)
Definition rangeLess (a b : blockRange) : bool :=
  if highBlock a =? highBlock b then lowBlock a <? lowBlock b else highBlock a >? highBlock b.

(** [sort.Sort] is an insertion sort for slices this short. *)
Fixpoint insertRange (r : blockRange) (rs : list blockRange) : list blockRange :=
  match rs with
  | [] => [r]
  | x :: rs => if rangeLess r x then r :: x :: rs else x :: insertRange r rs
  end.

Definition sortRanges (rs : list blockRange) : list blockRange := foldl (fun sorted r => insertRange r sorted) [] rs.

(** Without a range the head of the chain is one, on trust. *)
Definition initialRange : X bool :=
  s ← get;
  match validBlockRanges s with
  | _ :: _ => mret true
  | [] =>
    size ← onStack stack_GetBlockchainSize;
    if bool_decide (size = 0) then mret false else
    block ← onStack (stack_GetBlock (size - 1));
    match block with
    | Err => mret false
    | Ok None => panic
    | Ok (Some block) =>
      modify (fun s => s <| validBlockRanges := [mkBlockRange (size - 1) (size - 1) (PreviousBlockHash block)] |>) ;;
      mret true
    end
  end.

Definition setRanges (rs : list blockRange) : X unit := modify (fun s => s <| validBlockRanges := rs |>).

(** Two ranges that touch: the second goes in any case, and the first takes its low
    end if [HashBlock] returned an error, as the code has it. *)
Definition mergeRanges (r0 r1 : blockRange) (rest : list blockRange) : X unit :=
  if lowBlock r1 <? lowBlock r0 then
    block ← onStack (stack_GetBlock (lowBlock r0 - 1));
    let joined := match block with
      | Err => r0
      | Ok block =>
        match helper_HashBlock hash block with
        | Ok _ => r0
        | Err => if bool_decide (lowNextHash r0 = []) then r0 <| lowBlock := lowBlock r1 |> <| lowNextHash := lowNextHash r1 |> else r0
        end
      end in
    setRanges (joined :: rest)
  else setRanges (r0 :: rest).

(** Down to the next range, or as many blocks as one request may take. *)
Definition recoverTarget (r0 : blockRange) (rest : list blockRange) : Z :=
  let targetBlock := match rest with [] => 0 | r1 :: _ => highBlock r1 end in
  if u64 (targetBlock + blockVerifyChunkSize conf) >? lowBlock r0 then targetBlock
  else lowBlock r0 - blockVerifyChunkSize conf.

(** Verify the chain below the first range, and fetch what is missing when that
    fails. *)
Definition verifyOrRecover (r0 : blockRange) (rest : list blockRange) (targetBlock : Z) : X unit :=
  '(badBlockNumber, err) ← onStack (stack_VerifyBlockchain (lowBlock r0) targetBlock);
  match err with
  | Ok _ =>
    setRanges (r0 <| lowBlock := targetBlock |> :: rest) ;;
    block ← onStack (stack_GetBlock targetBlock);
    match block with
    | Err => mret tt
    | Ok None => panic
    | Ok (Some block) =>
      setRanges (r0 <| lowBlock := targetBlock |> <| lowNextHash := PreviousBlockHash block |> :: rest)
    end
  | Err =>
    '(blockNumber, block, err) ← syncBlocks (u64 (badBlockNumber - 1)) targetBlock (lowNextHash r0) None;
    match block with
    | None => mret tt
    | Some block =>
      if bool_decide (blockNumber = u64 (badBlockNumber - 1)) then mret tt else
      setRanges (r0 <| lowNextHash := PreviousBlockHash block |>
        <| lowBlock := match err with Ok _ => blockNumber | Err => u64 (blockNumber + 1) end |> :: rest)
    end
  end.

(** [true] when the chain is valid down to block zero. *)
Definition VerifyAndRecoverBlockchain : X bool :=
  started ← initialRange;
  if negb (started : bool) then mret false else
  s ← get;
  match sortRanges (validBlockRanges s) with
  | [] => panic
  | r0 :: rest =>
    setRanges (r0 :: rest) ;;
    match rest with
    | [] =>
      if bool_decide (lowBlock r0 = 0) then mret true
      else verifyOrRecover r0 rest (recoverTarget r0 rest) ;; mret false
    | r1 :: rest' =>
      if u64 (highBlock r1 + 1) >=? lowBlock r0 then mergeRanges r0 r1 rest' ;; mret false
      else verifyOrRecover r0 rest (recoverTarget r0 rest) ;; mret false
    end
  end.

(** * The state *)

(** The deltas of one message, each applied under the id of the message; the result
    of [ApplyStateDelta] is dropped. *)
Fixpoint applyDeltas (ptr : nat) (deltas : list bytes) : X (result unit) :=
  match deltas with
  | [] => mret (Ok tt)
  | delta :: deltas =>
    let '(umDelta, ok) := Unmarshal NewStateDelta delta in
    if negb ok then mret Err else
    onStack (stack_ApplyStateDelta (DeltaMessage ptr) umDelta) ;; applyDeltas ptr deltas
  end.

(** Whether the state has the hash that block [n] records; a hash that cannot be
    computed counts as the empty one. *)
Definition stateMatches (n : Z) : X bool :=
  testBlock ← onStack (stack_GetBlock n);
  match testBlock with
  | Err => mret false
  | Ok testBlock =>
    stateHash ← onStack stack_GetCurrentStateHash;
    match testBlock with
    | None => panic
    | Some testBlock =>
      mret (bool_decide (StateHash testBlock = match stateHash with Ok h => default [] h | Err => [] end))
    end
  end.

(** One message: an error, or whether it was the last one that is needed. *)
Definition playDeltas (toBlockNumber currentBlock : Z) (ptr : nat) (m : SyncStateDeltas) (r : SyncBlockRange)
    : X (result bool) :=
  _ ←? applyDeltas ptr (sd_Deltas m);
  success ← stateMatches (End_ r);
  if negb (success : bool) then
    rolledBack ← onStack (stack_RollbackStateDelta (DeltaMessage ptr));
    (match rolledBack with Err => InvalidateState | Ok _ => mret tt end) ;; mret Err
  else
  committed ← onStack (stack_CommitStateDelta (DeltaMessage ptr));
  match committed with
  | Err => InvalidateState ;; mret Err
  | Ok _ => mret (Ok (bool_decide (currentBlock = toBlockNumber)))
  end.

Fixpoint recvStateDeltas (toBlockNumber : Z) (messages : list SyncStateDeltas) (currentBlock : Z) : X (Z * result unit) :=
  match messages with
  | [] => mret (currentBlock, Err)
  | m :: messages =>
    ptr ← arrive;
    match sd_Range m with
    | None => panic
    | Some r =>
      if negb (bool_decide (Start r = currentBlock)) || (End_ r <? Start r) || (End_ r >? toBlockNumber)
      then recvStateDeltas toBlockNumber messages currentBlock else
      played ← playDeltas toBlockNumber currentBlock ptr m r;
      match played with
      | Err => mret (currentBlock, Err)
      | Ok true => mret (currentBlock, Ok tt)
      | Ok false => recvStateDeltas toBlockNumber messages (u64 (currentBlock + 1))
      end
    end
  end.

Definition fetchDeltas (toBlockNumber : Z) (peerID : PeerID) (currentBlock : Z) : X (Z * result unit) :=
  reply ← ask (fun t => GetRemoteStateDeltas t peerID currentBlock toBlockNumber);
  match reply with
  | Err => mret (currentBlock, Err)
  | Ok messages => recvStateDeltas toBlockNumber messages currentBlock
  end.

Definition playStateUpToBlockNumber (fromBlockNumber toBlockNumber : Z) (peerIDs : option (list PeerID))
    : X (Z * result unit) :=
  tryOverPeers peerIDs (fetchDeltas toBlockNumber) fromBlockNumber.

(** The pieces of a snapshot up to the empty one, committed as they come. *)
Fixpoint recvSnapshot (pieces : list SyncStateSnapshot) (currentStateBlock : Z) : X (Z * result unit) :=
  match pieces with
  | [] => mret (currentStateBlock, Err)
  | piece :: pieces =>
    ptr ← arrive;
    match ss_Delta piece with
    | [] =>
      stateHash ← onStack stack_GetCurrentStateHash;
      match stateHash with
      | Err => InvalidateState ;; mret (currentStateBlock, Err)
      | Ok _ => mret (currentStateBlock, Ok tt)
      end
    | delta =>
      let '(umDelta, ok) := Unmarshal NewStateDelta delta in
      if negb ok then mret (currentStateBlock, Err) else
      onStack (stack_ApplyStateDelta (SnapshotPiece ptr) umDelta) ;;
      committed ← onStack (stack_CommitStateDelta (SnapshotPiece ptr));
      match committed with
      | Err => mret (ss_BlockNumber piece, Err)
      | Ok _ => recvSnapshot pieces (ss_BlockNumber piece)
      end
    end
  end.

Definition fetchSnapshot (peerID : PeerID) (currentStateBlock : Z) : X (Z * result unit) :=
  onStack stack_EmptyState ;;
  reply ← ask (fun t => GetRemoteStateSnapshot t peerID);
  match reply with
  | Err => mret (currentStateBlock, Err)
  | Ok pieces => recvSnapshot pieces currentStateBlock
  end.

Definition syncStateSnapshot (minBlockNumber : Z) (peerIDs : option (list PeerID)) : X (Z * result unit) :=
  tryOverPeers peerIDs fetchSnapshot 0.

(** * The threads *)

(** Rounds of the block thread until the chain is valid or it has a request. *)
Fixpoint background (rounds : nat) : X unit :=
  match rounds with
  | O => mret tt
  | Datatypes.S rounds =>
    valid ← VerifyAndRecoverBlockchain;
    if (valid : bool) then mret tt else background rounds
  end.

(** A request to the block thread, which takes it after the rounds it is in. *)
Definition requestBlocks (req : blockSyncReq PeerID) : X (result unit) :=
  rounds ← ask (backgroundRounds (PeerID := PeerID));
  background rounds ;; syncBlockchainToCheckpoint req.

(** The variables of one transfer. *)
Record transferVars := mkTransferVars {
  currentStateBlockNumber : Z;
  tv_mark : syncMark PeerID;
  tv_blockHReply : option (blockHashReply PeerID);
  blocksValid : bool
}.

(** Targets until one is high enough; [Err] when the thread is told to exit. *)
Fixpoint awaitTarget (current : Z) (targets : list (blockHashReply PeerID)) (last : option (blockHashReply PeerID))
    : list (blockHashReply PeerID) * option (blockHashReply PeerID) * result unit :=
  match targets with
  | [] => ([], last, Err)
  | target :: targets =>
    if bh_blockNumber target <? current then awaitTarget current targets (Some target)
    else (targets, Some target, Ok tt)
  end.

Definition recvTarget (current : Z) (last : option (blockHashReply PeerID))
    : X (option (blockHashReply PeerID) * result unit) :=
  s ← get;
  let '(targets, reply, err) := awaitTarget current (option_list (blockHashReceiver s) ++ arrivals s) last in
  modify (fun s => s <| blockHashReceiver := None |> <| arrivals := targets |>) ;;
  mret (reply, err).

(** The block number of the state: that of a new snapshot, or the head of the
    chain. *)
Definition currentState (v : transferVars) : X (transferVars * result unit) :=
  s ← get;
  let '(mkTransferVars _ mark reply valid) := v in
  if stateValid s then
    size ← onStack stack_GetBlockchainSize;
    mret (mkTransferVars (u64 (size - 1)) mark reply valid, Ok tt)
  else
    '(current, err) ← syncStateSnapshot (sm_blockNumber mark) (sm_peerIDs mark);
    match err with
    | Ok _ => mret (mkTransferVars current mark reply valid, Ok tt)
    | Err => mret (mkTransferVars current (mkSyncMark 0 None) reply valid, Err)
    end.

(** A target that is not below the state. *)
Definition currentTarget (v : transferVars) : X (transferVars * result unit) :=
  let '(mkTransferVars current mark reply valid) := v in
  if match reply with None => true | Some r => bh_blockNumber r <? current end then
    '(reply, err) ← recvTarget current reply;
    mret (mkTransferVars current mark reply (match err with Ok _ => false | Err => valid end), err)
  else mret (v, Ok tt).

(** The blocks from the target down to the state. *)
Definition currentBlocks (v : transferVars) (reply : blockHashReply PeerID) : X (transferVars * result unit) :=
  if blocksValid v then mret (v, Ok tt) else
  let current := currentStateBlockNumber v in
  let mark := bh_syncMark reply in
  err ← requestBlocks (mkBlockSyncReq mark current true (bh_blockHash reply));
  mret (mkTransferVars current mark (Some reply) (match err with Ok _ => true | Err => false end), err).

(** The state against the block it is the state of, and forward to the target. *)
Definition checkAndPlay (v : transferVars) (reply : blockHashReply PeerID) : X (transferVars * result unit) :=
  let '(mkTransferVars current mark _ valid) := v in
  if u64 (current + MaxStateDeltas conf) <? bh_blockNumber reply then mret (v, Err) else
  stateHash ← onStack stack_GetCurrentStateHash;
  match stateHash with
  | Err => InvalidateState ;; mret (v, Err)
  | Ok stateHash =>
    block ← onStack (stack_GetBlock current);
    match block with
    | Err => mret (mkTransferVars current mark (Some reply) false, Err)
    | Ok None => panic
    | Ok (Some block) =>
      if negb (bool_decide (default [] stateHash = StateHash block)) then InvalidateState ;; mret (v, Err) else
      modify (fun s => s <| stateValid := true |>) ;;
      if current <? bh_blockNumber reply then
        '(current, err) ← playStateUpToBlockNumber (u64 (current + 1)) (bh_blockNumber reply) (bh_peerIDs reply);
        (match err with Err => InvalidateState | Ok _ => mret tt end) ;;
        mret (mkTransferVars current mark (Some reply) valid, err)
      else mret (v, Ok tt)
    end
  end.

Definition attemptStateTransfer (v : transferVars) : X (transferVars * result unit) :=
  '(v, err) ← currentState v;
  match err with
  | Err => mret (v, Err)
  | Ok _ =>
    '(v, err) ← currentTarget v;
    match err, tv_blockHReply v with
    | Ok _, Some reply =>
      '(v, err) ← currentBlocks v reply;
      match err with Err => mret (v, Err) | Ok _ => checkAndPlay v reply end
    | _, _ => mret (v, Err)
    end
  end.

Definition informListeners (update : StateTransferUpdate PeerID) : X unit :=
  modify (fun s => s <| notices := notices s ++ [update] |>).

(** Attempts until one succeeds; the target of the one that did. *)
Fixpoint transferLoop (attempts : nat) (v : transferVars) : X (option (blockHashReply PeerID)) :=
  match attempts with
  | O => mret None
  | Datatypes.S attempts =>
    '(v, err) ← attemptStateTransfer v;
    match err with
    | Err => informListeners (Errored (sm_peerIDs (tv_mark v))) ;; transferLoop attempts v
    | Ok _ => mret (tv_blockHReply v)
    end
  end.

(** What the state thread does for one mark, when it is told to exit after so many
    attempts. *)
Definition runTransfer (attempts : nat) (mark : syncMark PeerID) : X unit :=
  informListeners Initiated ;;
  reply ← transferLoop attempts (mkTransferVars 0 mark None false);
  match reply with
  | None => mret tt
  | Some reply =>
    modify (fun s => s <| asynchronousTransferInProgress := false |>) ;;
    informListeners (Completed (bh_blockNumber reply) (bh_blockHash reply) (bh_peerIDs reply))
  end.
End transfer.
