(* ===== verification/PeerSync.v ===== *)
(** How a peer answers requests for blocks and state deltas: [sendBlocks] and
    [sendStateDeltas] of core/peer/handler.go.  The block numbers of a request are
    collected first, with unsigned arithmetic, and then sent one message each until
    one of them fails. *)
From stdpp Require Import base gmap list.
From Stdlib Require Import ZArith Lia.
From S2P Require Import Prelude GoStd GoBytes LedgerUtil KVStore StateDelta Blockchain Ledger.
From S2P Require Import ExecTransaction ConsensusHelper StateTransfer.

(** [for i := start; i >= end && i <= start; i--]; [None] when the fuel runs out. *)
Fixpoint reverseBlockNums (fuel : nat) (start end_ i : Z) : option (list Z) :=
  match fuel with
  | O => None
  | S fuel =>
    if (i >=? end_) && (i <=? start) then cons i <$> reverseBlockNums fuel start end_ (u64 (i - 1)) else Some []
  end.

(** [for i := start; i >= end; i--], as [sendStateDeltas] has it. *)
Fixpoint reverseDeltaNums (fuel : nat) (end_ i : Z) : option (list Z) :=
  match fuel with
  | O => None
  | S fuel => if i >=? end_ then cons i <$> reverseDeltaNums fuel end_ (u64 (i - 1)) else Some []
  end.

(** [for i := start; i <= end; i++]. *)
Fixpoint forwardBlockNums (fuel : nat) (end_ i : Z) : option (list Z) :=
  match fuel with
  | O => None
  | S fuel => if i <=? end_ then cons i <$> forwardBlockNums fuel end_ (u64 (i + 1)) else Some []
  end.

(** The messages up to the first number without one. *)
Fixpoint sendWhile {A} (message : Z -> option A) (nums : list Z) : list A :=
  match nums with
  | [] => []
  | n :: nums => match message n with None => [] | Some m => m :: sendWhile message nums end
  end.

(** A nil block cannot be marshalled. *)
Definition blockMessage (getBlock : Z -> ledgerResult (option Block)) (n : Z) : option SyncBlocks :=
  match getBlock n with
  | LOk (Some block) => Some (mkSyncBlocks (Some (mkSyncBlockRange n n)) [block])
  | _ => None
  end.

Definition sendBlocks (fuel : nat) (getBlock : Z -> ledgerResult (option Block)) (r : SyncBlockRange)
    : option (list SyncBlocks) :=
  sendWhile (blockMessage getBlock) <$>
    (if Start r >? End_ r then reverseBlockNums fuel (Start r) (End_ r) (Start r)
     else forwardBlockNums fuel (End_ r) (Start r)).

Definition deltaMessage (o : mapOrder) (getDelta : Z -> ledgerResult (option StateDelta)) (n : Z)
    : option SyncStateDeltas :=
  match getDelta n with
  | LOk (Some delta) => Some (mkSyncStateDeltas (Some (mkSyncBlockRange n n)) [Marshal o delta])
  | _ => None
  end.

Definition sendStateDeltas (fuel : nat) (o : mapOrder) (getDelta : Z -> ledgerResult (option StateDelta))
    (r : SyncBlockRange) : option (list SyncStateDeltas) :=
  sendWhile (deltaMessage o getDelta) <$>
    (if Start r >? End_ r then reverseDeltaNums fuel (End_ r) (Start r)
     else forwardBlockNums fuel (End_ r) (Start r)).

(** * Block numbers *)

(** [n], [n - 1], ..., [k] of them. *)
Fixpoint downFrom (k : nat) (n : Z) : list Z :=
  match k with O => [] | S k => n :: downFrom k (n - 1) end.

Lemma u64_pred i : 0 < i < two64 -> u64 (i - 1) = i - 1.
Proof. intros. unfold u64. apply Z.mod_small. lia. Qed.

(** The loop of [sendBlocks] stops at [end] also when that is zero. *)
Lemma reverseBlockNums_down k : forall fuel start end_ i, 0 <= end_ -> 0 <= i <= start -> start + 1 < two64 ->
  i + 1 - end_ = Z.of_nat (S k) -> (S k < fuel)%nat ->
  reverseBlockNums fuel start end_ i = Some (downFrom (S k) i).
Proof.
  induction k as [|k IH]; intros [|fuel] start end_ i He Hi Hs Hk Hf; try lia; cbn [reverseBlockNums].
  - assert (i = end_) as -> by lia. rewrite Z.geb_leb, Z.leb_refl, (proj2 (Z.leb_le _ _)) by lia. cbn [andb].
    destruct fuel as [|fuel]; [lia|]. cbn [reverseBlockNums].
    destruct (decide (end_ = 0)) as [->|].
    + assert ((u64 (0 - 1) <=? start) = false) as -> by (apply Z.leb_gt; change (u64 (0 - 1)) with (two64 - 1); lia).
      by rewrite andb_false_r.
    + rewrite u64_pred by lia. assert ((end_ - 1 >=? end_) = false) as -> by lia. done.
  - assert ((i >=? end_) = true) as -> by lia. assert ((i <=? start) = true) as -> by lia. cbn [andb].
    rewrite u64_pred by lia. by rewrite IH by lia.
Qed.

(** [sendStateDeltas] never gets past a request that goes backwards to block zero. *)
Lemma reverseDeltaNums_zero fuel : forall i, 0 <= i -> reverseDeltaNums fuel 0 i = None.
Proof.
  induction fuel as [|fuel IH]; intros i Hi; cbn; [done|].
  assert ((i >=? 0) = true) as -> by lia. rewrite IH; [done|]. unfold u64. apply Z.mod_pos_bound. done.
Qed.

Lemma sendStateDeltas_zero fuel o getDelta start : 0 < start -> sendStateDeltas fuel o getDelta (mkSyncBlockRange start 0) = None.
Proof.
  intros Hs. unfold sendStateDeltas. cbn. assert ((start >? 0) = true) as -> by lia.
  by rewrite reverseDeltaNums_zero by lia.
Qed.
