(* ===== verification/TransferSpec.v ===== *)
(** What state transfer relies on of the ledger, as an interface, and what it
    guarantees against peers that send anything: blocks that are accepted are
    linked to the hash they were asked for by, and a state that is accepted has the
    hash its block records. *)
From stdpp Require Import base gmap list.
From Stdlib Require Import ZArith Lia.
From S2P Require Import Prelude GoStd GoBytes LedgerUtil KVStore StateDelta StateSpec HashableState Blockchain Ledger.
From S2P Require Import ExecTransaction ConsensusHelper StateTransfer PeerSync.

(** * The interface *)

(** A block that the database gives back: one that is marshalled to nothing reads as
    missing. *)
Definition goodBlock `{BlockCodec} (b : Block) : Prop := typedBlock b /\ marshalBlock b <> Ok [].

(** [tr_holds s kv bl op]: the ledger has the committed state [kv] and the blocks
    [bl], with holes perhaps, and [op] is the delta in progress: its id and the state
    it leads to. *)
Class TransferSpec (S : Type) `{!LedgerStack S} `{BlockCodec} := {
  tr_hash : kvs -> bytes;
  tr_holds : S -> kvs -> gmap Z Block -> option (transferID * kvs) -> Prop;
  tr_GetBlock : forall s kv bl op n, tr_holds s kv bl op ->
    exists r, stack_GetBlock n s = Done r s /\ (is_u64 n -> forall b, r = Ok (Some b) <-> bl !! n = Some b);
  tr_Size : forall s kv bl op, tr_holds s kv bl op ->
    exists size, stack_GetBlockchainSize s = Done size s /\ is_u64 size /\
      forall n b, bl !! n = Some b -> 0 <= n < size;
  tr_Put : forall s kv bl op n b, tr_holds s kv bl op -> is_u64 n -> goodBlock b ->
    exists s' bl', stack_PutBlock n b s = Done (Ok tt) s' /\ tr_holds s' kv bl' op /\
      (n + 1 < two64 -> bl' = <[n := b]> bl);
  tr_Verify : forall s kv bl op high low, tr_holds s kv bl op ->
    exists r, stack_VerifyBlockchain high low s = Done r s;
  tr_Hash : forall s kv bl op, tr_holds s kv bl op ->
    exists h s', stack_GetCurrentStateHash s = Done (Ok h) s' /\ default [] h = tr_hash (from_option snd kv op) /\
      tr_holds s' kv bl op;
  tr_Apply : forall s kv bl id d, tr_holds s kv bl None -> admissible d ->
    exists s', stack_ApplyStateDelta id d s = Done (Ok tt) s' /\ tr_holds s' kv bl (Some (id, applyDelta kv d));
  tr_Apply_busy : forall s kv bl p id d, tr_holds s kv bl (Some p) -> stack_ApplyStateDelta id d s = Done Err s;
  tr_Commit : forall s kv bl id kv', tr_holds s kv bl (Some (id, kv')) ->
    exists s', stack_CommitStateDelta id s = Done (Ok tt) s' /\ tr_holds s' kv' bl None;
  tr_Commit_other : forall s kv bl op id, tr_holds s kv bl op -> (forall kv', op <> Some (id, kv')) ->
    stack_CommitStateDelta id s = Done Err s;
  tr_Rollback : forall s kv bl id kv', tr_holds s kv bl (Some (id, kv')) ->
    exists s', stack_RollbackStateDelta id s = Done (Ok tt) s' /\ tr_holds s' kv bl None;
  tr_Rollback_other : forall s kv bl op id, tr_holds s kv bl op -> (forall kv', op <> Some (id, kv')) ->
    stack_RollbackStateDelta id s = Done Err s
}.

(** Blocks that Go could have received. *)
Definition typedNetwork (PeerID : Type) `{!Network PeerID} `{BlockCodec} : Prop :=
  forall t (p : PeerID) from to ms, GetRemoteBlocks t p from to = Ok ms -> Forall (fun m => Forall goodBlock (sb_Blocks m)) ms.

(** Deltas that an implementation of the state accepts. *)
Definition goodDelta (d : bytes) : Prop :=
  snd (Unmarshal NewStateDelta d) = true -> admissible (fst (Unmarshal NewStateDelta d)).

Definition goodDeltas (m : SyncStateDeltas) : Prop := Forall goodDelta (sd_Deltas m).

Definition admissibleNetwork (PeerID : Type) `{!Network PeerID} : Prop :=
  forall t (p : PeerID) from to ms, GetRemoteStateDeltas t p from to = Ok ms ->
    Forall goodDeltas ms.

(** * Linked blocks *)

Section linked.
Context `{BlockCodec} (hash : bytes -> bytes).

Definition hasHash (b : Block) (h : bytes) : Prop := helper_HashBlock hash (Some b) = Ok h.

(** [linkedDown bl n h m h']: the blocks from [n] down to [m + 1] have the hashes [h]
    and those that blocks with these hashes record as the previous one; [h'] is the
    next. *)
Inductive linkedDown (bl : gmap Z Block) : Z -> bytes -> Z -> bytes -> Prop :=
| linked_none n h : linkedDown bl n h n h
| linked_block n h m h' c b : bl !! n = Some c -> hasHash c h -> hasHash b h ->
    linkedDown bl (n - 1) (PreviousBlockHash b) m h' -> linkedDown bl n h m h'.

Lemma linkedDown_le bl n h m h' : linkedDown bl n h m h' -> m <= n.
Proof. induction 1; lia. Qed.

Lemma linkedDown_insert bl n h m h' k b : linkedDown bl n h m h' -> k <= m -> linkedDown (<[k := b]> bl) n h m h'.
Proof.
  induction 1 as [|n h m h' c b' Hl Hc Hb Hd IH]; intros Hk; [constructor|].
  pose proof (linkedDown_le _ _ _ _ _ Hd). eapply linked_block; [|exact Hc|exact Hb|by apply IH].
  by rewrite lookup_insert_ne by lia.
Qed.

Lemma linkedDown_snoc bl n h m h' c b : linkedDown bl n h m h' -> bl !! m = Some c -> hasHash c h' -> hasHash b h' ->
  linkedDown bl n h (m - 1) (PreviousBlockHash b).
Proof.
  induction 1 as [|n h m h' c' b' Hl Hc Hb Hd IH]; intros E Ec Eb.
  - econstructor; eauto. constructor.
  - econstructor; eauto.
Qed.

(** The block on top has the hash that was asked for. *)
Lemma linkedDown_top bl n h m h' : linkedDown bl n h m h' -> m < n -> exists c, bl !! n = Some c /\ hasHash c h.
Proof. destruct 1 as [|? ? ? ? c]; [lia|]. eauto. Qed.
End linked.

(** * Blocks from anyone *)

Section safety.
Context {S PeerID : Type} `{!LedgerStack S} `{BlockCodec} `{!TransferSpec S} `{!Network PeerID}
  (hash : bytes -> bytes) (conf : transferConfig).

Abbreviation St := (StateTransferState S PeerID).

Lemma wlp_onStack {A} (m : M S A) (Q : A -> St -> Prop) s :
  wlp m (fun a st => Q a (s <| stack := st |>)) (stack s) -> wlp (onStack m) Q s.
Proof. unfold wlp, onStack. by destruct (m (stack s)). Qed.

(** A call of the stack whose outcome is known. *)
Lemma wlp_call {A} (m : M S A) (Q : A -> St -> Prop) s a st : m (stack s) = Done a st ->
  Q a (s <| stack := st |>) -> wlp (onStack m) Q s.
Proof. intros E HQ. apply wlp_onStack. unfold wlp. by rewrite E. Qed.

Lemma wlp_ask {A} (f : nat -> A) (Q : A -> St -> Prop) s :
  Q (f (calls_ s)) (s <| calls_ := (calls_ s + 1)%nat |>) -> wlp (ask f) Q s.
Proof. done. Qed.

(** The loop over peers keeps an invariant that every attempt keeps. *)
Lemma wlp_tryLoop {V} (do_ : PeerID -> V -> M St (V * result unit)) peers start (I : V -> St -> Prop)
    (Q : V -> St -> Prop) rounds : forall v err s,
  (forall p v s, I v s -> wlp (do_ p v) (fun x s' => match snd x with Ok _ => Q (fst x) s' | Err => I (fst x) s' end) s) ->
  I v s -> (rounds = [] -> err = Err) ->
  wlp (tryLoop do_ peers start rounds v err) (fun x s' => match snd x with Ok _ => Q (fst x) s' | Err => I (fst x) s' end) s.
Proof.
  induction rounds as [|i rounds IH]; intros v err s Hdo HI Herr; cbn [tryLoop].
  - apply wlp_ret. by rewrite Herr.
  - destruct (peers !! _) as [p|]; [|done]. apply wlp_bind. eapply wlp_mono; [by apply Hdo|].
    cbn. intros [v' [u|]] s'; cbn; intros HQ; [by apply wlp_ret|]. by apply IH.
Qed.

(** The invariant survives the calls of the network. *)
Lemma wlp_tryOverPeers {V} (do_ : PeerID -> V -> M St (V * result unit)) peers (I : V -> St -> Prop)
    (Q : V -> St -> Prop) v s :
  (forall v s, I v s -> I v (s <| calls_ := (calls_ s + 1)%nat |>)) ->
  (forall p v s, I v s -> wlp (do_ p v) (fun x s' => match snd x with Ok _ => Q (fst x) s' | Err => I (fst x) s' end) s) ->
  I v s ->
  wlp (tryOverPeers peers do_ v) (fun x s' => match snd x with Ok _ => Q (fst x) s' | Err => I (fst x) s' end) s.
Proof.
  intros Hcalls Hdo HI. unfold tryOverPeers.
  assert (forall ps s, I v s -> wlp (match ps with
    | Err | Ok [] => mret (v, Err)
    | Ok peerIDs => r ← ask (randInt (PeerID := PeerID));
        tryLoop do_ peerIDs (r mod length peerIDs)%nat (seq 0 (length peerIDs)) v (Ok tt)
    end) (fun x s' => match snd x with Ok _ => Q (fst x) s' | Err => I (fst x) s' end) s) as Hk.
  { intros [[|p ps]|] s1 HI1; try by apply wlp_ret. apply wlp_bind, wlp_ask. apply wlp_tryLoop; [done|auto|done]. }
  apply wlp_bind. destruct peers as [ps|].
  - apply wlp_ret. by apply (Hk (Ok ps)).
  - unfold discover. apply wlp_bind, wlp_ask, wlp_ret. apply Hk. auto.
Qed.

(** A block that is stored, or was there, has the expected hash. *)
Lemma storeBlock_wlp n h b (s : St) kv bl op : tr_holds (stack s) kv bl op -> 0 <= n -> n + 1 < two64 -> goodBlock b ->
  hasHash hash b h ->
  wlp (storeBlock hash conf n h b) (fun _ s' => exists bl' c, tr_holds (stack s') kv bl' op /\
    bl' !! n = Some c /\ hasHash hash c h /\ (bl' = bl \/ bl' = <[n := b]> bl)) s.
Proof.
  intros Hh Hn Hn' Ht Hb. unfold storeBlock.
  assert (forall s : St, tr_holds (stack s) kv bl op -> wlp (onStack (stack_PutBlock n b) ;; mret tt) (fun _ s' =>
    exists bl' c, tr_holds (stack s') kv bl' op /\ bl' !! n = Some c /\ hasHash hash c h /\
      (bl' = bl \/ bl' = <[n := b]> bl)) s) as Hput.
  { intros s1 Hs1. destruct (tr_Put _ _ _ _ n b Hs1 ltac:(unfold is_u64; lia) Ht) as (st & bl' & E & Hst & Hbl). apply wlp_bind.
    eapply wlp_call; [exact E|]. apply wlp_ret. exists bl', b. split; [exact Hst|].
    rewrite (Hbl Hn'), lookup_insert_eq. auto. }
  destruct (RecoverDamage conf); [by apply Hput|].
  destruct (tr_GetBlock _ _ _ _ n Hh) as (r & E & Hr). specialize (Hr ltac:(unfold is_u64; lia)).
  apply wlp_bind. eapply wlp_call; [exact E|]. destruct r as [[old|]|]; [|by apply Hput..].
  destruct (helper_HashBlock hash (Some old)) as [h'|] eqn:Eh; [|done]. case_bool_decide as Heq; [|done].
  apply wlp_ret. exists bl, old. split; [done|]. split; [by apply Hr|]. split; [by subst h'|auto].
Qed.

Section blocks.
Context (high low : Z) (highHash : bytes) (kv : kvs) (op : option (transferID * kvs)) (bl0 : gmap Z Block).
Hypothesis Hlow : 0 <= low.
Hypothesis Hhigh : high + 1 < two64.

(** While blocks are fetched, and when all of them are there. *)
Definition fetching (v : blockVars) (s : St) : Prop :=
  low <= blockCursor v <= high /\ exists bl, tr_holds (stack s) kv bl op /\
    linkedDown hash bl high highHash (blockCursor v) (validBlockHash v) /\
    forall n, n < low \/ high < n -> bl !! n = bl0 !! n.

Definition fetched (v : blockVars) (s : St) : Prop :=
  blockCursor v = low /\ exists bl b, tr_holds (stack s) kv bl op /\ sv_block v = Some b /\
    linkedDown hash bl high highHash (low - 1) (PreviousBlockHash b) /\
    forall n, n < low \/ high < n -> bl !! n = bl0 !! n.

Lemma recvBlocks_wlp start blocks : forall i v s, Forall goodBlock blocks -> fetching v s ->
  wlp (recvBlocks hash conf low start i blocks v) (fun x s' =>
    match snd x with Some (Ok _) => fetched (fst x) s' | _ => fetching (fst x) s' end) s.
Proof.
  induction blocks as [|b blocks IH]; intros i v s Ht Hf; cbn [recvBlocks]; [by apply wlp_ret|].
  apply Forall_cons in Ht as [Hb Ht]. destruct v as [cursor expected old].
  assert (fetching (mkBlockVars cursor expected (Some b)) s) as Hf' by exact Hf.
  destruct (negb _); [by apply IH|].
  destruct (helper_HashBlock hash (Some b)) as [h|] eqn:Eh; [|by apply wlp_ret].
  case_bool_decide as Heq; cbn [negb]; [subst h|by apply wlp_ret].
  destruct Hf as [Hc (bl & Hh & Hl & Ho)]. cbn in Hc, Hl. apply wlp_bind.
  eapply wlp_mono; [by apply (storeBlock_wlp cursor expected b s kv bl op); try lia|].
  cbn. intros _ s1 (bl1 & c & Hh1 & Ec & Hch & Hbl).
  assert (linkedDown hash bl1 high highHash (cursor - 1) (PreviousBlockHash b)) as Hl1.
  { eapply linkedDown_snoc; [|exact Ec|exact Hch|exact Eh]. destruct Hbl as [->| ->]; [done|].
    by apply linkedDown_insert. }
  assert (forall n, n < low \/ high < n -> bl1 !! n = bl0 !! n) as Ho1.
  { intros n Hn. rewrite <- (Ho n Hn). destruct Hbl as [->| ->]; [done|]. by rewrite lookup_insert_ne by lia. }
  case_bool_decide as Hcl.
  - apply wlp_ret. subst cursor. split; [done|]. by exists bl1, b.
  - apply IH; [done|]. split; cbn; [rewrite u64_pred by lia; lia|]. exists bl1. split; [done|].
    rewrite u64_pred by lia. done.
Qed.

Lemma recvSyncBlocks_wlp messages : forall v s, Forall (fun m => Forall goodBlock (sb_Blocks m)) messages -> fetching v s ->
  wlp (recvSyncBlocks hash conf low messages v) (fun x s' =>
    match snd x with Ok _ => fetched (fst x) s' | Err => fetching (fst x) s' end) s.
Proof.
  induction messages as [|m messages IH]; intros v s Ht Hf; cbn [recvSyncBlocks]; [by apply wlp_ret|].
  apply Forall_cons in Ht as [Hm Ht]. destruct (sb_Range m) as [r|]; [|done].
  destruct (Start r <? End_ r); [by apply IH|]. apply wlp_bind.
  eapply wlp_mono; [by apply recvBlocks_wlp|]. cbn. intros [v' [[u|]|]] s' Hx; cbn in Hx.
  - by apply wlp_ret.
  - by apply wlp_ret.
  - by apply IH.
Qed.

(** [syncBlocks], as it returns: everything it keeps is linked to [highHash], and the
    other blocks are as they were. *)
Lemma syncBlocks_wlp peers (s : St) : typedNetwork PeerID -> low <= high -> tr_holds (stack s) kv bl0 op ->
  wlp (syncBlocks hash conf high low highHash peers) (fun x s' => let '(n, block, err) := x in
    match err with
    | Ok _ => fetched (mkBlockVars n [] block) s'
    | Err => exists h, fetching (mkBlockVars n h block) s'
    end) s.
Proof.
  intros Hnet Hle Hh. unfold syncBlocks. apply wlp_bind. eapply wlp_mono.
  - apply (wlp_tryOverPeers _ _ fetching fetched).
    + intros v s1. exact (fun H => H).
    + intros p v s1 Hf. unfold fetchBlocks. apply wlp_bind, wlp_ask. cbv beta.
      destruct (GetRemoteBlocks _ p _ low) as [ms|] eqn:E; [|by apply wlp_ret].
      apply recvSyncBlocks_wlp; [by eapply Hnet|exact Hf].
    + split; cbn; [lia|]. exists bl0. split; [done|]. split; [constructor|done].
  - cbn. intros [[n h block] [u|]] s' Hx; cbn in Hx; apply wlp_ret; [exact Hx|by exists h].
Qed.
End blocks.

(** * The block thread in the background *)

(** Whatever it does, it leaves the state alone. *)
Section background.
Context (kv : kvs) (op : option (transferID * kvs)).

Definition keeps (s : St) : Prop := exists bl, tr_holds (stack s) kv bl op.

Lemma wlp_GetBlock n (Q : result (option Block) -> St -> Prop) s :
  keeps s -> (forall r, Q r s) -> wlp (onStack (stack_GetBlock n)) Q s.
Proof.
  intros [bl Hh] HQ. destruct (tr_GetBlock _ _ _ _ n Hh) as (r & E & _). eapply wlp_call; [exact E|].
  destruct s. apply HQ.
Qed.

Lemma storeBlock_keeps n h b s : keeps s -> is_u64 n -> goodBlock b ->
  wlp (storeBlock hash conf n h b) (fun _ => keeps) s.
Proof.
  intros Hk Hn Ht. unfold storeBlock.
  assert (wlp (onStack (stack_PutBlock n b) ;; mret tt) (fun _ => keeps) s) as Hput.
  { destruct Hk as [bl Hh]. destruct (tr_Put _ _ _ _ n b Hh Hn Ht) as (st & bl' & E & Hst & _). apply wlp_bind.
    eapply wlp_call; [exact E|]. apply wlp_ret. by exists bl'. }
  destruct (RecoverDamage conf); [done|]. apply wlp_bind, wlp_GetBlock; [done|].
  intros [[old|]|]; [|done..]. destruct (helper_HashBlock _ _); [|done]. by case_bool_decide.
Qed.

Definition keepsCursor (v : blockVars) (s : St) : Prop := is_u64 (blockCursor v) /\ keeps s.

Lemma is_u64_u64 n : is_u64 (u64 n).
Proof. unfold is_u64, u64. apply Z.mod_pos_bound. done. Qed.

Lemma recvBlocks_keeps low start blocks : forall i v s, Forall goodBlock blocks -> keepsCursor v s ->
  wlp (recvBlocks hash conf low start i blocks v) (fun x => keepsCursor (fst x)) s.
Proof.
  induction blocks as [|b blocks IH]; intros i [cursor expected old] s Ht [Hc Hk]; cbn [recvBlocks]; [by apply wlp_ret|].
  apply Forall_cons in Ht as [Hb Ht]. destruct (negb _); [by apply IH|].
  destruct (helper_HashBlock _ _) as [h|]; [|by apply wlp_ret]. destruct (negb _); [by apply wlp_ret|].
  apply wlp_bind. eapply wlp_mono; [by apply storeBlock_keeps|]. cbn. intros _ s1 Hk1.
  case_bool_decide; [by apply wlp_ret|]. apply IH; [done|]. split; [apply is_u64_u64|done].
Qed.

Lemma recvSyncBlocks_keeps low messages : forall v s, Forall (fun m => Forall goodBlock (sb_Blocks m)) messages ->
  keepsCursor v s -> wlp (recvSyncBlocks hash conf low messages v) (fun x => keepsCursor (fst x)) s.
Proof.
  induction messages as [|m messages IH]; intros v s Ht Hf; cbn [recvSyncBlocks]; [by apply wlp_ret|].
  apply Forall_cons in Ht as [Hm Ht]. destruct (sb_Range m) as [r|]; [|done].
  destruct (_ <? _); [by apply IH|]. apply wlp_bind.
  eapply wlp_mono; [by apply recvBlocks_keeps|]. cbn. intros [v' [u|]] s' Hx; [by apply wlp_ret|by apply IH].
Qed.

Lemma syncBlocks_keeps high low h peers s : typedNetwork PeerID -> is_u64 high -> keeps s ->
  wlp (syncBlocks hash conf high low h peers) (fun _ => keeps) s.
Proof.
  intros Hnet Hhi Hk. unfold syncBlocks. apply wlp_bind. eapply wlp_mono.
  - apply (wlp_tryOverPeers _ _ keepsCursor keepsCursor).
    + intros v s1. exact (fun H => H).
    + intros p v s1 Hf. unfold fetchBlocks. apply wlp_bind, wlp_ask. cbv beta.
      destruct (GetRemoteBlocks _ p _ low) as [ms|] eqn:E; [|by apply wlp_ret].
      eapply wlp_mono; [by apply recvSyncBlocks_keeps; [eapply Hnet|]|]. by intros [v' [u|]].
    + by split.
  - cbn. intros [v [u|]] s' [_ Hx]; by apply wlp_ret.
Qed.

Lemma setRanges_keeps rs s (Q : unit -> St -> Prop) : keeps s -> (forall s', keeps s' -> Q tt s') -> wlp (setRanges rs) Q s.
Proof. intros Hk HQ. apply wlp_modify, HQ, Hk. Qed.

Lemma verifyOrRecover_keeps r0 rest target s : typedNetwork PeerID -> keeps s ->
  wlp (verifyOrRecover hash conf r0 rest target) (fun _ => keeps) s.
Proof.
  intros Hnet Hk. unfold verifyOrRecover. apply wlp_bind. pose proof Hk as [bl Hh].
  destruct (tr_Verify _ _ _ _ (lowBlock r0) target Hh) as ([bad err] & E). eapply wlp_call; [exact E|].
  destruct err as [u|].
  - apply wlp_bind, setRanges_keeps; [exact Hk|]. intros s1 Hk1. apply wlp_bind, wlp_GetBlock; [done|].
    intros [[b|]|]; [|done|by apply wlp_ret]. by apply setRanges_keeps.
  - apply wlp_bind. eapply wlp_mono; [by apply syncBlocks_keeps; [|apply is_u64_u64|exact Hk]|].
    cbn. intros [[n [b|]] e] s1 Hk1; [|by apply wlp_ret]. case_bool_decide; [by apply wlp_ret|].
    by apply setRanges_keeps.
Qed.

Lemma VerifyAndRecover_keeps s : typedNetwork PeerID -> keeps s ->
  wlp (VerifyAndRecoverBlockchain hash conf) (fun _ => keeps) s.
Proof.
  intros Hnet Hk. unfold VerifyAndRecoverBlockchain. apply wlp_bind.
  eapply (wlp_mono _ (fun _ => keeps)).
  - unfold initialRange. apply wlp_bind, wlp_get. destruct (validBlockRanges s); [|by apply wlp_ret].
    pose proof Hk as [bl Hh]. destruct (tr_Size _ _ _ _ Hh) as (size & E & _). apply wlp_bind.
    eapply wlp_call; [exact E|]. case_bool_decide; [by apply wlp_ret|].
    apply wlp_bind, wlp_GetBlock; [exact Hk|]. intros [[b|]|]; [|done|by apply wlp_ret].
    by apply wlp_bind, wlp_modify, wlp_ret.
  - cbn. intros started s1 Hk1. destruct started; cbn [negb]; [|by apply wlp_ret]. apply wlp_bind, wlp_get.
    destruct (sortRanges _) as [|r0 rest]; [done|]. apply wlp_bind, setRanges_keeps; [done|]. intros s2 Hk2.
    assert (forall t, wlp (verifyOrRecover hash conf r0 rest t ;; mret false) (fun _ => keeps) s2) as Hv.
    { intros t. apply wlp_bind. eapply wlp_mono; [by apply verifyOrRecover_keeps|]. by intros; apply wlp_ret. }
    destruct rest as [|r1 rest]; [case_bool_decide; [by apply wlp_ret|apply Hv]|].
    destruct (_ >=? _); [|apply Hv]. apply wlp_bind. unfold mergeRanges.
    eapply (wlp_mono _ (fun _ => keeps)); [|by intros; apply wlp_ret].
    destruct (_ <? _); [|by apply setRanges_keeps]. apply wlp_bind, wlp_GetBlock; [done|]. intros r.
    by apply setRanges_keeps.
Qed.

Lemma background_keeps rounds : forall s, typedNetwork PeerID -> keeps s ->
  wlp (background hash conf rounds) (fun _ => keeps) s.
Proof.
  induction rounds as [|rounds IH]; intros s Hnet Hk; cbn [background]; [by apply wlp_ret|].
  apply wlp_bind. eapply wlp_mono; [by apply VerifyAndRecover_keeps|]. cbn. intros [] s1 Hk1; [by apply wlp_ret|by apply IH].
Qed.
End background.

(** * Deltas from anyone *)

Section deltas.
Context (bl : gmap Z Block).

(** Some state, with some delta in progress; and a state that block [n] vouches for. *)
Definition playing (s : St) : Prop := exists kv op, tr_holds (stack s) kv bl op.

Definition vouched (n : Z) (s : St) : Prop :=
  exists kv b, tr_holds (stack s) kv bl None /\ bl !! n = Some b /\ tr_hash kv = StateHash b.

Lemma vouched_playing n s : vouched n s -> playing s.
Proof. intros (kv & b & Hh & _). by exists kv, None. Qed.

Lemma in_progress (op : option (transferID * kvs)) id :
  (exists kv', op = Some (id, kv')) \/ forall kv', op <> Some (id, kv').
Proof. destruct op as [[id' kv']|]; [|right; done]. destruct (decide (id' = id)) as [->|]; [left; eauto|right; congruence]. Qed.

Lemma stateMatches_wlp n (s : St) kv op : is_u64 n -> tr_holds (stack s) kv bl op ->
  wlp (stateMatches n) (fun ok s' => tr_holds (stack s') kv bl op /\
    (ok = true -> exists b, bl !! n = Some b /\ tr_hash (from_option snd kv op) = StateHash b)) s.
Proof.
  intros Hn Hh. unfold stateMatches. destruct (tr_GetBlock _ _ _ _ n Hh) as (r & E & Hr).
  apply wlp_bind. eapply wlp_call; [exact E|]. destruct r as [block|]; [|by apply wlp_ret].
  destruct (tr_Hash _ _ _ _ Hh) as (h & st & Eh & Hd & Hh'). apply wlp_bind. eapply wlp_call; [exact Eh|].
  destruct block as [b|]; [|done]. apply wlp_ret. split; [exact Hh'|]. case_bool_decide as Heq; [|done].
  intros _. exists b. split; [by apply Hr|]. by rewrite Heq.
Qed.

Lemma applyDeltas_wlp ptr ds : forall (s : St) kv op, Forall goodDelta ds -> tr_holds (stack s) kv bl op ->
  wlp (applyDeltas ptr ds) (fun _ s' => exists op', tr_holds (stack s') kv bl op') s.
Proof.
  induction ds as [|d ds IH]; intros s kv op Hds Hh; cbn [applyDeltas]; [apply wlp_ret; eauto|].
  apply Forall_cons in Hds as [Hd Hds]. unfold goodDelta in Hd.
  destruct (Unmarshal NewStateDelta d) as [um ok]. destruct ok; cbn [negb]; [|apply wlp_ret; eauto]. cbn in Hd. apply wlp_bind. destruct op as [p|].
  - eapply wlp_call; [exact (tr_Apply_busy _ _ _ _ _ _ Hh)|]. by apply (IH _ kv (Some p)).
  - destruct (tr_Apply _ _ _ (DeltaMessage ptr) um Hh (Hd eq_refl)) as (st & E & Hst).
    eapply wlp_call; [exact E|]. by apply (IH _ kv (Some (DeltaMessage ptr, applyDelta kv um))).
Qed.

Lemma playDeltas_wlp to current ptr m r (s : St) : is_u64 (End_ r) -> goodDeltas m -> playing s ->
  wlp (playDeltas to current ptr m r) (fun x s' =>
    match x with Ok last => vouched (End_ r) s' /\ (last = true -> current = to) | Err => playing s' end) s.
Proof.
  intros Hn Hg (kv & op & Hh). unfold playDeltas, try. apply wlp_bind.
  eapply wlp_mono; [exact (applyDeltas_wlp ptr (sd_Deltas m) s kv op Hg Hh)|]. cbn. intros [u|] s1 (op1 & Hh1); [|apply wlp_ret; by exists kv, op1].
  apply wlp_bind. eapply wlp_mono; [by apply stateMatches_wlp|]. cbn. intros [] s2 [Hh2 Hok]; cbn [negb].
  - specialize (Hok eq_refl) as (b & Eb & Hb). apply wlp_bind.
    destruct (in_progress op1 (DeltaMessage ptr)) as [[kv' ->]|Hne].
    + destruct (tr_Commit _ _ _ _ _ Hh2) as (st & E & Hst). eapply wlp_call; [exact E|]. apply wlp_ret.
      split; [exists kv', b; by split|]. by case_bool_decide.
    + eapply wlp_call; [exact (tr_Commit_other _ _ _ _ _ Hh2 Hne)|].
      apply wlp_bind, wlp_modify, wlp_ret. by exists kv, op1.
  - apply wlp_bind. destruct (in_progress op1 (DeltaMessage ptr)) as [[kv' ->]|Hne].
    + destruct (tr_Rollback _ _ _ _ _ Hh2) as (st & E & Hst). eapply wlp_call; [exact E|].
      apply wlp_bind, wlp_ret, wlp_ret. by exists kv, None.
    + eapply wlp_call; [exact (tr_Rollback_other _ _ _ _ _ Hh2 Hne)|].
      apply wlp_bind, wlp_modify, wlp_ret. by exists kv, op1.
Qed.

Lemma recvStateDeltas_wlp to ms : forall current s, is_u64 to -> is_u64 current -> Forall goodDeltas ms -> playing s ->
  wlp (recvStateDeltas to ms current) (fun x s' =>
    match snd x with Ok _ => vouched to s' | Err => is_u64 (fst x) /\ playing s' end) s.
Proof.
  induction ms as [|m ms IH]; intros current s Ht Hc Hg Hp; cbn [recvStateDeltas]; [by apply wlp_ret|].
  apply Forall_cons in Hg as [Hm Hg]. apply wlp_bind, wlp_ask. destruct (sd_Range m) as [r|]; [|done].
  destruct (negb (bool_decide (Start r = current)) || (End_ r <? Start r) || (End_ r >? to)) eqn:Er; [by apply IH|].
  apply orb_false_elim in Er as [[Es Ee]%orb_false_elim Et]. apply negb_false_iff, bool_decide_eq_true in Es.
  assert (current <= End_ r <= to) as Hr by lia. assert (is_u64 (End_ r)) by (unfold is_u64 in *; lia).
  apply wlp_bind. eapply wlp_mono; [apply playDeltas_wlp; [done|done|done]|].
  cbn. intros [[]|] s1 Hx.
  - destruct Hx as [Hv Hl]. specialize (Hl eq_refl). apply wlp_ret. cbn. by replace to with (End_ r) by lia.
  - destruct Hx as [Hv _]. apply IH; [done|apply is_u64_u64|done|by eapply vouched_playing].
  - by apply wlp_ret.
Qed.

Lemma playState_wlp from to peers s : admissibleNetwork PeerID -> is_u64 from -> is_u64 to -> playing s ->
  wlp (playStateUpToBlockNumber from to peers) (fun x s' =>
    match snd x with Ok _ => vouched to s' | Err => playing s' end) s.
Proof.
  intros Hnet Hf Ht Hp. unfold playStateUpToBlockNumber.
  eapply wlp_mono; [apply (wlp_tryOverPeers _ _ (fun current s => is_u64 current /\ playing s) (fun _ => vouched to))|].
  - intros v s1. exact (fun H => H).
  - intros p v s1 [Hv Hp1]. unfold fetchDeltas. apply wlp_bind, wlp_ask. cbv beta.
    destruct (GetRemoteStateDeltas _ p v to) as [ms|] eqn:E; [|by apply wlp_ret].
    apply recvStateDeltas_wlp; [done|done|by eapply Hnet|exact Hp1].
  - done.
  - cbn. intros [v [u|]] s1; cbn; [done|]. by intros [_ ?].
Qed.
End deltas.

(** * One attempt *)

(** The target that the transfer went to: its block is there with the hash that was
    given for it, and the state has the hash that the block records. *)
Definition transferred (reply : blockHashReply PeerID) (s : St) : Prop :=
  exists kv bl b, tr_holds (stack s) kv bl None /\ bl !! bh_blockNumber reply = Some b /\
    hasHash hash b (bh_blockHash reply) /\ tr_hash kv = StateHash b.

(** Targets that fit. *)
Definition goodTarget (r : blockHashReply PeerID) : Prop := 0 <= bh_blockNumber r /\ bh_blockNumber r + 1 < two64.

(** The target is there. *)
Definition targetThere (bl : gmap Z Block) (reply : blockHashReply PeerID) : Prop :=
  exists b, bl !! bh_blockNumber reply = Some b /\ hasHash hash b (bh_blockHash reply).

Lemma awaitTarget_good current targets : forall last targets' reply err,
  awaitTarget current targets last = (targets', reply, err) -> Forall goodTarget targets ->
  err = Ok tt -> exists r, reply = Some r /\ current <= bh_blockNumber r /\ goodTarget r.
Proof.
  induction targets as [|t targets IH]; intros last targets' reply err E Hg He; cbn in E; [by simplify_eq|].
  apply Forall_cons in Hg as [Ht Hg]. destruct (bh_blockNumber t <? current) eqn:El; [by eapply IH|].
  simplify_eq. exists t. split; [done|]. split; [lia|done].
Qed.

Lemma requestBlocks_wlp kv reply current (s : St) : typedNetwork PeerID -> keeps kv None s -> goodTarget reply ->
  0 <= current <= bh_blockNumber reply ->
  wlp (requestBlocks hash conf (mkBlockSyncReq (bh_syncMark reply) current true (bh_blockHash reply)))
    (fun err s' => keeps kv None s' /\ (err = Ok tt -> exists bl, tr_holds (stack s') kv bl None /\ targetThere bl reply)) s.
Proof.
  intros Hnet Hk [Hg1 Hg2] Hc. unfold requestBlocks. apply wlp_bind, wlp_ask. apply wlp_bind.
  eapply wlp_mono; [by apply (background_keeps kv None)|]. cbn. intros _ s1 [bl1 Hh1].
  unfold syncBlockchainToCheckpoint. cbn [bs_syncMark reportOnBlock hasReplyChan firstBlockHash].
  destruct (tr_Size _ _ _ _ Hh1) as (size & E & _). apply wlp_bind. eapply wlp_call; [exact E|].
  destruct (_ <? size); [done|]. apply wlp_bind.
  eapply wlp_mono; [apply (syncBlocks_wlp (bh_blockNumber reply) current (bh_blockHash reply) kv None bl1); try done; lia|].
  cbn. intros [[n block] [u|]] s2 Hx.
  - destruct Hx as [_ (bl & b & Hh & Eb & Hl & _)]. cbn in Eb. subst block. apply wlp_bind, wlp_modify, wlp_ret.
    split; [by exists bl|]. intros _. exists bl. split; [done|].
    destruct (linkedDown_top _ _ _ _ _ _ Hl ltac:(lia)) as (c & Ec & Hch). by exists c.
  - destruct Hx as (h & _ & bl & Hh & _). apply wlp_ret. by split; [exists bl|].
Qed.

(** The state thread has a valid state, no delta in progress, and a target that is
    there if it says so. *)
Definition readyVars (kv : kvs) (v : transferVars) (s : St) : Prop :=
  keeps kv None s /\ stateValid s = true /\ Forall goodTarget (option_list (blockHashReceiver s) ++ arrivals s) /\
  match tv_blockHReply v with
  | None => True
  | Some reply => goodTarget reply /\
      (blocksValid v = true -> exists bl, tr_holds (stack s) kv bl None /\ targetThere bl reply)
  end.

(** After a target is chosen. *)
Definition targetVars (kv : kvs) (v : transferVars) (s : St) : Prop :=
  keeps kv None s /\ exists reply, tv_blockHReply v = Some reply /\ goodTarget reply /\
    0 <= currentStateBlockNumber v <= bh_blockNumber reply /\
    (blocksValid v = true -> exists bl, tr_holds (stack s) kv bl None /\ targetThere bl reply).

Lemma currentState_wlp kv v s : readyVars kv v s ->
  wlp (currentState v) (fun x s' => snd x = Ok tt /\ readyVars kv (fst x) s' /\
    is_u64 (currentStateBlockNumber (fst x))) s.
Proof.
  intros Hr. pose proof Hr as ([bl Hh] & Hv & _). unfold currentState. apply wlp_bind, wlp_get.
  destruct v as [current mark reply valid]. rewrite Hv. destruct (tr_Size _ _ _ _ Hh) as (size & E & _).
  apply wlp_bind. eapply wlp_call; [exact E|]. apply wlp_ret. split; [done|]. split; [|apply is_u64_u64].
  destruct s. exact Hr.
Qed.

Lemma currentTarget_wlp kv v s : readyVars kv v s -> is_u64 (currentStateBlockNumber v) ->
  wlp (currentTarget v) (fun x s' => snd x = Ok tt -> targetVars kv (fst x) s') s.
Proof.
  intros (Hk & _ & Hg & Hreply) Hc. destruct v as [current mark reply valid]. cbn in *. unfold currentTarget.
  destruct (match reply with None => true | Some r => bh_blockNumber r <? current end) eqn:Ew.
  - apply wlp_bind. unfold recvTarget. apply wlp_bind, wlp_get.
    destruct (awaitTarget current _ reply) as [[targets reply'] err] eqn:E.
    apply wlp_bind, wlp_modify, wlp_ret, wlp_ret. cbn. intros ->.
    destruct (awaitTarget_good _ _ _ _ _ _ E Hg eq_refl) as (r & -> & Hle & Hr).
    split; [exact Hk|]. exists r. split; [done|]. split; [done|]. unfold is_u64 in Hc. split; [cbn; lia|done].
  - apply wlp_ret. intros _. destruct reply as [r|]; [|done]. destruct Hreply as [Hr Hb].
    split; [exact Hk|]. exists r. unfold is_u64 in Hc. split; [done|]. split; [done|]. split; [cbn; lia|exact Hb].
Qed.

Lemma currentBlocks_wlp kv v reply s : typedNetwork PeerID -> targetVars kv v s -> tv_blockHReply v = Some reply ->
  wlp (currentBlocks hash conf v reply) (fun x s' => snd x = Ok tt ->
    currentStateBlockNumber (fst x) = currentStateBlockNumber v /\ tv_blockHReply (fst x) = Some reply /\
    exists bl, tr_holds (stack s') kv bl None /\ targetThere bl reply) s.
Proof.
  intros Hnet (Hk & r & Er & Hg & Hle & Hb) Hr. assert (r = reply) as -> by congruence. unfold currentBlocks.
  destruct (blocksValid v) eqn:Ev; [apply wlp_ret; intros _; split; [done|split; [done|by apply Hb]]|]. apply wlp_bind.
  eapply wlp_mono; [by apply (requestBlocks_wlp kv)|]. intros err s1 [_ Hok]. cbv beta. apply wlp_ret. cbn. auto.
Qed.

Lemma checkAndPlay_wlp kv bl v reply s : admissibleNetwork PeerID -> goodTarget reply ->
  0 <= currentStateBlockNumber v <= bh_blockNumber reply -> tr_holds (stack s) kv bl None -> targetThere bl reply ->
  tv_blockHReply v = Some reply ->
  wlp (checkAndPlay conf v reply) (fun x s' => snd x = Ok tt -> tv_blockHReply (fst x) = Some reply /\ transferred reply s') s.
Proof.
  intros Hnet [Hg1 Hg2] Hc Hh (b & Eb & Hbh) Hv. destruct v as [current mark r valid]. cbn in Hc, Hv. unfold checkAndPlay.
  destruct (_ <? bh_blockNumber reply); [by apply wlp_ret|].
  destruct (tr_Hash _ _ _ _ Hh) as (h & st & Eh & Hd & Hh1). apply wlp_bind. eapply wlp_call; [exact Eh|]. cbn in Hd.
  destruct (tr_GetBlock _ _ _ _ current Hh1) as (rb & E & Hrb). specialize (Hrb ltac:(unfold is_u64; lia)).
  apply wlp_bind. eapply wlp_call; [exact E|]. destruct rb as [[block|]|]; [|done|by apply wlp_ret].
  assert (bl !! current = Some block) as Ecur by (by apply Hrb).
  case_bool_decide as Heq; cbn [negb]; [|by apply wlp_bind, wlp_modify, wlp_ret].
  apply wlp_bind, wlp_modify. destruct (current <? bh_blockNumber reply) eqn:El.
  - apply wlp_bind. eapply wlp_mono; [apply (playState_wlp bl); [done|apply is_u64_u64|unfold is_u64; lia|]|].
    + exists kv, None. exact Hh1.
    + cbn. intros [current' [u|]] s1; cbn; intros Hx.
      * apply wlp_bind, wlp_ret, wlp_ret. intros _. split; [done|]. destruct Hx as (kv' & b' & Hh' & Eb' & Hs).
        exists kv', bl, b'. rewrite Eb in Eb'. injection Eb' as <-. done.
      * by apply wlp_bind, wlp_modify, wlp_ret.
  - apply wlp_ret. intros _. split; [done|]. assert (current = bh_blockNumber reply) as -> by lia.
    exists kv, bl, b. split; [exact Hh1|]. split; [done|]. split; [done|]. rewrite Eb in Ecur. injection Ecur as ->.
    by rewrite <- Heq, Hd.
Qed.

Lemma attempt_wlp kv v s : typedNetwork PeerID -> admissibleNetwork PeerID -> readyVars kv v s ->
  wlp (attemptStateTransfer hash conf v) (fun x s' => snd x = Ok tt ->
    exists reply, tv_blockHReply (fst x) = Some reply /\ transferred reply s') s.
Proof.
  intros Hb Hd Hr. unfold attemptStateTransfer. apply wlp_bind. eapply wlp_mono; [by apply (currentState_wlp kv)|].
  intros [v1 e1] s1 (He1 & Hr1 & Hc1). cbn in He1, Hr1, Hc1. subst e1. apply wlp_bind. eapply wlp_mono; [by apply (currentTarget_wlp kv)|].
  cbn. intros [v2 [u|]] s2 Ht; [|by apply wlp_ret]. destruct u. specialize (Ht eq_refl).
  pose proof Ht as (Hk & reply & Er & Hg & Hle & _). cbn in Er, Hle. rewrite Er. apply wlp_bind.
  eapply wlp_mono; [by apply (currentBlocks_wlp kv _ reply)|]. cbn. intros [v3 [u|]] s3 Hok; [|by apply wlp_ret].
  destruct u. destruct (Hok eq_refl) as (Ec & Er3 & bl & Hh & Hth). cbn in Ec, Er3. cbn [fst] in *.
  eapply wlp_mono; [apply (checkAndPlay_wlp kv bl v3 reply); [done|done|lia|done|done|done]|].
  intros x s4 Hx Hok4. exists reply. by apply Hx.
Qed.

(** * A delta left in progress *)

(** The message whose delta is in progress is gone, and no other message has its
    address. *)
Section wedged.
Context (ptr : nat).

Definition wedged (s : St) : Prop := (ptr < calls_ s)%nat /\ exists kv bl kv', tr_holds (stack s) kv bl (Some (DeltaMessage ptr, kv')).

Lemma applyDeltas_wedged ptr' ds : forall s, wedged s -> wlp (applyDeltas ptr' ds) (fun _ => wedged) s.
Proof.
  induction ds as [|d ds IH]; intros s Hw; cbn [applyDeltas]; [by apply wlp_ret|].
  destruct (Unmarshal NewStateDelta d) as [um ok]. destruct ok; cbn [negb]; [|by apply wlp_ret].
  destruct Hw as (Hlt & kv & bl & kv' & Hh). apply wlp_bind. eapply wlp_call; [exact (tr_Apply_busy _ _ _ _ _ _ Hh)|].
  apply IH. split; [exact Hlt|by exists kv, bl, kv'].
Qed.

Lemma stateMatches_wedged n s : wedged s -> wlp (stateMatches n) (fun _ => wedged) s.
Proof.
  intros (Hlt & kv & bl & kv' & Hh). unfold stateMatches. destruct (tr_GetBlock _ _ _ _ n Hh) as (b & E & _).
  apply wlp_bind. eapply wlp_call; [exact E|].
  destruct b as [b|]; [|apply wlp_ret; split; [exact Hlt|by exists kv, bl, kv']].
  destruct (tr_Hash _ _ _ _ Hh) as (h & st & Eh & _ & Hh'). apply wlp_bind. eapply wlp_call; [exact Eh|].
  destruct b as [b|]; [|done]. apply wlp_ret. split; [exact Hlt|by exists kv, bl, kv'].
Qed.

Lemma playDeltas_wedged to current ptr' m r s : ptr' <> ptr -> wedged s ->
  wlp (playDeltas to current ptr' m r) (fun x s' => x = Err /\ wedged s') s.
Proof.
  intros Hne Hw. unfold playDeltas, try. apply wlp_bind. eapply wlp_mono; [by apply applyDeltas_wedged|].
  cbn. intros [u|] s1 Hw1; [|by apply wlp_ret].
  apply wlp_bind. eapply wlp_mono; [by apply stateMatches_wedged|]. cbn. intros ok s2 (Hlt & kv & bl & kv' & Hh).
  assert (forall kv'', Some (DeltaMessage ptr, kv') <> Some (DeltaMessage ptr', kv'')) as Hid by congruence.
  destruct ok; cbn [negb]; apply wlp_bind.
  - eapply wlp_call; [exact (tr_Commit_other _ _ _ _ _ Hh Hid)|]. apply wlp_bind, wlp_modify, wlp_ret.
    split; [done|split; [exact Hlt|by exists kv, bl, kv']].
  - eapply wlp_call; [exact (tr_Rollback_other _ _ _ _ _ Hh Hid)|]. apply wlp_bind, wlp_modify, wlp_ret.
    split; [done|split; [exact Hlt|by exists kv, bl, kv']].
Qed.

Lemma wedged_ask s : wedged s -> wedged (s <| calls_ := (calls_ s + 1)%nat |>).
Proof. intros (Hlt & Hh). split; [cbn; lia|exact Hh]. Qed.

Lemma recvStateDeltas_wedged to ms : forall current s, wedged s ->
  wlp (recvStateDeltas to ms current) (fun x s' => snd x = Err /\ wedged s') s.
Proof.
  induction ms as [|m ms IH]; intros current s Hw; cbn [recvStateDeltas]; [by apply wlp_ret|].
  apply wlp_bind, wlp_ask. destruct (sd_Range m) as [r|]; [|done].
  destruct (_ || _); [apply IH; by apply wedged_ask|]. apply wlp_bind.
  eapply wlp_mono; [apply playDeltas_wedged; [|by apply wedged_ask]|].
  - destruct Hw as [Hlt _]. lia.
  - intros x s2 [-> Hw2]. by apply wlp_ret.
Qed.

Lemma playState_wedged from to peers s : wedged s ->
  wlp (playStateUpToBlockNumber from to peers) (fun x s' => snd x = Err /\ wedged s') s.
Proof.
  intros Hw. unfold playStateUpToBlockNumber.
  eapply wlp_mono; [apply (wlp_tryOverPeers _ _ (fun _ => wedged) (fun _ _ => False))|].
  - intros v s1. apply wedged_ask.
  - intros p v s1 Hw1. unfold fetchDeltas. apply wlp_bind, wlp_ask. cbv beta.
    destruct (GetRemoteStateDeltas _ p v to) as [ms|]; [|apply wlp_ret; by apply wedged_ask].
    eapply wlp_mono; [apply recvStateDeltas_wedged; by apply wedged_ask|].
    intros [v' [u|]] s2; cbn; by intros [? ?].
  - done.
  - intros [v [u|]] s1; cbn; [done|]. by intros ?.
Qed.
End wedged.

(** A message with a delta that cannot be read behind one that can leads there. *)
Lemma applyDeltas_corrupt ptr ds : Exists (fun d => snd (Unmarshal NewStateDelta d) = false) ds -> forall s, wedged ptr s ->
  exists s', applyDeltas ptr ds s = Done Err s' /\ wedged ptr s'.
Proof.
  induction 1 as [d' ds Hd'|d' ds Hc IH]; intros s1 Hw; cbn [applyDeltas].
  - destruct (Unmarshal NewStateDelta d') as [um' ok'] eqn:Eu'. cbn in Hd'. subst ok'. cbn [negb]. by exists s1.
  - destruct (Unmarshal NewStateDelta d') as [um' [|]] eqn:Eu'; cbn [negb]; [|by exists s1].
    destruct Hw as (Hlt & kv1 & bl1 & kv2 & Hh1). unfold onStack. cbv [mbind M_bind].
    rewrite (tr_Apply_busy _ _ _ _ (DeltaMessage ptr) um' Hh1). apply IH. split; [exact Hlt|by exists kv1, bl1, kv2].
Qed.

Lemma corrupt_wedges to current m ms d rest r s kv bl : sd_Range m = Some r -> Start r = current ->
  current <= End_ r <= to -> sd_Deltas m = d :: rest -> snd (Unmarshal NewStateDelta d) = true ->
  admissible (fst (Unmarshal NewStateDelta d)) -> Exists (fun d => snd (Unmarshal NewStateDelta d) = false) rest ->
  tr_holds (stack s) kv bl None ->
  exists s', recvStateDeltas to (m :: ms) current s = Done (current, Err) s' /\ wedged (calls_ s) s'.
Proof.
  intros Hr Hs He Hd Hok Had Hc Hh. set (ptr := calls_ s). pose (s1 := s <| calls_ := (ptr + 1)%nat |>).
  assert (exists s', applyDeltas ptr (sd_Deltas m) s1 = Done Err s' /\ wedged ptr s') as (s' & E & Hw).
  { rewrite Hd. cbn [applyDeltas]. destruct (Unmarshal NewStateDelta d) as [um ok] eqn:Eu. cbn in Hok, Had. subst ok. cbn [negb].
    destruct (tr_Apply _ _ _ (DeltaMessage ptr) um Hh Had) as (st & Ea & Hst). unfold onStack. cbv [mbind M_bind].
    change (stack s1) with (stack s). rewrite Ea. apply applyDeltas_corrupt; [exact Hc|].
    split; [cbn; lia|by exists kv, bl, (applyDelta kv um)]. }
  exists s'. split; [|done]. cbn [recvStateDeltas]. unfold arrive, ask. cbv [mbind M_bind get modify mret M_ret]. rewrite Hr.
  rewrite bool_decide_eq_true_2 by done. rewrite (proj2 (Z.ltb_ge _ _)) by lia.
  assert ((End_ r >? to) = false) as -> by lia. cbn [negb orb]. unfold playDeltas, try. cbv [mbind M_bind].
  fold ptr. fold s1. by rewrite E.
Qed.
End safety.
