(* ===== verification/TransferLedger.v ===== *)
(** The ledger behind the stack that state transfer uses, consensus/helper/helper.go,
    and that it keeps what [TransferSpec] asks for. *)
From stdpp Require Import base gmap list.
From Stdlib Require Import ZArith Lia.
From S2P Require Import Prelude GoStd GoBytes LedgerUtil KVStore StateDelta StateSpec HashableState State.
From S2P Require Import StateScan StateRefine Blockchain BlockchainSpec Ledger LedgerRefine.
From S2P Require Import ExecTransaction ConsensusHelper StateTransfer PeerSync TransferSpec.

(** * The stack *)

Section stack.
Context {DB I Itr : Type} `{RocksDB DB} `{!HashableState DB I Itr} `{BlockCodec} `{SpecCodec}
  (hash : bytes -> bytes) (o : mapOrder).

Abbreviation TL := (Ledger DB I transferID).

Definition helper_PutBlock (blockNumber : Z) (block : Block) : M TL (result unit) := PutRawBlock hash o block blockNumber.

Definition helper_ApplyStateDelta (id : transferID) (delta : StateDelta) : M TL (result unit) :=
  Ledger_ApplyStateDelta (Some id) delta.

Definition helper_CommitStateDelta (id : transferID) : M TL (result unit) := Ledger_CommitStateDelta (Some id).

Definition helper_RollbackStateDelta (id : transferID) : M TL (result unit) := RollbackStateDelta (Some id).

Definition helper_EmptyState : M TL (result unit) := DeleteALLStateKeysAndValues.

(** Every error of [VerifyChain] is one here. *)
Definition helper_VerifyBlockchain (start finish : Z) : M TL (Z * result unit) :=
  gets (fun l => let '(n, err) := VerifyChain hash l start finish in
    (n, match err with LOk _ => Ok tt | _ => Err end)).

Definition ledgerStack : LedgerStack TL := {|
  stack_GetBlock := fun n => gets (fun l => blockOf (GetBlockByNumber l n));
  stack_GetBlockchainSize := gets GetBlockchainSize;
  stack_GetCurrentStateHash := GetTempStateHash;
  stack_PutBlock := helper_PutBlock;
  stack_VerifyBlockchain := helper_VerifyBlockchain;
  stack_ApplyStateDelta := helper_ApplyStateDelta;
  stack_CommitStateDelta := helper_CommitStateDelta;
  stack_RollbackStateDelta := helper_RollbackStateDelta;
  stack_EmptyState := helper_EmptyState
|}.
End stack.

(** * The ledger during a transfer *)

Section ledger.
Context {DB I Itr : Type} `{RocksDBLaws DB} `{!HashableState DB I Itr} `{!HashableStateSpec DB I Itr}
  `{BlockCodecLaws} `{SpecCodec} (hash : bytes -> bytes) (o : mapOrder).

Abbreviation TL := (Ledger DB I transferID).

#[local] Instance theStack : LedgerStack TL := ledgerStack hash o.

(** The working set follows the delta in progress, unless it is still to be
    prepared. *)
Definition stateHolds (db : DB) (s : State I) (kv : kvs) (op : option kvs) : Prop :=
  exists w, hs_holds db (stateImpl s) kv w /\ admissible (stateDelta s) /\
    (if updateStateImpl s then w = None else default kv w = applyDelta kv (stateDelta s)) /\
    match op with
    | None => w = None /\ IsEmpty (stateDelta s) = true
    | Some kv' => kv' = applyDelta kv (stateDelta s)
    end.

Record blocksHold (db : DB) (size : Z) (bl : gmap Z Block) : Prop := {
  bk_size : is_u64 size;
  bk_good : map_Forall (fun n b => 0 <= n < size /\ goodBlock b) bl;
  bk_block : forall n, 0 <= n -> n + 1 < two64 ->
    contents db BlockchainCF !! encodeBlockNumberDBKey n = blockData <$> bl !! n
}.

Record ledgerHolds (l : TL) (kv : kvs) (bl : gmap Z Block) (op : option (transferID * kvs)) : Prop := {
  lh_state : stateHolds (ldb l) (lstate l) kv (snd <$> op);
  lh_id : currentID l = fst <$> op;
  lh_blocks : blocksHold (ldb l) (size_ (lblockchain l)) bl
}.

Lemma stateHolds_healthy db s kv op : stateHolds db s kv op -> healthy db.
Proof. intros (w & Hh & _). by eapply hs_healthy. Qed.

Lemma stateHolds_db db db' s kv op : stateHolds db s kv op -> healthy db' ->
  contents db' StateCF = contents db StateCF -> stateHolds db' s kv op.
Proof. intros (w & Hh & Hw) Hdb E. exists w. split; [by eapply hs_holds_db|done]. Qed.

Lemma blocksHold_db db db' size bl : blocksHold db size bl -> contents db' BlockchainCF = contents db BlockchainCF ->
  blocksHold db' size bl.
Proof. intros [] E. split; try done. by rewrite E. Qed.

(** ** Blocks *)

Lemma fetch_good db (m : option Block) k : healthy db -> contents db BlockchainCF !! k = blockData <$> m ->
  (forall b, m = Some b -> goodBlock b) ->
  match OpenchainDB_get db BlockchainCF k with
  | Ok None => m = None
  | Ok (Some d) => exists b, m = Some b /\ unmarshalBlock d = Ok b
  | Err => False
  end.
Proof.
  intros Hdb E Hg. rewrite OpenchainDB_get_contents by done. rewrite E. destruct m as [b|]; [|done]. cbn.
  destruct (Hg b eq_refl) as [Ht Hne]. destruct (blockData_ok b Ht) as (Em & Eu & _). rewrite Em in Hne.
  destruct (blockData b) as [|x d]; [done|]. by exists b.
Qed.

Lemma GetBlock_holds l kv bl op n : ledgerHolds l kv bl op -> is_u64 n ->
  forall b, blockOf (GetBlockByNumber l n) = Ok (Some b) <-> bl !! n = Some b.
Proof.
  intros [Hst _ [Hsz Hg Hb]] Hn b. unfold GetBlockByNumber, GetBlockchainSize, getSize.
  destruct (n >=? size_ (lblockchain l)) eqn:En.
  - split; [done|]. intros E. destruct (Hg n b E) as [? _]. lia.
  - unfold is_u64 in *. specialize (Hb n ltac:(lia) ltac:(lia)).
    pose proof (fetch_good (ldb l) (bl !! n) (encodeBlockNumberDBKey n) (stateHolds_healthy _ _ _ _ Hst) Hb) as Hf.
    unfold getBlock, fetchBlockFromDB, GetFromBlockchainCF.
    specialize (Hf ltac:(intros b' E; by destruct (Hg n b' E))).
    destruct (OpenchainDB_get _ _ _) as [[d|]|]; [|by rewrite Hf|done]. destruct Hf as (b' & -> & Eu).
    unfold UnmarshallBlock. rewrite Eu. cbn. split; congruence.
Qed.

Lemma GetBlockByNumber_holds l kv bl op n b : ledgerHolds l kv bl op -> bl !! n = Some b ->
  GetBlockByNumber l n = LOk (Some b).
Proof.
  intros Hl Eb. pose proof (bk_good _ _ _ (lh_blocks _ _ _ _ Hl) _ _ Eb) as [Hn _].
  pose proof (bk_size _ _ _ (lh_blocks _ _ _ _ Hl)) as Hsz.
  pose proof (proj2 (GetBlock_holds _ _ _ _ n Hl ltac:(unfold is_u64 in *; lia) b) Eb) as Eg.
  unfold blockOf in Eg. destruct (GetBlockByNumber _ _) as [[b'|]| |]; try discriminate Eg. by injection Eg as ->.
Qed.

(** The operations of a raw block. *)
Lemma index_other cf n b h addr : Forall addressOp addr -> cf <> IndexesCF ->
  Forall (fun op => opCF op <> cf) (PutCF IndexesCF (encodeBlockHashKey h) (encodeBlockNumber n) ::
    uuidOps n 0 (Transactions b) ++ addr).
Proof.
  intros Ha Hcf. constructor; [by apply not_eq_sym|]. eapply Forall_impl; [by apply (indexOps_CF n b addr)|].
  by intros op ->; apply not_eq_sym.
Qed.

Lemma blocksHold_put db db' size bl n b : blocksHold db size bl -> is_u64 n -> goodBlock b ->
  (forall k, contents db' BlockchainCF !! encodeBlockNumberDBKey k =
    (<[encodeBlockNumberDBKey n := blockData b]> (contents db BlockchainCF)) !! encodeBlockNumberDBKey k) ->
  blocksHold db' (if size <? u64 (n + 1) then u64 (n + 1) else size) (if decide (n + 1 < two64) then <[n := b]> bl else bl).
Proof.
  intros [Hsz Hg Hb] Hn Hgood Ek. unfold is_u64 in *. split.
  - destruct (_ <? _); [apply is_u64_u64|done].
  - case_decide as Hlt.
    + rewrite u64_small by (unfold is_u64; lia). apply map_Forall_insert_2; [split; [|done]; destruct (_ <? _) eqn:E; lia|].
      intros k c Ec. destruct (Hg k c Ec). split; [|done]. destruct (_ <? _) eqn:E; lia.
    + assert (n + 1 = two64) as -> by lia. change (u64 two64) with 0.
      destruct (size <? 0) eqn:E; [lia|]. exact Hg.
  - intros k Hk1 Hk2. rewrite Ek, lookup_insert. specialize (Hb k Hk1 Hk2).
    destruct (decide (encodeBlockNumberDBKey n = encodeBlockNumberDBKey k)) as [Heq|Hne].
    + assert (n = k) as -> by (apply PutUint64_inj; [unfold is_u64; lia..|exact Heq]).
      rewrite decide_True by lia. by rewrite lookup_insert_eq.
    + case_decide; [|done]. rewrite lookup_insert_ne; [done|]. congruence.
Qed.

Lemma PutBlock_holds l kv bl op n b : ledgerHolds l kv bl op -> is_u64 n -> goodBlock b ->
  exists l' bl', helper_PutBlock hash o n b l = Done (Ok tt) l' /\ ledgerHolds l' kv bl' op /\
    (n + 1 < two64 -> bl' = <[n := b]> bl).
Proof.
  intros [Hst Hid Hbl] Hn Hgood. pose proof (stateHolds_healthy _ _ _ _ Hst) as Hdb. pose proof Hgood as [Ht Hne].
  destruct (blockData_ok b Ht) as (Em & Eu & _).
  set (higher := size_ (lblockchain l) <? u64 (n + 1)).
  set (batch := PutCF BlockchainCF (encodeBlockNumberDBKey n) (blockData b) ::
    (if higher then [PutCF BlockchainCF blockCountKey (PutUint64 (u64 (n + 1)))] else [])).
  destruct (addIndexData_ops o b n (blockHash hash b) batch) as (addr & Ha & Eops).
  set (ops := addIndexDataForPersistence o b n (blockHash hash b) batch) in *.
  destruct (Write_contents (ldb l) ops Hdb) as (db' & Ew & Hdb' & Ec).
  assert (contents db' StateCF = contents (ldb l) StateCF) as Es.
  { rewrite Ec, Eops. apply applyBatch_other, Forall_app_2; [|by apply index_other].
    unfold batch. constructor; [done|]. destruct higher; repeat constructor; done. }
  assert (forall k, contents db' BlockchainCF !! encodeBlockNumberDBKey k =
    (<[encodeBlockNumberDBKey n := blockData b]> (contents (ldb l) BlockchainCF)) !! encodeBlockNumberDBKey k) as Ek.
  { intros k. rewrite Ec, Eops, applyBatch_app, applyBatch_other by (by apply index_other).
    unfold batch, applyBatch. cbn [foldl]. rewrite applyOp_Put. destruct higher; cbn [foldl]; [|done].
    by rewrite applyOp_Put, lookup_insert_ne by (apply not_eq_sym, blockKey_count). }
  set (bc := if higher then (lblockchain l) <| size_ := u64 (n + 1) |> <| previousBlockHash := blockHash hash b |> else lblockchain l).
  assert (persistRawBlock hash o (ldb l) b n (lblockchain l) = Done (Ok db') bc) as E.
  { unfold persistRawBlock, Block_Bytes. rewrite Em, (GetHash_blockHash hash b Ht).
    cbv [mbind M_bind get modify]. unfold getSize. fold higher. unfold bc, ops, batch in *.
    destruct higher; cbn [when app]; unfold mret, M_ret, modify; by rewrite <- Ew. }
  exists (l <| lblockchain := bc |> <| ldb := db' |> <| blockEvents := blockEvents l ++
    [b <| Transactions := lightTransaction <$> Transactions b |>] |>), (if decide (n + 1 < two64) then <[n := b]> bl else bl).
  split; [unfold helper_PutBlock, PutRawBlock, onChain; cbv [mbind M_bind get modify]; by rewrite E|].
  split; [|intros Hlt; by rewrite decide_True]. split; cbn; [by eapply stateHolds_db|done|].
  assert (size_ bc = if higher then u64 (n + 1) else size_ (lblockchain l)) as -> by (unfold bc; by destruct higher).
  by eapply blocksHold_put.
Qed.

(** ** The state *)

Lemma applyDelta_none kv d : IsEmpty d = true -> applyDelta kv d = kv.
Proof.
  unfold IsEmpty. intros E%bool_decide_eq_true%map_size_empty_inv. apply map_eq. intros ck.
  unfold applyDelta, deltaWrites. rewrite lookup_applyWrites, E. done.
Qed.

Lemma admissible_new : admissible NewStateDelta.
Proof. split; intros cc c; cbn; by rewrite lookup_empty. Qed.

Lemma sync_holds db s kv op : stateHolds db s kv op ->
  exists s' w, syncStateImpl s = Done tt s' /\ stateDelta s' = stateDelta s /\ updateStateImpl s' = false /\
    hs_holds db (stateImpl s') kv w /\ default kv w = applyDelta kv (stateDelta s) /\ (op = None -> w = None).
Proof.
  intros (w & Hh & Had & Hw & Hop). unfold syncStateImpl. cbv [mbind M_bind gets].
  destruct (updateStateImpl s) eqn:Eu; cbn [when].
  - subst w. destruct (IsEmpty (stateDelta s)) eqn:Ee.
    + unfold onImpl. rewrite hs_Prepare_empty by done. eexists _, None. split; [reflexivity|]. split; [done|].
      split; [done|]. split; [exact Hh|]. split; [|done]. cbn. by rewrite applyDelta_none.
    + destruct (hs_Prepare_spec _ _ _ _ _ Hh Had Ee) as (i' & E & Hh'). unfold onImpl. rewrite E.
      eexists _, _. split; [reflexivity|]. split; [done|]. split; [done|]. split; [exact Hh'|]. split; [done|].
      intros ->. destruct Hop as [_ E']. congruence.
  - exists s, w. split; [done|]. split; [done|]. split; [done|]. split; [done|]. split; [done|]. intros ->. apply Hop.
Qed.

(** The state that the hash is of. *)
Lemma pending_state db s kv op : stateHolds db s kv op -> applyDelta kv (stateDelta s) = default kv op.
Proof. intros (w & _ & _ & _ & Hop). destruct op as [kv'|]; [done|]. destruct Hop as [_ ?]. by apply applyDelta_none. Qed.

Lemma GetHash_holds db s kv op : stateHolds db s kv op ->
  exists s', GetHash db s = Done (Ok (hs_hash (default kv op))) s' /\ stateHolds db s' kv op.
Proof.
  intros Hs. pose proof (pending_state _ _ _ _ Hs) as Ep.
  destruct (sync_holds _ _ _ _ Hs) as (s1 & w & E1 & Ed & Eu & Hh & Hw & Hn).
  destruct (hs_Hash_spec _ _ _ _ Hh) as (i & E2 & Hh2). rewrite Hw, Ep in E2.
  unfold GetHash, try, onImpl. cbv [mbind M_bind]. rewrite E1, E2. eexists. split; [reflexivity|].
  destruct Hs as (w0 & _ & Had & _ & Hop). exists w. cbn. rewrite Eu, Ed. do 3 (split; [done|]).
  destruct op; [done|]. destruct Hop as [_ ?]. auto.
Qed.

Lemma Clear_holds db s kv op : stateHolds db s kv op ->
  exists s', ClearInMemoryChanges false s = Done tt s' /\ stateHolds db s' kv None.
Proof.
  intros (w & Hh & _). destruct (hs_Clear_spec _ _ _ _ Hh) as (i & E & Hh').
  unfold ClearInMemoryChanges, onImpl. cbv [mbind M_bind modify]. cbn. rewrite E.
  eexists. split; [reflexivity|]. exists None. split; [exact Hh'|]. split; [apply admissible_new|].
  split; [|done]. cbn. destruct (updateStateImpl s); [done|]. by rewrite applyDelta_none.
Qed.

Lemma Commit_holds db s kv op : stateHolds db s kv op ->
  exists s1 s2 db', CommitStateDelta db s = Done (Ok db') s1 /\ ClearInMemoryChanges true s1 = Done tt s2 /\
    healthy db' /\ contents db' BlockchainCF = contents db BlockchainCF /\ stateHolds db' s2 (default kv op) None.
Proof.
  intros Hs. pose proof (pending_state _ _ _ _ Hs) as Ep.
  destruct (sync_holds _ _ _ _ Hs) as (s1 & w & E1 & Ed & Eu & Hh & Hw & Hn).
  destruct (hs_Persist_spec _ _ _ _ [] Hh) as (i2 & ops & E2 & Hh2 & Hcf & Hclear).
  destruct (Write_contents db ops (hs_healthy _ _ _ _ Hh)) as (db' & Ew & Hdb' & Ec).
  destruct (Hclear db' Hdb' (Ec StateCF)) as (i3 & E3 & Hh3). rewrite Hw, Ep in Hh3.
  eexists _, _, db'. split; [|split; [|split; [done|split]]].
  - unfold CommitStateDelta, onImpl. cbv [mbind M_bind]. rewrite E1, E2. cbn. by rewrite Ew.
  - unfold ClearInMemoryChanges, onImpl. cbv [mbind M_bind modify]. cbn. rewrite E3. reflexivity.
  - rewrite Ec. apply applyBatch_other. eapply Forall_impl; [exact Hcf|]. intros op' E. unfold opCF. rewrite E. done.
  - exists None. split; [exact Hh3|]. split; [apply admissible_new|]. split; [|done]. cbn. rewrite Eu.
    by rewrite applyDelta_none.
Qed.

(** ** The interface *)

Lemma stackHash_holds l kv bl op : ledgerHolds l kv bl op ->
  exists l', GetTempStateHash l = Done (Ok (hs_hash (from_option snd kv op))) l' /\ ledgerHolds l' kv bl op.
Proof.
  intros [Hst Hid Hb]. destruct (GetHash_holds _ _ _ _ Hst) as (s' & E & Hst').
  unfold GetTempStateHash, onState. cbv [mbind M_bind get]. rewrite E. eexists. split; [by destruct op|]. by split.
Qed.

Lemma Apply_holds l kv bl id d : ledgerHolds l kv bl None -> admissible d ->
  exists l', helper_ApplyStateDelta id d l = Done (Ok tt) l' /\ ledgerHolds l' kv bl (Some (id, applyDelta kv d)).
Proof.
  intros [(w & Hh & _ & _ & -> & _) Hid Hb] Had. unfold helper_ApplyStateDelta, Ledger_ApplyStateDelta, checkValidIDBegin, onState.
  cbv [mbind M_bind get modify]. rewrite Hid. eexists. split; [reflexivity|]. split; [|done|done].
  exists None. done.
Qed.

Lemma CommitDelta_holds l kv bl id kv' : ledgerHolds l kv bl (Some (id, kv')) ->
  exists l', helper_CommitStateDelta id l = Done (Ok tt) l' /\ ledgerHolds l' kv' bl None.
Proof.
  intros [Hst Hid Hb]. destruct (Commit_holds _ _ _ _ Hst) as (s1 & s2 & db' & E1 & E2 & Hdb & Ec & Hst').
  remember (ClearInMemoryChanges true) as clear eqn:Eclear.
  unfold helper_CommitStateDelta, Ledger_CommitStateDelta, checkValidIDCommitORRollback, onState, resetForNextTxGroup.
  rewrite <- Eclear. cbv [mbind M_bind get modify]. rewrite Hid. rewrite bool_decide_eq_true_2 by done. cbn [negb].
  rewrite E1. cbn. unfold onState. cbn. rewrite E2. eexists. split; [reflexivity|].
  split; [exact Hst'|done|by eapply blocksHold_db].
Qed.

Lemma RollbackDelta_holds l kv bl id kv' : ledgerHolds l kv bl (Some (id, kv')) ->
  exists l', helper_RollbackStateDelta id l = Done (Ok tt) l' /\ ledgerHolds l' kv bl None.
Proof.
  intros [Hst Hid Hb]. destruct (Clear_holds _ _ _ _ Hst) as (s2 & E2 & Hst').
  remember (ClearInMemoryChanges false) as clear eqn:Eclear.
  unfold helper_RollbackStateDelta, RollbackStateDelta, checkValidIDCommitORRollback, resetForNextTxGroup.
  rewrite <- Eclear. cbv [mbind M_bind get modify]. rewrite Hid. rewrite bool_decide_eq_true_2 by done. cbn [negb].
  unfold onState. cbn. rewrite E2. eexists. split; [reflexivity|]. by split.
Qed.

(** An id that is not the one in progress. *)
Lemma other_id l kv bl op id : ledgerHolds l kv bl op -> (forall kv', op <> Some (id, kv')) ->
  checkValidIDCommitORRollback l (Some id) = false.
Proof.
  intros [_ Hid _] Hne. unfold checkValidIDCommitORRollback. rewrite Hid. apply bool_decide_eq_false.
  destruct op as [[id' kv']|]; [|done]. cbn. intros [= ->]. by apply (Hne kv').
Qed.

Lemma ledger_transfer : TransferSpec TL.
Proof.
  refine {| tr_hash := fun kv => default [] (hs_hash kv); tr_holds := ledgerHolds; tr_Put := PutBlock_holds;
    tr_Apply := Apply_holds; tr_Commit := CommitDelta_holds; tr_Rollback := RollbackDelta_holds |}.
  - intros l kv bl op n Hl. eexists. split; [reflexivity|]. by apply (GetBlock_holds l kv bl op n).
  - intros l kv bl op [_ _ Hb]. eexists. split; [reflexivity|]. split; [apply Hb|].
    intros n b E. apply (bk_good _ _ _ Hb n b E).
  - intros l kv bl op high low _. eexists. reflexivity.
  - intros l kv bl op Hl. destruct (stackHash_holds _ _ _ _ Hl) as (l' & E & Hl'). by exists (hs_hash (from_option snd kv op)), l'.
  - intros l kv bl [id' kv'] id d [_ Hid _]. cbn [stack_ApplyStateDelta ledgerStack theStack].
    unfold helper_ApplyStateDelta, Ledger_ApplyStateDelta, checkValidIDBegin. cbv [mbind M_bind get]. by rewrite Hid.
  - intros l kv bl op id Hl Hne. pose proof (other_id _ _ _ _ _ Hl Hne) as E. cbn [stack_CommitStateDelta ledgerStack theStack].
    unfold helper_CommitStateDelta, Ledger_CommitStateDelta. cbv [mbind M_bind get]. by rewrite E.
  - intros l kv bl op id Hl Hne. pose proof (other_id _ _ _ _ _ Hl Hne) as E. cbn [stack_RollbackStateDelta ledgerStack theStack].
    unfold helper_RollbackStateDelta, RollbackStateDelta. cbv [mbind M_bind get]. by rewrite E.
Defined.

(** ** A ledger at rest *)

Definition chainMap (chain : list Block) : gmap Z Block := kmap Z.of_nat (map_seq 0 chain).

Lemma lookup_chainMap chain n : 0 <= n -> chainMap chain !! n = chain !! Z.to_nat n.
Proof.
  intros Hn. unfold chainMap. rewrite <- (Z2Nat.id n) at 1 by done. rewrite lookup_kmap by apply _.
  apply lookup_map_seq_0.
Qed.

Lemma chainMap_Some chain n b : chainMap chain !! n = Some b -> 0 <= n /\ chain !! Z.to_nat n = Some b.
Proof.
  intros E. assert (0 <= n) as Hn.
  { unfold chainMap in E. apply lookup_kmap_Some in E as (k & -> & _); [lia|apply _]. }
  split; [done|]. by rewrite <- lookup_chainMap.
Qed.

Lemma ledgerRel_holds (l : TL) a : ledgerRel hash l a -> al_id a = None -> st_batch (al_store a) = ∅ ->
  ledgerHolds l (st_committed (al_store a)) (chainMap (al_chain a)) None.
Proof.
  intros [Hst Hsto [Hsz _] Hid] Hnone Hb. pose proof (sto_blocks _ _ _ Hsto) as Hbl. split.
  - destruct Hst as [(w & Hh & Hw & _) Hbatch _ _ _]. pose proof (represents_IsEmpty _ _ _ Hbatch) as He.
    rewrite Hb, bool_decide_eq_true_2 in He by done. rewrite (Hw Hb) in Hh.
    exists None. split; [done|]. split; [split; apply Hbatch|]. split; [|done].
    destruct (updateStateImpl _); [done|]. by rewrite applyDelta_none.
  - by rewrite Hid, Hnone.
  - rewrite Hsz. pose proof (sb_bound _ _ Hbl). split; [unfold is_u64; lia| |].
    + intros n b [Hn E]%chainMap_Some. destruct (blocks_lookup _ _ _ _ Hbl E) as (Ht & Hd & Hlt & _).
      split; [lia|]. split; [done|]. destruct (blockData_ok b Ht) as (-> & _ & Hne). intros [= E']. by apply Hne.
    + intros n Hn Hn'. rewrite (sb_block _ _ Hbl n ltac:(unfold is_u64; lia)). by rewrite lookup_chainMap.
Qed.
End ledger.
