(* ===== verification/TransferLive.v ===== *)
(** One peer that answers as the code does is enough to get the blocks, whatever the
    other peers send. *)
From stdpp Require Import base gmap list.
From Stdlib Require Import ZArith Lia.
From S2P Require Import Prelude GoStd GoBytes LedgerUtil KVStore StateDelta StateSpec HashableState Blockchain Ledger.
From S2P Require Import ExecTransaction ConsensusHelper StateTransfer PeerSync TransferSpec.

(** * The answer of a peer *)

Lemma sendWhile_all {A} (f : Z -> option A) (g : Z -> A) nums : Forall (fun n => f n = Some (g n)) nums ->
  sendWhile f nums = g <$> nums.
Proof. induction 1 as [|n nums E _ IH]; cbn; [done|]. by rewrite E, IH. Qed.

Lemma downFrom_bounds k : forall n m, m ∈ downFrom k n -> n - Z.of_nat k < m <= n.
Proof.
  induction k as [|k IH]; intros n m; cbn [downFrom]; [by rewrite elem_of_nil|].
  rewrite elem_of_cons. intros [->|Hm%IH]; lia.
Qed.

Definition singleBlock (C : Z -> Block) (n : Z) : SyncBlocks := mkSyncBlocks (Some (mkSyncBlockRange n n)) [C n].

(** [sendBlocks] sends the blocks asked for one by one, from the highest. *)
Lemma sendBlocks_down (fuel k : nat) getBlock (C : Z -> Block) high low : 0 <= low -> high + 1 < two64 ->
  high = low + Z.of_nat k -> (S k < fuel)%nat ->
  (forall n, low <= n <= high -> getBlock n = LOk (Some (C n))) ->
  sendBlocks fuel getBlock (mkSyncBlockRange high low) = Some (singleBlock C <$> downFrom (S k) high).
Proof.
  intros Hl Hh Hk Hf Hg. unfold sendBlocks. cbn [Start End_].
  assert ((if high >? low then reverseBlockNums fuel high low high else forwardBlockNums fuel low high) =
    Some (downFrom (S k) high)) as ->.
  - destruct (high >? low) eqn:E; [apply reverseBlockNums_down; lia|].
    assert (k = O) as -> by lia. replace high with low by lia. destruct fuel as [|[|fuel]]; [lia..|].
    cbn [forwardBlockNums downFrom]. rewrite Z.leb_refl, u64_small by (unfold is_u64; lia).
    by rewrite (proj2 (Z.leb_gt _ _)) by lia.
  - cbn [fmap option_fmap option_map]. f_equal. apply sendWhile_all, Forall_forall. intros n Hn%downFrom_bounds.
    unfold blockMessage. by rewrite Hg by lia.
Qed.

(** * Total correctness *)

Section live.
Context {S PeerID : Type} `{!LedgerStack S} `{BlockCodec} `{!TransferSpec S} `{!Network PeerID}
  (hash : bytes -> bytes) (conf : transferConfig).

Abbreviation St := (StateTransferState S PeerID).

Lemma twp_call {A} (m : M S A) (Q : A -> St -> Prop) s a st : m (stack s) = Done a st ->
  Q a (s <| stack := st |>) -> twp (onStack m) Q s.
Proof. intros E HQ. unfold twp, onStack. by rewrite E. Qed.

Lemma twp_ask {A} (f : nat -> A) (Q : A -> St -> Prop) s :
  Q (f (calls_ s)) (s <| calls_ := (calls_ s + 1)%nat |>) -> twp (ask f) Q s.
Proof. done. Qed.

(** Every peer is tried until one succeeds. *)
Lemma twp_tryLoop {V} (do_ : PeerID -> V -> M St (V * result unit)) peers start (I Q : V -> St -> Prop) p rounds :
  forall v err s,
  (forall q v s, q ∈ peers -> I v s -> twp (do_ q v) (fun x s' =>
    match snd x with Ok _ => Q (fst x) s' | Err => I (fst x) s' /\ q <> p end) s) ->
  I v s -> Forall (fun i => (i + start) mod length peers < length peers)%nat rounds ->
  (exists i, i ∈ rounds /\ peers !! ((i + start) mod length peers)%nat = Some p) ->
  twp (tryLoop do_ peers start rounds v err) (fun x s' => snd x = Ok tt /\ Q (fst x) s') s.
Proof.
  induction rounds as [|i rounds IH]; intros v err s Hdo HI Hlt (j & Hj & Ej); [by apply elem_of_nil in Hj|].
  apply Forall_cons in Hlt as [Hi Hlt]. cbn [tryLoop]. destruct (lookup_lt_is_Some_2 _ _ Hi) as [q Eq]. rewrite Eq.
  apply twp_bind. eapply twp_mono; [apply Hdo; [by eapply list_elem_of_lookup_2|done]|].
  cbn. intros [v' [u|]] s' Hx; cbn in Hx; [by apply twp_ret|]. destruct Hx as [HI' Hne].
  apply IH; [done|done|done|]. exists j. split; [|done]. apply elem_of_cons in Hj as [->|]; [congruence|done].
Qed.

(** The start of the loop does not matter. *)
Lemma round_of (n start j : nat) : (start < n)%nat -> (j < n)%nat ->
  exists i, i ∈ seq 0 n /\ ((i + start) mod n = j)%nat.
Proof.
  intros Hs Hj. exists ((j + n - start) mod n)%nat. split.
  - apply elem_of_seq. pose proof (Nat.mod_upper_bound (j + n - start) n). lia.
  - rewrite Nat.Div0.add_mod_idemp_l. replace (j + n - start + start)%nat with (j + 1 * n)%nat by lia.
    rewrite Nat.Div0.mod_add. by apply Nat.mod_small.
Qed.

Lemma twp_tryOverPeers {V} (do_ : PeerID -> V -> M St (V * result unit)) peers (I Q : V -> St -> Prop) p v s :
  (forall v s n, I v s -> I v (s <| calls_ := n |>)) -> p ∈ peers ->
  (forall q v s, q ∈ peers -> I v s -> twp (do_ q v) (fun x s' =>
    match snd x with Ok _ => Q (fst x) s' | Err => I (fst x) s' /\ q <> p end) s) ->
  I v s -> twp (tryOverPeers (Some peers) do_ v) (fun x s' => snd x = Ok tt /\ Q (fst x) s') s.
Proof.
  intros Hcalls Hp Hdo HI. unfold tryOverPeers. apply twp_bind, twp_ret. destruct peers as [|p0 ps] eqn:E.
  { by apply elem_of_nil in Hp. }
  rewrite <- E in *. assert (length peers <> 0)%nat as Hlen by (rewrite E; done). clear E.
  apply twp_bind, twp_ask. apply (twp_tryLoop _ _ _ I Q p); [done|by apply Hcalls| |].
  - apply Forall_forall. intros i _. by apply Nat.mod_upper_bound.
  - apply list_elem_of_lookup in Hp as [j Ej].
    destruct (round_of (length peers) (randInt (PeerID := PeerID) (calls_ s) mod length peers) j) as (i & Hi & Ei).
    + by apply Nat.mod_upper_bound.
    + by apply lookup_lt_Some in Ej.
    + exists i. split; [done|]. by rewrite Ei.
Qed.

(** ** The chain of the honest peers *)

Section chain.
Context (C : Z -> Block) (hashOf : Z -> bytes) (high low : Z) (kv : kvs) (op : option (transferID * kvs)).
Hypothesis Hlow : 0 <= low.
Hypothesis Hhigh : high + 1 < two64.
Hypothesis Hhash : forall k, low <= k <= high -> hasHash hash (C k) (hashOf k).
Hypothesis Hlink : forall k, low < k <= high -> PreviousBlockHash (C k) = hashOf (k - 1).
Hypothesis Hgood : forall k, low <= k <= high -> goodBlock (C k).

(** Blocks that are there and would be refused if they were wrong. *)
Definition undamaged (bl : gmap Z Block) : Prop :=
  RecoverDamage conf = true \/ forall k c, low <= k <= high -> bl !! k = Some c -> hasHash hash c (hashOf k).

(** A message with a range, and blocks that do not collide with those of the
    chain. *)
Definition decentBlock (b : Block) : Prop :=
  goodBlock b /\ forall k, low <= k <= high -> hasHash hash b (hashOf k) -> PreviousBlockHash b = PreviousBlockHash (C k).

Definition decentMessage (m : SyncBlocks) : Prop := is_Some (sb_Range m) /\ Forall decentBlock (sb_Blocks m).

(** The blocks of the chain are there from [high] down to [n + 1]. *)
Definition there (bl : gmap Z Block) (n : Z) : Prop :=
  forall k, n < k <= high -> exists c, bl !! k = Some c /\ hasHash hash c (hashOf k).

(** What is expected next is the next block of the chain. *)
Definition expecting (v : blockVars) (s : St) : Prop :=
  low <= blockCursor v <= high /\ validBlockHash v = hashOf (blockCursor v) /\
  exists bl, tr_holds (stack s) kv bl op /\ undamaged bl /\ there bl (blockCursor v).

Definition complete (v : blockVars) (s : St) : Prop :=
  blockCursor v = low /\ exists bl, tr_holds (stack s) kv bl op /\ there bl (low - 1).

Lemma undamaged_put bl n b : undamaged bl -> hasHash hash b (hashOf n) -> undamaged (<[n := b]> bl).
Proof.
  intros [Hu|Hu] Hb; [by left|right]. intros k c Hk. rewrite lookup_insert.
  case_decide as Ek; [intros [= <-]; by subst k|by apply Hu].
Qed.

Lemma there_put bl n b : there bl n -> hasHash hash b (hashOf n) -> there (<[n := b]> bl) (n - 1).
Proof.
  intros Ht Hb k Hk. destruct (decide (k = n)) as [->|].
  - exists b. by rewrite lookup_insert_eq.
  - rewrite lookup_insert_ne by done. apply Ht. lia.
Qed.

Lemma there_old bl n c : there bl n -> bl !! n = Some c -> hasHash hash c (hashOf n) -> there bl (n - 1).
Proof. intros Ht E Hc k Hk. destruct (decide (k = n)) as [->|]; [by exists c|apply Ht; lia]. Qed.

Lemma storeBlock_twp n b (s : St) : low <= n <= high -> goodBlock b -> hasHash hash b (hashOf n) ->
  (exists bl, tr_holds (stack s) kv bl op /\ undamaged bl /\ there bl n) ->
  twp (storeBlock hash conf n (hashOf n) b)
    (fun _ s' => exists bl, tr_holds (stack s') kv bl op /\ undamaged bl /\ there bl (n - 1)) s.
Proof.
  intros Hn Hb Hbh (bl & Hh & Hu & Ht). unfold storeBlock.
  assert (twp (onStack (stack_PutBlock n b) ;; mret tt)
    (fun _ s' => exists bl, tr_holds (stack s') kv bl op /\ undamaged bl /\ there bl (n - 1)) s) as Hput.
  { destruct (tr_Put _ _ _ _ n b Hh ltac:(unfold is_u64; lia) Hb) as (st & bl' & E & Hst & Hbl). apply twp_bind.
    eapply twp_call; [exact E|]. apply twp_ret. exists bl'. split; [exact Hst|]. rewrite Hbl by lia.
    split; [by apply undamaged_put|by apply there_put]. }
  destruct (RecoverDamage conf) eqn:Er; [done|].
  destruct (tr_GetBlock _ _ _ _ n Hh) as (r & E & Hr). specialize (Hr ltac:(unfold is_u64; lia)).
  apply twp_bind. eapply twp_call; [exact E|]. destruct s. cbn. destruct r as [[old|]|]; [|done..].
  destruct Hu as [Hu|Hu]; [congruence|]. pose proof (proj1 (Hr old) eq_refl) as Eold.
  pose proof (Hu n old Hn Eold) as Hold. rewrite Hold.
  rewrite bool_decide_eq_true_2 by done. apply twp_ret. exists bl. split; [done|].
  split; [by right|by eapply there_old].
Qed.

(** The rest of a message, with the block at the cursor accepted or not. *)
Lemma recvBlocks_twp start blocks : forall i v s, Forall decentBlock blocks -> expecting v s ->
  twp (recvBlocks hash conf low start i blocks v) (fun x s' =>
    match snd x with Some (Ok _) => complete (fst x) s' | _ => expecting (fst x) s' end) s.
Proof.
  induction blocks as [|b blocks IH]; intros i v s Hb Hx; cbn [recvBlocks]; [by apply twp_ret|].
  apply Forall_cons in Hb as [[Hg Hc] Hb]. destruct v as [cursor expected old].
  assert (expecting (mkBlockVars cursor expected (Some b)) s) as Hx' by exact Hx.
  destruct (negb _); [by apply IH|]. destruct (helper_HashBlock hash (Some b)) as [h|] eqn:Eh; [|by apply twp_ret].
  case_bool_decide as Heq; cbn [negb]; [subst h|by apply twp_ret].
  destruct Hx as (Hcur & He & Hbl). cbn in Hcur, He. subst expected. apply twp_bind.
  eapply twp_mono; [by apply storeBlock_twp|]. cbn. intros _ s1 (bl1 & Hh1 & Hu1 & Ht1).
  case_bool_decide as El; [apply twp_ret; subst cursor; split; [done|by exists bl1]|]. apply IH; [done|].
  rewrite u64_pred by lia. split; [cbn; lia|]. split; [|by exists bl1]. cbn.
  rewrite (Hc cursor Hcur Eh). apply Hlink. lia.
Qed.

Lemma recvSyncBlocks_twp messages : forall v s, Forall decentMessage messages -> expecting v s ->
  twp (recvSyncBlocks hash conf low messages v) (fun x s' =>
    match snd x with Ok _ => complete (fst x) s' | Err => expecting (fst x) s' end) s.
Proof.
  induction messages as [|m messages IH]; intros v s Hm Hx; cbn [recvSyncBlocks]; [by apply twp_ret|].
  apply Forall_cons in Hm as [[[r Er] Hb] Hm]. rewrite Er. destruct (_ <? _); [by apply IH|].
  apply twp_bind. eapply twp_mono; [by apply recvBlocks_twp|]. cbn. intros [v' [[u|]|]] s' Hd; cbn in Hd.
  - by apply twp_ret.
  - by apply twp_ret.
  - by apply IH.
Qed.

(** A message with the block that is expected. *)
Lemma single_twp v s : expecting v s ->
  twp (recvBlocks hash conf low (blockCursor v) 0 [C (blockCursor v)] v) (fun x s' =>
    if decide (blockCursor v = low) then snd x = Some (Ok tt) /\ complete (fst x) s'
    else snd x = None /\ expecting (fst x) s' /\ blockCursor (fst x) = blockCursor v - 1) s.
Proof.
  intros (Hcur & He & Hbl). destruct v as [cursor expected old]. cbn in *. subst expected.
  rewrite Z.sub_0_r, u64_small by (unfold is_u64; lia). rewrite bool_decide_eq_true_2 by done. cbn [negb].
  rewrite (Hhash cursor Hcur). rewrite bool_decide_eq_true_2 by done. cbn [negb]. apply twp_bind.
  eapply twp_mono; [by apply storeBlock_twp; [..|apply Hgood|apply Hhash|]|]. cbn. intros _ s1 (bl1 & Hh1 & Hu1 & Ht1).
  rewrite bool_decide_decide. case_decide as El.
  - apply twp_ret. split; [done|]. split; [done|]. subst cursor. by exists bl1.
  - apply twp_ret. rewrite u64_pred by lia. split; [done|]. split; [|done]. split; [cbn; lia|].
    split; [|by exists bl1]. cbn. apply Hlink. lia.
Qed.

(** The answer of an honest peer is accepted to the end. *)
Lemma honest_accepted k : forall v s, blockCursor v = low + Z.of_nat k -> expecting v s ->
  twp (recvSyncBlocks hash conf low (singleBlock C <$> downFrom (Datatypes.S k) (blockCursor v)) v)
    (fun x s' => snd x = Ok tt /\ complete (fst x) s') s.
Proof.
  induction k as [|k IH]; intros v s Hk Hx; cbn [downFrom fmap list_fmap];
    cbn [recvSyncBlocks sb_Range singleBlock Start End_ sb_Blocks]; rewrite Z.ltb_irrefl; apply twp_bind;
    (eapply twp_mono; [by apply single_twp|]); cbv beta; intros [v1 d1] s1; case_decide; try lia.
  - intros [Hd Hc]. cbn in Hd, Hc. subst d1. by apply twp_ret.
  - intros (Hd & Hx1 & Ec). cbn in Hd, Hx1, Ec. subst d1. rewrite <- Ec. apply IH; [lia|done].
Qed.
End chain.

(** ** One honest peer *)

(** The peer answers as [sendBlocks] does on a chain with these blocks. *)
Definition honestPeer (C : Z -> Block) (high low : Z) (p : PeerID) : Prop :=
  forall t cursor, low <= cursor <= high -> exists fuel getBlock,
    (forall n, low <= n <= high -> getBlock n = LOk (Some (C n))) /\ (Z.to_nat (cursor - low) + 1 < fuel)%nat /\
    from_option Ok Err (sendBlocks fuel getBlock (mkSyncBlockRange cursor low)) = GetRemoteBlocks t p cursor low.

Lemma honest_answer C high low p t cursor : 0 <= low -> high + 1 < two64 -> honestPeer C high low p ->
  low <= cursor <= high ->
  GetRemoteBlocks t p cursor low = Ok (singleBlock C <$> downFrom (Datatypes.S (Z.to_nat (cursor - low))) cursor).
Proof.
  intros Hl Hh Hp Hc. destruct (Hp t cursor Hc) as (fuel & getBlock & Hg & Hf & <-).
  rewrite (sendBlocks_down fuel (Z.to_nat (cursor - low)) getBlock C cursor low); [done|lia..|].
  intros n Hn. apply Hg. lia.
Qed.

Lemma syncBlocks_honest `{EqDecision PeerID} (C : Z -> Block) (hashOf : Z -> bytes) (high low : Z)
    (peers : list PeerID) (p : PeerID) kv bl op (s : St) :
  0 <= low <= high -> high + 1 < two64 ->
  (forall k, low <= k <= high -> hasHash hash (C k) (hashOf k)) -> (forall k, low <= k <= high -> goodBlock (C k)) ->
  (forall k, low < k <= high -> PreviousBlockHash (C k) = hashOf (k - 1)) ->
  p ∈ peers -> honestPeer C high low p ->
  (forall t q from ms, q ∈ peers -> GetRemoteBlocks t q from low = Ok ms -> Forall (decentMessage C hashOf high low) ms) ->
  tr_holds (stack s) kv bl op -> undamaged hashOf high low bl ->
  twp (syncBlocks hash conf high low (hashOf high) (Some peers)) (fun x s' =>
    x.2 = Ok tt /\ x.1.1 = low /\ exists bl', tr_holds (stack s') kv bl' op /\ there hashOf high bl' (low - 1)) s.
Proof.
  intros Hle Hhi Hc Hgood Hl Hp Hhon Hdec Hh Hu. unfold syncBlocks. apply twp_bind. eapply twp_mono.
  - apply (twp_tryOverPeers _ _ (expecting hashOf high low kv op) (complete hashOf high low kv op) p);
      [intros v s1 n; exact (fun H => H)|done| |].
    + intros q v s1 Hq Hx. unfold fetchBlocks. apply twp_bind, twp_ask. pose proof Hx as [Hcur _].
      destruct (decide (q = p)) as [->|Hne].
      * rewrite (honest_answer C high low) by (done || lia).
        eapply twp_mono; [apply (honest_accepted C hashOf high low kv op); try done; lia|].
        intros [v' [[]|]] s'; by intros [? ?].
      * destruct (GetRemoteBlocks (calls_ s1) q (blockCursor v) low) as [ms|] eqn:E; [|by apply twp_ret].
        eapply twp_mono; [apply (recvSyncBlocks_twp C hashOf high low kv op); try done; [lia|by eapply Hdec]|].
        by intros [v' [[]|]].
    + split; [cbn; lia|]. split; [done|]. exists bl. split; [done|]. split; [done|]. cbn. intros k. lia.
  - intros [v r] s1 [Hr (Hc1 & Hbl)]. apply twp_ret. done.
Qed.
End live.
