(* ===== verification/TransferTheorems.v ===== *)
(** What state transfer guarantees: a transfer that completes has the block that
    consensus vouched for and a state with the hash in that block; one honest peer
    among any others is enough to get the blocks; and where it fails. *)
From stdpp Require Import base gmap list.
From Stdlib Require Import ZArith Lia.
From Stdlib.Strings Require Import Byte.
From S2P Require Import Prelude GoStd GoBytes LedgerUtil KVStore StateDelta StateSpec HashableState.
From S2P Require Import State StateScan StateRefine Blockchain BlockchainSpec Ledger LedgerRefine.
From S2P Require Import LedgerBoot LedgerToy LedgerTheorems.
From S2P Require Import BucketKeys BucketNode BucketHash BucketSpec BucketState BucketStore BucketTree BucketToy.
From S2P Require Import ExecTransaction ConsensusHelper StateTransfer PeerSync TransferSpec TransferLedger TransferLive.

(** * Completed transfers *)


(** * A replica that is one block behind *)

(** The replica that has the block, and the one that misses it. *)
Definition aheadOps : list (ledgerOp transferID) :=
  [OpBegin None; OpCommit now None [toyTransaction x01] [] [];
   OpBegin None; OpTxBegin [x02]; OpSet [x61] [x6b] (Some [x76]); OpTxFinished [x02] true;
   OpCommit now None [toyTransaction x02] [] []].

Definition behindOps : list (ledgerOp transferID) := take 2 aheadOps.

Definition toyRun (ops : list (ledgerOp transferID)) : option (Ledger memDB StateImpl transferID) :=
  match newLedger toyHash emptyDB (NewState_buckettree toyHash emptyDB toyConfigs 500) tt with
  | Done (Ok l0) _ =>
    match runOps (HashableState0 := tree toyHash canonicalOrder toyConf) toyHash canonicalOrder ops l0 with
    | Done _ l => Some l
    | _ => None
    end
  | _ => None
  end.

Definition toyAbs (ops : list (ledgerOp transferID)) : absLedger transferID :=
  from_option fst emptyLedger (absRun toyHash (stateHash toyConf toyHash) emptyLedger ops).

Lemma toyRun_rel (ops : list (ledgerOp transferID)) : Forall wfOp ops -> Z.of_nat (length ops) < two64 ->
  from_option (fun _ => true) false (absRun toyHash (stateHash toyConf toyHash) emptyLedger ops) = true ->
  exists l, toyRun ops = Some l /\
    ledgerRel (HashableState0 := tree toyHash canonicalOrder toyConf)
      (HashableStateSpec0 := spec toyHash canonicalOrder toyConfigs toyConf toySetting) toyHash l (toyAbs ops).
Proof.
  intros Hops Hlen Hrun. destruct (absRun toyHash _ emptyLedger ops) as [[a answers]|] eqn:Ha; [|done].
  destruct (open_empty (ID := transferID) toyHash canonicalOrder toyConfigs toyConf toySetting emptyDB 500 emptyDB_empty
    ltac:(lia)) as (l0 & E0 & Hr0 & _).
  destruct (run_rel toyHash canonicalOrder ops l0 emptyLedger a answers Hr0 Hops Hlen Ha) as (l & E & Hr).
  exists l. unfold toyAbs, toyRun. rewrite Ha, E0. split; [|done]. by rewrite E.
Qed.

Lemma aheadOps_wf : Forall wfOp aheadOps.
Proof.
  repeat constructor; cbn; try done; try lia; try (by rewrite list_elem_of_singleton).
Qed.

(** Peer 0 is the replica ahead; peer 1 answers with a block that was not asked for
    and with a delta that cannot be read. *)
Definition withAhead {A} (f : Ledger memDB StateImpl transferID -> A) (x : A) : A := from_option f x (toyRun aheadOps).

Definition served (from : Z) : list SyncBlocks :=
  withAhead (fun l => default [] (sendBlocks 20 (GetBlockByNumber l) (mkSyncBlockRange from 0))) [].

Definition servedDeltas : list SyncStateDeltas :=
  withAhead (fun l => default [] (sendStateDeltas 20 canonicalOrder (GetStateDelta l) (mkSyncBlockRange 1 1))) [].

#[export] Instance toyNetwork : Network nat := {
  GetRemoteBlocks := fun _ p from to =>
    match p with
    | O => if decide (to = 0 /\ (from = 0 \/ from = 1)) then Ok (served from) else Err
    | _ => Ok [mkSyncBlocks (Some (mkSyncBlockRange from from)) [NewBlock [toyTransaction x09] []]]
    end;
  GetRemoteStateDeltas := fun _ p from to =>
    match p with
    | O => if decide (from = 1 /\ to = 1) then Ok servedDeltas else Err
    | _ => Ok [mkSyncStateDeltas (Some (mkSyncBlockRange from from)) [[xff]]]
    end;
  GetRemoteStateSnapshot := fun _ _ => Err;
  GetNetworkInfo := fun _ => Err;
  randInt := fun _ => 1%nat;
  backgroundRounds := fun _ => 2%nat
}.

Definition toyTarget : blockHashReply nat :=
  mkBlockHashReply (mkSyncMark 1 (Some [0; 1]%nat))
    (withAhead (fun l => match GetBlockByNumber l 1 with LOk (Some b) => blockHash toyHash b | _ => [] end) []).

Definition toyTransfer (l : Ledger memDB StateImpl transferID) : StateTransferState (Ledger memDB StateImpl transferID) nat :=
  mkStateTransferState l true true [] None [toyTarget] [] 0.

(** ** The messages are as they should be *)

#[export] Instance typedTimestamp_dec t : Decision (typedTimestamp t).
Proof. unfold typedTimestamp. apply _. Defined.
#[export] Instance from_option_dec {A} (P : A -> Prop) `{!forall a, Decision (P a)} x : Decision (from_option P True x).
Proof. destruct x; cbn; apply _. Defined.
#[export] Instance typedTransaction_dec t : Decision (typedTransaction t).
Proof. unfold typedTransaction. apply _. Defined.
#[export] Instance typedNonHashData_dec d : Decision (typedNonHashData d).
Proof. unfold typedNonHashData. apply _. Defined.
#[export] Instance typedBlock_dec b : Decision (typedBlock b).
Proof. unfold typedBlock. apply _. Defined.
#[export] Instance result_eq_dec {A} `{EqDecision A} : EqDecision (result A).
Proof. solve_decision. Defined.
#[export] Instance goodBlock_dec b : Decision (goodBlock b).
Proof. unfold goodBlock. apply _. Defined.

Definition admissibleb (d : StateDelta) : bool := bool_decide (map_Forall (fun id c =>
  ChaincodeID c = id /\ UpdatedKVs c <> ∅ /\ stateKeyDelimiter ∉ id) (ChaincodeStateDeltas d)).

Lemma admissibleb_ok d : admissibleb d = true -> admissible d.
Proof.
  unfold admissibleb. rewrite bool_decide_eq_true. intros Hd.
  split; intros id c E; destruct (Hd id c E) as (? & ? & ?); done.
Qed.

Definition goodDeltab (d : bytes) : bool :=
  let '(um, ok) := Unmarshal NewStateDelta d in negb ok || admissibleb um.

Lemma goodDeltab_ok d : goodDeltab d = true -> goodDelta d.
Proof.
  unfold goodDeltab, goodDelta. destruct (Unmarshal NewStateDelta d) as [um []]; cbn; [|done].
  intros E _. by apply admissibleb_ok.
Qed.

Lemma served_good from : from = 0 \/ from = 1 -> Forall (fun m => Forall goodBlock (sb_Blocks m)) (served from).
Proof.
  assert (bool_decide (Forall (fun m => Forall goodBlock (sb_Blocks m)) (served 0 ++ served 1)) = true) as Hs
    by (vm_compute; reflexivity).
  apply bool_decide_eq_true, Forall_app in Hs as [H0 H1].
  intros [->| ->]; [exact H0|exact H1].
Qed.

Lemma garbage_good : goodBlock (NewBlock [toyTransaction x09] []).
Proof.
  assert (bool_decide (goodBlock (NewBlock [toyTransaction x09] [])) = true) as Hg by (vm_compute; reflexivity).
  exact (proj1 (bool_decide_eq_true _) Hg).
Qed.

Lemma Ok_inj {A} (x y : A) : Ok x = Ok y -> x = y.
Proof. by intros [= ->]. Qed.

Lemma toyNetwork_typed : typedNetwork nat.
Proof.
  intros t [|p] from to ms; cbn [GetRemoteBlocks toyNetwork].
  - destruct (decide _) as [[_ E]|]; [|discriminate]. intros Hms. apply Ok_inj in Hms. subst ms. exact (served_good from E).
  - intros Hms. apply Ok_inj in Hms. subst ms. repeat apply Forall_cons_2; try apply Forall_nil_2; apply garbage_good.
Qed.

Lemma servedDeltas_good : forallb (fun m => forallb goodDeltab (sd_Deltas m)) servedDeltas = true.
Proof. vm_compute. reflexivity. Qed.

Lemma toyNetwork_admissible : admissibleNetwork nat.
Proof.
  intros t [|p] from to ms; cbn [GetRemoteStateDeltas toyNetwork].
  - destruct (decide _); [|discriminate]. intros Hms. apply Ok_inj in Hms. subst ms. apply Forall_forall. intros m Hm. apply Forall_forall. intros d Hd.
    pose proof servedDeltas_good as Hg. apply goodDeltab_ok. rewrite forallb_forall in Hg.
    apply list_elem_of_In in Hm. specialize (Hg m Hm). rewrite forallb_forall in Hg. apply Hg. apply list_elem_of_In, Hd.
  - intros Hms. apply Ok_inj in Hms. subst ms. constructor; [|constructor]. constructor; [|constructor]. apply goodDeltab_ok. vm_compute. reflexivity.
Qed.

Definition toyConfig : transferConfig := mkTransferConfig true 10 10.

Definition toyStack : LedgerStack (Ledger memDB StateImpl transferID) :=
  ledgerStack (HashableState0 := tree toyHash canonicalOrder toyConf) toyHash canonicalOrder.

Definition toyAttempt (l : Ledger memDB StateImpl transferID) :=
  attemptStateTransfer (LedgerStack0 := toyStack)
    toyHash toyConfig (mkTransferVars 0 (mkSyncMark 0 None) None false) (toyTransfer l).

Lemma toyAttempt_ok : match toyRun behindOps with
  | Some l => match toyAttempt l with Done (_, r) _ => bool_decide (r = Ok tt) | _ => false end
  | None => false
  end = true.
Proof. vm_compute. reflexivity. Qed.

Lemma behind_idle : al_id (toyAbs behindOps) = None /\ st_batch (al_store (toyAbs behindOps)) = ∅.
Proof. split; vm_compute; reflexivity. Qed.


(** * One honest peer *)


Definition toyChain (n : Z) : Block :=
  withAhead (fun l => match GetBlockByNumber l n with LOk (Some b) => b | _ => NewBlock [] [] end) (NewBlock [] []).

Definition toyHashOf (n : Z) : bytes := blockHash toyHash (toyChain n).

(** What is to be checked of a block that is received, and of the chain. *)
Definition decentb (b : Block) : bool := bool_decide (goodBlock b) &&
  forallb (fun k => negb (bool_decide (helper_HashBlock toyHash (Some b) = Ok (toyHashOf k))) ||
    bool_decide (PreviousBlockHash b = PreviousBlockHash (toyChain k))) [0; 1].

Lemma between01 k : 0 <= k <= 1 -> In k [0; 1].
Proof. intros. cbn. lia. Qed.

Lemma decentb_ok b : decentb b = true -> decentBlock toyHash toyChain toyHashOf 1 0 b.
Proof.
  unfold decentb. intros [Hg Hk]%andb_prop. split; [exact (proj1 (bool_decide_eq_true _) Hg)|].
  intros k Hb Hh. rewrite forallb_forall in Hk. specialize (Hk k (between01 k Hb)).
  apply orb_prop in Hk as [Hk|Hk]; [|exact (proj1 (bool_decide_eq_true _) Hk)].
  apply negb_true_iff, bool_decide_eq_false in Hk. by destruct (Hk Hh).
Qed.

Definition rangeb (m : SyncBlocks) : bool := match sb_Range m with Some _ => true | None => false end.

(** The replica ahead has the blocks of the chain. *)
Definition hasChain (l : Ledger memDB StateImpl transferID) (k : Z) : bool :=
  match GetBlockByNumber l k with LOk (Some b) => bool_decide (b = toyChain k) | _ => false end.

Lemma served_checked : forallb (fun m => rangeb m && forallb decentb (sb_Blocks m)) (served 0 ++ served 1) = true.
Proof. vm_compute. reflexivity. Qed.

Lemma garbage_checked : decentb (NewBlock [toyTransaction x09] []) = true.
Proof. vm_compute. reflexivity. Qed.

Lemma chain_checked : forallb (fun k => bool_decide (goodBlock (toyChain k)) &&
  bool_decide (Block_GetHash toyHash (toyChain k) = Ok (toyHashOf k))) [0; 1] &&
  bool_decide (PreviousBlockHash (toyChain 1) = toyHashOf 0) = true.
Proof. vm_compute. reflexivity. Qed.

Lemma ahead_checked : withAhead (fun l => forallb (hasChain l) [0; 1]) false = true.
Proof. vm_compute. reflexivity. Qed.

Lemma toyChain_good k : 0 <= k <= 1 -> goodBlock (toyChain k) /\ Block_GetHash toyHash (toyChain k) = Ok (toyHashOf k).
Proof.
  intros Hk. pose proof chain_checked as [Hc _]%andb_prop. rewrite forallb_forall in Hc.
  specialize (Hc k (between01 k Hk)). apply andb_prop in Hc as [Hg Hh].
  exact (conj (proj1 (bool_decide_eq_true _) Hg) (proj1 (bool_decide_eq_true _) Hh)).
Qed.

Lemma toyChain_link k : 0 < k <= 1 -> PreviousBlockHash (toyChain k) = toyHashOf (k - 1).
Proof.
  intros Hk. assert (k = 1) as -> by lia. pose proof chain_checked as [_ Hc]%andb_prop.
  exact (proj1 (bool_decide_eq_true _) Hc).
Qed.

Lemma decent_messages ms : forallb (fun m => rangeb m && forallb decentb (sb_Blocks m)) ms = true ->
  Forall (decentMessage toyHash toyChain toyHashOf 1 0) ms.
Proof.
  intros Hms. apply Forall_forall. intros m Hm%list_elem_of_In. rewrite forallb_forall in Hms. specialize (Hms m Hm).
  apply andb_prop in Hms as [Hr Hb]. split; [unfold rangeb in Hr; destruct (sb_Range m); [eexists; reflexivity|discriminate]|].
  apply Forall_forall. intros b Hin%list_elem_of_In. rewrite forallb_forall in Hb. exact (decentb_ok b (Hb b Hin)).
Qed.

Lemma decent_one r b : decentb b = true -> Forall (decentMessage toyHash toyChain toyHashOf 1 0) [mkSyncBlocks (Some r) [b]].
Proof.
  intros Hb. constructor; [|constructor]. split; [eexists; reflexivity|]. constructor; [exact (decentb_ok b Hb)|constructor].
Qed.

Lemma toyNetwork_decent t (q : nat) from ms : GetRemoteBlocks t q from 0 = Ok ms ->
  Forall (decentMessage toyHash toyChain toyHashOf 1 0) ms.
Proof.
  destruct q as [|q]; cbn [GetRemoteBlocks toyNetwork].
  - destruct (decide _) as [[_ E]|]; [|discriminate]. intros Hms. apply Ok_inj in Hms. subst ms.
    pose proof served_checked as Hs. apply decent_messages, Forall_app in Hs as [H0 H1].
    destruct E as [->| ->]; [exact H0|exact H1].
  - intros Hms. apply Ok_inj in Hms. subst ms. exact (decent_one _ _ garbage_checked).
Qed.

Lemma toyPeer_honest : honestPeer toyChain 1 0 0%nat.
Proof.
  intros t cursor Hc. pose proof ahead_checked as Ha. unfold withAhead in Ha.
  destruct (toyRun aheadOps) as [l|] eqn:El; [|discriminate Ha]. cbn [from_option] in Ha.
  assert (forall n, 0 <= n <= 1 -> GetBlockByNumber l n = LOk (Some (toyChain n))) as Hg.
  { intros n Hn. rewrite forallb_forall in Ha. specialize (Ha n (between01 n Hn)). unfold hasChain in Ha.
    destruct (GetBlockByNumber l n) as [[b|]| |]; [|discriminate Ha..]. apply bool_decide_eq_true in Ha. by subst b. }
  exists 20%nat, (GetBlockByNumber l). split; [exact Hg|]. split; [lia|]. cbn [GetRemoteBlocks toyNetwork].
  rewrite decide_True by lia. unfold served, withAhead. rewrite El. cbn [from_option].
  rewrite (sendBlocks_down 20 (Z.to_nat (cursor - 0)) (GetBlockByNumber l) toyChain cursor 0); [reflexivity|unfold two64; lia..|].
  intros n Hn. apply Hg. lia.
Qed.


(** * A delta that cannot be read *)

(** C40. A peer answers with a good delta and, in the same message, one that cannot be
    read: the good one stays in progress.  From then on no delta of any peer is
    accepted, and the ledger refuses to begin a batch. *)
Theorem corrupt_delta_wedges {DB I Itr PeerID : Type} `{RocksDBLaws DB} `{!HashableState DB I Itr}
    `{!HashableStateSpec DB I Itr} `{BlockCodecLaws} `{SpecCodec} `{!Network PeerID}
    (hash : bytes -> bytes) (o : mapOrder) (a : absLedger transferID)
    (m : SyncStateDeltas) (r : SyncBlockRange) (d : bytes) (rest : list bytes) (ms : list SyncStateDeltas) (to : Z)
    (s : StateTransferState (Ledger DB I transferID) PeerID) :
  ledgerRel hash (stack s) a -> al_id a = None -> st_batch (al_store a) = ∅ ->
  sd_Range m = Some r -> Start r <= End_ r <= to -> sd_Deltas m = d :: rest ->
  snd (Unmarshal NewStateDelta d) = true -> admissible (fst (Unmarshal NewStateDelta d)) ->
  Exists (fun d => snd (Unmarshal NewStateDelta d) = false) rest ->
  exists s1, recvStateDeltas (LedgerStack0 := ledgerStack hash o) to (m :: ms) (Start r) s = Done (Start r, Err) s1 /\
    (forall id, BeginTxBatch id (stack s1) = Done Err (stack s1)) /\
    forall from to' peers n result s2,
      playStateUpToBlockNumber (LedgerStack0 := ledgerStack hash o) from to' peers s1 = Done (n, result) s2 ->
      result = Err /\ forall id, BeginTxBatch id (stack s2) = Done Err (stack s2).
Proof.
  intros Hr Hid Hbatch Er Hle Hd Hok Had Hc. pose (TS := ledger_transfer (DB := DB) (I := I) hash o).
  pose proof (ledgerRel_holds hash (stack s) a Hr Hid Hbatch) as Hh.
  assert (forall ptr (s : StateTransferState (Ledger DB I transferID) PeerID),
    wedged (LedgerStack0 := ledgerStack hash o) (TransferSpec0 := TS) ptr s ->
    forall id, BeginTxBatch id (stack s) = Done Err (stack s)) as Hbegin.
  { intros ptr s0 (_ & kv & bl & kv' & Hl) id. unfold BeginTxBatch, checkValidIDBegin. cbv [mbind M_bind get].
    by rewrite (lh_id _ _ _ _ Hl). }
  destruct (corrupt_wedges (LedgerStack0 := ledgerStack hash o) (TransferSpec0 := TS) to (Start r) m ms d rest r s _ _
    Er eq_refl Hle Hd Hok Had Hc Hh) as (s1 & E & Hw).
  exists s1. split; [exact E|]. split; [exact (Hbegin _ s1 Hw)|]. intros from to' peers n res s2 E2.
  destruct (wlp_done _ _ _ _ _ (playState_wedged (LedgerStack0 := ledgerStack hash o) (TransferSpec0 := TS) _ from to' peers s1 Hw) E2)
    as [Hres Hw2]. split; [exact Hres|exact (Hbegin _ s2 Hw2)].
Qed.

Definition toyCorrupt : SyncStateDeltas :=
  mkSyncStateDeltas (Some (mkSyncBlockRange 1 1)) [Marshal canonicalOrder toyDelta; [xff]].

Lemma toyCorrupt_checked : let '(um, ok) := Unmarshal NewStateDelta (Marshal canonicalOrder toyDelta) in
  ok && admissibleb um && negb (snd (Unmarshal NewStateDelta [xff])) = true.
Proof. vm_compute. reflexivity. Qed.

Lemma corrupt_delta_wedges_witness : exists l s1, toyRun behindOps = Some l /\
  recvStateDeltas (LedgerStack0 := toyStack)
    1 [toyCorrupt] 1 (toyTransfer l) = Done (1, Err) s1 /\ BeginTxBatch None (stack s1) = Done Err (stack s1).
Proof.
  destruct (toyRun_rel behindOps) as (l & El & Hr); [apply Forall_take, aheadOps_wf|reflexivity|vm_compute; reflexivity|].
  pose proof toyCorrupt_checked as Hc. destruct (Unmarshal NewStateDelta (Marshal canonicalOrder toyDelta)) as [um ok] eqn:Eu.
  apply andb_prop in Hc as [[Hok Had]%andb_prop Hbad]. apply negb_true_iff in Hbad. subst ok.
  destruct (corrupt_delta_wedges (HashableState0 := tree toyHash canonicalOrder toyConf)
    (HashableStateSpec0 := spec toyHash canonicalOrder toyConfigs toyConf toySetting) toyHash canonicalOrder
    (toyAbs behindOps) toyCorrupt (mkSyncBlockRange 1 1) (Marshal canonicalOrder toyDelta) [[xff]] [] 1 (toyTransfer l) Hr)
    as (s1 & E & Hb & _).
  - exact (proj1 behind_idle).
  - exact (proj2 behind_idle).
  - reflexivity.
  - cbn. lia.
  - reflexivity.
  - rewrite Eu. reflexivity.
  - rewrite Eu. exact (admissibleb_ok um Had).
  - left. exact Hbad.
  - exists l, s1. exact (conj El (conj E (Hb None))).
Defined.

(** * Validation of the chain below *)

Lemma GetBlock_chain {DB I Itr : Type} `{RocksDBLaws DB} `{!HashableState DB I Itr} `{!HashableStateSpec DB I Itr}
    `{BlockCodecLaws} (hash : bytes -> bytes) (l : Ledger DB I transferID) a n :
  ledgerRel hash l a -> 0 <= n < height (al_chain a) -> 
  exists b, al_chain a !! Z.to_nat n = Some b /\ GetBlockByNumber l n = LOk (Some b).
Proof.
  intros Hr Hn. pose proof (sto_bound _ _ _ (lr_stored _ _ _ Hr)).
  destruct (lookup_lt_is_Some_2 (al_chain a) (Z.to_nat n) ltac:(lia)) as [b Eb]. exists b. split; [done|].
  rewrite (GetBlockByNumber_rel hash l a n Hr) by (unfold is_u64; lia). by rewrite decide_True, Eb by lia.
Qed.

(** ** The steps of a round *)

Section rounds.
Context {DB I Itr PeerID : Type} `{RocksDB DB} `{!HashableState DB I Itr} `{BlockCodec} `{SpecCodec} `{!Network PeerID}
  (hash : bytes -> bytes) (o : mapOrder) (conf : transferConfig).

Abbreviation St := (StateTransferState (Ledger DB I transferID) PeerID).
#[local] Instance stack_here : LedgerStack (Ledger DB I transferID) := ledgerStack hash o.

(** The head of the chain as the first range. *)
Lemma initialRange_head (s : St) n top : validBlockRanges s = [] -> GetBlockchainSize (stack s) = n -> n <> 0 ->
  GetBlockByNumber (stack s) (n - 1) = LOk (Some top) ->
  initialRange s = Done true (s <| validBlockRanges := [mkBlockRange (n - 1) (n - 1) (PreviousBlockHash top)] |>).
Proof.
  intros Hnil Hsz Hn Etop. unfold initialRange, onStack. cbv [mbind M_bind get mret M_ret]. rewrite Hnil.
  cbn [stack_GetBlockchainSize stack_GetBlock stack_here ledgerStack]. cbv [gets]. rewrite Hsz.
  rewrite bool_decide_eq_false_2 by done. destruct s. cbn in *. rewrite Etop. reflexivity.
Qed.

Lemma initialRange_there (s : St) r rs : validBlockRanges s = r :: rs -> initialRange s = Done true s.
Proof. intros E. unfold initialRange. cbv [mbind M_bind get]. by rewrite E. Qed.

(** A chain that [VerifyChain] has gone through, broken link or not. *)
Lemma verifyOrRecover_through (s : St) r0 rest target bad b :
  VerifyChain hash (stack s) (lowBlock r0) target = (bad, LOk tt) -> GetBlockByNumber (stack s) target = LOk (Some b) ->
  verifyOrRecover hash conf r0 rest target s = Done tt
    (s <| validBlockRanges := r0 <| lowBlock := target |> <| lowNextHash := PreviousBlockHash b |> :: rest |>).
Proof.
  intros Ev Eb. unfold verifyOrRecover, setRanges, onStack. cbv [mbind M_bind mret M_ret modify].
  cbn [stack_VerifyBlockchain stack_GetBlock stack_here ledgerStack]. unfold helper_VerifyBlockchain. cbv [gets].
  rewrite Ev. destruct s. cbn in *. rewrite Eb. reflexivity.
Qed.
End rounds.

(** C39. Two rounds of the block thread on a chain that fits into one request report it
    valid down to block zero, whatever its links: [VerifyChain] returns the number of a
    broken link without an error, and [VerifyAndRecoverBlockchain] looks at the error
    only. *)
Theorem any_chain_validates {DB I Itr PeerID : Type} `{RocksDBLaws DB} `{!HashableState DB I Itr}
    `{!HashableStateSpec DB I Itr} `{BlockCodecLaws} `{SpecCodec} `{!Network PeerID}
    (hash : bytes -> bytes) (o : mapOrder) (conf : transferConfig) (a : absLedger transferID)
    (s : StateTransferState (Ledger DB I transferID) PeerID) :
  ledgerRel hash (stack s) a -> validBlockRanges s = [] -> 1 < height (al_chain a) ->
  height (al_chain a) <= blockVerifyChunkSize conf < two64 ->
  exists b s1 s2,
    VerifyAndRecoverBlockchain (LedgerStack0 := ledgerStack hash o) hash conf s = Done false s1 /\
    VerifyAndRecoverBlockchain (LedgerStack0 := ledgerStack hash o) hash conf s1 = Done true s2 /\
    validBlockRanges s2 = [mkBlockRange (height (al_chain a) - 1) 0 (PreviousBlockHash b)] /\ stack s2 = stack s.
Proof.
  intros Hr Hnil Hlen Hchunk. set (n := height (al_chain a)) in *.
  assert (GetBlockchainSize (stack s) = n) as Hsz by (unfold GetBlockchainSize, getSize; apply (lr_chain _ _ _ Hr)).
  pose proof (sto_bound _ _ _ (lr_stored _ _ _ Hr)) as Hbd. fold n in Hbd.
  destruct (GetBlock_chain hash (stack s) a (n - 1) Hr ltac:(lia)) as (top & _ & Etop).
  destruct (GetBlock_chain hash (stack s) a 0 Hr ltac:(lia)) as (b & _ & Eb).
  assert (exists bad, VerifyChain hash (stack s) (n - 1) 0 = (bad, LOk tt)) as [bad Ev].
  { rewrite (VerifyChain_rel hash _ a (n - 1) 0 Hr) by (unfold is_u64; lia). unfold verifyAnswer. fold n.
    rewrite !decide_False by lia. eexists. reflexivity. }
  pose (r0 := mkBlockRange (n - 1) (n - 1) (PreviousBlockHash top)).
  pose (s0 := s <| validBlockRanges := [r0] |>).
  pose (r1 := mkBlockRange (n - 1) 0 (PreviousBlockHash b)).
  pose (s1 := s0 <| validBlockRanges := [r0] |> <| validBlockRanges := [r1] |>).
  exists b, s1, (s1 <| validBlockRanges := [r1] |>).
  split; [|split; [|split; [|destruct s; reflexivity]]].
  - unfold VerifyAndRecoverBlockchain. cbv [mbind M_bind get].
    rewrite (initialRange_head hash o s n top Hnil Hsz ltac:(lia) Etop). fold r0. fold s0. cbn [negb].
    change (sortRanges (validBlockRanges s0)) with [r0]. unfold setRanges at 1. cbv [modify].
    rewrite bool_decide_eq_false_2 by (cbn; lia). unfold recoverTarget. cbn [highBlock lowBlock r0].
    rewrite u64_small by (unfold is_u64; lia). assert ((0 + blockVerifyChunkSize conf >? n - 1) = true) as -> by lia.
    rewrite (verifyOrRecover_through hash o conf _ r0 [] 0 bad b); [reflexivity|destruct s; exact Ev|destruct s; exact Eb].
  - unfold VerifyAndRecoverBlockchain. cbv [mbind M_bind get].
    rewrite (initialRange_there hash o _ r1 []) by (destruct s; reflexivity).
    cbn [negb]. destruct s. reflexivity.
  - destruct s. reflexivity.
Qed.

Lemma any_chain_validates_witness : exists (l : Ledger memDB StateImpl transferID) b s1 s2,
  VerifyChain toyHash l 1 0 = (1, LOk tt) /\
  VerifyAndRecoverBlockchain (LedgerStack0 := toyStack) toyHash toyConfig (toyTransfer l) = Done false s1 /\
  VerifyAndRecoverBlockchain (LedgerStack0 := toyStack) toyHash toyConfig s1 = Done true s2 /\
  validBlockRanges s2 = [mkBlockRange 1 0 (PreviousBlockHash b)].
Proof.
  destruct (open_empty (ID := transferID) toyHash canonicalOrder toyConfigs toyConf toySetting emptyDB 500 emptyDB_empty
    ltac:(lia)) as (l0 & _ & Hr0 & _).
  destruct (PutRawBlock_rel toyHash canonicalOrder l0 emptyLedger (toyBlock []) Hr0 ltac:(done)
    (toyBlock_typed _) ltac:(done)) as (l1 & _ & Hr1).
  destruct (PutRawBlock_rel toyHash canonicalOrder l1 _ (toyBlock [x05]) Hr1 ltac:(done)
    (toyBlock_typed _) ltac:(done)) as (l2 & _ & Hr2).
  destruct (any_chain_validates (HashableState0 := tree toyHash canonicalOrder toyConf)
    (HashableStateSpec0 := spec toyHash canonicalOrder toyConfigs toyConf toySetting) toyHash canonicalOrder toyConfig
    _ (toyTransfer l2) Hr2)
    as (b & s1 & s2 & E1 & E2 & E3 & _).
  - reflexivity.
  - vm_compute. reflexivity.
  - vm_compute. split; [discriminate|reflexivity].
  - exists l2, b, s1, s2. split; [|split; [exact E1|split; [exact E2|exact E3]]].
    rewrite (VerifyChain_rel toyHash l2 _ 1 0 Hr2); [vm_compute; reflexivity|split; vm_compute; [discriminate|reflexivity]..].
Defined.
