(* ===== verification/Plugin.v ===== *)
(** What the three PBFT plugins share, consensus/obcpbft/obc-pbft.go: replica ids in
    the names of peers, the messages of the stack, the calls of the executor, and
    how a plugin drives the engine and serves its calls. *)
From stdpp Require Import base gmap list strings.
From Stdlib Require Import ZArith Lia Ascii.
From S2P Require Import Prelude GoStd GoBytes LedgerUtil KVStore Blockchain.
From S2P Require Import PbftTypes PbftCore.

(** * strconv *)

Definition digitChar (d : Z) : ascii := ascii_of_N (Z.to_N (48 + d)).

Definition digitValue (c : ascii) : option Z :=
  let n := Z.of_N (N_of_ascii c) in if (48 <=? n) && (n <=? 57) then Some (n - 48) else None.

Fixpoint formatDigits (fuel : nat) (n : Z) (acc : list ascii) : list ascii :=
  match fuel with
  | O => acc
  | S fuel => if n <? 10 then digitChar n :: acc else formatDigits fuel (n / 10) (digitChar (n mod 10) :: acc)
  end.

(** [strconv.FormatUint(n, 10)]: twenty digits are enough for 64 bits. *)
Definition FormatUint (n : Z) : string := String.string_of_list_ascii (formatDigits 20 n []).

Definition maxUint64 : Z := two64 - 1.

Fixpoint parseDigits (cs : list ascii) (n : Z) : Z * bool :=
  match cs with
  | [] => (n, true)
  | c :: cs =>
    match digitValue c with
    | None => (0, false)
    | Some v =>
      if n >=? maxUint64 / 10 + 1 then (maxUint64, false) else
      let n1 := u64 (n * 10 + v) in
      if n1 <? n * 10 then (maxUint64, false) else parseDigits cs n1
    end
  end.

(** [strconv.ParseUint(s, 10, 64)]: the value and whether there is no error. *)
Definition ParseUint (s : string) : Z * bool :=
  match String.list_ascii_of_string s with
  | [] => (0, false)
  | cs => parseDigits cs 0
  end.

(** * Replica ids *)

Record PeerID := mkPeerID { Name : string }.

#[export] Instance PeerID_eq_dec : EqDecision PeerID.
Proof. solve_decision. Defined.

(** The id, also when there is an error. *)
Definition getValidatorID (handle : PeerID) : Z * bool :=
  match Name handle with
  | String "v" (String "p" rest) => ParseUint rest
  | _ => (0, false)
  end.

Definition getValidatorHandle (id : Z) : PeerID := mkPeerID (String.append "vp" (FormatUint id)).

Definition getValidatorHandles (ids : list Z) : list PeerID := getValidatorHandle <$> ids.

Lemma digit_roundtrip d : 0 <= d < 10 -> digitValue (digitChar d) = Some d.
Proof.
  intros Hd. assert (d = 0 \/ d = 1 \/ d = 2 \/ d = 3 \/ d = 4 \/ d = 5 \/ d = 6 \/ d = 7 \/ d = 8 \/ d = 9) as H by lia.
  repeat destruct H as [->|H]; [reflexivity..|]. by subst d.
Qed.

Lemma parseDigits_step n d cs : 0 <= d < 10 -> 0 <= n -> n * 10 + d < two64 ->
  parseDigits (digitChar d :: cs) n = parseDigits cs (n * 10 + d).
Proof.
  intros Hd Hn Hlt. cbn [parseDigits]. rewrite digit_roundtrip by done. rewrite u64_small by (unfold is_u64; lia).
  assert ((n >=? maxUint64 / 10 + 1) = false) as ->.
  { rewrite Z.geb_leb. apply Z.leb_gt. unfold maxUint64, two64 in *. change ((18446744073709551616 - 1) / 10) with 1844674407370955161. lia. }
  assert ((n * 10 + d <? n * 10) = false) as -> by lia. reflexivity.
Qed.

Lemma parse_format fuel : forall n acc, (0 < fuel)%nat -> 0 <= n < two64 -> n < 10 ^ Z.of_nat fuel ->
  parseDigits (formatDigits fuel n acc) 0 = parseDigits acc n.
Proof.
  induction fuel as [|fuel IH]; intros n acc Hf Hn Hlt; [lia|]. cbn [formatDigits].
  destruct (Z.ltb_spec n 10); [by rewrite parseDigits_step by lia|].
  assert (n / 10 < 10 ^ Z.of_nat fuel) as Hq.
  { apply Z.div_lt_upper_bound; [lia|]. rewrite Nat2Z.inj_succ, Z.pow_succ_r in Hlt by lia. lia. }
  pose proof (Z.div_mod n 10 ltac:(lia)) as Hdm. pose proof (Z.mod_pos_bound n 10 ltac:(lia)) as Hm.
  assert (0 <= n / 10) by (apply Z.div_pos; lia).
  destruct fuel as [|fuel]; [cbn in Hlt; lia|]. rewrite IH; [|lia|lia|done].
  rewrite parseDigits_step by lia. f_equal. lia.
Qed.

Lemma formatDigits_cons fuel : forall n acc, (0 < fuel)%nat -> exists c cs, formatDigits fuel n acc = c :: cs.
Proof.
  induction fuel as [|fuel IH]; intros n acc Hf; [lia|]. cbn [formatDigits]. destruct (n <? 10); [eauto|].
  destruct fuel as [|fuel]; [eauto|]. apply IH. lia.
Qed.

(** The name given to a replica leads back to it. *)
Lemma ParseUint_FormatUint n : is_u64 n -> ParseUint (FormatUint n) = (n, true).
Proof.
  intros Hn. unfold ParseUint, FormatUint. rewrite String.list_ascii_of_string_of_list_ascii.
  destruct (formatDigits_cons 20 n [] ltac:(lia)) as (c & cs & E).
  pose proof (parse_format 20 n [] ltac:(lia) Hn) as Hp. rewrite E in Hp |- *. apply Hp.
  unfold is_u64, two64 in Hn. change (10 ^ Z.of_nat 20) with 100000000000000000000. lia.
Qed.

(** * The stack and the executor *)

Inductive MessageType :=
| CHAIN_TRANSACTION
| CONSENSUS
| OtherType (n : Z).

Record pbMessage := mkPbMessage {
  msg_Type : MessageType;
  msg_Payload : bytes
}.

(** What a plugin asks of the stack and of the executor. *)
Inductive stackCall :=
| stack_Broadcast (m : pbMessage)
| stack_Unicast (m : pbMessage) (receiverHandle : PeerID).

Inductive executorCall :=
| exec_Execute (seqNo : Z) (txs : list Transaction) (execInfo : ExecutionInfo)
| exec_SkipTo (seqNo : Z) (id : bytes) (peerIDs : list PeerID) (execInfo : ExecutionInfo)
| exec_ValidState (seqNo : Z) (id : bytes) (peerIDs : list PeerID) (execInfo : ExecutionInfo).

(** [proto.Marshal] and [proto.Unmarshal] on what the plugins exchange.  Unmarshalling
    gives the message as far as it was read, and whether there was no error. *)
Class PluginCodec := {
  marshalMessage : Message -> bytes;
  unmarshalTransaction : bytes -> Transaction * bool;
  marshalTransactionBlock : list Transaction -> option bytes;
  unmarshalTransactionBlock : bytes -> list Transaction * bool
}.

(** * Driving the engine *)

(** The surroundings of the engine with the plugin's own [validate]. *)
Definition withValidate (v : bytes -> bool) (env : surroundings) : surroundings :=
  mkSurroundings v (consumer_sign env) (consumer_verify env) (consumer_unicast env) (marshal_Request env)
    (marshal_ViewChange env) (marshal_Message env) (unmarshal_Message env) (ComputeCryptoHash env) (random_skip env)
    (order env).

(** A plugin has an engine, and what it has asked of its stack and its executor, in
    order. *)
Class Plugin (St : Type) := {
  op_pbft : St -> pbftCore;
  set_pbft : pbftCore -> St -> St;
  op_stack : St -> list stackCall;
  set_stack : list stackCall -> St -> St;
  op_executor : St -> list executorCall;
  set_executor : list executorCall -> St -> St
}.

Section drive.
Context {St : Type} `{!Plugin St}.

Definition callStack (c : stackCall) : M St unit := modify (fun op => set_stack (op_stack op ++ [c]) op).

Definition callExecutor (c : executorCall) : M St unit := modify (fun op => set_executor (op_executor op ++ [c]) op).

Definition onPbft {A} (m : Mp A) : M St A := fun op =>
  match m (op_pbft op) with
  | Done a p => Done a (set_pbft p op)
  | Panic => Panic
  | Diverge => Diverge
  end.

(** A call of the engine, and the calls it makes of its consumer meanwhile: none of
    them changes what the engine computes afterwards, so they are served once it is
    done, in order. *)
Definition callPbft (consumer : consumerCall -> M St unit) {A} (m : Mp A) : M St A :=
  r ← onPbft m;
  op ← get;
  onPbft (modify (fun p => p <| out := [] |>)) ;;
  forM_ (rev (out (op_pbft op))) consumer ;;
  mret r.
End drive.
