(* ===== verification/ObcBatch.v ===== *)
(** The batch plugin, consensus/obcpbft/obc-batch.go: the primary collects requests
    and hands them to the PBFT engine in batches, when there are enough of them or
    when a timer expires; what the engine orders is unpacked and handed to the
    executor. *)
From stdpp Require Import base gmap list strings.
From Stdlib Require Import ZArith Lia.
From S2P Require Import Prelude GoStd GoBytes LedgerUtil KVStore Blockchain.
From S2P Require Import PbftTypes PbftCore Plugin.

(** The [oneof] payload; [BatchMessage_None] is a message without one. *)
Inductive BatchMessage :=
| BatchMessage_Request (req : bytes)
| BatchMessage_PbftMessage (m : bytes)
| BatchMessage_None.

Class BatchCodec := {
  marshalBatchMessage : BatchMessage -> bytes;
  unmarshalBatchMessage : bytes -> option BatchMessage
}.

(** [obcBatch].  The [time.Timer] is represented by [batchTimerRunning], whether it is
    armed.  The last five fields are not in the source: whether the timer goroutine
    has taken a tick and waits for the lock, the payloads handed to the engine, the
    views it has announced, and the calls of the stack and of the executor. *)
Record obcBatch := mkObcBatch {
  ob_pbft : pbftCore;
  batchSize : Z;
  batchStore : list bytes;
  batchTimerRunning : bool;
  batchTimerActive : bool;
  tickTaken : bool;
  submitted : list bytes;
  announced : list Z;
  ob_stack : list stackCall;
  ob_executor : list executorCall
}.

#[export] Instance obcBatch_eta : Eta obcBatch := fun op =>
  mkObcBatch (ob_pbft op) (batchSize op) (batchStore op) (batchTimerRunning op) (batchTimerActive op)
    (tickTaken op) (submitted op) (announced op) (ob_stack op) (ob_executor op).

#[export] Instance obcBatch_plugin : Plugin obcBatch := {
  op_pbft := ob_pbft;
  set_pbft p op := op <| ob_pbft := p |>;
  op_stack := ob_stack;
  set_stack c op := op <| ob_stack := c |>;
  op_executor := ob_executor;
  set_executor c op := op <| ob_executor := c |>
}.

(** [newObcBatch], once the executor has reported its startup information. *)
Definition newObcBatch (pbft : pbftCore) (general_batchSize : Z) : obcBatch :=
  mkObcBatch pbft general_batchSize [] false false false [] [] [] [].

Section batch.
Context (env : surroundings) (fuel : nat) `{!PluginCodec} `{!BatchCodec}.

Abbreviation B := (M obcBatch).

(** [validate] accepts everything. *)
Definition batch_validate (txRaw : bytes) : bool := true.

#[local] Abbreviation env' := (withValidate batch_validate env).

(** ** The timer *)

Definition startBatchTimer : B unit :=
  modify (fun op => op <| batchTimerRunning := true |>) ;;
  modify (fun op => op <| batchTimerActive := true |>).

(** A tick that is in the channel already is taken out. *)
Definition stopBatchTimer : B unit :=
  modify (fun op => op <| batchTimerRunning := false |>) ;;
  modify (fun op => op <| batchTimerActive := false |>).

(** ** [innerStack], the functions called by the engine *)

Definition wrapMessage (msgPayload : bytes) : pbMessage :=
  mkPbMessage CONSENSUS (marshalBatchMessage (BatchMessage_PbftMessage msgPayload)).

(** A request that cannot be unpacked is dropped. *)
Definition batch_execute (seqNo : Z) (tbRaw : bytes) (execInfo : ExecutionInfo) : B unit :=
  let '(txs, ok) := unmarshalTransactionBlock tbRaw in
  if negb ok then mret tt else callExecutor (exec_Execute seqNo txs execInfo).

Definition batch_viewChange (curView : Z) : B unit :=
  modify (fun op => op <| announced := announced op ++ [curView] |>) ;;
  op ← get;
  when (batchTimerActive op) stopBatchTimer.

Definition batch_consumer (c : consumerCall) : B unit :=
  match c with
  | call_broadcast m => callStack (stack_Broadcast (wrapMessage (marshalMessage m)))
  | call_unicast m receiverID => callStack (stack_Unicast (wrapMessage (marshalMessage m)) (getValidatorHandle receiverID))
  | call_execute seqNo tbRaw execInfo => batch_execute seqNo (default [] tbRaw) execInfo
  | call_skipTo seqNo id replicas execInfo => callExecutor (exec_SkipTo seqNo id (getValidatorHandles replicas) execInfo)
  | call_validState seqNo id replicas execInfo =>
    callExecutor (exec_ValidState seqNo id (getValidatorHandles replicas) execInfo)
  | call_viewChange curView => batch_viewChange curView
  end.

(** ** Batches *)

Definition batch_request (payload : bytes) : B unit :=
  modify (fun op => op <| submitted := submitted op ++ [payload] |>) ;;
  op ← get;
  callPbft batch_consumer (request env' fuel payload (id_ (ob_pbft op))) ;; mret tt.

(** The transactions of a batch; a request that cannot be unpacked is left out. *)
Fixpoint unpackStore (store : list bytes) : list Transaction :=
  match store with
  | [] => []
  | req :: store =>
    let '(tx, ok) := unmarshalTransaction req in if negb ok then unpackStore store else tx :: unpackStore store
  end.

(** The error, which nobody looks at, is left out. *)
Definition sendBatch : B unit :=
  stopBatchTimer ;;
  store ← gets batchStore;
  modify (fun op => op <| batchStore := [] |>) ;;
  match marshalTransactionBlock (unpackStore store) with
  | None => mret tt
  | Some tbPacked => batch_request tbPacked
  end.

Definition leaderProcReq (req : bytes) : B unit :=
  modify (fun op => op <| batchStore := batchStore op ++ [req] |>) ;;
  op ← get;
  when (negb (batchTimerActive op)) startBatchTimer ;;
  op ← get;
  when (Z.of_nat (length (batchStore op)) >=? batchSize op) sendBatch.

(** ** Entry points *)

Definition leads (op : obcBatch) : bool :=
  (primary (ob_pbft op) (view (ob_pbft op)) =? id_ (ob_pbft op)) && activeView (ob_pbft op).

(** [RecvMsg]: [false] stands for an error. *)
Definition batch_RecvMsg (ocMsg : pbMessage) (senderHandle : PeerID) : B bool :=
  match msg_Type ocMsg with
  | CHAIN_TRANSACTION =>
    op ← get;
    (if leads op then leaderProcReq (msg_Payload ocMsg)
     else callStack (stack_Broadcast
       (mkPbMessage CONSENSUS (marshalBatchMessage (BatchMessage_Request (msg_Payload ocMsg)))))) ;;
    mret true
  | OtherType _ => mret false
  | CONSENSUS =>
    match unmarshalBatchMessage (msg_Payload ocMsg) with
    | None => mret false
    | Some (BatchMessage_Request req) =>
      op ← get;
      when (leads op) (leaderProcReq req) ;; mret true
    | Some (BatchMessage_PbftMessage pbftMsg) =>
      let '(senderID, ok) := getValidatorID senderHandle in
      if negb ok then panic else
      callPbft batch_consumer (receive env' fuel pbftMsg senderID) ;; mret true
    | Some BatchMessage_None => mret true
    end
  end.

(** The timer fires and the timer goroutine takes the tick. *)
Definition batchTimerTick : B unit :=
  op ← get;
  when (batchTimerRunning op && negb (tickTaken op) && negb (closed (ob_pbft op)))
    (modify (fun op => op <| batchTimerRunning := false |>) ;;
     modify (fun op => op <| tickTaken := true |>)).

(** It has the lock. *)
Definition batchTimerHander : B unit :=
  op ← get;
  if negb (tickTaken op) then mret tt else
  modify (fun op => op <| tickTaken := false |>) ;;
  when (activeView (ob_pbft op) && negb (bool_decide (batchStore op = []))) sendBatch.

Definition batch_Close : B unit :=
  onPbft close ;; modify (fun op => op <| batchTimerRunning := true |>).

(** Called by the executor. *)
Definition batch_Checkpoint (seqNo : Z) (id : bytes) : B unit :=
  callPbft batch_consumer (takeCheckpoint env' (recvMsgSync env' fuel) seqNo id).
End batch.
