(* ===== verification/ObcClassic.v ===== *)
(** The classic plugin, consensus/obcpbft/obc-classic.go: every request is broadcast
    and handed to the PBFT engine by itself. *)
From stdpp Require Import base gmap list strings.
From Stdlib Require Import ZArith Lia.
From S2P Require Import Prelude GoStd GoBytes LedgerUtil KVStore Blockchain.
From S2P Require Import PbftTypes PbftCore Plugin.

(** [obcClassic]; the calls of the stack and of the executor are not in the source. *)
Record obcClassic := mkObcClassic {
  oc_pbft : pbftCore;
  oc_stack : list stackCall;
  oc_executor : list executorCall
}.

#[export] Instance obcClassic_eta : Eta obcClassic := fun op =>
  mkObcClassic (oc_pbft op) (oc_stack op) (oc_executor op).

#[export] Instance obcClassic_plugin : Plugin obcClassic := {
  op_pbft := oc_pbft;
  set_pbft p op := op <| oc_pbft := p |>;
  op_stack := oc_stack;
  set_stack c op := op <| oc_stack := c |>;
  op_executor := oc_executor;
  set_executor c op := op <| oc_executor := c |>
}.

Definition newObcClassic (pbft : pbftCore) : obcClassic := mkObcClassic pbft [] [].

Section classic.
Context (env : surroundings) (fuel : nat) `{!PluginCodec}.

Abbreviation C := (M obcClassic).

(** [validate] accepts everything. *)
Definition classic_validate (txRaw : bytes) : bool := true.

#[local] Abbreviation env' := (withValidate classic_validate env).

Definition classic_broadcast (msgPayload : bytes) : C unit :=
  callStack (stack_Broadcast (mkPbMessage CONSENSUS msgPayload)).

Definition classic_unicast (msgPayload : bytes) (receiverID : Z) : C unit :=
  callStack (stack_Unicast (mkPbMessage CONSENSUS msgPayload) (getValidatorHandle receiverID)).

(** A request that cannot be unpacked is dropped. *)
Definition classic_execute (seqNo : Z) (txRaw : bytes) (execInfo : ExecutionInfo) : C unit :=
  if negb (classic_validate txRaw) then mret tt else
  let '(tx, ok) := unmarshalTransaction txRaw in
  if negb ok then mret tt else callExecutor (exec_Execute seqNo [tx] execInfo).

Definition classic_consumer (c : consumerCall) : C unit :=
  match c with
  | call_broadcast m => classic_broadcast (marshalMessage m)
  | call_unicast m receiverID => classic_unicast (marshalMessage m) receiverID
  | call_execute seqNo txRaw execInfo => classic_execute seqNo (default [] txRaw) execInfo
  | call_skipTo seqNo id replicas execInfo => callExecutor (exec_SkipTo seqNo id (getValidatorHandles replicas) execInfo)
  | call_validState seqNo id replicas execInfo =>
    callExecutor (exec_ValidState seqNo id (getValidatorHandles replicas) execInfo)
  | call_viewChange _ => mret tt
  end.

(** [RecvMsg]: [false] stands for an error. *)
Definition classic_RecvMsg (ocMsg : pbMessage) (senderHandle : PeerID) : C bool :=
  match msg_Type ocMsg with
  | CHAIN_TRANSACTION =>
    op ← get;
    classic_broadcast (marshalMessage (Message_Request (mkRequest None (msg_Payload ocMsg) (id_ (oc_pbft op))))) ;;
    callPbft classic_consumer (request env' fuel (msg_Payload ocMsg) (id_ (oc_pbft op))) ;;
    mret true
  | OtherType _ => mret false
  | CONSENSUS =>
    let '(senderID, ok) := getValidatorID senderHandle in
    if negb ok then panic else
    callPbft classic_consumer (receive env' fuel (msg_Payload ocMsg) senderID) ;;
    mret true
  end.

(** Called by the executor. *)
Definition classic_Checkpoint (seqNo : Z) (id : bytes) : C unit :=
  callPbft classic_consumer (takeCheckpoint env' (recvMsgSync env' fuel) seqNo id).

Definition classic_Close : C unit := onPbft close.
End classic.
