(* ===== verification/ObcSieve.v ===== *)
(** The sieve plugin, consensus/obcpbft/obc-sieve.go: the primary sends a transaction
    to be executed speculatively, the replicas sign the results they get, and the
    PBFT engine orders the set of signed results by which each replica decides to
    commit, to roll back or to fetch the result. *)
From stdpp Require Import base gmap list strings.
From Stdlib Require Import ZArith Lia.
From S2P Require Import Prelude GoStd GoBytes LedgerUtil KVStore Blockchain.
From S2P Require Import PbftTypes PbftCore Plugin.

(** * Messages *)

Record Execute := mkExecute {
  ex_View : Z;
  ex_BlockNumber : Z;
  ex_Request : bytes;
  ex_ReplicaId : Z
}.

Record Verify := mkVerify {
  v_View : Z;
  v_BlockNumber : Z;
  v_RequestDigest : string;
  v_ResultDigest : bytes;
  v_ReplicaId : Z;
  v_Signature : bytes
}.

Record VerifySet := mkVerifySet {
  vs_View : Z;
  vs_BlockNumber : Z;
  vs_RequestDigest : string;
  vs_Dset : list Verify;
  vs_ReplicaId : Z;
  vs_Signature : bytes
}.

Record Flush := mkFlush {
  fl_View : Z;
  fl_ReplicaId : Z;
  fl_Signature : bytes
}.

Record SieveId := mkSieveId {
  sid_BlockNumber : Z;
  sid_ObcId : bytes
}.

(** The [oneof] payloads; the last constructors are messages without one. *)
Inductive SieveMessage :=
| SieveMessage_Request (req : bytes)
| SieveMessage_Execute (exec : Execute)
| SieveMessage_Verify (verify : Verify)
| SieveMessage_PbftMessage (m : bytes)
| SieveMessage_None.

Inductive SievePbftMessage :=
| SievePbftMessage_VerifySet (vset : VerifySet)
| SievePbftMessage_Flush (flush : Flush)
| SievePbftMessage_None.

#[export] Instance Verify_eq_dec : EqDecision Verify.
Proof. solve_decision. Defined.

#[export] Instance Verify_eta : Eta Verify := fun v =>
  mkVerify (v_View v) (v_BlockNumber v) (v_RequestDigest v) (v_ResultDigest v) (v_ReplicaId v) (v_Signature v).
#[export] Instance VerifySet_eta : Eta VerifySet := fun v =>
  mkVerifySet (vs_View v) (vs_BlockNumber v) (vs_RequestDigest v) (vs_Dset v) (vs_ReplicaId v) (vs_Signature v).
#[export] Instance Flush_eta : Eta Flush := fun f => mkFlush (fl_View f) (fl_ReplicaId f) (fl_Signature f).

(** [proto.Marshal] and [proto.Unmarshal]; the error of [Unmarshal] on a [SieveId] is
    never looked at, so the id is what was read. *)
Class SieveCodec := {
  marshalVerify : Verify -> option bytes;
  marshalVerifySet : VerifySet -> option bytes;
  marshalFlush : Flush -> option bytes;
  marshalSieveMessage : SieveMessage -> bytes;
  unmarshalSieveMessage : bytes -> option SieveMessage;
  marshalSievePbftMessage : SievePbftMessage -> bytes;
  unmarshalSievePbftMessage : bytes -> option SievePbftMessage;
  marshalSieveId : SieveId -> bytes;
  unmarshalSieveId : bytes -> SieveId
}.

#[export] Instance Verify_signable `{!SieveCodec} : signable Verify := {|
  getSignature := v_Signature;
  setSignature sig v := v <| v_Signature := sig |>;
  getID := v_ReplicaId;
  setID i v := v <| v_ReplicaId := i |>;
  serialize _ v := marshalVerify v
|}.

#[export] Instance VerifySet_signable `{!SieveCodec} : signable VerifySet := {|
  getSignature := vs_Signature;
  setSignature sig v := v <| vs_Signature := sig |>;
  getID := vs_ReplicaId;
  setID i v := v <| vs_ReplicaId := i |>;
  serialize _ v := marshalVerifySet v
|}.

#[export] Instance Flush_signable `{!SieveCodec} : signable Flush := {|
  getSignature := fl_Signature;
  setSignature sig v := v <| fl_Signature := sig |>;
  getID := fl_ReplicaId;
  setID i v := v <| fl_ReplicaId := i |>;
  serialize _ v := marshalFlush v
|}.

(** * State *)

Record validResult := mkValidResult {
  vr_commit : bool;
  vr_sieveID : bytes;
  vr_peerIDs : list PeerID
}.

Record pbftExecute := mkPbftExecute {
  pe_seqNo : Z;
  pe_txRaw : bytes;
  pe_execInfo : ExecutionInfo
}.

(** [obcSieve].  [validResults] are the results sent to the executor, which takes them
    in order; [executeChan] is what the channel holds.  The last three fields are not
    in the source: the requests handed to the engine and the calls of the stack and
    of the executor. *)
Record obcSieve := mkObcSieve {
  os_pbft : pbftCore;
  os_id : Z;
  epoch : Z;
  imminentEpoch : Z;
  blockNumber : Z;
  currentReq : string;
  currentView : Z;
  verifyStore : list Verify;
  queuedExec : gmap Z Execute;
  queuedTx : list bytes;
  validResults : list validResult;
  executeChan : list pbftExecute;
  invoked : list SievePbftMessage;
  os_stack : list stackCall;
  os_executor : list executorCall
}.

#[export] Instance obcSieve_eta : Eta obcSieve := fun op =>
  mkObcSieve (os_pbft op) (os_id op) (epoch op) (imminentEpoch op) (blockNumber op) (currentReq op) (currentView op)
    (verifyStore op) (queuedExec op) (queuedTx op) (validResults op) (executeChan op) (invoked op) (os_stack op)
    (os_executor op).

#[export] Instance obcSieve_plugin : Plugin obcSieve := {
  op_pbft := os_pbft;
  set_pbft p op := op <| os_pbft := p |>;
  op_stack := os_stack;
  set_stack c op := op <| os_stack := c |>;
  op_executor := os_executor;
  set_executor c op := op <| os_executor := c |>
}.

Definition newObcSieve (id : Z) (pbft : pbftCore) : obcSieve :=
  mkObcSieve pbft id 0 0 0 "" 0 [] ∅ [] [] [] [] [] [].

Section sieve.
Context (env : surroundings) (fuel : nat) `{!PluginCodec} `{!SieveCodec}.

Abbreviation V := (M obcSieve).

Definition moreCorrectThanByzantineQuorum (op : obcSieve) : Z := 2 * f_ (os_pbft op) + 1.

(** * Sets of verify messages *)

(** [sortV]: the messages by their result, each group in the order of the set. *)
Definition sortVerifies (inDset : list Verify) : gmap string (list Verify) :=
  foldl (fun sortV v =>
    let s := Base64.EncodeToString (v_ResultDigest v) in <[s := default [] (sortV !! s) ++ [v]]> sortV) ∅ inDset.

(** The first group of [f+1] in the order [t] of the map, or the whole set. *)
Definition verifyDset (f : Z) (t : nat) (inDset : list Verify) : list Verify * bool :=
  match List.find (fun '(_, vs) => Z.of_nat (length vs) >=? f + 1) (ord (order env) t (sortVerifies inDset)) with
  | Some (_, vs) => (vs, true)
  | None => (inDset, false)
  end.

Fixpoint validMembers (dups : gset Z) (dset : list Verify) : bool :=
  match dset with
  | [] => true
  | v :: dset =>
    match verify env v with
    | Some _ => false
    | None => if bool_decide (v_ReplicaId v ∈ dups) then false else validMembers (dups ∪ {[ v_ReplicaId v ]}) dset
    end
  end.

Definition consistentMember (vset : VerifySet) (v : Verify) : bool :=
  (v_View v =? vs_View vset) && (v_BlockNumber v =? vs_BlockNumber vset)
  && bool_decide (v_RequestDigest v = vs_RequestDigest vset).

(** [true] stands for no error. *)
Definition validateVerifySet (op : obcSieve) (t : nat) (vset : VerifySet) : bool :=
  match verify env vset with
  | Some _ => false
  | None =>
    if negb (vs_ReplicaId vset =? primary (os_pbft op) (vs_View vset)) then false
    else if negb (validMembers ∅ (vs_Dset vset)) then false
    else if negb (forallb (consistentMember vset) (vs_Dset vset)) then false
    else if Z.of_nat (length (vs_Dset vset)) <? f_ (os_pbft op) + 1 then false
    else bool_decide (fst (verifyDset (f_ (os_pbft op)) t (vs_Dset vset)) = vs_Dset vset)
  end.

Definition validateFlush (op : obcSieve) (flush : Flush) : bool :=
  match verify env flush with
  | Some _ => false
  | None =>
    if negb (fl_ReplicaId flush =? primary (os_pbft op) (fl_View flush)) then false
    else negb (fl_View flush <? imminentEpoch op)
  end.

Definition sieve_validate (op : obcSieve) (t : nat) (rawReq : bytes) : bool :=
  match unmarshalSievePbftMessage rawReq with
  | Some (SievePbftMessage_VerifySet vset) => validateVerifySet op t vset
  | Some (SievePbftMessage_Flush flush) => validateFlush op flush
  | Some SievePbftMessage_None | None => false
  end.

(** The order of the map does not matter to [validate], see
    [SieveTheorems.validateVerifySet_order]. *)
Definition sieveEnv (op : obcSieve) : surroundings := withValidate (sieve_validate op 0) env.

(** * Calls of the engine *)

Definition broadcastMsg (svMsg : SieveMessage) : V unit :=
  callStack (stack_Broadcast (mkPbMessage CONSENSUS (marshalSieveMessage svMsg))).

(** The message of the engine is not wrapped, as it is in a broadcast. *)
Definition sieve_unicast (msgPayload : bytes) (receiverID : Z) : V unit :=
  callStack (stack_Unicast (mkPbMessage CONSENSUS msgPayload) (getValidatorHandle receiverID)).

(** A full channel is emptied by ranging over it, which ends when it is closed: never. *)
Definition sieve_execute (seqNo : Z) (raw : bytes) (execInfo : ExecutionInfo) : V unit :=
  op ← get;
  if Z.of_nat (length (executeChan op)) <? L_ (os_pbft op)
  then modify (fun op => op <| executeChan := executeChan op ++ [mkPbftExecute seqNo raw execInfo] |>)
  else diverge.

Definition sieve_validState (id : bytes) (replicas : list Z) (execInfo : ExecutionInfo) : V unit :=
  let resultSID := unmarshalSieveId id in
  callExecutor (exec_ValidState (sid_BlockNumber resultSID) (sid_ObcId resultSID) (getValidatorHandles replicas) execInfo).

(** [viewChange]; [invoke] is [invokePbft]. *)
Definition sieve_viewChange (invoke : SievePbftMessage -> V unit) (newView : Z) : V unit :=
  modify (fun op => op <| queuedTx := [] |>) ;;
  modify (fun op => op <| imminentEpoch := newView |>) ;;
  onPbft (modify (fun p => p <| outstandingReqs := ∅ |>) ;; stopTimer) ;;
  op ← get;
  when (primary (os_pbft op) newView =? os_id op)
    (invoke (SievePbftMessage_Flush (fst (sign env (mkFlush newView (os_id op) []))))).

(** [invokePbft] for a given way of serving the calls of the engine. *)
Definition invokeWith (consumer : consumerCall -> V unit) (msg : SievePbftMessage) : V unit :=
  modify (fun op => op <| invoked := invoked op ++ [msg] |>) ;;
  op ← get;
  callPbft consumer (request (sieveEnv op) fuel (marshalSievePbftMessage msg) (os_id op)) ;; mret tt.

(** A view change, which the engine announces when it has entered the
    view, makes the plugin hand over a request in turn, which announces nothing:
    [depth] counts how often it does. *)
Fixpoint sieve_consumer (depth : nat) (c : consumerCall) : V unit :=
  match c with
  | call_broadcast m => broadcastMsg (SieveMessage_PbftMessage (marshalMessage m))
  | call_unicast m receiverID => sieve_unicast (marshalMessage m) receiverID
  | call_execute seqNo raw execInfo => sieve_execute seqNo (default [] raw) execInfo
  | call_skipTo _ _ _ _ => mret tt
  | call_validState _ id replicas execInfo => sieve_validState id replicas execInfo
  | call_viewChange newView =>
    match depth with
    | O => diverge
    | S depth => sieve_viewChange (invokeWith (sieve_consumer depth)) newView
    end
  end.

Definition invokePbft (depth : nat) (msg : SievePbftMessage) : V unit := invokeWith (sieve_consumer depth) msg.

(** * Speculative execution *)

Definition isPrimary (op : obcSieve) : bool := primary (os_pbft op) (epoch op) =? os_id op.

(** The error of unpacking the transaction is dropped. *)
Definition processExecute : V unit :=
  op ← get;
  if negb (bool_decide (currentReq op = "")) then mret tt else
  let p := primary (os_pbft op) (epoch op) in
  modify (fun op => op <| queuedExec := delete p (queuedExec op) |>) ;;
  match queuedExec op !! p with
  | None => mret tt
  | Some exec =>
    if negb ((ex_View exec =? epoch op) && (p =? ex_ReplicaId exec) && activeView (os_pbft op)) then mret tt
    else if negb (ex_BlockNumber exec =? u64 (blockNumber op + 1)) then mret tt
    else
      modify (fun op => op <| currentReq := Base64.EncodeToString (ComputeCryptoHash env (ex_Request exec)) |>) ;;
      modify (fun op => op <| currentView := ex_View exec |>) ;;
      modify (fun op => op <| blockNumber := ex_BlockNumber exec |>) ;;
      callExecutor (exec_Execute (ex_BlockNumber exec) [fst (unmarshalTransaction (ex_Request exec))]
        (mkExecutionInfo false true false))
  end.

Definition recvExecute (exec : Execute) : V unit :=
  op ← get;
  if negb ((ex_View exec >=? epoch op) && (ex_BlockNumber exec >? blockNumber op)
    && (primary (os_pbft op) (ex_View exec) =? ex_ReplicaId exec)) then mret tt
  else
    match queuedExec op !! ex_ReplicaId exec with
    | Some _ => mret tt
    | None =>
      modify (fun op => op <| queuedExec := <[ex_ReplicaId exec := exec]> (queuedExec op) |>) ;;
      processExecute
    end.

Definition sieve_processRequest : V unit :=
  op ← get;
  match queuedTx op with
  | [] => mret tt
  | txRaw :: rest =>
    if negb (bool_decide (currentReq op = "")) then mret tt else
    modify (fun op => op <| queuedTx := rest |>) ;;
    modify (fun op => op <| verifyStore := [] |>) ;;
    let exec := mkExecute (epoch op) (u64 (blockNumber op + 1)) txRaw (os_id op) in
    broadcastMsg (SieveMessage_Execute exec) ;;
    recvExecute exec
  end.

Definition sieve_recvRequest (txRaw : bytes) : V unit :=
  op ← get;
  if negb (isPrimary op) || negb (activeView (os_pbft op)) then mret tt else
  modify (fun op => op <| queuedTx := queuedTx op ++ [txRaw] |>) ;;
  op ← get;
  when (bool_decide (currentReq op = "")) sieve_processRequest.

(** * Results *)

Definition recvVerify (depth : nat) (v : Verify) : V unit :=
  op ← get;
  if negb (isPrimary op) || negb (activeView (os_pbft op)) then mret tt else
  match verify env v with
  | Some _ => mret tt
  | None =>
    if negb (v_View v =? epoch op) then mret tt
    else if negb (v_BlockNumber v =? blockNumber op) then mret tt
    else if negb (bool_decide (v_RequestDigest v = currentReq op)) then mret tt
    else if existsb (fun w => v_ReplicaId w =? v_ReplicaId v) (verifyStore op) then mret tt
    else
      modify (fun op => op <| verifyStore := verifyStore op ++ [v] |>) ;;
      op ← get;
      when (Z.of_nat (length (verifyStore op)) =? moreCorrectThanByzantineQuorum op) (
        t ← onPbft tick;
        let dSet := fst (verifyDset (f_ (os_pbft op)) t (verifyStore op)) in
        let verifySet := mkVerifySet (epoch op) (blockNumber op) (currentReq op) dSet (os_id op) [] in
        invokePbft depth (SievePbftMessage_VerifySet (fst (sign env verifySet))))
  end.

(** [Validate], called by the executor with the result of a speculative execution: its
    first half, and the goroutine it starts. *)
Definition announceResult (seqNo : Z) (id : bytes) (depth : nat) : V bytes :=
  op ← get;
  let sidAsBytes := marshalSieveId (mkSieveId seqNo id) in
  let v := fst (sign env (mkVerify (currentView op) seqNo (currentReq op) sidAsBytes (os_id op) [])) in
  onPbft (p ← get; startTimer (requestTimeout p)) ;;
  broadcastMsg (SieveMessage_Verify v) ;;
  recvVerify depth v ;;
  mret sidAsBytes.

(** Its second half, when there is a result; there is none when the engine is closed. *)
Definition decideResult (seqNo : Z) (sidAsBytes : bytes) (received : option validResult)
    : bool * option bytes * list PeerID :=
  match received with
  | None => (false, None, [])
  | Some result =>
    let sid := unmarshalSieveId (vr_sieveID result) in
    if negb (sid_BlockNumber sid =? seqNo) then (false, None, [])
    else if vr_commit result then
      if negb (bool_decide (sidAsBytes = vr_sieveID result)) then (true, Some (sid_ObcId sid), vr_peerIDs result)
      else (true, None, [])
    else (false, None, [])
  end.

(** * Decisions *)

Definition sendResult (r : validResult) : V unit :=
  modify (fun op => op <| validResults := validResults op ++ [r] |>).

(** What follows when a decision is acted on. *)
Definition afterDecision : V unit :=
  modify (fun op => op <| currentReq := "" |>) ;;
  op ← get;
  when (negb (bool_decide (queuedTx op = []))) sieve_processRequest ;;
  op ← get;
  when (negb (isPrimary op)) processExecute.

(** Whether the decision is about something else than the pending execution. *)
Definition mustSync (op : obcSieve) (vset : VerifySet) : bool :=
  bool_decide (currentReq op = "") || negb (vs_BlockNumber vset =? blockNumber op)
  || negb (bool_decide (vs_RequestDigest vset = currentReq op)).

Definition executeVerifySet (depth : nat) (vset : VerifySet) (seqNo : Z) (execInfo : ExecutionInfo) : V unit :=
  op ← get;
  if negb (vs_View vset =? epoch op) then mret tt
  else if vs_BlockNumber vset <? blockNumber op then mret tt
  else if (vs_BlockNumber vset =? blockNumber op) && bool_decide (currentReq op = "") then mret tt
  else
    let sync := mustSync op vset in
    t ← onPbft tick;
    let '(dSet, shouldCommit) := verifyDset (f_ (os_pbft op)) t (vs_Dset vset) in
    if negb shouldCommit then
      if sync then mret tt else
      sendResult (mkValidResult false [] []) ;;
      modify (fun op => op <| blockNumber := u64 (blockNumber op - 1) |>) ;;
      afterDecision
    else
      match dSet with
      | [] => panic
      | d :: _ =>
        let peers := getValidatorHandles (v_ReplicaId <$> dSet) in
        let decision := v_ResultDigest d in
        (if negb sync then
           sendResult (mkValidResult true decision peers) ;;
           when (ei_Checkpoint execInfo)
             (callPbft (sieve_consumer depth) (takeCheckpoint (sieveEnv op) (recvMsgSync (sieveEnv op) fuel) seqNo decision))
         else
           let resultSID := unmarshalSieveId decision in
           modify (fun op => op <| blockNumber := sid_BlockNumber resultSID |>) ;;
           callExecutor (exec_SkipTo (sid_BlockNumber resultSID) (sid_ObcId resultSID) peers execInfo)) ;;
        afterDecision
      end.

Definition executeFlush (flush : Flush) : V unit :=
  op ← get;
  if fl_View flush <? epoch op then mret tt else
  modify (fun op => op <| epoch := fl_View flush |>) ;;
  modify (fun op => op <| queuedTx := [] |>) ;;
  when (negb (bool_decide (currentReq op = ""))) (
    sendResult (mkValidResult false [] []) ;;
    modify (fun op => op <| blockNumber := u64 (blockNumber op - 1) |>) ;;
    modify (fun op => op <| currentReq := "" |>)).

Definition executeImpl (depth : nat) (e : pbftExecute) : V unit :=
  match unmarshalSievePbftMessage (pe_txRaw e) with
  | Some (SievePbftMessage_VerifySet vset) => executeVerifySet depth vset (pe_seqNo e) (pe_execInfo e)
  | Some (SievePbftMessage_Flush flush) => executeFlush flush
  | Some SievePbftMessage_None | None => mret tt
  end.

(** One round of [executeThread]. *)
Definition executeThread (depth : nat) : V unit :=
  op ← get;
  match executeChan op with
  | [] => mret tt
  | e :: rest => modify (fun op => op <| executeChan := rest |>) ;; executeImpl depth e
  end.

(** * Entry points *)

(** [RecvMsg]: [false] stands for an error. *)
Definition sieve_RecvMsg (depth : nat) (ocMsg : pbMessage) (senderHandle : PeerID) : V bool :=
  match msg_Type ocMsg with
  | CHAIN_TRANSACTION =>
    broadcastMsg (SieveMessage_Request (msg_Payload ocMsg)) ;;
    sieve_recvRequest (msg_Payload ocMsg) ;; mret true
  | OtherType _ => mret false
  | CONSENSUS =>
    let '(senderID, ok) := getValidatorID senderHandle in
    if negb ok then panic else
    match unmarshalSieveMessage (msg_Payload ocMsg) with
    | None => mret false
    | Some (SieveMessage_Request req) => sieve_recvRequest req ;; mret true
    | Some (SieveMessage_Execute exec) => when (senderID =? ex_ReplicaId exec) (recvExecute exec) ;; mret true
    | Some (SieveMessage_Verify v) => recvVerify depth v ;; mret true
    | Some (SieveMessage_PbftMessage pbftMsg) =>
      op ← get;
      callPbft (sieve_consumer depth) (receive (sieveEnv op) fuel pbftMsg senderID) ;; mret true
    | Some SieveMessage_None => mret true
    end
  end.

Definition sieve_Close : V unit := onPbft close.
End sieve.
