(* ===== verification/PluginToy.v ===== *)
(** Concrete encodings with which the plugins run. *)
From stdpp Require Import base gmap list strings.
From Stdlib Require Import ZArith Lia.
From Stdlib.Strings Require Import Byte.
From S2P Require Import Prelude GoStd GoBytes LedgerUtil KVStore Blockchain LedgerToy.
From S2P Require Import PbftTypes PbftCore PbftToy Plugin ObcBatch.

(** A block with nothing else. *)
Definition toyTransactionBlock (txs : list Transaction) : Block := mkBlock 0 None txs [] [] [] None.

Definition toyUnmarshalBlock (raw : bytes) : list Transaction * bool :=
  match raw with
  | [] => ([], true)
  | _ => match unmarshalBlock raw with Ok b => (Transactions b, true) | Err => ([], false) end
  end.

#[export] Instance toyPluginCodec : PluginCodec := {
  marshalMessage := fun _ => [];
  unmarshalTransaction := fun raw =>
    match toyUnmarshalBlock raw with ([tx], true) => (tx, true) | _ => (toyTransaction x00, false) end;
  marshalTransactionBlock := fun txs => match marshalBlock (toyTransactionBlock txs) with Ok raw => Some raw | Err => None end;
  unmarshalTransactionBlock := toyUnmarshalBlock
}.

#[export] Instance toyBatchCodec : BatchCodec := {
  marshalBatchMessage := fun m => match m with
    | BatchMessage_Request req => x01 :: req
    | BatchMessage_PbftMessage m => x02 :: m
    | BatchMessage_None => []
    end;
  unmarshalBatchMessage := fun raw => match raw with
    | x01 :: req => Some (BatchMessage_Request req)
    | x02 :: m => Some (BatchMessage_PbftMessage m)
    | [] => Some BatchMessage_None
    | _ => None
    end
}.

(** A transaction as a client sends it. *)
Definition toyTxRaw (uuid : Byte.byte) : bytes := default [] (marshalTransactionBlock [toyTransaction uuid]).

(** Encodings in which a transaction is the byte of its uuid. *)
Definition tinyCodec : PluginCodec := {|
  marshalMessage := fun _ => [];
  unmarshalTransaction := fun raw => match raw with [u] => (toyTransaction u, true) | _ => (toyTransaction x00, false) end;
  marshalTransactionBlock := fun txs => Some (concat (Uuid <$> txs));
  unmarshalTransactionBlock := fun raw => (toyTransaction <$> raw, true)
|}.

Definition toyClient (payload : bytes) : pbMessage := mkPbMessage CHAIN_TRANSACTION payload.
