(* ===== verification/BatchTheorems.v ===== *)
(** What the batch plugin guarantees: every request the primary takes reaches the
    engine in exactly one batch, in order, and replicas whose engines order the same
    batches end with the same ledger. *)
From stdpp Require Import base gmap list strings.
From Stdlib Require Import ZArith Lia.
From Stdlib.Strings Require Import Byte.
From S2P Require Import Prelude GoStd GoBytes LedgerUtil KVStore Blockchain.
From S2P Require Import PbftTypes PbftCore PbftToy Plugin ObcBatch PluginToy.

(** * Runs of the plugin *)

Inductive batchEvent :=
| EvRecvMsg (ocMsg : pbMessage) (senderHandle : PeerID)
| EvTick
| EvTimer
| EvCheckpoint (seqNo : Z) (id : bytes)
| EvClose.

Section runs.
Context (env : surroundings) (fuel : nat) `{!PluginCodec} `{!BatchCodec}.

Definition batchStep (e : batchEvent) : M obcBatch unit :=
  match e with
  | EvRecvMsg ocMsg senderHandle => batch_RecvMsg env fuel ocMsg senderHandle ;; mret tt
  | EvTick => batchTimerTick
  | EvTimer => batchTimerHander env fuel
  | EvCheckpoint seqNo id => batch_Checkpoint env fuel seqNo id
  | EvClose => batch_Close
  end.

(** The request a message brings to the primary. *)
Definition requestOf (ocMsg : pbMessage) : option bytes :=
  match msg_Type ocMsg with
  | CHAIN_TRANSACTION => Some (msg_Payload ocMsg)
  | CONSENSUS =>
    match unmarshalBatchMessage (msg_Payload ocMsg) with Some (BatchMessage_Request req) => Some req | _ => None end
  | OtherType _ => None
  end.

Definition accepts (op : obcBatch) (e : batchEvent) : list bytes :=
  match e with
  | EvRecvMsg ocMsg _ => if leads op then option_list (requestOf ocMsg) else []
  | _ => []
  end.

Definition inView (op : obcBatch) : bool := activeView (ob_pbft op) && bool_decide (announced op = []).

(** The requests taken so far, and whether the view has lasted. *)
Inductive batchReach (op0 : obcBatch) : list bytes -> bool -> obcBatch -> Prop :=
| batchReach_init : batchReach op0 [] (inView op0) op0
| batchReach_step acc lasts op e op' : batchReach op0 acc lasts op -> batchStep e op = Done tt op' ->
    batchReach op0 (acc ++ accepts op e) (lasts && inView op') op'.

(** The payload of a batch. *)
Definition packed (batch : list bytes) : option bytes := marshalTransactionBlock (unpackStore batch).

(** * The calls of the engine leave the store alone *)

(** A view that is announced stops the timer. *)
Record served (op op' : obcBatch) : Prop := {
  sv_store : batchStore op' = batchStore op;
  sv_size : batchSize op' = batchSize op;
  sv_tick : tickTaken op' = tickTaken op;
  sv_submitted : submitted op' = submitted op;
  sv_timer : announced op' = [] -> announced op = [] /\ batchTimerRunning op' = batchTimerRunning op /\
    batchTimerActive op' = batchTimerActive op
}.

#[local] Instance served_preorder : PreOrder served.
Proof.
  split; [by split|]. intros x y z [? ? ? ? H1] [? ? ? ? H2]. split; [congruence..|].
  intros Hz. destruct (H2 Hz) as (Hy & ? & ?). destruct (H1 Hy) as (? & ? & ?). split; [done|]. split; congruence.
Qed.

Lemma onPbft_served {A} (m : Mp A) : guar served (onPbft m).
Proof. intros op a op' E. unfold onPbft in E. destruct (m _); [|done..]. injection E as <- <-. by split. Qed.

Lemma consumer_served c : guar served (batch_consumer c).
Proof.
  destruct c; unfold batch_consumer, batch_execute, callStack, callExecutor; repeat (guar_step; try by split).
  intros op a op' E. unfold batch_viewChange, stopBatchTimer in E. cbv [mbind M_bind modify get when] in E. cbn in E.
  destruct (batchTimerActive op); injection E as <- <-; (split; [done..|]); cbn; intros Hn; by destruct (app_cons_not_nil _ _ _ (eq_sym Hn)).
Qed.

Lemma callPbft_served {A} (m : Mp A) : guar served (callPbft batch_consumer m).
Proof. unfold callPbft. repeat (guar_step || apply onPbft_served || apply consumer_served). Qed.

(** * Handing over a batch *)

(** The store is emptied, and its requests are the next batch. *)
Record sent (op op' : obcBatch) : Prop := {
  se_store : batchStore op' = [];
  se_size : batchSize op' = batchSize op;
  se_tick : tickTaken op' = tickTaken op;
  se_submitted : submitted op' = submitted op ++ option_list (packed (batchStore op));
  se_timer : announced op' = [] -> announced op = [] /\ batchTimerActive op' = false
}.

Lemma sendBatch_sent op : wlp (sendBatch env fuel) (fun _ => sent op) op.
Proof.
  unfold sendBatch, stopBatchTimer. repeat (apply wlp_bind; first [apply wlp_modify | apply wlp_gets]).
  change (unpackStore _) with (unpackStore (batchStore op)).
  destruct (marshalTransactionBlock _) as [tb|] eqn:E.
  - unfold batch_request. apply wlp_bind, wlp_modify, wlp_bind, wlp_get, wlp_bind. match goal with |- wlp ?m _ ?s => destruct (m s) as [a op'| |] eqn:E1; unfold wlp; rewrite E1; [|done..] end.
    destruct (callPbft_served _ _ _ _ E1) as [H1 H2 H3 H4 H5]. cbn in *. split; [done..| |].
    + rewrite H4. unfold packed. by rewrite E.
    + intros Ha. by destruct (H5 Ha) as (? & ? & ?).
  - apply wlp_ret. split; [done..| |done]. cbn. unfold packed. rewrite E. cbn. by rewrite app_nil_r.
Qed.

(** * The invariant *)

Record batchInv (size : Z) (acc : list bytes) (lasts : bool) (op : obcBatch) : Prop := {
  bi_size : batchSize op = size;
  bi_batches : exists batches, concat batches ++ batchStore op = acc /\ submitted op = omap packed batches /\
    Forall (fun b => 1 <= Z.of_nat (length b) <= size) batches;
  bi_store : Z.of_nat (length (batchStore op)) < size;
  bi_timer : lasts = true -> inView op = true /\
    (batchTimerActive op = true <-> batchStore op <> []) /\
    (batchTimerActive op = true -> batchTimerRunning op = true \/ tickTaken op = true)
}.

Lemma batchInv_served size acc lasts op op' : batchInv size acc lasts op -> served op op' ->
  batchInv size acc (lasts && inView op') op'.
Proof.
  intros [? Hb ? Ht] [H1 H2 H3 H4 H5]. split; [congruence| |congruence|]; [by rewrite H1, H4|].
  intros [Hl Hv]%andb_prop. split; [done|]. destruct (Ht Hl) as (_ & Ha & Hr).
  unfold inView in Hv. apply andb_prop in Hv as [_ Hn]. apply bool_decide_eq_true in Hn.
  destruct (H5 Hn) as (_ & Hrun & Hact). by rewrite H1, H3, Hrun, Hact.
Qed.

(** A batch is what the store held. *)
Lemma batchInv_sent size acc lasts (op op' : obcBatch) :
  batchSize op = size -> (exists batches, concat batches ++ batchStore op = acc /\ submitted op = omap packed batches /\
    Forall (fun b => 1 <= Z.of_nat (length b) <= size) batches) ->
  1 <= Z.of_nat (length (batchStore op)) <= size -> sent op op' -> batchInv size acc (lasts && inView op') op'.
Proof.
  intros Hsz (batches & Hacc & Hsub & Hall) Hlen [H1 H2 H3 H4 H5]. split; [congruence| | |].
  - exists (batches ++ [batchStore op]). rewrite concat_app, H1. cbn. rewrite !app_nil_r. split; [done|].
    split; [rewrite omap_app, <- Hsub, H4; f_equal; cbn; by destruct (packed _)|]. apply Forall_app_2; [done|]. by apply Forall_singleton.
  - rewrite H1. cbn. lia.
  - intros [Hl Hv]%andb_prop. split; [done|]. unfold inView in Hv. apply andb_prop in Hv as [_ Hn].
    apply bool_decide_eq_true in Hn. destruct (H5 Hn) as [_ Hact]. rewrite Hact, H1. done.
Qed.

Lemma leaderProcReq_inv size acc lasts req op : batchInv size acc lasts op ->
  wlp (leaderProcReq env fuel req) (fun _ op' => batchInv size (acc ++ [req]) (lasts && inView op') op') op.
Proof.
  intros [Hsz (batches & Hacc & Hsub & Hall) Hlt Ht]. unfold leaderProcReq. apply wlp_bind, wlp_modify, wlp_bind, wlp_get.
  apply wlp_bind.
  apply (wlp_mono _ (fun _ op2 => batchStore op2 = batchStore op ++ [req] /\ batchSize op2 = size /\ submitted op2 = submitted op /\
    batchTimerActive op2 = true /\ inView op2 = inView op /\ tickTaken op2 = tickTaken op /\
    (lasts = true -> batchTimerRunning op2 = true \/ tickTaken op2 = true))).
  - change (negb (batchTimerActive _)) with (negb (batchTimerActive op)). destruct (batchTimerActive op) eqn:Ea; cbn [negb when].
    + apply wlp_ret. repeat (split; [done|]). intros Hl. by destruct (Ht Hl) as (_ & _ & ?); auto.
    + unfold startBatchTimer. apply wlp_bind, wlp_modify, wlp_modify. repeat (split; [done|]). auto.
  - cbn. intros _ op2 (H1 & H2 & H3 & H4 & H5 & H6 & H7). apply wlp_bind, wlp_get.
    assert (exists batches, concat batches ++ batchStore op2 = acc ++ [req] /\ submitted op2 = omap packed batches /\
      Forall (fun b => 1 <= Z.of_nat (length b) <= size) batches) as Hb.
    { exists batches. rewrite H1, H3. split; [by rewrite app_assoc, Hacc|done]. }
    destruct (Z.geb_spec (Z.of_nat (length (batchStore op2))) (batchSize op2)) as [Hge|Hge]; cbn [when].
    + eapply wlp_mono; [apply sendBatch_sent|]. cbn. intros _ op' Hs. eapply batchInv_sent; [exact H2|exact Hb| |exact Hs].
      rewrite H1, length_app in *. cbn in *. lia.
    + apply wlp_ret. split; [done|exact Hb|lia|]. intros [Hl Hv]%andb_prop. split; [done|]. rewrite H4, H1.
      split; [split; [|done]; intros _ Hn; by destruct (app_cons_not_nil _ _ _ (eq_sym Hn))|auto].
Qed.

Lemma RecvMsg_inv size acc lasts ocMsg senderHandle op : batchInv size acc lasts op ->
  wlp (batch_RecvMsg env fuel ocMsg senderHandle) (fun _ op' =>
    batchInv size (acc ++ accepts op (EvRecvMsg ocMsg senderHandle)) (lasts && inView op') op') op.
Proof.
  intros Hi. assert (forall op', served op op' -> batchInv size (acc ++ []) (lasts && inView op') op') as Hsame.
  { intros op' Hs. rewrite app_nil_r. by eapply batchInv_served. }
  unfold batch_RecvMsg, accepts, requestOf. destruct (msg_Type ocMsg).
  - apply wlp_bind, wlp_get. destruct (leads op); cbn [option_list].
    + apply wlp_bind. eapply wlp_mono; [by apply leaderProcReq_inv|]. done.
    + apply wlp_bind, wlp_modify, wlp_ret. apply Hsame. by split.
  - destruct (unmarshalBatchMessage _) as [[req|m|]|].
    + apply wlp_bind, wlp_get. destruct (leads op); cbn [when option_list]; apply wlp_bind.
      * eapply wlp_mono; [by apply leaderProcReq_inv|]. done.
      * apply wlp_ret, wlp_ret. by apply Hsame.
    + replace (if leads op then option_list None else []) with (@nil bytes) by by destruct (leads op).
      destruct (getValidatorID senderHandle) as [senderID []]; [|done]. apply wlp_bind. unfold wlp.
      destruct (callPbft _ _ op) as [a op'| |] eqn:E; [|done..]. apply Hsame. by apply callPbft_served in E.
    + destruct (leads op); by apply wlp_ret, Hsame.
    + destruct (leads op); by apply wlp_ret, Hsame.
  - destruct (leads op); by apply wlp_ret, Hsame.
Qed.

Lemma timer_inv size acc lasts op : batchInv size acc lasts op ->
  wlp (batchTimerHander env fuel) (fun _ op' => batchInv size acc (lasts && inView op') op') op.
Proof.
  intros Hi. destruct Hi as [Hsz Hb Hlt Ht]. unfold batchTimerHander. apply wlp_bind, wlp_get.
  destruct (tickTaken op) eqn:Etick; cbn [negb].
  - apply wlp_bind, wlp_modify. destruct (activeView (ob_pbft op)) eqn:Eact; cbn [andb].
    + case_bool_decide as Hnil; cbn [negb when].
      * apply wlp_ret. split; [done..|]. intros [Hl Hv]%andb_prop. split; [done|]. destruct (Ht Hl) as (_ & Ha & _).
        split; [done|]. intros Hact. by apply Ha in Hact.
      * eapply wlp_mono; [apply sendBatch_sent|]. cbn. intros _ op' Hs.
        refine (batchInv_sent size acc lasts _ op' _ _ _ Hs); [exact Hsz|exact Hb|]. cbn. destruct (batchStore op); [done|]. cbn in *. lia.
    + apply wlp_ret. split; [done..|]. intros [Hl Hv]%andb_prop. destruct (Ht Hl) as (Hin & _). unfold inView in Hin.
      by rewrite Eact in Hin.
  - apply wlp_ret. apply (batchInv_served size acc lasts op op); [|done]. split; [done..|]. by rewrite Etick.
Qed.

Lemma batchStep_inv size acc lasts e op op' : batchInv size acc lasts op -> batchStep e op = Done tt op' ->
  batchInv size (acc ++ accepts op e) (lasts && inView op') op'.
Proof.
  intros Hi E. assert (wlp (batchStep e) (fun _ op' => batchInv size (acc ++ accepts op e) (lasts && inView op') op') op) as Hw;
    [|by unfold wlp in Hw; rewrite E in Hw].
  destruct e; cbn [batchStep].
  - apply wlp_bind. eapply wlp_mono; [by apply RecvMsg_inv|]. done.
  - cbn [accepts]. rewrite app_nil_r. unfold batchTimerTick. apply wlp_bind, wlp_get.
    destruct (_ && _ && _) eqn:Er; cbn [when].
    + apply andb_prop in Er as [[Hrun Htick]%andb_prop _]. apply wlp_bind, wlp_modify, wlp_modify.
      destruct Hi as [? ? ? Ht]. split; [done..|]. intros [Hl Hv]%andb_prop. destruct (Ht Hl) as (? & ? & ?). auto.
    + apply wlp_ret. eapply batchInv_served; [done|reflexivity].
  - cbn [accepts]. rewrite app_nil_r. by apply timer_inv.
  - cbn [accepts]. rewrite app_nil_r. unfold wlp, batch_Checkpoint. destruct (callPbft _ _ op) as [a op1| |] eqn:E1; [|done..].
    eapply batchInv_served; [done|]. by apply callPbft_served in E1.
  - cbn [accepts]. rewrite app_nil_r. unfold batch_Close, wlp. cbv [mbind M_bind modify].
    destruct (onPbft close op) as [a op1| |] eqn:E1; [|done..]. apply onPbft_served in E1.
    apply (batchInv_served _ _ _ _ _ Hi) in E1 as [? ? ? Ht]. split; [done..|]. intros Hl. destruct (Ht Hl) as (? & ? & ?). auto.
Qed.

End runs.

(** * The primary takes three requests with batches of two *)

Definition toyStep (e : batchEvent) (op : obcBatch) : obcBatch :=
  match batchStep (H := tinyCodec) toyEnv 30 e op with Done _ op' => op' | _ => op end.

Definition toyStepb (e : batchEvent) (op : obcBatch) : bool :=
  match batchStep (H := tinyCodec) toyEnv 30 e op with Done _ _ => true | _ => false end.

Lemma toyStep_ok e op : toyStepb e op = true -> batchStep (H := tinyCodec) toyEnv 30 e op = Done tt (toyStep e op).
Proof. unfold toyStepb, toyStep. by destruct (batchStep _ _ e op) as [[] op'| |]. Qed.

Definition toyEvent (payload : bytes) : batchEvent := EvRecvMsg (toyClient payload) (getValidatorHandle 3).

Lemma toyReach_step acc op e a : batchReach (H := tinyCodec) toyEnv 30 (newObcBatch (toyNode 0) 2) acc true op ->
  toyStepb e op = true -> accepts op e = a -> inView (toyStep e op) = true ->
  batchReach (H := tinyCodec) toyEnv 30 (newObcBatch (toyNode 0) 2) (acc ++ a) true (toyStep e op).
Proof.
  intros Hr Hs <- Hv. pose proof (batchReach_step _ _ _ _ _ _ _ _ Hr (toyStep_ok e op Hs)) as Hn. by rewrite Hv in Hn.
Qed.

Definition toyThird : obcBatch :=
  toyStep (toyEvent [x03]) (toyStep (toyEvent [x02]) (toyStep (toyEvent [x01]) (newObcBatch (toyNode 0) 2))).

Lemma toyThird_facts : submitted toyThird = [[x01; x02]] /\ batchStore toyThird = [[x03]].
Proof. split; vm_compute; reflexivity. Qed.

