(* ===== verification/SieveTheorems.v ===== *)
(** What the sieve plugin guarantees: a decision that passes [validate] is the result of
    a correct replica, the primary's own sets pass, and every speculative execution
    gets one result. *)
From stdpp Require Import base gmap list strings.
From Stdlib Require Import ZArith Lia.
From Stdlib.Strings Require Import Byte.
From S2P Require Import Prelude GoStd GoBytes LedgerUtil KVStore Blockchain LedgerToy.
From S2P Require Import PbftTypes PbftCore PbftToy Plugin ObcBatch PluginToy ObcSieve.

(** * Groups of results *)

Definition resultKey (v : Verify) : string := Base64.EncodeToString (v_ResultDigest v).

Definition group (s : string) (l : list Verify) : list Verify := List.filter (fun v => bool_decide (resultKey v = s)) l.

Lemma EncodeToString_inj a b : Base64.EncodeToString a = Base64.EncodeToString b -> a = b.
Proof. intros E. pose proof (Base64.decode_EncodeToString a) as Ha. rewrite E, Base64.decode_EncodeToString in Ha. by injection Ha. Qed.

Lemma EncodeToString_nil a : Base64.EncodeToString a = "" -> a = [].
Proof. intros E. by apply EncodeToString_inj. Qed.

Lemma sortVerifies_lookup l s : sortVerifies l !! s = match group s l with [] => None | vs => Some vs end.
Proof.
  induction l as [|v l IH] using rev_ind; [apply lookup_empty|]. unfold sortVerifies, group in *.
  rewrite foldl_app, List.filter_app. cbn [foldl List.filter]. fold (resultKey v).
  set (m := foldl _ ∅ l) in *. destruct (decide (resultKey v = s)) as [<-|Hne].
  - rewrite lookup_insert_eq, bool_decide_eq_true_2 by done. rewrite IH. by destruct (List.filter _ l).
  - rewrite lookup_insert_ne, bool_decide_eq_false_2 by done. by rewrite app_nil_r.
Qed.

Section dset.
Context (env : surroundings) (f : Z).

(** A group that is chosen is one of at least [f+1]; and there is one, if any. *)
Lemma verifyDset_group t l vs : 0 <= f -> verifyDset env f t l = (vs, true) ->
  exists s, vs = group s l /\ f + 1 <= Z.of_nat (length vs).
Proof.
  intros Hf. unfold verifyDset. destruct (List.find _ _) as [[s vs']|] eqn:E; [|done]. intros [= <-].
  apply List.find_some in E as [Hin Hlen]. exists s. apply list_elem_of_In, elem_of_ord in Hin.
  rewrite sortVerifies_lookup in Hin. split; [by destruct (group s l); [|injection Hin as <-]|lia].
Qed.

Lemma verifyDset_none t l vs : 0 <= f -> verifyDset env f t l = (vs, false) ->
  vs = l /\ forall s, Z.of_nat (length (group s l)) < f + 1.
Proof.
  intros Hf. unfold verifyDset. destruct (List.find _ _) as [[s vs']|] eqn:E; [done|]. intros [= <-]. split; [done|].
  intros s. destruct (group s l) as [|v g] eqn:Eg; [cbn; lia|].
  assert ((s, v :: g) ∈ ord (order env) t (sortVerifies l)) as Hin.
  { apply elem_of_ord. by rewrite sortVerifies_lookup, Eg. }
  apply list_elem_of_In in Hin. pose proof (List.find_none _ _ E _ Hin) as Hlen. cbn beta iota in Hlen. lia.
Qed.

Lemma group_all s l : group s l = l <-> Forall (fun v => resultKey v = s) l.
Proof.
  unfold group. induction l as [|v l IH]; [done|]. cbn. case_bool_decide as Hv.
  - rewrite Forall_cons. split; [intros [= E]; by rewrite IH in E|]. intros [_ Hl]. by rewrite (proj2 IH Hl).
  - split; [|by intros [? _]%Forall_cons]. intros E. pose proof (List.filter_length_le (fun v => bool_decide (resultKey v = s)) l) as Hle.
    rewrite E in Hle. cbn in Hle. lia.
Qed.

Lemma group_other s s' l : s' <> s -> Forall (fun v => resultKey v = s) l -> group s' l = [].
Proof.
  intros Hne. induction 1 as [|w l Hw _ IH]; [done|]. unfold group in *. cbn.
  by rewrite bool_decide_eq_false_2 by congruence.
Qed.

(** A set that is its own group has one result, or none with enough votes; then the
    order of the map does not matter. *)
Lemma coherent t l : 0 <= f -> fst (verifyDset env f t l) = l ->
  (f + 1 <= Z.of_nat (length l) /\ (exists d, Forall (fun v => v_ResultDigest v = d) l) /\
    forall t', verifyDset env f t' l = (l, true)) \/
  forall t', verifyDset env f t' l = (l, false).
Proof.
  intros Hf E. destruct (verifyDset env f t l) as [vs []] eqn:Ev; cbn in E; subst vs.
  - left. destruct (verifyDset_group t l l Hf Ev) as (s & Eg & Hlen). symmetry in Eg. apply group_all in Eg.
    split; [done|]. destruct l as [|v l]; [cbn in Hlen; lia|]. apply Forall_cons in Eg as [Hv Hl]. split.
    + exists (v_ResultDigest v). constructor; [done|]. eapply Forall_impl; [exact Hl|]. cbn. intros w Hw.
      apply EncodeToString_inj. unfold resultKey in *. congruence.
    + intros t'. destruct (verifyDset env f t' (v :: l)) as [vs []] eqn:Ev'.
      * destruct (verifyDset_group t' _ vs Hf Ev') as (s' & -> & Hlen'). f_equal. apply group_all.
        destruct (decide (s' = s)) as [->|Hne]; [by constructor|]. exfalso.
        rewrite (group_other s s') in Hlen' by (done || by constructor). cbn in Hlen'. lia.
      * destruct (verifyDset_none t' _ vs Hf Ev') as [_ Hg]. specialize (Hg s). rewrite (proj2 (group_all s (v :: l))) in Hg by (by constructor). lia.
  - right. intros t'. destruct (verifyDset_none t l l Hf Ev) as [_ Hg].
    destruct (verifyDset env f t' l) as [vs []] eqn:Ev'.
    + destruct (verifyDset_group t' l vs Hf Ev') as (s & -> & Hlen). specialize (Hg s). lia.
    + by destruct (verifyDset_none t' l vs Hf Ev') as [-> _].
Qed.
End dset.

(** * Sets that pass [validate] *)

Section validate.
Context (env : surroundings) `{!PluginCodec} `{!SieveCodec}.

Lemma validMembers_spec l : forall dups, validMembers env dups l = true <->
  Forall (fun v => verify env v = None) l /\ NoDup (v_ReplicaId <$> l) /\ forall v, v ∈ l -> v_ReplicaId v ∉ dups.
Proof.
  induction l as [|v l IH]; intros dups; cbn [validMembers fmap list_fmap].
  - split; [|done]. intros _. split; [done|]. split; [constructor|]. intros v Hv. by apply elem_of_nil in Hv.
  - destruct (verify env v) eqn:Ev; [split; [done|]; intros ([E _]%Forall_cons & _); congruence|].
    case_bool_decide as Hd.
    + split; [done|]. intros (_ & _ & Hno). by destruct (Hno v (list_elem_of_here v l)).
    + rewrite IH, Forall_cons, NoDup_cons. split.
      * intros (H1 & H2 & H3). split; [done|]. split; [split; [|done]|].
        -- intros (w & Ew & Hw)%list_elem_of_fmap. specialize (H3 w Hw). set_solver.
        -- intros w [->|Hw]%elem_of_cons; [done|]. specialize (H3 w Hw). set_solver.
      * intros ((_ & H1) & (H2 & H3) & H4). split; [done|]. split; [done|]. intros w Hw.
        assert (v_ReplicaId w <> v_ReplicaId v) by (intros E; apply H2; rewrite <- E; by apply list_elem_of_fmap_2).
        specialize (H4 w (list_elem_of_further _ _ _ Hw)). set_solver.
Qed.

(** What a valid set is: signed by the primary of its view, of at least [f+1] distinct
    members with good signatures, all about the same execution. *)
Lemma validateVerifySet_spec op t vset : validateVerifySet env op t vset = true <->
  verify env vset = None /\ vs_ReplicaId vset = primary (os_pbft op) (vs_View vset) /\
  Forall (fun v => verify env v = None) (vs_Dset vset) /\ NoDup (v_ReplicaId <$> vs_Dset vset) /\
  Forall (fun v => consistentMember vset v = true) (vs_Dset vset) /\
  f_ (os_pbft op) + 1 <= Z.of_nat (length (vs_Dset vset)) /\
  fst (verifyDset env (f_ (os_pbft op)) t (vs_Dset vset)) = vs_Dset vset.
Proof.
  unfold validateVerifySet. destruct (verify env vset); [split; [done|by intros [? _]]|].
  rewrite !negb_if. destruct (Z.eqb_spec (vs_ReplicaId vset) (primary (os_pbft op) (vs_View vset))) as [Ep|Ep];
    [|split; [done|by intros (_ & ? & _)]].
  destruct (validMembers env ∅ (vs_Dset vset)) eqn:Em.
  - apply validMembers_spec in Em as (H1 & H2 & _). destruct (forallb _ _) eqn:Ec.
    + rewrite forallb_forall in Ec. destruct (Z.ltb_spec (Z.of_nat (length (vs_Dset vset))) (f_ (os_pbft op) + 1));
        [split; [done|intros (_ & _ & _ & _ & _ & ? & _); lia]|].
      rewrite bool_decide_eq_true. split; [|by intros (_ & _ & _ & _ & _ & _ & ?)]. intros E. repeat (split; [done|]).
      split; [|done]. apply Forall_forall. intros v Hv. by apply Ec, list_elem_of_In.
    + split; [done|]. intros (_ & _ & _ & _ & Hc & _). exfalso. assert (forallb (consistentMember vset) (vs_Dset vset) = true) as Ht; [|congruence].
      apply forallb_forall. intros v Hv. rewrite Forall_forall in Hc. by apply Hc, list_elem_of_In.
  - split; [done|]. intros (_ & _ & H1 & H2 & _). exfalso. assert (validMembers env ∅ (vs_Dset vset) = true) as Ht; [|congruence].
    apply validMembers_spec. split; [done|]. split; [done|]. intros v _. set_solver.
Qed.

(** The order of the map does not matter. *)
Lemma validateVerifySet_order op t t' vset : 0 <= f_ (os_pbft op) ->
  validateVerifySet env op t vset = validateVerifySet env op t' vset.
Proof.
  intros Hf. apply eq_true_iff_eq. rewrite !validateVerifySet_spec.
  assert (forall t t', fst (verifyDset env (f_ (os_pbft op)) t (vs_Dset vset)) = vs_Dset vset ->
    fst (verifyDset env (f_ (os_pbft op)) t' (vs_Dset vset)) = vs_Dset vset) as Hc.
  { intros t1 t2 E. destruct (coherent env _ t1 _ Hf E) as [(_ & _ & ->)| ->]; done. }
  split; intros (? & ? & ? & ? & ? & ? & ?); repeat (split; [done|]); eauto.
Qed.

(** C13. A decision to commit that passes [validate] is vouched for: whatever order Go
    walks the map of results in, every replica finds the same result in the set, and
    with at most [f] faulty replicas one of its members was signed by a correct replica,
    for this very view, block and request. *)
Theorem verify_set_vouched (op : obcSieve) (t t' : nat) (vset : VerifySet) (dSet : list Verify) (F : gset Z) :
  0 <= f_ (os_pbft op) -> Z.of_nat (size F) <= f_ (os_pbft op) ->
  validateVerifySet env op t vset = true -> verifyDset env (f_ (os_pbft op)) t' (vs_Dset vset) = (dSet, true) ->
  dSet = vs_Dset vset /\ (forall t'', verifyDset env (f_ (os_pbft op)) t'' (vs_Dset vset) = (dSet, true)) /\
  exists decision, Forall (fun v => v_ResultDigest v = decision) dSet /\
    exists v, v ∈ dSet /\ (v_ReplicaId v ∉ F) /\ verify env v = None /\
      v_View v = vs_View vset /\ v_BlockNumber v = vs_BlockNumber vset /\ v_RequestDigest v = vs_RequestDigest vset.
Proof.
  intros Hf HF Hv Hd. apply validateVerifySet_spec in Hv as (_ & _ & Hs & Hnd & Hc & Hlen & Hfst).
  destruct (coherent env _ t _ Hf Hfst) as [(_ & [d Hall] & Ht)|Ht]; rewrite Ht in Hd; [|done]. injection Hd as <-.
  split; [done|]. split; [done|]. exists d. split; [done|].
  assert (exists r, r ∈ v_ReplicaId <$> vs_Dset vset /\ r ∉ F) as (r & Hr & HrF).
  { destruct (decide (Forall (fun r => r ∈ F) (v_ReplicaId <$> vs_Dset vset))) as [Hin|Hout].
    - exfalso. assert (list_to_set (v_ReplicaId <$> vs_Dset vset) ⊆ F) as Hsub.
      { intros r Hr%elem_of_list_to_set. rewrite Forall_forall in Hin. by apply Hin. }
      apply subseteq_size in Hsub. rewrite size_list_to_set, length_fmap in Hsub by done. lia.
    - apply not_Forall_Exists, Exists_exists in Hout as (r & Hr & Hn); [by exists r|apply _]. }
  apply list_elem_of_fmap in Hr as (v & -> & Hv). exists v. split; [done|]. split; [done|].
  rewrite Forall_forall in Hs, Hc. split; [by apply Hs|]. specialize (Hc v Hv). unfold consistentMember in Hc.
  apply andb_prop in Hc as [[H1 H2]%andb_prop H3]. apply bool_decide_eq_true in H3. split; [lia|]. split; [lia|done].
Qed.

(** * The sets of the primary *)

(** The verify messages that the primary has collected are about its pending
    execution. *)
Record collecting (op : obcSieve) : Prop := {
  co_signed : Forall (fun v => verify env v = None) (verifyStore op);
  co_distinct : NoDup (v_ReplicaId <$> verifyStore op);
  co_current : Forall (fun v => v_View v = epoch op /\ v_BlockNumber v = blockNumber op /\ v_RequestDigest v = currentReq op)
    (verifyStore op)
}.

(** What the group of a result, or the whole set, is again. *)
Lemma verifyDset_idem f t t' l : 0 <= f ->
  fst (verifyDset env f t' (fst (verifyDset env f t l))) = fst (verifyDset env f t l).
Proof.
  intros Hf. destruct (verifyDset env f t l) as [vs []] eqn:E; cbn [fst].
  - destruct (verifyDset_group env f t l vs Hf E) as (s & -> & Hlen).
    assert (group s (group s l) = group s l) as Eg.
    { apply group_all. unfold group. apply Forall_forall. intros v Hv. apply list_elem_of_In, List.filter_In in Hv as [_ Hv].
      by apply bool_decide_eq_true in Hv. }
    destruct (verifyDset env f t' (group s l)) as [vs []] eqn:E'; cbn [fst]; [|by apply verifyDset_none in E' as [-> _]].
    destruct (verifyDset_group env f t' _ vs Hf E') as (s' & -> & Hlen'). destruct (decide (s' = s)) as [->|Hne]; [done|].
    apply group_all in Eg. rewrite (group_other s s') in Hlen' by done. cbn in Hlen'. lia.
  - destruct (verifyDset_none env f t l vs Hf E) as [-> Hg].
    destruct (verifyDset env f t' l) as [vs []] eqn:E'; cbn [fst]; [|by apply verifyDset_none in E' as [-> _]].
    destruct (verifyDset_group env f t' l vs Hf E') as (s & -> & Hlen). specialize (Hg s). lia.
Qed.

(** The members of what is found are members of the set, in its order. *)
Lemma verifyDset_sublist f t l : 0 <= f -> sublist (fst (verifyDset env f t l)) l.
Proof.
  intros Hf. destruct (verifyDset env f t l) as [vs []] eqn:E; cbn [fst].
  - destruct (verifyDset_group env f t l vs Hf E) as (s & -> & _). clear E. unfold group.
    induction l as [|v l IH]; cbn; [constructor|]. destruct (bool_decide _); by constructor.
  - by destruct (verifyDset_none env f t l vs Hf E) as [-> _].
Qed.

Lemma verifyDset_long f t l : 0 <= f -> f + 1 <= Z.of_nat (length l) -> f + 1 <= Z.of_nat (length (fst (verifyDset env f t l))).
Proof.
  intros Hf Hl. destruct (verifyDset env f t l) as [vs []] eqn:E; cbn [fst].
  - by destruct (verifyDset_group env f t l vs Hf E) as (s & -> & ?).
  - by destruct (verifyDset_none env f t l vs Hf E) as [-> _].
Qed.

Lemma Forall_sublist {A} (P : A -> Prop) l l' : sublist l l' -> Forall P l' -> Forall P l.
Proof. intros Hs Hl. rewrite Forall_forall in *. intros x Hx. apply Hl. by eapply elem_of_sublist. Qed.

(** The set made of messages about one execution passes. *)
Lemma made_set_valid (op : obcSieve) t t' (q : obcSieve) sig : collecting op -> 0 <= f_ (os_pbft op) ->
  f_ (os_pbft op) + 1 <= Z.of_nat (length (verifyStore op)) -> isPrimary op = true ->
  f_ (os_pbft q) = f_ (os_pbft op) -> replicaCount (os_pbft q) = replicaCount (os_pbft op) ->
  let vset := mkVerifySet (epoch op) (blockNumber op) (currentReq op)
    (fst (verifyDset env (f_ (os_pbft op)) t (verifyStore op))) (os_id op) sig in
  verify env vset = None -> validateVerifySet env q t' vset = true.
Proof.
  intros [H1 H2 H3] Hf Hlen Hp Ef En vset Hv. apply validateVerifySet_spec. cbn [vs_Dset vs_View vs_ReplicaId vset]. rewrite Ef.
  pose proof (verifyDset_sublist (f_ (os_pbft op)) t (verifyStore op) Hf) as Hsub.
  unfold isPrimary, primary in *. split; [done|]. split; [rewrite En; lia|].
  split; [by eapply Forall_sublist|]. split; [by eapply sublist_NoDup, fmap_sublist|].
  split; [|split; [by apply verifyDset_long|by apply verifyDset_idem]].
  eapply Forall_sublist in H3; [|done]. eapply Forall_impl; [exact H3|]. cbn. intros v (E1 & E2 & E3). unfold consistentMember. cbn.
  rewrite E1, E2, E3, !Z.eqb_refl. by rewrite bool_decide_eq_true_2.
Qed.

Lemma sign_VerifySet (vset : VerifySet) : (forall x, marshalVerifySet x <> None) ->
  (forall raw, exists sig, consumer_sign env raw = Some sig /\ consumer_verify env (vs_ReplicaId vset) sig raw = true) ->
  exists sig, fst (sign env vset) = vset <| vs_Signature := sig |> /\ verify env (vset <| vs_Signature := sig |>) = None.
Proof.
  intros Hm Hs. unfold sign, verify. cbn [serialize VerifySet_signable setSignature getSignature getID].
  destruct (marshalVerifySet (vset <| vs_Signature := [] |>)) as [raw|] eqn:E; [|by destruct (Hm _ E)].
  destruct (Hs raw) as (sig & -> & Hv). exists sig. split; [by destruct vset|].
  replace (vset <| vs_Signature := sig |> <| vs_Signature := [] |>) with (vset <| vs_Signature := [] |>) by by destruct vset.
  rewrite E. by destruct vset; cbn in *; rewrite Hv.
Qed.

End validate.

(** * One result for each execution *)

(** The numbers handed to the executor for speculative execution: it waits for a result
    after each of them. *)
Definition speculative (op : obcSieve) : list Z :=
  omap (fun c => match c with exec_Execute n _ info => if ei_Validate info then Some n else None | _ => None end)
    (os_executor op).

Definition pending (op : obcSieve) : Z := if bool_decide (currentReq op = "") then 0 else 1.

(** Executions that no result was sent for, except the pending one. *)
Definition balance (op : obcSieve) : Z :=
  Z.of_nat (length (speculative op)) - Z.of_nat (length (validResults op)) - pending op.

Section accounting.
Context (env : surroundings) (fuel : nat) `{!PluginCodec} `{!SieveCodec}.
Context (hash_nonempty : forall b, ComputeCryptoHash env b <> []).

(** What the calls of the engine leave alone. *)
Record calm (op op' : obcSieve) : Prop := {
  ca_speculative : speculative op' = speculative op;
  ca_results : validResults op' = validResults op;
  ca_current : currentReq op' = currentReq op
}.

#[local] Instance calm_preorder : PreOrder calm.
Proof. split; [by split|]. intros x y z [] []. split; congruence. Qed.

Definition balanced (op op' : obcSieve) : Prop := balance op' = balance op.

#[local] Instance balanced_preorder : PreOrder balanced.
Proof. unfold balanced. split; [by intros ?|]. intros x y z. congruence. Qed.

Lemma calm_balanced {A} (m : M obcSieve A) : guar calm m -> guar balanced m.
Proof. intros Hm op a op' E. destruct (Hm op a op' E) as [H1 H2 H3]. unfold balanced, balance, pending. by rewrite H1, H2, H3. Qed.

Lemma onPbft_calm {A} (m : Mp A) : guar calm (onPbft m).
Proof. intros op a op' E. unfold onPbft in E. destruct (m _); [|done..]. injection E as <- <-. by split. Qed.

Lemma callStack_calm c : guar calm (callStack c).
Proof. unfold callStack. guar_step. by split. Qed.

Lemma callExecutor_calm c : match c with exec_Execute _ _ info => ei_Validate info = false | _ => True end ->
  guar calm (callExecutor c).
Proof.
  intros Hc. unfold callExecutor. guar_step. split; [|done..]. unfold speculative. cbn. rewrite omap_app. cbn.
  destruct c; cbn; rewrite ?Hc; by rewrite app_nil_r.
Qed.

Lemma callPbft_calm {A} consumer (m : Mp A) : (forall c, guar calm (consumer c)) -> guar calm (callPbft consumer m).
Proof. intros Hc. unfold callPbft. repeat (guar_step || apply onPbft_calm || apply Hc). Qed.

Lemma consumer_calm depth : forall c, guar calm (sieve_consumer env fuel depth c).
Proof.
  induction depth as [|depth IH]; intros c; destruct c; cbn [sieve_consumer];
    unfold broadcastMsg, sieve_unicast, sieve_execute, sieve_validState, sieve_viewChange, invokeWith;
    repeat first [guar_step | by split | apply callStack_calm | by apply callExecutor_calm | apply onPbft_calm | apply callPbft_calm, IH].
Qed.

Lemma invokePbft_calm depth msg : guar calm (invokePbft env fuel depth msg).
Proof. unfold invokePbft, invokeWith. repeat first [guar_step | by split | apply callPbft_calm, consumer_calm]. Qed.

Lemma recvVerify_calm depth v : guar calm (recvVerify env fuel depth v).
Proof. unfold recvVerify. repeat first [guar_step | by split | apply onPbft_calm | apply invokePbft_calm]. Qed.

(** ** Executions *)

Lemma processExecute_balanced : guar balanced (processExecute env).
Proof.
  intros op a op' E. unfold processExecute in E. cbv [mbind M_bind get modify] in E.
  destruct (bool_decide (currentReq op = "")) eqn:Ecur; cbn [negb] in E; [|by injection E as <- <-].
  destruct (queuedExec op !! _) as [exec|]; [|by injection E as <- <-].
  destruct (_ && _ && _) in E; cbn [negb] in E; [|by injection E as <- <-].
  destruct (ex_BlockNumber exec =? _) in E; cbn [negb] in E; [|by injection E as <- <-].
  unfold callExecutor, modify in E. injection E as <- <-. unfold balanced, balance, pending, speculative. cbn.
  rewrite Ecur, omap_app, length_app. rewrite bool_decide_eq_false_2; [cbn; lia|].
  intros E%EncodeToString_nil. by apply hash_nonempty in E.
Qed.

Lemma recvExecute_balanced exec : guar balanced (recvExecute env exec).
Proof. unfold recvExecute. repeat first [guar_step | by split | apply processExecute_balanced | done]. Qed.

Lemma processRequest_balanced : guar balanced (sieve_processRequest env).
Proof.
  unfold sieve_processRequest, broadcastMsg.
  repeat first [guar_step | done | apply calm_balanced, callStack_calm | apply recvExecute_balanced].
Qed.

Lemma recvRequest_balanced txRaw : guar balanced (sieve_recvRequest env txRaw).
Proof. unfold sieve_recvRequest. repeat first [guar_step | done | apply processRequest_balanced]. Qed.

(** ** Decisions *)

Lemma guar_run {R : obcSieve -> obcSieve -> Prop} {A} (m : M obcSieve A) op : guar R m -> wlp m (fun _ op' => R op op') op.
Proof. intros Hm. unfold wlp. destruct (m op) eqn:E; [by eapply Hm|done..]. Qed.

(** The balance once the pending execution is not counted as such. *)
Definition settled (op : obcSieve) : Z := Z.of_nat (length (speculative op)) - Z.of_nat (length (validResults op)).

Lemma settled_balance op : settled op = balance op + pending op.
Proof. unfold settled, balance. lia. Qed.

(** What a decision does to the balance: the pending execution is no longer counted. *)
Lemma afterDecision_balance op : wlp (afterDecision env) (fun _ op' => balance op' = settled op) op.
Proof.
  assert (guar balanced (op ← get; when (negb (bool_decide (queuedTx op = []))) (sieve_processRequest env) ;;
    op ← get; when (negb (isPrimary op)) (processExecute env))) as Hg.
  { repeat first [guar_step | apply processRequest_balanced | apply processExecute_balanced]. }
  unfold afterDecision. apply wlp_bind, wlp_modify. eapply wlp_mono; [exact (guar_run _ _ Hg)|]. cbn. unfold balanced. intros _ op' ->.
  change (balance (op <| currentReq := "" |>)) with (settled op - 0). lia.
Qed.

(** A decision to commit that is about something else than the pending execution. *)
Definition overtakes (op : obcSieve) (vset : VerifySet) : bool :=
  (vs_View vset =? epoch op) && negb (vs_BlockNumber vset <? blockNumber op) && negb (bool_decide (currentReq op = ""))
  && mustSync op vset && snd (verifyDset env (f_ (os_pbft op)) (ticks (os_pbft op)) (vs_Dset vset)).

Lemma calm_settled {A} (m : M obcSieve A) op : guar calm m -> wlp m (fun _ op' => settled op' = settled op) op.
Proof. intros Hm. eapply wlp_mono; [exact (guar_run m op Hm)|]. intros a op' [H1 H2 H3]. unfold settled. by rewrite H1, H2. Qed.

Lemma settled_sent r op : settled (op <| validResults := validResults op ++ [r] |>) = settled op - 1.
Proof.
  unfold settled. change (validResults (op <| validResults := validResults op ++ [r] |>)) with (validResults op ++ [r]).
  rewrite length_app. change (length [r]) with 1%nat.
  change (speculative (op <| validResults := validResults op ++ [r] |>)) with (speculative op). lia.
Qed.

(** The three ways to act on a decision. *)
Lemma rollback_settled op : wlp (sendResult (mkValidResult false [] []) ;;
  modify (fun op => op <| blockNumber := u64 (blockNumber op - 1) |>)) (fun _ op' => settled op' = settled op - 1) op.
Proof. apply wlp_bind, wlp_modify, wlp_modify. exact (settled_sent _ op). Qed.

Lemma commit_settled depth seqNo execInfo decision peers op0 op :
  wlp (sendResult (mkValidResult true decision peers) ;; when (ei_Checkpoint execInfo)
    (callPbft (sieve_consumer env fuel depth) (takeCheckpoint (sieveEnv env op0) (recvMsgSync (sieveEnv env op0) fuel) seqNo decision)))
    (fun _ op' => settled op' = settled op - 1) op.
Proof.
  apply wlp_bind, wlp_modify. eapply wlp_mono; [apply calm_settled|].
  - guar_step. apply callPbft_calm, consumer_calm.
  - intros _ op' ->. exact (settled_sent _ op).
Qed.

Lemma sync_settled n id peers execInfo op : wlp (modify (fun op => op <| blockNumber := n |>) ;;
  callExecutor (exec_SkipTo n id peers execInfo)) (fun _ op' => settled op' = settled op) op.
Proof. apply calm_settled. repeat first [guar_step | by split | by apply callExecutor_calm]. Qed.

Lemma act_balance (m : M obcSieve unit) k op : wlp m (fun _ op' => settled op' = k) op ->
  wlp (m ;; afterDecision env) (fun _ op' => balance op' = k) op.
Proof.
  intros Hm. apply wlp_bind. eapply wlp_mono; [exact Hm|]. intros _ op1 <-. eapply wlp_mono; [apply afterDecision_balance|].
  done.
Qed.

Lemma executeVerifySet_balance depth vset seqNo execInfo op :
  wlp (executeVerifySet env fuel depth vset seqNo execInfo)
    (fun _ op' => balance op' = balance op + if overtakes op vset then 1 else 0) op.
Proof.
  unfold executeVerifySet, overtakes. apply wlp_bind, wlp_get. rewrite !negb_if.
  destruct (vs_View vset =? epoch op); [cbn [andb]|apply wlp_ret; cbn; lia].
  destruct (vs_BlockNumber vset <? blockNumber op); [apply wlp_ret; cbn; lia|cbn [negb andb]].
  assert (settled op = balance op + if bool_decide (currentReq op = "") then 0 else 1) as Hs by apply settled_balance.
  assert (bool_decide (currentReq op = "") = true -> mustSync op vset = true) as Hsync by (unfold mustSync; by intros ->).
  destruct (_ && bool_decide (currentReq op = "")) eqn:Eold.
  { apply andb_prop in Eold as [_ ->]. apply wlp_ret. cbn. lia. }
  apply wlp_bind. unfold wlp at 1.
  change (onPbft tick op) with (Done (ticks (os_pbft op)) (op <| os_pbft := (os_pbft op) <| ticks := S (ticks (os_pbft op)) |> |>)).
  cbv beta iota. set (op1 := op <| os_pbft := _ |>). assert (settled op1 = settled op) as H1 by done.
  destruct (verifyDset _ _ _ _) as [dSet []]; cbn [snd negb]; rewrite ?andb_true_r, ?andb_false_r.
  - destruct dSet as [|d dSet]; [done|]. destruct (mustSync op vset) eqn:Em; cbn [negb].
    + eapply wlp_mono; [apply act_balance, sync_settled|]. cbn. intros _ op' ->. rewrite H1, Hs, andb_true_r.
      by destruct (bool_decide _).
    + eapply wlp_mono; [apply act_balance, commit_settled|]. cbn. intros _ op' ->. rewrite H1, Hs, andb_false_r.
      destruct (bool_decide _); [by specialize (Hsync eq_refl)|lia].
  - destruct (mustSync op vset) eqn:Em; [apply wlp_ret; change (balance op1) with (balance op); lia|].
    eapply wlp_mono; [exact (act_balance _ _ op1 (rollback_settled op1))|]. cbn. intros _ op' ->. rewrite H1, Hs.
    destruct (bool_decide _); [by specialize (Hsync eq_refl)|lia].
Qed.

Lemma executeFlush_balanced flush : guar balanced (executeFlush flush).
Proof.
  intros op a op' E. unfold executeFlush in E. cbv [mbind M_bind get modify] in E.
  destruct (fl_View flush <? epoch op); [by injection E as <- <-|].
  destruct (bool_decide (currentReq op = "")) eqn:Ecur; cbn [negb when] in E.
  - injection E as <- <-. reflexivity.
  - unfold sendResult in E. cbv [mbind M_bind modify] in E. injection E as <- <-. unfold balanced.
    pose proof (settled_sent (mkValidResult false [] []) op) as Hs. rewrite (settled_balance op) in Hs.
    unfold pending in Hs. rewrite Ecur in Hs. etransitivity; [|etransitivity; [exact (eq_trans Hs (Z.add_simpl_r _ 1))|reflexivity]].
    change (settled (op <| validResults := validResults op ++ [mkValidResult false [] []] |>) - 0 = settled (op <| validResults := validResults op ++ [mkValidResult false [] []] |>)). lia.
Qed.

(** ** Runs of the plugin *)

Inductive sieveEvent :=
| SvRecvMsg (ocMsg : pbMessage) (senderHandle : PeerID)
| SvExecute
| SvValidate (seqNo : Z) (id : bytes)
| SvClose.

Definition sieveStep (depth : nat) (e : sieveEvent) : M obcSieve unit :=
  match e with
  | SvRecvMsg ocMsg senderHandle => sieve_RecvMsg env fuel depth ocMsg senderHandle ;; mret tt
  | SvExecute => executeThread env fuel depth
  | SvValidate seqNo id => announceResult env fuel seqNo id depth ;; mret tt
  | SvClose => sieve_Close
  end.

(** Whether the decision that is executed next overtakes the pending execution. *)
Definition overtaken (op : obcSieve) (e : sieveEvent) : Z :=
  match e, executeChan op with
  | SvExecute, x :: _ =>
    match unmarshalSievePbftMessage (pe_txRaw x) with
    | Some (SievePbftMessage_VerifySet vset) => if overtakes op vset then 1 else 0
    | _ => 0
    end
  | _, _ => 0
  end.

Inductive sieveReach (depth : nat) (op0 : obcSieve) : Z -> obcSieve -> Prop :=
| sieveReach_init : sieveReach depth op0 0 op0
| sieveReach_step k op e op' : sieveReach depth op0 k op -> sieveStep depth e op = Done tt op' ->
    sieveReach depth op0 (k + overtaken op e) op'.

Lemma RecvMsg_balanced depth ocMsg h : guar balanced (sieve_RecvMsg env fuel depth ocMsg h).
Proof.
  unfold sieve_RecvMsg, broadcastMsg. repeat first [guar_step | done | apply recvRequest_balanced | apply recvExecute_balanced |
    apply calm_balanced, callStack_calm | apply calm_balanced, recvVerify_calm |
    apply calm_balanced, callPbft_calm, consumer_calm].
Qed.

Lemma announceResult_balanced depth seqNo id : guar balanced (announceResult env fuel seqNo id depth).
Proof.
  apply calm_balanced. unfold announceResult, broadcastMsg.
  repeat first [guar_step | apply onPbft_calm | apply callStack_calm | apply recvVerify_calm].
Qed.

Lemma sieveStep_balance depth e op op' : sieveStep depth e op = Done tt op' -> balance op' = balance op + overtaken op e.
Proof.
  intros E. assert (forall m : M obcSieve unit, guar balanced m -> m op = Done tt op' -> balance op' = balance op + 0) as Hb.
  { intros m Hm Em. rewrite (Hm _ _ _ Em). lia. }
  destruct e; cbn [sieveStep overtaken] in *.
  - eapply Hb; [|exact E]. repeat first [guar_step | apply RecvMsg_balanced].
  - unfold executeThread in E. cbv [mbind M_bind get modify] in E. destruct (executeChan op) as [|x rest]; [injection E as <-; lia|].
    set (op1 := op <| executeChan := rest |>) in E. change (balance op) with (balance op1). unfold executeImpl in E.
    destruct (unmarshalSievePbftMessage (pe_txRaw x)) as [[vset|flush|]|].
    + pose proof (executeVerifySet_balance depth vset (pe_seqNo x) (pe_execInfo x) op1) as Hw. unfold wlp in Hw. by rewrite E in Hw.
    + rewrite (executeFlush_balanced flush _ _ _ E). lia.
    + injection E as <-. lia.
    + injection E as <-. lia.
  - eapply Hb; [|exact E]. repeat first [guar_step | apply announceResult_balanced].
  - eapply Hb; [|exact E]. apply calm_balanced, onPbft_calm.
Qed.

(** C19. Every speculative execution gets exactly one result, except those that a decision
    about something else overtakes: in every run of the plugin the executions handed to
    the executor, which waits for a result after each, are those for which a result
    was sent, the pending one if there is one, and the overtaken ones, for which the
    executor waits in vain. *)
Theorem sieve_results_account (depth : nat) (id : Z) (pbft : pbftCore) (k : Z) (op : obcSieve) :
  sieveReach depth (newObcSieve id pbft) k op ->
  Z.of_nat (length (speculative op)) = Z.of_nat (length (validResults op)) + pending op + k.
Proof.
  intros Hr. assert (balance op = k) as Hb; [|unfold balance in Hb; lia].
  induction Hr as [|k op e op' _ IH E]; [reflexivity|]. apply sieveStep_balance in E. lia.
Qed.
End accounting.

(** * Four replicas, one of which may be faulty *)

Definition sieveHash (b : bytes) : bytes := x00 :: b.

Definition sieveToyEnv : surroundings :=
  mkSurroundings (fun _ => true) (fun raw => Some raw) (fun _ _ _ => true) (fun _ _ => true) (marshal_Request toyEnv)
    (fun _ => Some []) (fun _ => true) (fun _ => None) sieveHash (fun _ => None) canonicalOrder.

#[export] Instance toySieveCodec : SieveCodec := {
  marshalVerify := fun _ => Some [];
  marshalVerifySet := fun _ => Some [];
  marshalFlush := fun _ => Some [];
  marshalSieveMessage := fun _ => [];
  unmarshalSieveMessage := fun _ => None;
  marshalSievePbftMessage := fun _ => [];
  unmarshalSievePbftMessage := fun _ => None;
  marshalSieveId := fun s => sid_ObcId s;
  unmarshalSieveId := fun b => mkSieveId 1 b
}.

Definition toyVerify (replica : Z) : Verify := mkVerify 0 1 "AA==" [x07] replica [].

Definition toyVerifySet : VerifySet := mkVerifySet 0 1 "AA==" [toyVerify 1; toyVerify 2] 0 [].

Lemma verify_set_vouched_witness : exists v, v ∈ [toyVerify 1; toyVerify 2] /\ (v_ReplicaId v ∉ ({[ 1 ]} : gset Z)).
Proof.
  destruct (verify_set_vouched sieveToyEnv (newObcSieve 0 (toyNode 0)) 0 1 toyVerifySet [toyVerify 1; toyVerify 2] {[ 1 ]})
    as (_ & _ & d & _ & v & Hv & Hn & _).
  - vm_compute. discriminate.
  - vm_compute. discriminate.
  - vm_compute. reflexivity.
  - vm_compute. reflexivity.
  - exists v. split; [exact Hv|exact Hn].
Defined.

(** The primary has two of the three messages it needs. *)
Definition toyCollecting : obcSieve := (newObcSieve 0 (toyNode 0))
  <| blockNumber := 1 |> <| currentReq := "AA==" |> <| verifyStore := [toyVerify 1; toyVerify 2] |>.

Lemma toyCollecting_ok : collecting sieveToyEnv toyCollecting.
Proof. split; repeat constructor; try done. by rewrite list_elem_of_singleton. by apply not_elem_of_nil. Qed.

Lemma toyCollecting_more : match recvVerify (H := tinyCodec) sieveToyEnv 30 2 (toyVerify 3) toyCollecting with
  | Done _ op => length (verifyStore op)
  | _ => 0%nat
  end = 3%nat.
Proof. vm_compute. reflexivity. Qed.


(** The primary is given a transaction. *)
Definition toySieveStep : obcSieve :=
  match sieveStep (H := tinyCodec) sieveToyEnv 30 2 (SvRecvMsg (toyClient [x05]) (getValidatorHandle 3))
    (newObcSieve 0 (toyNode 0)) with Done _ op => op | _ => newObcSieve 0 (toyNode 0) end.

Lemma toySieveStep_ok : sieveStep (H := tinyCodec) sieveToyEnv 30 2 (SvRecvMsg (toyClient [x05]) (getValidatorHandle 3))
  (newObcSieve 0 (toyNode 0)) = Done tt toySieveStep.
Proof.
  unfold toySieveStep. destruct (sieveStep _ _ _ _ _) as [[] op| |] eqn:E; [reflexivity|exfalso; vm_compute in E; discriminate..].
Qed.

Lemma sieve_results_account_witness :
  Z.of_nat (length (speculative toySieveStep)) = Z.of_nat (length (validResults toySieveStep)) + pending toySieveStep + 0.
Proof.
  apply (sieve_results_account (H := tinyCodec) sieveToyEnv 30 ltac:(intros b; discriminate) 2 0 (toyNode 0)).
  apply (sieveReach_step (H := tinyCodec) sieveToyEnv 30 2 _ 0 _ (SvRecvMsg (toyClient [x05]) (getValidatorHandle 3)) _
    (sieveReach_init _ _ _ _) toySieveStep_ok).
Defined.
