(* ===== verification/Noops.v ===== *)
(** The no-op consensus plugin, consensus/noops/noops.go and txq.go: every validator
    takes the transactions in the order in which they arrive, queues them and
    executes the queue as a block when it is full or when a timer expires. *)
From stdpp Require Import base gmap list strings.
From Stdlib Require Import ZArith Lia.
From S2P Require Import Prelude GoStd PbftTypes PbftCore Plugin.
From S2P Require Import GoBytes LedgerUtil KVStore StateDelta HashableState State Blockchain Ledger.
From S2P Require Import ExecTransaction ConsensusHelper ReplicaLedgers.

(** * txq.go *)

(** The slots of the queue and how many of them are in use. *)
Record txq := mkTxq {
  txq_i : nat;
  txq_q : list (option Transaction)
}.

Definition newTXQ (size : Z) : txq := mkTxq 0 (replicate (Z.to_nat (Z.max size 1)) None).

(** A transaction that does not fit is dropped. *)
Definition txq_append (tx : Transaction) (o : txq) : txq :=
  if (txq_i o <? length (txq_q o))%nat then mkTxq (txq_i o + 1) (<[txq_i o := Some tx]> (txq_q o)) else o.

(** The transactions in the used slots; the queue is empty afterwards. *)
Definition txq_getTXs (o : txq) : list (option Transaction) * txq := (take (txq_i o) (txq_q o), mkTxq 0 (txq_q o)).

Definition txq_isFull (o : txq) : bool := (length (txq_q o) =? txq_i o)%nat.

Definition txq_size (o : txq) : nat := txq_i o.

Definition txq_reset (o : txq) : txq := mkTxq 0 (txq_q o).

(** * noops.go *)

Inductive noopsMessage :=
| NoSyncBlockAdded (block : Block) (delta : bytes)
| NoConsensus (payload : bytes).

Section noops.
Context {DB I Itr : Type} `{RocksDB DB} `{!HashableState DB I Itr} `{BlockCodec} `{SpecCodec} `{!ChaincodeSupport}
  `{!PluginCodec} (hash : bytes -> bytes) (o : mapOrder) (clock : Ledger DB I Timestamp -> Timestamp)
  (delivered : nat -> noopsMessage -> bool).

#[local] Instance noops_calls : LedgerCalls (Ledger DB I Timestamp) Timestamp := ledgerCalls hash o clock.

(** [no_channel] is what the channel holds and what the callers that wait for a place in
    it are about to send, [no_timer] whether the timer is armed.  The last three fields are not in the source: the messages broadcast, the batches given
    to [ExecTxs], and whether the ledger has refused to begin a batch. *)
Record Noops := mkNoops {
  no_helper : Helper (Ledger DB I Timestamp);
  no_txQ : txq;
  no_timer : bool;
  no_channel : list Transaction;
  no_sent : list noopsMessage;
  no_batches : list (list Transaction);
  no_refused : bool
}.

#[local] Instance Noops_eta : Eta Noops := fun i =>
  mkNoops (no_helper i) (no_txQ i) (no_timer i) (no_channel i) (no_sent i) (no_batches i) (no_refused i).

Abbreviation N := (M Noops).

Definition newNoops (h : Helper (Ledger DB I Timestamp)) (blockSize : Z) : Noops :=
  mkNoops h (newTXQ blockSize) false [] [] [] false.

Definition noHelper {A} (m : M (Helper (Ledger DB I Timestamp)) A) : N A := fun i =>
  match m (no_helper i) with
  | Done a h => Done a (i <| no_helper := h |>)
  | Panic => Panic
  | Diverge => Diverge
  end.

(** [stack.Broadcast]: the broadcast of that number has an error when a peer could not be
    reached. *)
Definition noBroadcast (m : noopsMessage) : N bool :=
  i ← get;
  modify (fun i => i <| no_sent := no_sent i ++ [m] |>) ;;
  mret (delivered (length (no_sent i)) m).

(** ** Messages *)

(** The payload of the message is replaced by a block of the one transaction; [None] is
    an error. *)
Definition broadcastConsensusMsg (payload : bytes) : N (option bytes) :=
  let '(t, ok) := unmarshalTransaction payload in
  if negb ok then mret None else
  match marshalTransactionBlock [t] with
  | None => mret None
  | Some payload =>
    reached ← noBroadcast (NoConsensus payload);
    mret (if reached : bool then Some payload else None)
  end.

(** A block without a transaction panics. *)
Definition getTxFromMsg (payload : bytes) : N (option Transaction) :=
  let '(txs, ok) := unmarshalTransactionBlock payload in
  if negb ok then mret None else
  match txs with [] => panic | tx :: _ => mret (Some tx) end.

(** The type of a transaction message is changed when it is broadcast, so that it is
    taken as a consensus message as well.  [false] stands for an error. *)
Definition noops_RecvMsg (msg : pbMessage) : N bool :=
  payload ← match Plugin.msg_Type msg with
    | CHAIN_TRANSACTION => broadcastConsensusMsg (Plugin.msg_Payload msg)
    | _ => mret (Some (Plugin.msg_Payload msg))
    end;
  match payload, Plugin.msg_Type msg with
  | None, _ => mret false
  | Some _, OtherType _ => mret true
  | Some payload, _ =>
    tx ← getTxFromMsg payload;
    match tx with
    | None => mret false
    | Some tx => modify (fun i => i <| no_channel := no_channel i ++ [tx] |>) ;; mret true
    end
  end.

(** ** Blocks *)

Definition canProcessBlock (tx : Transaction) : N bool :=
  modify (fun i => i <| no_txQ := txq_append tx (no_txQ i) |>) ;;
  i ← get;
  when (txq_size (no_txQ i) =? 1)%nat (modify (fun i => i <| no_timer := true |>)) ;;
  mret (txq_isFull (no_txQ i)).

(** A nil transaction would panic in [ExecTxs]. *)
Definition processTransactions : N (result unit) :=
  i ← get;
  let timestamp := clock (h_ledger (no_helper i)) in
  begun ← noHelper (helper_BeginTxBatch (Some timestamp));
  match begun with
  | Err => modify (fun i => i <| no_refused := true |>) ;; mret Err
  | Ok _ =>
    let '(txarr, q) := txq_getTXs (no_txQ i) in
    modify (fun i => i <| no_txQ := q |>) ;;
    match mapM (fun tx => tx) txarr with
    | None => panic
    | Some txs =>
      modify (fun i => i <| no_batches := no_batches i ++ [txs] |>) ;;
      executed ← noHelper (helper_ExecTxs (Some timestamp) txs);
      match executed with
      | Err => noHelper (helper_RollbackTxBatch (Some timestamp)) ;; mret Err
      | Ok _ =>
        committed ← noHelper (helper_CommitTxBatch (Some timestamp) []);
        match committed with
        | Err => noHelper (helper_RollbackTxBatch (Some timestamp)) ;; mret Err
        | Ok _ => mret (Ok tt)
        end
      end
    end
  end.

Definition getBlockData : N (result (option Block * option StateDelta)) :=
  i ← get;
  let l := h_ledger (no_helper i) in
  let blockHeight := GetBlockchainSize l in
  mret match GetBlockByNumber l (u64 (blockHeight - 1)) with
  | LOk block =>
    match GetStateDelta l (u64 (blockHeight - 1)) with LOk delta => Ok (block, delta) | _ => Err end
  | _ => Err
  end.

(** The payloads are taken out of the block; a nil block or delta panics, and the error of
    the broadcast is dropped. *)
Definition notifyBlockAdded (block : option Block) (delta : option StateDelta) : N unit :=
  match block, delta with
  | Some block, Some delta =>
    noBroadcast (NoSyncBlockAdded (block <| Transactions := (fun tx => tx <| Payload := [] |>) <$> Transactions block |>)
      (Marshal o delta)) ;;
    mret tt
  | _, _ => panic
  end.

Definition processBlock : N (result unit) :=
  modify (fun i => i <| no_timer := false |>) ;;
  i ← get;
  if (txq_size (no_txQ i) <? 1)%nat then mret (Ok tt) else
  _ ←? processTransactions;
  data ← getBlockData;
  match data with
  | Err => mret Err
  | Ok (block, delta) => notifyBlockAdded block delta ;; mret (Ok tt)
  end.

(** [handleChannels]: a transaction is taken from the channel, or there is a tick, of the
    running timer or one that was there when it was stopped. *)
Definition takeTransaction : N unit :=
  i ← get;
  match no_channel i with
  | [] => mret tt
  | tx :: rest =>
    modify (fun i => i <| no_channel := rest |>) ;;
    full ← canProcessBlock tx;
    when full (processBlock ;; mret tt)
  end.

Definition takeTick : N unit := processBlock ;; mret tt.
End noops.
