(* ===== verification/NoopsTheorems.v ===== *)
(** What the no-op plugin guarantees: the transactions it takes are executed in order,
    each in one batch. *)
From stdpp Require Import base gmap list strings.
From Stdlib Require Import ZArith Lia.
From Stdlib.Strings Require Import Byte.
From S2P Require Import Prelude GoStd PbftTypes PbftCore PbftToy Plugin ObcBatch PluginToy.
From S2P Require Import GoBytes LedgerUtil KVStore StateDelta StateSpec HashableState State Blockchain Ledger LedgerToy.
From S2P Require Import BucketKeys BucketNode BucketState BucketTree BucketToy LedgerFindings.
From S2P Require Import ExecTransaction ConsensusHelper Executor ReplicaLedgers ReplicaTheorems Noops.

(** * The queue *)

Definition txq_contents (q : txq) : list Transaction := omap (fun tx => tx) (take (txq_i q) (txq_q q)).

Definition txqOK (cap : nat) (q : txq) : Prop :=
  length (txq_q q) = cap /\ (txq_i q <= cap)%nat /\ Forall is_Some (take (txq_i q) (txq_q q)).

Lemma newTXQ_ok size : txqOK (Z.to_nat (Z.max size 1)) (newTXQ size).
Proof. split; [apply length_replicate|]. split; [cbn; lia|]. cbn. constructor. Qed.

Lemma all_some {A} (l : list (option A)) : Forall is_Some l -> mapM (fun x => x) l = Some (omap (fun x => x) l).
Proof. induction 1 as [|x l [y ->] _ IH]; [done|]. cbn. by rewrite IH. Qed.

Lemma omap_length {A} (l : list (option A)) : Forall is_Some l -> length (omap (fun x => x) l) = length l.
Proof. induction 1 as [|x l [y ->] _ IH]; [done|]. cbn. by rewrite IH. Qed.

Lemma contents_length cap q : txqOK cap q -> length (txq_contents q) = txq_i q.
Proof. intros (Hl & Hi & Hs). unfold txq_contents. rewrite omap_length by done. rewrite length_take. lia. Qed.

Lemma append_ok cap tx q : txqOK cap q -> (txq_i q < cap)%nat ->
  txqOK cap (txq_append tx q) /\ txq_contents (txq_append tx q) = txq_contents q ++ [tx].
Proof.
  intros (Hl & Hi & Hs) Hlt. unfold txq_append. rewrite (proj2 (Nat.ltb_lt _ _)) by lia.
  assert (take (txq_i q + 1) (<[txq_i q := Some tx]> (txq_q q)) = take (txq_i q) (txq_q q) ++ [Some tx]) as E.
  { rewrite Nat.add_1_r, (take_S_r _ _ (Some tx)) by (apply list_lookup_insert_eq; lia). by rewrite take_insert_ge by lia. }
  split.
  - split; [cbn; by rewrite length_insert|]. split; [cbn; lia|]. cbn. rewrite E. apply Forall_app_2; [done|]. by apply Forall_singleton.
  - unfold txq_contents. cbn. rewrite E, omap_app. done.
Qed.

Lemma append_full cap tx q : txqOK cap q -> (cap <= txq_i q)%nat -> txq_append tx q = q.
Proof. intros (Hl & Hi & Hs) Hle. unfold txq_append. by rewrite (proj2 (Nat.ltb_ge _ _)) by lia. Qed.

Lemma getTXs_ok cap q : txqOK cap q -> mapM (fun tx => tx) (fst (txq_getTXs q)) = Some (txq_contents q) /\
  txqOK cap (snd (txq_getTXs q)) /\ txq_contents (snd (txq_getTXs q)) = [].
Proof. intros (Hl & Hi & Hs). split; [by apply all_some|]. split; [|done]. split; [done|]. split; [cbn; lia|]. cbn. constructor. Qed.

(** * Runs of the plugin *)

Section runs.
Context {DB I Itr : Type} `{RocksDB DB} `{!HashableState DB I Itr} `{BlockCodec} `{SpecCodec} `{!ChaincodeSupport}
  `{!PluginCodec} (hash : bytes -> bytes) (o : mapOrder) (clock : Ledger DB I Timestamp -> Timestamp)
  (delivered : nat -> noopsMessage -> bool).

Abbreviation St := (Noops (DB := DB) (I := I)).
#[local] Existing Instance Noops_eta.

Inductive noopsEvent :=
| NoRecvMsg (msg : pbMessage)
| NoTake
| NoTick.

Definition noopsStep (e : noopsEvent) : M St unit :=
  match e with
  | NoRecvMsg msg => noops_RecvMsg delivered msg ;; mret tt
  | NoTake => takeTransaction hash o clock delivered
  | NoTick => takeTick hash o clock delivered
  end.

Definition taken (i : St) (e : noopsEvent) : list Transaction :=
  match e with NoTake => take 1 (no_channel i) | _ => [] end.

(** The transactions taken from the channel so far. *)
Inductive noopsReach (i0 : St) : list Transaction -> St -> Prop :=
| noopsReach_init : noopsReach i0 [] i0
| noopsReach_step acc i e i' : noopsReach i0 acc i -> noopsStep e i = Done tt i' -> noopsReach i0 (acc ++ taken i e) i'.

(** As long as the ledger has not refused a batch. *)
Record noopsInv (cap : nat) (acc : list Transaction) (i : St) : Prop := {
  ni_queue : txqOK cap (no_txQ i);
  ni_acc : no_refused i = false -> concat (no_batches i) ++ txq_contents (no_txQ i) = acc;
  ni_batches : Forall (fun b => 1 <= length b <= cap)%nat (no_batches i);
  ni_room : no_refused i = false -> (txq_i (no_txQ i) < cap)%nat;
  ni_timer : no_refused i = false -> txq_contents (no_txQ i) <> [] -> no_timer i = true
}.

(** What does not touch the queue. *)
Definition quiet (i i' : St) : Prop := no_txQ i' = no_txQ i /\ no_batches i' = no_batches i /\ no_refused i' = no_refused i /\
  no_timer i' = no_timer i.

#[local] Instance quiet_preorder : PreOrder quiet.
Proof. split; [by repeat split|]. intros x y z (? & ? & ? & ?) (? & ? & ? & ?). repeat split; congruence. Qed.

Lemma noHelper_quiet {A} (m : M (Helper (Ledger DB I Timestamp)) A) : guar quiet (noHelper m).
Proof. intros i a i' E. unfold noHelper in E. destruct (m _); [|done..]. injection E as <- <-. by repeat split. Qed.

Lemma quiet_inv cap acc i i' : quiet i i' -> noopsInv cap acc i -> noopsInv cap acc i'.
Proof. intros (E1 & E2 & E3 & E4) [? ? ? ? ?]. split; by rewrite ?E1, ?E2, ?E3, ?E4. Qed.

Lemma guar_quiet_wlp {A} (m : M St A) i : guar quiet m -> wlp m (fun _ i' => quiet i i') i.
Proof. intros Hm. unfold wlp. destruct (m i) eqn:E; [by eapply Hm|done..]. Qed.

(** What is left of [processTransactions] once the batch has begun. *)
Lemma executeBatch_quiet timestamp txs : guar quiet (
  executed ← noHelper (helper_ExecTxs (LedgerCalls0 := noops_calls hash o clock) (Some timestamp) txs);
  match executed with
  | Err => noHelper (helper_RollbackTxBatch (LedgerCalls0 := noops_calls hash o clock) (Some timestamp)) ;; mret Err
  | Ok _ =>
    committed ← noHelper (helper_CommitTxBatch (LedgerCalls0 := noops_calls hash o clock) (Some timestamp) []);
    match committed with
    | Err => noHelper (helper_RollbackTxBatch (LedgerCalls0 := noops_calls hash o clock) (Some timestamp)) ;; mret Err
    | Ok _ => mret (Ok tt)
    end
  end).
Proof. repeat first [guar_step | apply noHelper_quiet]. Qed.

(** A batch is what the queue held, unless the ledger refuses it. *)
Lemma processTransactions_queue cap i : txqOK cap (no_txQ i) ->
  wlp (processTransactions hash o clock) (fun _ i' => txqOK cap (no_txQ i') /\
    (no_refused i' = true /\ no_batches i' = no_batches i \/
     no_refused i' = no_refused i /\ no_batches i' = no_batches i ++ [txq_contents (no_txQ i)] /\
     txq_contents (no_txQ i') = [] /\ txq_i (no_txQ i') = 0%nat)) i.
Proof.
  intros Hq. unfold processTransactions. apply wlp_bind, wlp_get. apply wlp_bind.
  eapply wlp_mono; [apply guar_quiet_wlp, noHelper_quiet|]. cbn [txq_getTXs]. intros [u|] i1 (E1 & E2 & E3 & _).
  - destruct (getTXs_ok cap (no_txQ i) Hq) as (Em & Hq' & En). cbn [fst snd txq_getTXs] in Em, Hq', En.
    apply wlp_bind, wlp_modify. rewrite Em. apply wlp_bind, wlp_modify.
    eapply wlp_mono; [apply guar_quiet_wlp, executeBatch_quiet|]. cbn. intros _ i2 (F1 & F2 & F3 & _). rewrite F1. split; [done|]. right.
    rewrite F2, F3. cbn. rewrite E2, E3. done.
  - apply wlp_bind, wlp_modify, wlp_ret. cbn. rewrite E1. split; [done|]. by left.
Qed.

Lemma processBlock_inv cap acc i : (1 <= cap)%nat -> txqOK cap (no_txQ i) ->
  (no_refused i = false -> concat (no_batches i) ++ txq_contents (no_txQ i) = acc) ->
  Forall (fun b => 1 <= length b <= cap)%nat (no_batches i) ->
  wlp (processBlock hash o clock delivered) (fun _ => noopsInv cap acc) i.
Proof.
  intros Hcap Hq Hacc Hb. unfold processBlock. apply wlp_bind, wlp_modify, wlp_bind, wlp_get.
  pose proof (contents_length _ _ Hq) as Hlen. change (txq_size _) with (txq_i (no_txQ i)). destruct (Nat.ltb_spec (txq_i (no_txQ i)) 1).
  - apply wlp_ret. assert (txq_contents (no_txQ i) = []) as En by (apply length_zero_iff_nil; lia).
    split; cbn; [done|done|done|lia|by rewrite En].
  - unfold try. apply wlp_bind. eapply wlp_mono; [by apply (processTransactions_queue cap)|]. cbn.
    intros r i1 (Hq1 & Hcase).
    assert (noopsInv cap acc i1) as Hinv.
    { destruct Hcase as [[Er Eb]|(Er & Eb & En & Ei)].
      - split; congruence.
      - split; [done| | |lia|by rewrite En].
        + intros Hr. rewrite Eb, En, concat_app, app_nil_r. cbn. rewrite app_nil_r. apply Hacc. congruence.
        + rewrite Eb. apply Forall_app_2; [done|]. apply Forall_singleton. rewrite Hlen. destruct Hq as (_ & ? & _). lia. }
    destruct r; [|by apply wlp_ret]. apply wlp_bind. unfold getBlockData. apply wlp_bind, wlp_get, wlp_ret.
    destruct (GetBlockByNumber _ _) as [b| |]; [|by apply wlp_ret..]. destruct (GetStateDelta _ _) as [d| |]; [|by apply wlp_ret..].
    apply wlp_bind. unfold notifyBlockAdded. destruct b, d; try done. unfold noBroadcast. apply wlp_bind, wlp_bind, wlp_get, wlp_bind, wlp_modify, wlp_ret, wlp_ret, wlp_ret. eapply quiet_inv; [|exact Hinv]. by repeat split.
Qed.

Lemma takeTransaction_inv cap acc i : (1 <= cap)%nat -> noopsInv cap acc i ->
  wlp (takeTransaction hash o clock delivered) (fun _ => noopsInv cap (acc ++ taken i NoTake)) i.
Proof.
  intros Hcap Hi. unfold takeTransaction, taken. apply wlp_bind, wlp_get. destruct (no_channel i) as [|tx rest]; cbn [take].
  - apply wlp_ret. by rewrite app_nil_r.
  - destruct Hi as [Hq Hacc Hb Hroom Ht]. apply wlp_bind, wlp_modify. unfold canProcessBlock. apply wlp_bind, wlp_bind, wlp_modify, wlp_bind, wlp_get.
    set (q := txq_append tx (no_txQ i)).
    assert (txqOK cap q /\ (no_refused i = false -> txq_contents q = txq_contents (no_txQ i) ++ [tx])) as [Hq' Hc].
    { destruct (decide (txq_i (no_txQ i) < cap)%nat) as [Hlt|Hge].
      - destruct (append_ok cap tx _ Hq Hlt). by split.
      - unfold q. rewrite (append_full cap) by (done || lia). split; [done|]. intros Hr. specialize (Hroom Hr). lia. }
    assert (no_refused i = false -> concat (no_batches i) ++ txq_contents q = acc ++ [tx]) as Hacc'.
    { intros Hr. rewrite Hc by done. by rewrite app_assoc, Hacc. }
    pose proof (contents_length _ _ Hq') as Hlen. pose proof (contents_length _ _ Hq) as Hlen0.
    apply wlp_bind. change (txq_size _) with (txq_i q).
    apply (wlp_mono _ (fun _ i1 => no_txQ i1 = q /\ no_batches i1 = no_batches i /\ no_refused i1 = no_refused i /\
      (no_timer i1 = true \/ no_timer i1 = no_timer i /\ txq_i q <> 1%nat))).
    { destruct (Nat.eqb_spec (txq_i q) 1); cbn [when]; [apply wlp_modify|apply wlp_ret]; repeat split; auto. }
    intros _ i1 (E1 & E2 & E3 & E4). apply wlp_ret. change (txq_isFull (no_txQ _)) with (txq_isFull q).
    pose proof Hq' as (Hl & Hle & Hs). assert (txq_isFull q = (cap =? txq_i q)%nat) as -> by (unfold txq_isFull; by rewrite Hl).
    destruct (Nat.eqb_spec cap (txq_i q)) as [Ef|Ef]; cbn [when].
    + apply wlp_bind. eapply wlp_mono; [apply (processBlock_inv cap (acc ++ [tx])); rewrite ?E1, ?E2, ?E3; done|]. done.
    + apply wlp_ret. split; rewrite ?E1, ?E2, ?E3; [done|done|done|lia|]. intros Hr _. destruct E4 as [E4|[E4 Hne]]; [done|].
      rewrite E4. apply Ht; [done|]. rewrite Hc in Hlen by done. rewrite length_app in Hlen. cbn in Hlen. intros En. rewrite En in *. cbn in *. lia.
Qed.

Lemma noopsStep_inv cap acc e i i' : (1 <= cap)%nat -> noopsInv cap acc i -> noopsStep e i = Done tt i' ->
  noopsInv cap (acc ++ taken i e) i'.
Proof.
  intros Hcap Hi E. assert (wlp (noopsStep e) (fun _ => noopsInv cap (acc ++ taken i e)) i) as Hw;
    [|unfold wlp in Hw; by rewrite E in Hw].
  destruct e as [msg| |]; cbn [noopsStep].
  - cbn [taken]. rewrite app_nil_r. apply wlp_bind. eapply wlp_mono; [apply guar_quiet_wlp|].
    + unfold noops_RecvMsg, broadcastConsensusMsg, getTxFromMsg, noBroadcast. repeat first [guar_step | by repeat split].
    + intros a i1 Hquiet. apply wlp_ret. exact (quiet_inv _ _ _ _ Hquiet Hi).
  - by apply takeTransaction_inv.
  - cbn [taken]. rewrite app_nil_r. unfold takeTick. destruct Hi. apply wlp_bind. eapply wlp_mono; [by apply (processBlock_inv cap acc)|]. done.
Qed.

(** C30. The no-op plugin executes what it takes exactly once and in order: as long as the
    ledger has not refused to begin a batch, the transactions taken from the channel
    are those of the batches given to [ExecTxs], each of at least one and at most
    [block.size] transactions, followed by the queue, which has room for another one
    and does not wait without the timer running. *)
Theorem noops_exactly_once (h : Helper (Ledger DB I Timestamp)) (size : Z) (acc : list Transaction) (i : St) :
  noopsReach (newNoops h size) acc i -> no_refused i = false ->
  concat (no_batches i) ++ txq_contents (no_txQ i) = acc /\
  Forall (fun b => 1 <= length b <= Z.to_nat (Z.max size 1))%nat (no_batches i) /\
  (length (txq_contents (no_txQ i)) < Z.to_nat (Z.max size 1))%nat /\
  (txq_contents (no_txQ i) <> [] -> no_timer i = true).
Proof.
  intros Hr Hno. assert (noopsInv (Z.to_nat (Z.max size 1)) acc i) as [Hq Hacc Hb Hroom Ht].
  { clear Hno. induction Hr as [|acc i e i' _ IH E]; [|by eapply noopsStep_inv; [lia| |exact E]].
    split; cbn; [apply newTXQ_ok|done|constructor|lia|done]. }
  rewrite (contents_length _ _ Hq). auto.
Qed.
End runs.

(** * A block of two transactions *)

Definition toyNoops : Noops (DB := memDB) (I := StateImpl) :=
  newNoops (mkHelper [] (mkLedger emptyDB (mkBlockchain 1 [x01] None) freshState None [])) 2.

Definition toyNoopsStep (e : noopsEvent) (i : Noops (DB := memDB) (I := StateImpl)) : outcome (Noops (DB := memDB) (I := StateImpl)) unit :=
  noopsStep (HashableState0 := bucketTree toyConf toyHash canonicalOrder) (H3 := tinyCodec) toyHash canonicalOrder (fun _ => now) (fun _ _ => true) e i.

Fixpoint toyNoopsRun (es : list noopsEvent) (i : Noops (DB := memDB) (I := StateImpl)) : option (Noops (DB := memDB) (I := StateImpl)) :=
  match es with
  | [] => Some i
  | e :: es => match toyNoopsStep e i with Done _ i' => toyNoopsRun es i' | _ => None end
  end.

Definition toyNoopsEvents : list noopsEvent :=
  [NoRecvMsg (toyClient [x02]); NoTake; NoRecvMsg (toyClient [x03]); NoTake; NoRecvMsg (toyClient [x04]); NoTake].

Fixpoint toyTaken (es : list noopsEvent) (i : Noops (DB := memDB) (I := StateImpl)) : list Transaction :=
  match es with
  | [] => []
  | e :: es => taken i e ++ match toyNoopsStep e i with Done _ i' => toyTaken es i' | _ => [] end
  end.

Lemma toyNoopsRun_reach es : forall acc i i',
  noopsReach (HashableState0 := bucketTree toyConf toyHash canonicalOrder) (H3 := tinyCodec) toyHash canonicalOrder (fun _ => now) (fun _ _ => true) toyNoops acc i ->
  toyNoopsRun es i = Some i' ->
  noopsReach (HashableState0 := bucketTree toyConf toyHash canonicalOrder) (H3 := tinyCodec) toyHash canonicalOrder (fun _ => now) (fun _ _ => true) toyNoops
    (acc ++ toyTaken es i) i'.
Proof.
  induction es as [|e es IH]; intros acc i i' Hr; cbn [toyNoopsRun toyTaken].
  - intros [= <-]. by rewrite app_nil_r.
  - destruct (toyNoopsStep e i) as [[] i1| |] eqn:E; [|discriminate..]. intros Hrun. rewrite app_assoc.
    apply IH; [|exact Hrun]. exact (noopsReach_step _ _ _ _ _ _ _ _ _ Hr E).
Qed.

Lemma toyNoops_facts : match toyNoopsRun toyNoopsEvents toyNoops with Some i => negb (no_refused i) | None => false end = true /\
  toyTaken toyNoopsEvents toyNoops = [toyTransaction x02; toyTransaction x03; toyTransaction x04].
Proof. split; vm_compute; reflexivity. Qed.

Lemma noops_exactly_once_witness : exists i, toyNoopsRun toyNoopsEvents toyNoops = Some i /\
  concat (no_batches i) ++ txq_contents (no_txQ i) = [toyTransaction x02; toyTransaction x03; toyTransaction x04].
Proof.
  destruct toyNoops_facts as [Hf Ht]. destruct (toyNoopsRun toyNoopsEvents toyNoops) as [i|] eqn:E; [|discriminate Hf].
  exists i. split; [reflexivity|]. apply negb_true_iff in Hf. rewrite <- Ht.
  exact (proj1 (noops_exactly_once (HashableState0 := bucketTree toyConf toyHash canonicalOrder) (H3 := tinyCodec) toyHash canonicalOrder
    (fun _ => now) (fun _ _ => true) _ 2 _ i (toyNoopsRun_reach toyNoopsEvents [] toyNoops i (noopsReach_init _ _ _ _ _) E) Hf)).
Defined.
