(* ===== verification/Fsm.v ===== *)
(** The finite state machines that both ends of a chaincode stream are made of,
    vendor/github.com/looplab/fsm/fsm.go and event.go. *)
From stdpp Require Import base list.
From S2P Require Import Prelude.

(** [EventDesc]: the event leads from each of the sources to the destination.  Events and
    states are strings in the source; here each machine has types of its own. *)
Record EventDesc (Ev Q : Type) := mkEventDesc {
  ed_Name : Ev;
  ed_Src : list Q;
  ed_Dst : Q
}.
Arguments mkEventDesc {Ev Q}.
Arguments ed_Name {Ev Q}.
Arguments ed_Src {Ev Q}.
Arguments ed_Dst {Ev Q}.

(** The event that callbacks get and may change; [e_Err] is whether it has an error. *)
Record Event (Ev Q : Type) := mkEvent {
  e_Event : Ev;
  e_Src : Q;
  e_Dst : Q;
  e_Err : bool;
  e_canceled : bool;
  e_async : bool
}.
Arguments mkEvent {Ev Q}.
Arguments e_Event {Ev Q}.
Arguments e_Src {Ev Q}.
Arguments e_Dst {Ev Q}.
Arguments e_Err {Ev Q}.
Arguments e_canceled {Ev Q}.
Arguments e_async {Ev Q}.

#[export] Instance Event_eta Ev Q : Eta (Event Ev Q) := fun e =>
  mkEvent (e_Event e) (e_Src e) (e_Dst e) (e_Err e) (e_canceled e) (e_async e).

(** [Cancel] with an error. *)
Definition Cancel {Ev Q} (e : Event Ev Q) : Event Ev Q := e <| e_canceled := true |> <| e_Err := true |>.

(** The state of a machine: [f_transition] is whether there is a transition to be completed. *)
Record FSM (Q : Type) := mkFSM {
  f_current : Q;
  f_transition : bool
}.
Arguments mkFSM {Q}.
Arguments f_current {Q}.
Arguments f_transition {Q}.

#[export] Instance FSM_eta Q : Eta (FSM Q) := fun f => mkFSM (f_current f) (f_transition f).

(** What [Event] returns; the boolean is whether there is an error inside. *)
Inductive fsmError :=
| fsmOk
| InTransitionError
| InvalidEventError
| UnknownEventError
| InternalError
| NoTransitionError (err : bool)
| CanceledError (err : bool)
| AsyncError (err : bool)
| CallbackError.

(** The keys of callbacks: for an event, for a state, or for all. *)
Inductive cKey (Ev Q : Type) :=
| before_event (ev : option Ev)
| leave_state (q : option Q)
| enter_state (q : option Q)
| after_event (ev : option Ev).
Arguments before_event {Ev Q}.
Arguments leave_state {Ev Q}.
Arguments enter_state {Ev Q}.
Arguments after_event {Ev Q}.

(** The owner of a machine. *)
Class HasFSM (St Q : Type) := {
  getFSM : St -> FSM Q;
  setFSM : FSM Q -> St -> St
}.

Section machine.
Context {Ev Q St A : Type} `{!EqDecision Ev} `{!EqDecision Q} `{!HasFSM St Q}.

(** A callback gets the argument of the event. *)
Abbreviation Callback := (A -> Event Ev Q -> M St (Event Ev Q)).

(** What [NewFSM] makes of its arguments: a later description overwrites an earlier one. *)
Definition transitions (events : list (EventDesc Ev Q)) (ev : Ev) (src : Q) : option Q :=
  foldl (fun dst d => if bool_decide (ed_Name d = ev) && bool_decide (src ∈ ed_Src d) then Some (ed_Dst d) else dst)
    None events.

Context (events : list (EventDesc Ev Q)) (callbacks : cKey Ev Q -> option Callback).

Definition Can (ev : Ev) (s : St) : bool :=
  match transitions events ev (f_current (getFSM s)) with
  | Some _ => negb (f_transition (getFSM s))
  | None => false
  end.

Definition Cannot (ev : Ev) (s : St) : bool := negb (Can ev s).

Definition callback (k : cKey Ev Q) (a : A) (e : Event Ev Q) : M St (Event Ev Q) :=
  match callbacks k with Some fn => fn a e | None => mret e end.

Definition beforeEventCallbacks (a : A) (e : Event Ev Q) : M St (Event Ev Q) :=
  e ← callback (before_event (Some (e_Event e))) a e;
  if e_canceled e then mret e else callback (before_event None) a e.

Definition leaveStateCallbacks (a : A) (e : Event Ev Q) : M St (Event Ev Q) :=
  s ← get;
  e ← callback (leave_state (Some (f_current (getFSM s)))) a e;
  if e_canceled e || e_async e then mret e else callback (leave_state None) a e.

Definition enterStateCallbacks (a : A) (e : Event Ev Q) : M St (Event Ev Q) :=
  s ← get;
  e ← callback (enter_state (Some (f_current (getFSM s)))) a e;
  callback (enter_state None) a e.

Definition afterEventCallbacks (a : A) (e : Event Ev Q) : M St (Event Ev Q) :=
  e ← callback (after_event (Some (e_Event e))) a e;
  callback (after_event None) a e.

Definition setTransition (b : bool) : M St unit :=
  modify (fun s => setFSM ((getFSM s) <| f_transition := b |>) s).

(** [Transition], which runs the function that [Event] has set up. *)
Definition Transition (a : A) (e : Event Ev Q) : M St fsmError :=
  s ← get;
  if negb (f_transition (getFSM s)) then mret InternalError else
  modify (fun s => setFSM ((getFSM s) <| f_current := e_Dst e |>) s) ;;
  e ← enterStateCallbacks a e;
  e ← afterEventCallbacks a e;
  setTransition false ;;
  mret (if e_Err e then CallbackError else fsmOk).

Definition fsm_Event (ev : Ev) (a : A) : M St fsmError :=
  s ← get;
  if f_transition (getFSM s) then mret InTransitionError else
  match transitions events ev (f_current (getFSM s)) with
  | None =>
    mret (if existsb (fun d => bool_decide (ed_Name d = ev) && negb (bool_decide (ed_Src d = []))) events
          then InvalidEventError else UnknownEventError)
  | Some dst =>
    e ← beforeEventCallbacks a (mkEvent ev (f_current (getFSM s)) dst false false false);
    if e_canceled e then mret (CanceledError (e_Err e)) else
    s ← get;
    if bool_decide (f_current (getFSM s) = dst)
    then e ← afterEventCallbacks a e; mret (NoTransitionError (e_Err e))
    else
      setTransition true ;;
      e ← leaveStateCallbacks a e;
      if e_canceled e then setTransition false ;; mret (CanceledError (e_Err e))
      else if e_async e then mret (AsyncError (e_Err e))
      else Transition a e
  end.

(** An event that moves the machine, without callbacks before it and for leaving the state. *)
Lemma fsm_Event_moves ev a s src dst :
  (forall f g s, setFSM f (setFSM g s) = setFSM f s) -> (forall f s, getFSM (setFSM f s) = f) ->
  getFSM s = mkFSM src false -> transitions events ev src = Some dst -> src <> dst ->
  callbacks (before_event (Some ev)) = None -> callbacks (before_event None) = None ->
  callbacks (leave_state (Some src)) = None -> callbacks (leave_state None) = None ->
  fsm_Event ev a s = (e ← enterStateCallbacks a (mkEvent ev src dst false false false);
    e ← afterEventCallbacks a e; setTransition false ;; mret (if e_Err e then CallbackError else fsmOk))
    (setFSM (mkFSM dst true) s).
Proof.
  intros Hss Hgs Hs Ht Hne B1 B2 L1 L2.
  unfold fsm_Event, Transition, beforeEventCallbacks, leaveStateCallbacks, setTransition, callback.
  cbv [mbind M_bind get modify mret M_ret]. rewrite Hs. cbn [f_transition f_current]. rewrite Ht. cbn [e_Event]. rewrite B1. cbn [e_canceled].
  rewrite B2. cbn [e_canceled]. rewrite Hs. cbn [f_current]. rewrite bool_decide_eq_false_2 by done. rewrite !Hgs, Hs. cbn.
  rewrite L1. cbn [e_canceled e_async orb]. rewrite L2. cbn [e_canceled e_async]. rewrite !Hgs. cbn [e_Dst].
  change (negb (f_transition ((mkFSM src false) <| f_transition := true |>))) with false. cbv beta iota. by rewrite Hgs, Hss.
Qed.

(** An event that leads to the state the machine is in, without callbacks before it. *)
Lemma fsm_Event_stays ev a s q : getFSM s = mkFSM q false -> transitions events ev q = Some q ->
  callbacks (before_event (Some ev)) = None -> callbacks (before_event None) = None ->
  fsm_Event ev a s = (e ← afterEventCallbacks a (mkEvent ev q q false false false); mret (NoTransitionError (e_Err e))) s.
Proof.
  intros Hs Ht B1 B2. unfold fsm_Event, beforeEventCallbacks, callback. cbv [mbind M_bind get mret M_ret]. rewrite Hs. cbn [f_transition f_current].
  rewrite Ht. cbn [e_Event]. rewrite B1. cbn [e_canceled]. rewrite B2. cbn [e_canceled]. rewrite Hs. cbn [f_current].
  by rewrite bool_decide_eq_true_2.
Qed.
End machine.

(** [filterError] of both handlers: whether an error is left. *)
Definition filterError (errFromFSMEvent : fsmError) : bool :=
  match errFromFSMEvent with
  | NoTransitionError err | CanceledError err => err
  | _ => false
  end.
