(* ===== verification/ChaincodeHandler.v ===== *)
(** The peer's end of the stream to a chaincode, core/chaincode/handler.go, with the parts of
    chaincode_support.go that register it and execute a transaction through it: a state
    machine driven by the messages of the chaincode and by the peer, which serves the
    chaincode's requests from the ledger. *)
From stdpp Require Import base gmap list.
From Stdlib Require Import ZArith Lia.
From S2P Require Import Prelude GoStd GoBytes LedgerUtil KVStore Blockchain Ledger ExecTransaction Fsm.

(** * Messages *)

Record ChaincodeID := mkChaincodeID {
  cid_Path : bytes;
  cid_Name : bytes
}.

(** [ChaincodeSpec]; the fields that the handlers do not use are left out. *)
Record ChaincodeSpec := mkChaincodeSpec {
  spec_ChaincodeID : option ChaincodeID;
  spec_CtorMsg : bytes * list bytes
}.

Record RangeQueryStateResponse := mkRangeQueryStateResponse {
  KeysAndValues : list (bytes * bytes);
  HasMore : bool;
  resp_ID : bytes
}.

#[export] Instance ChaincodeMessageType_eq_dec : EqDecision ChaincodeMessageType.
Proof. solve_decision. Defined.

#[export] Instance ChaincodeID_eta : Eta ChaincodeID := fun c => mkChaincodeID (cid_Path c) (cid_Name c).

(** [proto.Marshal] and [proto.Unmarshal] on what the two ends exchange.  [invocationCtor]
    takes the packed constructor message out of a packed invocation. *)
Class ChaincodeCodec := {
  marshalChaincodeID : ChaincodeID -> result bytes;
  unmarshalChaincodeID : bytes -> result ChaincodeID;
  marshalPutStateInfo : bytes * bytes -> result bytes;
  unmarshalPutStateInfo : bytes -> result (bytes * bytes);
  marshalRangeQueryState : bytes * bytes -> result bytes;
  unmarshalRangeQueryState : bytes -> result (bytes * bytes);
  marshalRangeQueryStateNext : bytes -> result bytes;
  unmarshalRangeQueryStateNext : bytes -> result bytes;
  marshalRangeQueryStateClose : bytes -> result bytes;
  unmarshalRangeQueryStateClose : bytes -> result bytes;
  marshalRangeQueryStateResponse : RangeQueryStateResponse -> result bytes;
  unmarshalRangeQueryStateResponse : bytes -> result RangeQueryStateResponse;
  marshalChaincodeSpec : ChaincodeSpec -> result bytes;
  unmarshalChaincodeSpec : bytes -> result ChaincodeSpec;
  marshalChaincodeInput : bytes * list bytes -> result bytes;
  unmarshalChaincodeInput : bytes -> result (bytes * list bytes);
  invocationCtor : bytes -> result bytes;
  cloneTransaction : Transaction -> result Transaction
}.

(** Where the text of an error message comes from. *)
Inductive ccError :=
| LedgerFailed
| UnmarshalFailed
| MarshalFailed
| CryptFailed
| InQueryContext
| IteratorNotFound
| LaunchFailed
| ExecuteFailed
| SendFailed
| CannotHandle
| ChaincodeFailed.

(** The security helper: [None] as an encryptor is nil. *)
Record StateEncryptor := mkStateEncryptor {
  Encrypt : bytes -> result bytes;
  Decrypt : bytes -> result bytes
}.

Record SecHelper := mkSecHelper {
  GetStateEncryptor : option Transaction -> option Transaction -> result (option StateEncryptor);
  GetTransactionBinding : Transaction -> result bytes
}.

(** Range scans of the ledger. *)
Class LedgerScans (S Itr : Type) := {
  callGetStateRangeScanIterator : bytes -> bytes -> bytes -> bool -> M S (result Itr);
  itrNext : Itr -> M S (bool * Itr);
  itrGetKeyValue : Itr -> bytes * option bytes
}.

(** * State *)

Inductive handlerState :=
| createdstate | establishedstate | initstate | readystate | transactionstate | busyinitstate | busyxactstate | endstate.

#[export] Instance handlerState_eq_dec : EqDecision handlerState.
Proof. solve_decision. Defined.

(** The channel [responseNotifier] has one place. *)
Record transactionContext (Itr : Type) := mkTransactionContext {
  transactionSecContext : option Transaction;
  responseNotifier : list ChaincodeMessage;
  rangeQueryIteratorMap : gmap bytes Itr
}.
Arguments mkTransactionContext {Itr}.
Arguments transactionSecContext {Itr}.
Arguments responseNotifier {Itr}.
Arguments rangeQueryIteratorMap {Itr}.

#[export] Instance transactionContext_eta Itr : Eta (transactionContext Itr) := fun c =>
  mkTransactionContext (transactionSecContext c) (responseNotifier c) (rangeQueryIteratorMap c).

Record nextStateInfo := mkNextStateInfo {
  ns_msg : ChaincodeMessage;
  ns_sendToCC : bool
}.

(** The goroutines that serve a request, before and after they have taken the entry of the
    uuid. *)
Inductive taskKind :=
| TaskGetState | TaskRangeQueryState | TaskRangeQueryStateNext | TaskRangeQueryStateClose | TaskBusy | TaskQueryChaincode.

#[export] Instance taskKind_eq_dec : EqDecision taskKind.
Proof. solve_decision. Defined.

Record task := mkTask {
  t_kind : taskKind;
  t_msg : ChaincodeMessage;
  t_started : bool
}.

(** What the map of the chaincode support has for a chaincode: the placeholder of one that
    is being launched, with its channel, or a registered handler. *)
Record launched := mkLaunched {
  la_registered : bool;
  la_readyNotify : option (list bool)
}.

(** [Handler].  The maps are nil before the chaincode has registered; [readyNotify] has one
    place; [h_nextState] are the goroutines that wait to send on the channel.  The last
    fields stand for the map of the chaincode support, the ledger, the goroutines, what is
    on its way to the chaincode, how often something was sent, how many ids were made,
    and whether [processStream] has returned.  [h_started] and [h_writes] are not in the
    source: the transactions the peer has started, and the keys written with the uuid of
    the request. *)
Record Handler (S Itr : Type) := mkHandler {
  h_FSM : FSM handlerState;
  h_ChaincodeID : option ChaincodeID;
  h_deployTXSecContext : option Transaction;
  h_registered : bool;
  h_readyNotify : option (list bool);
  h_txCtxs : option (gmap bytes (transactionContext Itr));
  h_uuidMap : option (gset bytes);
  h_isTransaction : option (gmap bytes bool);
  h_nextState : list nextStateInfo;
  h_chaincodeMap : gmap bytes launched;
  h_ledger_ : S;
  h_tasks : list task;
  h_out : list ChaincodeMessage;
  h_sends : nat;
  h_ids : nat;
  h_ended : bool;
  h_started : list bytes;
  h_writes : list (bytes * bytes * bytes)
}.
Arguments mkHandler {S Itr}.
Arguments h_FSM {S Itr}.
Arguments h_ChaincodeID {S Itr}.
Arguments h_deployTXSecContext {S Itr}.
Arguments h_registered {S Itr}.
Arguments h_readyNotify {S Itr}.
Arguments h_txCtxs {S Itr}.
Arguments h_uuidMap {S Itr}.
Arguments h_isTransaction {S Itr}.
Arguments h_nextState {S Itr}.
Arguments h_chaincodeMap {S Itr}.
Arguments h_ledger_ {S Itr}.
Arguments h_tasks {S Itr}.
Arguments h_out {S Itr}.
Arguments h_sends {S Itr}.
Arguments h_ids {S Itr}.
Arguments h_ended {S Itr}.
Arguments h_started {S Itr}.
Arguments h_writes {S Itr}.

#[export] Instance Handler_eta S Itr : Eta (Handler S Itr) := fun h =>
  mkHandler (h_FSM h) (h_ChaincodeID h) (h_deployTXSecContext h) (h_registered h) (h_readyNotify h) (h_txCtxs h)
    (h_uuidMap h) (h_isTransaction h) (h_nextState h) (h_chaincodeMap h) (h_ledger_ h) (h_tasks h) (h_out h) (h_sends h)
    (h_ids h) (h_ended h) (h_started h) (h_writes h).

#[export] Instance Handler_HasFSM S Itr : HasFSM (Handler S Itr) handlerState := {
  getFSM := h_FSM;
  setFSM f h := h <| h_FSM := f |>
}.

(** [newChaincodeSupportHandler] on a new stream. *)
Definition newChaincodeSupportHandler {S Itr : Type} (chaincodeMap : gmap bytes launched) (ledger : S) : Handler S Itr :=
  mkHandler (mkFSM createdstate false) None None false None None None None [] chaincodeMap ledger [] [] 0 0 false [] [].

Definition handlerEvents : list (EventDesc ChaincodeMessageType handlerState) := [
  mkEventDesc REGISTER [createdstate] establishedstate;
  mkEventDesc INIT [establishedstate] initstate;
  mkEventDesc READY [establishedstate] readystate;
  mkEventDesc TRANSACTION [readystate] transactionstate;
  mkEventDesc PUT_STATE [transactionstate] busyxactstate;
  mkEventDesc DEL_STATE [transactionstate] busyxactstate;
  mkEventDesc INVOKE_CHAINCODE [transactionstate] busyxactstate;
  mkEventDesc PUT_STATE [initstate] busyinitstate;
  mkEventDesc DEL_STATE [initstate] busyinitstate;
  mkEventDesc INVOKE_CHAINCODE [initstate] busyinitstate;
  mkEventDesc COMPLETED [initstate; readystate; transactionstate] readystate;
  mkEventDesc GET_STATE [readystate] readystate;
  mkEventDesc GET_STATE [initstate] initstate;
  mkEventDesc GET_STATE [busyinitstate] busyinitstate;
  mkEventDesc GET_STATE [transactionstate] transactionstate;
  mkEventDesc GET_STATE [busyxactstate] busyxactstate;
  mkEventDesc RANGE_QUERY_STATE [readystate] readystate;
  mkEventDesc RANGE_QUERY_STATE [initstate] initstate;
  mkEventDesc RANGE_QUERY_STATE [busyinitstate] busyinitstate;
  mkEventDesc RANGE_QUERY_STATE [transactionstate] transactionstate;
  mkEventDesc RANGE_QUERY_STATE [busyxactstate] busyxactstate;
  mkEventDesc RANGE_QUERY_STATE_NEXT [readystate] readystate;
  mkEventDesc RANGE_QUERY_STATE_NEXT [initstate] initstate;
  mkEventDesc RANGE_QUERY_STATE_NEXT [busyinitstate] busyinitstate;
  mkEventDesc RANGE_QUERY_STATE_NEXT [transactionstate] transactionstate;
  mkEventDesc RANGE_QUERY_STATE_NEXT [busyxactstate] busyxactstate;
  mkEventDesc RANGE_QUERY_STATE_CLOSE [readystate] readystate;
  mkEventDesc RANGE_QUERY_STATE_CLOSE [initstate] initstate;
  mkEventDesc RANGE_QUERY_STATE_CLOSE [busyinitstate] busyinitstate;
  mkEventDesc RANGE_QUERY_STATE_CLOSE [transactionstate] transactionstate;
  mkEventDesc RANGE_QUERY_STATE_CLOSE [busyxactstate] busyxactstate;
  mkEventDesc ERROR [initstate] endstate;
  mkEventDesc ERROR [transactionstate] readystate;
  mkEventDesc ERROR [busyinitstate] initstate;
  mkEventDesc ERROR [busyxactstate] transactionstate;
  mkEventDesc RESPONSE [busyinitstate] initstate;
  mkEventDesc RESPONSE [busyxactstate] transactionstate
].

Definition maxRangeQueryStateLimit : nat := 100.

Section handler.
Context {S ID Itr : Type} `{!LedgerCalls S ID} `{!LedgerScans S Itr} `{Codec : !ChaincodeCodec}.
(** The security helper, whether a send succeeds, the ids made, the texts of errors, and the
    chaincode support's [LaunchChaincode], on the transaction made of a spec, and [Execute]
    for other chaincodes: the response, if there is one, and whether there is an error. *)
Context (secHelper : option SecHelper) (sendOk : nat -> bool) (GenerateUUID : nat -> bytes) (text : ccError -> bytes)
  (launchOther : ChaincodeSpec -> bytes -> TransactionType -> M S (result (bytes * list bytes)))
  (executeOther : bytes -> ChaincodeMessage -> M S (option ChaincodeMessage * bool)).

Abbreviation Hm := (M (Handler S Itr)).
Abbreviation ccEvent := (Event ChaincodeMessageType handlerState).

Definition onLedger_ {A} (m : M S A) : Hm A := fun h =>
  match m (h_ledger_ h) with
  | Done a l => Done a (h <| h_ledger_ := l |>)
  | Panic => Panic
  | Diverge => Diverge
  end.

Definition ccMessage (t : ChaincodeMessageType) (payload uuid : bytes) : ChaincodeMessage :=
  mkChaincodeMessage t payload uuid None.

(** [true] stands for an error. *)
Definition serialSend (msg : ChaincodeMessage) : Hm bool :=
  h ← get;
  modify (fun h => h <| h_sends := Datatypes.S (h_sends h) |>) ;;
  if sendOk (h_sends h) then modify (fun h => h <| h_out := h_out h ++ [msg] |>) ;; mret false else mret true.

(** ** Contexts of transactions *)

Definition getTxContext (uuid : bytes) (h : Handler S Itr) : option (transactionContext Itr) :=
  ctxs ← h_txCtxs h; ctxs !! uuid.

Definition setTxContext (uuid : bytes) (c : transactionContext Itr) : Hm unit :=
  modify (fun h => h <| h_txCtxs := insert uuid c <$> h_txCtxs h |>).

Definition createTxContext (uuid : bytes) (tx : option Transaction) : Hm (result unit) :=
  h ← get;
  match h_txCtxs h with
  | None => mret Err
  | Some _ =>
    match getTxContext uuid h with
    | Some _ => mret Err
    | None => setTxContext uuid (mkTransactionContext tx [] ∅) ;; mret (Ok tt)
    end
  end.

Definition deleteTxContext (uuid : bytes) : Hm unit :=
  modify (fun h => h <| h_txCtxs := delete uuid <$> h_txCtxs h |>).

(** A nil context panics. *)
Definition updIterators (uuid : bytes) (f : gmap bytes Itr -> gmap bytes Itr) : Hm unit :=
  h ← get;
  match getTxContext uuid h with
  | None => panic
  | Some c => setTxContext uuid (c <| rangeQueryIteratorMap := f (rangeQueryIteratorMap c) |>)
  end.

Definition putRangeQueryIterator (uuid id : bytes) (rangeScanIterator : Itr) : Hm unit :=
  updIterators uuid (insert id rangeScanIterator).

Definition getRangeQueryIterator (uuid id : bytes) : Hm (option Itr) :=
  h ← get;
  match getTxContext uuid h with
  | None => panic
  | Some c => mret (rangeQueryIteratorMap c !! id)
  end.

Definition deleteRangeQueryIterator (uuid id : bytes) : Hm unit := updIterators uuid (delete id).

(** ** Encryption *)

Definition encryptOrDecrypt (encrypt : bool) (uuid payload : bytes) (h : Handler S Itr) : result bytes :=
  match secHelper with
  | None => Ok payload
  | Some sec =>
    match getTxContext uuid h with
    | None => Err
    | Some c =>
      match transactionSecContext c with
      | None => Err
      | Some tx =>
        if negb (ConfidentialityLevel tx) then Ok payload else
        let enc :=
          match Type_ tx with
          | CHAINCODE_DEPLOY => GetStateEncryptor sec (h_deployTXSecContext h) (h_deployTXSecContext h)
          | CHAINCODE_INVOKE | CHAINCODE_QUERY => GetStateEncryptor sec (h_deployTXSecContext h) (Some tx)
          | _ => Err
          end in
        match enc with
        | Err | Ok None => Err
        | Ok (Some enc) => if encrypt then Encrypt enc payload else Decrypt enc payload
        end
      end
    end
  end.

Definition decrypt (uuid payload : bytes) (h : Handler S Itr) : result bytes := encryptOrDecrypt false uuid payload h.

Definition encrypt (uuid payload : bytes) (h : Handler S Itr) : result bytes := encryptOrDecrypt true uuid payload h.

Definition getSecurityBinding (tx : Transaction) : result bytes :=
  match secHelper with None => Ok [] | Some sec => GetTransactionBinding sec tx end.

(** ** Bookkeeping by uuid *)

Definition createUUIDEntry (uuid : bytes) : Hm bool :=
  h ← get;
  match h_uuidMap h with
  | None => mret false
  | Some m => if bool_decide (uuid ∈ m) then mret false else modify (fun h => h <| h_uuidMap := Some ({[uuid]} ∪ m) |>) ;; mret true
  end.

Definition deleteUUIDEntry (uuid : bytes) : Hm unit :=
  modify (fun h => h <| h_uuidMap := (fun m => m ∖ {[uuid]}) <$> h_uuidMap h |>).

Definition markIsTransaction (uuid : bytes) (isTrans : bool) : Hm unit :=
  modify (fun h => h <| h_isTransaction := insert uuid isTrans <$> h_isTransaction h |>).

Definition getIsTransaction (uuid : bytes) (h : Handler S Itr) : bool :=
  match h_isTransaction h with None => false | Some m => default false (m !! uuid) end.

Definition deleteIsTransaction (uuid : bytes) : Hm unit :=
  modify (fun h => h <| h_isTransaction := delete uuid <$> h_isTransaction h |>).

(** ** Notifications *)

(** A full channel blocks. *)
Definition notifyDuringStartup (val : bool) : Hm unit :=
  h ← get;
  match h_readyNotify h with
  | None => mret tt
  | Some [] => modify (fun h => h <| h_readyNotify := Some [val] |>)
  | Some (_ :: _) => diverge
  end.

(** The iterators of the context are closed; a full channel blocks, with the lock held. *)
Definition notify (msg : ChaincodeMessage) : Hm unit :=
  h ← get;
  match getTxContext (msg_Uuid msg) h with
  | None => mret tt
  | Some c =>
    match responseNotifier c with
    | [] => setTxContext (msg_Uuid msg) (c <| responseNotifier := [msg] |>)
    | _ :: _ => diverge
    end
  end.

Definition triggerNextState (msg : ChaincodeMessage) (send : bool) : Hm unit :=
  modify (fun h => h <| h_nextState := h_nextState h ++ [mkNextStateInfo msg send] |>).

(** ** Registration *)

(** [registerHandler]: [true] stands for an error. *)
Definition registerHandler (key : bytes) : Hm bool :=
  h ← get;
  let h2 := h_chaincodeMap h !! key in
  match h2 with
  | Some (mkLaunched true _) => mret true
  | _ =>
    modify (fun h => h <| h_readyNotify := match h2 with Some l => la_readyNotify l | None => h_readyNotify h end |>) ;;
    modify (fun h => h <| h_chaincodeMap := <[key := mkLaunched true None]> (h_chaincodeMap h) |>) ;;
    modify (fun h => h <| h_registered := true |>) ;;
    modify (fun h => h <| h_txCtxs := Some ∅ |>) ;;
    modify (fun h => h <| h_uuidMap := Some ∅ |>) ;;
    modify (fun h => h <| h_isTransaction := Some ∅ |>) ;;
    mret false
  end.

(** [deregister], with [deregisterHandler], whose error is dropped. *)
Definition deregister : Hm unit :=
  h ← get;
  when (h_registered h)
    (modify (fun h => h <| h_chaincodeMap :=
       match h_ChaincodeID h with Some cid => delete (cid_Name cid) (h_chaincodeMap h) | None => h_chaincodeMap h end |>)).

(** ** Callbacks of the state machine *)

Definition beforeRegisterEvent (msg : ChaincodeMessage) (e : ccEvent) : Hm ccEvent :=
  match unmarshalChaincodeID (msg_Payload msg) with
  | Err => mret (Cancel e)
  | Ok chaincodeID =>
    modify (fun h => h <| h_ChaincodeID := Some chaincodeID |>) ;;
    err ← registerHandler (cid_Name chaincodeID);
    if (err : bool) then notifyDuringStartup false ;; mret (Cancel e) else
    err ← serialSend (ccMessage REGISTERED [] []);
    if (err : bool) then notifyDuringStartup false ;; mret (Cancel e) else mret e
  end.

Definition beforeInitState (msg : ChaincodeMessage) (e : ccEvent) : Hm ccEvent := notifyDuringStartup true ;; mret e.

(** The handling functions start a goroutine. *)
Definition spawn (k : taskKind) (msg : ChaincodeMessage) (e : ccEvent) : Hm ccEvent :=
  modify (fun h => h <| h_tasks := h_tasks h ++ [mkTask k msg false] |>) ;; mret e.

Definition enterEstablishedState (msg : ChaincodeMessage) (e : ccEvent) : Hm ccEvent := notifyDuringStartup true ;; mret e.

Definition enterInitState (ccMsg : ChaincodeMessage) (e : ccEvent) : Hm ccEvent :=
  when (bool_decide (msg_Type ccMsg = INIT)) (
    markIsTransaction (msg_Uuid ccMsg) true ;;
    err ← serialSend ccMsg;
    when err (notify (ccMessage ERROR (text SendFailed) (msg_Uuid ccMsg)))) ;;
  mret e.

Definition enterReadyState (msg : ChaincodeMessage) (e : ccEvent) : Hm ccEvent :=
  deleteIsTransaction (msg_Uuid msg) ;; notify msg ;; mret e.

Definition enterEndState (msg : ChaincodeMessage) (e : ccEvent) : Hm ccEvent :=
  deleteIsTransaction (msg_Uuid msg) ;; notify msg ;; deregister ;; mret (Cancel e).

(** The callbacks that only look at the type of the message are left out. *)
Definition handlerCallbacks (k : cKey ChaincodeMessageType handlerState) : option (ChaincodeMessage -> ccEvent -> Hm ccEvent) :=
  match k with
  | before_event (Some REGISTER) => Some beforeRegisterEvent
  | before_event (Some INIT) => Some beforeInitState
  | after_event (Some GET_STATE) => Some (spawn TaskGetState)
  | after_event (Some RANGE_QUERY_STATE) => Some (spawn TaskRangeQueryState)
  | after_event (Some RANGE_QUERY_STATE_NEXT) => Some (spawn TaskRangeQueryStateNext)
  | after_event (Some RANGE_QUERY_STATE_CLOSE) => Some (spawn TaskRangeQueryStateClose)
  | enter_state (Some establishedstate) => Some enterEstablishedState
  | enter_state (Some initstate) => Some enterInitState
  | enter_state (Some readystate) => Some enterReadyState
  | enter_state (Some busyinitstate) | enter_state (Some busyxactstate) => Some (spawn TaskBusy)
  | enter_state (Some endstate) => Some enterEndState
  | _ => None
  end.

(** ** Requests *)

Definition errorMsg (msg : ChaincodeMessage) (err : ccError) : ChaincodeMessage := ccMessage ERROR (text err) (msg_Uuid msg).

Definition responseMsg (msg : ChaincodeMessage) (payload : bytes) : ChaincodeMessage := ccMessage RESPONSE payload (msg_Uuid msg).

(** The chaincode's name; a handler that is not registered has none and panics. *)
Definition chaincodeName : Hm bytes :=
  h ← get;
  match h_ChaincodeID h with Some cid => mret (cid_Name cid) | None => panic end.

(** [handleGetState]: a query reads the committed state. *)
Definition handleGetState (msg : ChaincodeMessage) : Hm ChaincodeMessage :=
  chaincodeID ← chaincodeName;
  h ← get;
  res ← onLedger_ (callGetState chaincodeID (msg_Payload msg) (negb (getIsTransaction (msg_Uuid msg) h)));
  h ← get;
  mret match res with
  | Err => errorMsg msg LedgerFailed
  | Ok res =>
    match decrypt (msg_Uuid msg) (default [] res) h with
    | Ok res => responseMsg msg res
    | Err => errorMsg msg CryptFailed
    end
  end.

(** The loop that fills a response: at most [n] more pairs.  A value that cannot be decrypted
    panics, since the text of another error, which is nil, is taken. *)
Fixpoint fillPage (n : nat) (uuid : bytes) (itr : Itr) (hasNext : bool) (keysAndValues : list (bytes * bytes))
    : Hm (list (bytes * bytes) * bool * Itr) :=
  match n, hasNext with
  | Datatypes.S n, true =>
    let '(key, value) := itrGetKeyValue itr in
    h ← get;
    match decrypt uuid (default [] value) h with
    | Err => panic
    | Ok decryptedValue =>
      next ← onLedger_ (itrNext itr);
      fillPage n uuid (snd next) (fst next) (keysAndValues ++ [(key, decryptedValue)])
    end
  | _, _ => mret (keysAndValues, hasNext, itr)
  end.

(** What follows the loop: an iterator that is exhausted is removed. *)
Definition sendPage (msg : ChaincodeMessage) (iterID : bytes) (page : list (bytes * bytes) * bool * Itr) : Hm ChaincodeMessage :=
  let '(keysAndValues, hasNext, itr) := page in
  (if (hasNext : bool) then putRangeQueryIterator (msg_Uuid msg) iterID itr
   else deleteRangeQueryIterator (msg_Uuid msg) iterID) ;;
  match marshalRangeQueryStateResponse (mkRangeQueryStateResponse keysAndValues hasNext iterID) with
  | Err => deleteRangeQueryIterator (msg_Uuid msg) iterID ;; mret (errorMsg msg MarshalFailed)
  | Ok payloadBytes => mret (responseMsg msg payloadBytes)
  end.

Definition handleRangeQueryState (msg : ChaincodeMessage) : Hm ChaincodeMessage :=
  match unmarshalRangeQueryState (msg_Payload msg) with
  | Err => mret (errorMsg msg UnmarshalFailed)
  | Ok (startKey, endKey) =>
    chaincodeID ← chaincodeName;
    h ← get;
    rangeIter ← onLedger_ (callGetStateRangeScanIterator chaincodeID startKey endKey (negb (getIsTransaction (msg_Uuid msg) h)));
    match rangeIter with
    | Err => mret (errorMsg msg LedgerFailed)
    | Ok rangeIter =>
      let iterID := GenerateUUID (h_ids h) in
      modify (fun h => h <| h_ids := Datatypes.S (h_ids h) |>) ;;
      putRangeQueryIterator (msg_Uuid msg) iterID rangeIter ;;
      next ← onLedger_ (itrNext rangeIter);
      page ← fillPage maxRangeQueryStateLimit (msg_Uuid msg) (snd next) (fst next) [];
      sendPage msg iterID page
    end
  end.

Definition handleRangeQueryStateNext (msg : ChaincodeMessage) : Hm ChaincodeMessage :=
  match unmarshalRangeQueryStateNext (msg_Payload msg) with
  | Err => mret (errorMsg msg UnmarshalFailed)
  | Ok iterID =>
    rangeIter ← getRangeQueryIterator (msg_Uuid msg) iterID;
    match rangeIter with
    | None => mret (errorMsg msg IteratorNotFound)
    | Some rangeIter =>
      page ← fillPage maxRangeQueryStateLimit (msg_Uuid msg) rangeIter true [];
      sendPage msg iterID page
    end
  end.

Definition handleRangeQueryStateClose (msg : ChaincodeMessage) : Hm ChaincodeMessage :=
  match unmarshalRangeQueryStateClose (msg_Payload msg) with
  | Err => mret (errorMsg msg UnmarshalFailed)
  | Ok iterID =>
    iter ← getRangeQueryIterator (msg_Uuid msg) iterID;
    when (bool_decide (is_Some iter)) (deleteRangeQueryIterator (msg_Uuid msg) iterID) ;;
    mret match marshalRangeQueryStateResponse (mkRangeQueryStateResponse [] false iterID) with
    | Err => errorMsg msg MarshalFailed
    | Ok payloadBytes => responseMsg msg payloadBytes
    end
  end.

(** [handleQueryChaincode]; a spec without an id panics. *)
Definition handleQueryChaincode (msg : ChaincodeMessage) : Hm ChaincodeMessage :=
  match unmarshalChaincodeSpec (msg_Payload msg) with
  | Err => mret (errorMsg msg UnmarshalFailed)
  | Ok chaincodeSpec =>
    match spec_ChaincodeID chaincodeSpec with
    | None => panic
    | Some newChaincodeID =>
      chaincodeInput ← onLedger_ (launchOther chaincodeSpec (msg_Uuid msg) CHAINCODE_QUERY);
      match chaincodeInput with
      | Err => mret (errorMsg msg LaunchFailed)
      | Ok chaincodeInput =>
        match marshalChaincodeInput chaincodeInput with
        | Err => panic
        | Ok payload =>
          response ← onLedger_ (executeOther (cid_Name newChaincodeID) (ccMessage QUERY payload (msg_Uuid msg)));
          match response with
          | (_, true) => mret (errorMsg msg ExecuteFailed)
          | (Some response, false) => mret (responseMsg msg (msg_Payload response))
          | (None, false) => panic
          end
        end
      end
    end
  end.

(** Protobuf and the stream do not carry the difference between an empty slice and nil: an
    empty value arrives as nil. *)
Definition sliceOf (b : bytes) : option bytes := match b with [] => None | _ => Some b end.

Definition recordWrite (uuid chaincodeID key : bytes) : Hm unit :=
  modify (fun h => h <| h_writes := h_writes h ++ [(uuid, chaincodeID, key)] |>).

Definition busyPutState (msg : ChaincodeMessage) (chaincodeID : bytes) : Hm ChaincodeMessage :=
  match unmarshalPutStateInfo (msg_Payload msg) with
  | Err => mret (errorMsg msg UnmarshalFailed)
  | Ok (key, value) =>
    h ← get;
    match encrypt (msg_Uuid msg) value h with
    | Err => mret (errorMsg msg CryptFailed)
    | Ok pVal =>
      recordWrite (msg_Uuid msg) chaincodeID key ;;
      r ← onLedger_ (callSetState chaincodeID key (sliceOf pVal));
      mret match r with Err => errorMsg msg LedgerFailed | Ok _ => responseMsg msg [] end
    end
  end.

Definition busyDelState (msg : ChaincodeMessage) (chaincodeID : bytes) : Hm ChaincodeMessage :=
  recordWrite (msg_Uuid msg) chaincodeID (msg_Payload msg) ;;
  r ← onLedger_ (callDeleteState chaincodeID (msg_Payload msg));
  mret match r with Err => errorMsg msg LedgerFailed | Ok _ => responseMsg msg [] end.

(** The payload of the response is taken before the error is looked at: no response, as
    after a timeout, panics. *)
Definition busyInvokeChaincode (msg : ChaincodeMessage) : Hm ChaincodeMessage :=
  match unmarshalChaincodeSpec (msg_Payload msg) with
  | Err => mret (errorMsg msg UnmarshalFailed)
  | Ok chaincodeSpec =>
    match spec_ChaincodeID chaincodeSpec with
    | None => panic
    | Some newChaincodeID =>
      chaincodeInput ← onLedger_ (launchOther chaincodeSpec (msg_Uuid msg) CHAINCODE_INVOKE);
      match chaincodeInput with
      | Err => mret (errorMsg msg LaunchFailed)
      | Ok chaincodeInput =>
        match marshalChaincodeInput chaincodeInput with
        | Err => panic
        | Ok payload =>
          response ← onLedger_ (executeOther (cid_Name newChaincodeID) (ccMessage TRANSACTION payload (msg_Uuid msg)));
          match response with
          | (None, _) => panic
          | (Some response, err) => mret (if (err : bool) then errorMsg msg ExecuteFailed else responseMsg msg (msg_Payload response))
          end
        end
      end
    end
  end.

(** The goroutine of [enterBusyState], once it has the entry of the uuid. *)
Definition enterBusyState (msg : ChaincodeMessage) : Hm ChaincodeMessage :=
  chaincodeID ← chaincodeName;
  match msg_Type msg with
  | PUT_STATE => busyPutState msg chaincodeID
  | DEL_STATE => busyDelState msg chaincodeID
  | INVOKE_CHAINCODE => busyInvokeChaincode msg
  | _ => mret (responseMsg msg [])
  end.

(** What a goroutine does for a request. *)
Definition serve (k : taskKind) (msg : ChaincodeMessage) : Hm ChaincodeMessage :=
  match k with
  | TaskGetState => handleGetState msg
  | TaskRangeQueryState => handleRangeQueryState msg
  | TaskRangeQueryStateNext => handleRangeQueryStateNext msg
  | TaskRangeQueryStateClose => handleRangeQueryStateClose msg
  | TaskQueryChaincode => handleQueryChaincode msg
  | TaskBusy => enterBusyState msg
  end.

(** Its end: the entry of the uuid is deleted, and the answer is sent, or it is handed to the
    state machine first. *)
Definition answer (k : taskKind) (uuid : bytes) (reply : ChaincodeMessage) : Hm unit :=
  deleteUUIDEntry uuid ;;
  match k with
  | TaskBusy => triggerNextState reply true
  | _ => serialSend reply ;; mret tt
  end.

(** A step of the [i]-th goroutine: it takes the entry of the uuid, or is dropped when there
    is one already, and then serves the request.  A write in the context of a query is
    refused first. *)
Definition runTask (i : nat) : Hm unit :=
  h ← get;
  match h_tasks h !! i with
  | None => mret tt
  | Some (mkTask k msg started) =>
    let drop := modify (fun h => h <| h_tasks := delete i (h_tasks h) |>) in
    if (started : bool) then
      drop ;;
      reply ← serve k msg;
      answer k (msg_Uuid msg) reply
    else if bool_decide (k = TaskBusy) && negb (getIsTransaction (msg_Uuid msg) h) then
      drop ;; triggerNextState (errorMsg msg InQueryContext) true
    else
      uniqueReq ← createUUIDEntry (msg_Uuid msg);
      if (uniqueReq : bool) then modify (fun h => h <| h_tasks := <[i := mkTask k msg true]> (h_tasks h) |>)
      else drop
  end.

(** ** The stream *)

(** [HandleMessage]: [true] stands for an error. *)
Definition HandleMessage (msg : ChaincodeMessage) : Hm bool :=
  match msg_Type msg with
  | QUERY_COMPLETED =>
    deleteIsTransaction (msg_Uuid msg) ;;
    h ← get;
    notify (match encrypt (msg_Uuid msg) (msg_Payload msg) h with
      | Ok payload => mkChaincodeMessage QUERY_COMPLETED payload (msg_Uuid msg) (msg_SecurityContext msg)
      | Err => mkChaincodeMessage QUERY_ERROR (text CryptFailed) (msg_Uuid msg) (msg_SecurityContext msg)
      end) ;;
    mret false
  | QUERY_ERROR => deleteIsTransaction (msg_Uuid msg) ;; notify msg ;; mret false
  | INVOKE_QUERY =>
    modify (fun h => h <| h_tasks := h_tasks h ++ [mkTask TaskQueryChaincode msg false] |>) ;; mret false
  | ty =>
    h ← get;
    if Cannot handlerEvents ty h then
      when (bool_decide (ty ∈ [PUT_STATE; DEL_STATE; INVOKE_CHAINCODE]) && negb (getIsTransaction (msg_Uuid msg) h))
        (serialSend (errorMsg msg InQueryContext) ;; mret tt) ;;
      mret true
    else
      err ← fsm_Event handlerEvents handlerCallbacks ty msg;
      mret (filterError err)
  end.

(** [processStream] returns. *)
Definition endStream : Hm unit := deregister ;; modify (fun h => h <| h_ended := true |>).

(** A round of [processStream] with a message of the chaincode, or with the end of the
    stream. *)
Definition streamRecv (msg : option ChaincodeMessage) : Hm unit :=
  h ← get;
  if h_ended h then mret tt else
  match msg with
  | None => endStream
  | Some msg => err ← HandleMessage msg; when err endStream
  end.

(** A round with what the [i]-th waiting goroutine sends on [nextState]. *)
Definition streamNext (i : nat) : Hm unit :=
  h ← get;
  if h_ended h then mret tt else
  match h_nextState h !! i with
  | None => mret tt
  | Some (mkNextStateInfo msg sendToCC) =>
    modify (fun h => h <| h_nextState := delete i (h_nextState h) |>) ;;
    err ← HandleMessage msg;
    if (err : bool) then endStream
    else when sendToCC (err ← serialSend msg; when err endStream)
  end.

(** ** Starting a transaction *)

(** The chaincode's deployment, without what is not needed. *)
Definition initializeSecContext (tx depTx : option Transaction) : Hm (result unit) :=
  match (match depTx, tx with
         | Some depTx, _ => Ok depTx
         | None, Some tx => cloneTransaction tx
         | None, None => Err
         end) with
  | Err => modify (fun h => h <| h_deployTXSecContext := None |>) ;; mret Err
  | Ok t =>
    let t := t <| Payload := [] |> in
    modify (fun h => h <| h_deployTXSecContext := Some t |>) ;;
    match unmarshalChaincodeID (tx_ChaincodeID t) with
    | Err => mret Err
    | Ok cID =>
      match marshalChaincodeID (cID <| cid_Path := [] |>) with
      | Err => mret Err
      | Ok data => modify (fun h => h <| h_deployTXSecContext := Some (t <| tx_ChaincodeID := data |>) |>) ;; mret (Ok tt)
      end
    end
  end.

Definition setChaincodeSecurityContext (tx : option Transaction) (msg : ChaincodeMessage) : result ChaincodeMessage :=
  let sc := default (mkChaincodeSecurityContext [] [] [] [] []) (msg_SecurityContext msg) in
  let set sc := mkChaincodeMessage (msg_Type msg) (msg_Payload msg) (msg_Uuid msg) (Some sc) in
  match tx with
  | None => Ok (set sc)
  | Some tx =>
    match getSecurityBinding tx with
    | Err => Err
    | Ok binding =>
      match Type_ tx with
      | CHAINCODE_INVOKE | CHAINCODE_QUERY =>
        match invocationCtor (Payload tx) with
        | Err => Err
        | Ok ctorMsgRaw => Ok (set (mkChaincodeSecurityContext (Cert tx) (Signature tx) ctorMsgRaw binding (Metadata tx)))
        end
      | _ => Ok (set (mkChaincodeSecurityContext (Cert tx) (Signature tx) (sc_Payload sc) binding (Metadata tx)))
      end
    end
  end.

(** [initOrReady]: with a function or arguments the chaincode is initialised. *)
Definition initOrReady (uuid : bytes) (f : option bytes) (initArgs : option (list bytes)) (tx depTx : option Transaction)
    : Hm (result unit) :=
  created ← createTxContext uuid tx;
  match created with
  | Err => mret Err
  | Ok _ =>
    match (if bool_decide (is_Some f) || bool_decide (is_Some initArgs) then
             match marshalChaincodeInput (default [] f, default [] initArgs) with
             | Err => Err
             | Ok payload => Ok (ccMessage INIT payload uuid, false)
             end
           else Ok (ccMessage READY [] uuid, true)) with
    | Err => deleteTxContext uuid ;; mret Err
    | Ok (ccMsg, send) =>
      initialized ← initializeSecContext tx depTx;
      match initialized with
      | Err => deleteTxContext uuid ;; mret Err
      | Ok _ =>
        match setChaincodeSecurityContext tx ccMsg with
        | Err => mret Err
        | Ok ccMsg =>
          modify (fun h => h <| h_started := if send then h_started h else h_started h ++ [uuid] |>) ;;
          triggerNextState ccMsg send ;; mret (Ok tt)
        end
      end
    end
  end.

(** A message that is neither a transaction nor a query is sent like a query. *)
Definition sendExecuteMessage (msg : ChaincodeMessage) (tx : option Transaction) : Hm (result unit) :=
  created ← createTxContext (msg_Uuid msg) tx;
  match created with
  | Err => mret Err
  | Ok _ =>
    markIsTransaction (msg_Uuid msg) (negb (bool_decide (msg_Type msg = QUERY))) ;;
    modify (fun h => h <| h_started :=
      if bool_decide (msg_Type msg = QUERY) then h_started h else h_started h ++ [msg_Uuid msg] |>) ;;
    match setChaincodeSecurityContext tx msg with
    | Err => mret Err
    | Ok msg =>
      if bool_decide (msg_Type msg = TRANSACTION) then triggerNextState msg true ;; mret (Ok tt) else
      err ← serialSend msg;
      if (err : bool) then deleteTxContext (msg_Uuid msg) ;; mret Err else mret (Ok tt)
    end
  end.

(** The end of [Execute] and of [sendInitOrReady] of the chaincode support: the response, or
    none after a timeout; the context is deleted. *)
Definition takeResponse (uuid : bytes) (timedOut : bool) : Hm (option ChaincodeMessage * bool) :=
  h ← get;
  match (if timedOut then None else getTxContext uuid h ≫= fun c => head (responseNotifier c)) with
  | None => deleteTxContext uuid ;; mret (None, true)
  | Some ccresp =>
    deleteTxContext uuid ;;
    mret (Some ccresp, bool_decide (msg_Type ccresp = ERROR) || bool_decide (msg_Type ccresp = QUERY_ERROR))
  end.

Definition isRunning (h : Handler S Itr) : bool :=
  match f_current (h_FSM h) with createdstate | establishedstate | initstate => false | _ => true end.
End handler.
