(* ===== verification/ShimHandler.v ===== *)
(** The chaincode's end of the stream, core/chaincode/shim/handler.go and the parts of
    shim/chaincode.go that use it: the state machine, the goroutines that run the chaincode,
    and the requests that a chaincode makes of its stub. *)
From stdpp Require Import base gmap list.
From Stdlib Require Import ZArith Lia.
From S2P Require Import Prelude GoStd GoBytes LedgerUtil KVStore Blockchain Ledger ExecTransaction Fsm ChaincodeHandler.

(** * Chaincodes *)

Inductive stubRequest :=
| StubGetState (key : bytes)
| StubPutState (key value : bytes)
| StubDelState (key : bytes)
| StubRangeQueryState (startKey endKey : bytes)
| StubRangeQueryStateNext (id : bytes)
| StubRangeQueryStateClose (id : bytes)
| StubInvokeChaincode (chaincodeName function : bytes) (args : list bytes)
| StubQueryChaincode (chaincodeName function : bytes) (args : list bytes).

Inductive stubReply :=
| ReplyBytes (b : bytes)
| ReplyDone
| ReplyRange (response : RangeQueryStateResponse).

(** What a chaincode does with its stub until it returns: requests, each depending on the
    replies to the ones before. *)
Inductive stubRun :=
| StubReturn (res : result bytes)
| StubPanic
| StubCall (req : stubRequest) (k : result stubReply -> stubRun).

Record ChaincodeStub := mkChaincodeStub {
  UUID : bytes;
  securityContext : option ChaincodeSecurityContext
}.

(** The interface that a chaincode implements. *)
Class Chaincode := {
  Init : ChaincodeStub -> bytes -> list bytes -> stubRun;
  Invoke : ChaincodeStub -> bytes -> list bytes -> stubRun;
  Query : ChaincodeStub -> bytes -> list bytes -> stubRun
}.

(** ** Range queries *)

Record StateRangeQueryIterator := mkStateRangeQueryIterator {
  sri_response : RangeQueryStateResponse;
  sri_currentLoc : nat
}.

Definition RangeQueryState (startKey endKey : bytes) (k : result StateRangeQueryIterator -> stubRun) : stubRun :=
  StubCall (StubRangeQueryState startKey endKey) (fun r =>
    match r with
    | Ok (ReplyRange response) => k (Ok (mkStateRangeQueryIterator response 0))
    | _ => k Err
    end).

Definition HasNext (iter : StateRangeQueryIterator) : bool :=
  (sri_currentLoc iter <? length (KeysAndValues (sri_response iter)))%nat || HasMore (sri_response iter).

(** [Next]; a response without a pair panics. *)
Definition iter_Next (iter : StateRangeQueryIterator) (k : result (bytes * bytes) -> StateRangeQueryIterator -> stubRun) : stubRun :=
  match KeysAndValues (sri_response iter) !! sri_currentLoc iter with
  | Some keyValue => k (Ok keyValue) (mkStateRangeQueryIterator (sri_response iter) (S (sri_currentLoc iter)))
  | None =>
    if negb (HasMore (sri_response iter)) then k Err iter else
    StubCall (StubRangeQueryStateNext (resp_ID (sri_response iter))) (fun r =>
      match r with
      | Ok (ReplyRange response) =>
        match KeysAndValues response with
        | [] => StubPanic
        | keyValue :: _ => k (Ok keyValue) (mkStateRangeQueryIterator response 1)
        end
      | _ => k Err iter
      end)
  end.

Definition iter_Close (iter : StateRangeQueryIterator) (k : result unit -> stubRun) : stubRun :=
  StubCall (StubRangeQueryStateClose (resp_ID (sri_response iter))) (fun r =>
    match r with Ok _ => k (Ok tt) | Err => k Err end).

(** * State *)

Inductive shimState := shimCreated | shimEstablished | shimInit | shimReady | shimTransaction.

#[export] Instance shimState_eq_dec : EqDecision shimState.
Proof. solve_decision. Defined.

Inductive invocation := CallInit | CallInvoke | CallQuery.

(** Where a goroutine that runs the chaincode is: it starts, runs, waits on the response
    channel of its uuid, or has received a message from it. *)
Inductive goroutinePC :=
| PcStart
| PcRun (p : stubRun)
| PcWait (req : stubRequest) (k : result stubReply -> stubRun)
| PcGot (req : stubRequest) (k : result stubReply -> stubRun) (msg : ChaincodeMessage).

Record goroutine := mkGoroutine {
  g_call : invocation;
  g_msg : ChaincodeMessage;
  g_pc : goroutinePC
}.

(** The shim's [Handler]: [s_responseChannel] are the uuids with a channel, which has no place
    of its own, [s_nextState] the goroutines that wait to send on the channel.  The last
    fields stand for the goroutines that run the chaincode, what is on its way to the peer,
    how often something was sent, and whether [chatWithPeer] has returned. *)
Record ShimHandler := mkShimHandler {
  s_FSM : FSM shimState;
  s_responseChannel : gset bytes;
  s_isTransaction : gmap bytes bool;
  s_nextState : list nextStateInfo;
  s_goroutines : list goroutine;
  s_out : list ChaincodeMessage;
  s_sends : nat;
  s_ended : bool
}.

#[export] Instance ShimHandler_eta : Eta ShimHandler := fun h =>
  mkShimHandler (s_FSM h) (s_responseChannel h) (s_isTransaction h) (s_nextState h) (s_goroutines h) (s_out h) (s_sends h)
    (s_ended h).

#[export] Instance ShimHandler_HasFSM : HasFSM ShimHandler shimState := {
  getFSM := s_FSM;
  setFSM f h := h <| s_FSM := f |>
}.

Definition newChaincodeHandler : ShimHandler := mkShimHandler (mkFSM shimCreated false) ∅ ∅ [] [] [] 0 false.

Definition shimEvents : list (EventDesc ChaincodeMessageType shimState) := [
  mkEventDesc REGISTERED [shimCreated] shimEstablished;
  mkEventDesc INIT [shimEstablished] shimInit;
  mkEventDesc READY [shimEstablished] shimReady;
  mkEventDesc ERROR [shimInit] shimEstablished;
  mkEventDesc RESPONSE [shimInit] shimInit;
  mkEventDesc COMPLETED [shimInit] shimReady;
  mkEventDesc TRANSACTION [shimReady] shimTransaction;
  mkEventDesc COMPLETED [shimTransaction] shimReady;
  mkEventDesc ERROR [shimTransaction] shimReady;
  mkEventDesc RESPONSE [shimTransaction] shimTransaction;
  mkEventDesc QUERY [shimTransaction] shimTransaction;
  mkEventDesc QUERY [shimReady] shimReady;
  mkEventDesc RESPONSE [shimReady] shimReady
].

Section shim.
Context `{Codec : !ChaincodeCodec} `{CC : !Chaincode}.
Context (sendOk : nat -> bool) (text : ccError -> bytes).

Abbreviation Sm := (M ShimHandler).
Abbreviation shimEvent := (Event ChaincodeMessageType shimState).

(** [true] stands for an error. *)
Definition shimSend (msg : ChaincodeMessage) : Sm bool :=
  h ← get;
  modify (fun h => h <| s_sends := S (s_sends h) |>) ;;
  if sendOk (s_sends h) then modify (fun h => h <| s_out := s_out h ++ [msg] |>) ;; mret false else mret true.

Definition shimTrigger (msg : ChaincodeMessage) (send : bool) : Sm unit :=
  modify (fun h => h <| s_nextState := s_nextState h ++ [mkNextStateInfo msg send] |>).

(** ** Response channels *)

Definition createChannel (uuid : bytes) : Sm (result unit) :=
  h ← get;
  if bool_decide (uuid ∈ s_responseChannel h) then mret Err
  else modify (fun h => h <| s_responseChannel := {[uuid]} ∪ s_responseChannel h |>) ;; mret (Ok tt).

Definition deleteChannel (uuid : bytes) : Sm unit :=
  modify (fun h => h <| s_responseChannel := s_responseChannel h ∖ {[uuid]} |>).

(** Whether a goroutine waits on the channel of a uuid. *)
Definition waitsOn (uuid : bytes) (g : goroutine) : bool :=
  match g_pc g with PcWait _ _ => bool_decide (msg_Uuid (g_msg g) = uuid) | _ => false end.

Definition receive (msg : ChaincodeMessage) (g : goroutine) : goroutine :=
  match g_pc g with
  | PcWait req k => mkGoroutine (g_call g) (g_msg g) (PcGot req k msg)
  | _ => g
  end.

(** [sendChannel] hands the message to the goroutine that waits; if none does it blocks, with
    the lock held.  The error, that there is no channel, is only logged. *)
Definition sendChannel (msg : ChaincodeMessage) : Sm unit :=
  h ← get;
  if negb (bool_decide (msg_Uuid msg ∈ s_responseChannel h)) then mret tt else
  match list_find (waitsOn (msg_Uuid msg)) (s_goroutines h) with
  | None => diverge
  | Some (i, g) => modify (fun h => h <| s_goroutines := <[i := receive msg g]> (s_goroutines h) |>)
  end.

(** ** Transactions and queries *)

Definition shimMark (uuid : bytes) (isTrans : bool) : Sm unit :=
  modify (fun h => h <| s_isTransaction := <[uuid := isTrans]> (s_isTransaction h) |>).

Definition shimUnmark (uuid : bytes) : Sm unit :=
  modify (fun h => h <| s_isTransaction := delete uuid (s_isTransaction h) |>).

Definition shimSpawn (call : invocation) (msg : ChaincodeMessage) : Sm unit :=
  modify (fun h => h <| s_goroutines := s_goroutines h ++ [mkGoroutine call msg PcStart] |>).

(** ** Callbacks of the state machine *)

Definition shimEnterInit (msg : ChaincodeMessage) (e : shimEvent) : Sm shimEvent :=
  when (bool_decide (msg_Type msg = INIT)) (shimSpawn CallInit msg) ;; mret e.

Definition enterTransactionState (msg : ChaincodeMessage) (e : shimEvent) : Sm shimEvent :=
  when (bool_decide (msg_Type msg = TRANSACTION)) (shimSpawn CallInvoke msg) ;; mret e.

Definition beforeQuery (msg : ChaincodeMessage) (e : shimEvent) : Sm shimEvent := shimSpawn CallQuery msg ;; mret e.

Definition afterResponse (msg : ChaincodeMessage) (e : shimEvent) : Sm shimEvent := sendChannel msg ;; mret e.

Definition afterError (msg : ChaincodeMessage) (e : shimEvent) : Sm shimEvent := sendChannel msg ;; mret e.

Definition shimCallbacks (k : cKey ChaincodeMessageType shimState) : option (ChaincodeMessage -> shimEvent -> Sm shimEvent) :=
  match k with
  | after_event (Some RESPONSE) => Some afterResponse
  | after_event (Some ERROR) => Some afterError
  | enter_state (Some shimInit) => Some shimEnterInit
  | enter_state (Some shimTransaction) => Some enterTransactionState
  | before_event (Some QUERY) => Some beforeQuery
  | _ => None
  end.

(** [handleMessage]: [true] stands for an error. *)
Definition handleMessage (msg : ChaincodeMessage) : Sm bool :=
  h ← get;
  if Cannot shimEvents (msg_Type msg) h then
    shimSend (ccMessage ERROR (text CannotHandle) (msg_Uuid msg)) ;; mret true
  else
    err ← fsm_Event shimEvents shimCallbacks (msg_Type msg) msg;
    mret (filterError err).

(** ** Requests *)

(** The requests that are refused in a query. *)
Definition needsTransaction (req : stubRequest) : bool :=
  match req with StubPutState _ _ | StubDelState _ | StubInvokeChaincode _ _ _ => true | _ => false end.

Definition specFor (name function : bytes) (args : list bytes) : ChaincodeSpec :=
  mkChaincodeSpec (Some (mkChaincodeID [] name)) (function, args).

(** The message that the [handle] function of a request sends. *)
Definition requestMsg (req : stubRequest) (uuid : bytes) : result ChaincodeMessage :=
  let packed ty payload := match payload with Err => Err | Ok payload => Ok (ccMessage ty payload uuid) end in
  match req with
  | StubGetState key => Ok (ccMessage GET_STATE key uuid)
  | StubPutState key value => packed PUT_STATE (marshalPutStateInfo (key, value))
  | StubDelState key => Ok (ccMessage DEL_STATE key uuid)
  | StubRangeQueryState startKey endKey => packed RANGE_QUERY_STATE (marshalRangeQueryState (startKey, endKey))
  | StubRangeQueryStateNext id => packed RANGE_QUERY_STATE_NEXT (marshalRangeQueryStateNext id)
  | StubRangeQueryStateClose id => packed RANGE_QUERY_STATE_CLOSE (marshalRangeQueryStateClose id)
  | StubInvokeChaincode name function args => packed INVOKE_CHAINCODE (marshalChaincodeSpec (specFor name function args))
  | StubQueryChaincode name function args => packed INVOKE_QUERY (marshalChaincodeSpec (specFor name function args))
  end.

(** What it makes of the answer. *)
Definition replyOf (req : stubRequest) (responseMsg : ChaincodeMessage) : result stubReply :=
  match msg_Type responseMsg with
  | RESPONSE =>
    match req with
    | StubGetState _ | StubInvokeChaincode _ _ _ | StubQueryChaincode _ _ _ => Ok (ReplyBytes (msg_Payload responseMsg))
    | StubPutState _ _ | StubDelState _ => Ok ReplyDone
    | StubRangeQueryState _ _ | StubRangeQueryStateNext _ | StubRangeQueryStateClose _ =>
      match unmarshalRangeQueryStateResponse (msg_Payload responseMsg) with
      | Ok r => Ok (ReplyRange r)
      | Err => Err
      end
    end
  | _ => Err
  end.

(** The first half of the [handle] functions, up to the point where they wait. *)
Definition beginRequest (req : stubRequest) (uuid : bytes) : Sm (result unit) :=
  h ← get;
  if needsTransaction req && negb (default false (s_isTransaction h !! uuid)) then mret Err else
  match requestMsg req uuid with
  | Err => mret Err
  | Ok msg =>
    created ← createChannel uuid;
    match created with
    | Err => mret Err
    | Ok _ =>
      err ← shimSend msg;
      if (err : bool) then deleteChannel uuid ;; mret Err else mret (Ok tt)
    end
  end.

(** ** Running the chaincode *)

Definition callChaincode (call : invocation) (msg : ChaincodeMessage) (input : bytes * list bytes) : stubRun :=
  let stub := mkChaincodeStub (msg_Uuid msg) (msg_SecurityContext msg) in
  match call with
  | CallInit => Init stub (fst input) (snd input)
  | CallInvoke => Invoke stub (fst input) (snd input)
  | CallQuery => Query stub (fst input) (snd input)
  end.

(** The end of [handleInit], [handleTransaction] and [handleQuery]. *)
Definition sendResult (call : invocation) (uuid : bytes) (res : result bytes) (failed : ccError) : Sm unit :=
  match call with
  | CallQuery =>
    shimSend (match res with
      | Ok b => ccMessage QUERY_COMPLETED b uuid
      | Err => ccMessage QUERY_ERROR (text failed) uuid
      end) ;; mret tt
  | _ =>
    shimTrigger (match res with Ok b => ccMessage COMPLETED b uuid | Err => ccMessage ERROR (text failed) uuid end) true
  end.

Definition setPC (i : nat) (g : goroutine) (pc : goroutinePC) : Sm unit :=
  modify (fun h => h <| s_goroutines := <[i := mkGoroutine (g_call g) (g_msg g) pc]> (s_goroutines h) |>).

(** A step of the [i]-th goroutine; one that waits takes none.  A panic of the chaincode ends
    the process. *)
Definition runGoroutine (i : nat) : Sm unit :=
  h ← get;
  match s_goroutines h !! i with
  | None => mret tt
  | Some g =>
    let uuid := msg_Uuid (g_msg g) in
    let exit := modify (fun h => h <| s_goroutines := delete i (s_goroutines h) |>) in
    match g_pc g with
    | PcStart =>
      match unmarshalChaincodeInput (msg_Payload (g_msg g)) with
      | Err => exit ;; sendResult (g_call g) uuid Err UnmarshalFailed
      | Ok input =>
        shimMark uuid (match g_call g with CallQuery => false | _ => true end) ;;
        setPC i g (PcRun (callChaincode (g_call g) (g_msg g) input))
      end
    | PcRun (StubReturn res) => exit ;; shimUnmark uuid ;; sendResult (g_call g) uuid res ChaincodeFailed
    | PcRun StubPanic => modify (fun h => h <| s_goroutines := [] |>) ;; modify (fun h => h <| s_ended := true |>)
    | PcRun (StubCall req k) =>
      begun ← beginRequest req uuid;
      setPC i g (match begun with Ok _ => PcWait req k | Err => PcRun (k Err) end)
    | PcWait _ _ => mret tt
    | PcGot req k msg => deleteChannel uuid ;; setPC i g (PcRun (k (replyOf req msg)))
    end
  end.

(** ** The stream *)

Definition shimEnd : Sm unit := modify (fun h => h <| s_ended := true |>).

(** [chatWithPeer] registers the chaincode. *)
Definition shimRegister (name : bytes) : Sm unit :=
  match marshalChaincodeID (mkChaincodeID [] name) with
  | Err => shimEnd
  | Ok payload => shimSend (ccMessage REGISTER payload []) ;; mret tt
  end.

(** A round of its loop with a message of the peer, or with the end of the stream. *)
Definition shimRecv (msg : option ChaincodeMessage) : Sm unit :=
  h ← get;
  if s_ended h then mret tt else
  match msg with
  | None => shimEnd
  | Some msg => err ← handleMessage msg; when err shimEnd
  end.

(** A round with what the [i]-th waiting goroutine sends on [nextState]. *)
Definition shimNext (i : nat) : Sm unit :=
  h ← get;
  if s_ended h then mret tt else
  match s_nextState h !! i with
  | None => mret tt
  | Some (mkNextStateInfo msg sendToCC) =>
    modify (fun h => h <| s_nextState := delete i (s_nextState h) |>) ;;
    err ← handleMessage msg;
    if (err : bool) then shimEnd
    else when sendToCC (err ← shimSend msg; when err shimEnd)
  end.
End shim.
