(* ===== verification/Conversation.v ===== *)
(** The conversation of a peer and a chaincode: both ends of the stream with what is on its way
    between them, and the steps they take, in any order. *)
From stdpp Require Import base gmap list.
From Stdlib Require Import ZArith Lia.
From S2P Require Import Prelude GoStd GoBytes LedgerUtil KVStore Blockchain Ledger ExecTransaction Fsm ChaincodeHandler ShimHandler.

(** * Schedules *)

Section schedules.
Context {C A : Type} (actions : C -> list A) (act : A -> C -> outcome C unit).

(** Whatever is scheduled, something with the property is reached: there is a step to take,
    and every step that can be taken succeeds and leads closer. *)
Inductive eventually (P : C -> Prop) (c : C) : Prop :=
| eventually_done : P c -> eventually P c
| eventually_step next : actions c <> [] -> (forall a, a ∈ actions c -> act a c = Done tt (next a)) ->
    (forall a, a ∈ actions c -> eventually P (next a)) -> eventually P c.

Lemma eventually_only a c c' P : actions c = [a] -> act a c = Done tt c' -> eventually P c' -> eventually P c.
Proof.
  intros Ha E Hc. apply (eventually_step P c (fun _ => c')); rewrite Ha; [done| |done]. by intros b ->%list_elem_of_singleton.
Qed.

Lemma eventually_bind P P' c : eventually P c -> (forall c', P c' -> eventually P' c') -> eventually P' c.
Proof. intros He Hp. induction He as [c Hc|c next Hn Ha _ IH]; [by apply Hp|]. by apply (eventually_step P' c next). Qed.
End schedules.

(** * The conversation *)

Record conversation (S Itr : Type) := mkConversation {
  peer : Handler S Itr;
  shim : ShimHandler
}.
Arguments mkConversation {S Itr}.
Arguments peer {S Itr}.
Arguments shim {S Itr}.

(** Rounds of the two loops, each with a message from the other end, with the end of the
    stream, or with what a goroutine sends; and steps of the goroutines. *)
Inductive action :=
| PeerRecv
| PeerEOF
| PeerNext (i : nat)
| PeerTask (i : nat)
| ShimRecv
| ShimEOF
| ShimNext (i : nat)
| ShimRun (i : nat).

Definition indices {A} (l : list A) : list nat := seq 0 (length l).

Definition waiting (g : goroutine) : bool := match g_pc g with PcWait _ _ => true | _ => false end.

Section conversation.
Context {S ID Itr : Type} `{!LedgerCalls S ID} `{!LedgerScans S Itr} `{Codec : !ChaincodeCodec} `{CC : !Chaincode}.
Context (secHelper : option SecHelper) (peerSendOk shimSendOk : nat -> bool) (GenerateUUID : nat -> bytes) (text : ccError -> bytes)
  (launchOther : ChaincodeSpec -> bytes -> TransactionType -> M S (result (bytes * list bytes)))
  (executeOther : bytes -> ChaincodeMessage -> M S (option ChaincodeMessage * bool)).

Abbreviation Conv := (conversation S Itr).

(** The goroutines of a chaincode end with its process. *)
Definition actions (c : Conv) : list action :=
  (if h_ended (peer c) then [] else
     match s_out (shim c) with
     | _ :: _ => [PeerRecv]
     | [] => if s_ended (shim c) then [PeerEOF] else []
     end ++ (PeerNext <$> indices (h_nextState (peer c)))) ++
  (PeerTask <$> indices (h_tasks (peer c))) ++
  (if s_ended (shim c) then [] else
     match h_out (peer c) with
     | _ :: _ => [ShimRecv]
     | [] => if h_ended (peer c) then [ShimEOF] else []
     end ++ (ShimNext <$> indices (s_nextState (shim c))) ++
     (ShimRun <$> List.filter (fun i => negb (from_option waiting true (s_goroutines (shim c) !! i)))
        (indices (s_goroutines (shim c))))).

Definition onPeer (m : M (Handler S Itr) unit) (c : Conv) : outcome Conv unit :=
  match m (peer c) with Done a h => Done a (mkConversation h (shim c)) | Panic => Panic | Diverge => Diverge end.

Definition onShim (m : M ShimHandler unit) (c : Conv) : outcome Conv unit :=
  match m (shim c) with Done a s => Done a (mkConversation (peer c) s) | Panic => Panic | Diverge => Diverge end.

Definition act (a : action) (c : Conv) : outcome Conv unit :=
  match a with
  | PeerRecv =>
    match s_out (shim c) with
    | [] => Done tt c
    | msg :: rest =>
      onPeer (streamRecv secHelper peerSendOk text (Some msg)) (mkConversation (peer c) ((shim c) <| s_out := rest |>))
    end
  | PeerEOF => onPeer (streamRecv secHelper peerSendOk text None) c
  | PeerNext i => onPeer (streamNext secHelper peerSendOk text i) c
  | PeerTask i => onPeer (runTask secHelper peerSendOk GenerateUUID text launchOther executeOther i) c
  | ShimRecv =>
    match h_out (peer c) with
    | [] => Done tt c
    | msg :: rest => onShim (shimRecv shimSendOk text (Some msg)) (mkConversation ((peer c) <| h_out := rest |>) (shim c))
    end
  | ShimEOF => onShim (shimRecv shimSendOk text None) c
  | ShimNext i => onShim (shimNext shimSendOk text i) c
  | ShimRun i => onShim (runGoroutine shimSendOk text i) c
  end.
End conversation.
