(* ===== verification/ConversationSteps.v ===== *)
(** The steps of a conversation of a peer and a chaincode that reads and writes keys: what the
    calls of such a chaincode do when they are made on the ledger directly, and what the two
    state machines and their goroutines do in each of the states that a run goes through. *)
From stdpp Require Import base gmap list.
From Stdlib Require Import ZArith Lia.
From S2P Require Import Prelude GoStd GoBytes LedgerUtil KVStore Blockchain Ledger ExecTransaction Fsm ChaincodeHandler ShimHandler.
From S2P Require Import Conversation.

(** * The calls of a chaincode, made directly *)

(** Chaincodes that read and write keys. *)
Fixpoint stateOnly (p : stubRun) : Prop :=
  match p with
  | StubReturn _ => True
  | StubCall (StubGetState _) k | StubCall (StubPutState _ _) k | StubCall (StubDelState _) k => forall r, stateOnly (k r)
  | _ => False
  end.

Section direct.
Context `{Codec : !ChaincodeCodec} (text : ccError -> bytes) (cid uuid : bytes) (isTx : bool).

(** The response when the chaincode returns: once a call has failed the shim does not accept
    the end of a transaction any more. *)
Definition respond (failed : bool) (res : result bytes) : ChaincodeMessage :=
  if isTx then
    if failed then ccMessage ERROR (text CannotHandle) uuid
    else match res with Ok b => ccMessage COMPLETED b uuid | Err => ccMessage ERROR (text ChaincodeFailed) uuid end
  else match res with Ok b => ccMessage QUERY_COMPLETED b uuid | Err => ccMessage QUERY_ERROR (text ChaincodeFailed) uuid end.

(** What a failed call of the ledger leads to: the first one in a transaction is reported to
    the chaincode, any other one ends the stream. *)
Definition afterFailure (failed : bool) (go : chaincodeRun (option ChaincodeMessage * bool)) : chaincodeRun (option ChaincodeMessage * bool) :=
  if isTx then if failed then RunReturn (Some (ccMessage ERROR (text CannotHandle) uuid), false) else go else RunReturn (None, false).

(** The effect of a chaincode, with the response, where [None] stands for no response at all,
    and whether the stream is still there.  [failed] is whether a call has failed. *)
Fixpoint direct (failed : bool) (p : stubRun) : chaincodeRun (option ChaincodeMessage * bool) :=
  match p with
  | StubReturn res => RunReturn (Some (respond failed res), negb (isTx && failed))
  | StubCall (StubGetState key) k =>
    RunGet cid key (negb isTx) (fun r =>
      match r with
      | Ok v => direct failed (k (Ok (ReplyBytes (default [] v))))
      | Err => afterFailure failed (direct true (k Err))
      end)
  | StubCall (StubPutState key value) k =>
    if negb isTx then direct failed (k Err) else
    match marshalPutStateInfo (key, value) with
    | Err => direct failed (k Err)
    | Ok _ =>
      RunPut cid key (sliceOf value) (fun r =>
        match r with
        | Ok _ => direct failed (k (Ok ReplyDone))
        | Err => afterFailure failed (direct true (k Err))
        end)
    end
  | StubCall (StubDelState key) k =>
    if negb isTx then direct failed (k Err) else
    RunDelete cid key (fun r =>
      match r with
      | Ok _ => direct failed (k (Ok ReplyDone))
      | Err => afterFailure failed (direct true (k Err))
      end)
  | _ => RunReturn (None, false)
  end.
End direct.

(** * Steps of the peer *)

Section peer_steps.
Context {S ID Itr : Type} `{!LedgerCalls S ID} `{!LedgerScans S Itr} `{Codec : !ChaincodeCodec}.
Context (GenerateUUID : nat -> bytes) (text : ccError -> bytes)
  (launchOther : ChaincodeSpec -> bytes -> TransactionType -> M S (result (bytes * list bytes)))
  (executeOther : bytes -> ChaincodeMessage -> M S (option ChaincodeMessage * bool)).

(** Streams that do not fail, and no security helper. *)
Abbreviation sends := (fun _ : nat => true).
Abbreviation recv := (streamRecv (S := S) (Itr := Itr) None sends text).
Abbreviation next := (streamNext (S := S) (Itr := Itr) None sends text).
Abbreviation task_ := (runTask (Itr := Itr) None sends GenerateUUID text launchOther executeOther).

Implicit Types h : Handler S Itr.

Lemma recv_get h q msg : h_FSM h = mkFSM q false -> q = readystate \/ q = transactionstate -> msg_Type msg = GET_STATE ->
  h_ended h = false -> recv (Some msg) h = Done tt (h <| h_tasks := h_tasks h ++ [mkTask TaskGetState msg false] |>).
Proof. destruct h, msg; cbn. intros -> [-> | ->] -> ->; reflexivity. Qed.

Lemma recv_write h msg : h_FSM h = mkFSM transactionstate false -> msg_Type msg = PUT_STATE \/ msg_Type msg = DEL_STATE ->
  h_ended h = false -> recv (Some msg) h =
    Done tt (h <| h_FSM := mkFSM busyxactstate false |> <| h_tasks := h_tasks h ++ [mkTask TaskBusy msg false] |>).
Proof. destruct h, msg; cbn. intros -> [-> | ->] ->; reflexivity. Qed.

Lemma next_answer h msg : h_FSM h = mkFSM busyxactstate false -> msg_Type msg = RESPONSE \/ msg_Type msg = ERROR ->
  h_ended h = false -> h_nextState h = [mkNextStateInfo msg true] -> next 0 h =
    Done tt (h <| h_FSM := mkFSM transactionstate false |> <| h_nextState := [] |> <| h_out := h_out h ++ [msg] |>
      <| h_sends := Datatypes.S (h_sends h) |>).
Proof. destruct h, msg; cbn. intros -> [-> | ->] -> ->; reflexivity. Qed.

Lemma next_transaction h msg : h_FSM h = mkFSM readystate false -> msg_Type msg = TRANSACTION -> h_ended h = false ->
  h_nextState h = [mkNextStateInfo msg true] -> next 0 h =
    Done tt (h <| h_FSM := mkFSM transactionstate false |> <| h_nextState := [] |> <| h_out := h_out h ++ [msg] |>
      <| h_sends := Datatypes.S (h_sends h) |>).
Proof. destruct h, msg; cbn. intros -> -> -> ->; reflexivity. Qed.


Lemma notify_ok h msg ctx : getTxContext (msg_Uuid msg) h = Some ctx -> responseNotifier ctx = [] ->
  notify msg h = Done tt (h <| h_txCtxs := insert (msg_Uuid msg) (ctx <| responseNotifier := [msg] |>) <$> h_txCtxs h |>).
Proof. intros Hc Hn. unfold notify. cbv [mbind M_bind get]. by rewrite Hc, Hn. Qed.

(** The end of a transaction. *)
Lemma recv_end h msg ctx : h_FSM h = mkFSM transactionstate false -> msg_Type msg = COMPLETED \/ msg_Type msg = ERROR ->
  h_ended h = false -> getTxContext (msg_Uuid msg) h = Some ctx -> responseNotifier ctx = [] ->
  recv (Some msg) h = Done tt (h <| h_FSM := mkFSM readystate false |>
    <| h_isTransaction := delete (msg_Uuid msg) <$> h_isTransaction h |>
    <| h_txCtxs := insert (msg_Uuid msg) (ctx <| responseNotifier := [msg] |>) <$> h_txCtxs h |>).
Proof.
  intros Hf Ht He Hc Hn. unfold streamRecv. cbv [mbind M_bind get]. rewrite He. unfold HandleMessage. cbv [mbind M_bind get].
  assert (forall ty, ty = COMPLETED \/ ty = ERROR -> Cannot handlerEvents ty h = false /\
    transitions handlerEvents ty transactionstate = Some readystate) as Hty.
  { intros ty [-> | ->]; (split; [|reflexivity]); unfold Cannot, Can; cbn; rewrite Hf; reflexivity. }
  destruct (Hty _ Ht) as [Hcan Htr].
  assert (fsm_Event handlerEvents (handlerCallbacks (S := S) (Itr := Itr) sends text) (msg_Type msg) msg h = Done fsmOk
    (h <| h_FSM := mkFSM readystate false |> <| h_isTransaction := delete (msg_Uuid msg) <$> h_isTransaction h |>
       <| h_txCtxs := insert (msg_Uuid msg) (ctx <| responseNotifier := [msg] |>) <$> h_txCtxs h |>)) as E.
  { erewrite fsm_Event_moves; [| | |exact Hf|exact Htr|done|..]; [|try reflexivity..]; [|by destruct Ht as [-> | ->]].
    unfold enterStateCallbacks, afterEventCallbacks, callback. cbv [mbind M_bind get]. cbn [setFSM getFSM Handler_HasFSM].
    change (f_current (h_FSM (h <| h_FSM := mkFSM readystate true |>))) with readystate. cbn [handlerCallbacks].
    unfold enterReadyState, deleteIsTransaction. cbv [mbind M_bind get modify mret M_ret]. cbn [e_Event].
    erewrite notify_ok; [|exact Hc|exact Hn]. by destruct Ht as [-> | ->]. }
  destruct Ht as [Ht|Ht]; rewrite Ht in *; by rewrite Hcan, E.
Qed.

(** The end of a query. *)
Lemma recv_query_end h msg ctx : msg_Type msg = QUERY_COMPLETED \/ msg_Type msg = QUERY_ERROR ->
  h_ended h = false -> getTxContext (msg_Uuid msg) h = Some ctx -> responseNotifier ctx = [] ->
  recv (Some msg) h = Done tt (h <| h_isTransaction := delete (msg_Uuid msg) <$> h_isTransaction h |>
    <| h_txCtxs := insert (msg_Uuid msg) (ctx <| responseNotifier := [msg] |>) <$> h_txCtxs h |>).
Proof.
  intros Ht He Hc Hn. unfold streamRecv. cbv [mbind M_bind get]. rewrite He. unfold HandleMessage, deleteIsTransaction.
  cbv [mbind M_bind get modify]. destruct msg as [ty pl mu sc]. cbn [msg_Type msg_Uuid msg_Payload msg_SecurityContext] in *.
  destruct Ht as [-> | ->]; cbn [encrypt encryptOrDecrypt]; erewrite notify_ok; [|exact Hc|exact Hn| |exact Hc|exact Hn]; reflexivity.
Qed.

(** An error message to an idle handler ends the stream. *)
Lemma recv_stray h msg : h_FSM h = mkFSM readystate false -> msg_Type msg = ERROR -> h_ended h = false ->
  exists h', recv (Some msg) h = Done tt h' /\ h_ended h' = true /\ h_ledger_ h' = h_ledger_ h /\ h_txCtxs h' = h_txCtxs h.
Proof. destruct h, msg; cbn. intros -> -> ->. destruct h_registered; eexists; (split; [reflexivity|done]). Qed.

(** ** Goroutines *)

Lemma task_start h k msg um : h_tasks h = [mkTask k msg false] -> h_uuidMap h = Some um -> msg_Uuid msg ∉ um ->
  (k = TaskBusy -> getIsTransaction (msg_Uuid msg) h = true) ->
  task_ 0 h = Done tt (h <| h_uuidMap := Some ({[msg_Uuid msg]} ∪ um) |> <| h_tasks := [mkTask k msg true] |>).
Proof.
  intros Ht Hu Hn Hb. unfold runTask. cbv [mbind M_bind get]. rewrite Ht. cbn [lookup list_lookup].
  replace (bool_decide (k = TaskBusy) && negb (getIsTransaction (msg_Uuid msg) h)) with false.
  2: { case_bool_decide; [by rewrite Hb|done]. }
  unfold createUUIDEntry. cbv [mbind M_bind get modify mret M_ret]. rewrite Hu, bool_decide_eq_false_2 by done. cbn. by rewrite Ht.
Qed.

Lemma task_get h msg c l r : h_tasks h = [mkTask TaskGetState msg true] -> h_ChaincodeID h = Some c ->
  callGetState (cid_Name c) (msg_Payload msg) (negb (getIsTransaction (msg_Uuid msg) h)) (h_ledger_ h) = Done r l ->
  task_ 0 h = Done tt (h <| h_tasks := [] |> <| h_ledger_ := l |>
    <| h_uuidMap := (fun m => m ∖ {[msg_Uuid msg]}) <$> h_uuidMap h |> <| h_sends := Datatypes.S (h_sends h) |>
    <| h_out := h_out h ++ [match r with Ok v => responseMsg msg (default [] v) | Err => errorMsg text msg LedgerFailed end] |>).
Proof.
  destruct h; cbn. intros -> -> E. unfold runTask, serve, handleGetState, chaincodeName, onLedger_. cbv [mbind M_bind get modify mret M_ret]. cbn.
  match goal with |- context [callGetState ?a ?b ?c ?d] => replace (callGetState a b c d) with (Done r l) by (symmetry; exact E) end.
  by destruct r.
Qed.

(** What a write does with the ledger. *)
Definition writeOf (msg : ChaincodeMessage) (cid : bytes) : option (M S (result unit)) :=
  match msg_Type msg with
  | PUT_STATE =>
    match unmarshalPutStateInfo (msg_Payload msg) with
    | Ok (key, value) => Some (callSetState cid key (sliceOf value))
    | Err => None
    end
  | DEL_STATE => Some (callDeleteState cid (msg_Payload msg))
  | _ => None
  end.

Lemma task_write h msg c m l r : h_tasks h = [mkTask TaskBusy msg true] -> h_ChaincodeID h = Some c ->
  writeOf msg (cid_Name c) = Some m -> m (h_ledger_ h) = Done r l -> exists writes,
  task_ 0 h = Done tt (h <| h_tasks := [] |> <| h_ledger_ := l |> <| h_writes := writes |>
    <| h_uuidMap := (fun m => m ∖ {[msg_Uuid msg]}) <$> h_uuidMap h |>
    <| h_nextState := h_nextState h ++ [mkNextStateInfo
        (match r with Ok _ => responseMsg msg [] | Err => errorMsg text msg LedgerFailed end) true] |>).
Proof.
  destruct h, msg as [ty pl mu sc]; cbn. intros -> -> Hw E. unfold writeOf in Hw. cbn in Hw.
  unfold runTask, serve, enterBusyState, chaincodeName, busyPutState, busyDelState, recordWrite, onLedger_, encrypt, encryptOrDecrypt.
  cbv [mbind M_bind get modify mret M_ret]. cbn. destruct ty; try done.
  - destruct (unmarshalPutStateInfo pl) as [[key value]|] eqn:Eu; [|done]. injection Hw as <-. cbn. rewrite E.
    eexists. by destruct r.
  - injection Hw as <-. cbn. rewrite E. eexists. by destruct r.
Qed.
End peer_steps.

(** * Steps of the shim *)

Section shim_steps.
Context `{Codec : !ChaincodeCodec} `{CC : !Chaincode} (text : ccError -> bytes).

Abbreviation sends := (fun _ : nat => true).
Abbreviation recv := (shimRecv sends text).
Abbreviation next := (shimNext sends text).
Abbreviation run := (runGoroutine sends text).

Implicit Types s : ShimHandler.

Lemma shim_recv_transaction s msg : s_FSM s = mkFSM shimReady false -> msg_Type msg = TRANSACTION -> s_ended s = false ->
  recv (Some msg) s = Done tt (s <| s_FSM := mkFSM shimTransaction false |>
    <| s_goroutines := s_goroutines s ++ [mkGoroutine CallInvoke msg PcStart] |>).
Proof. destruct s as [f rc im ns gs out sn en], msg; cbn. intros -> -> ->. reflexivity. Qed.

Lemma shim_recv_query s msg q : s_FSM s = mkFSM q false -> q = shimReady \/ q = shimTransaction -> msg_Type msg = QUERY -> s_ended s = false ->
  recv (Some msg) s = Done tt (s <| s_goroutines := s_goroutines s ++ [mkGoroutine CallQuery msg PcStart] |>).
Proof. destruct s as [f rc im ns gs out sn en], msg; cbn. intros -> [-> | ->] -> ->; reflexivity. Qed.

Lemma sendChannel_ok s msg call gm req k : msg_Uuid msg ∈ s_responseChannel s -> s_goroutines s = [mkGoroutine call gm (PcWait req k)] ->
  msg_Uuid gm = msg_Uuid msg -> sendChannel msg s = Done tt (s <| s_goroutines := [mkGoroutine call gm (PcGot req k msg)] |>).
Proof.
  intros Hc Hg Hu. unfold sendChannel. cbv [mbind M_bind get modify]. rewrite bool_decide_eq_true_2 by done. cbn [negb].
  rewrite Hg. cbn. destruct (decide _) as [_|Hn]; [cbn; by rewrite Hg|]. destruct Hn. unfold waitsOn. cbn. by rewrite bool_decide_eq_true_2.
Qed.

Lemma shim_recv_response s msg q call gm req k : s_FSM s = mkFSM q false -> q = shimReady \/ q = shimTransaction -> msg_Type msg = RESPONSE ->
  s_ended s = false -> msg_Uuid msg ∈ s_responseChannel s -> s_goroutines s = [mkGoroutine call gm (PcWait req k)] -> msg_Uuid gm = msg_Uuid msg ->
  recv (Some msg) s = Done tt (s <| s_goroutines := [mkGoroutine call gm (PcGot req k msg)] |>).
Proof.
  intros Hf Hq Ht He Hc Hg Hu. unfold shimRecv. cbv [mbind M_bind get]. rewrite He. unfold handleMessage. cbv [mbind M_bind get]. rewrite Ht.
  assert (Cannot shimEvents RESPONSE s = false) as -> by (unfold Cannot, Can; cbn; rewrite Hf; by destruct Hq as [-> | ->]).
  erewrite fsm_Event_stays; [|exact Hf|by destruct Hq as [-> | ->]|reflexivity..].
  unfold afterEventCallbacks, callback. cbn [e_Event shimCallbacks]. unfold afterResponse. cbv [mbind M_bind get mret M_ret].
  erewrite sendChannel_ok by eassumption. reflexivity.
Qed.

(** Entering the ready state has no callback. *)
Lemma shim_becomes_ready s msg ev : s_FSM s = mkFSM shimTransaction false -> ev = COMPLETED \/ ev = ERROR ->
  fsm_Event shimEvents shimCallbacks ev msg s =
  ((if decide (ev = ERROR) then sendChannel msg else mret tt) ;; setTransition false ;; mret fsmOk) (s <| s_FSM := mkFSM shimReady true |>).
Proof.
  intros Hf Hev. destruct s; cbn in Hf; subst.
  assert (forall e s', enterStateCallbacks shimCallbacks msg e (setFSM (mkFSM shimReady true) s') = Done e (setFSM (mkFSM shimReady true) s')) as He by reflexivity.
  erewrite fsm_Event_moves; [|reflexivity|reflexivity|reflexivity|by destruct Hev as [-> | ->]|done|by destruct Hev as [-> | ->]|reflexivity..].
  cbv [mbind M_bind mret M_ret]. rewrite He. unfold afterEventCallbacks, callback. cbv [mbind M_bind mret M_ret].
  destruct Hev as [-> | ->]; cbn [e_Event shimCallbacks]; [reflexivity|]. unfold afterError. cbv [mbind M_bind mret M_ret].
  change (setFSM (mkFSM shimReady true) ?x) with (x <| s_FSM := mkFSM shimReady true |>).
  rewrite decide_True by done. by destruct (sendChannel msg _).
Qed.

(** The first error in a transaction. *)
Lemma shim_recv_error s msg call gm req k : s_FSM s = mkFSM shimTransaction false -> msg_Type msg = ERROR ->
  s_ended s = false -> msg_Uuid msg ∈ s_responseChannel s -> s_goroutines s = [mkGoroutine call gm (PcWait req k)] -> msg_Uuid gm = msg_Uuid msg ->
  recv (Some msg) s = Done tt (s <| s_FSM := mkFSM shimReady false |> <| s_goroutines := [mkGoroutine call gm (PcGot req k msg)] |>).
Proof.
  intros Hf Ht He Hc Hg Hu. unfold shimRecv. cbv [mbind M_bind get]. rewrite He. unfold handleMessage. cbv [mbind M_bind get]. rewrite Ht.
  assert (Cannot shimEvents ERROR s = false) as -> by (unfold Cannot, Can; cbn; by rewrite Hf).
  rewrite shim_becomes_ready by (done || by right). rewrite decide_True by done. cbv [mbind M_bind mret M_ret].
  erewrite sendChannel_ok; [reflexivity|exact Hc|exact Hg|exact Hu].
Qed.

(** An error that the state machine has no transition for. *)
Lemma shim_recv_stray s msg : s_FSM s = mkFSM shimReady false -> msg_Type msg = ERROR -> s_ended s = false ->
  recv (Some msg) s = Done tt (s <| s_out := s_out s ++ [ccMessage ERROR (text CannotHandle) (msg_Uuid msg)] |>
    <| s_sends := S (s_sends s) |> <| s_ended := true |>).
Proof. destruct s as [f rc im ns gs out sn en], msg; cbn. intros -> -> ->. reflexivity. Qed.

Lemma shim_next_end s msg : s_FSM s = mkFSM shimTransaction false -> msg_Type msg = COMPLETED \/ msg_Type msg = ERROR ->
  s_ended s = false -> s_nextState s = [mkNextStateInfo msg true] -> msg_Uuid msg ∉ s_responseChannel s ->
  next 0 s = Done tt (s <| s_FSM := mkFSM shimReady false |> <| s_nextState := [] |> <| s_out := s_out s ++ [msg] |>
    <| s_sends := S (s_sends s) |>).
Proof.
  intros Hf Ht He Hn Hc. unfold shimNext. cbv [mbind M_bind get modify]. rewrite He, Hn. cbn [lookup list_lookup].
  unfold handleMessage. cbv [mbind M_bind get].
  set (s1 := s <| s_nextState := delete 0%nat (s_nextState s) |>).
  assert (fsm_Event shimEvents shimCallbacks (msg_Type msg) msg s1 = Done fsmOk (s1 <| s_FSM := mkFSM shimReady false |>)) as E.
  { rewrite shim_becomes_ready by done. cbv [mbind M_bind mret M_ret]. destruct (decide _); [|reflexivity].
    unfold sendChannel. cbv [mbind M_bind get mret M_ret]. by rewrite bool_decide_eq_false_2. }
  assert (Cannot shimEvents (msg_Type msg) s1 = false) as -> by (unfold Cannot, Can; cbn; rewrite Hf; by destruct Ht as [-> | ->]).
  rewrite E. cbn. subst s1. cbn. by rewrite Hn.
Qed.

(** The end of a transaction in which a call has failed. *)
Lemma shim_next_stray s msg : s_FSM s = mkFSM shimReady false -> msg_Type msg = COMPLETED \/ msg_Type msg = ERROR ->
  s_ended s = false -> s_nextState s = [mkNextStateInfo msg true] ->
  next 0 s = Done tt (s <| s_nextState := [] |> <| s_out := s_out s ++ [ccMessage ERROR (text CannotHandle) (msg_Uuid msg)] |>
    <| s_sends := S (s_sends s) |> <| s_ended := true |>).
Proof. destruct s as [f rc im ns gs out sn en], msg; cbn. intros -> [-> | ->] -> ->; reflexivity. Qed.

(** ** Goroutines *)

Lemma run_start s call msg input : s_goroutines s = [mkGoroutine call msg PcStart] -> unmarshalChaincodeInput (msg_Payload msg) = Ok input ->
  run 0 s = Done tt (s <| s_isTransaction := <[msg_Uuid msg := match call with CallQuery => false | _ => true end]> (s_isTransaction s) |>
    <| s_goroutines := [mkGoroutine call msg (PcRun (callChaincode call msg input))] |>).
Proof. destruct s as [f rc im ns gs out sn en]; cbn. intros -> E. unfold runGoroutine. cbv [mbind M_bind get modify]. cbn. by rewrite E. Qed.

Lemma run_request s call msg req k m : s_goroutines s = [mkGoroutine call msg (PcRun (StubCall req k))] ->
  needsTransaction req && negb (default false (s_isTransaction s !! msg_Uuid msg)) = false ->
  requestMsg req (msg_Uuid msg) = Ok m -> msg_Uuid msg ∉ s_responseChannel s ->
  run 0 s = Done tt (s <| s_responseChannel := {[msg_Uuid msg]} ∪ s_responseChannel s |> <| s_out := s_out s ++ [m] |>
    <| s_sends := S (s_sends s) |> <| s_goroutines := [mkGoroutine call msg (PcWait req k)] |>).
Proof.
  destruct s as [f rc im ns gs out sn en]; cbn. intros -> Hn E Hc. unfold runGoroutine. cbv [mbind M_bind get modify]. cbn [s_goroutines lookup list_lookup g_pc g_msg g_call].
  unfold beginRequest, createChannel. cbv [mbind M_bind get modify mret M_ret]. cbn [s_isTransaction]. rewrite Hn, E. cbn [s_responseChannel].
  rewrite bool_decide_eq_false_2 by done. reflexivity.
Qed.

Lemma run_refused s call msg req k : s_goroutines s = [mkGoroutine call msg (PcRun (StubCall req k))] ->
  needsTransaction req && negb (default false (s_isTransaction s !! msg_Uuid msg)) = true \/ requestMsg req (msg_Uuid msg) = Err ->
  run 0 s = Done tt (s <| s_goroutines := [mkGoroutine call msg (PcRun (k Err))] |>).
Proof.
  destruct s as [f rc im ns gs out sn en]; cbn. intros -> Hn. unfold runGoroutine. cbv [mbind M_bind get modify]. cbn [s_goroutines lookup list_lookup g_pc g_msg g_call].
  unfold beginRequest. cbv [mbind M_bind get mret M_ret]. cbn [s_isTransaction].
  destruct (_ && _); [reflexivity|]. destruct Hn as [Hn|Hn]; [done|]. by rewrite Hn.
Qed.

Lemma run_got s call msg req k m : s_goroutines s = [mkGoroutine call msg (PcGot req k m)] ->
  run 0 s = Done tt (s <| s_responseChannel := s_responseChannel s ∖ {[msg_Uuid msg]} |>
    <| s_goroutines := [mkGoroutine call msg (PcRun (k (replyOf req m)))] |>).
Proof. destruct s as [f rc im ns gs out sn en]; cbn. intros ->. reflexivity. Qed.

Lemma run_return s call msg res : s_goroutines s = [mkGoroutine call msg (PcRun (StubReturn res))] ->
  run 0 s = Done tt (let s := s <| s_goroutines := [] |> <| s_isTransaction := delete (msg_Uuid msg) (s_isTransaction s) |> in
    match call with
    | CallQuery => s <| s_out := s_out s ++ [respond text (msg_Uuid msg) false false res] |> <| s_sends := S (s_sends s) |>
    | _ => s <| s_nextState := s_nextState s ++ [mkNextStateInfo (respond text (msg_Uuid msg) true false res) true] |>
    end).
Proof. destruct s as [f rc im ns gs out sn en]; cbn. intros ->. destruct call, res; reflexivity. Qed.
End shim_steps.
