(* ===== verification/ConversationTheorems.v ===== *)
(** What the conversation of a peer and a chaincode computes: running a chaincode through the
    two state machines, in whatever order their threads are scheduled, has the effect on the
    ledger and gives the response of its calls made on the ledger directly. *)
From stdpp Require Import base gmap list.
From Stdlib Require Import ZArith Lia.
From Stdlib Require Import Strings.Byte.
From S2P Require Import Prelude GoStd GoBytes LedgerUtil KVStore Blockchain Ledger ExecTransaction Fsm ChaincodeHandler ShimHandler.
From S2P Require Import Conversation ConversationSteps Replicas.

(** * Runs *)

Section runs.
Context {S ID Itr : Type} `{!LedgerCalls S ID} `{!LedgerScans S Itr} `{Codec : !ChaincodeCodec} `{CC : !Chaincode}.
Context (GenerateUUID : nat -> bytes) (text : ccError -> bytes)
  (launchOther : ChaincodeSpec -> bytes -> TransactionType -> M S (result (bytes * list bytes)))
  (executeOther : bytes -> ChaincodeMessage -> M S (option ChaincodeMessage * bool)).

(** Streams that do not fail, and no security helper. *)
Abbreviation sends := (fun _ : nat => true).
Abbreviation acts := (act None sends sends GenerateUUID text launchOther executeOther).
Abbreviation leadsTo := (eventually (actions (S := S) (Itr := Itr)) acts).

Context (cid : ChaincodeID) (u : bytes) (ctxs : gmap bytes (transactionContext Itr)).

Implicit Types (h : Handler S Itr) (s : ShimHandler).

(** The peer serves the run of [u]: its state, the ledger, its goroutines, what they send on
    [nextState], what is on its way to the shim, and the uuids that are served. *)
Record peerIn (q : handlerState) (isTx : bool) (l : S) (tasks : list task) (next : list nextStateInfo) (out : list ChaincodeMessage)
    (um : gset bytes) h : Prop := mkPeerIn {
  pi_FSM : h_FSM h = mkFSM q false;
  pi_cid : h_ChaincodeID h = Some cid;
  pi_ctx : exists ctx, h_txCtxs h = Some (<[u := ctx]> ctxs) /\ responseNotifier ctx = [];
  pi_um : h_uuidMap h = Some um;
  pi_im : exists im, h_isTransaction h = Some im /\ im !! u = Some isTx;
  pi_ledger : h_ledger_ h = l;
  pi_tasks : h_tasks h = tasks;
  pi_next : h_nextState h = next;
  pi_out : h_out h = out;
  pi_ended : h_ended h = false
}.

(** The shim runs the chaincode for [u]. *)
Record shimIn (q : shimState) (isTx : bool) (rc : gset bytes) (g : goroutine) (out : list ChaincodeMessage) s : Prop := mkShimIn {
  si_FSM : s_FSM s = mkFSM q false;
  si_im : s_isTransaction s !! u = Some isTx;
  si_rc : s_responseChannel s = rc;
  si_next : s_nextState s = [];
  si_goroutines : s_goroutines s = [g];
  si_out : s_out s = out;
  si_ended : s_ended s = false
}.

(** The peer waits for the chaincode; [out] is on its way to the shim. *)
Definition peerAt (isTx : bool) (l : S) (out : list ChaincodeMessage) h : Prop :=
  peerIn (if isTx then transactionstate else readystate) isTx l [] [] out ∅ h.

(** In a transaction the shim is in the state of one until a call fails. *)
Definition shimQ (isTx failed : bool) : shimState := if isTx && negb failed then shimTransaction else shimReady.

Definition shimAt (isTx failed : bool) (g : goroutine) s : Prop := shimIn (shimQ isTx failed) isTx ∅ g [] s.

(** It waits for an answer; [out] is on its way to the peer. *)
Definition shimWaits (isTx failed : bool) (g : goroutine) (out : list ChaincodeMessage) s : Prop :=
  shimIn (shimQ isTx failed) isTx ({[u]} ∪ ∅) g out s.

(** The peer and the chaincode have nothing to do; the ledger is [l], and [ctxs] are the
    contexts of others. *)
Record idle (l : S) (c : conversation S Itr) : Prop := mkIdle {
  id_FSM : h_FSM (peer c) = mkFSM readystate false;
  id_cid : h_ChaincodeID (peer c) = Some cid;
  id_ctxs : h_txCtxs (peer c) = Some ctxs;
  id_um : h_uuidMap (peer c) = Some ∅;
  id_im : is_Some (h_isTransaction (peer c));
  id_ledger : h_ledger_ (peer c) = l;
  id_tasks : h_tasks (peer c) = [];
  id_next : h_nextState (peer c) = [];
  id_out : h_out (peer c) = [];
  id_ended : h_ended (peer c) = false;
  id_sFSM : s_FSM (shim c) = mkFSM shimReady false;
  id_rc : s_responseChannel (shim c) = ∅;
  id_snext : s_nextState (shim c) = [];
  id_goroutines : s_goroutines (shim c) = [];
  id_sout : s_out (shim c) = [];
  id_sended : s_ended (shim c) = false
}.

(** The response is there for the caller to take, or there is none and the caller has its
    timeout.  If the stream is still there both ends are idle again. *)
Definition answered (r : option ChaincodeMessage * bool) (l : S) (c : conversation S Itr) : Prop :=
  exists h' failed, takeResponse u (match fst r with Some _ => false | None => true end) (peer c) = Done (fst r, failed) h' /\ h_ledger_ h' = l /\
  if snd r then idle l (mkConversation h' (shim c)) else s_ended (shim c) = true.

(** ** Steps of the conversation *)

Lemma act_peer a c m h : (forall c, acts a c = onPeer m c) -> m (peer c) = Done tt h -> acts a c = Done tt (mkConversation h (shim c)).
Proof. intros Ha E. rewrite Ha. unfold onPeer. by rewrite E. Qed.

Lemma act_shim a c m s : (forall c, acts a c = onShim m c) -> m (shim c) = Done tt s -> acts a c = Done tt (mkConversation (peer c) s).
Proof. intros Ha E. rewrite Ha. unfold onShim. by rewrite E. Qed.

Lemma act_peer_recv c msg rest h : s_out (shim c) = msg :: rest -> streamRecv None sends text (Some msg) (peer c) = Done tt h ->
  acts PeerRecv c = Done tt (mkConversation h ((shim c) <| s_out := rest |>)).
Proof. intros Ho E. unfold act. rewrite Ho. unfold onPeer. cbn [peer shim]. by rewrite E. Qed.

Lemma act_shim_recv c msg rest s : h_out (peer c) = msg :: rest -> shimRecv sends text (Some msg) (shim c) = Done tt s ->
  acts ShimRecv c = Done tt (mkConversation ((peer c) <| h_out := rest |>) s).
Proof. intros Ho E. unfold act. rewrite Ho. unfold onShim. cbn [peer shim]. by rewrite E. Qed.

(** What is scheduled depends on these fields. *)
Lemma actions_eq h s he hn ht ho se sn sg so : h_ended h = he -> h_nextState h = hn -> h_tasks h = ht -> h_out h = ho ->
  s_ended s = se -> s_nextState s = sn -> s_goroutines s = sg -> s_out s = so ->
  actions (mkConversation h s) =
    (if he then [] else match so with _ :: _ => [PeerRecv] | [] => if se then [PeerEOF] else [] end ++ (PeerNext <$> indices hn)) ++
    (PeerTask <$> indices ht) ++
    (if se then [] else match ho with _ :: _ => [ShimRecv] | [] => if he then [ShimEOF] else [] end ++ (ShimNext <$> indices sn) ++
      (ShimRun <$> List.filter (fun i => negb (from_option waiting true (sg !! i))) (indices sg))).
Proof. by intros <- <- <- <- <- <- <- <-. Qed.

Lemma removed : ({[u]} ∪ ∅ : gset bytes) ∖ {[u]} = ∅.
Proof. apply leibniz_equiv. intros x. rewrite elem_of_difference, elem_of_union, elem_of_singleton. split; [intros [[?|?] ?]|intros []%not_elem_of_empty]; done. Qed.

Ltac scheduled := erewrite actions_eq by eassumption; reflexivity.

(** A step of the only thread that can take one. *)
Ltac peerTakes a := eapply (eventually_only _ _ a); [scheduled | eapply act_peer; [reflexivity|]; cbn [peer] | cbn [shim]].
Ltac shimTakes a := eapply (eventually_only _ _ a); [scheduled | eapply act_shim; [reflexivity|]; cbn [shim] | cbn [peer]].
Ltac peerGets := eapply (eventually_only _ _ PeerRecv); [scheduled | eapply act_peer_recv; [eassumption|]; cbn [peer] | cbn [shim]].
Ltac shimGets := eapply (eventually_only _ _ ShimRecv); [scheduled | eapply act_shim_recv; [eassumption|]; cbn [shim] | cbn [peer]].

(** ** Requests *)

Lemma asked isTx failed call msg req k m l h s P : msg_Uuid msg = u ->
  needsTransaction req && negb isTx = false -> requestMsg req u = Ok m ->
  peerAt isTx l [] h -> shimAt isTx failed (mkGoroutine call msg (PcRun (StubCall req k))) s ->
  (forall s', shimWaits isTx failed (mkGoroutine call msg (PcWait req k)) [m] s' -> leadsTo P (mkConversation h s')) ->
  leadsTo P (mkConversation h s).
Proof.
  intros Hu Hn Hm [] [? Him Hrc ? ? Ho ?] Hnext. shimTakes (ShimRun 0).
  - eapply run_request; [eassumption|by rewrite Hu, Him|by rewrite Hu|]. rewrite Hu, Hrc. apply not_elem_of_empty.
  - apply Hnext. split; try assumption; cbn; by rewrite ?Hu, ?Hrc, ?Ho.
Qed.

Lemma refused isTx failed call msg req k l h s P : msg_Uuid msg = u ->
  needsTransaction req && negb isTx = true \/ requestMsg req u = Err ->
  peerAt isTx l [] h -> shimAt isTx failed (mkGoroutine call msg (PcRun (StubCall req k))) s ->
  (forall s', shimAt isTx failed (mkGoroutine call msg (PcRun (k Err))) s' -> leadsTo P (mkConversation h s')) ->
  leadsTo P (mkConversation h s).
Proof.
  intros Hu Hn [] [? Him ? ? ? ? ?] Hnext. shimTakes (ShimRun 0).
  - eapply run_refused; [eassumption|]. by rewrite Hu, Him.
  - apply Hnext. by split.
Qed.

(** What the ledger does for a request, and the answer. *)
Inductive asks (isTx : bool) (l l' : S) : ChaincodeMessage -> ChaincodeMessage -> Prop :=
| asks_get key r : callGetState (cid_Name cid) key (negb isTx) l = Done r l' ->
    asks isTx l l' (ccMessage GET_STATE key u)
      (match r with Ok v => ccMessage RESPONSE (default [] v) u | Err => ccMessage ERROR (text LedgerFailed) u end)
| asks_write ty pl f r : isTx = true -> writeOf (ccMessage ty pl u) (cid_Name cid) = Some f -> f l = Done r l' ->
    asks isTx l l' (ccMessage ty pl u)
      (match r with Ok _ => ccMessage RESPONSE [] u | Err => ccMessage ERROR (text LedgerFailed) u end).

(** The peer receives a request. *)
Lemma peer_hears isTx failed call msg req k m l h h' s P : peerAt isTx l [] h ->
  shimWaits isTx failed (mkGoroutine call msg (PcWait req k)) [m] s -> streamRecv None sends text (Some m) h = Done tt h' ->
  (forall s', shimWaits isTx failed (mkGoroutine call msg (PcWait req k)) [] s' -> leadsTo P (mkConversation h' s')) -> leadsTo P (mkConversation h s).
Proof. intros [] [] E Hnext. peerGets; [exact E|]. apply Hnext. by split. Qed.

(** It begins with it. *)
Lemma task_begins q isTx failed l k m call msg req k' h s P : msg_Uuid m = u -> (k = TaskBusy -> isTx = true) ->
  peerIn q isTx l [mkTask k m false] [] [] ∅ h -> shimWaits isTx failed (mkGoroutine call msg (PcWait req k')) [] s ->
  (forall h', peerIn q isTx l [mkTask k m true] [] [] ({[u]} ∪ ∅) h' -> leadsTo P (mkConversation h' s)) -> leadsTo P (mkConversation h s).
Proof.
  intros Hu Hb [? ? ? Hum (im & Him & Hu') ? Ht ? ? ?] [] Hnext. peerTakes (PeerTask 0).
  - eapply task_start; [eassumption|eassumption|rewrite Hu; apply not_elem_of_empty|].
    intros Hk. unfold getIsTransaction. by rewrite Him, Hu, Hu', Hb.
  - apply Hnext. split; try assumption; [|by exists im|done]. cbn. by rewrite Hu.
Qed.

Lemma get_served isTx failed key r call msg req k l l' h s P : callGetState (cid_Name cid) key (negb isTx) l = Done r l' ->
  peerAt isTx l [] h -> shimWaits isTx failed (mkGoroutine call msg (PcWait req k)) [ccMessage GET_STATE key u] s ->
  (forall h' s', peerAt isTx l' [match r with Ok v => ccMessage RESPONSE (default [] v) u | Err => ccMessage ERROR (text LedgerFailed) u end] h' ->
    shimWaits isTx failed (mkGoroutine call msg (PcWait req k)) [] s' -> leadsTo P (mkConversation h' s')) ->
  leadsTo P (mkConversation h s).
Proof.
  intros E Hp Hs Hnext. eapply peer_hears; [exact Hp|exact Hs| |].
  { eapply recv_get; [apply Hp|destruct isTx; tauto|done|apply Hp]. }
  clear dependent s. intros s Hs.
  eapply (task_begins (if isTx then transactionstate else readystate) isTx failed l TaskGetState (ccMessage GET_STATE key u)); [reflexivity|done| |exact Hs|].
  { destruct Hp as [? ? ? ? ? ? Ht ? ? ?]. split; try assumption. cbn. by rewrite Ht. }
  clear dependent h. intros h [? Hc ? Hum (im & Him & Hu) Hl ? ? Ho ?]. pose proof Hs as []. peerTakes (PeerTask 0).
  { eapply task_get; [eassumption|eassumption|]. unfold getIsTransaction. cbn [msg_Uuid msg_Payload ccMessage]. by rewrite Him, Hu, Hl. }
  apply Hnext; [|exact Hs]. split; try assumption; [|by exists im|done..|].
  - cbn. rewrite Hum. cbn. f_equal. apply removed.
  - cbn. by rewrite Ho; destruct r.
Qed.

Lemma write_served failed ty pl f r call msg req k l l' h s P : writeOf (ccMessage ty pl u) (cid_Name cid) = Some f -> f l = Done r l' ->
  peerAt true l [] h -> shimWaits true failed (mkGoroutine call msg (PcWait req k)) [ccMessage ty pl u] s ->
  (forall h' s', peerAt true l' [match r with Ok _ => ccMessage RESPONSE [] u | Err => ccMessage ERROR (text LedgerFailed) u end] h' ->
    shimWaits true failed (mkGoroutine call msg (PcWait req k)) [] s' -> leadsTo P (mkConversation h' s')) ->
  leadsTo P (mkConversation h s).
Proof.
  intros Hw E Hp Hs Hnext. eapply peer_hears; [exact Hp|exact Hs| |].
  { eapply recv_write; [apply Hp| |apply Hp]. unfold writeOf in Hw. cbn in *. destruct ty; try done; tauto. }
  clear dependent s. intros s Hs.
  eapply (task_begins busyxactstate true failed l TaskBusy (ccMessage ty pl u)); [reflexivity|done| |exact Hs|].
  { destruct Hp as [? ? ? ? ? ? Ht ? ? ?]. split; try assumption; [done|]. cbn. by rewrite Ht. }
  clear dependent h. intros h [? Hc Hctx Hum (im & Him & Hu) Hl ? Hn Ho ?]. pose proof Hs as [].
  destruct (task_write GenerateUUID text launchOther executeOther h (ccMessage ty pl u) cid f l' r) as [writes Et]; [done..|by rewrite Hl|].
  peerTakes (PeerTask 0). { exact Et. }
  match goal with |- leadsTo P (mkConversation ?h2 _) => set (h2' := h2) end.
  assert (peerIn busyxactstate true l' [] [mkNextStateInfo (match r with Ok _ => ccMessage RESPONSE [] u | Err => ccMessage ERROR (text LedgerFailed) u end) true] [] ∅ h2')
    as [? ? ? ? ? ? ? ? Ho2 ?].
  { split; try assumption; [|by exists im|done|done|].
    - cbn. rewrite Hum. cbn. f_equal. apply removed.
    - cbn. by rewrite Hn; destruct r. }
  clearbody h2'. peerTakes (PeerNext 0).
  { eapply next_answer; [eassumption| |eassumption|eassumption]. destruct r; [by left|by right]. }
  apply Hnext; [|exact Hs]. split; try assumption; [done..|]. cbn. by rewrite Ho2.
Qed.

Lemma served isTx failed call msg req k m ans l l' h s P : asks isTx l l' m ans ->
  peerAt isTx l [] h -> shimWaits isTx failed (mkGoroutine call msg (PcWait req k)) [m] s ->
  (forall h' s', peerAt isTx l' [ans] h' -> shimWaits isTx failed (mkGoroutine call msg (PcWait req k)) [] s' ->
    leadsTo P (mkConversation h' s')) ->
  leadsTo P (mkConversation h s).
Proof. intros [key r E|ty pl f r -> Hw E]; [by apply get_served|by eapply write_served]. Qed.

(** ** Answers *)

Lemma got isTx failed call msg req k m l h s P : msg_Uuid msg = u -> peerAt isTx l [] h ->
  shimWaits isTx failed (mkGoroutine call msg (PcGot req k m)) [] s ->
  (forall s', shimAt isTx failed (mkGoroutine call msg (PcRun (k (replyOf req m)))) s' -> leadsTo P (mkConversation h s')) ->
  leadsTo P (mkConversation h s).
Proof.
  intros Hu [] [? ? Hrc ? ? ? ?] Hnext. shimTakes (ShimRun 0). { by eapply run_got. }
  apply Hnext. split; try assumption; [|done]. cbn. rewrite Hu, Hrc. apply removed.
Qed.

Lemma shim_hears isTx failed failed' g g' m l h s s' P : peerAt isTx l [m] h -> shimWaits isTx failed g [] s -> waiting g = true ->
  shimRecv sends text (Some m) s = Done tt s' -> shimWaits isTx failed' g' [] s' ->
  (forall h', peerAt isTx l [] h' -> leadsTo P (mkConversation h' s')) -> leadsTo P (mkConversation h s).
Proof.
  intros [] [] Hg E [] Hnext. eapply (eventually_only _ _ ShimRecv).
  - erewrite actions_eq by eassumption. cbn. by rewrite Hg.
  - eapply act_shim_recv; [eassumption|exact E].
  - apply Hnext. by split.
Qed.

Lemma replied_ok isTx failed call msg req k pl l h s P : msg_Uuid msg = u ->
  peerAt isTx l [ccMessage RESPONSE pl u] h -> shimWaits isTx failed (mkGoroutine call msg (PcWait req k)) [] s ->
  (forall h' s', peerAt isTx l [] h' -> shimAt isTx failed (mkGoroutine call msg (PcRun (k (replyOf req (ccMessage RESPONSE pl u))))) s' ->
    leadsTo P (mkConversation h' s')) ->
  leadsTo P (mkConversation h s).
Proof.
  intros Hu Hp Hs Hnext. pose proof Hs as [? ? Hrc ? ? ? ?].
  eapply (shim_hears isTx failed failed); [done|done|done| | |].
  - eapply shim_recv_response; [eassumption|unfold shimQ; destruct isTx, failed; tauto|done|done| |eassumption|done].
    rewrite Hrc. by apply elem_of_union_l, elem_of_singleton.
  - by split.
  - intros h' Hp'. eapply (got isTx failed); [done|done|by split|]. intros s' Hs'. by apply Hnext.
Qed.

Lemma replied_err call msg req k pl l h s P : msg_Uuid msg = u ->
  peerAt true l [ccMessage ERROR pl u] h -> shimWaits true false (mkGoroutine call msg (PcWait req k)) [] s ->
  (forall h' s', peerAt true l [] h' -> shimAt true true (mkGoroutine call msg (PcRun (k Err))) s' -> leadsTo P (mkConversation h' s')) ->
  leadsTo P (mkConversation h s).
Proof.
  intros Hu Hp Hs Hnext. pose proof Hs as [? ? Hrc ? ? ? ?].
  eapply (shim_hears true false true); [done|done|done| | |].
  - eapply shim_recv_error; [eassumption|done|done| |eassumption|done]. rewrite Hrc. by apply elem_of_union_l, elem_of_singleton.
  - by split.
  - intros h' Hp'. eapply (got true true); [done|done|by split|]. intros s' Hs'. by apply Hnext.
Qed.

(** ** The end *)

(** The response [m] is there for the caller. *)
Record peerDone (m : ChaincodeMessage) (l : S) h : Prop := mkPeerDone {
  pd_FSM : h_FSM h = mkFSM readystate false;
  pd_cid : h_ChaincodeID h = Some cid;
  pd_ctx : exists ctx, h_txCtxs h = Some (<[u := ctx]> ctxs) /\ responseNotifier ctx = [m];
  pd_um : h_uuidMap h = Some ∅;
  pd_im : is_Some (h_isTransaction h);
  pd_ledger : h_ledger_ h = l;
  pd_tasks : h_tasks h = [];
  pd_next : h_nextState h = [];
  pd_out : h_out h = [];
  pd_ended : h_ended h = false
}.

Lemma recv_done (isTx : bool) ty pl l h : (if isTx then ty = COMPLETED \/ ty = ERROR else ty = QUERY_COMPLETED \/ ty = QUERY_ERROR) ->
  peerAt isTx l [] h -> exists h', streamRecv None sends text (Some (ccMessage ty pl u)) h = Done tt h' /\ peerDone (ccMessage ty pl u) l h'.
Proof.
  intros Hty [? ? (ctx & Hctx & Hno) ? (im & Him & _) ? ? ? ? ?].
  assert (getTxContext u h = Some ctx) as Hg by (unfold getTxContext; rewrite Hctx; apply lookup_insert_eq).
  assert (exists c, insert u (ctx <| responseNotifier := [ccMessage ty pl u] |>) <$> h_txCtxs h = Some (<[u := c]> ctxs) /\ responseNotifier c = [ccMessage ty pl u]) as Hc.
  { eexists. rewrite Hctx. cbn. by rewrite insert_insert_eq. }
  assert (is_Some (delete u <$> h_isTransaction h)) as Hi by (rewrite Him; eauto).
  destruct isTx; eexists.
  - split; [by eapply recv_end|]. by split.
  - split; [by eapply recv_query_end|]. by split.
Qed.

Lemma take_done m l h : ctxs !! u = None -> peerDone m l h -> exists h' failed, takeResponse u false h = Done (Some m, failed) h' /\
  h_ledger_ h' = l /\ forall s, s_FSM s = mkFSM shimReady false -> s_responseChannel s = ∅ -> s_nextState s = [] -> s_goroutines s = [] ->
    s_out s = [] -> s_ended s = false -> idle l (mkConversation h' s).
Proof.
  intros Hfresh [? ? (ctx & Hctx & Hno) ? ? ? ? ? ? ?].
  assert (getTxContext u h = Some ctx) as Hg by (unfold getTxContext; rewrite Hctx; apply lookup_insert_eq).
  unfold takeResponse, deleteTxContext. cbv [mbind M_bind get modify mret M_ret]. rewrite Hg. cbn [option_bind]. rewrite Hno.
  do 2 eexists. split; [reflexivity|]. split; [done|]. intros s ? ? ? ? ? ?. split; try assumption.
  cbn. rewrite Hctx. cbn. by rewrite delete_insert_id.
Qed.

(** The response reaches the caller. *)
Lemma ended_with (isTx alive : bool) ty pl h s l : ctxs !! u = None ->
  (if isTx then ty = COMPLETED \/ ty = ERROR else ty = QUERY_COMPLETED \/ ty = QUERY_ERROR) ->
  peerAt isTx l [] h -> s_out s = [ccMessage ty pl u] -> s_ended s = negb alive ->
  (alive = true -> s_FSM s = mkFSM shimReady false /\ s_responseChannel s = ∅ /\ s_nextState s = [] /\ s_goroutines s = []) ->
  leadsTo (answered (Some (ccMessage ty pl u), alive) l) (mkConversation h s).
Proof.
  intros Hfresh Hty Hp Ho He Hq. destruct (recv_done isTx ty pl l h Hty Hp) as (h' & E & Hd). destruct Hp as [].
  eapply (eventually_only _ _ PeerRecv); [|by eapply act_peer_recv|].
  - destruct alive; [destruct Hq as (_ & _ & Hsn & Hsg); [done|]; by scheduled|]. erewrite actions_eq by (eassumption || reflexivity). reflexivity.
  - apply eventually_done. destruct (take_done _ _ _ Hfresh Hd) as (h2 & failed & Et & Hl & Hidle). exists h2, failed. split; [done|]. split; [done|].
    destruct alive; [|exact He]. destruct Hq as (? & ? & ? & ?); [done|]. by apply Hidle.
Qed.

Hypothesis fresh : ctxs !! u = None.

(** An answer that the shim has no place for ends the conversation. *)
Lemma replied_dead isTx failed call msg req k pl l h s : isTx && negb failed = false ->
  peerAt isTx l [ccMessage ERROR pl u] h -> shimWaits isTx failed (mkGoroutine call msg (PcWait req k)) [] s ->
  leadsTo (answered (if isTx then Some (ccMessage ERROR (text CannotHandle) u) else None, false) l) (mkConversation h s).
Proof.
  intros Hb Hp Hs. pose proof Hp as []. pose proof Hs as [Hf ? ? ? ? Ho ?].
  unfold shimQ in Hf. rewrite Hb in Hf. shimGets. { by eapply shim_recv_stray. } rewrite Ho.
  match goal with |- leadsTo _ (mkConversation ?h2 _) => assert (peerAt isTx l [] h2) as Hp2 by (by split); set (h2' := h2) in *; clearbody h2' end.
  destruct isTx; [apply (ended_with true false); [done|by right|done..]|].
  destruct Hp2 as [? ? (ctx2 & Hctx2 & Hno2) ? ? Hl2 ? ? ? ?].
  destruct (recv_stray text h2' (ccMessage ERROR (text CannotHandle) u)) as (h' & E & He & Hl' & Ht); [done..|].
  eapply (eventually_only _ _ PeerRecv); [erewrite actions_eq by (eassumption || reflexivity); reflexivity|by eapply act_peer_recv|].
  apply eventually_done. do 2 eexists. split; [reflexivity|]. split; [|done]. cbn. by rewrite Hl'.
Qed.

Definition callFor (isTx : bool) : invocation := if isTx then CallInvoke else CallQuery.

Lemma returned isTx failed msg res l h s : msg_Uuid msg = u -> peerAt isTx l [] h ->
  shimAt isTx failed (mkGoroutine (callFor isTx) msg (PcRun (StubReturn res))) s ->
  leadsTo (answered (Some (respond text u isTx failed res), negb (isTx && failed)) l) (mkConversation h s).
Proof.
  intros Hu Hp [Hf ? Hrc Hn Hg Ho He]. pose proof Hp as []. shimTakes (ShimRun 0). { by eapply run_return. }
  rewrite Hu. destruct isTx; cbn [callFor].
  - match goal with |- leadsTo _ (mkConversation _ ?s2) => assert (s_FSM s2 = mkFSM (shimQ true failed) false /\ s_responseChannel s2 = ∅ /\
      s_nextState s2 = [mkNextStateInfo (respond text u true false res) true] /\ s_goroutines s2 = [] /\ s_out s2 = [] /\ s_ended s2 = false)
      as (Hf2 & Hrc2 & Hn2 & Hg2 & Ho2 & He2) by (repeat split; cbn; rewrite ?Hn; assumption || reflexivity); set (s2' := s2) in *; clearbody s2' end.
    assert (msg_Type (respond text u true false res) = COMPLETED \/ msg_Type (respond text u true false res) = ERROR) as Hty
      by (destruct res; [by left|by right]).
    assert (msg_Uuid (respond text u true false res) = u) as Huu by (by destruct res).
    destruct failed.
    + shimTakes (ShimNext 0). { by eapply shim_next_stray. } rewrite Ho2, Huu. apply (ended_with true false); [done|by right|done..].
    + shimTakes (ShimNext 0). { eapply shim_next_end; [done..|]. rewrite Hrc2. apply not_elem_of_empty. }
      rewrite Ho2. destruct res; (apply (ended_with true true); [done|(by left) || by right|done..]).
  - destruct res; (apply (ended_with false true); [done|(by left) || by right|done|cbn; by rewrite Ho|done|done]).
Qed.

(** ** Programs *)

Hypothesis unmarshal_put : forall kv b, marshalPutStateInfo kv = Ok b -> unmarshalPutStateInfo b = Ok kv.

(** The run from a program on is that of its direct calls. *)
Definition runsAs (isTx : bool) (msg : ChaincodeMessage) (p : stubRun) : Prop :=
  forall failed l l' r h s, peerAt isTx l [] h -> shimAt isTx failed (mkGoroutine (callFor isTx) msg (PcRun p)) s ->
    interpret (direct text (cid_Name cid) u isTx failed p) l = Done r l' -> leadsTo (answered r l') (mkConversation h s).

(** A request that is sent: the ledger's answer decides how the run goes on. *)
Lemma requested isTx failed msg req k m ans v l l1 l' r h s : msg_Uuid msg = u -> (forall x, runsAs isTx msg (k x)) ->
  needsTransaction req && negb isTx = false -> requestMsg req u = Ok m ->
  peerAt isTx l [] h -> shimAt isTx failed (mkGoroutine (callFor isTx) msg (PcRun (StubCall req k))) s ->
  asks isTx l l1 m ans ->
  match v with
  | Ok x => exists pl, ans = ccMessage RESPONSE pl u /\ replyOf req ans = Ok x
  | Err => ans = ccMessage ERROR (text LedgerFailed) u
  end ->
  interpret (match v with
    | Ok x => direct text (cid_Name cid) u isTx failed (k (Ok x))
    | Err => afterFailure text u isTx failed (direct text (cid_Name cid) u isTx true (k Err))
    end) l1 = Done r l' ->
  leadsTo (answered r l') (mkConversation h s).
Proof.
  intros Hu Hk Hn Hm Hp Hs Ha Hv Hi. eapply asked; [done..|]. intros s1 Hs1. eapply served; [done..|]. intros h2 s2 Hp2 Hs2.
  destruct v as [x|].
  - destruct Hv as (pl & -> & Hr). eapply replied_ok; [done..|]. rewrite Hr. intros. by eapply Hk.
  - subst. destruct (isTx && negb failed) eqn:Eb.
    + destruct isTx, failed; try done. eapply replied_err; [done..|]. intros. by eapply Hk.
    + replace l' with l1 by (by destruct isTx, failed; try done; injection Hi).
      replace r with (if isTx then Some (ccMessage ERROR (text CannotHandle) u) else None, false) by (by destruct isTx, failed; try done; injection Hi).
      by eapply replied_dead.
Qed.

Lemma runs_direct isTx msg p : msg_Uuid msg = u -> stateOnly p -> runsAs isTx msg p.
Proof.
  intros Hu. induction p as [res| |req k IH]; intros Hso failed l l' r h s Hp Hs Hi; [|done|].
  { cbn in Hi. injection Hi as <- <-. by apply (returned _ _ msg). }
  assert (forall x, stateOnly (k x)) as Hk by (by destruct req).
  destruct req as [key|key value|key| | | | |]; cbn [stateOnly] in Hso; try done; cbn [direct] in Hi.
  - cbn [interpret] in Hi. cbv [mbind M_bind] in Hi. destruct (callGetState _ _ _ l) as [v l1| |] eqn:E; try done.
    eapply (requested isTx failed msg (StubGetState key) k _ _ (match v with Ok v => Ok (ReplyBytes (default [] v)) | Err => Err end));
      [done|by intros; apply IH|done|reflexivity|exact Hp|exact Hs|by eapply asks_get|by destruct v; eauto|by destruct v].
  - destruct isTx; cbn [negb] in Hi; [|eapply (refused false failed _ msg (StubPutState key value) k); [done|by left|exact Hp|exact Hs|]; intros; by eapply (IH Err)].
    destruct (marshalPutStateInfo (key, value)) as [b|] eqn:Em.
    2: { eapply (refused true failed _ msg (StubPutState key value) k); [done|right; cbn; by rewrite Em|exact Hp|exact Hs|]. intros; by eapply (IH Err). }
    cbn [interpret] in Hi. cbv [mbind M_bind] in Hi. destruct (callSetState _ _ _ l) as [v l1| |] eqn:E; try done.
    eapply (requested true failed msg (StubPutState key value) k _ _ (match v with Ok _ => Ok ReplyDone | Err => Err end));
      [done|by intros; apply IH|done|cbn; rewrite Em; reflexivity|exact Hp|exact Hs|
       eapply asks_write; [done|unfold writeOf; cbn; by rewrite (unmarshal_put _ _ Em)|exact E]|by destruct v; eauto|by destruct v].
  - destruct isTx; cbn [negb] in Hi; [|eapply (refused false failed _ msg (StubDelState key) k); [done|by left|exact Hp|exact Hs|]; intros; by eapply (IH Err)].
    cbn [interpret] in Hi. cbv [mbind M_bind] in Hi. destruct (callDeleteState _ _ l) as [v l1| |] eqn:E; try done.
    eapply (requested true failed msg (StubDelState key) k _ _ (match v with Ok _ => Ok ReplyDone | Err => Err end));
      [done|by intros; apply IH|done|reflexivity|exact Hp|exact Hs|by eapply asks_write|by destruct v; eauto|by destruct v].
Qed.

(** ** From the request to the response *)

(** The run of a chaincode for a message, made directly. *)
Definition directRun (isTx : bool) (msg : ChaincodeMessage) : chaincodeRun (option ChaincodeMessage * bool) :=
  match unmarshalChaincodeInput (msg_Payload msg) with
  | Err => RunReturn (Some (ccMessage (if isTx then ERROR else QUERY_ERROR) (text UnmarshalFailed) (msg_Uuid msg)), true)
  | Ok input => direct text (cid_Name cid) (msg_Uuid msg) isTx false (callChaincode (callFor isTx) msg input)
  end.

(** The shim is about to run the chaincode. *)
Record shimStarts (isTx : bool) (msg : ChaincodeMessage) s : Prop := mkShimStarts {
  ss_FSM : s_FSM s = mkFSM (shimQ isTx false) false;
  ss_rc : s_responseChannel s = ∅;
  ss_next : s_nextState s = [];
  ss_goroutines : s_goroutines s = [mkGoroutine (callFor isTx) msg PcStart];
  ss_out : s_out s = [];
  ss_ended : s_ended s = false
}.

Lemma run_start_bad call msg s : s_goroutines s = [mkGoroutine call msg PcStart] -> unmarshalChaincodeInput (msg_Payload msg) = Err ->
  runGoroutine sends text 0 s = Done tt (let s := s <| s_goroutines := [] |> in
    match call with
    | CallQuery => s <| s_out := s_out s ++ [ccMessage QUERY_ERROR (text UnmarshalFailed) (msg_Uuid msg)] |> <| s_sends := Datatypes.S (s_sends s) |>
    | _ => s <| s_nextState := s_nextState s ++ [mkNextStateInfo (ccMessage ERROR (text UnmarshalFailed) (msg_Uuid msg)) true] |>
    end).
Proof. destruct s as [f rc im ns gs out sn en]; cbn. intros -> E. unfold runGoroutine. cbv [mbind M_bind get modify]. cbn. rewrite E. by destruct call. Qed.

Lemma runs_started isTx msg l l' r h s : msg_Uuid msg = u ->
  (forall input, unmarshalChaincodeInput (msg_Payload msg) = Ok input -> stateOnly (callChaincode (callFor isTx) msg input)) ->
  peerAt isTx l [] h -> shimStarts isTx msg s -> interpret (directRun isTx msg) l = Done r l' ->
  leadsTo (answered r l') (mkConversation h s).
Proof.
  intros Hu Hso Hp [Hf Hrc Hn Hg Ho He] Hi. pose proof Hp as []. unfold directRun in Hi.
  destruct (unmarshalChaincodeInput _) as [input|] eqn:E.
  - shimTakes (ShimRun 0). { by eapply run_start. }
    eapply (runs_direct isTx msg); [done|by apply Hso|done| |by rewrite Hu in Hi].
    split; try assumption; [|done]. rewrite Hu. destruct isTx; apply lookup_insert_eq.
  - cbn in Hi. injection Hi as <- <-. rewrite Hu. shimTakes (ShimRun 0). { by eapply run_start_bad. }
    destruct isTx; [|apply (ended_with false true); [done|by right|done|cbn; by rewrite Ho, Hu|done|done]].
    cbn [callFor].
    match goal with |- leadsTo _ (mkConversation _ ?s2) => assert (s_FSM s2 = mkFSM shimTransaction false /\ s_responseChannel s2 = ∅ /\
      s_nextState s2 = [mkNextStateInfo (ccMessage ERROR (text UnmarshalFailed) u) true] /\ s_goroutines s2 = [] /\ s_out s2 = [] /\ s_ended s2 = false)
      as (Hf2 & Hrc2 & Hn2 & Hg2 & Ho2 & He2) by (repeat split; cbn; rewrite ?Hn, ?Hu; assumption || reflexivity); set (s2' := s2) in *; clearbody s2' end.
    shimTakes (ShimNext 0). { eapply (shim_next_end text _ (ccMessage ERROR (text UnmarshalFailed) u)); [done|by right|done|done|]. rewrite Hrc2. apply not_elem_of_empty. }
    rewrite Ho2. apply (ended_with true true); [done|by right|done..].
Qed.

(** The shim receives the message. *)
Lemma shim_told (isTx : bool) msg l h s P : msg_Type msg = (if isTx then TRANSACTION else QUERY) -> peerAt isTx l [msg] h ->
  s_FSM s = mkFSM shimReady false -> s_responseChannel s = ∅ -> s_nextState s = [] -> s_goroutines s = [] -> s_out s = [] -> s_ended s = false ->
  (forall h' s', peerAt isTx l [] h' -> shimStarts isTx msg s' -> leadsTo P (mkConversation h' s')) -> leadsTo P (mkConversation h s).
Proof.
  intros Ht [] Hf Hrc Hn Hg Ho He Hnext. destruct isTx.
  - shimGets. { by eapply shim_recv_transaction. } apply Hnext; [by split|]. split; try done. cbn. by rewrite Hg.
  - shimGets. { eapply shim_recv_query; [done|by left|done..]. } apply Hnext; [by split|]. split; try done. cbn. by rewrite Hg.
Qed.

Lemma setContext_keeps tx msg msg' : setChaincodeSecurityContext None tx msg = Ok msg' -> msg_Type msg' = msg_Type msg /\ msg_Uuid msg' = msg_Uuid msg.
Proof. unfold setChaincodeSecurityContext. intros. repeat (destruct tx || case_match); by simplify_eq. Qed.

(** The request is sent to the chaincode, or waits to be. *)
Lemma sent (isTx : bool) msg msg' tx l h : msg_Uuid msg = u -> msg_Type msg = (if isTx then TRANSACTION else QUERY) ->
  setChaincodeSecurityContext None tx msg = Ok msg' -> forall s, idle l (mkConversation h s) ->
  exists h', sendExecuteMessage None sends msg tx h = Done (Ok tt) h' /\
    peerIn readystate isTx l [] (if isTx then [mkNextStateInfo msg' true] else []) (if isTx then [] else [msg']) ∅ h'.
Proof.
  intros Hu Ht Hsc s [? ? Hctx ? [im Him] ? ? Hn Ho ? ? ? ? ? ? ?]. cbn in *.
  destruct (setContext_keeps tx msg msg' Hsc) as [Ht' _].
  assert (getTxContext u h = None) as Hg by (unfold getTxContext; by rewrite Hctx).
  unfold sendExecuteMessage, createTxContext. cbv [mbind M_bind get mret M_ret]. rewrite Hctx, Hu, Hg. cbn [setTxContext]. rewrite Hsc, Ht', Ht.
  exists (h <| h_txCtxs := Some (<[u := mkTransactionContext tx [] ∅]> ctxs) |> <| h_isTransaction := Some (<[u := isTx]> im) |>
    <| h_started := if isTx then h_started h ++ [u] else h_started h |>
    <| h_nextState := if isTx then [mkNextStateInfo msg' true] else [] |> <| h_out := if isTx then [] else [msg'] |>
    <| h_sends := if isTx then h_sends h else Datatypes.S (h_sends h) |>).
  split.
  - destruct isTx; cbn; rewrite Hctx, Him; cbn; rewrite ?Hn, ?Ho; by destruct h; cbn in *; subst.
  - split; try done; [by eexists|]. eexists. split; [reflexivity|apply lookup_insert_eq].
Qed.

End runs.

(** Whatever the chaincode, its direct calls keep the rules of the ledger: it writes only in
    a transaction, and only under its own name. *)
Lemma direct_wfRun `{Codec : !ChaincodeCodec} text cid u (isTx failed : bool) p : stateKeyDelimiter ∉ cid ->
  wfRun isTx (direct text cid u isTx failed p).
Proof.
  intros Hc. revert failed. induction p as [res| |req k IH]; intros failed; try done.
  destruct req; try done; cbn [direct wfRun].
  - intros [v|]; [apply IH|]. destruct isTx, failed; try done. apply IH.
  - destruct isTx; [cbn [negb]|apply IH]. destruct (marshalPutStateInfo _); [|apply IH]. split; [done|]. split; [done|].
    intros [v|]; [apply IH|]. destruct failed; [done|apply IH].
  - destruct isTx; [cbn [negb]|apply IH]. split; [done|]. split; [done|]. intros [v|]; [apply IH|]. destruct failed; [done|apply IH].
Qed.

(** * A chaincode that counts *)

Module Toy.
(** A ledger that is a list of writes. *)
Definition store := list (bytes * bytes * bytes).

Definition find (cc key : bytes) (l : store) : option bytes :=
  snd <$> List.find (fun e => bool_decide (fst e = (cc, key))) l.

#[export] Instance storeCalls : LedgerCalls store unit := {
  callBeginTxBatch _ := mret (Ok tt);
  callGetTXBatchPreviewBlock _ _ _ := panic;
  callCommitTxBatch _ _ _ _ := mret (Ok tt);
  callRollbackTxBatch _ := mret (Ok tt);
  callTxBegin _ := mret tt;
  callTxFinished _ _ := mret tt;
  callGetTempStateHash := mret (Ok None);
  callGetState cc key _ := fun l => Done (Ok (find cc key l)) l;
  callSetState cc key value := fun l => Done (Ok tt) ((cc, key, default [] value) :: l);
  callDeleteState cc key := fun l => Done (Ok tt) ((cc, key, []) :: l);
  callGetBlockByNumber _ := panic;
  callGetBlockchainSize := mret 0%Z
}.

#[export] Instance storeScans : LedgerScans store unit := {
  callGetStateRangeScanIterator _ _ _ _ := mret (Ok tt);
  itrNext i := mret (false, i);
  itrGetKeyValue _ := ([], None)
}.

Fixpoint put (key value : bytes) : bytes :=
  match key with [] => x00 :: value | c :: key => x01 :: c :: put key value end.

Fixpoint unput (b : bytes) : result (bytes * bytes) :=
  match b with
  | x00 :: value => Ok ([], value)
  | x01 :: c :: b => match unput b with Ok (key, value) => Ok (c :: key, value) | Err => Err end
  | _ => Err
  end.

Lemma unput_put key value : unput (put key value) = Ok (key, value).
Proof. induction key as [|c key IH]; [done|]. cbn. by rewrite IH. Qed.

#[export] Instance codec : ChaincodeCodec := {
  marshalChaincodeID c := Ok (cid_Name c);
  unmarshalChaincodeID b := Ok (mkChaincodeID [] b);
  marshalPutStateInfo kv := Ok (put (fst kv) (snd kv));
  unmarshalPutStateInfo := unput;
  marshalRangeQueryState kv := Ok (put (fst kv) (snd kv));
  unmarshalRangeQueryState := unput;
  marshalRangeQueryStateNext _ := Err;
  unmarshalRangeQueryStateNext _ := Err;
  marshalRangeQueryStateClose _ := Err;
  unmarshalRangeQueryStateClose _ := Err;
  marshalRangeQueryStateResponse _ := Err;
  unmarshalRangeQueryStateResponse _ := Err;
  marshalChaincodeSpec _ := Err;
  unmarshalChaincodeSpec _ := Err;
  marshalChaincodeInput i := Ok (fst i);
  unmarshalChaincodeInput b := Ok (b, []);
  invocationCtor := Ok;
  cloneTransaction := Ok
}.

(** The value of the key [c] grows by a byte in each transaction. *)
Definition count : stubRun :=
  StubCall (StubGetState [x63]) (fun r =>
    match r with
    | Ok (ReplyBytes v) =>
      StubCall (StubPutState [x63] (x2b :: v)) (fun r => StubReturn (match r with Ok _ => Ok v | Err => Err end))
    | _ => StubReturn Err
    end).

#[export] Instance counter : Chaincode := {
  Init _ _ _ := StubReturn (Ok []);
  Invoke _ _ _ := count;
  Query _ _ _ := count
}.

Definition noText (_ : ccError) : bytes := [].
Definition noLaunch (_ : ChaincodeSpec) (_ : bytes) (_ : TransactionType) : M store (result (bytes * list bytes)) := mret Err.
Definition noExecute (_ : bytes) (_ : ChaincodeMessage) : M store (option ChaincodeMessage * bool) := mret (None, true).

Definition acts : action -> conversation store unit -> outcome (conversation store unit) unit :=
  act None (fun _ => true) (fun _ => true) (fun _ => []) noText noLaunch noExecute.

Fixpoint runs (l : list action) (c : conversation store unit) : conversation store unit :=
  match l with
  | [] => c
  | a :: l => match acts a c with Done _ c => runs l c | _ => c end
  end.

Definition deployTx : Transaction := mkTransaction CHAINCODE_DEPLOY [x61] [] [] [x30] None false [] [] [] [] [].

(** The chaincode registers, and is ready. *)
Definition started : conversation store unit :=
  let c := mkConversation (newChaincodeSupportHandler ∅ []) newChaincodeHandler in
  let c := mkConversation (peer c) (match shimRegister (fun _ => true) [x61] (shim c) with Done _ s => s | _ => shim c end) in
  let c := runs [PeerRecv; ShimRecv] c in
  let c := mkConversation (match initOrReady None [x30] None None None (Some deployTx) (peer c) with Done _ h => h | _ => peer c end) (shim c) in
  let c := runs [PeerNext 0; ShimRecv] c in
  mkConversation (match takeResponse [x30] false (peer c) with Done _ h => h | _ => peer c end) (shim c).

Definition before : store := [([x61], [x63], [x2b])].
Definition after : store := ([x61], [x63], [x2b; x2b]) :: before.
End Toy.
Import Toy.

(** Concrete runs are evaluated by conversion, which has to see the empty map. *)
#[local] Transparent gmap_empty.

