(* ===== verification/HandlerSafety.v ===== *)
(** What a chaincode can do to the state of the peer: whatever it sends, its writes are those
    of transactions that the peer has started, and go under the name it has registered.  The
    exception is an INIT message of its own, which the peer does not tell from one that it
    has made itself. *)
From stdpp Require Import base gmap list.
From Stdlib Require Import ZArith Lia.
From Stdlib Require Import Strings.Byte.
From S2P Require Import Prelude GoStd GoBytes LedgerUtil KVStore Blockchain Ledger ExecTransaction Fsm ChaincodeHandler ShimHandler.
From S2P Require Import Conversation ConversationSteps ConversationTheorems.

Create HintDb shrink.

(** * Events of a machine *)

Section events.
Context {Ev Q St A : Type} `{!EqDecision Ev} `{!EqDecision Q} `{!HasFSM St Q} (events : list (EventDesc Ev Q))
  (callbacks : cKey Ev Q -> option (A -> Event Ev Q -> M St (Event Ev Q))) (I : St -> Prop) (ev : Ev) (a : A).

(** What a callback may rely on: there is a transition before the event, and the state is the
    one entered. *)
Definition cbPre (k : cKey Ev Q) (s : St) : Prop :=
  match k with
  | before_event (Some ev') => ev' = ev /\ is_Some (transitions events ev (f_current (getFSM s)))
  | enter_state (Some q) => f_current (getFSM s) = q
  | _ => True
  end.

(** The invariant is kept, and the event not turned into another one. *)
Definition cbPost (dst : Q) (e : Event Ev Q) (s : St) : Prop := I s /\ e_Event e = ev /\ e_Dst e = dst.

Context (Htransition : forall s b, I s -> I (setFSM ((getFSM s) <| f_transition := b |>) s)).
Context (Hmove : forall s src dst, I s -> transitions events ev src = Some dst -> I (setFSM ((getFSM s) <| f_current := dst |>) s)).
Context (Hcallback : forall k fn e s, callbacks k = Some fn -> cbPost (e_Dst e) e s -> cbPre k s -> wlp (fn a e) (cbPost (e_Dst e)) s).

Lemma callback_keeps k e dst s : cbPost dst e s -> cbPre k s -> wlp (callback callbacks k a e) (cbPost dst) s.
Proof.
  intros (HI & He & Hd) Hk. unfold callback. destruct (callbacks k) as [fn|] eqn:E; [|by apply wlp_ret].
  rewrite <- Hd. by eapply Hcallback.
Qed.

Lemma before_keeps e dst s : cbPost dst e s -> is_Some (transitions events ev (f_current (getFSM s))) ->
  wlp (beforeEventCallbacks callbacks a e) (cbPost dst) s.
Proof.
  intros Hp Ht. apply wlp_bind. eapply wlp_mono; [apply callback_keeps; [done|by split; [apply Hp|]]|]. intros e' s' Hp'. wlp_step; [by apply wlp_ret|by apply callback_keeps].
Qed.

Lemma leave_keeps e dst s : cbPost dst e s -> wlp (leaveStateCallbacks callbacks a e) (cbPost dst) s.
Proof.
  intros Hp. apply wlp_bind, wlp_get, wlp_bind. eapply wlp_mono; [by apply callback_keeps|]. intros e' s' Hp'.
  wlp_step; [by apply wlp_ret|by apply callback_keeps].
Qed.

Lemma enter_keeps e dst s : cbPost dst e s -> wlp (enterStateCallbacks callbacks a e) (cbPost dst) s.
Proof.
  intros Hp. apply wlp_bind, wlp_get, wlp_bind. eapply wlp_mono; [by apply callback_keeps|]. intros e' s' Hp'. by apply callback_keeps.
Qed.

Lemma after_keeps e dst s : cbPost dst e s -> wlp (afterEventCallbacks callbacks a e) (cbPost dst) s.
Proof. intros Hp. apply wlp_bind. eapply wlp_mono; [by apply callback_keeps|]. intros e' s' Hp'. by apply callback_keeps. Qed.

Lemma transition_keeps e src dst s : cbPost dst e s -> transitions events ev src = Some dst -> wlp (Transition callbacks a e) (fun _ => I) s.
Proof.
  intros (HI & He & Hd) Ht. unfold Transition. do 3 wlp_step; [by apply wlp_ret|]. do 2 wlp_step. apply wlp_bind.
  eapply wlp_mono; [apply (enter_keeps _ dst); split; [|done]; eapply Hmove; [done|by rewrite Hd]|]. intros e1 s1 Hp1. apply wlp_bind.
  eapply wlp_mono; [by apply after_keeps|]. intros e2 s2 (HI2 & _). apply wlp_bind, wlp_modify, wlp_ret. by apply Htransition.
Qed.

(** An invariant that the callbacks of an event keep is kept by the event. *)
Lemma fsm_Event_wlp s : I s -> wlp (fsm_Event events callbacks ev a) (fun _ => I) s.
Proof.
  intros HI. unfold fsm_Event. do 3 wlp_step; [by apply wlp_ret|]. wlp_step; [|by apply wlp_ret]. apply wlp_bind.
  eapply wlp_mono; [apply (before_keeps _ q); [done|eauto]|]. intros e s1 Hp. wlp_step; [apply wlp_ret, Hp|]. do 2 wlp_step. wlp_step.
  - apply wlp_bind. eapply wlp_mono; [by apply after_keeps|]. intros e2 s2 (HI2 & _). by apply wlp_ret.
  - apply wlp_bind, wlp_modify, wlp_bind. eapply wlp_mono; [apply (leave_keeps _ q); destruct Hp; split; [by apply Htransition|done]|].
    intros e2 s2 Hp2. wlp_step; [apply wlp_bind, wlp_modify, wlp_ret; by apply Htransition, Hp2|]. wlp_step; [apply wlp_ret, Hp2|]. by eapply transition_keeps.
Qed.
End events.

(** * Writes of a chaincode *)

Section safety.
Context {S ID Itr : Type} `{!LedgerCalls S ID} `{!LedgerScans S Itr} `{Codec : !ChaincodeCodec}.
Context (secHelper : option SecHelper) (sendOk : nat -> bool) (GenerateUUID : nat -> bytes) (text : ccError -> bytes)
  (launchOther : ChaincodeSpec -> bytes -> TransactionType -> M S (result (bytes * list bytes)))
  (executeOther : bytes -> ChaincodeMessage -> M S (option ChaincodeMessage * bool)).

Implicit Types h : Handler S Itr.

(** What happens to a handler: the chaincode sends anything but INIT or closes the stream, a
    goroutine is received from or takes a step, and the peer initialises the chaincode, sends
    it a transaction or query, and takes a response. *)
Inductive peerStep h h' : Prop :=
| step_recv msg : msg_Type msg <> INIT -> streamRecv secHelper sendOk text (Some msg) h = Done tt h' -> peerStep h h'
| step_eof : streamRecv secHelper sendOk text None h = Done tt h' -> peerStep h h'
| step_next i : streamNext secHelper sendOk text i h = Done tt h' -> peerStep h h'
| step_task i : runTask secHelper sendOk GenerateUUID text launchOther executeOther i h = Done tt h' -> peerStep h h'
| step_init uuid f args tx depTx r : initOrReady secHelper uuid f args tx depTx h = Done r h' -> peerStep h h'
| step_execute msg tx r : sendExecuteMessage secHelper sendOk msg tx h = Done r h' -> peerStep h h'
| step_take uuid timedOut r : takeResponse uuid timedOut h = Done r h' -> peerStep h h'.

Inductive peerReach h : Handler S Itr -> Prop :=
| reach_new : peerReach h h
| reach_step h1 h2 : peerReach h h1 -> peerStep h1 h2 -> peerReach h h2.

(** A uuid is marked as a transaction. *)
Definition marked (u : bytes) h : Prop := exists m, h_isTransaction h = Some m /\ m !! u = Some true.

Record safe h : Prop := mkSafe {
  sf_marked : forall u, marked u h -> u ∈ h_started h;
  sf_tasks : forall t, t ∈ h_tasks h -> t_kind t = TaskBusy -> t_started t = true -> msg_Uuid (t_msg t) ∈ h_started h;
  sf_next : forall n, n ∈ h_nextState h -> msg_Type (ns_msg n) = INIT -> msg_Uuid (ns_msg n) ∈ h_started h;
  sf_writes : forall u cc key, (u, cc, key) ∈ h_writes h -> u ∈ h_started h /\ exists cid, h_ChaincodeID h = Some cid /\ cc = cid_Name cid;
  sf_created : f_current (h_FSM h) = createdstate -> (forall t, t ∈ h_tasks h -> t_kind t <> TaskBusy) /\ h_writes h = []
}.

(** Steps that start, mark and write nothing. *)
Record shrinks h h' : Prop := mkShrinks {
  sh_FSM : f_current (h_FSM h') = f_current (h_FSM h);
  sh_cid : h_ChaincodeID h' = h_ChaincodeID h;
  sh_started : h_started h' = h_started h;
  sh_writes : h_writes h' = h_writes h;
  sh_tasks : h_tasks h' ⊆ h_tasks h;
  sh_next : h_nextState h' ⊆ h_nextState h;
  sh_marked : forall u, marked u h' -> marked u h
}.

#[local] Instance shrinks_preorder : PreOrder shrinks.
Proof.
  split; [by intros h|]. intros h1 h2 h3 [] []. split; try congruence; [by etransitivity..|]. auto.
Qed.

Lemma safe_shrinks h h' : safe h -> shrinks h h' -> safe h'.
Proof.
  intros [Hm Ht Hn Hw Hc] [Ef Ec Es Ew Et En Em]. split; rewrite ?Es, ?Ec, ?Ew, ?Ef.
  - auto.
  - intros t Hin. apply Ht. by apply Et.
  - intros n Hin. apply Hn. by apply En.
  - done.
  - intros E. destruct (Hc E) as [Hb Hw']. split; [|done]. intros t Hin. apply Hb. by apply Et.
Qed.

(** A field that [safe] does not mention. *)
Ltac other := split; try done; by intros u (m & ? & ?); exists m.

Lemma serialSend_shrinks msg : guar shrinks (serialSend (S := S) (Itr := Itr) sendOk msg).
Proof. unfold serialSend. repeat guar_step; other. Qed.

Lemma onLedger_shrinks {A} (m : M S A) : guar shrinks (onLedger_ (Itr := Itr) m).
Proof. intros h a h'. unfold onLedger_. destruct (m _); intros [= <- <-]. other. Qed.

Lemma setTxContext_shrinks u c : guar shrinks (setTxContext (S := S) (Itr := Itr) u c).
Proof. unfold setTxContext. repeat guar_step; other. Qed.

Lemma createTxContext_shrinks u tx : guar shrinks (createTxContext (S := S) (Itr := Itr) u tx).
Proof. unfold createTxContext. repeat guar_step; apply setTxContext_shrinks. Qed.

Lemma deleteTxContext_shrinks u : guar shrinks (deleteTxContext (S := S) (Itr := Itr) u).
Proof. unfold deleteTxContext. repeat guar_step; other. Qed.

Lemma updIterators_shrinks u f : guar shrinks (updIterators (S := S) (Itr := Itr) u f).
Proof. unfold updIterators. repeat guar_step; apply setTxContext_shrinks. Qed.

Lemma notify_shrinks msg : guar shrinks (notify (S := S) (Itr := Itr) msg).
Proof. unfold notify. repeat guar_step; apply setTxContext_shrinks. Qed.

Lemma notifyDuringStartup_shrinks b : guar shrinks (notifyDuringStartup (S := S) (Itr := Itr) b).
Proof. unfold notifyDuringStartup. repeat guar_step; other. Qed.

Lemma createUUIDEntry_shrinks u : guar shrinks (createUUIDEntry (S := S) (Itr := Itr) u).
Proof. unfold createUUIDEntry. repeat guar_step; other. Qed.

Lemma deleteUUIDEntry_shrinks u : guar shrinks (deleteUUIDEntry (S := S) (Itr := Itr) u).
Proof. unfold deleteUUIDEntry. repeat guar_step; other. Qed.

Lemma deleteIsTransaction_shrinks u : guar shrinks (deleteIsTransaction (S := S) (Itr := Itr) u).
Proof.
  unfold deleteIsTransaction. guar_step. split; try done. intros v (m & E & Hv). cbn in E.
  destruct (h_isTransaction s) as [m'|] eqn:Em; [|done]. cbn in E. simplify_eq. exists m'. split; [done|].
  by apply lookup_delete_Some in Hv as [_ Hv].
Qed.

Lemma deregister_shrinks : guar shrinks (deregister (S := S) (Itr := Itr)).
Proof. unfold deregister. repeat guar_step; other. Qed.

Lemma registerHandler_shrinks key : guar shrinks (registerHandler (S := S) (Itr := Itr) key).
Proof.
  unfold registerHandler. repeat guar_step; try other; (split; try done; intros u (m & E & Hv); injection E as <-; by rewrite lookup_empty in Hv).
Qed.

Lemma endStream_shrinks : guar shrinks (endStream (S := S) (Itr := Itr)).
Proof. unfold endStream. repeat guar_step; [apply deregister_shrinks|other]. Qed.

Lemma chaincodeName_shrinks : guar shrinks (chaincodeName (S := S) (Itr := Itr)).
Proof. unfold chaincodeName. repeat guar_step. Qed.

#[local] Hint Resolve serialSend_shrinks onLedger_shrinks setTxContext_shrinks createTxContext_shrinks deleteTxContext_shrinks updIterators_shrinks
  notify_shrinks notifyDuringStartup_shrinks createUUIDEntry_shrinks deleteUUIDEntry_shrinks deleteIsTransaction_shrinks deregister_shrinks
  registerHandler_shrinks endStream_shrinks chaincodeName_shrinks : shrink.

(** ** What requests do *)

Lemma fillPage_shrinks n u itr hasNext kvs : guar shrinks (fillPage (S := S) (Itr := Itr) secHelper n u itr hasNext kvs).
Proof.
  revert itr hasNext kvs. induction n as [|n IH]; intros itr hasNext kvs; cbn [fillPage]; [by repeat guar_step|].
  destruct hasNext; [|by repeat guar_step]. repeat guar_step; auto with shrink.
Qed.

Lemma sendPage_shrinks msg id page : guar shrinks (sendPage (S := S) (Itr := Itr) text msg id page).
Proof. unfold sendPage, putRangeQueryIterator, deleteRangeQueryIterator. repeat guar_step; auto with shrink. Qed.

#[local] Hint Resolve fillPage_shrinks sendPage_shrinks : shrink.

(** Everything but a write. *)
Lemma serve_shrinks k msg : k <> TaskBusy -> guar shrinks (serve (Itr := Itr) secHelper GenerateUUID text launchOther executeOther k msg).
Proof.
  intros Hk. destruct k; try done; cbn [serve];
    unfold handleGetState, handleRangeQueryState, handleRangeQueryStateNext, handleRangeQueryStateClose, handleQueryChaincode, putRangeQueryIterator,
      getRangeQueryIterator, deleteRangeQueryIterator; repeat guar_step; auto with shrink; other.
Qed.

Lemma keeps {A} (P : Handler S Itr -> Prop) (m : M (Handler S Itr) A) h : (forall h h', P h -> shrinks h h' -> P h') -> guar shrinks m -> P h ->
  wlp m (fun _ => P) h.
Proof. intros Hp Hg Hh. unfold wlp. destruct (m h) eqn:E; [|done..]. eapply Hp; [done|]. by eapply Hg. Qed.

(** A write is being served. *)
Definition serving (u cc : bytes) h : Prop :=
  safe h /\ u ∈ h_started h /\ f_current (h_FSM h) <> createdstate /\ exists cid, h_ChaincodeID h = Some cid /\ cc = cid_Name cid.

Lemma serving_shrinks u cc h h' : serving u cc h -> shrinks h h' -> serving u cc h'.
Proof. intros (Hs & Hu & Hf & Hc) Hsh. split; [by eapply safe_shrinks|]. destruct Hsh as [-> -> -> _ _ _ _]. done. Qed.

Lemma recordWrite_safe u cc key h : serving u cc h -> safe (h <| h_writes := h_writes h ++ [(u, cc, key)] |>).
Proof.
  intros ([] & Hu & Hf & Hc). split; try done.
  intros u' cc' key' [Hin|Hin%list_elem_of_singleton]%elem_of_app; [by eapply sf_writes0|]. by simplify_eq.
Qed.

Lemma enterBusyState_safe msg h : safe h -> msg_Uuid msg ∈ h_started h -> f_current (h_FSM h) <> createdstate ->
  wlp (enterBusyState (Itr := Itr) secHelper text launchOther executeOther msg) (fun _ => safe) h.
Proof.
  intros Hs Hu Hf. unfold enterBusyState, chaincodeName. do 3 wlp_step. wlp_step; [|apply wlp_panic]. apply wlp_ret.
  assert (serving (msg_Uuid msg) (cid_Name c) h) as Hsv by (do 3 (split; [done|]); eauto).
  assert (forall m : M (Handler S Itr) ChaincodeMessage, guar shrinks m -> wlp m (fun _ => safe) h) as Hk.
  { intros m Hm. apply keeps; [apply safe_shrinks|done..]. }
  destruct (msg_Type msg); try (by apply wlp_ret).
  - unfold busyPutState. wlp_step; [|by apply wlp_ret]. wlp_step. do 3 wlp_step; [|by apply wlp_ret]. apply wlp_bind, wlp_modify.
    apply keeps; [apply safe_shrinks|repeat guar_step; auto with shrink|by apply recordWrite_safe].
  - unfold busyDelState. apply wlp_bind, wlp_modify.
    apply keeps; [apply safe_shrinks|repeat guar_step; auto with shrink|by apply recordWrite_safe].
  - apply Hk. unfold busyInvokeChaincode. repeat guar_step; auto with shrink.
Qed.

(** ** Goroutines *)

Lemma trigger_safe msg send h : safe h -> (msg_Type msg = INIT -> msg_Uuid msg ∈ h_started h) ->
  wlp (triggerNextState (S := S) (Itr := Itr) msg send) (fun _ => safe) h.
Proof.
  intros [] Hi. apply wlp_modify. split; try done.
  intros n [Hin|Hin%list_elem_of_singleton]%elem_of_app; [by apply sf_next0|]. by subst.
Qed.

(** The list of goroutines after a step of one of them. *)
Lemma tasks_safe h tasks : safe h ->
  (forall t, t ∈ tasks -> t ∈ h_tasks h \/ f_current (h_FSM h) <> createdstate /\ (t_started t = true -> msg_Uuid (t_msg t) ∈ h_started h) \/ t_kind t <> TaskBusy) ->
  safe (h <| h_tasks := tasks |>).
Proof.
  intros [] Ht. split; try done.
  - intros t [Hin|[[_ Hs]|Hk]]%Ht Hb Hst; [by apply sf_tasks0|by apply Hs|done].
  - intros Hc. destruct (sf_created0 Hc) as [Hb Hw]. split; [|done]. by intros t [Hin|[[? _]|Hk]]%Ht; auto.
Qed.

(** The values that a computation can return. *)
Definition yields {A} (V : A -> Prop) (m : M (Handler S Itr) A) : Prop := forall h a h', m h = Done a h' -> V a.

Lemma yields_bind {A B} (V : B -> Prop) (m : M (Handler S Itr) A) k : (forall a, yields V (k a)) -> yields V (m ≫= k).
Proof. intros Hk h b h'. cbv [mbind M_bind]. destruct (m h) eqn:E; try done. apply Hk. Qed.

Lemma yields_ret {A} (V : A -> Prop) (a : A) : V a -> yields V (mret a).
Proof. intros Hv h b h' [= <- _]. done. Qed.

Lemma busy_yields msg : yields (fun r => msg_Type r <> INIT) (enterBusyState (Itr := Itr) secHelper text launchOther executeOther msg).
Proof.
  apply yields_bind. intros cc. unfold busyPutState, busyDelState, busyInvokeChaincode.
  repeat first [apply yields_bind; intros ? | apply yields_ret; by repeat case_match | by intros ??? | case_match].
Qed.

Lemma runTask_safe i h : safe h -> wlp (runTask (Itr := Itr) secHelper sendOk GenerateUUID text launchOther executeOther i) (fun _ => safe) h.
Proof.
  intros Hs. unfold runTask. do 2 wlp_step. wlp_step; [|by apply wlp_ret]. destruct t as [k msg st]. rename Heqo into Hi.
  assert (mkTask k msg st ∈ h_tasks h) as Hin by (by eapply list_elem_of_lookup_2).
  assert (safe (h <| h_tasks := delete i (h_tasks h) |>)) as Hd.
  { apply tasks_safe; [done|]. intros t Ht. left. by eapply list_elem_of_delete_inv. }
  assert (k = TaskBusy -> f_current (h_FSM h) <> createdstate) as Hnc.
  { intros -> Hc. by destruct (proj1 (sf_created _ Hs Hc) _ Hin). }
  wlp_step; [|wlp_step].
  - apply wlp_bind, wlp_modify, wlp_bind. destruct (decide (k = TaskBusy)) as [->|Hk].
    + pose proof (enterBusyState_safe msg _ Hd (sf_tasks _ Hs _ Hin eq_refl eq_refl) (Hnc eq_refl)) as Hw.
      pose proof (busy_yields msg (h <| h_tasks := delete i (h_tasks h) |>)) as Hy. unfold wlp in *. cbn [serve].
      destruct (enterBusyState _ _ _ _ _ _) as [r h1| |]; [|done..]. apply wlp_bind.
      eapply wlp_mono; [apply keeps; [apply safe_shrinks|apply deleteUUIDEntry_shrinks|exact Hw]|]. intros [] h2 Hs2. apply trigger_safe; [done|].
      intros Hr. by destruct (Hy _ _ eq_refl Hr).
    + eapply wlp_mono; [apply keeps; [apply safe_shrinks|by apply serve_shrinks|exact Hd]|]. intros r h1 Hs1.
      apply keeps; [apply safe_shrinks| |exact Hs1]. unfold answer. destruct k; try done; repeat guar_step; auto with shrink.
  - apply wlp_bind, wlp_modify. by apply trigger_safe.
  - apply wlp_bind. 
    assert (wlp (createUUIDEntry (S := S) (Itr := Itr) (msg_Uuid msg)) (fun _ h' => safe h' /\ shrinks h h' /\ h_tasks h' = h_tasks h) h) as Hu.
    { unfold createUUIDEntry. repeat wlp_step; (split; [eapply safe_shrinks; [exact Hs|other]|split; [other|done]]). }
    eapply wlp_mono; [exact Hu|]. intros b h1 (Hs1 & Hsh & Et). wlp_step; apply wlp_modify; (apply tasks_safe; [done|]); intros t Ht.
    + rewrite Et in Ht. apply list_elem_of_lookup in Ht as [j Hj]. apply list_lookup_insert_Some in Hj as [(_ & <- & _)|[_ Hj]].
      2: { left. rewrite Et. by eapply list_elem_of_lookup_2. }
      right. destruct (decide (k = TaskBusy)) as [Hk|Hk]; [left|by right]. destruct Hsh as [-> _ -> _ _ _ _]. split; [by apply Hnc|]. intros _.
      apply (sf_marked _ Hs). rewrite bool_decide_eq_true_2 in Heqb0 by done. cbn in Heqb0. apply negb_false_iff in Heqb0.
      unfold getIsTransaction in Heqb0. destruct (h_isTransaction h) as [m|] eqn:Em; [|done]. exists m. split; [done|]. by destruct (m !! _) as [[]|].
    + left. by eapply list_elem_of_delete_inv.
Qed.

(** ** Events *)

(** A message that the peer handles: an INIT is one of its own. *)
Definition handling (msg : ChaincodeMessage) h : Prop := safe h /\ (msg_Type msg = INIT -> msg_Uuid msg ∈ h_started h).

Lemma handling_shrinks msg h h' : handling msg h -> shrinks h h' -> handling msg h'.
Proof. intros [Hs Hi] Hsh. split; [by eapply safe_shrinks|]. by rewrite (sh_started _ _ Hsh). Qed.

Lemma register_only src dst : transitions handlerEvents REGISTER src = Some dst -> src = createdstate.
Proof. by destruct src. Qed.

Lemma never_created ev src dst : transitions handlerEvents ev src = Some dst -> dst <> createdstate.
Proof. destruct ev, src; vm_compute; by intros [= <-]. Qed.

Lemma spawn_safe k msg msg' e h : handling msg h -> (k = TaskBusy -> f_current (h_FSM h) <> createdstate) ->
  wlp (spawn (S := S) (Itr := Itr) k msg' e) (fun e' h' => handling msg h' /\ e' = e) h.
Proof.
  intros [Hs Hi] Hk. apply wlp_bind, wlp_modify, wlp_ret. split; [|done]. split; [|done]. apply tasks_safe; [done|].
  intros t [Ht|Ht%list_elem_of_singleton]%elem_of_app; [by left|right]. subst t. cbn. destruct (decide (k = TaskBusy)); [left|by right]. split; [auto|done].
Qed.

Lemma register_safe msg e h : handling msg h -> f_current (h_FSM h) = createdstate ->
  wlp (beforeRegisterEvent (S := S) (Itr := Itr) sendOk msg e) (fun e' h' => handling msg h' /\ (e' = e \/ e' = Cancel e)) h.
Proof.
  intros [Hs Hi] Hc. unfold beforeRegisterEvent. wlp_step; [|apply wlp_ret; split; [done|by right]]. apply wlp_bind, wlp_modify, wlp_bind.
  assert (handling msg (h <| h_ChaincodeID := Some a |>)) as Hh.
  { split; [|done]. destruct (sf_created _ Hs Hc) as [_ Hw]. destruct Hs. split; try done. cbn. rewrite Hw. intros ??? []%not_elem_of_nil. }
  eapply wlp_mono; [apply keeps; [apply handling_shrinks|apply registerHandler_shrinks|exact Hh]|]. intros b h1 Hh1.
  assert (forall h, handling msg h -> wlp (notifyDuringStartup false;; mret (Cancel e)) (fun e' h' => handling msg h' /\ (e' = e \/ e' = Cancel e)) h) as Hn.
  { intros h2 Hh2. apply wlp_bind. eapply wlp_mono; [apply keeps; [apply handling_shrinks|apply notifyDuringStartup_shrinks|exact Hh2]|].
    intros [] h3 Hh3. apply wlp_ret. split; [done|by right]. }
  wlp_step; [by apply Hn|]. apply wlp_bind. eapply wlp_mono; [apply keeps; [apply handling_shrinks|apply serialSend_shrinks|exact Hh1]|].
  intros b2 h2 Hh2. wlp_step; [by apply Hn|]. apply wlp_ret. split; [done|by left].
Qed.

(** Callbacks that only shrink the handler. *)
Lemma quiet_callback msg (e : Event ChaincodeMessageType handlerState) m h : handling msg h -> guar shrinks m -> yields (fun e' => e' = e \/ e' = Cancel e) m ->
  wlp m (fun e' h' => handling msg h' /\ (e' = e \/ e' = Cancel e)) h.
Proof.
  intros Hh Hm Hy. unfold wlp. destruct (m h) as [e' h'| |] eqn:E; [|done..]. split; [|by eapply Hy]. eapply handling_shrinks; [done|by eapply Hm].
Qed.

Lemma enterInitState_safe msg e h : handling msg h ->
  wlp (enterInitState (S := S) (Itr := Itr) sendOk text msg e) (fun e' h' => handling msg h' /\ (e' = e \/ e' = Cancel e)) h.
Proof.
  intros [Hs Hi]. apply wlp_bind, wlp_when; [|intros _; apply wlp_ret; split; [by split|by left]]. intros Ht%bool_decide_eq_true. specialize (Hi Ht).
  apply wlp_bind, wlp_modify.
  assert (handling msg (h <| h_isTransaction := insert (msg_Uuid msg) true <$> h_isTransaction h |>)) as Hh.
  { split; [|done]. destruct Hs. split; try done. intros u (m & E & Hu). cbn in E. destruct (h_isTransaction h) as [m0|] eqn:Em; [|done]. cbn in E.
    injection E as <-. destruct (decide (u = msg_Uuid msg)) as [->|Hne]; [done|]. rewrite lookup_insert_ne in Hu by done. apply sf_marked0. by exists m0. }
  eapply wlp_mono; [apply keeps; [apply handling_shrinks| |exact Hh]|].
  - repeat guar_step; auto with shrink.
  - intros [] h1 Hh1. apply wlp_ret. auto.
Qed.

Ltac quiet := apply quiet_callback; [done|unfold beforeInitState, enterEstablishedState, enterReadyState, enterEndState; repeat guar_step; auto with shrink|
  repeat (apply yields_bind; intros ?); apply yields_ret; auto].

Lemma callbacks_safe msg k fn e h : handlerCallbacks (S := S) (Itr := Itr) sendOk text k = Some fn -> handling msg h ->
  cbPre handlerEvents (msg_Type msg) k h ->
  wlp (fn msg e) (fun e' h' => handling msg h' /\ (e' = e \/ e' = Cancel e)) h.
Proof.
  intros Hk Hh Hp.
  assert (forall kind, fn = spawn kind -> (kind = TaskBusy -> f_current (h_FSM h) <> createdstate) ->
    wlp (fn msg e) (fun e' h' => handling msg h' /\ (e' = e \/ e' = Cancel e)) h) as Hspawn.
  { intros kind -> Hb. eapply wlp_mono; [by apply spawn_safe|]. intros e' h' [? ->]. auto. }
  destruct k as [[ev|]|[q|]|[q|]|[ev|]]; try done; cbn in Hk.
  - destruct ev; try done; injection Hk as <-.
    + destruct Hp as [Hev [dst Hd]]. rewrite <- Hev in Hd. apply register_safe; [done|by eapply register_only].
    + quiet.
  - cbn in Hp. destruct q; try done; injection Hk as <-.
    all: try (apply (Hspawn TaskBusy); [done|]; intros _; cbn in Hp; congruence).
    + quiet.
    + by apply enterInitState_safe.
    + quiet.
    + quiet.
  - destruct ev; try done; injection Hk as <-; by eapply Hspawn.
Qed.

Lemma event_safe msg h : handling msg h ->
  wlp (fsm_Event handlerEvents (handlerCallbacks (S := S) (Itr := Itr) sendOk text) (msg_Type msg) msg) (fun _ => handling msg) h.
Proof.
  intros Hh. apply fsm_Event_wlp; [| | |done].
  - intros h1 b Hh1. eapply handling_shrinks; [exact Hh1|other].
  - intros h1 src dst [[] Hi] Ht. split; [|done]. split; try done. cbn. intros E. by destruct (never_created _ _ _ Ht E).
  - intros k fn e h1 Hk (Hh1 & He & _) Hp. eapply wlp_mono; [by apply (callbacks_safe msg k)|]. intros e' h2 [Hh2 [-> | ->]]; by split.
Qed.

Lemma HandleMessage_safe msg h : handling msg h -> wlp (HandleMessage (S := S) (Itr := Itr) secHelper sendOk text msg) (fun _ => safe) h.
Proof.
  intros Hh. unfold HandleMessage.
  assert (forall m : M (Handler S Itr) bool, guar shrinks m -> wlp m (fun _ => safe) h) as Hq.
  { intros m Hm. apply keeps; [apply safe_shrinks|done|apply Hh]. }
  assert (wlp (h0 ← get; if Cannot handlerEvents (msg_Type msg) h0 then
      when (bool_decide (msg_Type msg ∈ [PUT_STATE; DEL_STATE; INVOKE_CHAINCODE]) && negb (getIsTransaction (msg_Uuid msg) h0))
        (serialSend sendOk (errorMsg text msg InQueryContext) ;; mret tt) ;; mret true
    else err ← fsm_Event handlerEvents (handlerCallbacks sendOk text) (msg_Type msg) msg; mret (filterError err)) (fun _ => safe) h) as Hev.
  { do 3 wlp_step.
    - apply Hq. repeat guar_step; auto with shrink.
    - apply wlp_bind. eapply wlp_mono; [by apply event_safe|]. intros err h1 Hh1. apply wlp_ret, Hh1. }
  destruct (msg_Type msg) eqn:Et; try exact Hev.
  - apply wlp_bind, wlp_modify, wlp_ret. apply tasks_safe; [apply Hh|].
    intros t [Ht|Ht%list_elem_of_singleton]%elem_of_app; [by left|right]. subst t. by right.
  - apply Hq. repeat guar_step; auto with shrink.
  - apply Hq. repeat guar_step; auto with shrink.
Qed.

Lemma streamRecv_safe msg h : safe h -> (forall m, msg = Some m -> msg_Type m <> INIT) ->
  wlp (streamRecv (S := S) (Itr := Itr) secHelper sendOk text msg) (fun _ => safe) h.
Proof.
  intros Hs Hm. unfold streamRecv. do 3 wlp_step; [by apply wlp_ret|]. wlp_step.
  - apply wlp_bind. eapply wlp_mono; [apply HandleMessage_safe; split; [done|by intros ?%Hm]|]. intros b h1 Hs1.
    apply keeps; [apply safe_shrinks|repeat guar_step; auto with shrink|done].
  - apply keeps; [apply safe_shrinks|auto with shrink|done].
Qed.

Lemma streamNext_safe i h : safe h -> wlp (streamNext (S := S) (Itr := Itr) secHelper sendOk text i) (fun _ => safe) h.
Proof.
  intros Hs. unfold streamNext. do 3 wlp_step; [by apply wlp_ret|]. wlp_step; [|by apply wlp_ret]. destruct n as [msg send].
  apply wlp_bind, wlp_modify, wlp_bind.
  assert (handling msg (h <| h_nextState := delete i (h_nextState h) |>)) as Hh.
  { split.
    - eapply safe_shrinks; [exact Hs|]. split; try done. intros n. apply list_elem_of_delete_inv.
    - apply (sf_next _ Hs (mkNextStateInfo msg send)). by eapply list_elem_of_lookup_2. }
  eapply wlp_mono; [by apply HandleMessage_safe|]. intros b h1 Hs1. apply keeps; [apply safe_shrinks|repeat guar_step; auto with shrink|done].
Qed.

(** ** What the peer starts *)

Lemma started_safe h u : safe h -> safe (h <| h_started := h_started h ++ [u] |>).
Proof.
  intros []. split; cbn; try done.
  - intros v Hv. apply elem_of_app. left. by apply sf_marked0.
  - intros t Ht Hk Hst. apply elem_of_app. left. by apply sf_tasks0.
  - intros n Hn Hi. apply elem_of_app. left. by apply sf_next0.
  - intros v cc key Hw. destruct (sf_writes0 v cc key Hw) as [Hv Hc]. split; [|done]. apply elem_of_app. by left.
Qed.

Lemma setContext_message tx msg msg' : setChaincodeSecurityContext secHelper tx msg = Ok msg' -> msg_Type msg' = msg_Type msg /\ msg_Uuid msg' = msg_Uuid msg.
Proof. unfold setChaincodeSecurityContext. intros. repeat (destruct tx || case_match); by simplify_eq. Qed.

Lemma initOrReady_safe uuid f args tx depTx h : safe h ->
  wlp (initOrReady (S := S) (Itr := Itr) secHelper uuid f args tx depTx) (fun _ => safe) h.
Proof.
  intros Hs. unfold initOrReady. apply wlp_bind. eapply wlp_mono; [apply keeps; [apply safe_shrinks|apply createTxContext_shrinks|done]|].
  intros created h1 Hs1. wlp_step; [|by apply wlp_ret].
  assert (forall (m : M (Handler S Itr) (result unit)) h, guar shrinks m -> safe h -> wlp m (fun _ => safe) h) as Hq.
  { intros m h0 Hm. by apply keeps; [apply safe_shrinks|]. }
  assert (forall payload (send : bool), wlp (initialized ← initializeSecContext (S := S) (Itr := Itr) tx depTx;
      match initialized with
      | Err => deleteTxContext uuid ;; mret Err
      | Ok _ =>
        match setChaincodeSecurityContext secHelper tx (ccMessage (if send then READY else INIT) payload uuid) with
        | Err => mret Err
        | Ok ccMsg =>
          modify (fun h => h <| h_started := if send then h_started h else h_started h ++ [uuid] |>) ;;
          triggerNextState ccMsg send ;; mret (Ok tt)
        end
      end) (fun _ => safe) h1) as Hgo.
  { intros payload send. apply wlp_bind. eapply wlp_mono; [apply Hq; [|done]|].
    { unfold initializeSecContext. repeat guar_step; other. }
    intros [[]|] h2 Hs2; [|apply Hq; [repeat guar_step; auto with shrink|done]].
    destruct (setChaincodeSecurityContext _ _ _) as [ccMsg|] eqn:E; [|by apply wlp_ret]. apply setContext_message in E as [Et Eu].
    apply wlp_bind, wlp_modify, wlp_bind.
    assert (safe (h2 <| h_started := if send then h_started h2 else h_started h2 ++ [uuid] |>)) as Hs3.
    { destruct send; [|by apply started_safe]. by destruct h2. }
    eapply wlp_mono; [apply trigger_safe; [exact Hs3|]|intros [] h3 Hs4; by apply wlp_ret]. rewrite Et, Eu. cbn. destruct send; [done|]. intros _.
    apply elem_of_app. right. by apply list_elem_of_singleton. }
  destruct (bool_decide (is_Some f) || bool_decide (is_Some args)).
  - destruct (marshalChaincodeInput _) as [payload|]; [apply (Hgo payload false)|]. apply Hq; [repeat guar_step; auto with shrink|done].
  - apply (Hgo [] true).
Qed.

(** A transaction is marked and started together. *)
Lemma mark_safe u (isQuery : bool) h : safe h ->
  let h2 := h <| h_isTransaction := insert u (negb isQuery) <$> h_isTransaction h |> in
  let h3 := h2 <| h_started := if isQuery then h_started h2 else h_started h2 ++ [u] |> in
  safe h3 /\ (isQuery = false -> u ∈ h_started h3).
Proof.
  intros Hs h2 h3. split; [|intros ->; apply elem_of_app; right; by apply list_elem_of_singleton].
  assert (safe (h <| h_started := h_started h3 |>)) as [Hm Ht Hn Hw Hc].
  { subst h3 h2. cbn. destruct isQuery; [by destruct h|by apply started_safe]. }
  split; try done. intros v (m & E & Hv). cbn in E. destruct (h_isTransaction h) as [m0|] eqn:Em; [|done]. cbn in E. injection E as <-.
  destruct (decide (v = u)) as [->|Hne].
  - rewrite lookup_insert_eq in Hv. destruct isQuery; [done|]. apply elem_of_app; right; by apply list_elem_of_singleton.
  - rewrite lookup_insert_ne in Hv by done. apply Hm. by exists m0.
Qed.

Lemma sendExecuteMessage_safe msg tx h : safe h -> wlp (sendExecuteMessage (S := S) (Itr := Itr) secHelper sendOk msg tx) (fun _ => safe) h.
Proof.
  intros Hs. unfold sendExecuteMessage. apply wlp_bind. eapply wlp_mono; [apply keeps; [apply safe_shrinks|apply createTxContext_shrinks|done]|].
  intros created h1 Hs1. wlp_step; [|by apply wlp_ret]. apply wlp_bind, wlp_modify, wlp_bind, wlp_modify.
  set (h2 := (h1 <| h_isTransaction := insert (msg_Uuid msg) (negb (bool_decide (msg_Type msg = QUERY))) <$> h_isTransaction h1 |>)).
  set (h3 := (h2 <| h_started := if bool_decide (msg_Type msg = QUERY) then h_started h2 else h_started h2 ++ [msg_Uuid msg] |>)).
  assert (safe h3 /\ (bool_decide (msg_Type msg = QUERY) = false -> msg_Uuid msg ∈ h_started h3)) as [Hs3 Hi].
  { by apply mark_safe. }
  destruct (setChaincodeSecurityContext _ _ _) as [msg'|] eqn:E; [|by apply wlp_ret]. apply setContext_message in E as [Et Eu]. wlp_step.
  - apply wlp_bind. eapply wlp_mono; [apply trigger_safe; [exact Hs3|]|intros [] h4 Hs4; by apply wlp_ret]. rewrite Et, Eu. intros Ht. apply Hi. by rewrite Ht.
  - apply keeps; [apply safe_shrinks| |done]. repeat guar_step; auto with shrink.
Qed.

Lemma takeResponse_shrinks u timedOut : guar shrinks (takeResponse (S := S) (Itr := Itr) u timedOut).
Proof. unfold takeResponse. repeat guar_step; auto with shrink. Qed.

Lemma step_safe h h' : safe h -> peerStep h h' -> safe h'.
Proof.
  intros Hs Hst. destruct Hst as [msg Hm E|E|i E|i E|uuid f args tx depTx r E|msg tx r E|uuid timedOut r E]; (eapply (wlp_done _ (fun _ => safe)); [|exact E]).
  - apply streamRecv_safe; [done|]. by intros m [= <-].
  - by apply streamRecv_safe.
  - by apply streamNext_safe.
  - by apply runTask_safe.
  - by apply initOrReady_safe.
  - by apply sendExecuteMessage_safe.
  - apply keeps; [apply safe_shrinks|apply takeResponse_shrinks|done].
Qed.

Lemma reach_safe cmap l h : peerReach (newChaincodeSupportHandler cmap l) h -> safe h.
Proof.
  intros Hr. induction Hr as [|h1 h2 _ IH Hst]; [|by eapply step_safe].
  split; try (by intros; set_solver). by intros u (m & E & _).
Qed.

(** C9. As long as the chaincode sends no INIT message of its own, whatever else it sends, in
    whatever order the goroutines run, and whatever the peer asks of it: every write that the
    peer makes for the chaincode is made for a transaction (or the initialisation) that the
    peer has started, and under the name that the chaincode has registered. *)
Theorem chaincode_writes_own cmap l h u cc key : peerReach (newChaincodeSupportHandler cmap l) h -> (u, cc, key) ∈ h_writes h ->
  u ∈ h_started h /\ exists cid, h_ChaincodeID h = Some cid /\ cc = cid_Name cid.
Proof. intros Hr%reach_safe Hw. by eapply sf_writes. Qed.
End safety.

(** * A chaincode that initialises itself *)

(** An event that moves the machine, with a callback before it. *)
Lemma fsm_Event_moves_before {Ev Q St A : Type} `{!EqDecision Ev} `{!EqDecision Q} `{!HasFSM St Q} (events : list (EventDesc Ev Q))
    (callbacks : cKey Ev Q -> option (A -> Event Ev Q -> M St (Event Ev Q))) ev a (s s' : St) src dst fn :
  (forall f g s, setFSM f (setFSM g s) = setFSM f s) -> (forall f s, getFSM (setFSM f s) = f) ->
  getFSM s = mkFSM src false -> transitions events ev src = Some dst -> src <> dst ->
  callbacks (before_event (Some ev)) = Some fn -> fn a (mkEvent ev src dst false false false) s = Done (mkEvent ev src dst false false false) s' ->
  getFSM s' = mkFSM src false -> callbacks (before_event None) = None ->
  callbacks (leave_state (Some src)) = None -> callbacks (leave_state None) = None ->
  fsm_Event events callbacks ev a s = (e ← enterStateCallbacks callbacks a (mkEvent ev src dst false false false);
    e ← afterEventCallbacks callbacks a e; setTransition false ;; mret (if e_Err e then CallbackError else fsmOk))
    (setFSM (mkFSM dst true) s').
Proof.
  intros Hss Hgs Hs Ht Hne B1 E Hs' B2 L1 L2.
  unfold fsm_Event, Transition, beforeEventCallbacks, leaveStateCallbacks, setTransition, callback.
  cbv [mbind M_bind get modify mret M_ret]. rewrite Hs. cbn [f_transition f_current]. rewrite Ht. cbn [e_Event]. rewrite B1, E. cbn [e_canceled].
  rewrite B2. cbn [e_canceled]. rewrite Hs'. cbn [f_current]. rewrite bool_decide_eq_false_2 by done. rewrite !Hgs, Hs'. cbn.
  rewrite L1. cbn [e_canceled e_async orb]. rewrite L2. cbn [e_canceled e_async]. rewrite !Hgs. cbn [e_Dst].
  change (negb (f_transition ((mkFSM src false) <| f_transition := true |>))) with false. cbv beta iota. by rewrite Hgs, Hss.
Qed.

Section forged.
Context {S ID Itr : Type} `{!LedgerCalls S ID} `{!LedgerScans S Itr} `{Codec : !ChaincodeCodec}.
Context (GenerateUUID : nat -> bytes) (text : ccError -> bytes)
  (launchOther : ChaincodeSpec -> bytes -> TransactionType -> M S (result (bytes * list bytes)))
  (executeOther : bytes -> ChaincodeMessage -> M S (option ChaincodeMessage * bool)).

Abbreviation sends := (fun _ : nat => true).

(** A chaincode registers, sends an INIT message with a uuid of its choice, and a write. *)
Definition forge (id u put : bytes) : M (Handler S Itr) unit :=
  streamRecv None sends text (Some (ccMessage REGISTER id [])) ;;
  streamRecv None sends text (Some (ccMessage INIT [] u)) ;;
  streamRecv None sends text (Some (ccMessage PUT_STATE put u)) ;;
  runTask None sends GenerateUUID text launchOther executeOther 0 ;;
  runTask None sends GenerateUUID text launchOther executeOther 0.

Lemma task_put h u c put key value l : h_tasks h = [mkTask TaskBusy (ccMessage PUT_STATE put u) true] -> h_ChaincodeID h = Some c ->
  unmarshalPutStateInfo put = Ok (key, value) -> callSetState (cid_Name c) key (sliceOf value) (h_ledger_ h) = Done (Ok tt) l ->
  runTask (Itr := Itr) None sends GenerateUUID text launchOther executeOther 0 h =
    Done tt (h <| h_tasks := [] |> <| h_ledger_ := l |> <| h_writes := h_writes h ++ [(u, cid_Name c, key)] |>
    <| h_uuidMap := (fun m => m ∖ {[u]}) <$> h_uuidMap h |> <| h_nextState := h_nextState h ++ [mkNextStateInfo (ccMessage RESPONSE [] u) true] |>).
Proof.
  destruct h; cbn. intros -> -> Hp E.
  unfold runTask, serve, enterBusyState, chaincodeName, busyPutState, recordWrite, onLedger_, encrypt, encryptOrDecrypt.
  cbv [mbind M_bind get modify mret M_ret]. cbn. rewrite Hp. cbn. by rewrite E.
Qed.

(** C36. The peer does not tell a chaincode's INIT message from its own: a chaincode that sends
    one has the peer write to the ledger for a uuid that the peer has never started. *)
Theorem forged_init_writes id name put u key value l l' : unmarshalChaincodeID id = Ok name -> unmarshalPutStateInfo put = Ok (key, value) ->
  callSetState (cid_Name name) key (sliceOf value) l = Done (Ok tt) l' ->
  exists h, forge id u put (newChaincodeSupportHandler ∅ l) = Done tt h /\ h_ledger_ h = l' /\ h_writes h = [(u, cid_Name name, key)] /\ h_started h = [].
Proof.
  intros Hid Hput E.
  assert (forall l : S, beforeRegisterEvent (Itr := Itr) sends (ccMessage REGISTER id []) (mkEvent REGISTER createdstate establishedstate false false false)
    (newChaincodeSupportHandler ∅ l) = Done (mkEvent REGISTER createdstate establishedstate false false false)
      (mkHandler (mkFSM createdstate false) (Some name) None true None (Some ∅) (Some ∅) (Some ∅) [] (<[cid_Name name := mkLaunched true None]> ∅) l []
      [ccMessage REGISTERED [] []] 1 0 false [] [])) as Hreg.
  { intros l0. unfold beforeRegisterEvent. cbn [msg_Payload ccMessage]. rewrite Hid. reflexivity. }
  set (h1 := mkHandler (Itr := Itr) (mkFSM establishedstate false) (Some name) None true None (Some ∅) (Some ∅) (Some ∅) [] (<[cid_Name name := mkLaunched true None]> ∅) l []
      [ccMessage REGISTERED [] []] 1 0 false [] []).
  assert (streamRecv (Itr := Itr) None sends text (Some (ccMessage REGISTER id [])) (newChaincodeSupportHandler ∅ l) = Done tt h1) as E1.
  { assert (fsm_Event handlerEvents (handlerCallbacks (S := S) (Itr := Itr) sends text) REGISTER (ccMessage REGISTER id []) (newChaincodeSupportHandler ∅ l) = Done fsmOk h1) as Ef.
    { erewrite fsm_Event_moves_before; [| | |reflexivity|reflexivity|done|reflexivity|apply Hreg|reflexivity..]; reflexivity. }
    unfold streamRecv. cbv [mbind M_bind get]. change (h_ended (newChaincodeSupportHandler (Itr := Itr) ∅ l)) with false. cbv iota.
    unfold HandleMessage. change (msg_Type (ccMessage REGISTER id [])) with REGISTER. cbv iota. cbv [mbind M_bind get].
    change (Cannot handlerEvents REGISTER (newChaincodeSupportHandler (Itr := Itr) ∅ l)) with false. cbv beta iota. rewrite Ef. reflexivity. }
  set (h2 := mkHandler (Itr := Itr) (mkFSM initstate false) (Some name) None true None (Some ∅) (Some ∅) (Some (<[u := true]> ∅)) []
    (<[cid_Name name := mkLaunched true None]> ∅) l [] [ccMessage REGISTERED [] []; ccMessage INIT [] u] 2 0 false [] []).
  assert (streamRecv None sends text (Some (ccMessage INIT [] u)) h1 = Done tt h2) as E2 by reflexivity.
  assert (streamRecv None sends text (Some (ccMessage PUT_STATE put u)) h2 =
    Done tt (h2 <| h_FSM := mkFSM busyinitstate false |> <| h_tasks := [mkTask TaskBusy (ccMessage PUT_STATE put u) false] |>)) as E3 by reflexivity.
  unfold forge. cbv [mbind M_bind]. rewrite E1, E2, E3.
  erewrite task_start; [|reflexivity|reflexivity|apply not_elem_of_empty|].
  2: { intros _. unfold getIsTransaction. cbn. by rewrite lookup_insert_eq. }
  eexists. split; [by eapply task_put|done].
Qed.

(** A range query under a uuid that has no context ends the process of the peer: the
    context is used without a test for nil. *)
Theorem unknown_range_query_panics h cid um msg startKey endKey itr l : h_FSM h = mkFSM readystate false -> h_ChaincodeID h = Some cid ->
  h_tasks h = [] -> h_ended h = false -> h_uuidMap h = Some um -> msg_Uuid msg ∉ um -> getTxContext (msg_Uuid msg) h = None ->
  msg_Type msg = RANGE_QUERY_STATE -> unmarshalRangeQueryState (msg_Payload msg) = Ok (startKey, endKey) ->
  callGetStateRangeScanIterator (cid_Name cid) startKey endKey (negb (getIsTransaction (msg_Uuid msg) h)) (h_ledger_ h) = Done (Ok itr) l ->
  (streamRecv None sends text (Some msg) ;; runTask None sends GenerateUUID text launchOther executeOther 0 ;;
   runTask None sends GenerateUUID text launchOther executeOther 0) h = Panic.
Proof.
  intros Hf Hc Ht He Hum Hu Hctx Hty Hun E.
  assert (streamRecv None sends text (Some msg) h = Done tt (h <| h_tasks := [mkTask TaskRangeQueryState msg false] |>)) as E1.
  { destruct h, msg; cbn in *; subst. reflexivity. }
  cbv [mbind M_bind]. rewrite E1. erewrite task_start; [|reflexivity|exact Hum|exact Hu|done].
  destruct h; cbn in Hc, E, Hctx; subst.
  unfold runTask, serve, handleRangeQueryState, chaincodeName, onLedger_, putRangeQueryIterator, updIterators. cbv [mbind M_bind get modify mret M_ret]. cbn.
  rewrite Hun. cbn.
  match goal with |- context [callGetStateRangeScanIterator ?a ?b ?c ?d ?e] =>
    replace (callGetStateRangeScanIterator a b c d e) with (Done (S := S) (Ok itr) l) by (symmetry; exact E) end.
  cbn. by rewrite Hctx.
Qed.
End forged.

(** * Witnesses *)

Import Toy.

Lemma forged_init_writes_witness : exists h, forge (S := store) (Itr := unit) (fun _ => []) noText noLaunch noExecute [x61] [x39] (put [x63] [x01])
  (newChaincodeSupportHandler ∅ []) = Done tt h /\ h_ledger_ h = [([x61], [x63], [x01])] /\ h_writes h = [([x39], [x61], [x63])] /\ h_started h = [].
Proof.
  apply (forged_init_writes (S := store) (Itr := unit) (fun _ => []) noText noLaunch noExecute [x61] (mkChaincodeID [] [x61]) (put [x63] [x01]) [x39] [x63] [x01]);
    reflexivity.
Defined.

(** Concrete runs are evaluated by conversion, which has to see the empty map. *)
#[local] Transparent gmap_empty.

(** The peer after a computation. *)
Definition stateAfter {A} (m : M (Handler store unit) A) (h : Handler store unit) : Handler store unit :=
  match m h with Done _ h => h | _ => h end.

Definition answerOf {A} (m : M (Handler store unit) A) (h : Handler store unit) : option A :=
  match m h with Done a _ => Some a | _ => None end.

(** A run is known by its answer; the state need not be evaluated. *)
Lemma run_stateAfter {A} (m : M (Handler store unit) A) h a : answerOf m h = Some a -> m h = Done a (stateAfter m h).
Proof. unfold answerOf, stateAfter. destruct (m h); [by intros [= <-]|done..]. Qed.

Abbreviation recvs := (fun msg => streamRecv (S := store) (Itr := unit) None (fun _ => true) noText (Some msg)).

Definition peer1 : Handler store unit := stateAfter (recvs (ccMessage REGISTER [x61] [])) (newChaincodeSupportHandler ∅ []).
Definition peer2 : Handler store unit := stateAfter (initOrReady None [x30] None None None (Some deployTx)) peer1.
Definition peer3 : Handler store unit := stateAfter (streamNext None (fun _ => true) noText 0) peer2.
Definition peer4 : Handler store unit := stateAfter (sendExecuteMessage None (fun _ => true) (ccMessage TRANSACTION [] [x31]) None) peer3.
Definition peer5 : Handler store unit := stateAfter (streamNext None (fun _ => true) noText 0) peer4.
Definition peer6 : Handler store unit := stateAfter (recvs (ccMessage PUT_STATE (put [x63] [x01]) [x31])) peer5.
Definition peer7 : Handler store unit := stateAfter (runTask None (fun _ => true) (fun _ => []) noText noLaunch noExecute 0) peer6.
Definition peer8 : Handler store unit := stateAfter (runTask None (fun _ => true) (fun _ => []) noText noLaunch noExecute 0) peer7.

Abbreviation reaches := (peerReach None (fun _ => true) (fun _ => []) noText noLaunch noExecute (newChaincodeSupportHandler ∅ [])).

Lemma peer4_reach : reaches peer4.
Proof.
  eapply (reach_step _ _ _ _ _ _ _ peer3); [eapply (reach_step _ _ _ _ _ _ _ peer2); [eapply (reach_step _ _ _ _ _ _ _ peer1)|]|].
  - eapply reach_step; [apply reach_new|]. apply (step_recv _ _ _ _ _ _ _ _ (ccMessage REGISTER [x61] [])); [done|]. unfold peer1 at 1. apply run_stateAfter. reflexivity.
  - eapply (step_init _ _ _ _ _ _ _ _ [x30] None None None (Some deployTx) (Ok tt)). unfold peer2 at 1. apply run_stateAfter. reflexivity.
  - apply (step_next _ _ _ _ _ _ _ _ 0). unfold peer3 at 1. apply run_stateAfter. reflexivity.
  - eapply (step_execute _ _ _ _ _ _ _ _ (ccMessage TRANSACTION [] [x31]) None (Ok tt)). unfold peer4 at 1. apply run_stateAfter. reflexivity.
Qed.

Lemma peer8_reach : reaches peer8.
Proof.
  eapply (reach_step _ _ _ _ _ _ _ peer7); [eapply (reach_step _ _ _ _ _ _ _ peer6); [eapply (reach_step _ _ _ _ _ _ _ peer5)|]|].
  - eapply reach_step; [apply peer4_reach|]. apply (step_next _ _ _ _ _ _ _ _ 0). unfold peer5 at 1. apply run_stateAfter. reflexivity.
  - apply (step_recv _ _ _ _ _ _ _ _ (ccMessage PUT_STATE (put [x63] [x01]) [x31])); [done|]. unfold peer6 at 1. apply run_stateAfter. reflexivity.
  - apply (step_task _ _ _ _ _ _ _ _ 0). unfold peer7 at 1. apply run_stateAfter. reflexivity.
  - apply (step_task _ _ _ _ _ _ _ _ 0). unfold peer8 at 1. apply run_stateAfter. reflexivity.
Qed.

(** A transaction has written a key. *)
Lemma chaincode_writes_own_witness : [x31] ∈ h_started peer8 /\ exists cid, h_ChaincodeID peer8 = Some cid /\ [x61] = cid_Name cid.
Proof.
  apply (chaincode_writes_own None (fun _ => true) (fun _ => []) noText noLaunch noExecute ∅ [] peer8 [x31] [x61] [x63]); [apply peer8_reach|].
  vm_compute. by left.
Defined.

Lemma unknown_range_query_panics_witness :
  (recvs (ccMessage RANGE_QUERY_STATE (put [x61] [x7a]) [x39]) ;; runTask None (fun _ => true) (fun _ => []) noText noLaunch noExecute 0 ;;
   runTask None (fun _ => true) (fun _ => []) noText noLaunch noExecute 0) peer3 = Panic.
Proof.
  apply (unknown_range_query_panics (fun _ => []) noText noLaunch noExecute peer3 (mkChaincodeID [] [x61]) ∅
    (ccMessage RANGE_QUERY_STATE (put [x61] [x7a]) [x39]) [x61] [x7a] tt []); try reflexivity. apply not_elem_of_empty.
Defined.
