(* ===== verification/ShimTables.v ===== *)
(** Tables of a chaincode, the second half of core/chaincode/shim/chaincode.go: rows under keys
    made of the table's name and the row's key columns. *)
From stdpp Require Import base gmap list.
From Stdlib Require Import ZArith Lia.
From Stdlib Require Import Ascii Strings.Byte.
From S2P Require Import Prelude GoStd GoBytes LedgerUtil KVStore Blockchain Ledger ExecTransaction Fsm ChaincodeHandler ShimHandler Plugin.

(** * Data *)

(** [ColumnDefinition_Type]; a value that is none of the constants is an invalid type. *)
Inductive ColumnType := TSTRING | TINT32 | TINT64 | TUINT32 | TUINT64 | TBYTES | TBOOL | TInvalid (n : Z).

#[export] Instance ColumnType_eq_dec : EqDecision ColumnType.
Proof. solve_decision. Defined.

Record ColumnDefinition := mkColumnDefinition {
  cd_Name : bytes;
  cd_Type : ColumnType;
  cd_Key : bool
}.

Record Table := mkTable {
  tbl_Name : bytes;
  ColumnDefinitions : list ColumnDefinition
}.

(** A column's value; [ColNil] is a column without one. *)
Inductive Column :=
| ColString (s : bytes)
| ColInt32 (n : Z)
| ColInt64 (n : Z)
| ColUint32 (n : Z)
| ColUint64 (n : Z)
| ColBytes (b : bytes)
| ColBool (b : bool)
| ColNil.

#[export] Instance Column_eq_dec : EqDecision Column.
Proof. solve_decision. Defined.

(** A row has pointers to its columns, which may be nil. *)
Definition Row := list (option Column).

Class TableCodec := {
  marshalTable : Table -> result bytes;
  unmarshalTable : bytes -> result Table;
  marshalRow : Row -> result bytes;
  unmarshalRow : bytes -> result Row
}.

Inductive tableError := ErrTableNotFound | OtherError.

Inductive tableResult (A : Type) := TOk (a : A) | TErr (e : tableError).
Arguments TOk {A}.
Arguments TErr {A}.

(** * Keys *)

(** [strconv.Itoa] and [strconv.FormatUint] of what fits in 64 bits. *)
Definition decimal (n : Z) : bytes := byte_of_ascii <$> formatDigits 20 n [].

Definition FormatInt (n : Z) : bytes := if (n <? 0)%Z then x2d :: decimal (- n) else decimal n.

Definition FormatBool (b : bool) : bytes := if b then [x74; x72; x75; x65] else [x66; x61; x6c; x73; x65].

Definition validateTableName (name : bytes) : bool := negb (bool_decide (name = [])).

(** The length of a byte string in decimal, and the byte string. *)
Definition lengthPrefixed (s : bytes) : bytes := decimal (Z.of_nat (length s)) ++ s.

Definition getTableNameKey (name : bytes) : result bytes :=
  if validateTableName name then Ok (lengthPrefixed name) else Err.

(** The getters of a column give the zero value when it has a value of another type. *)
Definition GetInt32 (c : Column) : Z := match c with ColInt32 n => n | _ => 0 end.

Definition columnString (key : Column) : bytes :=
  match key with
  | ColString s => s
  | ColInt32 _ => FormatInt (GetInt32 key)
  | ColInt64 n => FormatInt n
  | ColUint32 _ => decimal (GetInt32 key mod two64)
  | ColUint64 n => decimal n
  | ColBytes b => b
  | ColBool b => FormatBool b
  | ColNil => []
  end.

Definition buildKeyString (tableName : bytes) (keys : list Column) : result bytes :=
  match getTableNameKey tableName with
  | Err => Err
  | Ok tableNameKey => Ok (foldl (fun keyBuffer key => keyBuffer ++ lengthPrefixed (columnString key)) tableNameKey keys)
  end.

(** * The stub *)

Definition stub_GetState (key : bytes) (k : result bytes -> stubRun) : stubRun :=
  StubCall (StubGetState key) (fun r => match r with Ok (ReplyBytes b) => k (Ok b) | _ => k Err end).

Definition stub_PutState (key value : bytes) (k : result unit -> stubRun) : stubRun :=
  StubCall (StubPutState key value) (fun r => match r with Ok _ => k (Ok tt) | Err => k Err end).

Definition stub_DelState (key : bytes) (k : result unit -> stubRun) : stubRun :=
  StubCall (StubDelState key) (fun r => match r with Ok _ => k (Ok tt) | Err => k Err end).

Section tables.
Context `{Codec : !TableCodec}.

(** [getTable]: whether there are bytes is asked before whether there is an error.  A payload
    without bytes arrives as nil. *)
Definition getTable (tableName : bytes) (k : tableResult Table -> stubRun) : stubRun :=
  match getTableNameKey tableName with
  | Err => k (TErr OtherError)
  | Ok tableNameKey =>
    stub_GetState tableNameKey (fun r =>
      match r with
      | Err | Ok [] => k (TErr ErrTableNotFound)
      | Ok tableBytes => match unmarshalTable tableBytes with Err => k (TErr OtherError) | Ok table => k (TOk table) end
      end)
  end.

(** The loop over the definitions: the names so far, and whether there is a key. *)
Fixpoint checkDefinitions (columnDefinitions : list (option ColumnDefinition)) (nameMap : list bytes) (hasKey : bool)
    : result (list ColumnDefinition * bool) :=
  match columnDefinitions with
  | [] => Ok ([], hasKey)
  | None :: _ => Err
  | Some definition :: rest =>
    if bool_decide (cd_Name definition = []) then Err else
    if bool_decide (cd_Name definition ∈ nameMap) then Err else
    match cd_Type definition with
    | TInvalid _ => Err
    | _ =>
      match checkDefinitions rest (cd_Name definition :: nameMap) (if cd_Key definition then true else hasKey) with
      | Err => Err
      | Ok (defs, hasKey) => Ok (definition :: defs, hasKey)
      end
    end
  end.

Definition CreateTable (name : bytes) (columnDefinitions : list (option ColumnDefinition)) (k : tableResult unit -> stubRun) : stubRun :=
  getTable name (fun found =>
    match found with
    | TOk _ | TErr OtherError => k (TErr OtherError)
    | TErr ErrTableNotFound =>
      match columnDefinitions with
      | [] => k (TErr OtherError)
      | _ =>
        match checkDefinitions columnDefinitions [] false with
        | Err | Ok (_, false) => k (TErr OtherError)
        | Ok (defs, true) =>
          match marshalTable (mkTable name defs) with
          | Err => k (TErr OtherError)
          | Ok tableBytes =>
            match getTableNameKey name with
            | Err => k (TErr OtherError)
            | Ok tableNameKey =>
              stub_PutState tableNameKey tableBytes (fun r => k (match r with Ok _ => TOk tt | Err => TErr OtherError end))
            end
          end
        end
      end
    end).

Definition GetTable (tableName : bytes) (k : tableResult Table -> stubRun) : stubRun := getTable tableName k.

(** The loop of [DeleteTable], of at most [fuel] rounds. *)
Fixpoint deleteRows (fuel : nat) (iter : StateRangeQueryIterator) (k : result unit -> StateRangeQueryIterator -> stubRun) : stubRun :=
  match fuel with
  | O => StubPanic
  | S fuel =>
    if negb (HasNext iter) then k (Ok tt) iter else
    iter_Next iter (fun r iter =>
      match r with
      | Err => k Err iter
      | Ok (key, _) => stub_DelState key (fun r => match r with Err => k Err iter | Ok _ => deleteRows fuel iter k end)
      end)
  end.

(** The iterator is closed after the table itself is deleted. *)
Definition DeleteTable (fuel : nat) (tableName : bytes) (k : result unit -> stubRun) : stubRun :=
  match getTableNameKey tableName with
  | Err => k Err
  | Ok tableNameKey =>
    RangeQueryState (tableNameKey ++ [x31]) (tableNameKey ++ [x3a]) (fun iter =>
      match iter with
      | Err => k Err
      | Ok iter =>
        deleteRows fuel iter (fun r iter =>
          match r with
          | Err => iter_Close iter (fun _ => k Err)
          | Ok _ => stub_DelState tableNameKey (fun r => iter_Close iter (fun _ => k r))
          end)
      end)
  end.

(** What [getKeyAndVerifyRow] finds: the key columns, an error, or a nil column, which panics. *)
Inductive verdict := VKeys (keys : list Column) | VError | VPanic.

Definition hasType (c : Column) (t : ColumnType) : bool :=
  match c with
  | ColString _ => bool_decide (t = TSTRING)
  | ColInt32 _ => bool_decide (t = TINT32)
  | ColInt64 _ => bool_decide (t = TINT64)
  | ColUint32 _ => bool_decide (t = TUINT32)
  | ColUint64 _ => bool_decide (t = TUINT64)
  | ColBytes _ => bool_decide (t = TBYTES)
  | ColBool _ => bool_decide (t = TBOOL)
  | ColNil => false
  end.

Fixpoint verifyColumns (definitions : list ColumnDefinition) (columns : Row) : verdict :=
  match definitions, columns with
  | _, None :: _ => VPanic
  | d :: definitions, Some c :: columns =>
    if negb (hasType c (cd_Type d)) then VError else
    match verifyColumns definitions columns with
    | VKeys keys => VKeys (if cd_Key d then c :: keys else keys)
    | v => v
    end
  | _, _ => VKeys []
  end.

Definition getKeyAndVerifyRow (table : Table) (row : Row) : verdict :=
  if bool_decide (row = []) || negb (bool_decide (length row = length (ColumnDefinitions table))) then VError
  else verifyColumns (ColumnDefinitions table) row.

Definition isRowPrsent (tableName : bytes) (key : list Column) (k : tableResult bool -> stubRun) : stubRun :=
  match buildKeyString tableName key with
  | Err => k (TErr OtherError)
  | Ok keyString =>
    stub_GetState keyString (fun r =>
      match r with
      | Err => k (TErr OtherError)
      | Ok rowBytes => k (TOk (negb (bool_decide (rowBytes = []))))
      end)
  end.

Definition insertRowInternal (tableName : bytes) (row : Row) (update : bool) (k : tableResult bool -> stubRun) : stubRun :=
  getTable tableName (fun table =>
    match table with
    | TErr e => k (TErr e)
    | TOk table =>
      match getKeyAndVerifyRow table row with
      | VPanic => StubPanic
      | VError => k (TErr OtherError)
      | VKeys key =>
        isRowPrsent tableName key (fun present =>
          match present with
          | TErr e => k (TErr e)
          | TOk present =>
            if (present && negb update) || (negb present && update) then k (TOk false) else
            match marshalRow row with
            | Err => k (TErr OtherError)
            | Ok rowBytes =>
              match buildKeyString tableName key with
              | Err => k (TErr OtherError)
              | Ok keyString =>
                stub_PutState keyString rowBytes (fun r => k (match r with Ok _ => TOk true | Err => TErr OtherError end))
              end
            end
          end)
      end
    end).

Definition InsertRow (tableName : bytes) (row : Row) (k : tableResult bool -> stubRun) : stubRun := insertRowInternal tableName row false k.

Definition ReplaceRow (tableName : bytes) (row : Row) (k : tableResult bool -> stubRun) : stubRun := insertRowInternal tableName row true k.

(** [GetRow]: no bytes are those of a row without columns. *)
Definition GetRow (tableName : bytes) (key : list Column) (k : result Row -> stubRun) : stubRun :=
  match buildKeyString tableName key with
  | Err => k Err
  | Ok keyString =>
    stub_GetState keyString (fun r => match r with Err => k Err | Ok rowBytes => k (unmarshalRow rowBytes) end)
  end.

Definition DeleteRow (tableName : bytes) (key : list Column) (k : result unit -> stubRun) : stubRun :=
  match buildKeyString tableName key with
  | Err => k Err
  | Ok keyString => stub_DelState keyString k
  end.
End tables.
