(* ===== verification/TableTheorems.v ===== *)
(** What the tables of a chaincode do: rows of a table with one key column are inserted, found,
    replaced and deleted as rows under distinct keys; other tables can confuse keys. *)
From stdpp Require Import base gmap list.
From Stdlib Require Import ZArith Lia.
From Stdlib Require Import Ascii Strings.Byte.
From S2P Require Import Prelude GoStd GoBytes LedgerUtil KVStore Blockchain Ledger ExecTransaction Fsm ChaincodeHandler ShimHandler Plugin ShimTables.

Open Scope Z_scope.

(** * Keys *)

Lemma decimal_inj n n' : is_u64 n -> is_u64 n' -> decimal n = decimal n' -> n = n'.
Proof.
  intros Hn Hn' E. apply (f_equal (fmap ascii_of_byte)) in E. unfold decimal in E. rewrite <- !list_fmap_compose in E.
  assert (forall l : list ascii, (ascii_of_byte ∘ byte_of_ascii) <$> l = l) as Hid.
  { intros l. rewrite <- (list_fmap_id l) at 2. apply list_fmap_ext. intros i c _. apply ascii_of_byte_of_ascii. }
  rewrite !Hid in E. apply (f_equal (fun l => parseDigits l 0)) in E. unfold is_u64, two64 in *.
  rewrite !parse_format in E by (unfold two64; lia). by injection E.
Qed.

Lemma formatDigits_grows fuel : forall n acc, (length acc <= length (formatDigits fuel n acc))%nat.
Proof.
  induction fuel as [|fuel IH]; intros n acc; [done|]. cbn [formatDigits]. destruct (n <? 10); [cbn; lia|].
  etransitivity; [|apply IH]. cbn. lia.
Qed.

Lemma formatDigits_mono fuel : forall n n' acc acc', 0 <= n <= n' -> (length acc <= length acc')%nat ->
  (length (formatDigits fuel n acc) <= length (formatDigits fuel n' acc'))%nat.
Proof.
  induction fuel as [|fuel IH]; intros n n' acc acc' Hn Hl; [done|]. cbn [formatDigits].
  destruct (Z.ltb_spec n 10), (Z.ltb_spec n' 10); cbn [length]; try lia.
  - pose proof (formatDigits_grows fuel (n' / 10) (digitChar (n' mod 10) :: acc')). cbn in *. lia.
  - apply IH; [|cbn; lia]. split; [apply Z.div_pos; lia|apply Z.div_le_mono; lia].
Qed.

(** A key column can be read back when it is the only one: the length determines how many
    digits there are. *)
Lemma lengthPrefixed_inj s s' : is_u64 (Z.of_nat (length s)) -> is_u64 (Z.of_nat (length s')) ->
  lengthPrefixed s = lengthPrefixed s' -> s = s'.
Proof.
  intros Hs Hs' E.
  assert (forall a b : bytes, (length a < length b)%nat -> lengthPrefixed a <> lengthPrefixed b) as Hlt.
  { intros a b Hab Eab. apply (f_equal length) in Eab. unfold lengthPrefixed, decimal in Eab. rewrite !length_app, !length_fmap in Eab.
    pose proof (formatDigits_mono 20 (Z.of_nat (length a)) (Z.of_nat (length b)) [] [] ltac:(lia) ltac:(lia)). lia. }
  assert (length s = length s') as El.
  { destruct (Nat.lt_trichotomy (length s) (length s')) as [H|[H|H]]; [by destruct (Hlt _ _ H)|done|by destruct (Hlt _ _ H)]. }
  unfold lengthPrefixed in E. rewrite El in E. by apply app_inv_head in E.
Qed.

(** Values of the ranges of their types, in columns that are not uint32. *)
Definition wfColumn (c : Column) : Prop :=
  match c with
  | ColString s | ColBytes s => is_u64 (Z.of_nat (length s))
  | ColInt32 n => - 2147483648 <= n < 2147483648
  | ColInt64 n => - 9223372036854775808 <= n < 9223372036854775808
  | ColUint64 n => is_u64 n
  | ColBool _ => True
  | ColUint32 _ | ColNil => False
  end.

Lemma formatDigits_digits fuel : forall n acc c, 0 <= n -> c ∈ formatDigits fuel n acc -> c ∈ acc \/ exists d, 0 <= d < 10 /\ c = digitChar d.
Proof.
  induction fuel as [|fuel IH]; intros n acc c Hn; [by left|]. cbn [formatDigits].
  destruct (Z.ltb_spec n 10) as [Hlt|Hge].
  - intros [->|Hc]%elem_of_cons; [right; eauto with lia|by left].
  - intros [[->|Hc]%elem_of_cons|Hd]%IH; [|by left|by right|apply Z.div_pos; lia].
    right. exists (n mod 10). split; [|done]. apply Z.mod_pos_bound. lia.
Qed.

Lemma digit_not_minus d : 0 <= d < 10 -> byte_of_ascii (digitChar d) <> x2d.
Proof.
  intros Hd. assert (d = 0 \/ d = 1 \/ d = 2 \/ d = 3 \/ d = 4 \/ d = 5 \/ d = 6 \/ d = 7 \/ d = 8 \/ d = 9) as H by lia.
  repeat destruct H as [->|H]; [done..|]. by subst d.
Qed.

Lemma decimal_not_minus n s : 0 <= n -> decimal n <> x2d :: s.
Proof.
  intros Hn E. assert (x2d ∈ decimal n) as Hin by (rewrite E; left).
  apply list_elem_of_fmap in Hin as (c & Ec & [Hc%elem_of_nil|(d & Hd & ->)]%formatDigits_digits); [done| |done].
  by destruct (digit_not_minus d Hd).
Qed.

Lemma formatDigits_length fuel : forall n acc, (length (formatDigits fuel n acc) <= fuel + length acc)%nat.
Proof.
  induction fuel as [|fuel IH]; intros n acc; [done|]. cbn [formatDigits]. destruct (n <? 10); [cbn; lia|].
  etransitivity; [apply IH|]. cbn. lia.
Qed.

Lemma FormatInt_inj n n' : - 9223372036854775808 <= n < 9223372036854775808 -> - 9223372036854775808 <= n' < 9223372036854775808 ->
  FormatInt n = FormatInt n' -> n = n'.
Proof.
  unfold FormatInt. intros Hn Hn'. destruct (Z.ltb_spec n 0), (Z.ltb_spec n' 0); intros E.
  - injection E as E. apply decimal_inj in E; unfold is_u64, two64; lia.
  - by destruct (decimal_not_minus n' (decimal (- n))).
  - by destruct (decimal_not_minus n (decimal (- n'))).
  - apply decimal_inj in E; unfold is_u64, two64; lia.
Qed.

Lemma columnString_length c : wfColumn c -> is_u64 (Z.of_nat (length (columnString c))).
Proof.
  assert (forall n, (length (decimal n) <= 20)%nat) as Hd.
  { intros n. unfold decimal. rewrite length_fmap. etransitivity; [apply formatDigits_length|]. cbn. lia. }
  assert (forall n, (length (FormatInt n) <= 21)%nat) as Hf.
  { intros n. unfold FormatInt. pose proof (Hd n). pose proof (Hd (- n)). destruct (n <? 0); cbn [length]; lia. }
  destruct c as [s|n|n|n|n|s|b|]; cbn [columnString GetInt32 wfColumn]; intros Hc; try done; unfold is_u64, two64 in *;
    [pose proof (Hf n); lia|pose proof (Hf n); lia|pose proof (Hd n); lia|destruct b; cbn; lia].
Qed.

(** The key of a row is determined by the value of its one key column. *)
Lemma columnString_inj c c' t : wfColumn c -> wfColumn c' -> hasType c t = true -> hasType c' t = true -> columnString c = columnString c' -> c = c'.
Proof.
  intros Hc Hc' Ht Ht' E. destruct c, c'; cbn in *; try done; repeat case_bool_decide; try congruence; simplify_eq.
  - f_equal. apply FormatInt_inj; [lia..|done].
  - f_equal. by apply FormatInt_inj.
  - f_equal. by apply decimal_inj.
  - by destruct b, b0.
Qed.

Lemma buildKeyString_inj name c c' t ks : wfColumn c -> wfColumn c' -> hasType c t = true -> hasType c' t = true ->
  buildKeyString name [c] = Ok ks -> buildKeyString name [c'] = Ok ks -> c = c'.
Proof.
  unfold buildKeyString. intros Hc Hc' Ht Ht'. destruct (getTableNameKey name) as [tk|]; [|done]. cbn [foldl]. intros E1 E2.
  assert (tk ++ lengthPrefixed (columnString c') = tk ++ lengthPrefixed (columnString c)) as E by congruence. apply app_inv_head, lengthPrefixed_inj in E; [|by apply columnString_length..]. symmetry. by eapply columnString_inj.
Qed.

(** * Rows *)

(** Requests served from a map of keys and values, at most [n] of them. *)
Fixpoint kvRun (n : nat) (p : stubRun) (m : gmap bytes bytes) : stubRun * gmap bytes bytes :=
  match n, p with
  | S n, StubCall (StubGetState key) k => kvRun n (k (Ok (ReplyBytes (default [] (m !! key))))) m
  | S n, StubCall (StubPutState key value) k => kvRun n (k (Ok ReplyDone)) (<[key := value]> m)
  | S n, StubCall (StubDelState key) k => kvRun n (k (Ok ReplyDone)) (delete key m)
  | _, _ => (p, m)
  end.

(** The requests of a program are served up to a point. *)
Definition runsTo (p : stubRun) (m : gmap bytes bytes) (q : stubRun) (m' : gmap bytes bytes) : Prop := exists n, kvRun n p m = (q, m').

Lemma lengthPrefixed_nonempty s : lengthPrefixed s <> [].
Proof.
  unfold lengthPrefixed, decimal. destruct (formatDigits_cons 20 (Z.of_nat (length s)) [] ltac:(lia)) as (c & cs & ->). done.
Qed.

Section rows.
Context `{Codec : !TableCodec}.

(** Rows that a table takes: [key] is the value of the one key column. *)
Record goodRow (table : Table) (t : ColumnType) (row : Row) (key : Column) (rowBytes : bytes) : Prop := mkGoodRow {
  gr_verified : getKeyAndVerifyRow table row = VKeys [key];
  gr_type : hasType key t = true;
  gr_wf : wfColumn key;
  gr_bytes : marshalRow row = Ok rowBytes;
  gr_nonempty : rowBytes <> []
}.

(** Nothing is stored under a key. *)
Definition absent (m : gmap bytes bytes) (key : bytes) : Prop := default [] (m !! key) = [].

Context (unmarshal_row : forall row b, marshalRow row = Ok b -> unmarshalRow b = Ok row).
Context (name : bytes) (table : Table) (t : ColumnType) (tableNameKey tableBytes : bytes).
Context (Hname : getTableNameKey name = Ok tableNameKey) (Htable : unmarshalTable tableBytes = Ok table) (Hbytes : tableBytes <> []).

Implicit Types (m : gmap bytes bytes) (row : Row).

Lemma getTable_found m n k : m !! tableNameKey = Some tableBytes -> kvRun (S n) (getTable name k) m = kvRun n (k (TOk table)) m.
Proof.
  intros Hm. unfold getTable. rewrite Hname. cbn. rewrite Hm. cbn. destruct tableBytes; [done|]. by rewrite Htable.
Qed.

Lemma present_run m n keys ks k : buildKeyString name keys = Ok ks ->
  kvRun (S n) (isRowPrsent name keys k) m = kvRun n (k (TOk (negb (bool_decide (default [] (m !! ks) = []))))) m.
Proof. intros Hk. unfold isRowPrsent. by rewrite Hk. Qed.

(** Inserting a row, or replacing one. *)
Lemma insert_runs row key rowBytes ks (update : bool) m k : getKeyAndVerifyRow table row = VKeys [key] -> marshalRow row = Ok rowBytes -> buildKeyString name [key] = Ok ks ->
  m !! tableNameKey = Some tableBytes ->
  if bool_decide (absent m ks) then
    if update then runsTo (insertRowInternal name row update k) m (k (TOk false)) m
    else runsTo (insertRowInternal name row update k) m (k (TOk true)) (<[ks := rowBytes]> m)
  else
    if update then runsTo (insertRowInternal name row update k) m (k (TOk true)) (<[ks := rowBytes]> m)
    else runsTo (insertRowInternal name row update k) m (k (TOk false)) m.
Proof.
  intros Hv Hb Hk Hm.
  assert (forall n, kvRun (S (S n)) (insertRowInternal name row update k) m =
    if (negb (bool_decide (absent m ks)) && negb update) || (negb (negb (bool_decide (absent m ks))) && update) then kvRun n (k (TOk false)) m
    else kvRun n (stub_PutState ks rowBytes (fun r => k (match r with Ok _ => TOk true | Err => TErr OtherError end))) m) as E.
  { intros n. unfold insertRowInternal. rewrite getTable_found by done. rewrite Hv. erewrite present_run by done. fold (absent m ks). rewrite Hb, Hk.
    by destruct (_ || _). }
  destruct (bool_decide (absent m ks)), update; [exists 2%nat|exists 3%nat|exists 3%nat|exists 2%nat]; by rewrite E.
Qed.

Lemma get_runs key ks m k : buildKeyString name [key] = Ok ks -> runsTo (GetRow name [key] k) m (k (unmarshalRow (default [] (m !! ks)))) m.
Proof. intros Hk. exists 1%nat. unfold GetRow. by rewrite Hk. Qed.

Lemma tableNameKey_ne key ks : buildKeyString name [key] = Ok ks -> ks <> tableNameKey.
Proof.
  unfold buildKeyString. rewrite Hname. cbn [foldl]. intros Hk Hne. assert (tableNameKey ++ lengthPrefixed (columnString key) = tableNameKey ++ []) as E.
  { rewrite app_nil_r. congruence. }
  apply app_inv_head in E. by destruct (lengthPrefixed_nonempty (columnString key)).
Qed.

(** C31. Rows of a table with one key column, which is not of type uint32: a row is inserted
    exactly when there is none with its key, and replaced exactly when there is one; it is
    then found under its key, until it is deleted, and rows with other keys stay as they
    are. *)
Theorem table_rows row key rowBytes ks m : goodRow table t row key rowBytes -> buildKeyString name [key] = Ok ks ->
  m !! tableNameKey = Some tableBytes ->
  let m1 := <[ks := rowBytes]> m in
  (forall k, if bool_decide (absent m ks)
    then runsTo (InsertRow name row k) m (k (TOk true)) m1 /\ runsTo (ReplaceRow name row k) m (k (TOk false)) m
    else runsTo (InsertRow name row k) m (k (TOk false)) m /\ runsTo (ReplaceRow name row k) m (k (TOk true)) m1) /\
  m1 !! tableNameKey = Some tableBytes /\
  (forall k, runsTo (GetRow name [key] k) m1 (k (Ok row)) m1) /\
  (forall k, runsTo (DeleteRow name [key] k) m1 (k (Ok tt)) (delete ks m1)) /\ absent (delete ks m1) ks /\
  forall key' ks', key' <> key -> wfColumn key' -> hasType key' t = true -> buildKeyString name [key'] = Ok ks' ->
    m1 !! ks' = m !! ks' /\ delete ks m1 !! ks' = m !! ks'.
Proof.
  intros Hg Hk Hm m1. pose proof Hg as [Hv Hty Hwf Hb Hne].
  assert (m1 !! ks = Some rowBytes) as Hm1 by apply lookup_insert_eq.
  split_and!.
  - intros k. pose proof (insert_runs row key rowBytes ks false m k Hv Hb Hk Hm) as Hi. pose proof (insert_runs row key rowBytes ks true m k Hv Hb Hk Hm) as Hr.
    by destruct (bool_decide (absent m ks)).
  - subst m1. rewrite lookup_insert_ne; [done|]. by eapply tableNameKey_ne.
  - intros k. pose proof (get_runs key ks m1 k Hk) as Hr. rewrite Hm1 in Hr. change (default [] (Some rowBytes)) with rowBytes in Hr. by rewrite (unmarshal_row _ _ Hb) in Hr.
  - intros k. exists 1%nat. unfold DeleteRow. by rewrite Hk.
  - unfold absent. by rewrite lookup_delete_eq.
  - intros key' ks' Hd Hwf' Hty' Hk'.
    assert (ks' <> ks) as Hks. { intros ->. apply Hd. by eapply buildKeyString_inj. }
    subst m1. by rewrite lookup_delete_ne, lookup_insert_ne by congruence.
Qed.

(** C38. With a key column of type uint32 all rows have the same key: after a row is inserted, a
    row with any other key is taken to be there already, and looking it up gives the first
    one. *)
Theorem uint32_rows_collide row1 row2 x y rowBytes1 rowBytes2 ks m : getKeyAndVerifyRow table row1 = VKeys [ColUint32 x] ->
  getKeyAndVerifyRow table row2 = VKeys [ColUint32 y] -> marshalRow row1 = Ok rowBytes1 -> marshalRow row2 = Ok rowBytes2 -> rowBytes1 <> [] ->
  buildKeyString name [ColUint32 x] = Ok ks -> m !! tableNameKey = Some tableBytes -> absent m ks ->
  let m1 := <[ks := rowBytes1]> m in
  forall k1 k2, runsTo (InsertRow name row1 k1) m (k1 (TOk true)) m1 /\ runsTo (InsertRow name row2 k1) m1 (k1 (TOk false)) m1 /\
    runsTo (GetRow name [ColUint32 y] k2) m1 (k2 (Ok row1)) m1.
Proof.
  intros Hv1 Hv2 Hb1 Hb2 Hne Hk Hm Ha m1 k1 k2. assert (buildKeyString name [ColUint32 y] = Ok ks) as Hky by exact Hk.
  assert (m1 !! ks = Some rowBytes1) as Hm1 by apply lookup_insert_eq.
  assert (m1 !! tableNameKey = Some tableBytes) as Hmt by (subst m1; rewrite lookup_insert_ne; [done|]; by eapply tableNameKey_ne).
  split_and!.
  - pose proof (insert_runs row1 _ rowBytes1 ks false m k1 Hv1 Hb1 Hk Hm) as Hi. by rewrite bool_decide_eq_true_2 in Hi.
  - pose proof (insert_runs row2 _ rowBytes2 ks false m1 k1 Hv2 Hb2 Hky Hmt) as Hi. rewrite bool_decide_eq_false_2 in Hi; [done|].
    unfold absent. by rewrite Hm1.
  - pose proof (get_runs (ColUint32 y) ks m1 k2 Hky) as Hr. rewrite Hm1 in Hr. change (default [] (Some rowBytes1)) with rowBytes1 in Hr.
    by rewrite (unmarshal_row _ _ Hb1) in Hr.
Qed.
End rows.

(** ** Confused keys *)


(** * Witnesses *)

Module TableToy.
(** Rows of one byte string and tables of one column. *)
#[export] Instance codec : TableCodec := {
  marshalTable t := Ok (x01 :: tbl_Name t);
  unmarshalTable b := Ok (mkTable (tail b) [mkColumnDefinition [x6b] (match b with x02 :: _ => TUINT32 | _ => TSTRING end) true]);
  marshalRow row := match row with [Some (ColString s)] => Ok (x01 :: s) | [Some (ColUint32 n)] => if Z_of_byte (byte_of_Z n) =? n then Ok [x02; byte_of_Z n] else Err | _ => Err end;
  unmarshalRow b :=
    match b with
    | x01 :: s => Ok [Some (ColString s)]
    | [x02; n] => Ok [Some (ColUint32 (Z_of_byte n))]
    | _ => Err
    end
}.

Lemma row_roundtrip row b : marshalRow row = Ok b -> unmarshalRow b = Ok row.
Proof.
  destruct row as [|[[s|n|n|n|n|s|b'|]|] [|]]; cbn; try done; [by intros [= <-]|].
  destruct (Z.eqb_spec (Z_of_byte (byte_of_Z n)) n) as [E|]; [|done]. intros [= <-]. cbn. by rewrite E.
Qed.
End TableToy.
Import TableToy.

(** A table "t" of strings without rows. *)
Lemma table_rows_witness : exists m m1, runsTo (InsertRow [x74] [Some (ColString [x61])] (fun _ => StubPanic)) m StubPanic m1 /\
  runsTo (GetRow [x74] [ColString [x61]] (fun r => match r with Ok [Some (ColString [x61])] => StubPanic | _ => StubReturn Err end)) m1 StubPanic m1.
Proof.
  assert (goodRow (mkTable [x74] [mkColumnDefinition [x6b] TSTRING true]) TSTRING [Some (ColString [x61])] (ColString [x61]) [x01; x61]) as Hg
    by (split; try reflexivity; [split; vm_compute; congruence|done]).
  destruct (table_rows TableToy.row_roundtrip [x74] (mkTable [x74] [mkColumnDefinition [x6b] TSTRING true]) TSTRING [x31; x74] [x01; x74]
    eq_refl eq_refl ltac:(done) [Some (ColString [x61])] (ColString [x61]) [x01; x61] [x31; x74; x31; x61] {[ [x31; x74] := [x01; x74] ]} Hg
    eq_refl (lookup_singleton_eq _ _)) as (Hi & _ & Hget & _).
  exists {[ [x31; x74] := [x01; x74] ]}, (<[ [x31; x74; x31; x61] := [x01; x61] ]> {[ [x31; x74] := [x01; x74] ]}). split.
  - specialize (Hi (fun _ => StubPanic)). rewrite bool_decide_eq_true_2 in Hi by (unfold absent; by rewrite lookup_singleton_ne). exact (proj1 Hi).
  - apply (Hget (fun r => match r with Ok [Some (ColString [x61])] => StubPanic | _ => StubReturn Err end)).
Defined.

(** The keys 5 and 7. *)
Lemma uint32_rows_collide_witness : exists m1,
  runsTo (InsertRow [x74] [Some (ColUint32 7)] (fun r => match r with TOk false => StubPanic | _ => StubReturn Err end)) m1 StubPanic m1 /\
  runsTo (GetRow [x74] [ColUint32 7] (fun r => match r with Ok [Some (ColUint32 5)] => StubPanic | _ => StubReturn Err end)) m1 StubPanic m1.
Proof.
  destruct (uint32_rows_collide TableToy.row_roundtrip [x74] (mkTable [x74] [mkColumnDefinition [x6b] TUINT32 true]) [x31; x74] [x02; x74]
    eq_refl eq_refl ltac:(done) [Some (ColUint32 5)] [Some (ColUint32 7)] 5 7 [x02; x05] [x02; x07] [x31; x74; x31; x30] {[ [x31; x74] := [x02; x74] ]}
    eq_refl eq_refl eq_refl eq_refl ltac:(done) eq_refl (lookup_singleton_eq _ _)
    ltac:(unfold absent; by rewrite lookup_singleton_ne)
    (fun r => match r with TOk false => StubPanic | _ => StubReturn Err end)
    (fun r => match r with Ok [Some (ColUint32 5)] => StubPanic | _ => StubReturn Err end)) as (_ & Hi & Hget).
  eexists. split; [exact Hi|exact Hget].
Defined.
