(* ===== verification/PagedQueries.v ===== *)
(** Range queries of a chaincode: the peer sends the result of a scan in pages and the shim's
    iterator asks for them one after the other, so that the chaincode sees the scan. *)
From stdpp Require Import base gmap list countable.
From Stdlib Require Import ZArith Lia.
From Stdlib Require Import Strings.Byte.
From S2P Require Import Prelude GoStd GoBytes LedgerUtil KVStore Blockchain Ledger ExecTransaction Fsm ChaincodeHandler ShimHandler.
From S2P Require Import StateDelta StateSpec HashableState State StateScan StateRefine BlockchainSpec LedgerRefine ReplicaLedgers.
From S2P Require Import LedgerToy LedgerTheorems BucketState BucketTree BucketToy.

(** The loop of a chaincode over an iterator: all the pairs it gets. *)
Fixpoint readAll (fuel : nat) (iter : StateRangeQueryIterator) (acc : list (bytes * bytes)) (k : result (list (bytes * bytes)) -> stubRun) : stubRun :=
  match fuel with
  | O => k Err
  | S fuel =>
    if HasNext iter then
      iter_Next iter (fun r iter => match r with Ok kv => readAll fuel iter (acc ++ [kv]) k | Err => k Err end)
    else k (Ok acc)
  end.

Section paging.
Context {S ID Itr : Type} `{!LedgerCalls S ID} `{!LedgerScans S Itr} `{Codec : !ChaincodeCodec}.
Context (GenerateUUID : nat -> bytes) (text : ccError -> bytes)
  (launchOther : ChaincodeSpec -> bytes -> TransactionType -> M S (result (bytes * list bytes)))
  (executeOther : bytes -> ChaincodeMessage -> M S (option ChaincodeMessage * bool)).

Implicit Types h : Handler S Itr.

(** What the peer does for a request of a chaincode. *)
Definition kindOf (req : stubRequest) : taskKind :=
  match req with
  | StubGetState _ => TaskGetState
  | StubRangeQueryState _ _ => TaskRangeQueryState
  | StubRangeQueryStateNext _ => TaskRangeQueryStateNext
  | StubRangeQueryStateClose _ => TaskRangeQueryStateClose
  | StubQueryChaincode _ _ _ => TaskQueryChaincode
  | _ => TaskBusy
  end.

(** The requests of a program, at most [n] of them, each sent, served and answered. *)
Fixpoint servedBy (n : nat) (u : bytes) (p : stubRun) : M (Handler S Itr) stubRun :=
  match n, p with
  | Datatypes.S n, StubCall req k =>
    match requestMsg req u with
    | Err => servedBy n u (k Err)
    | Ok msg => reply ← serve None GenerateUUID text launchOther executeOther (kindOf req) msg; servedBy n u (k (replyOf req reply))
    end
  | _, _ => mret p
  end.

(** An iterator of the ledger that has [kvs] before it. *)
Inductive scanning (l : S) : Itr -> list (bytes * option bytes) -> Prop :=
| scan_end i i' : itrNext i l = Done (false, i') l -> scanning l i []
| scan_more i i' kv kvs : itrNext i l = Done (true, i') l -> itrGetKeyValue i' = kv -> scanning l i' kvs -> scanning l i (kv :: kvs).

(** One that stands on the first of them. *)
Definition standing (l : S) (i : Itr) (kvs : list (bytes * option bytes)) : Prop :=
  match kvs with [] => True | kv :: kvs => itrGetKeyValue i = kv /\ scanning l i kvs end.

Definition plain (kv : bytes * option bytes) : bytes * bytes := (fst kv, default [] (snd kv)).

Lemma fillPage_spec n u l kvs : forall i acc h, h_ledger_ h = l -> standing l i kvs ->
  exists i', fillPage None n u i (negb (bool_decide (kvs = []))) acc h =
    Done (acc ++ (plain <$> take n kvs), negb (bool_decide (drop n kvs = [])), i') h /\ standing l i' (drop n kvs).
Proof.
  revert kvs. induction n as [|n IH]; intros kvs i acc h Hl Hst.
  - exists i. split; [|done]. cbn [fillPage take drop]. rewrite app_nil_r. by destruct (negb _).
  - destruct kvs as [|[key v] kvs]; [exists i; split; [cbn; by rewrite app_nil_r|done]|].
    destruct Hst as [Hkv Hsc]. cbn [fillPage]. rewrite bool_decide_eq_false_2 by done. cbn [negb]. rewrite Hkv.
    cbv [mbind M_bind get]. cbn [decrypt encryptOrDecrypt]. unfold onLedger_. rewrite Hl.
    assert (exists i1, itrNext i l = Done (negb (bool_decide (kvs = [])), i1) l /\ standing l i1 kvs) as (i1 & E & Hst1).
    { inversion Hsc as [? i1 E|? i1 kv' kvs' E Hkv' Hsc']; subst; exists i1; (split; [|done]); by rewrite E. }
    rewrite E. cbn [fst snd]. assert ((h <| h_ledger_ := l |>) = h) as -> by (by destruct h; cbn in *; subst).
    destruct (IH kvs i1 (acc ++ [(key, default [] v)]) h Hl Hst1) as (i' & E' & Hst'). exists i'. split; [|done].
    rewrite E'. cbn [take drop fmap list_fmap]. by rewrite <- app_assoc.
Qed.

(** The peer keeps what is left of a query for the transaction [u] under [id], and nothing
    when it is all sent. *)
Definition keepsRest (l : S) (u id : bytes) (kvs : list (bytes * option bytes)) h : Prop :=
  h_ledger_ h = l /\ exists c, getTxContext u h = Some c /\
  match kvs with
  | [] => rangeQueryIteratorMap c !! id = None
  | _ => exists i, rangeQueryIteratorMap c !! id = Some i /\ standing l i kvs
  end.

(** What encoding and decoding is relied on: messages of the query come back as they were. *)
Record pageCodec : Prop := mkPageCodec {
  codec_query : forall q, exists b, marshalRangeQueryState q = Ok b /\ unmarshalRangeQueryState b = Ok q;
  codec_next : forall id, exists b, marshalRangeQueryStateNext id = Ok b /\ unmarshalRangeQueryStateNext b = Ok id;
  codec_response : forall r, exists b, marshalRangeQueryStateResponse r = Ok b /\ unmarshalRangeQueryStateResponse b = Ok r
}.

Lemma getTxContext_set u c h : is_Some (getTxContext u h) ->
  exists h', setTxContext u c h = Done tt h' /\ getTxContext u h' = Some c /\ h_ledger_ h' = h_ledger_ h.
Proof.
  unfold getTxContext, setTxContext. intros [c0 Hc]. destruct (h_txCtxs h) as [ctxs|] eqn:E; [|done].
  eexists. split; [reflexivity|]. cbn. rewrite E. cbn. by rewrite lookup_insert_eq.
Qed.

Lemma updIterators_spec u f h c : getTxContext u h = Some c -> exists h', updIterators u f h = Done tt h' /\
  getTxContext u h' = Some (c <| rangeQueryIteratorMap := f (rangeQueryIteratorMap c) |>) /\ h_ledger_ h' = h_ledger_ h.
Proof.
  intros Hc. unfold updIterators. cbv [mbind M_bind get]. rewrite Hc. apply getTxContext_set. eauto.
Qed.

Lemma sendPage_spec l msg id page kvs i h : pageCodec -> h_ledger_ h = l -> is_Some (getTxContext (msg_Uuid msg) h) -> standing l i kvs ->
  exists b h', sendPage text msg id (page, negb (bool_decide (kvs = [])), i) h = Done (responseMsg msg b) h' /\
    unmarshalRangeQueryStateResponse b = Ok (mkRangeQueryStateResponse page (negb (bool_decide (kvs = []))) id) /\ keepsRest l (msg_Uuid msg) id kvs h'.
Proof.
  intros Hcod Hl [c Hc] Hst.
  destruct (codec_response Hcod (mkRangeQueryStateResponse page (negb (bool_decide (kvs = []))) id)) as (b & Em & Eu).
  unfold sendPage, putRangeQueryIterator, deleteRangeQueryIterator. cbv [mbind M_bind]. rewrite Em.
  exists b. destruct kvs as [|kv kvs].
  - rewrite bool_decide_eq_true_2 in * by done. cbn [negb] in *.
    destruct (updIterators_spec (msg_Uuid msg) (delete id) h c Hc) as (h' & E & Hc' & Hl'). exists h'. rewrite E. split; [done|]. split; [done|].
    split; [congruence|]. eexists. split; [exact Hc'|]. apply lookup_delete_eq.
  - rewrite bool_decide_eq_false_2 in * by done. cbn [negb] in *.
    destruct (updIterators_spec (msg_Uuid msg) (insert id i) h c Hc) as (h' & E & Hc' & Hl'). exists h'. rewrite E. split; [done|]. split; [done|].
    split; [congruence|]. eexists. split; [exact Hc'|]. exists i. split; [apply lookup_insert_eq|done].
Qed.

(** The first page, and the next one. *)
Lemma first_page cid l h msg startKey endKey itr kvs : pageCodec -> h_ChaincodeID h = Some cid -> h_ledger_ h = l ->
  is_Some (getTxContext (msg_Uuid msg) h) -> unmarshalRangeQueryState (msg_Payload msg) = Ok (startKey, endKey) ->
  callGetStateRangeScanIterator (cid_Name cid) startKey endKey (negb (getIsTransaction (msg_Uuid msg) h)) l = Done (Ok itr) l -> scanning l itr kvs ->
  exists b h', let id := GenerateUUID (h_ids h) in handleRangeQueryState None GenerateUUID text msg h = Done (responseMsg msg b) h' /\
    unmarshalRangeQueryStateResponse b = Ok (mkRangeQueryStateResponse (plain <$> take maxRangeQueryStateLimit kvs)
      (negb (bool_decide (drop maxRangeQueryStateLimit kvs = []))) id) /\ keepsRest l (msg_Uuid msg) id (drop maxRangeQueryStateLimit kvs) h'.
Proof.
  intros Hcod Hcid Hl [c Hc] Hun E Hsc. set (id := GenerateUUID (h_ids h)).
  unfold handleRangeQueryState, chaincodeName. rewrite Hun. cbv [mbind M_bind get mret M_ret modify]. rewrite Hcid. unfold onLedger_. rewrite Hl, E.
  set (h1 := (h <| h_ledger_ := l |>) <| h_ids := _ |>).
  assert (getTxContext (msg_Uuid msg) h1 = Some c) as Hc1 by done.
  unfold putRangeQueryIterator. destruct (updIterators_spec (msg_Uuid msg) (insert id itr) h1 c Hc1) as (h2 & E2 & Hc2 & Hl2). fold id. rewrite E2.
  assert (h_ledger_ h2 = l) as Hl2' by (by rewrite Hl2).
  assert (exists i1, itrNext itr l = Done (negb (bool_decide (kvs = [])), i1) l /\ standing l i1 kvs) as (i1 & En & Hst).
  { inversion Hsc as [? i1 En|? i1 kv' kvs' En Hkv' Hsc']; subst; exists i1; (split; [|done]); by rewrite En. }
  rewrite Hl2', En. cbn [fst snd]. assert ((h2 <| h_ledger_ := l |>) = h2) as -> by (by destruct h2; cbn in *; subst).
  destruct (fillPage_spec maxRangeQueryStateLimit (msg_Uuid msg) l kvs i1 [] h2 Hl2' Hst) as (i' & E3 & Hst'). rewrite E3.
  destruct (sendPage_spec l msg id (plain <$> take maxRangeQueryStateLimit kvs) _ i' h2 Hcod Hl2' ltac:(eauto) Hst') as (b & h' & E4 & Hb & Hk).
  exists b, h'. split; [exact E4|done].
Qed.

Lemma next_page l h msg id kvs : pageCodec -> keepsRest l (msg_Uuid msg) id kvs h -> kvs <> [] -> unmarshalRangeQueryStateNext (msg_Payload msg) = Ok id ->
  exists b h', handleRangeQueryStateNext None text msg h = Done (responseMsg msg b) h' /\
    unmarshalRangeQueryStateResponse b = Ok (mkRangeQueryStateResponse (plain <$> take maxRangeQueryStateLimit kvs)
      (negb (bool_decide (drop maxRangeQueryStateLimit kvs = []))) id) /\ keepsRest l (msg_Uuid msg) id (drop maxRangeQueryStateLimit kvs) h'.
Proof.
  intros Hcod (Hl & c & Hc & Hrest) Hne Hun. assert (exists i, rangeQueryIteratorMap c !! id = Some i /\ standing l i kvs) as (i & Hi & Hst) by (by destruct kvs).
  unfold handleRangeQueryStateNext, getRangeQueryIterator. rewrite Hun. cbv [mbind M_bind get mret M_ret]. rewrite Hc, Hi.
  destruct (fillPage_spec maxRangeQueryStateLimit (msg_Uuid msg) l kvs i [] h Hl Hst) as (i' & E3 & Hst').
  rewrite bool_decide_eq_false_2 in E3 by done. cbn [negb] in E3. rewrite E3.
  destruct (sendPage_spec l msg id (plain <$> take maxRangeQueryStateLimit kvs) _ i' h Hcod Hl ltac:(eauto) Hst') as (b & h' & E4 & Hb & Hk).
  exists b, h'. split; [exact E4|done].
Qed.

(** The number of pages for [n] pairs. *)
Definition pagesFor (n : nat) : nat := ((n + (maxRangeQueryStateLimit - 1)) / maxRangeQueryStateLimit)%nat.

Lemma pagesFor_more n : n <> 0%nat -> pagesFor n = Datatypes.S (pagesFor (n - maxRangeQueryStateLimit)).
Proof.
  intros Hn. unfold pagesFor, maxRangeQueryStateLimit. destruct (le_lt_dec 100 n).
  - replace (n + (100 - 1))%nat with ((n - 100 + (100 - 1)) + 1 * 100)%nat by lia. rewrite Nat.div_add by done. lia.
  - replace (n - 100)%nat with 0%nat by lia. replace (n + (100 - 1))%nat with ((n - 1) + 1 * 100)%nat by lia.
    rewrite Nat.div_add by done. rewrite Nat.div_small by lia. done.
Qed.

Lemma drain l u id k : pageCodec -> forall fuel page loc acc kvs h, keepsRest l u id kvs h -> (loc <= length page)%nat ->
  (length page - loc + length kvs < fuel)%nat ->
  exists h', servedBy (pagesFor (length kvs)) u
      (readAll fuel (mkStateRangeQueryIterator (mkRangeQueryStateResponse page (negb (bool_decide (kvs = []))) id) loc) acc k) h =
    Done (k (Ok (acc ++ drop loc page ++ (plain <$> kvs)))) h' /\ keepsRest l u id [] h'.
Proof.
  intros Hcod fuel. induction fuel as [|fuel IH]; intros page loc acc kvs h Hk Hloc Hfuel; [lia|].
  cbn [readAll]. unfold HasNext, iter_Next. cbn [sri_response sri_currentLoc KeysAndValues HasMore resp_ID].
  destruct (page !! loc) as [kv|] eqn:Hkv.
  - pose proof (lookup_lt_Some _ _ _ Hkv). rewrite (proj2 (Nat.ltb_lt _ _)) by done. cbn [orb].
    destruct (IH page (Datatypes.S loc) (acc ++ [kv]) kvs h Hk) as (h' & E & Hk'); [lia..|]. exists h'. split; [|done].
    rewrite E. rewrite (drop_S _ _ _ Hkv). by rewrite <- !app_assoc.
  - apply lookup_ge_None in Hkv. rewrite (proj2 (Nat.ltb_ge _ _)) by done. cbn [orb]. rewrite (drop_ge page loc) by done. cbn [app].
    destruct (decide (kvs = [])) as [->|Hne].
    { exists h. split; [|done]. cbn [fmap list_fmap]. by rewrite app_nil_r. }
    rewrite bool_decide_eq_false_2 by done. cbn [negb]. rewrite (pagesFor_more (length kvs)), <- length_drop by (by destruct kvs). cbn [servedBy kindOf requestMsg serve].
    destruct (codec_next Hcod id) as (p & Em & Eu). rewrite Em. cbv [mbind M_bind].
    destruct (next_page l h (ccMessage RANGE_QUERY_STATE_NEXT p u) id kvs Hcod Hk Hne Eu) as (b & h1 & E1 & Hb & Hk1). rewrite E1.
    cbn [replyOf responseMsg msg_Type msg_Payload ccMessage]. rewrite Hb. cbn [KeysAndValues].
    destruct (plain <$> take maxRangeQueryStateLimit kvs) as [|kv page'] eqn:Hpage.
    { by destruct kvs. }
    assert ((length (kv :: page') + length (drop maxRangeQueryStateLimit kvs) = length kvs)%nat) as Hlen.
    { rewrite <- Hpage, length_fmap, <- length_app, take_drop. done. }
    destruct (IH (kv :: page') 1%nat (acc ++ [kv]) _ h1 Hk1) as (h' & E & Hk'); [cbn; lia|cbn in *; lia|]. exists h'. split; [|done].
    rewrite E. rewrite <- (take_drop maxRangeQueryStateLimit kvs) at 2. rewrite fmap_app, Hpage. by rewrite <- !app_assoc.
Qed.

(** A chaincode that asks for a range and reads its iterator to the end gets what the ledger's
    iterator goes through. *)
Lemma range_query_pages cid l h u startKey endKey itr kvs fuel k : pageCodec -> h_ChaincodeID h = Some cid -> h_ledger_ h = l ->
  is_Some (getTxContext u h) -> callGetStateRangeScanIterator (cid_Name cid) startKey endKey (negb (getIsTransaction u h)) l = Done (Ok itr) l ->
  scanning l itr kvs -> (length kvs < fuel)%nat ->
  exists h', servedBy (Datatypes.S (pagesFor (length kvs - maxRangeQueryStateLimit))) u
      (RangeQueryState startKey endKey (fun r => match r with Ok iter => readAll fuel iter [] k | Err => k Err end)) h =
    Done (k (Ok (plain <$> kvs))) h' /\ keepsRest l u (GenerateUUID (h_ids h)) [] h'.
Proof.
  intros Hcod Hcid Hl Hctx E Hsc Hfuel. unfold RangeQueryState. rewrite <- length_drop. cbn [servedBy kindOf requestMsg serve].
  destruct (codec_query Hcod (startKey, endKey)) as (p & Em & Eu). rewrite Em. cbv [mbind M_bind].
  destruct (first_page cid l h (ccMessage RANGE_QUERY_STATE p u) startKey endKey itr kvs Hcod Hcid Hl Hctx Eu E Hsc) as (b & h1 & E1 & Hb & Hk1).
  rewrite E1. cbn [replyOf responseMsg msg_Type msg_Payload ccMessage]. rewrite Hb.
  destruct (drain l u (GenerateUUID (h_ids h)) k Hcod fuel (plain <$> take maxRangeQueryStateLimit kvs) 0%nat [] _ h1 Hk1) as (h' & E' & Hk'); [lia| |].
  { rewrite length_fmap, Nat.sub_0_r, <- length_app, take_drop. done. }
  exists h'. split; [|done]. rewrite E', app_nil_l, drop_0, <- fmap_app, take_drop. done.
Qed.
End paging.

(** * Over the ledger *)

(** The range scans of the ledger; [fuel] bounds the keys a call of [Next] skips.  A pair is
    only asked for after [Next] found one. *)
Definition ledgerScans {DB I Itr ID : Type} `{RocksDB DB} `{!HashableState DB I Itr} (o : mapOrder) (fuel : nat)
    : LedgerScans (Ledger DB I ID) (stateItr Itr) := {|
  callGetStateRangeScanIterator := fun chaincodeID startKey endKey committed =>
    l ← get; itr ← lift (GetStateRangeScanIterator o l chaincodeID startKey endKey committed); mret (Ok itr);
  itrNext := fun itr l =>
    match itr with
    | CommittedItr i => match hs_Next (ldb l) i with Done b i => Done (b, CommittedItr i) l | Panic => Panic | Diverge => Diverge end
    | CompositeItr c => match composite_Next (ldb l) fuel 2 c with Done b c => Done (b, CompositeItr c) l | Panic => Panic | Diverge => Diverge end
    end;
  itrGetKeyValue := fun itr =>
    match itr with CommittedItr i => hs_GetKeyValue i | CompositeItr c => default ([], None) (composite_GetKeyValue c) end
|}.

Section ledgerScan.
Context {DB I Itr ID : Type} `{RDB : RocksDB DB} `{Laws : !RocksDBLaws DB} `{HS : !HashableState DB I Itr}
  `{Spec : !HashableStateSpec DB I Itr} `{EqDecision ID} `{BlockCodecLaws} `{SpecCodec} `{Codec : !ChaincodeCodec}
  (hash : bytes -> bytes) (o : mapOrder) (clock : Ledger DB I ID -> Timestamp).

Lemma committed_scanning fuel l i kvs : yields (hs_Next (ldb l)) (fun i => Some (hs_GetKeyValue i)) i kvs ->
  scanning (LedgerScans0 := ledgerScans (ID := ID) o fuel) l (CommittedItr i) kvs.
Proof.
  induction 1 as [i i' E|i i' kv kvs E Hkv Hy IH]; [eapply scan_end|eapply scan_more]; [cbn; by rewrite E..|cbn; congruence|exact IH].
Qed.

Lemma composite_scanning fuel l c kvs : yields (composite_Next (ldb l) fuel 2) composite_GetKeyValue c kvs ->
  scanning (LedgerScans0 := ledgerScans (ID := ID) o fuel) l (CompositeItr c) kvs.
Proof.
  induction 1 as [c c' E|c c' kv kvs E Hkv Hy IH]; [eapply scan_end|eapply scan_more]; [cbn [itrNext ledgerScans]; by rewrite E..|cbn [itrGetKeyValue ledgerScans]; by rewrite Hkv|exact IH].
Qed.

Lemma GetState_State_Get cc key committed v (l : Ledger DB I ID) :
  Ledger_GetState cc key committed l = Done (Ok v) l <-> State_Get (ldb l) cc key committed (lstate l) = Done (Ok v) (lstate l).
Proof.
  unfold Ledger_GetState, onState. cbv [mbind M_bind get]. destruct (State_Get _ _ _ _ _) as [x s'| |]; [|done..]. split.
  - intros [= -> E]. f_equal. by apply (f_equal lstate) in E.
  - intros [= -> ->]. by destruct l.
Qed.

(** The iterator the ledger returns goes through the keys that [GetState] finds. *)
Lemma ledger_scan_exact l a cc startKey endKey committed : ledgerRel hash l a -> stateKeyDelimiter ∉ cc ->
  exists itr kvs n, GetStateRangeScanIterator o l cc startKey endKey committed = Some itr /\
    (forall fuel, (n <= fuel)%nat -> scanning (LedgerScans0 := ledgerScans (ID := ID) o fuel) l itr kvs) /\ NoDup kvs.*1 /\
    forall key v, (key, v) ∈ kvs <-> inRange startKey endKey key = true /\ Ledger_GetState cc key committed l = Done (Ok v) l /\ is_Some v.
Proof.
  intros Hr Hcc. destruct (sr_impl _ _ _ (lr_state _ _ _ Hr)) as (w & Hh & _). unfold GetStateRangeScanIterator. destruct committed.
  - destruct (hs_Scan_spec _ _ _ _ cc startKey endKey Hh Hcc) as (i & kvs & E & Hy & Hnd & Hin). exists (CommittedItr i), kvs, 0%nat.
    unfold GetRangeScanIterator. rewrite E. split; [done|]. split; [intros; by apply committed_scanning|]. split; [done|].
    intros key v. rewrite Hin, GetState_State_Get. unfold State_Get. cbv [mbind M_bind get]. cbn [negb]. unfold onImpl.
    rewrite (hs_Get_spec _ _ _ _ _ _ Hh). assert ((lstate l) <| stateImpl := stateImpl (lstate l) |> = lstate l) as -> by (by destruct (lstate l)).
    split; [by intros (? & -> & ?)|by intros (? & [= ->] & ?)].
  - destruct (range_scan_agrees_with_Get o (ldb l) (lstate l) _ w cc startKey endKey Hh Hcc) as (c & kvs & n & E & Hy & Hnd & Hin).
    exists (CompositeItr c), kvs, n. split; [done|]. split; [intros; by apply composite_scanning, Hy|]. split; [done|].
    intros key v. by rewrite Hin, GetState_State_Get.
Qed.

(** C22. A chaincode that asks for a range of its keys and reads the iterator to the end gets
    every key of the range that [GetState] would find, once, with the value that [GetState]
    would return, and no other key: in a transaction those of the uncommitted state, in a
    query those of the committed one.  The peer sends the pairs in pages of at most a hundred
    and keeps its place between two of them, the shim asks for the next page when one is used
    up, and exactly one request goes out for each page.  The ledger is left as it was, and the
    peer keeps nothing of the query. *)
Theorem chaincode_reads_range GenerateUUID text launchOther executeOther (h : Handler (Ledger DB I ID) (stateItr Itr)) a cid u
    startKey endKey k :
  pageCodec -> ledgerRel hash (h_ledger_ h) a -> h_ChaincodeID h = Some cid -> stateKeyDelimiter ∉ cid_Name cid -> is_Some (getTxContext u h) ->
  exists pairs n, NoDup pairs.*1 /\
    (forall key v, (key, v) ∈ pairs <-> inRange startKey endKey key = true /\
      Ledger_GetState (cid_Name cid) key (negb (getIsTransaction u h)) (h_ledger_ h) = Done (Ok (Some v)) (h_ledger_ h)) /\
    forall fuel, (n <= fuel)%nat -> exists h',
      servedBy (LedgerCalls0 := ledgerCalls hash o clock) (LedgerScans0 := ledgerScans o fuel) GenerateUUID text launchOther executeOther
        (Datatypes.S (pagesFor (length pairs - maxRangeQueryStateLimit))) u
        (RangeQueryState startKey endKey (fun r => match r with Ok iter => readAll fuel iter [] k | Err => k Err end)) h =
      Done (k (Ok pairs)) h' /\ keepsRest (LedgerScans0 := ledgerScans o fuel) (h_ledger_ h) u (GenerateUUID (h_ids h)) [] h'.
Proof.
  intros Hcod Hr Hcid Hcc Hctx.
  destruct (ledger_scan_exact _ a (cid_Name cid) startKey endKey (negb (getIsTransaction u h)) Hr Hcc) as (itr & kvs & n & E & Hsc & Hnd & Hin).
  exists (plain <$> kvs), (n + Datatypes.S (length kvs))%nat. split; [|split].
  - rewrite <- list_fmap_compose. exact Hnd.
  - intros key v. rewrite list_elem_of_fmap. split.
    + intros ([key' v'] & [= -> ->] & (Hran & HG & [v'' ->])%Hin). done.
    + intros [Hran HG]. exists (key, Some v). split; [done|]. apply Hin. eauto.
  - intros fuel Hfuel. rewrite length_fmap.
    eapply (range_query_pages (LedgerCalls0 := ledgerCalls hash o clock) (LedgerScans0 := ledgerScans o fuel)); eauto with lia.
    + cbn. cbv [mbind M_bind get]. by rewrite E.
Qed.
End ledgerScan.

(** * A concrete query *)

Module PageToy.
#[export] Instance RangeQueryStateResponse_eq_dec : EqDecision RangeQueryStateResponse.
Proof. solve_decision. Defined.

#[export] Instance RangeQueryStateResponse_countable : Countable RangeQueryStateResponse.
Proof.
  apply (inj_countable' (fun r => (KeysAndValues r, HasMore r, resp_ID r)) (fun '(kvs, more, id) => mkRangeQueryStateResponse kvs more id)). by intros [].
Defined.

(** Everything is written as the number that [Countable] gives it. *)
Definition toBytes {A} `{Countable A} (x : A) : result bytes := Ok (posBytes (encode x)).
Definition ofBytes {A} `{Countable A} (b : bytes) : result A := match bytesPos b ≫= decode with Some x => Ok x | None => Err end.

Lemma ofBytes_toBytes {A} `{Countable A} (x : A) : exists b, toBytes x = Ok b /\ ofBytes b = Ok x.
Proof. eexists. split; [reflexivity|]. unfold ofBytes. rewrite bytesPos_posBytes. cbn. by rewrite decode_encode. Qed.

#[export] Instance codec : ChaincodeCodec := {
  marshalChaincodeID c := Ok (cid_Name c);
  unmarshalChaincodeID b := Ok (mkChaincodeID [] b);
  marshalPutStateInfo := toBytes;
  unmarshalPutStateInfo := ofBytes;
  marshalRangeQueryState := toBytes;
  unmarshalRangeQueryState := ofBytes;
  marshalRangeQueryStateNext := toBytes;
  unmarshalRangeQueryStateNext := ofBytes;
  marshalRangeQueryStateClose := toBytes;
  unmarshalRangeQueryStateClose := ofBytes;
  marshalRangeQueryStateResponse := toBytes;
  unmarshalRangeQueryStateResponse := ofBytes;
  marshalChaincodeSpec _ := Err;
  unmarshalChaincodeSpec _ := Err;
  marshalChaincodeInput := toBytes;
  unmarshalChaincodeInput := ofBytes;
  invocationCtor := Ok;
  cloneTransaction := Ok
}.

Lemma codec_ok : pageCodec.
Proof. split; intros; apply ofBytes_toBytes. Qed.

(** A chaincode in a transaction. *)
Definition inTransaction {S Itr} (l : S) : Handler S Itr :=
  (newChaincodeSupportHandler ∅ l) <| h_ChaincodeID := Some (mkChaincodeID [] [x61]) |>
    <| h_txCtxs := Some {[ [x31] := mkTransactionContext None [] ∅ ]} |> <| h_isTransaction := Some {[ [x31] := true ]} |>.
End PageToy.

Lemma chaincode_reads_range_witness : exists (l : Ledger memDB StateImpl nat) pairs n, toyLedger toyOpen = Some l /\ ([x6b], [x76]) ∈ pairs /\
  forall fuel, (n <= fuel)%nat -> exists h',
    servedBy (Codec := PageToy.codec) (LedgerCalls0 := ledgerCalls (HashableState0 := tree toyHash canonicalOrder toyConf) toyHash canonicalOrder (fun _ => now))
      (LedgerScans0 := ledgerScans (HashableState0 := tree toyHash canonicalOrder toyConf) canonicalOrder fuel)
      (fun _ => [x30]) (fun _ => []) (fun _ _ _ => mret Err) (fun _ _ => mret (None, true))
      (Datatypes.S (pagesFor (length pairs - maxRangeQueryStateLimit))) [x31]
      (RangeQueryState [] [] (fun r => match r with
        | Ok iter => readAll fuel iter [] (fun r => StubReturn (match r with Ok pairs => Ok (concat (snd <$> pairs)) | Err => Err end))
        | Err => StubReturn Err end)) (PageToy.inTransaction l) =
    Done (StubReturn (Ok (concat (snd <$> pairs)))) h'.
Proof.
  destruct (toyReach toyOpen toyOpen_wf eq_refl toyOpen_runs) as (l & El & Hr).
  edestruct (chaincode_reads_range (Codec := PageToy.codec) toyHash canonicalOrder (fun _ => now) (fun _ => [x30]) (fun _ => [])
    (fun _ _ _ => mret Err) (fun _ _ => mret (None, true)) (PageToy.inTransaction l) _ (mkChaincodeID [] [x61]) [x31] [] []
    (fun r => StubReturn (match r with Ok pairs => Ok (concat (snd <$> pairs)) | Err => Err end)) PageToy.codec_ok Hr eq_refl)
    as (pairs & n & Hnd & Hin & Hrun).
  - apply (bool_decide_unpack (stateKeyDelimiter ∉ [x61])). vm_compute. exact Logic.I.
  - eexists. reflexivity.
  - exists l, pairs, n. split; [exact El|]. split.
    + apply Hin. split; [reflexivity|].
      assert (Ledger_GetState (HashableState0 := tree toyHash canonicalOrder toyConf) [x61] [x6b] false <$> toyLedger toyOpen =
        Done (Ok (Some [x76])) <$> toyLedger toyOpen) as E by (vm_compute; reflexivity).
      rewrite El in E. by injection E.
    + intros fuel Hf. destruct (Hrun fuel Hf) as (h' & E & _). exists h'. exact E.
Defined.
